(* ===== verification/_CoqProject ===== *)
-Q . S2P
Prelude.v
Endian.v
ByteArray.v
Codec.v
Timer.v
Fiber.v
Scheduler.v
FdManager.v
FdTable.v
IOManager.v
Hook.v
StringUtil.v
FileSys.v
Address.v
Text.v
Util.v
Log.v
Config.v
Mutex.v
Socket.v
TcpServer.v
ServerPool.v
Stream.v
Env.v
Thread.v
HookNet.v
Wake.v
Stack.v
Drain.v
Show.v
Daemon.v
Convert.v
LogYaml.v
