(* ===== verification/Prelude.v ===== *)
(** * MyServerFramework: a verification library

    The repository (src/serverframework) is a C++ framework for network servers:
    fibers, schedulers that run them on threads, an IO manager over epoll with timers,
    hooks that turn blocking system calls into waits of fibers, sockets and a TCP
    server, byte buffers, a log, a configuration and small helpers. This library models
    the program's own logic, one file per component, and proves what makes it correct.
    The kernel, pthread, the YAML library and what a callback does are arguments or type
    classes; the types of the interfaces say what is assumed of them, and every theorem
    with a hypothesis has a witness that applies it to a concrete input.

    ** Files

    - [Prelude] (this file): machine integers ([wrap], [swrap], [u8(z)] ... [i64(z)]),
      faults and the state-and-exception monad [M] with its rewrite rules ([mstep]),
      memory as lists ([splice], [uniform] blocks), permutations and bit operations.
    - [Endian] (util/endian_conv.h): byte order and the swaps, on hosts of either order.
    - [ByteArray] (util/bytearray.h, .cc): the chain of blocks, its capacity, read and
      write at a position, files and vectors. Refines a growable file.
    - [Codec] (the same files): the typed fields on top of it: fixed integers, varints,
      zigzag, floats, strings.
    - [Timer] (util/timer.h, .cc): the ordered set of timers, cancelling, resetting,
      expiry, the clock that goes back.
    - [Fiber] (fiber/fiber.h, .cc): contexts, resume and yield, [MainFunc], reuse.
    - [Scheduler] (fiber/scheduler.h, .cc): tasks, the [Run] loop of every thread as a step
      relation, stopping.
    - [FdManager] (net/fd_manager.h, .cc): the contexts of descriptors and their table.
    - [FdTable]: its calls from several threads, alone and as the hooks make them.
    - [IOManager] (net/iomanager.h, .cc): events registered for descriptors, epoll,
      [Idle]; uses [Timer].
    - [Hook] (net/hook.cc): the hooked calls; uses [FdManager] and [IOManager].
    - [StringUtil] (util/util.cc): URLs, trimming, paths, searching files.
    - [FileSys] (util/util.cc): making, removing and moving files over the system calls
      ([Class FileSystem], [Class FileLaws]).
    - [Address] (net/address.h, .cc): IPv4, IPv6 and Unix addresses, prefixes, text,
      look-up, interfaces.
    - [Text] (util/util.cc): wide strings, calendar times, formatting, names of threads, over
      the C library ([Class Libc], [Class LibcLaws]).
    - [Util] (util/util.cc, util/macro.h, util/singleton.h): the text of a call stack,
      assertions, singletons.
    - [Log] (log/log.h, .cc): levels, events, the pattern language, appenders, loggers,
      and the listener that follows the configuration.
    - [Config] (config/config.h, .cc): typed variables with listeners, the table, loading
      YAML ([Class Yaml]).
    - [Convert] (config/config.h): the conversions of the standard containers, instances of
      [Class LexicalCast] over the YAML library ([Class YamlText], [Class YamlLaws]).
    - [LogYaml] (log/log.cc): definitions of loggers to and from YAML, printing loggers,
      the variable [logs]; joins [Log], [Config] and [Convert].
    - [Mutex] (env/mutex.h, .cc): the guards over any lock ([Class Lockable]), [CASLock],
      the locks over pthread ([Class Pthread]), the semaphore.
    - [Socket] (net/socket.h, .cc): sockets over the system calls ([Class Net],
      [Class NetLaws]); uses [Address] and [FdManager].
    - [TcpServer] (tcp/tcp_server.h, .cc): a server over shared sockets, its functions on
      two schedulers interleaved; uses [Socket].
    - [ServerPool]: the server on the threads of [Scheduler], its functions as callbacks and
      fibers that wait.
    - [Stream] (util/stream.h, .cc): reading and writing of a fixed size.
    - [Env] (env/env.h, .cc): the command line, help texts, paths.
    - [Thread] (env/thread.h, .cc): the constructor and the thread as two actors; uses the
      semaphore of [Mutex].
    - [HookNet]: the interface of the sockets implemented by [Hook], [FdManager] and
      [IOManager] over a kernel ([Class Kernel], [Class KernelLaws]).
    - [Wake]: what the hooked calls do to who waits, as one more implementation of
      [NetLaws].
    - [Stack]: [ServerPool] on [HookNet], its waits as registrations of the IO manager.
    - [Drain]: every step of [Stack] after the server was stopped, as a step of a small
      abstract system with a measure, and schedules in which each thread keeps its turns.
    - [Show]: the texts of epoll's flags, of addresses, sockets and the server.
    - [Daemon] (util/daemon.h, .cc): the loop that restarts a crashed program.

    In each file a module named after the component has the state as a record with the
    source's fields, one definition per operation under the source's name, and below them
    the invariant, the lemmas and the theorems. Objects that C++ shares are on a heap and
    pointers are keys of it (contexts, sockets, fibers, loggers); a fault that C++ leaves
    undefined is [UndefinedBehaviour], an exception one of the other faults.

    ** What is shown

    - Data: the buffer is a file ([write_refines], [read_refines]); every message comes
      back across byte orders ([message_roundtrip]); varints never overrun their arrays;
      URLs and command lines come back ([url_roundtrip], [init_options]); the table of
      descriptors is a map ([FdManager_refines]), also for threads that open and close at the
      same time ([hooks_atomic]); patterns are parsed by their grammar
      ([formatter_parse]).
    - Time: no deadline is missed and exactly the due timers run ([timer_no_lost_wakeup],
      [ListExpiredCb_exact]); how long each wait of [Idle] is, also after interruptions
      ([idle_wait_bounds]).
    - Scheduling: control comes back to who resumed a fiber from where [Yield] goes
      ([resume_returns]); tasks are conserved under every interleaving ([tasks_conserved]),
      events under every sequence of calls that keeps the rules of the module
      ([events_conserved]); schedulers and threads end ([stopping_exits], [thread_ends]).
      A server on a pool of threads does what the server alone does, and each of its
      functions is in one place ([server_on_pool]); over the whole stack, who waits is
      registered, and stopping the server wakes all loops ([stop_wakes_all]); a stopped
      server comes to its end, and gives back all it opened, under every schedule in which
      each thread keeps getting its turn ([stopped_server_drains]). These three say what
      happens as long as no fiber is resumed before it has switched away, which the code
      does not prevent; the last two also assume that [epoll_ctl] changes and deletes what
      it has registered.
    - Hooks: a hooked call on a blocking socket is the blocking call or a timeout
      ([do_io_blocking]), and closing wakes the waiters ([close_wakes]).
    - Resources: descriptors and sockets are never lost, shared or used after their end
      ([sockets_own], [server_owns], [tcp_bind_exact], [thread_handshake]), also when the
      server runs on the library's own hooks and tables ([hooked_server]); locks exclude
      ([guards_exclusive]); semaphores count ([semaphore_conserves]).
    - Configuration and log: well-typed programs do not go wrong ([config_typed]); a
      document sets exactly the variables it names ([LoadFromYaml_exact]); containers of
      every nesting come back from their text ([containers_roundtrip]); what the variable
      [logs] does to every logger ([logs_configured]), and what the manager prints
      ([manager_yaml]).
    - Files: what is removed and what the answer means ([Rm_exact]).

    Where the program does something else than its documentation says, an example or a
    lemma of the file shows it on a concrete input: search for the sections on edge cases.

    ** Fuel and bounds

    Loops that are not structural take fuel, and a theorem or lemma shows that the fuel
    given is enough: the bytes left ([Stream.fix_loop]), the size of a document
    ([Config.ListAllMember]), the depth of a directory ([FileSys.Rm_fuel]), 33 turns for
    32 bits ([Address.CountBytes_loop]), the length of a pattern ([Log.parse_loop]), the
    blocks of a buffer ([ByteArray.destroy_loop]). A stopped server ends within a number of
    rounds that is linear in its functions and threads ([Drain.measure_bound]). Loops that
    wait for the kernel take the list of its answers ([Hook.io_loop], [Daemon.daemon_loop]); [None] means that the call has not
    returned. Steps of threads are interleaved at the points where the program locks,
    waits or yields. Integers have the width of the source and wrap as in C++.

    ** Not modelled

    Assembly and context switching below [swapcontext]; printing of logs inside the
    operations of other components; what is the C library's, the kernel's or the YAML
    library's; the programs under src/tests. The weak memory of the hardware is not
    modelled: lock-protected sections are atomic. In [Stack] no listening socket has a
    receive timeout, as the server sets none, and clients are handled without a call that
    waits, as [HandleClient] does; the timers of waits are in [Hook] and [IOManager]. *)

From stdpp Require Export prelude gmap strings.
From Stdlib Require Export ZArith Lia.

#[global] Set Default Proof Using "Type".

(** ** Machine integers *)

Declare Scope mach_scope.
Delimit Scope mach_scope with mach.

(** The value an unsigned [w]-bit register holds after it is assigned [z]. *)
Definition wrap (w z : Z) : Z := (z `mod` 2 ^ w)%Z.

(** The value a signed [w]-bit register holds after it is assigned [z]
    (two's complement). *)
Definition swrap (w z : Z) : Z :=
  (let u := wrap w z in if decide (u < 2 ^ (w - 1)) then u else u - 2 ^ w)%Z.

Notation "'u8' ( z )" := (wrap 8 z%Z) (at level 0, format "'u8' ( z )") : mach_scope.
Notation "'u16' ( z )" := (wrap 16 z%Z) (at level 0, format "'u16' ( z )") : mach_scope.
Notation "'u32' ( z )" := (wrap 32 z%Z) (at level 0, format "'u32' ( z )") : mach_scope.
Notation "'u64' ( z )" := (wrap 64 z%Z) (at level 0, format "'u64' ( z )") : mach_scope.
Notation "'i8' ( z )" := (swrap 8 z%Z) (at level 0, format "'i8' ( z )") : mach_scope.
Notation "'i16' ( z )" := (swrap 16 z%Z) (at level 0, format "'i16' ( z )") : mach_scope.
Notation "'i32' ( z )" := (swrap 32 z%Z) (at level 0, format "'i32' ( z )") : mach_scope.
Notation "'i64' ( z )" := (swrap 64 z%Z) (at level 0, format "'i64' ( z )") : mach_scope.
Open Scope mach_scope.

Section ints.
Local Open Scope Z_scope.
Implicit Types w z : Z.

Lemma wrap_range w z : 0 ≤ w → 0 ≤ wrap w z < 2 ^ w.
Proof. intros. apply Z.mod_pos_bound. apply Z.pow_pos_nonneg; lia. Qed.

Lemma wrap_small w z : 0 ≤ z < 2 ^ w → wrap w z = z.
Proof. apply Z.mod_small. Qed.

Lemma wrap_wrap w z : wrap w (wrap w z) = wrap w z.
Proof. apply Z.mod_mod_divide, Z.divide_refl. Qed.

Lemma wrap_add_pow w z k : 0 ≤ w → wrap w (z + k * 2 ^ w) = wrap w z.
Proof. intros. apply Z_mod_plus_full. Qed.

Lemma pow_split w : 0 < w → 2 ^ w = 2 * 2 ^ (w - 1).
Proof. intros. rewrite <- Z.pow_succ_r by lia. f_equal; lia. Qed.

Lemma swrap_range w z : 0 < w → - 2 ^ (w - 1) ≤ swrap w z < 2 ^ (w - 1).
Proof.
  intros. unfold swrap. pose proof (wrap_range w z ltac:(lia)).
  pose proof (pow_split w ltac:(lia)). case_decide; lia.
Qed.

Lemma swrap_small w z : 0 < w → - 2 ^ (w - 1) ≤ z < 2 ^ (w - 1) → swrap w z = z.
Proof.
  intros Hw Hz. unfold swrap. pose proof (pow_split w ltac:(lia)) as Hp.
  destruct (decide (0 ≤ z)) as [H0|H0].
  - rewrite wrap_small by lia. case_decide; lia.
  - assert (wrap w z = z + 2 ^ w) as ->.
    { rewrite <- (wrap_small w (z + 2 ^ w)) by lia.
      rewrite <- (wrap_add_pow w z 1) by lia. f_equal; lia. }
    case_decide; lia.
Qed.

Lemma swrap_wrap w z : swrap w (wrap w z) = swrap w z.
Proof. unfold swrap. by rewrite wrap_wrap. Qed.

Lemma wrap_swrap w z : 0 < w → wrap w (swrap w z) = wrap w z.
Proof.
  intros. unfold swrap. case_decide; [apply wrap_wrap|].
  rewrite <- (wrap_add_pow w (wrap w z - 2 ^ w) 1) by lia.
  replace (wrap w z - 2 ^ w + 1 * 2 ^ w) with (wrap w z) by lia. apply wrap_wrap.
Qed.

(** A signed value survives the cast to the unsigned type and back. *)
Lemma swrap_of_wrap w z : 0 < w → - 2 ^ (w - 1) ≤ z < 2 ^ (w - 1) →
  swrap w (wrap w z) = z.
Proof. intros. rewrite swrap_wrap. by apply swrap_small. Qed.
End ints.

(** ** Results and the state-and-exception monad *)

(** How an operation of the program fails: a C++ exception, a failed
    [ASSERT] (the process aborts), or undefined behaviour (a null pointer or an
    out-of-range access). [OutOfFuel] marks a loop bound that was too small; no
    operation of the library returns it, which the theorems show. *)
Inductive fault :=
  | OutOfRange
  | LogicError
  | InvalidArgument
  | BadFunctionCall
  | BadLexicalCast
  | AssertFail
  | UndefinedBehaviour
  | OutOfFuel.

#[export] Instance fault_eq_dec : EqDecision fault.
Proof. solve_decision. Defined.

Inductive res (A : Type) :=
  | Ok (a : A)
  | Err (e : fault).
Arguments Ok {A} a.
Arguments Err {A} e.

#[export] Instance res_ret : MRet res := λ A, @Ok A.
#[export] Instance res_bind : MBind res := λ A B f m,
  match m with Ok a => f a | Err e => Err e end.
#[export] Instance res_eq_dec {A} `{EqDecision A} : EqDecision (res A).
Proof. solve_decision. Defined.

(** [M S A]: a member function of an object whose fields are [S]. An exception
    keeps the writes made before it was thrown, as in C++. *)
Definition M (S A : Type) : Type := S → res A * S.

#[export] Instance M_ret S : MRet (M S) := λ A a s, (Ok a, s).
#[export] Instance M_bind S : MBind (M S) := λ A B f m s,
  match m s with
  | (Ok a, s') => f a s'
  | (Err e, s') => (Err e, s')
  end.

Definition mthrow {S A} (e : fault) : M S A := λ s, (Err e, s).
Definition mget {S} : M S S := λ s, (Ok s, s).
Definition mgets {S A} (f : S → A) : M S A := λ s, (Ok (f s), s).
Definition mput {S} (s : S) : M S unit := λ _, (Ok tt, s).
Definition mmodify {S} (f : S → S) : M S unit := λ s, (Ok tt, f s).
Definition mlift {S A} (r : res A) : M S A := λ s, (r, s).
(** The [ASSERT] macro of util/macro.h. *)
Definition massert {S} (b : bool) : M S unit :=
  λ s, (if b then Ok tt else Err AssertFail, s).

Section monad.
Context {S A B : Type}.
Implicit Types (s : S) (m : M S A) (f : A → M S B).

Lemma bind_ok m f s s' a : m s = (Ok a, s') → (m ≫= f) s = f a s'.
Proof. intros H. unfold mbind, M_bind. by rewrite H. Qed.

Lemma bind_err m f s s' e : m s = (Err e, s') → (m ≫= f) s = (Err e, s').
Proof. intros H. unfold mbind, M_bind. by rewrite H. Qed.

Lemma bind_inv m f s s' b :
  (m ≫= f) s = (Ok b, s') → ∃ a s1, m s = (Ok a, s1) ∧ f a s1 = (Ok b, s').
Proof.
  unfold mbind, M_bind. destruct (m s) as [[a|e] s1]; [eauto|done].
Qed.
End monad.

Section monad_steps.
Context {S A B : Type}.
Implicit Types (s : S) (f : A → M S B).

Lemma bind_unfold (m : M S A) f s :
  (m ≫= f) s = match m s with (Ok a, s') => f a s' | (Err e, s') => (Err e, s') end.
Proof. reflexivity. Qed.

Lemma bind_mret (a : A) f s : (mret a ≫= f) s = f a s.
Proof. reflexivity. Qed.

Lemma bind_mgets (g : S → A) f s : (mgets g ≫= f) s = f (g s) s.
Proof. reflexivity. Qed.

Lemma bind_mlift (r : res A) f s :
  (mlift r ≫= f) s = match r with Ok a => f a s | Err e => (Err e, s) end.
Proof. reflexivity. Qed.
End monad_steps.

Lemma bind_mget {S B} (f : S → M S B) s : (mget ≫= f) s = f s s.
Proof. reflexivity. Qed.

Lemma bind_mmodify {S B} (g : S → S) (f : () → M S B) s : (mmodify g ≫= f) s = f tt (g s).
Proof. reflexivity. Qed.

Lemma bind_mthrow {S A B} (e : fault) (f : A → M S B) s : (mthrow e ≫= f) s = (Err e, s).
Proof. reflexivity. Qed.

Lemma bind_massert {S B} (b : bool) (f : () → M S B) s : b = true → (massert b ≫= f) s = f tt s.
Proof. by intros ->. Qed.

(** One step of a computation whose head is an access to the state. *)
Create Rewrite HintDb monad.
#[export] Hint Rewrite @bind_mret @bind_mgets @bind_mlift @bind_mget @bind_mmodify @bind_mthrow
  : monad.
Ltac mstep := autorewrite with monad.

(** ** Overwriting a segment of a list: [memcpy] into a buffer *)

Definition splice {A} (off : nat) (bs l : list A) : list A :=
  take off l ++ bs ++ drop (off + length bs) l.

Section splice.
Context {A : Type}.
Implicit Types (l bs : list A) (off : nat).

Lemma splice_length off bs l :
  off + length bs ≤ length l → length (splice off bs l) = length l.
Proof. intros. unfold splice. rewrite !length_app, length_take, length_drop. lia. Qed.

Lemma splice_nil off l : splice off [] l = l.
Proof. unfold splice. simpl. rewrite Nat.add_0_r. apply take_drop. Qed.

Lemma splice_app_l off bs l1 l2 :
  off + length bs ≤ length l1 → splice off bs (l1 ++ l2) = splice off bs l1 ++ l2.
Proof.
  intros. unfold splice. rewrite take_app_le by lia. rewrite drop_app_le by lia.
  by rewrite <- !(assoc_L (++)).
Qed.

Lemma splice_app_r off bs l1 l2 :
  splice (length l1 + off) bs (l1 ++ l2) = l1 ++ splice off bs l2.
Proof.
  unfold splice. rewrite take_app_add.
  replace (length l1 + off + length bs) with (length l1 + (off + length bs)) by lia.
  rewrite drop_app_add. by rewrite <- (assoc_L (++)).
Qed.

Lemma splice_splice off bs1 bs2 l :
  off + length bs1 + length bs2 ≤ length l →
  splice (off + length bs1) bs2 (splice off bs1 l) = splice off (bs1 ++ bs2) l.
Proof.
  intros. unfold splice.
  assert (length (take off l ++ bs1) = off + length bs1) as Hl.
  { rewrite length_app, length_take. lia. }
  rewrite !(assoc_L (++) (take off l)), <- Hl.
  rewrite take_app_length, drop_app_add, drop_drop.
  rewrite <- !(assoc_L (++)). do 4 f_equal. rewrite Hl, length_app. lia.
Qed.

Lemma take_splice off bs l : off ≤ length l → take off (splice off bs l) = take off l.
Proof. intros. unfold splice. apply take_app_length'. rewrite length_take. lia. Qed.

Lemma drop_splice off bs l :
  off ≤ length l → drop off (splice off bs l) = bs ++ drop (off + length bs) l.
Proof. intros. unfold splice. apply drop_app_length'. rewrite length_take. lia. Qed.
End splice.

(** ** Lists of blocks of one size *)

Definition uniform {A} (B : nat) (ns : list (list A)) : Prop :=
  Forall (λ n, length n = B) ns.

Section uniform.
Context {A : Type}.
Implicit Types (ns : list (list A)) (B i : nat).

Lemma uniform_concat_length B ns : uniform B ns → length (concat ns) = length ns * B.
Proof. induction 1 as [|n ns Hn _ IH]; simpl; [done|]. rewrite length_app. lia. Qed.

Lemma uniform_lookup B ns i n : uniform B ns → ns !! i = Some n → length n = B.
Proof. intros Hu Hi. by apply (Forall_lookup_1 _ _ _ _ Hu Hi). Qed.

Lemma uniform_is_Some B ns i : uniform B ns → i < length ns →
  ∃ n, ns !! i = Some n ∧ length n = B.
Proof.
  intros Hu Hi. destruct (lookup_lt_is_Some_2 ns i Hi) as [n Hn].
  exists n. split; [done|]. by eapply uniform_lookup.
Qed.

Lemma uniform_app B ns1 ns2 : uniform B ns1 → uniform B ns2 → uniform B (ns1 ++ ns2).
Proof. intros. by apply Forall_app. Qed.

Lemma uniform_insert B ns i n : uniform B ns → length n = B → uniform B (<[i:=n]> ns).
Proof. intros. by apply Forall_insert. Qed.

Lemma concat_split B ns i n : uniform B ns → ns !! i = Some n →
  ∃ pre post, concat ns = pre ++ n ++ post ∧ length pre = i * B.
Proof.
  intros Hu Hi. exists (concat (take i ns)), (concat (drop (S i) ns)). split.
  - rewrite <- (take_drop_middle ns i n) at 1 by done.
    rewrite concat_app. done.
  - rewrite (uniform_concat_length B); [|by apply Forall_take].
    rewrite length_take. pose proof (lookup_lt_Some _ _ _ Hi). f_equal. lia.
Qed.

(** Writing inside block [i] is writing at [i * B + npos] of the whole. *)
Lemma concat_insert_splice B ns i n npos bs :
  uniform B ns → ns !! i = Some n → npos + length bs ≤ B →
  concat (<[i:=splice npos bs n]> ns) = splice (i * B + npos) bs (concat ns).
Proof.
  intros Hu Hi Hb. pose proof (uniform_lookup _ _ _ _ Hu Hi) as Hn.
  pose proof (lookup_lt_Some _ _ _ Hi) as Hlt.
  assert (length (concat (take i ns)) = i * B) as Hpre.
  { rewrite (uniform_concat_length B); [|by apply Forall_take].
    rewrite length_take. f_equal. lia. }
  rewrite insert_take_drop by done.
  rewrite <- (take_drop_middle ns i n) at 3 by done.
  rewrite !concat_app, <- Hpre, splice_app_r. f_equal. simpl.
  rewrite splice_app_l by lia. done.
Qed.

(** Reading inside block [i] is reading at [i * B + npos] of the whole. *)
Lemma concat_lookup_segment B ns i n npos m :
  uniform B ns → ns !! i = Some n → npos + m ≤ B →
  take m (drop npos n) = take m (drop (i * B + npos) (concat ns)).
Proof.
  intros Hu Hi Hm. pose proof (uniform_lookup _ _ _ _ Hu Hi) as Hn.
  destruct (concat_split _ _ _ _ Hu Hi) as (pre & post & -> & <-).
  rewrite drop_app_add. rewrite drop_app_le by lia.
  rewrite take_app_le; [done|]. rewrite length_drop. lia.
Qed.
End uniform.

(** Reading [a] elements and then [c] more is reading [a + c]. *)
Lemma take_drop_split {A} (l : list A) off a c :
  take a (drop off l) ++ take c (drop (off + a) l) = take (a + c) (drop off l).
Proof. by rewrite <- drop_drop, take_take_drop. Qed.

(** Permutations between concatenations: every element occurs equally often. *)
Ltac perm_count :=
  match goal with |- @Permutation ?A _ _ =>
    let d := constr:(decide_rel (@eq A)) in
    apply (proj2 (Permutation_count_occ d _ _));
    let x := fresh in intros x;
    repeat match goal with H : @Permutation A _ _ |- _ =>
      generalize (proj1 (Permutation_count_occ d _ _) H x); clear H; intros H end;
    rewrite ?count_occ_app in *; simpl in *; lia
  end.

Lemma delete_insert_same {A} (l : list A) i x : delete i (<[i := x]> l) = delete i l.
Proof. revert i. induction l as [|y l IH]; intros [|i]; simpl; [done..|]. f_equal. apply IH. Qed.

(** A sum over a list when one element is replaced, or leaves. *)
Lemma sum_with_insert {A} (f : A → nat) (l : list A) i x y : l !! i = Some x →
  (sum_list_with f (<[i := y]> l) + f x = sum_list_with f l + f y)%nat.
Proof. revert i. induction l as [|z l IH]; intros [|i] Hi; simplify_eq/=; [lia|]. specialize (IH _ Hi). lia. Qed.

Lemma sum_with_delete {A} (f : A → nat) (l : list A) i x : l !! i = Some x →
  (sum_list_with f (delete i l) + f x = sum_list_with f l)%nat.
Proof. revert i. induction l as [|z l IH]; intros [|i] Hi; simplify_eq/=; [lia|]. specialize (IH _ Hi). lia. Qed.

(** ** Bit operations as arithmetic *)

Section bits.
Local Open Scope Z_scope.

Lemma lor_disjoint_add r x i :
  0 ≤ i → 0 ≤ r < 2 ^ i → Z.lor r (x * 2 ^ i) = r + x * 2 ^ i.
Proof.
  intros Hi Hr. rewrite <- Z.shiftl_mul_pow2 by done.
  assert (Z.land r (Z.shiftl x i) = 0) as Hl.
  { apply Z.bits_inj'. intros k Hk. rewrite Z.land_spec, Z.bits_0, Z.shiftl_spec by done.
    destruct (decide (k < i)).
    - rewrite (Z.testbit_neg_r x) by lia. apply andb_false_r.
    - rewrite <- (Z.mod_small r (2 ^ i)) by done.
      rewrite Z.mod_pow2_bits_high by lia. done. }
  rewrite <- Z.lxor_lor by done. symmetry. by apply Z.add_nocarry_lxor.
Qed.

Lemma land_ones_mod x n : 0 ≤ n → Z.land x (2 ^ n - 1) = x `mod` 2 ^ n.
Proof. intros. rewrite <- Z.land_ones by done. f_equal. rewrite Z.ones_equiv. lia. Qed.

Lemma lxor_ones x n : 0 ≤ n → 0 ≤ x < 2 ^ n → Z.lxor x (2 ^ n - 1) = 2 ^ n - 1 - x.
Proof.
  intros Hn Hx. assert (2 ^ n - 1 = Z.ones n) as -> by (rewrite Z.ones_equiv; lia).
  assert (Z.ldiff x (Z.ones n) = 0) as Hd.
  { destruct (decide (x = 0)) as [->|]; [apply Z.ldiff_0_l|].
    apply Z.ldiff_ones_r_low; [lia|]. apply Z.log2_lt_pow2; lia. }
  rewrite (Z.sub_nocarry_ldiff _ _ Hd).
  apply Z.bits_inj'. intros k Hk.
  apply (f_equal (λ z, Z.testbit z k)) in Hd. rewrite Z.ldiff_spec, Z.bits_0 in Hd.
  rewrite Z.lxor_spec, Z.ldiff_spec.
  destruct (Z.testbit x k), (Z.testbit (Z.ones n) k); done.
Qed.

Lemma shiftr_div x n : 0 ≤ n → Z.shiftr x n = x / 2 ^ n.
Proof. apply Z.shiftr_div_pow2. Qed.
End bits.
