(* ===== verification/Endian.v ===== *)
(** Byte order: [byteswap] and [ByteswapOnLittleEndian] of util/endian_conv.h,
    and the bytes an unsigned integer occupies in memory. *)

From S2P Require Import Prelude.

Module Endian.
Local Open Scope Z_scope.

(** [SYLAR_LITTLE_ENDIAN] is 1 and [SYLAR_BIG_ENDIAN] is 2 in the source. *)
Inductive endian := SYLAR_LITTLE_ENDIAN | SYLAR_BIG_ENDIAN.

#[export] Instance endian_eq_dec : EqDecision endian.
Proof. solve_decision. Defined.

(** The [n] bytes of [v], least significant first. *)
Fixpoint le_bytes (n : nat) (v : Z) : list Z :=
  match n with
  | O => []
  | S n => v `mod` 256 :: le_bytes n (v / 256)
  end.

Fixpoint of_le (bs : list Z) : Z :=
  match bs with
  | [] => 0
  | b :: bs => b + 256 * of_le bs
  end.

(** [bswap_16], [bswap_32], [bswap_64] of <byteswap.h>, by the number of bytes. *)
Definition byteswap (n : nat) (v : Z) : Z := of_le (rev (le_bytes n v)).

(** The bytes of an [n]-byte unsigned integer at increasing addresses on a host
    of the given byte order, and the integer such bytes are. *)
Definition mem_bytes (host : endian) (n : nat) (v : Z) : list Z :=
  match host with
  | SYLAR_LITTLE_ENDIAN => le_bytes n v
  | SYLAR_BIG_ENDIAN => rev (le_bytes n v)
  end.

Definition of_mem (host : endian) (bs : list Z) : Z :=
  match host with
  | SYLAR_LITTLE_ENDIAN => of_le bs
  | SYLAR_BIG_ENDIAN => of_le (rev bs)
  end.

(** The host's byte order, [SYLAR_BYTE_ORDER], is the argument [host]. *)
Definition ByteswapOnLittleEndian (host : endian) (n : nat) (t : Z) : Z :=
  match host with
  | SYLAR_BIG_ENDIAN => t
  | SYLAR_LITTLE_ENDIAN => byteswap n t
  end.

Definition ByteswapOnBigEndian (host : endian) (n : nat) (t : Z) : Z :=
  match host with
  | SYLAR_BIG_ENDIAN => byteswap n t
  | SYLAR_LITTLE_ENDIAN => t
  end.

Definition is_byte (b : Z) : Prop := 0 ≤ b < 256.

(** *** Facts *)

Lemma le_bytes_length n v : length (le_bytes n v) = n.
Proof. revert v. induction n; intros; simpl; auto. Qed.

Lemma mem_bytes_length host n v : length (mem_bytes host n v) = n.
Proof. destruct host; simpl; rewrite ?length_rev; apply le_bytes_length. Qed.

Lemma le_bytes_byte n v : Forall is_byte (le_bytes n v).
Proof.
  revert v. induction n; intros v; simpl; constructor; [|apply IHn].
  apply Z.mod_pos_bound. lia.
Qed.

Lemma mem_bytes_byte host n v : Forall is_byte (mem_bytes host n v).
Proof. destruct host; simpl; [|apply Forall_rev]; apply le_bytes_byte. Qed.

Lemma pow_bytes_succ n : 2 ^ (8 * Z.of_nat (S n)) = 256 * 2 ^ (8 * Z.of_nat n).
Proof.
  replace (8 * Z.of_nat (S n)) with (8 + 8 * Z.of_nat n) by lia.
  rewrite Z.pow_add_r by lia. reflexivity.
Qed.

Lemma of_le_le_bytes n v : of_le (le_bytes n v) = wrap (8 * Z.of_nat n) v.
Proof.
  revert v. induction n as [|n IH]; intros v; simpl le_bytes; simpl of_le.
  - unfold wrap. simpl. by rewrite Z.mod_1_r.
  - rewrite IH. unfold wrap. rewrite pow_bytes_succ.
    rewrite Z.rem_mul_r by lia. reflexivity.
Qed.

Lemma of_le_range bs : Forall is_byte bs → 0 ≤ of_le bs < 2 ^ (8 * Z.of_nat (length bs)).
Proof.
  unfold is_byte. induction 1 as [|b bs Hb _ IH]; [simpl; lia|].
  simpl length. rewrite pow_bytes_succ. simpl of_le. lia.
Qed.

Lemma le_bytes_of_le bs : Forall is_byte bs → le_bytes (length bs) (of_le bs) = bs.
Proof.
  unfold is_byte. induction 1 as [|b bs Hb _ IH]; [done|]. simpl.
  replace ((b + 256 * of_le bs) `mod` 256) with b by
    (rewrite Z.mul_comm, Z_mod_plus_full, Z.mod_small; lia).
  replace ((b + 256 * of_le bs) / 256) with (of_le bs) by
    (rewrite Z.mul_comm, Z_div_plus_full, Z.div_small; lia).
  by rewrite IH.
Qed.

Lemma of_mem_mem_bytes host n v :
  of_mem host (mem_bytes host n v) = wrap (8 * Z.of_nat n) v.
Proof. destruct host; simpl; rewrite ?rev_involutive; apply of_le_le_bytes. Qed.

Lemma of_mem_range host bs :
  Forall is_byte bs → 0 ≤ of_mem host bs < 2 ^ (8 * Z.of_nat (length bs)).
Proof.
  intros H. destruct host; simpl; [by apply of_le_range|].
  rewrite <- length_rev. by apply of_le_range, Forall_rev.
Qed.

Lemma mem_bytes_of_mem host bs :
  Forall is_byte bs → mem_bytes host (length bs) (of_mem host bs) = bs.
Proof.
  intros H. destruct host; simpl; [by apply le_bytes_of_le|].
  rewrite <- length_rev, le_bytes_of_le by by apply Forall_rev.
  apply rev_involutive.
Qed.

Lemma le_bytes_byteswap n v : le_bytes n (byteswap n v) = rev (le_bytes n v).
Proof.
  unfold byteswap. rewrite <- (le_bytes_length n v) at 1.
  rewrite <- length_rev. apply le_bytes_of_le, Forall_rev, le_bytes_byte.
Qed.

(** Swapping twice is the identity on values of the type. *)
Lemma byteswap_involutive n v :
  0 ≤ v < 2 ^ (8 * Z.of_nat n) → byteswap n (byteswap n v) = v.
Proof.
  intros. unfold byteswap at 1. rewrite le_bytes_byteswap, rev_involutive.
  rewrite of_le_le_bytes. by apply wrap_small.
Qed.

Lemma byteswap_range n v : 0 ≤ byteswap n v < 2 ^ (8 * Z.of_nat n).
Proof.
  unfold byteswap. pose proof (of_le_range (rev (le_bytes n v))) as H.
  rewrite length_rev, le_bytes_length in H. apply H, Forall_rev, le_bytes_byte.
Qed.

(** In memory a value swapped on a little-endian host only is big-endian on
    either host: the network byte order. *)
Lemma mem_bytes_network host n v :
  mem_bytes host n (ByteswapOnLittleEndian host n v) = rev (le_bytes n v).
Proof. destruct host; simpl; [apply le_bytes_byteswap|done]. Qed.

End Endian.
