(* ===== verification/ByteArray.v ===== *)
(** The block-list buffer of util/bytearray.{h,cc}: the chain of fixed-size
    nodes, the current-node pointer, the write, read, seek, growth, scatter/gather
    and file operations; the well-formedness invariant they keep; and the
    refinement of the chain to one contiguous array of cells. *)

From S2P Require Import Prelude Endian.
Import Endian.

Module ByteArray.
Local Open Scope Z_scope.

(** *** State *)

(** A byte of a block: [None] until something is stored ([new char[s]] leaves it
    indeterminate). *)
Abbreviation cell := (option Z).

(** A node's memory block. The node's [size] is the block's length. *)
Definition Node_new (s : Z) : list cell := replicate (Z.to_nat s) None.

(** [nodes_] is the chain from [root_] along [next], first node first; [cur_] is
    the index in it of the node [cur_] points to, [None] for the null pointer. *)
Record ByteArray := mkBA {
  base_size_ : Z;
  position_ : Z;
  capacity_ : Z;
  size_ : Z;
  endian_ : endian;
  nodes_ : list (list cell);
  cur_ : option nat
}.

Definition ByteArray_new (base_size : Z) : ByteArray :=
  mkBA base_size 0 base_size 0 SYLAR_BIG_ENDIAN [Node_new base_size] (Some 0%nat).

Definition set_position_ (v : Z) (b : ByteArray) : ByteArray :=
  mkBA (base_size_ b) v (capacity_ b) (size_ b) (endian_ b) (nodes_ b) (cur_ b).
Definition set_size_ (v : Z) (b : ByteArray) : ByteArray :=
  mkBA (base_size_ b) (position_ b) (capacity_ b) v (endian_ b) (nodes_ b) (cur_ b).
Definition set_cur_ (c : option nat) (b : ByteArray) : ByteArray :=
  mkBA (base_size_ b) (position_ b) (capacity_ b) (size_ b) (endian_ b) (nodes_ b) c.
Definition set_nodes_ (ns : list (list cell)) (b : ByteArray) : ByteArray :=
  mkBA (base_size_ b) (position_ b) (capacity_ b) (size_ b) (endian_ b) ns (cur_ b).

Definition IsLittleEndian (b : ByteArray) : bool :=
  bool_decide (endian_ b = SYLAR_LITTLE_ENDIAN).

Definition SetIsLittleEndian (val : bool) (b : ByteArray) : ByteArray :=
  mkBA (base_size_ b) (position_ b) (capacity_ b) (size_ b)
    (if val then SYLAR_LITTLE_ENDIAN else SYLAR_BIG_ENDIAN) (nodes_ b) (cur_ b).

Definition GetPosition (b : ByteArray) : Z := position_ b.
Definition GetSize (b : ByteArray) : Z := size_ b.
Definition GetBaseSize (b : ByteArray) : Z := base_size_ b.
(** [size_t] subtractions. *)
Definition GetReadSize (b : ByteArray) : Z := u64(size_ b - position_ b).
Definition GetCapacity (b : ByteArray) : Z := u64(capacity_ b - position_ b).

(** *** Pointers *)

(** [p->size] and [p->next]; dereferencing the null pointer is undefined. *)
Definition node_size (ns : list (list cell)) (p : option nat) : res Z :=
  match p with
  | Some i => match ns !! i with Some n => Ok (Z.of_nat (length n)) | None => Err UndefinedBehaviour end
  | None => Err UndefinedBehaviour
  end.

Definition node_next (ns : list (list cell)) (p : option nat) : res (option nat) :=
  match p with
  | Some i => if decide (S i < length ns)%nat then Ok (Some (S i)) else Ok None
  | None => Err UndefinedBehaviour
  end.

(** The destructor: the nodes it deletes, in order, from [root_] on. *)
Fixpoint destroy_loop (fuel : nat) (tmp : option nat) (ns : list (list cell)) : res (list nat) :=
  match tmp with
  | None => Ok []
  | Some i =>
      match fuel with
      | O => Err OutOfFuel
      | S fuel => nxt ← node_next ns tmp; freed ← destroy_loop fuel nxt ns; Ok (i :: freed)
      end
  end.

Definition destroy (b : ByteArray) : res (list nat) := destroy_loop (S (length (nodes_ b))) (Some 0%nat) (nodes_ b).

Definition cur_size : M ByteArray Z := λ b, (node_size (nodes_ b) (cur_ b), b).

(** [cur_ = cur_->next] *)
Definition cur_advance : M ByteArray unit := λ b,
  match node_next (nodes_ b) (cur_ b) with
  | Ok c => (Ok tt, set_cur_ c b)
  | Err e => (Err e, b)
  end.

(** [memcpy(cur_->ptr + npos, buf, size)]: outside the block it is undefined. *)
Definition memcpy_in (npos : Z) (buf : list Z) : M ByteArray unit := λ b,
  match cur_ b with
  | Some i =>
      match nodes_ b !! i with
      | Some n =>
          if decide (npos + Z.of_nat (length buf) ≤ Z.of_nat (length n))
          then (Ok tt, set_nodes_ (<[i := splice (Z.to_nat npos) (Some <$> buf) n]> (nodes_ b)) b)
          else (Err UndefinedBehaviour, b)
      | None => (Err UndefinedBehaviour, b)
      end
  | None => (Err UndefinedBehaviour, b)
  end.

(** [memcpy(buf, p->ptr + npos, size)] *)
Definition memcpy_out (ns : list (list cell)) (p : option nat) (npos size : Z) : res (list cell) :=
  match p with
  | Some i =>
      match ns !! i with
      | Some n =>
          if decide (npos + size ≤ Z.of_nat (length n))
          then Ok (take (Z.to_nat size) (drop (Z.to_nat npos) n))
          else Err UndefinedBehaviour
      | None => Err UndefinedBehaviour
      end
  | None => Err UndefinedBehaviour
  end.

(** [position_ += n] *)
Definition advance (n : Z) : M ByteArray unit :=
  mmodify (λ b, set_position_ u64(position_ b + n) b).

(** [position_ % base_size_]; undefined when [base_size_] is 0. *)
Definition block_offset (p : Z) : M ByteArray Z := λ b,
  (if decide (base_size_ b = 0) then Err UndefinedBehaviour
   else Ok (p `mod` base_size_ b), b).

(** *** Growth *)

Fixpoint add_nodes (count : nat) (b : ByteArray) : ByteArray :=
  match count with
  | O => b
  | S count =>
      add_nodes count
        (mkBA (base_size_ b) (position_ b) u64(capacity_ b + base_size_ b) (size_ b)
           (endian_ b) (nodes_ b ++ [Node_new (base_size_ b)]) (cur_ b))
  end.

(** [ceil(1.0 * size / base_size_)] is the exact ceiling: the quotient of two
    integers below 2^52 is never rounded onto a smaller integer. *)
Definition AddCapacity (size : Z) : M ByteArray unit := λ b,
  if decide (size = 0) then (Ok tt, b)
  else
    let old_cap := GetCapacity b in
    if decide (size ≤ old_cap) then (Ok tt, b)
    else if decide (base_size_ b = 0) then (Err UndefinedBehaviour, b)
    else
      let size := size - old_cap in
      let count := (size + base_size_ b - 1) / base_size_ b in
      let first := length (nodes_ b) in
      let b' := add_nodes (Z.to_nat count) b in
      if decide (old_cap = 0) then
        (Ok tt, set_cur_ (if decide (count = 0) then None else Some first) b')
      else (Ok tt, b').

(** *** Writing and reading at the current position *)

(** The loop of [write]. [rest] is the source from [bpos] on, so that its length
    is [size]. Each turn of the loop that does not finish consumes a whole block,
    so the length of the source bounds the number of turns. *)
Fixpoint write_loop (fuel : nat) (rest : list Z) (npos ncap : Z) : M ByteArray unit :=
  if decide (rest = []) then mret tt
  else match fuel with
  | O => mthrow OutOfFuel
  | S fuel =>
      let size := Z.of_nat (length rest) in
      if decide (size ≤ ncap) then
        memcpy_in npos rest;;
        sz ← cur_size;
        (if decide (sz = npos + size) then cur_advance else mret tt);;
        advance size
      else
        memcpy_in npos (take (Z.to_nat ncap) rest);;
        advance ncap;;
        cur_advance;;
        sz ← cur_size;
        write_loop fuel (drop (Z.to_nat ncap) rest) 0 sz
  end.

Definition write (buf : list Z) : M ByteArray unit :=
  if decide (buf = []) then mret tt
  else
    AddCapacity (Z.of_nat (length buf));;
    p ← mgets position_;
    npos ← block_offset p;
    sz ← cur_size;
    write_loop (length buf) buf npos u64(sz - npos);;
    mmodify (λ b, if decide (size_ b < position_ b) then set_size_ (position_ b) b else b).

Fixpoint read_loop (fuel : nat) (size npos ncap : Z) (acc : list cell) : M ByteArray (list cell) :=
  if decide (size ≤ 0) then mret acc
  else match fuel with
  | O => mthrow OutOfFuel
  | S fuel =>
      if decide (size ≤ ncap) then
        b ← mget;
        bs ← mlift (memcpy_out (nodes_ b) (cur_ b) npos size);
        sz ← cur_size;
        (if decide (sz = npos + size) then cur_advance else mret tt);;
        advance size;;
        mret (acc ++ bs)
      else
        b ← mget;
        bs ← mlift (memcpy_out (nodes_ b) (cur_ b) npos ncap);
        advance ncap;;
        cur_advance;;
        sz ← cur_size;
        read_loop fuel (size - ncap) 0 sz (acc ++ bs)
  end.

(** [read(buf, size)]: what is stored in [buf]. *)
Definition read (size : Z) : M ByteArray (list cell) :=
  b ← mget;
  if decide (GetReadSize b < size) then mthrow OutOfRange
  else
    npos ← block_offset (position_ b);
    sz ← cur_size;
    read_loop (Z.to_nat size) size npos u64(sz - npos) [].

(** [read(buf, size, position) const]: it starts from the node [cur_] points
    to, whatever [position] is. *)
Fixpoint read_at_loop (fuel : nat) (ns : list (list cell)) (cur : option nat)
    (size npos ncap : Z) (acc : list cell) : res (list cell) :=
  if decide (size ≤ 0) then Ok acc
  else match fuel with
  | O => Err OutOfFuel
  | S fuel =>
      if decide (size ≤ ncap) then
        bs ← memcpy_out ns cur npos size;
        Ok (acc ++ bs)
      else
        bs ← memcpy_out ns cur npos ncap;
        cur ← node_next ns cur;
        sz ← node_size ns cur;
        read_at_loop fuel ns cur (size - ncap) 0 sz (acc ++ bs)
  end.

Definition read_at (size position : Z) (b : ByteArray) : res (list cell) :=
  if decide (u64(size_ b - position) < size) then Err OutOfRange
  else if decide (base_size_ b = 0) then Err UndefinedBehaviour
  else
    let npos := position `mod` base_size_ b in
    sz ← node_size (nodes_ b) (cur_ b);
    read_at_loop (Z.to_nat size) (nodes_ b) (cur_ b) size npos u64(sz - npos) [].

(** *** Seeking and clearing *)

Fixpoint seek_loop (fuel : nat) (v : Z) : M ByteArray unit :=
  sz ← cur_size;
  if decide (sz < v) then
    match fuel with
    | O => mthrow OutOfFuel
    | S fuel => cur_advance;; seek_loop fuel (v - sz)
    end
  else if decide (v = sz) then cur_advance else mret tt.

Definition SetPosition (v : Z) : M ByteArray unit :=
  b ← mget;
  if decide (capacity_ b < v) then mthrow OutOfRange
  else
    mmodify (set_position_ v);;
    mmodify (λ b, if decide (size_ b < position_ b) then set_size_ (position_ b) b else b);;
    mmodify (set_cur_ (Some 0%nat));;
    seek_loop (length (nodes_ b)) v.

Definition Clear (b : ByteArray) : ByteArray :=
  mkBA (base_size_ b) 0 (base_size_ b) 0 (endian_ b) (take 1 (nodes_ b)) (Some 0%nat).

(** *** Whole-buffer output *)

Definition ToString (b : ByteArray) : res (list cell) :=
  if decide (GetReadSize b = 0) then Ok [] else read_at (GetReadSize b) (position_ b) b.

(** An [iovec]: the node whose block [iov_base] points into, the offset in the
    block, and [iov_len]. *)
Record iovec := Iov { iov_node : nat; iov_off : Z; iov_len : Z }.

(** The loop shared by the three [Get*Buffers] members; the block the current
    node points to is followed along [next]. *)
Fixpoint buffers_loop (fuel : nat) (ns : list (list cell)) (cur : option nat)
    (len npos ncap : Z) (acc : list iovec) : res (list iovec) :=
  if decide (len ≤ 0) then Ok acc
  else match fuel with
  | O => Err OutOfFuel
  | S fuel =>
      match cur with
      | None => Err UndefinedBehaviour
      | Some i =>
          if decide (len ≤ ncap) then Ok (acc ++ [Iov i npos len])
          else
            cur' ← node_next ns cur;
            sz ← node_size ns cur';
            buffers_loop fuel ns cur' (len - ncap) 0 sz (acc ++ [Iov i npos ncap])
      end
  end.

Definition GetReadBuffers (len : Z) (b : ByteArray) : res (Z * list iovec) :=
  let len := if decide (GetReadSize b < len) then GetReadSize b else len in
  if decide (len = 0) then Ok (0, [])
  else if decide (base_size_ b = 0) then Err UndefinedBehaviour
  else
    let npos := position_ b `mod` base_size_ b in
    sz ← node_size (nodes_ b) (cur_ b);
    iovs ← buffers_loop (Z.to_nat len) (nodes_ b) (cur_ b) len npos u64(sz - npos) [];
    Ok (len, iovs).

(** [count] steps along [next] from the root. *)
Fixpoint walk (count : nat) (ns : list (list cell)) (cur : option nat) : res (option nat) :=
  match count with
  | O => Ok cur
  | S count => cur' ← node_next ns cur; walk count ns cur'
  end.

(** The overload with a position clamps [len] by [GetReadSize()], which is
    relative to [position_] and not to its argument. *)
Definition GetReadBuffers_at (len position : Z) (b : ByteArray) : res (Z * list iovec) :=
  let len := if decide (GetReadSize b < len) then GetReadSize b else len in
  if decide (len = 0) then Ok (0, [])
  else if decide (base_size_ b = 0) then Err UndefinedBehaviour
  else
    let npos := position `mod` base_size_ b in
    cur ← walk (Z.to_nat (position / base_size_ b)) (nodes_ b) (Some 0%nat);
    sz ← node_size (nodes_ b) cur;
    iovs ← buffers_loop (Z.to_nat len) (nodes_ b) cur len npos u64(sz - npos) [];
    Ok (len, iovs).

Definition GetWriteBuffers (len : Z) : M ByteArray (Z * list iovec) :=
  if decide (len = 0) then mret (0, [])
  else
    AddCapacity len;;
    p ← mgets position_;
    npos ← block_offset p;
    sz ← cur_size;
    b ← mget;
    iovs ← mlift (buffers_loop (Z.to_nat len) (nodes_ b) (cur_ b) len npos u64(sz - npos) []);
    mret (len, iovs).

(** The memory a list of [iovec]s designates. *)
Definition gather (ns : list (list cell)) (iovs : list iovec) : list cell :=
  concat ((λ v, take (Z.to_nat (iov_len v)) (drop (Z.to_nat (iov_off v))
                  (default [] (ns !! iov_node v)))) <$> iovs).

(** *** Files *)

(** [WriteToFile]: the file opened by name is [file_ok]; what the stream
    receives is the result. [ofs.write] with a negative count is undefined. *)
Fixpoint write_file_loop (fuel : nat) (base : Z) (ns : list (list cell))
    (cur : option nat) (pos read_size : Z) (acc : list cell) : res (list cell) :=
  if decide (read_size ≤ 0) then Ok acc
  else match fuel with
  | O => Err OutOfFuel
  | S fuel =>
      let diff := i32(pos `mod` base) in
      let len := i64((if decide (base < read_size) then base else read_size) - diff) in
      if decide (len < 0) then Err UndefinedBehaviour
      else
        bs ← memcpy_out ns cur diff len;
        cur ← node_next ns cur;
        write_file_loop fuel base ns cur (pos + len) (read_size - len) (acc ++ bs)
  end.

Definition WriteToFile (file_ok : bool) (b : ByteArray) : res (bool * list cell) :=
  if negb file_ok then Ok (false, [])
  else if decide (base_size_ b = 0) then Err UndefinedBehaviour
  else
    out ← write_file_loop (S (length (nodes_ b))) (base_size_ b) (nodes_ b) (cur_ b)
            (position_ b) i64(GetReadSize b) [];
    Ok (true, out).

(** [ReadFromFile]: [None] is a file that does not open, [Some c] its contents.
    A read that delivers fewer than [base_size_] bytes sets the end-of-file flag;
    a file whose length is a multiple of [base_size_] ends with an empty read. *)
Fixpoint read_file_loop (fuel : nat) (rest : list Z) : M ByteArray unit :=
  b ← mget;
  if decide (Z.of_nat (length rest) < base_size_ b) then write rest
  else match fuel with
  | O => mthrow OutOfFuel
  | S fuel =>
      write (take (Z.to_nat (base_size_ b)) rest);;
      read_file_loop fuel (drop (Z.to_nat (base_size_ b)) rest)
  end.

Definition ReadFromFile (file : option (list Z)) : M ByteArray bool :=
  match file with
  | None => mret false
  | Some c => read_file_loop (length c) c;; mret true
  end.

(** *** Hexadecimal dump *)

Definition hex_digit (d : Z) : Z := if decide (d < 10) then 48 + d else 87 + d.

(** [setw(2)], [setfill('0')], [hex] of one byte, then a space. *)
Definition hex_byte (v : Z) : list Z := [hex_digit (v / 16); hex_digit (v `mod` 16); 32].

Fixpoint hex_loop (i : nat) (bs : list Z) : list Z :=
  match bs with
  | [] => []
  | v :: bs =>
      (if decide (0 < i ∧ i `mod` 32 = 0)%nat then [10] else []) ++ hex_byte v ++ hex_loop (S i) bs
  end.

(** The bytes of cells that have all been stored; looking at a cell that has not
    is a read of an indeterminate value. *)
Definition bytes_of (cs : list cell) : res (list Z) :=
  match mapM id cs with Some bs => Ok bs | None => Err UndefinedBehaviour end.

Definition ToHexString (b : ByteArray) : res (list Z) :=
  cs ← ToString b;
  bs ← bytes_of cs;
  Ok (hex_loop 0 bs).

(** *** Well-formedness *)

(** Where the current-node pointer has to be when the next byte to read or write
    has offset [off] in [n] blocks of [B] bytes. *)
Definition cur_for (B n off : Z) : option nat :=
  if decide (off = n * B) then None else Some (Z.to_nat (off / B)).

Record wf (b : ByteArray) : Prop := {
  wf_base : 0 < base_size_ b;
  wf_ne : (0 < length (nodes_ b))%nat;
  wf_uniform : uniform (Z.to_nat (base_size_ b)) (nodes_ b);
  wf_capacity : capacity_ b = Z.of_nat (length (nodes_ b)) * base_size_ b;
  wf_range : capacity_ b < 2 ^ 63;
  wf_position : 0 ≤ position_ b ≤ size_ b;
  wf_size : size_ b ≤ capacity_ b;
  wf_cur : cur_ b = cur_for (base_size_ b) (Z.of_nat (length (nodes_ b))) (position_ b)
}.

(** All the cells of the chain in order. *)
Definition flat (b : ByteArray) : list cell := concat (nodes_ b).

(** *** The specification: a growable file with a position *)

Record Spec := mkSpec { contents : list cell; pos : nat }.

Definition spec_write (bs : list Z) (s : Spec) : Spec :=
  mkSpec (take (pos s) (contents s) ++ (Some <$> bs) ++ drop (pos s + length bs) (contents s))
    (pos s + length bs).

Definition spec_read (n : nat) (s : Spec) : res (list cell) * Spec :=
  if decide (length (contents s) - pos s < n)%nat then (Err OutOfRange, s)
  else (Ok (take n (drop (pos s) (contents s))), mkSpec (contents s) (pos s + n)).

(** The abstraction function. *)
Definition abs (b : ByteArray) : Spec :=
  mkSpec (take (Z.to_nat (size_ b)) (flat b)) (Z.to_nat (position_ b)).

(** What can be read: the cells from [position_] to [size_]. *)
Definition peek (b : ByteArray) : list cell := drop (pos (abs b)) (contents (abs b)).

(** *** Facts about the pointer arithmetic *)

Lemma cur_for_inside B n i npos :
  0 < B → 0 ≤ npos < B → 0 ≤ i < n → cur_for B n (i * B + npos) = Some (Z.to_nat i).
Proof.
  intros. unfold cur_for. rewrite decide_False by nia.
  rewrite Z.add_comm, Z_div_plus_full, Z.div_small by lia. do 2 f_equal; lia.
Qed.

Lemma cur_for_next B n i :
  0 < B → 0 ≤ i < n →
  cur_for B n ((i + 1) * B) = if decide (i + 1 < n) then Some (Z.to_nat (i + 1)) else None.
Proof.
  intros. unfold cur_for. case_decide.
  - rewrite decide_False by nia. done.
  - rewrite decide_True by nia. rewrite Z_div_mult_full by lia. done.
Qed.

Lemma cur_for_Some B n off i :
  0 < B → 0 ≤ off ≤ n * B → cur_for B n off = Some i →
  Z.of_nat i = off / B ∧ off < n * B ∧ Z.of_nat i < n.
Proof.
  unfold cur_for. intros HB Hoff H. case_decide; [done|]. injection H as <-.
  pose proof (Z.div_pos off B). pose proof (Z.div_lt_upper_bound off B n). lia.
Qed.

Lemma node_size_ok B ns i :
  uniform B ns → (i < length ns)%nat → node_size ns (Some i) = Ok (Z.of_nat B).
Proof. intros Hu Hi. destruct (uniform_is_Some B ns i Hu Hi) as (n & Hn & <-). simpl. by rewrite Hn. Qed.

Lemma node_next_ok ns i :
  node_next ns (Some i) = Ok (if decide (S i < length ns)%nat then Some (S i) else None).
Proof. simpl. by case_decide. Qed.

Lemma memcpy_out_ok B ns i npos size :
  uniform B ns → (i < length ns)%nat → 0 ≤ npos → 0 ≤ size → npos + size ≤ Z.of_nat B →
  memcpy_out ns (Some i) npos size
  = Ok (take (Z.to_nat size) (drop (i * B + Z.to_nat npos) (concat ns))).
Proof.
  intros Hu Hi ???. destruct (uniform_is_Some B ns i Hu Hi) as (n & Hn & Hl). simpl.
  rewrite Hn, decide_True by lia. f_equal.
  apply (concat_lookup_segment B); [done..|lia].
Qed.

Lemma memcpy_in_ok B b i npos buf :
  uniform B (nodes_ b) → cur_ b = Some i → (i < length (nodes_ b))%nat →
  0 ≤ npos → npos + Z.of_nat (length buf) ≤ Z.of_nat B →
  ∃ ns, memcpy_in npos buf b = (Ok tt, set_nodes_ ns b) ∧ uniform B ns ∧
    length ns = length (nodes_ b) ∧
    concat ns = splice (i * B + Z.to_nat npos) (Some <$> buf) (flat b).
Proof.
  intros Hu Hc Hi ??. destruct (uniform_is_Some B _ i Hu Hi) as (n & Hn & Hl).
  eexists. unfold memcpy_in. rewrite Hc; cbn beta iota. rewrite Hn, decide_True by lia. split_and!; [done|..].
  - apply uniform_insert; [done|]. rewrite splice_length; [done|]. rewrite length_fmap. lia.
  - by rewrite length_insert.
  - apply (concat_insert_splice B); [done..|]. rewrite length_fmap. lia.
Qed.

(** The destructor ends and deletes every node once. *)
Lemma nodes_freed b : nodes_ b ≠ [] → destroy b = Ok (seq 0 (length (nodes_ b))).
Proof.
  intros Hne. unfold destroy. assert (∀ fuel i, (i < length (nodes_ b))%nat → (length (nodes_ b) - i < fuel)%nat →
    destroy_loop fuel (Some i) (nodes_ b) = Ok (seq i (length (nodes_ b) - i))) as Hl.
  { induction fuel as [|fuel IH]; intros i Hi Hf; [lia|]. cbn [destroy_loop]. rewrite node_next_ok. cbn [mbind res_bind].
    replace (length (nodes_ b) - i)%nat with (S (length (nodes_ b) - S i)) by lia. case_decide as Hlt.
    - by rewrite IH by lia.
    - destruct fuel as [|fuel]; [lia|]. replace (length (nodes_ b) - S i)%nat with 0%nat by lia. done. }
  assert (length (nodes_ b) ≠ 0%nat) by (by intros ?%nil_length_inv). rewrite Hl by lia. by rewrite Nat.sub_0_r.
Qed.

(** *** The loops *)

Definition set_tail (b : ByteArray) (n off : Z) (ns : list (list cell)) : ByteArray :=
  mkBA (base_size_ b) (position_ b + n) (capacity_ b) (size_ b) (endian_ b) ns
    (cur_for (base_size_ b) (Z.of_nat (length ns)) off).

Lemma cur_size_ok b i :
  uniform (Z.to_nat (base_size_ b)) (nodes_ b) → cur_ b = Some i →
  (i < length (nodes_ b))%nat → 0 < base_size_ b →
  cur_size b = (Ok (base_size_ b), b).
Proof.
  intros Hu Hc Hi HB. unfold cur_size. rewrite Hc. erewrite node_size_ok by done.
  by rewrite Z2Nat.id by lia.
Qed.

Lemma cur_advance_ok b i :
  cur_ b = Some i → (i < length (nodes_ b))%nat → 0 < base_size_ b →
  cur_advance b = (Ok tt, set_cur_ (cur_for (base_size_ b) (Z.of_nat (length (nodes_ b)))
                                     ((Z.of_nat i + 1) * base_size_ b)) b).
Proof.
  intros Hc Hi HB. unfold cur_advance. rewrite Hc, node_next_ok, cur_for_next by lia.
  do 3 f_equal. repeat case_decide; try lia; [|done]. f_equal; lia.
Qed.

(** The rest fits into the block. *)
Lemma write_loop_last fuel rest npos b i :
  0 < base_size_ b → uniform (Z.to_nat (base_size_ b)) (nodes_ b) →
  cur_ b = Some i → (i < length (nodes_ b))%nat →
  0 ≤ npos < base_size_ b → rest ≠ [] → Z.of_nat (length rest) ≤ base_size_ b - npos →
  0 ≤ position_ b → position_ b + Z.of_nat (length rest) < 2 ^ 64 →
  ∃ ns, write_loop (S fuel) rest npos (base_size_ b - npos) b
        = (Ok tt, set_tail b (Z.of_nat (length rest))
             (Z.of_nat i * base_size_ b + npos + Z.of_nat (length rest)) ns) ∧
    uniform (Z.to_nat (base_size_ b)) ns ∧ length ns = length (nodes_ b) ∧
    concat ns = splice (Z.to_nat (Z.of_nat i * base_size_ b + npos)) (Some <$> rest) (flat b).
Proof.
  intros HB Hu Hc Hi Hn Hne Hfit Hp0 Hp. simpl. rewrite decide_False, decide_True by done.
  destruct (memcpy_in_ok (Z.to_nat (base_size_ b)) b i npos rest) as (ns & Hm & Hu' & Hl & Hcat);
    [done..|lia|lia|].
  exists ns. split_and!; [|done|done|].
  2: { rewrite Hcat. f_equal. nia. }
  rewrite bind_unfold, Hm, bind_unfold.
  erewrite (cur_size_ok _ i) by (simpl; rewrite ?Hl; done).
  cbn [base_size_ set_nodes_]. rewrite bind_unfold. case_decide as Hend.
  - erewrite (cur_advance_ok _ i) by (simpl; rewrite ?Hl; done). simpl.
    unfold advance, mmodify, set_tail, set_position_. simpl.
    rewrite wrap_small by lia. do 3 f_equal. lia.
  - unfold mret, M_ret, advance, mmodify, set_tail, set_position_. simpl.
    rewrite wrap_small by lia. rewrite Hl, Hc, <- Z.add_assoc.
    rewrite cur_for_inside by lia. do 3 f_equal. lia.
Qed.

Lemma write_loop_ok fuel rest npos b i :
  0 < base_size_ b → uniform (Z.to_nat (base_size_ b)) (nodes_ b) →
  cur_ b = Some i → (i < length (nodes_ b))%nat →
  0 ≤ npos < base_size_ b → rest ≠ [] → (length rest ≤ fuel)%nat →
  0 ≤ position_ b → position_ b + Z.of_nat (length rest) < 2 ^ 64 →
  Z.of_nat i * base_size_ b + npos + Z.of_nat (length rest)
    ≤ Z.of_nat (length (nodes_ b)) * base_size_ b →
  ∃ ns, write_loop fuel rest npos (base_size_ b - npos) b
        = (Ok tt, set_tail b (Z.of_nat (length rest))
             (Z.of_nat i * base_size_ b + npos + Z.of_nat (length rest)) ns) ∧
    uniform (Z.to_nat (base_size_ b)) ns ∧ length ns = length (nodes_ b) ∧
    concat ns = splice (Z.to_nat (Z.of_nat i * base_size_ b + npos)) (Some <$> rest) (flat b).
Proof.
  revert rest npos b i. induction fuel as [|fuel IH];
    intros rest npos b i HB Hu Hc Hi Hn Hne Hf Hp0 Hp Hroom.
  { destruct rest; simpl in *; [done|lia]. }
  destruct (decide (Z.of_nat (length rest) ≤ base_size_ b - npos)) as [Hfit|Hfit]; [by apply write_loop_last|].
  simpl. rewrite !decide_False by done. destruct (memcpy_in_ok (Z.to_nat (base_size_ b)) b i npos
      (take (Z.to_nat (base_size_ b - npos)) rest)) as (ns & Hm & Hu' & Hl & Hcat);
    [done..|lia|rewrite length_take; lia|].
  assert (Z.of_nat (length (take (Z.to_nat (base_size_ b - npos)) rest)) = base_size_ b - npos)
    as Htl by (rewrite length_take; lia).
  rewrite bind_unfold, Hm, bind_unfold. unfold advance at 1, mmodify at 1.
  cbn [position_ set_nodes_]. rewrite wrap_small by lia. rewrite bind_unfold.
  erewrite (cur_advance_ok _ i) by (simpl; rewrite ?Hl; done).
  rewrite bind_unfold. cbn [base_size_ nodes_ set_position_ set_nodes_ set_cur_].
  assert (S i < length (nodes_ b))%nat as HSi by nia.
  rewrite cur_for_next, decide_True by lia.
  replace (Z.to_nat (Z.of_nat i + 1)) with (S i) by lia.
  set (b1 := set_cur_ _ _).
  assert (cur_size b1 = (Ok (base_size_ b1), b1)) as ->
    by (apply (cur_size_ok _ (S i)); simpl; rewrite ?Hl; done).
  assert (length (drop (Z.to_nat (base_size_ b - npos)) rest)
          = length rest - Z.to_nat (base_size_ b - npos))%nat as Hdl
    by apply length_drop.
  cbv iota beta.
  destruct (IH (drop (Z.to_nat (base_size_ b - npos)) rest) 0 b1 (S i))
    as (ns' & Hrun & Hu'' & Hl' & Hcat'); simpl; rewrite ?Hdl, ?Hl; try done; try lia.
  { intros H0. apply (f_equal length) in H0. rewrite Hdl in H0. simpl in H0. lia. }
  rewrite Z.sub_0_r in Hrun. exists ns'. split_and!; [etransitivity; [exact Hrun|]|done|rewrite Hl'; exact Hl|].
  - unfold set_tail. simpl. rewrite Hdl. do 2 f_equal; [lia|]. f_equal. lia.
  - rewrite Hcat'. unfold flat. simpl. rewrite Hcat.
    replace (Z.to_nat (Z.of_nat (S i) * base_size_ b + 0)) with
      (i * Z.to_nat (base_size_ b) + Z.to_nat npos
       + length (Some <$> take (Z.to_nat (base_size_ b - npos)) rest))%nat
      by (rewrite length_fmap; nia).
    rewrite splice_splice.
    + rewrite <- fmap_app, take_drop. f_equal. nia.
    + unfold flat. rewrite !length_fmap, Hdl, (uniform_concat_length (Z.to_nat (base_size_ b))) by done. nia.
Qed.

(** *** Growth *)

Definition grown (k : nat) (b : ByteArray) : ByteArray :=
  let ns := nodes_ b ++ replicate k (Node_new (base_size_ b)) in
  mkBA (base_size_ b) (position_ b) (capacity_ b + Z.of_nat k * base_size_ b) (size_ b)
    (endian_ b) ns (cur_for (base_size_ b) (Z.of_nat (length ns)) (position_ b)).

Lemma uniform_new B k : uniform (Z.to_nat B) (replicate k (Node_new B)).
Proof. apply Forall_replicate. apply length_replicate. Qed.

Lemma flat_grown k b :
  flat (grown k b) = flat b ++ replicate (k * Z.to_nat (base_size_ b)) None.
Proof.
  unfold flat, grown, Node_new. simpl. rewrite concat_app. f_equal.
  induction k as [|k IH]; simpl; [done|]. rewrite IH, <- replicate_add. done.
Qed.

Lemma add_nodes_ok k b :
  0 ≤ capacity_ b → 0 ≤ base_size_ b → capacity_ b + Z.of_nat k * base_size_ b < 2 ^ 64 →
  add_nodes k b = set_cur_ (cur_ b) (grown k b).
Proof.
  revert b. induction k as [|k IH]; intros b Hc Hb Hr.
  - unfold grown, set_cur_. destruct b; simpl in *. rewrite app_nil_r. f_equal. lia.
  - simpl. rewrite IH by (simpl; rewrite ?wrap_small by lia; lia).
    rewrite wrap_small by lia.
    unfold grown, set_cur_. simpl. rewrite <- (assoc_L (++)). simpl. f_equal. lia.
Qed.

Lemma wf_grown k b :
  wf b → capacity_ b + Z.of_nat k * base_size_ b < 2 ^ 63 → wf (grown k b).
Proof.
  intros [HB Hne Hu Hcap Hr Hp Hs Hc] Hk. constructor; simpl; try done; try lia.
  - rewrite length_app. lia.
  - apply uniform_app; [done|]. apply uniform_new.
  - rewrite length_app, length_replicate. lia.
Qed.

Lemma grown_0 b : wf b → grown 0 b = b.
Proof.
  intros Hwf. destruct b as [B p c s e ns cu]. pose proof (wf_cur _ Hwf) as Hc. simpl in Hc.
  unfold grown; cbn -[cur_for]. rewrite app_nil_r, Hc. f_equal. lia.
Qed.

Lemma GetCapacity_wf b : wf b → GetCapacity b = capacity_ b - position_ b.
Proof. intros []. unfold GetCapacity. apply wrap_small. lia. Qed.

Lemma GetReadSize_wf b : wf b → GetReadSize b = size_ b - position_ b.
Proof. intros []. unfold GetReadSize. apply wrap_small. lia. Qed.

(** The number of nodes [AddCapacity] appends. *)
Definition new_nodes (size : Z) (b : ByteArray) : nat :=
  if decide (size ≤ capacity_ b - position_ b) then 0
  else Z.to_nat ((size - (capacity_ b - position_ b) + base_size_ b - 1) / base_size_ b).

Lemma new_nodes_enough size b :
  wf b → 0 ≤ size →
  position_ b + size ≤ capacity_ b + Z.of_nat (new_nodes size b) * base_size_ b ∧
  (capacity_ b + Z.of_nat (new_nodes size b) * base_size_ b < position_ b + size + base_size_ b ∨
   new_nodes size b = 0%nat).
Proof.
  intros [HB Hne Hu Hcap Hr Hp Hs Hc] H0. unfold new_nodes. case_decide; [lia|].
  set (x := size - (capacity_ b - position_ b) + base_size_ b - 1).
  pose proof (Z.div_mod x (base_size_ b) ltac:(lia)).
  pose proof (Z.mod_pos_bound x (base_size_ b) ltac:(lia)).
  assert (0 ≤ x / base_size_ b) by (apply Z.div_pos; lia).
  rewrite Z2Nat.id by done. nia.
Qed.

Lemma AddCapacity_ok size b :
  wf b → 0 ≤ size → position_ b + size + base_size_ b ≤ 2 ^ 63 →
  AddCapacity size b = (Ok tt, grown (new_nodes size b) b).
Proof.
  intros Hwf Hs Hr. pose proof (new_nodes_enough size b Hwf Hs) as Hn.
  pose proof (wf_grown (new_nodes size b) b Hwf) as Hg.
  unfold AddCapacity. rewrite GetCapacity_wf by done.
  destruct Hwf as [HB Hne Hu Hcap Hrg Hp Hsz Hc].
  case_decide as H0.
  { subst. unfold new_nodes. rewrite decide_True by lia. by rewrite grown_0. }
  unfold new_nodes in *. case_decide as Hfit.
  { by rewrite grown_0. }
  rewrite decide_False by lia.
  set (count := (size - (capacity_ b - position_ b) + base_size_ b - 1) / base_size_ b) in *.
  assert (0 < count) as Hcp by (apply Z.div_str_pos; lia).
  rewrite add_nodes_ok by lia. case_decide as Hfull.
  - rewrite decide_False by lia. unfold grown, set_cur_. simpl. do 2 f_equal.
    rewrite length_app, length_replicate. unfold cur_for. rewrite decide_False by nia.
    replace (position_ b) with (Z.of_nat (length (nodes_ b)) * base_size_ b) by lia.
    rewrite Z_div_mult_full by lia. f_equal. lia.
  - unfold grown, set_cur_. simpl. do 2 f_equal. rewrite Hc. unfold cur_for.
    rewrite length_app, length_replicate. rewrite !decide_False by nia. done.
Qed.

(** *** [write] *)

Lemma flat_length b : wf b → length (flat b) = Z.to_nat (capacity_ b).
Proof.
  intros [HB Hne Hu Hcap Hr Hp Hs Hc]. unfold flat.
  rewrite (uniform_concat_length (Z.to_nat (base_size_ b))) by done. nia.
Qed.

(** Where the current node is when the buffer is not full. *)
Lemma wf_cur_node b : wf b → position_ b < capacity_ b →
  ∃ i, cur_ b = Some i ∧ (i < length (nodes_ b))%nat ∧
    position_ b = Z.of_nat i * base_size_ b + position_ b `mod` base_size_ b ∧
    0 ≤ position_ b `mod` base_size_ b < base_size_ b.
Proof.
  intros [HB Hne Hu Hcap Hr Hp Hs Hc] Hlt. rewrite Hc. unfold cur_for.
  rewrite decide_False by lia. eexists; split; [done|].
  pose proof (Z.div_mod (position_ b) (base_size_ b) ltac:(lia)).
  pose proof (Z.mod_pos_bound (position_ b) (base_size_ b) ltac:(lia)).
  assert (0 ≤ position_ b / base_size_ b) by (apply Z.div_pos; lia).
  rewrite Z2Nat.id by done. nia.
Qed.

Lemma cur_node_None b : wf b → position_ b = capacity_ b → cur_ b = None.
Proof. intros [] ?. rewrite wf_cur0. unfold cur_for. rewrite decide_True; [done|lia]. Qed.

(** The state after a successful write of [buf]. *)
Definition written (buf : list Z) (b : ByteArray) (ns : list (list cell)) : ByteArray :=
  let p := position_ b + Z.of_nat (length buf) in
  mkBA (base_size_ b) p
    (capacity_ b + Z.of_nat (new_nodes (Z.of_nat (length buf)) b) * base_size_ b)
    (Z.max (size_ b) p) (endian_ b) ns (cur_for (base_size_ b) (Z.of_nat (length ns)) p).

Lemma block_offset_ok p b :
  base_size_ b ≠ 0 → block_offset p b = (Ok (p `mod` base_size_ b), b).
Proof. intros. unfold block_offset. by rewrite decide_False. Qed.

Lemma written_nil b :
  wf b → written [] b (nodes_ b) = b ∧ new_nodes 0 b = 0%nat.
Proof.
  intros []. assert (new_nodes 0 b = 0%nat) as Hk.
  { unfold new_nodes. by rewrite decide_True by lia. }
  split; [|done]. unfold written. change (Z.of_nat (length (@nil Z))) with 0.
  rewrite Hk, Z.add_0_r, <- wf_cur0. rewrite Z.max_l by lia.
  destruct b; simpl. f_equal. lia.
Qed.

(** What is left to do after the copy: the size. *)
Lemma raise_size buf b k ns p : k = new_nodes (Z.of_nat (length buf)) b → p = position_ b + Z.of_nat (length buf) →
  mmodify (λ b0, if decide (size_ b0 < position_ b0) then set_size_ (position_ b0) b0 else b0)
    (set_tail (grown k b) (Z.of_nat (length buf)) p ns) = (Ok tt, written buf b ns).
Proof.
  intros -> ->. change (set_tail _ _ _ ns) with (set_size_ (size_ b) (written buf b ns)).
  unfold mmodify, written, set_size_; simpl. case_decide; do 2 f_equal; lia.
Qed.

Lemma write_ok buf b :
  wf b → position_ b + Z.of_nat (length buf) + base_size_ b ≤ 2 ^ 63 →
  ∃ ns, write buf b = (Ok tt, written buf b ns) ∧ wf (written buf b ns) ∧
    concat ns = splice (Z.to_nat (position_ b)) (Some <$> buf)
      (flat b ++ replicate (new_nodes (Z.of_nat (length buf)) b * Z.to_nat (base_size_ b)) None).
Proof.
  intros Hwf Hr. unfold write. case_decide as Hne.
  { subst. exists (nodes_ b). destruct (written_nil b Hwf) as [Hw Hk].
    rewrite Hw. change (Z.of_nat (length (@nil Z))) with 0. rewrite Hk. cbn [fmap list_fmap Nat.mul replicate].
    by rewrite app_nil_r, splice_nil. }
  set (k := new_nodes (Z.of_nat (length buf)) b).
  pose proof (new_nodes_enough (Z.of_nat (length buf)) b Hwf ltac:(lia)) as [Hn1 Hn2].
  rewrite bind_unfold, AddCapacity_ok by (done || lia). fold k.
  assert (0 < length buf)%nat by (destruct buf; simpl in *; [done|lia]).
  assert (wf (grown k b)) as Hwg.
  { apply wf_grown; [done|]. destruct Hwf. fold k in Hn1, Hn2. destruct Hn2 as [|Hk]; [lia|].
    rewrite Hk. lia. }
  destruct (wf_cur_node (grown k b) Hwg) as (i & Hc & Hi & Hpi & Hm).
  { simpl. fold k in Hn1. lia. }
  pose proof Hwg as [HB Hlen Hu Hcap Hrg Hp Hsz Hcur].
  change (base_size_ (grown k b)) with (base_size_ b) in *.
  change (position_ (grown k b)) with (position_ b) in *.
  change (size_ (grown k b)) with (size_ b) in *.
  mstep. rewrite bind_unfold.
  rewrite block_offset_ok by (simpl; lia). rewrite bind_unfold.
  rewrite (cur_size_ok (grown k b) i) by done.
  change (base_size_ (grown k b)) with (base_size_ b).
  change (position_ (grown k b)) with (position_ b).
  rewrite wrap_small by lia. rewrite bind_unfold.
  assert (capacity_ (grown k b) = capacity_ b + Z.of_nat k * base_size_ b) as Hcapg by done.
  destruct (write_loop_ok (length buf) buf (position_ b `mod` base_size_ b)
     (grown k b) i) as (ns & Hrun & Hu' & Hl' & Hcat);
    try done; change (base_size_ (grown k b)) with (base_size_ b) in *;
    change (position_ (grown k b)) with (position_ b) in *; try lia.
  fold k in Hn1.
  rewrite Hrun. rewrite <- Hpi in Hcat |- *. exists ns.
  rewrite (raise_size buf b k ns) by done.
  split_and!; [done| |rewrite Hcat, flat_grown; done].
  destruct Hwf. constructor; simpl; try done; fold k; simpl in *; try lia.
  all: try (rewrite Hl'; simpl; lia).
Qed.

(** *** [read] *)

Lemma read_loop_ok fuel size npos acc b i :
  0 < base_size_ b → uniform (Z.to_nat (base_size_ b)) (nodes_ b) →
  cur_ b = Some i → (i < length (nodes_ b))%nat →
  0 ≤ npos < base_size_ b → 0 < size → (Z.to_nat size ≤ fuel)%nat →
  0 ≤ position_ b → position_ b + size < 2 ^ 64 →
  Z.of_nat i * base_size_ b + npos + size ≤ Z.of_nat (length (nodes_ b)) * base_size_ b →
  read_loop fuel size npos (base_size_ b - npos) acc b
  = (Ok (acc ++ take (Z.to_nat size)
           (drop (Z.to_nat (Z.of_nat i * base_size_ b + npos)) (flat b))),
     set_tail b size (Z.of_nat i * base_size_ b + npos + size) (nodes_ b)).
Proof.
  revert size npos acc b i. induction fuel as [|fuel IH];
    intros size npos acc b i HB Hu Hc Hi Hn Hne Hf Hp0 Hp Hroom; [lia|].
  simpl. rewrite decide_False by lia. case_decide as Hfit.
  - mstep. rewrite Hc, (memcpy_out_ok (Z.to_nat (base_size_ b))) by (done || lia).
    rewrite bind_unfold, (cur_size_ok b i), bind_unfold by done.
    replace (i * Z.to_nat (base_size_ b) + Z.to_nat npos)%nat with
      (Z.to_nat (Z.of_nat i * base_size_ b + npos)) by nia.
    case_decide as Hend.
    + rewrite (cur_advance_ok b i) by done.
      rewrite bind_unfold. unfold advance, mmodify, set_tail, set_position_, mret, M_ret. simpl.
      rewrite wrap_small by lia. do 3 f_equal. lia.
    + unfold mret, M_ret, advance. rewrite bind_mmodify.
      unfold set_tail, set_position_. simpl.
      rewrite wrap_small by lia. rewrite Hc, <- Z.add_assoc.
      rewrite cur_for_inside by lia. do 3 f_equal. lia.
  - mstep. rewrite Hc, (memcpy_out_ok (Z.to_nat (base_size_ b))) by (done || lia).
    unfold advance at 1. mstep.
    rewrite wrap_small by lia. rewrite bind_unfold.
    erewrite (cur_advance_ok _ i) by done. rewrite bind_unfold.
    cbn [base_size_ nodes_ set_position_ set_cur_].
    assert (S i < length (nodes_ b))%nat as HSi by nia.
    rewrite cur_for_next, decide_True by lia.
    replace (Z.to_nat (Z.of_nat i + 1)) with (S i) by lia.
    set (b1 := set_cur_ _ _).
    assert (cur_size b1 = (Ok (base_size_ b1), b1)) as ->
      by (apply (cur_size_ok _ (S i)); done).
    cbv iota beta.
    pose proof (IH (size - (base_size_ b - npos)) 0
      (acc ++ take (Z.to_nat (base_size_ b - npos))
         (drop (i * Z.to_nat (base_size_ b) + Z.to_nat npos) (concat (nodes_ b)))) b1 (S i)) as Hrun.
    rewrite Z.sub_0_r in Hrun. etransitivity; [apply Hrun; simpl; done || lia|]. f_equal.
    + f_equal. rewrite <- (assoc_L (++)). f_equal. unfold flat. simpl.
      replace (i * Z.to_nat (base_size_ b) + Z.to_nat npos)%nat with
        (Z.to_nat (Z.of_nat i * base_size_ b + npos)) by nia.
      replace (Z.to_nat (Z.of_nat (S i) * base_size_ b + 0)) with
        (Z.to_nat (Z.of_nat i * base_size_ b + npos) + Z.to_nat (base_size_ b - npos))%nat by nia.
      rewrite take_drop_split. f_equal. lia.
    + unfold set_tail. simpl. f_equal; [lia|]. f_equal. lia.
Qed.

(** The state after a successful read of [n] bytes. *)
Definition moved (n : Z) (b : ByteArray) : ByteArray :=
  set_tail b n (position_ b + n) (nodes_ b).

Lemma wf_moved n b : wf b → 0 ≤ n → position_ b + n ≤ size_ b → wf (moved n b).
Proof. intros [] ??. constructor; simpl; done || lia. Qed.

Lemma peek_length b : wf b → length (peek b) = Z.to_nat (size_ b - position_ b).
Proof.
  intros Hwf. unfold peek, abs. simpl. rewrite length_drop, length_take, flat_length by done.
  destruct Hwf. lia.
Qed.

Lemma peek_eq n b : wf b → 0 ≤ n → position_ b + n ≤ size_ b →
  take (Z.to_nat n) (drop (Z.to_nat (position_ b)) (flat b)) = take (Z.to_nat n) (peek b).
Proof.
  intros [] ??. unfold peek, abs. simpl. rewrite skipn_firstn_comm, take_take.
  f_equal. lia.
Qed.

Lemma peek_moved n b : wf b → 0 ≤ n → position_ b + n ≤ size_ b →
  peek (moved n b) = drop (Z.to_nat n) (peek b).
Proof.
  intros [] ??. unfold peek, abs, moved, set_tail, flat. simpl. rewrite drop_drop.
  f_equal. lia.
Qed.

(** [read] of at least one byte. *)
Lemma read_ok size b :
  wf b → 0 < size → size ≤ size_ b - position_ b →
  read size b = (Ok (take (Z.to_nat size) (peek b)), moved size b).
Proof.
  intros Hwf H0 Hs. unfold read. rewrite bind_mget, GetReadSize_wf by done.
  rewrite decide_False by lia.
  destruct (wf_cur_node b Hwf) as (i & Hc & Hi & Hpi & Hm).
  { destruct Hwf. lia. }
  pose proof Hwf as [HB Hlen Hu Hcap Hrg Hp Hsz Hcur].
  rewrite bind_unfold, block_offset_ok, bind_unfold by lia.
  rewrite (cur_size_ok b i) by done.
  assert (base_size_ b ≤ capacity_ b) by nia.
  rewrite wrap_small by lia.
  rewrite (read_loop_ok _ _ _ _ _ i) by (done || lia).
  rewrite <- Hpi, peek_eq by done || lia. done.
Qed.

(** A request for more than is left throws and changes nothing. *)
Lemma read_short size b :
  wf b → size_ b - position_ b < size → read size b = (Err OutOfRange, b).
Proof.
  intros Hwf Hs. unfold read. rewrite bind_mget, GetReadSize_wf by done.
  by rewrite decide_True by lia.
Qed.

(** A request for no byte dereferences the current node all the same. *)
Lemma read_zero b :
  wf b → read 0 b =
    (if decide (position_ b = capacity_ b) then Err UndefinedBehaviour else Ok [], b).
Proof.
  intros Hwf. unfold read. rewrite bind_mget, GetReadSize_wf by done.
  pose proof Hwf as [HB Hlen Hu Hcap Hrg Hp Hsz Hcur].
  rewrite decide_False by lia. rewrite bind_unfold, block_offset_ok, bind_unfold by lia.
  case_decide as Hfull.
  - unfold cur_size. by rewrite cur_node_None by done.
  - destruct (wf_cur_node b Hwf) as (i & Hc & Hi & Hpi & Hm); [lia|].
    by rewrite (cur_size_ok b i) by done.
Qed.

(** *** [SetPosition] *)

(** The seek loop started at node [j] with [v] bytes to go: it stops at the node
    of offset [j * B + v], or past the last one. *)
Lemma seek_loop_ok fuel v b j :
  0 < base_size_ b → uniform (Z.to_nat (base_size_ b)) (nodes_ b) →
  cur_ b = Some j → (j < length (nodes_ b))%nat → 0 ≤ v →
  Z.of_nat j * base_size_ b + v ≤ Z.of_nat (length (nodes_ b)) * base_size_ b →
  (length (nodes_ b) ≤ fuel + j)%nat →
  seek_loop fuel v b
  = (Ok tt, set_cur_ (cur_for (base_size_ b) (Z.of_nat (length (nodes_ b)))
                        (Z.of_nat j * base_size_ b + v)) b).
Proof.
  revert v b j. induction fuel as [|fuel IH]; intros v b j HB Hu Hc Hj Hv Hr Hf; [lia|].
  simpl. rewrite bind_unfold, (cur_size_ok b j) by done.
  case_decide as Hlt; [|case_decide as Heq].
  - rewrite bind_unfold, (cur_advance_ok b j) by done.
    assert (S j < length (nodes_ b))%nat as HSj by nia.
    rewrite cur_for_next, decide_True by lia.
    replace (Z.to_nat (Z.of_nat j + 1)) with (S j) by lia.
    rewrite (IH _ _ (S j)) by (simpl; done || lia). unfold set_cur_. simpl.
    do 3 f_equal. lia.
  - rewrite (cur_advance_ok b j) by done. do 4 f_equal. lia.
  - unfold mret, M_ret. rewrite cur_for_inside by lia. do 2 f_equal.
    destruct b; unfold set_cur_; simpl in *. f_equal. rewrite Hc. f_equal. lia.
Qed.

(** The state after [SetPosition v]. *)
Definition seeked (v : Z) (b : ByteArray) : ByteArray :=
  mkBA (base_size_ b) v (capacity_ b) (Z.max (size_ b) v) (endian_ b) (nodes_ b)
    (cur_for (base_size_ b) (Z.of_nat (length (nodes_ b))) v).

Lemma wf_seeked v b : wf b → 0 ≤ v ≤ capacity_ b → wf (seeked v b).
Proof. intros [] ?. constructor; simpl; done || lia. Qed.

Lemma SetPosition_ok v b : wf b → 0 ≤ v ≤ capacity_ b → SetPosition v b = (Ok tt, seeked v b).
Proof.
  intros Hwf Hv. pose proof Hwf as [HB Hlen Hu Hcap Hrg Hp Hsz Hcur].
  unfold SetPosition. rewrite bind_mget, decide_False by lia.
  mstep.
  match goal with |- context [seek_loop _ _ ?b1] => set (b2 := b1) end.
  assert (b2 = set_cur_ (Some 0%nat) (seeked v b)) as Hb2.
  { unfold b2, seeked, set_cur_, set_size_, set_position_. simpl. case_decide; simpl; f_equal; lia. }
  clearbody b2. subst b2.
  rewrite (seek_loop_ok _ _ _ 0%nat) by (simpl; done || lia). done.
Qed.

Lemma SetPosition_over v b :
  wf b → capacity_ b < v → SetPosition v b = (Err OutOfRange, b).
Proof. intros. unfold SetPosition. by rewrite bind_mget, decide_True. Qed.

(** *** Scatter/gather lists *)

(** Every vector lies inside the block it points into. *)
Definition iov_inside (ns : list (list cell)) (v : iovec) : Prop :=
  ∃ n, ns !! iov_node v = Some n ∧ 0 ≤ iov_off v ∧ 0 < iov_len v ∧
    iov_off v + iov_len v ≤ Z.of_nat (length n).

Lemma gather_app ns l1 l2 : gather ns (l1 ++ l2) = gather ns l1 ++ gather ns l2.
Proof. unfold gather. by rewrite fmap_app, concat_app. Qed.

Lemma gather_one B ns i npos len :
  uniform B ns → (i < length ns)%nat → 0 ≤ npos → 0 ≤ len → npos + len ≤ Z.of_nat B →
  gather ns [Iov i npos len]
  = take (Z.to_nat len) (drop (i * B + Z.to_nat npos) (concat ns)).
Proof.
  intros Hu Hi ???. destruct (uniform_is_Some B ns i Hu Hi) as (n & Hn & Hl).
  unfold gather. simpl. rewrite Hn, app_nil_r. simpl.
  apply (concat_lookup_segment B); [done..|lia].
Qed.

Lemma iov_inside_one B ns i npos len :
  uniform B ns → (i < length ns)%nat → 0 ≤ npos → 0 < len → npos + len ≤ Z.of_nat B →
  iov_inside ns (Iov i npos len).
Proof.
  intros Hu Hi ???. destruct (uniform_is_Some B ns i Hu Hi) as (n & Hn & Hl).
  exists n. simpl. rewrite Hl. done.
Qed.

Lemma buffers_loop_ok fuel (B : Z) ns i len npos acc :
  0 < B → uniform (Z.to_nat B) ns → (i < length ns)%nat → 0 ≤ npos < B → 0 < len →
  (Z.to_nat len ≤ fuel)%nat → Z.of_nat i * B + npos + len ≤ Z.of_nat (length ns) * B →
  Forall (iov_inside ns) acc →
  ∃ iovs, buffers_loop fuel ns (Some i) len npos (B - npos) acc = Ok iovs ∧
    Forall (iov_inside ns) iovs ∧
    gather ns iovs
    = gather ns acc ++ take (Z.to_nat len) (drop (Z.to_nat (Z.of_nat i * B + npos)) (concat ns)).
Proof.
  revert i len npos acc. induction fuel as [|fuel IH];
    intros i len npos acc HB Hu Hi Hn Hlen Hf Hroom Hacc; [lia|].
  cbn [buffers_loop]. rewrite decide_False by lia. case_decide as Hfit.
  - eexists; split_and!; [done| |].
    + apply Forall_app; split; [done|]. constructor; [|done].
      apply (iov_inside_one (Z.to_nat B)); done || lia.
    + rewrite gather_app, (gather_one (Z.to_nat B)) by (done || lia). do 3 f_equal. nia.
  - assert (S i < length ns)%nat as HSi by nia.
    rewrite node_next_ok, decide_True by done. unfold mbind, res_bind.
    rewrite (node_size_ok (Z.to_nat B)), Z2Nat.id by (done || lia).
    destruct (IH (S i) (len - (B - npos)) 0 (acc ++ [Iov i npos (B - npos)]))
      as (iovs & Hrun & Hin & Hg); try done; try lia.
    { apply Forall_app; split; [done|]. constructor; [|done].
      apply (iov_inside_one (Z.to_nat B)); done || lia. }
    rewrite Z.sub_0_r in Hrun. exists iovs. split_and!; [done..|].
    rewrite Hg, gather_app, (gather_one (Z.to_nat B)) by (done || lia).
    rewrite <- (assoc_L (++)). f_equal.
    replace (i * Z.to_nat B + Z.to_nat npos)%nat with (Z.to_nat (Z.of_nat i * B + npos)) by nia.
    replace (Z.to_nat (Z.of_nat (S i) * B + 0)) with
      (Z.to_nat (Z.of_nat i * B + npos) + Z.to_nat (B - npos))%nat by nia.
    rewrite take_drop_split. f_equal. lia.
Qed.

(** *** The contract *)

(** C5. [write] refines writing to a growable file: on a well-formed buffer it
    succeeds (no fault, no fuel shortage) whatever the number of blocks the data
    spans, the buffer stays well formed, the contents up to [size_] are the old ones
    overwritten and extended at [position_], and the byte order is untouched. *)
Theorem write_refines (buf : list Z) (b : ByteArray)
  (Hwf : wf b) (Hroom : position_ b + Z.of_nat (length buf) + base_size_ b ≤ 2 ^ 63) :
  ∃ b', write buf b = (Ok tt, b') ∧ wf b' ∧ abs b' = spec_write buf (abs b) ∧
    endian_ b' = endian_ b ∧ base_size_ b' = base_size_ b.
Proof.
  destruct (write_ok buf b Hwf Hroom) as (ns & Hrun & Hwf' & Hcat).
  exists (written buf b ns). split_and!; try done.
  unfold abs, spec_write. simpl. pose proof (flat_length b Hwf) as Hl.
  destruct Hwf as [HB Hlen Hu Hcap Hrg Hp Hsz Hcur].
  f_equal; [|lia]. unfold flat at 1. simpl. rewrite Hcat. unfold splice.
  rewrite length_fmap, (take_app_le (flat b)) by lia.
  set (pad := replicate _ _).
  assert (length (take (Z.to_nat (position_ b)) (flat b) ++ (Some <$> buf))
    = Z.to_nat (position_ b) + length buf)%nat as Hl2.
  { rewrite length_app, length_take, length_fmap. lia. }
  rewrite !(assoc_L (++)). rewrite (take_app_ge _ _ (Z.to_nat (_ `max` _))) by lia.
  rewrite Hl2, take_take, Nat.min_l by lia. f_equal.
  destruct (decide (position_ b + Z.of_nat (length buf) ≤ size_ b)).
  - rewrite Z.max_l, skipn_firstn_comm by lia. rewrite drop_app_le by lia.
    rewrite take_app_le by (rewrite length_drop; lia). f_equal; lia.
  - rewrite Z.max_r by lia. rewrite (drop_ge (take _ _)) by (rewrite length_take; lia).
    replace (_ - _)%nat with 0%nat by lia. done.
Qed.

(** C34. [read] refines reading from that file: for any positive count it either
    delivers the next bytes and moves past them, across block boundaries, or throws
    [std::out_of_range] and changes nothing, when fewer bytes are left. *)
Theorem read_refines (n : Z) (b : ByteArray) (Hwf : wf b) (Hn : 0 < n) :
  wf (read n b).2 ∧ ((read n b).1, abs (read n b).2) = spec_read (Z.to_nat n) (abs b).
Proof.
  unfold spec_read. pose proof (flat_length b Hwf). pose proof (peek_length b Hwf).
  assert (length (contents (abs b)) = Z.to_nat (size_ b)) as Hlc.
  { simpl. rewrite length_take. destruct Hwf. lia. }
  destruct (decide (size_ b - position_ b < n)).
  - rewrite read_short by done. split; [done|]. rewrite decide_True; [done|].
    rewrite Hlc. simpl. destruct Hwf. lia.
  - rewrite read_ok by (done || lia). simpl. split; [apply wf_moved; done || lia|].
    rewrite decide_False; [|simpl in Hlc; rewrite Hlc; destruct Hwf; lia].
    unfold peek, abs, flat. simpl. do 2 f_equal. destruct Hwf. lia.
Qed.

(** *** [GetReadBuffers] *)

(** [GetReadBuffers] hands out exactly the readable bytes, at most [len] of
    them, without copying: it succeeds, every vector is non-empty and lies inside one
    block, and the vectors read one after the other are the next bytes [read] would
    deliver. *)
Theorem GetReadBuffers_exact (len : Z) (b : ByteArray) (Hwf : wf b) (Hlen : 0 ≤ len) :
  ∃ iovs, GetReadBuffers len b = Ok (Z.min len (size_ b - position_ b), iovs) ∧
    Forall (iov_inside (nodes_ b)) iovs ∧
    gather (nodes_ b) iovs = take (Z.to_nat len) (peek b).
Proof.
  pose proof (peek_length b Hwf) as Hpl.
  pose proof Hwf as [HB Hlen' Hu Hcap Hrg Hp Hsz Hcur].
  unfold GetReadBuffers. rewrite GetReadSize_wf by done.
  replace (if decide (size_ b - position_ b < len) then size_ b - position_ b else len)
    with (Z.min len (size_ b - position_ b)) by (case_decide; lia).
  case_decide as H0.
  { exists []. rewrite H0. split_and!; [done|done|]. unfold gather. simpl.
    destruct (decide (len = 0)) as [->|]; [done|].
    assert (peek b = []) as -> by (apply nil_length_inv; lia). by rewrite take_nil. }
  rewrite decide_False by lia.
  destruct (wf_cur_node b Hwf) as (i & Hc & Hi & Hpi & Hm); [lia|].
  rewrite Hc, (node_size_ok (Z.to_nat (base_size_ b))), Z2Nat.id by (done || lia).
  unfold mbind at 1, res_bind at 1.
  assert (base_size_ b ≤ capacity_ b) by nia. rewrite wrap_small by lia.
  destruct (buffers_loop_ok (Z.to_nat (len `min` (size_ b - position_ b))) (base_size_ b)
    (nodes_ b) i (len `min` (size_ b - position_ b)) (position_ b `mod` base_size_ b) [])
    as (iovs & Hrun & Hin & Hg); try done; try lia.
  exists iovs. rewrite Hrun. split_and!; [done..|].
  rewrite Hg, <- Hpi. change (gather (nodes_ b) []) with (@nil cell). simpl app.
  change (concat (nodes_ b)) with (flat b). rewrite peek_eq by (done || lia).
  destruct (decide (len ≤ size_ b - position_ b)).
  - by rewrite Z.min_l by lia.
  - rewrite Z.min_r by lia. rewrite !take_ge by lia. done.
Qed.

(** *** Files *)

Lemma spec_write_app bs1 bs2 s :
  (pos s ≤ length (contents s))%nat →
  spec_write bs2 (spec_write bs1 s) = spec_write (bs1 ++ bs2) s.
Proof.
  intros H. unfold spec_write. simpl. rewrite fmap_app, length_app.
  assert (length (take (pos s) (contents s) ++ (Some <$> bs1)) = pos s + length bs1)%nat as Hl.
  { rewrite length_app, length_take, length_fmap. lia. }
  f_equal; [|lia]. rewrite !(assoc_L (++)), <- Hl.
  rewrite take_app_length, drop_app_add, drop_drop. rewrite Hl, <- !(assoc_L (++)).
  do 4 f_equal. lia.
Qed.

Lemma read_file_loop_ok fuel c b :
  wf b → (length c ≤ fuel)%nat → position_ b + Z.of_nat (length c) + base_size_ b ≤ 2 ^ 63 →
  ∃ b', read_file_loop fuel c b = (Ok tt, b') ∧ wf b' ∧ abs b' = spec_write c (abs b).
Proof.
  revert c b. induction fuel as [|fuel IH]; intros c b Hwf Hf Hr; simpl; mstep; case_decide as Hs.
  1,3: destruct (write_refines c b Hwf Hr) as (b' & ? & ? & ? & _); eauto.
  - destruct Hwf. lia.
  - set (h := take (Z.to_nat (base_size_ b)) c).
    assert (length h = Z.to_nat (base_size_ b)) as Hh by (unfold h; rewrite length_take; lia).
    assert (length (drop (Z.to_nat (base_size_ b)) c) = length c - Z.to_nat (base_size_ b))%nat
      as Hd by apply length_drop.
    pose proof (wf_base b Hwf).
    destruct (write_refines h b Hwf) as (b1 & Hw & Hwf1 & Habs & He & Hb1); [lia|].
    rewrite bind_unfold, Hw.
    assert (position_ b1 = position_ b + base_size_ b) as Hp1.
    { apply (f_equal pos) in Habs. simpl in Habs. destruct Hwf, Hwf1. lia. }
    destruct (IH (drop (Z.to_nat (base_size_ b)) c) b1 Hwf1) as (b2 & Hrun & Hwf2 & Habs2); [lia|lia|].
    exists b2. split_and!; [done|done|]. rewrite Habs2, Habs, spec_write_app.
    + unfold h. by rewrite take_drop.
    + simpl. rewrite length_take, flat_length by done. destruct Hwf. lia.
Qed.

(** Reading a whole file block by block, whatever its length is relative to
    [base_size_], has the effect of one [write] of its contents. *)
Theorem ReadFromFile_ok (c : list Z) (b : ByteArray)
  (Hwf : wf b) (Hroom : position_ b + Z.of_nat (length c) + base_size_ b ≤ 2 ^ 63) :
  ∃ b', ReadFromFile (Some c) b = (Ok true, b') ∧ wf b' ∧ abs b' = spec_write c (abs b).
Proof.
  destruct (read_file_loop_ok (length c) c b Hwf (le_n _) Hroom) as (b' & Hrun & ? & ?).
  exists b'. unfold ReadFromFile. by rewrite bind_unfold, Hrun.
Qed.

Lemma write_file_loop_ok fuel (B : Z) ns i pos rs acc :
  0 < B < 2 ^ 31 → uniform (Z.to_nat B) ns → (i < length ns)%nat → pos = Z.of_nat i * B →
  0 < rs < 2 ^ 63 → pos + rs ≤ Z.of_nat (length ns) * B → (length ns ≤ fuel + i)%nat →
  write_file_loop fuel B ns (Some i) pos rs acc
  = Ok (acc ++ take (Z.to_nat rs) (drop (Z.to_nat pos) (concat ns))).
Proof.
  revert i pos rs acc. induction fuel as [|fuel IH]; intros i pos rs acc HB Hu Hi Hpos Hrs Hroom Hf; [lia|].
  cbn [write_file_loop]. rewrite decide_False by lia.
  assert (i32(pos `mod` B) = 0) as Hdiff by (rewrite Hpos, Z_mod_mult; done).
  rewrite Hdiff, Z.sub_0_r, swrap_small by (try case_decide; lia).
  replace (if decide (B < rs) then B else rs) with (Z.min B rs) by (case_decide; lia).
  rewrite decide_False by lia.
  rewrite (memcpy_out_ok (Z.to_nat B)) by (done || lia). rewrite node_next_ok.
  unfold mbind, res_bind.
  replace (i * Z.to_nat B + Z.to_nat 0)%nat with (Z.to_nat pos) by nia.
  destruct (decide (rs ≤ B)).
  - rewrite Z.min_r, Z.sub_diag by lia. destruct fuel; done.
  - rewrite Z.min_l by lia. assert (S i < length ns)%nat by nia.
    rewrite decide_True by done. rewrite (IH (S i)) by (done || lia).
    rewrite <- (assoc_L (++)). do 2 f_equal.
    replace (Z.to_nat (pos + B)) with (Z.to_nat pos + Z.to_nat B)%nat by lia.
    rewrite take_drop_split. f_equal. lia.
Qed.

(** [WriteToFile] writes exactly the readable bytes when the current position
    is the start of a block (a new, cleared or rewound buffer), over any number of
    blocks. *)
Theorem WriteToFile_aligned (b : ByteArray)
  (Hwf : wf b) (HB : base_size_ b < 2 ^ 31) (Hal : position_ b `mod` base_size_ b = 0) :
  WriteToFile true b = Ok (true, peek b).
Proof.
  pose proof (peek_length b Hwf) as Hpl.
  pose proof Hwf as [HB' Hlen' Hu Hcap Hrg Hp Hsz Hcur].
  unfold WriteToFile. simpl negb. cbv iota. rewrite decide_False, GetReadSize_wf by (done || lia).
  rewrite swrap_small by lia.
  destruct (decide (size_ b = position_ b)) as [He|Hne].
  { cbn [write_file_loop]. rewrite decide_True by lia.
    assert (peek b = []) as -> by (apply nil_length_inv; lia). done. }
  destruct (wf_cur_node b Hwf) as (i & Hc & Hi & Hpi & Hm); [lia|].
  rewrite Hc, (write_file_loop_ok _ _ _ i) by (done || lia).
  change (concat (nodes_ b)) with (flat b). rewrite peek_eq by (done || lia).
  unfold mbind, res_bind. by rewrite take_ge by lia.
Qed.

(** Away from a block boundary the length passed to the stream is reduced by the
    block offset a second time, and is negative when fewer bytes are left than the
    offset. *)
Lemma WriteToFile_unaligned (b : ByteArray) :
  wf b → base_size_ b < 2 ^ 31 →
  0 < size_ b - position_ b < position_ b `mod` base_size_ b →
  WriteToFile true b = Err UndefinedBehaviour.
Proof.
  intros Hwf HB Hu. unfold WriteToFile. simpl negb. cbv iota.
  rewrite decide_False, GetReadSize_wf by (done || destruct Hwf; lia).
  pose proof (Z.mod_pos_bound (position_ b) (base_size_ b) (wf_base b Hwf)).
  destruct Hwf. rewrite swrap_small by lia.
  cbn [write_file_loop]. rewrite decide_False by lia.
  rewrite (swrap_small 32) by lia. rewrite (swrap_small 64) by (try case_decide; lia).
  rewrite decide_True by (case_decide; lia). done.
Qed.

(** *** [ToString] *)

Lemma read_at_loop_ok fuel (B : Z) ns i size npos acc :
  0 < B → uniform (Z.to_nat B) ns → (i < length ns)%nat → 0 ≤ npos < B → 0 < size →
  (Z.to_nat size ≤ fuel)%nat → Z.of_nat i * B + npos + size ≤ Z.of_nat (length ns) * B →
  read_at_loop fuel ns (Some i) size npos (B - npos) acc
  = Ok (acc ++ take (Z.to_nat size) (drop (Z.to_nat (Z.of_nat i * B + npos)) (concat ns))).
Proof.
  revert i size npos acc. induction fuel as [|fuel IH];
    intros i size npos acc HB Hu Hi Hn Hs Hf Hroom; [lia|].
  cbn [read_at_loop]. rewrite decide_False by lia.
  replace (Z.to_nat (Z.of_nat i * B + npos)) with (i * Z.to_nat B + Z.to_nat npos)%nat by nia.
  case_decide as Hfit; rewrite (memcpy_out_ok (Z.to_nat B)) by (done || lia);
    unfold mbind, res_bind; [done|].
  assert (S i < length ns)%nat as HSi by nia.
  rewrite node_next_ok, decide_True by done.
  rewrite (node_size_ok (Z.to_nat B)), Z2Nat.id by (done || lia).
  rewrite <- (Z.sub_0_r B) at 2. rewrite IH by (done || lia).
  rewrite <- (assoc_L (++)). do 2 f_equal.
  replace (Z.to_nat (Z.of_nat (S i) * B + 0)) with
    (i * Z.to_nat B + Z.to_nat npos + Z.to_nat (B - npos))%nat by nia.
  rewrite take_drop_split. f_equal. lia.
Qed.

(** The overload of [read] with a position works for positions in the block the
    current node points to. *)
Lemma read_at_same_block size p b :
  wf b → 0 < size → 0 ≤ p → p + size ≤ size_ b → position_ b < capacity_ b →
  p / base_size_ b = position_ b / base_size_ b →
  read_at size p b = Ok (take (Z.to_nat size) (drop (Z.to_nat p) (flat b))).
Proof.
  intros Hwf Hs Hp0 Hps Hlt Hdiv. pose proof Hwf as [HB Hlen' Hu Hcap Hrg Hp Hsz Hcur].
  unfold read_at. rewrite wrap_small by lia. rewrite !decide_False by lia.
  destruct (wf_cur_node b Hwf Hlt) as (i & Hc & Hi & Hpi & Hm).
  rewrite Hc, (node_size_ok (Z.to_nat (base_size_ b))), Z2Nat.id by (done || lia).
  unfold mbind, res_bind. pose proof (Z.mod_pos_bound p (base_size_ b) HB).
  pose proof (Z.div_mod p (base_size_ b) ltac:(lia)).
  pose proof (Z.div_mod (position_ b) (base_size_ b) ltac:(lia)).
  assert (Z.of_nat i = position_ b / base_size_ b) as Hid by nia.
  assert (base_size_ b ≤ capacity_ b) by nia. rewrite wrap_small by lia.
  assert (Z.of_nat i * base_size_ b + p `mod` base_size_ b = p) as Hpe by (rewrite Hid; lia).
  rewrite read_at_loop_ok by (done || lia). by rewrite Hpe.
Qed.

Lemma ToString_ok b : wf b → ToString b = Ok (peek b).
Proof.
  intros Hwf. pose proof (peek_length b Hwf) as Hpl. unfold ToString.
  rewrite GetReadSize_wf by done. case_decide.
  - assert (peek b = []) as -> by (apply nil_length_inv; lia). done.
  - pose proof Hwf as []. rewrite read_at_same_block by (done || lia).
    rewrite peek_eq, take_ge by (done || lia). done.
Qed.

(** Clearing keeps the first block and the byte order. *)
Lemma wf_Clear b : wf b → wf (Clear b).
Proof.
  intros [HB Hlen Hu Hcap Hrg Hp Hsz Hcur]. unfold Clear.
  destruct (nodes_ b) as [|n ns] eqn:E; simpl in *; [lia|].
  constructor; simpl; rewrite ?E; simpl; try lia.
  - apply Forall_cons in Hu as [? _]. by apply Forall_singleton.
  - unfold cur_for. rewrite decide_False by lia. rewrite Z.div_0_l by lia. done.
Qed.

Lemma abs_Clear b : abs (Clear b) = mkSpec [] 0.
Proof. done. Qed.

Lemma bytes_wf_new B : 0 < B < 2 ^ 63 → wf (ByteArray_new B).
Proof.
  intros. constructor; simpl; try lia.
  - apply Forall_singleton, length_replicate.
  - unfold cur_for. rewrite decide_False by lia. by rewrite Z.div_0_l by lia.
Qed.

(** *** A buffer of two blocks, used by the witnesses *)

Definition sample : ByteArray :=
  mkBA 4 0 8 6 SYLAR_BIG_ENDIAN
    [[Some 10; Some 11; Some 12; Some 13]; [Some 14; Some 15; None; None]] (Some 0%nat).

Lemma bytes_wf_sample : wf sample.
Proof.
  constructor; [vm_compute; done|simpl; lia|repeat constructor|vm_compute; done..].
Qed.

Lemma write_refines_witness :
  ∃ b', write [1; 2; 3; 4; 5] (ByteArray_new 4) = (Ok tt, b') ∧ wf b' ∧
    abs b' = spec_write [1; 2; 3; 4; 5] (abs (ByteArray_new 4)) ∧
    endian_ b' = endian_ (ByteArray_new 4) ∧ base_size_ b' = base_size_ (ByteArray_new 4).
Proof.
  apply (write_refines [1; 2; 3; 4; 5] (ByteArray_new 4)); [apply bytes_wf_new; lia|vm_compute; done].
Defined.

Lemma read_refines_witness :
  wf (read 5 sample).2 ∧
  ((read 5 sample).1, abs (read 5 sample).2) = spec_read (Z.to_nat 5) (abs sample).
Proof. apply (read_refines 5 sample); [apply bytes_wf_sample|lia]. Defined.

Lemma GetReadBuffers_exact_witness :
  ∃ iovs, GetReadBuffers 5 sample = Ok (Z.min 5 (size_ sample - position_ sample), iovs) ∧
    Forall (iov_inside (nodes_ sample)) iovs ∧
    gather (nodes_ sample) iovs = take (Z.to_nat 5) (peek sample).
Proof. apply (GetReadBuffers_exact 5 sample); [apply bytes_wf_sample|lia]. Defined.

Lemma ReadFromFile_ok_witness :
  ∃ b', ReadFromFile (Some [1; 2; 3; 4; 5; 6; 7; 8; 9]) (ByteArray_new 4) = (Ok true, b') ∧
    wf b' ∧ abs b' = spec_write [1; 2; 3; 4; 5; 6; 7; 8; 9] (abs (ByteArray_new 4)).
Proof.
  apply (ReadFromFile_ok [1; 2; 3; 4; 5; 6; 7; 8; 9] (ByteArray_new 4));
    [apply bytes_wf_new; lia|vm_compute; done].
Defined.

Lemma WriteToFile_aligned_witness : WriteToFile true sample = Ok (true, peek sample).
Proof. apply (WriteToFile_aligned sample); [apply bytes_wf_sample|vm_compute; done|done]. Defined.

(** *** Defects of the members that take a position *)

(** [GetReadBuffers(buffers, len, position)] clamps [len] by what is left after
    [position_] instead of after [position]: with six bytes stored and [position_] at
    0, six bytes from offset 4 are granted and the walk runs off the chain. *)
Example GetReadBuffers_at_overrun : GetReadBuffers_at 6 4 sample = Err UndefinedBehaviour.
Proof. vm_compute. reflexivity. Qed.

(** [read(buf, size, position)] starts in the current node: asked for offset 4 it
    delivers the byte at offset 0. *)
Example read_at_wrong_block : read_at 1 4 sample = Ok [Some 10] ∧ flat sample !! 4%nat = Some (Some 14).
Proof. vm_compute. done. Qed.

(** A value of [position] above [size_] makes the unsigned subtraction of the
    bounds check wrap: two bytes 'at offset 7' of six are delivered. *)
Example read_at_no_check : read_at 2 7 sample = Ok [Some 13; Some 14].
Proof. vm_compute. reflexivity. Qed.

End ByteArray.
