(* ===== verification/Codec.v ===== *)
(** The typed members of the buffer (util/bytearray.cc): fixed-width integers in
    either byte order, zigzag and variable-length integers, floats, and strings with
    the four kinds of length prefix. A class states what a write/read pair promises;
    the round trips are proved once against it and every pair is an instance. *)

From S2P Require Import Prelude Endian ByteArray.
Import Endian ByteArray.

Module Codec.
Local Open Scope Z_scope.

(** [host] is [SYLAR_BYTE_ORDER], the byte order of the machine. A value of a type
    of [n] bytes is given as its unsigned bit pattern; the signed members convert. *)
Section codec.
Context (host : endian).

(** *** Fixed width *)

Definition write_fixed (n : nat) (value : Z) : M ByteArray unit :=
  e ← mgets endian_;
  let value := if decide (e = host) then value else byteswap n value in
  write (mem_bytes host n value).

Definition read_fixed (n : nat) : M ByteArray Z :=
  cs ← read (Z.of_nat n);
  bs ← mlift (bytes_of cs);
  let v := of_mem host bs in
  e ← mgets endian_;
  mret (if decide (e = host) then v else byteswap n v).

Definition WriteFuint8 (value : Z) : M ByteArray unit := write (mem_bytes host 1 value).
Definition WriteFint8 (value : Z) : M ByteArray unit := write (mem_bytes host 1 u8(value)).
Definition WriteFuint16 (value : Z) : M ByteArray unit := write_fixed 2 value.
Definition WriteFint16 (value : Z) : M ByteArray unit := write_fixed 2 u16(value).
Definition WriteFuint32 (value : Z) : M ByteArray unit := write_fixed 4 value.
Definition WriteFint32 (value : Z) : M ByteArray unit := write_fixed 4 u32(value).
Definition WriteFuint64 (value : Z) : M ByteArray unit := write_fixed 8 value.
Definition WriteFint64 (value : Z) : M ByteArray unit := write_fixed 8 u64(value).

Definition ReadFuint8 : M ByteArray Z :=
  cs ← read 1; bs ← mlift (bytes_of cs); mret (of_mem host bs).
Definition ReadFint8 : M ByteArray Z := v ← ReadFuint8; mret i8(v).
Definition ReadFuint16 : M ByteArray Z := read_fixed 2.
Definition ReadFint16 : M ByteArray Z := v ← read_fixed 2; mret i16(v).
Definition ReadFuint32 : M ByteArray Z := read_fixed 4.
Definition ReadFint32 : M ByteArray Z := v ← read_fixed 4; mret i32(v).
Definition ReadFuint64 : M ByteArray Z := read_fixed 8.
Definition ReadFint64 : M ByteArray Z := v ← read_fixed 8; mret i64(v).

(** [memcpy] between a floating-point number and an integer of its size keeps the
    bits: a number is given as its bit pattern. *)
Definition WriteFloat (bits : Z) : M ByteArray unit := WriteFuint32 bits.
Definition WriteDouble (bits : Z) : M ByteArray unit := WriteFuint64 bits.
Definition ReadFloat : M ByteArray Z := ReadFuint32.
Definition ReadDouble : M ByteArray Z := ReadFuint64.

(** *** Zigzag *)

(** The negation and the doubling are done in the signed type: [-v] overflows for the
    least value and [v * 2] from half the range on, which is undefined. *)
Definition signed_range (w v : Z) : Prop := - 2 ^ (w - 1) ≤ v < 2 ^ (w - 1).

#[export] Instance signed_range_dec w v : Decision (signed_range w v).
Proof. unfold signed_range. apply _. Defined.

Definition zigzag_encode (w v : Z) : res Z :=
  if decide (v < 0) then
    if decide (signed_range w (- v)) then Ok (wrap w (wrap w (- v) * 2 - 1)) else Err UndefinedBehaviour
  else
    if decide (signed_range w (v * 2)) then Ok (wrap w (v * 2)) else Err UndefinedBehaviour.

Definition zigzag_decode (w v : Z) : Z :=
  swrap w (Z.lxor (Z.shiftr v 1) (wrap w (- Z.land v 1))).

Definition EncodeZigzag32 (v : Z) : res Z := zigzag_encode 32 v.
Definition EncodeZigzag64 (v : Z) : res Z := zigzag_encode 64 v.
Definition DecodeZigzag32 (v : Z) : Z := zigzag_decode 32 v.
Definition DecodeZigzag64 (v : Z) : Z := zigzag_decode 64 v.

(** *** Variable length *)

(** The loop filling [tmp]: [slots] entries of the array are left, and writing past
    them is undefined. *)
Fixpoint varint_loop (slots : nat) (value : Z) : res (list Z) :=
  match slots with
  | O => Err UndefinedBehaviour
  | S slots =>
      if decide (128 ≤ value) then
        rest ← varint_loop slots (Z.shiftr value 7);
        Ok (u8(Z.lor (Z.land value 127) 128) :: rest)
      else Ok [u8(value)]
  end.

Definition WriteUint32 (value : Z) : M ByteArray unit :=
  tmp ← mlift (varint_loop 5 value); write tmp.
Definition WriteUint64 (value : Z) : M ByteArray unit :=
  tmp ← mlift (varint_loop 10 value); write tmp.
Definition WriteInt32 (value : Z) : M ByteArray unit := v ← mlift (EncodeZigzag32 value); WriteUint32 v.
Definition WriteInt64 (value : Z) : M ByteArray unit := v ← mlift (EncodeZigzag64 value); WriteUint64 v.

(** The loop [for (int i = 0; i < w; i += 7)]. *)
Fixpoint read_varint_loop (fuel : nat) (w i result : Z) : M ByteArray Z :=
  if decide (w ≤ i) then mret result
  else match fuel with
  | O => mthrow OutOfFuel
  | S fuel =>
      b ← ReadFuint8;
      if decide (b < 128) then mret (Z.lor result (wrap w (Z.shiftl b i)))
      else read_varint_loop fuel w (i + 7)
             (Z.lor result (wrap w (Z.shiftl (Z.land b 127) i)))
  end.

Definition ReadUint32 : M ByteArray Z := read_varint_loop 5 32 0 0.
Definition ReadUint64 : M ByteArray Z := read_varint_loop 10 64 0 0.
Definition ReadInt32 : M ByteArray Z := v ← ReadUint32; mret (DecodeZigzag32 v).
Definition ReadInt64 : M ByteArray Z := v ← ReadUint64; mret (DecodeZigzag64 v).

(** *** Strings *)

Definition str_size (value : list Z) : Z := Z.of_nat (length value).

Definition WriteStringF16 (value : list Z) : M ByteArray unit :=
  WriteFuint16 u16(str_size value);; write value.
Definition WriteStringF32 (value : list Z) : M ByteArray unit :=
  WriteFuint32 u32(str_size value);; write value.
Definition WriteStringF64 (value : list Z) : M ByteArray unit :=
  WriteFuint64 u64(str_size value);; write value.
Definition WriteStringVint (value : list Z) : M ByteArray unit :=
  WriteUint64 u64(str_size value);; write value.
Definition WriteStringWithoutLength (value : list Z) : M ByteArray unit := write value.

(** [buff.resize(len)] and a [read] into it. *)
Definition read_string (len : Z) : M ByteArray (list Z) :=
  cs ← read len; mlift (bytes_of cs).

Definition ReadStringF16 : M ByteArray (list Z) := len ← ReadFuint16; read_string len.
Definition ReadStringF32 : M ByteArray (list Z) := len ← ReadFuint32; read_string len.
Definition ReadStringF64 : M ByteArray (list Z) := len ← ReadFuint64; read_string len.
Definition ReadStringVint : M ByteArray (list Z) := len ← ReadUint64; read_string len.

(** *** What a pair of members promises *)

(** [W] appends the encoding [enc] of a valid value, and [R], at a position where
    this encoding lies, delivers the value and moves just past it. *)
Class Codec {A} (W : A → M ByteArray unit) (R : M ByteArray A)
    (enc : endian → A → list Z) (valid : A → Prop) := {
  codec_write : ∀ v b, valid v → wf b →
    position_ b + Z.of_nat (length (enc (endian_ b) v)) + base_size_ b ≤ 2 ^ 63 →
    ∃ b', W v b = (Ok tt, b') ∧ wf b' ∧ endian_ b' = endian_ b ∧
      base_size_ b' = base_size_ b ∧
      abs b' = spec_write (enc (endian_ b) v) (abs b);
  codec_read : ∀ v b rest, valid v → wf b →
    peek b = (Some <$> enc (endian_ b) v) ++ rest →
    R b = (Ok v, moved (Z.of_nat (length (enc (endian_ b) v))) b)
}.

(** Write, seek back, read. *)
Definition write_then_read {A} (W : A → M ByteArray unit) (R : M ByteArray A) (v : A) :
    M ByteArray A :=
  p ← mgets GetPosition;
  W v;;
  SetPosition p;;
  R.
End codec.

(** *** Facts *)

Lemma bytes_of_Some bs : bytes_of (Some <$> bs) = Ok bs.
Proof.
  unfold bytes_of. enough (mapM (@id cell) (Some <$> bs) = Some bs) as Hm by by rewrite Hm.
  induction bs as [|x bs IH]; [done|]. rewrite fmap_cons. cbn [mapM]. by rewrite IH.
Qed.

Lemma peek_prefix_size b cs rest :
  wf b → peek b = cs ++ rest → Z.of_nat (length cs) ≤ size_ b - position_ b.
Proof.
  intros Hwf Hp. pose proof (peek_length b Hwf) as Hl.
  rewrite Hp, length_app in Hl. destruct Hwf. lia.
Qed.

(** Reading exactly the stored bytes at the front of what is left. *)
Lemma read_bytes b bs rest :
  wf b → bs ≠ [] → peek b = (Some <$> bs) ++ rest →
  read (Z.of_nat (length bs)) b = (Ok (Some <$> bs), moved (Z.of_nat (length bs)) b).
Proof.
  intros Hwf Hne Hp. pose proof (peek_prefix_size _ _ _ Hwf Hp) as Hs.
  rewrite length_fmap in Hs. assert (0 < length bs)%nat by (destruct bs; simpl in *; [done|lia]).
  rewrite read_ok by (done || lia). do 2 f_equal. rewrite Hp.
  rewrite Nat2Z.id. apply take_app_length'. by rewrite length_fmap.
Qed.

Lemma wf_moved_bytes b bs rest :
  wf b → peek b = (Some <$> bs) ++ rest → wf (moved (Z.of_nat (length bs)) b).
Proof.
  intros Hwf Hp. pose proof (peek_prefix_size _ _ _ Hwf Hp) as Hs.
  rewrite length_fmap in Hs. apply wf_moved; done || lia.
Qed.

Lemma peek_moved_bytes b bs rest :
  wf b → peek b = (Some <$> bs) ++ rest → peek (moved (Z.of_nat (length bs)) b) = rest.
Proof.
  intros Hwf Hp. pose proof (peek_prefix_size _ _ _ Hwf Hp) as Hs.
  rewrite length_fmap in Hs. rewrite peek_moved by (done || lia).
  rewrite Hp, Nat2Z.id. apply drop_app_length'. by rewrite length_fmap.
Qed.

Lemma moved_moved n m b : moved n (moved m b) = moved (m + n) b.
Proof. unfold moved, set_tail. simpl. f_equal; [lia|]. f_equal. lia. Qed.

(** The general round trip. *)
Lemma codec_roundtrip {A} (W : A → M ByteArray unit) R enc valid `{!Codec W R enc valid}
    (v : A) (b : ByteArray) :
  valid v → wf b →
  position_ b + Z.of_nat (length (enc (endian_ b) v)) + base_size_ b ≤ 2 ^ 63 →
  ∃ b', write_then_read W R v b = (Ok v, b') ∧ wf b' ∧
    position_ b' = position_ b + Z.of_nat (length (enc (endian_ b) v)) ∧
    abs b' = spec_write (enc (endian_ b) v) (abs b).
Proof.
  intros Hv Hwf Hr. unfold write_then_read. mstep.
  destruct (codec_write v b Hv Hwf Hr) as (b1 & Hw & Hwf1 & He & HB & Habs).
  rewrite bind_unfold, Hw. unfold GetPosition.
  pose proof (f_equal pos Habs) as Hpos. pose proof (f_equal contents Habs) as Hc.
  simpl in Hpos, Hc.
  assert (position_ b ≤ size_ b1 ∧ position_ b1 = position_ b + Z.of_nat (length (enc (endian_ b) v)))
    as [Hps Hp1] by (destruct Hwf, Hwf1; lia).
  assert (0 ≤ position_ b ≤ capacity_ b1) as Hpc by (destruct Hwf, Hwf1; lia).
  rewrite bind_unfold, SetPosition_ok by done.
  pose proof (wf_seeked _ _ Hwf1 Hpc) as Hwf2.
  assert (peek (seeked (position_ b) b1)
    = (Some <$> enc (endian_ b) v) ++ drop (pos (abs b) + length (enc (endian_ b) v)) (contents (abs b)))
    as Hpk.
  { unfold peek. simpl. rewrite Z.max_l by lia.
    change (flat (seeked (position_ b) b1)) with (flat b1). rewrite Hc.
    apply drop_app_length'. rewrite length_take, length_take, flat_length by done.
    destruct Hwf. lia. }
  rewrite <- He in Hpk.
  rewrite (codec_read v _ _ Hv Hwf2 Hpk). eexists; split_and!; [done| | |].
  - by eapply wf_moved_bytes.
  - simpl. by rewrite He.
  - rewrite <- Habs. unfold abs, moved, seeked, set_tail, flat. simpl. rewrite Z.max_l by lia.
    f_equal. rewrite He. lia.
Qed.

(** *** Building instances *)

(** A pair whose writer is one [write] of the encoding. *)
Lemma codec_write_of_write buf b :
  wf b → position_ b + Z.of_nat (length buf) + base_size_ b ≤ 2 ^ 63 →
  ∃ b', write buf b = (Ok tt, b') ∧ wf b' ∧ endian_ b' = endian_ b ∧
    base_size_ b' = base_size_ b ∧ abs b' = spec_write buf (abs b).
Proof. intros Hwf Hr. destruct (write_refines buf b Hwf Hr) as (b' & ?&?&?&?&?). eauto 10. Qed.

(** Another type with an encoding into a type already covered. *)
Lemma codec_map {A B} (W : A → M ByteArray unit) R enc valid (f : B → A) (g : A → B)
    (validB : B → Prop) :
  Codec W R enc valid → (∀ x, validB x → valid (f x) ∧ g (f x) = x) →
  Codec (λ x, W (f x)) (v ← R; mret (g v)) (λ e x, enc e (f x)) validB.
Proof.
  intros HC Hfg. constructor.
  - intros v b Hv Hwf Hr. destruct (codec_write (f v) b) as (b'&?&?&?&?&?); [by apply Hfg|done..|].
    eauto 10.
  - intros v b rest Hv Hwf Hp. rewrite bind_unfold, (codec_read (f v) b rest); [|by apply Hfg|done..].
    unfold mret, M_ret. do 2 f_equal. by apply Hfg.
Qed.

(** A string behind its length. An empty string is not covered: see
    [ReadString_empty_at_end]. *)
Lemma codec_prefix W R enc (valid : Z → Prop) w :
  Codec W R enc valid →
  Codec (λ s, W (wrap w (str_size s));; write s) (len ← R; read_string len)
    (λ e s, enc e (str_size s) ++ s)
    (λ s, s ≠ [] ∧ str_size s < 2 ^ w ∧ valid (str_size s)).
Proof.
  unfold str_size. intros HC. constructor.
  - intros v b (Hne & Hlt & Hv) Hwf Hr. rewrite length_app in Hr.
    rewrite wrap_small by lia.
    destruct (codec_write (Z.of_nat (length v)) b Hv Hwf) as (b1 & Hw & Hwf1 & He & HB & Habs).
    { destruct Hwf. lia. }
    rewrite bind_unfold, Hw. pose proof (f_equal pos Habs) as Hp. simpl in Hp.
    destruct (codec_write_of_write v b1 Hwf1) as (b2 & Hw2 & Hwf2 & He2 & HB2 & Habs2).
    { destruct Hwf, Hwf1. lia. }
    exists b2. split_and!; [done|done|congruence|congruence|].
    rewrite Habs2, Habs, spec_write_app; [done|]. simpl.
    rewrite length_take, flat_length by done. destruct Hwf. lia.
  - intros v b rest (Hne & Hlt & Hv) Hwf Hp. rewrite fmap_app, <- (assoc_L (++)) in Hp.
    rewrite bind_unfold, (codec_read _ b _ Hv Hwf Hp).
    unfold read_string. rewrite bind_unfold.
    rewrite (read_bytes _ v rest); [|by eapply wf_moved_bytes|done|by eapply peek_moved_bytes].
    rewrite moved_moved, length_app. unfold mlift. rewrite bytes_of_Some.
    do 2 f_equal. lia.
Qed.

(** *** Fixed width *)

Lemma mem_bytes_other host e n v :
  e ≠ host → mem_bytes host n (byteswap n v) = mem_bytes e n v.
Proof.
  destruct host, e; try done; intros _; simpl; rewrite le_bytes_byteswap; [done|].
  by rewrite rev_involutive.
Qed.

(** Reading the [n] bytes of a value. *)
Lemma read_value host n e v b rest :
  (0 < n)%nat → 0 ≤ v < 2 ^ (8 * Z.of_nat n) → wf b →
  peek b = (Some <$> mem_bytes e n v) ++ rest →
  (cs ← read (Z.of_nat n); bs ← mlift (bytes_of cs); mret (of_mem host bs)) b
  = (Ok (if decide (e = host) then v else byteswap n v), moved (Z.of_nat n) b).
Proof.
  intros Hn Hv Hwf Hp. rewrite bind_unfold. rewrite <- (mem_bytes_length e n v) at 1.
  rewrite (read_bytes _ _ rest); [|done| |done].
  2: { intros H. apply (f_equal length) in H. rewrite mem_bytes_length in H. simpl in H. lia. }
  rewrite bytes_of_Some. mstep. unfold mret, M_ret. rewrite mem_bytes_length.
  do 2 f_equal. case_decide as He.
  - subst. rewrite of_mem_mem_bytes. by apply wrap_small.
  - rewrite <- (mem_bytes_other host e) by done. rewrite of_mem_mem_bytes.
    apply wrap_small, byteswap_range.
Qed.

#[export] Instance codec_fixed h1 h2 n :
  Codec (write_fixed h1 (S n)) (read_fixed h2 (S n)) (λ e v, mem_bytes e (S n) v)
    (λ v, 0 ≤ v < 2 ^ (8 * Z.of_nat (S n))).
Proof.
  constructor.
  - intros v b Hv Hwf Hr. unfold write_fixed. mstep. case_decide as He.
    + rewrite <- He. by apply codec_write_of_write.
    + rewrite (mem_bytes_other h1 (endian_ b)) by done. by apply codec_write_of_write.
  - intros v b rest Hv Hwf Hp. rewrite mem_bytes_length.
    pose proof (read_value h2 (S n) _ v b rest ltac:(lia) Hv Hwf Hp) as Hr.
    unfold read_fixed. rewrite bind_unfold in Hr |- *.
    destruct (read (Z.of_nat (S n)) b) as [[cs|] b1]; [|done].
    rewrite bind_mlift in Hr |- *. destruct (bytes_of cs) as [bs|]; [|done].
    unfold mret, M_ret in Hr. injection Hr as Hbs Hb1. mstep. unfold mret, M_ret.
    rewrite Hbs, Hb1. do 2 f_equal. simpl endian_.
    case_decide; [done|]. by apply byteswap_involutive.
Qed.

(** A single byte has no byte order. *)
Lemma mem_bytes_1 e v : mem_bytes e 1 v = [v `mod` 256].
Proof. by destruct e. Qed.

#[export] Instance codec_fuint8 h1 h2 :
  Codec (WriteFuint8 h1) (ReadFuint8 h2) (λ e v, mem_bytes e 1 v) (λ v, 0 ≤ v < 2 ^ 8).
Proof.
  constructor.
  - intros v b Hv Hwf Hr. unfold WriteFuint8. rewrite mem_bytes_1 in Hr |- *.
    rewrite mem_bytes_1. by apply codec_write_of_write.
  - intros v b rest Hv Hwf Hp. rewrite mem_bytes_length. unfold ReadFuint8.
    change (read 1) with (read (Z.of_nat 1)). rewrite mem_bytes_1 in Hp.
    rewrite (read_value h2 1 h2 v b rest) by (rewrite ?mem_bytes_1; done || lia).
    by rewrite decide_True by done.
Qed.

(** The signed types. *)
Lemma signed_pattern w v : 0 < w → - 2 ^ (w - 1) ≤ v < 2 ^ (w - 1) →
  0 ≤ wrap w v < 2 ^ w ∧ swrap w (wrap w v) = v.
Proof. intros. split; [apply wrap_range; lia|by apply swrap_of_wrap]. Qed.

#[export] Instance codec_fint8 h1 h2 :
  Codec (WriteFint8 h1) (ReadFint8 h2) (λ e v, mem_bytes e 1 u8(v))
    (λ v, - 2 ^ 7 ≤ v < 2 ^ 7).
Proof. refine (codec_map _ _ _ _ (λ v, u8(v)) _ _ _ _). intros. by apply signed_pattern. Qed.

#[export] Instance codec_fint16 h1 h2 :
  Codec (WriteFint16 h1) (ReadFint16 h2) (λ e v, mem_bytes e 2 u16(v))
    (λ v, - 2 ^ 15 ≤ v < 2 ^ 15).
Proof. refine (codec_map _ _ _ _ (λ v, u16(v)) _ _ _ _). intros. by apply signed_pattern. Qed.

#[export] Instance codec_fint32 h1 h2 :
  Codec (WriteFint32 h1) (ReadFint32 h2) (λ e v, mem_bytes e 4 u32(v))
    (λ v, - 2 ^ 31 ≤ v < 2 ^ 31).
Proof. refine (codec_map _ _ _ _ (λ v, u32(v)) _ _ _ _). intros. by apply signed_pattern. Qed.

#[export] Instance codec_fint64 h1 h2 :
  Codec (WriteFint64 h1) (ReadFint64 h2) (λ e v, mem_bytes e 8 u64(v))
    (λ v, - 2 ^ 63 ≤ v < 2 ^ 63).
Proof. refine (codec_map _ _ _ _ (λ v, u64(v)) _ _ _ _). intros. by apply signed_pattern. Qed.

(** *** Zigzag *)

(** What the encoding is where it is defined: 0, -1, 1, -2, 2, ... are numbered. *)
Definition zigzag (v : Z) : Z := if decide (v < 0) then - v * 2 - 1 else v * 2.

(** The values the program encodes: the negative ones but the least, and half of the
    others. *)
Definition zigzag_valid (w v : Z) : Prop := - 2 ^ (w - 1) < v < 2 ^ (w - 2).

Lemma zigzag_encode_ok w v : 1 < w → zigzag_valid w v → zigzag_encode w v = Ok (zigzag v).
Proof.
  intros Hw [H1 H2]. pose proof (pow_split w ltac:(lia)) as Hp. pose proof (pow_split (w - 1) ltac:(lia)) as Hp'.
  replace (w - 1 - 1) with (w - 2) in Hp' by lia. unfold zigzag_encode, zigzag, signed_range. case_decide.
  - rewrite decide_True by lia. by rewrite !wrap_small by (rewrite ?wrap_small; lia).
  - rewrite decide_True by lia. by rewrite wrap_small by lia.
Qed.

Lemma zigzag_encode_undefined w v : 1 < w → signed_range w v → ¬ zigzag_valid w v →
  zigzag_encode w v = Err UndefinedBehaviour.
Proof.
  unfold zigzag_valid, signed_range. intros Hw Hv Hn. pose proof (pow_split (w - 1) ltac:(lia)) as Hp.
  replace (w - 1 - 1) with (w - 2) in Hp by lia. unfold zigzag_encode, signed_range.
  case_decide; rewrite decide_False by lia; done.
Qed.

Lemma zigzag_inverse w v : 1 < w → zigzag_valid w v →
  0 ≤ zigzag v < 2 ^ w ∧ zigzag_decode w (zigzag v) = v.
Proof.
  intros Hw [H1 H2]. pose proof (pow_split w ltac:(lia)) as Hp. pose proof (pow_split (w - 1) ltac:(lia)) as Hp'.
  replace (w - 1 - 1) with (w - 2) in Hp' by lia. split; [unfold zigzag; case_decide; lia|].
  unfold zigzag_decode. rewrite shiftr_div by lia. change 1 with (2 ^ 1 - 1) at 2.
  rewrite land_ones_mod by lia. change (2 ^ 1) with 2. unfold zigzag. case_decide as Hn.
  - replace (- v * 2 - 1) with (1 + (- v - 1) * 2) by lia.
    rewrite Z_mod_plus_full, Z_div_plus_full by lia. change (1 `mod` 2) with 1. change (1 / 2) with 0.
    assert (wrap w (- (1)) = 2 ^ w - 1) as ->.
    { rewrite <- (wrap_small w (2 ^ w - 1)) by lia. rewrite <- (wrap_add_pow w (- (1)) 1) by lia. f_equal. lia. }
    rewrite lxor_ones by lia. replace (2 ^ w - 1 - (0 + (- v - 1))) with (v + 1 * 2 ^ w) by lia.
    rewrite <- swrap_wrap, wrap_add_pow, swrap_wrap by lia. apply swrap_small; lia.
  - rewrite Z_mod_mult, Z_div_mult_full by lia. change (wrap w (- 0)) with (wrap w 0). rewrite wrap_small by lia.
    rewrite Z.lxor_0_r. apply swrap_small; lia.
Qed.

(** Every value of the type is either encoded, to a code of twice its magnitude at most
    that is decoded to it, or makes a signed operation overflow; these are the least one
    and the upper half of the non-negative ones. *)
Theorem zigzag_roundtrip (w v : Z) : 1 < w → signed_range w v →
  zigzag_valid w v ∧ (∃ c, zigzag_encode w v = Ok c ∧ zigzag_decode w c = v ∧ 0 ≤ c ≤ 2 * Z.abs v) ∨
  (v = - 2 ^ (w - 1) ∨ 2 ^ (w - 2) ≤ v) ∧ zigzag_encode w v = Err UndefinedBehaviour.
Proof.
  intros Hw Hv. destruct (decide (- 2 ^ (w - 1) < v ∧ v < 2 ^ (w - 2))) as [Hok|Hn].
  - left. split; [exact Hok|]. exists (zigzag v). destruct (zigzag_inverse w v Hw Hok).
    split; [by apply zigzag_encode_ok|]. split; [done|]. unfold zigzag in *. case_decide; lia.
  - right. split; [unfold signed_range in Hv; lia|]. by apply zigzag_encode_undefined.
Qed.

(** The least value, and a large one. *)
Example zigzag_overflows :
  EncodeZigzag32 (- 2 ^ 31) = Err UndefinedBehaviour ∧ EncodeZigzag32 (2 ^ 30) = Err UndefinedBehaviour.
Proof. done. Qed.

(** *** Variable length *)

Lemma varint_byte v : 0 ≤ v → u8(Z.lor (Z.land v 127) 128) = v `mod` 128 + 128.
Proof.
  intros. change 127 with (2 ^ 7 - 1). rewrite land_ones_mod by lia. change (2 ^ 7) with 128.
  pose proof (Z.mod_pos_bound v 128 ltac:(lia)).
  change 128 with (1 * 2 ^ 7) at 2. rewrite lor_disjoint_add by lia.
  apply wrap_small. lia.
Qed.

(** The array of [slots] bytes is large enough, and the number of bytes used is
    the least one that holds the value seven bits at a time. *)
Lemma varint_loop_ok slots v :
  (0 < slots)%nat → 0 ≤ v < 2 ^ (7 * Z.of_nat slots) →
  ∃ bs, varint_loop slots v = Ok bs ∧ bs ≠ [] ∧ (length bs ≤ slots)%nat ∧ Forall is_byte bs.
Proof.
  revert v. induction slots as [|slots IH]; intros v Hs Hv; [lia|]. simpl. case_decide as H128.
  - rewrite shiftr_div by lia. change (2 ^ 7) with 128.
    assert (2 ^ (7 * Z.of_nat (S slots)) = 128 * 2 ^ (7 * Z.of_nat slots)) as Hp.
    { replace (7 * Z.of_nat (S slots)) with (7 + 7 * Z.of_nat slots) by lia.
      rewrite Z.pow_add_r by lia. done. }
    destruct (decide (slots = 0%nat)) as [->|]; [simpl in *; lia|].
    destruct (IH (v / 128)) as (bs & -> & Hne & Hl & Hb); [lia| |].
    { split; [apply Z.div_pos; lia|apply Z.div_lt_upper_bound; lia]. }
    unfold mbind, res_bind. eexists; split_and!; [done|done|simpl; lia|].
    constructor; [|done]. apply wrap_range; lia.
  - eexists; split_and!; [done|done|simpl; lia|]. repeat constructor; unfold is_byte.
    all: apply wrap_range; lia.
Qed.

(** The encoding, as a function. *)
Definition varint_enc (slots : nat) (v : Z) : list Z :=
  match varint_loop slots v with Ok bs => bs | Err _ => [] end.

Lemma read_one host x b rest :
  0 ≤ x < 256 → wf b → peek b = Some x :: rest →
  ReadFuint8 host b = (Ok x, moved 1 b).
Proof.
  intros Hx Hwf Hp.
  pose proof (codec_read (Codec := codec_fuint8 host host) x b rest Hx Hwf) as Hr.
  cbv beta in Hr. rewrite mem_bytes_length in Hr. apply Hr. rewrite Hp, mem_bytes_1, Z.mod_small by lia. done.
Qed.

(** The loop entered with shift [i] and the low [i] bits in [result]. *)
Lemma read_varint_loop_ok host slots w i result v bs b rest :
  0 ≤ v → varint_loop slots v = Ok bs → wf b → peek b = (Some <$> bs) ++ rest →
  0 ≤ i < w → v * 2 ^ i < 2 ^ w → 0 ≤ result < 2 ^ i →
  read_varint_loop host slots w i result b
  = (Ok (result + v * 2 ^ i), moved (Z.of_nat (length bs)) b).
Proof.
  revert i result v bs b. induction slots as [|slots IH];
    intros i result v bs b Hv Henc Hwf Hp Hi Hlt Hres; [done|].
  cbn [varint_loop read_varint_loop] in *. rewrite decide_False by lia.
  assert (0 < 2 ^ i) as Hpi by (apply Z.pow_pos_nonneg; lia).
  case_decide as H128.
  - destruct (varint_loop slots (Z.shiftr v 7)) as [bs'|] eqn:Hrest; [|done].
    unfold mbind, res_bind in Henc. injection Henc as <-. rewrite varint_byte in Hp by done.
    rewrite shiftr_div in Hrest by lia. change (2 ^ 7) with 128 in Hrest.
    pose proof (Z.mod_pos_bound v 128 ltac:(lia)). pose proof (Z.div_mod v 128 ltac:(lia)).
    rewrite fmap_cons in Hp. simpl in Hp.
    rewrite bind_unfold, (read_one host (v `mod` 128 + 128) b _ ltac:(lia) Hwf Hp).
    rewrite decide_False by lia.
    assert (Z.land (v `mod` 128 + 128) 127 = v `mod` 128) as ->.
    { change 127 with (2 ^ 7 - 1). rewrite land_ones_mod by lia. change (2 ^ 7) with 128.
      rewrite <- Z.add_mod_idemp_r, Z_mod_same_full, Z.add_0_r by lia. apply Z.mod_mod. lia. }
    rewrite Z.shiftl_mul_pow2 by lia.
    assert (2 ^ (i + 7) = 2 ^ i * 128) as Hp7 by (rewrite Z.pow_add_r by lia; done).
    assert (v `mod` 128 * 2 ^ i ≤ v * 2 ^ i) as Hle.
    { apply Z.mul_le_mono_nonneg_r; [lia|]. apply Z.mod_le; lia. }
    rewrite wrap_small by nia. rewrite lor_disjoint_add by lia.
    assert (Z.of_nat (length (Some (v `mod` 128 + 128) :: (Some <$> bs') ++ rest)) ≤ size_ b - position_ b)
      as Hsz.
    { rewrite <- Hp, peek_length by done. destruct Hwf. lia. }
    simpl length in Hsz.
    assert (wf (moved 1 b)) as Hwf1 by (apply wf_moved; done || lia).
    rewrite (IH (i + 7) _ (v / 128) bs'); try done.
    + rewrite moved_moved. simpl length. do 2 f_equal; [nia|]. f_equal. lia.
    + apply Z.div_pos; lia.
    + rewrite peek_moved by (done || lia). by rewrite Hp.
    + split; [lia|]. apply (Z.pow_lt_mono_r_iff 2); [lia|lia|]. nia.
    + nia.
    + rewrite Hp7. nia.
  - injection Henc as <-. rewrite wrap_small in Hp by lia. simpl in Hp.
    rewrite bind_unfold, (read_one host v b rest ltac:(lia) Hwf Hp).
    rewrite decide_True by lia. unfold mret, M_ret. rewrite Z.shiftl_mul_pow2 by lia.
    rewrite wrap_small by nia. rewrite lor_disjoint_add by lia. done.
Qed.

Lemma codec_varint host slots w :
  (0 < slots)%nat → 0 < w ≤ 7 * Z.of_nat slots →
  Codec (λ v, tmp ← mlift (varint_loop slots v); write tmp)
    (read_varint_loop host slots w 0 0) (λ _ v, varint_enc slots v) (λ v, 0 ≤ v < 2 ^ w).
Proof.
  intros Hs Hw.
  assert (∀ v, 0 ≤ v < 2 ^ w → ∃ bs, varint_loop slots v = Ok bs ∧ bs ≠ []) as Hok.
  { intros v Hv. destruct (varint_loop_ok slots v Hs) as (bs & ? & ? & _); [|eauto].
    pose proof (Z.pow_le_mono_r 2 w (7 * Z.of_nat slots)). lia. }
  unfold varint_enc. constructor.
  - intros v b Hv Hwf Hr. destruct (Hok v Hv) as (bs & He & ?). rewrite He in Hr |- *.
    rewrite bind_mlift. by apply codec_write_of_write.
  - intros v b rest Hv Hwf Hp. destruct (Hok v Hv) as (bs & He & ?). rewrite He in Hp |- *.
    rewrite (read_varint_loop_ok host slots w 0 0 v bs b rest); try done; try lia.
    do 2 f_equal. lia.
Qed.

#[export] Instance codec_uint32 host :
  Codec WriteUint32 (ReadUint32 host) (λ _ v, varint_enc 5 v) (λ v, 0 ≤ v < 2 ^ 32).
Proof. apply codec_varint; lia. Qed.

#[export] Instance codec_uint64 host :
  Codec WriteUint64 (ReadUint64 host) (λ _ v, varint_enc 10 v) (λ v, 0 ≤ v < 2 ^ 64).
Proof. apply codec_varint; lia. Qed.

(** A writer that first encodes the value, which can fail. *)
Lemma codec_encoded {A B} (W : A → M ByteArray unit) R enc valid (e : B → res A) (f : B → A) (g : A → B)
    (validB : B → Prop) :
  Codec W R enc valid → (∀ x, validB x → e x = Ok (f x) ∧ valid (f x) ∧ g (f x) = x) →
  Codec (λ x, v ← mlift (e x); W v) (v ← R; mret (g v)) (λ o x, enc o (f x)) validB.
Proof.
  intros HC He. pose proof (codec_map W R enc valid f g validB HC (λ x Hx, proj2 (He x Hx))) as [Hw Hr].
  constructor; [|exact Hr]. intros v b Hv. destruct (He v Hv) as [-> _]. rewrite bind_mlift. by apply Hw.
Qed.

#[export] Instance codec_int32 host :
  Codec WriteInt32 (ReadInt32 host) (λ _ v, varint_enc 5 (zigzag v)) (zigzag_valid 32).
Proof.
  refine (codec_encoded _ _ (λ _ v, varint_enc 5 v) _ EncodeZigzag32 zigzag DecodeZigzag32 _ _ _).
  intros v Hv. split; [by apply zigzag_encode_ok|by apply (zigzag_inverse 32)].
Qed.

#[export] Instance codec_int64 host :
  Codec WriteInt64 (ReadInt64 host) (λ _ v, varint_enc 10 (zigzag v)) (zigzag_valid 64).
Proof.
  refine (codec_encoded _ _ (λ _ v, varint_enc 10 v) _ EncodeZigzag64 zigzag DecodeZigzag64 _ _ _).
  intros v Hv. split; [by apply zigzag_encode_ok|by apply (zigzag_inverse 64)].
Qed.

(** *** Messages: sequences of typed fields *)

Inductive kind :=
  | KFint8 | KFuint8 | KFint16 | KFuint16 | KFint32 | KFuint32 | KFint64 | KFuint64
  | KInt32 | KUint32 | KInt64 | KUint64 | KFloat | KDouble
  | KStringF16 | KStringF32 | KStringF64 | KStringVint.

Definition kval (k : kind) : Type :=
  match k with
  | KStringF16 | KStringF32 | KStringF64 | KStringVint => list Z
  | _ => Z
  end.

(** The member that writes a field of the kind, and the one that reads it. *)
Definition put (host : endian) (k : kind) : kval k → M ByteArray unit :=
  match k with
  | KFint8 => WriteFint8 host | KFuint8 => WriteFuint8 host
  | KFint16 => WriteFint16 host | KFuint16 => WriteFuint16 host
  | KFint32 => WriteFint32 host | KFuint32 => WriteFuint32 host
  | KFint64 => WriteFint64 host | KFuint64 => WriteFuint64 host
  | KInt32 => WriteInt32 | KUint32 => WriteUint32
  | KInt64 => WriteInt64 | KUint64 => WriteUint64
  | KFloat => WriteFloat host | KDouble => WriteDouble host
  | KStringF16 => WriteStringF16 host | KStringF32 => WriteStringF32 host
  | KStringF64 => WriteStringF64 host | KStringVint => WriteStringVint
  end.

Definition get (host : endian) (k : kind) : M ByteArray (kval k) :=
  match k with
  | KFint8 => ReadFint8 host | KFuint8 => ReadFuint8 host
  | KFint16 => ReadFint16 host | KFuint16 => ReadFuint16 host
  | KFint32 => ReadFint32 host | KFuint32 => ReadFuint32 host
  | KFint64 => ReadFint64 host | KFuint64 => ReadFuint64 host
  | KInt32 => ReadInt32 host | KUint32 => ReadUint32 host
  | KInt64 => ReadInt64 host | KUint64 => ReadUint64 host
  | KFloat => ReadFloat host | KDouble => ReadDouble host
  | KStringF16 => ReadStringF16 host | KStringF32 => ReadStringF32 host
  | KStringF64 => ReadStringF64 host | KStringVint => ReadStringVint host
  end.

(** The values of the parameter type; but those that are zigzag-encoded without overflow,
    and of the strings those that are not empty and whose length fits the prefix. *)
Definition kvalid (k : kind) : kval k → Prop :=
  match k with
  | KFint8 => λ v, - 2 ^ 7 ≤ v < 2 ^ 7 | KFuint8 => λ v, 0 ≤ v < 2 ^ 8
  | KFint16 => λ v, - 2 ^ 15 ≤ v < 2 ^ 15 | KFuint16 => λ v, 0 ≤ v < 2 ^ 16
  | KFint32 => λ v, - 2 ^ 31 ≤ v < 2 ^ 31 | KInt32 => zigzag_valid 32
  | KFuint32 | KUint32 | KFloat => λ v, 0 ≤ v < 2 ^ 32
  | KFint64 => λ v, - 2 ^ 63 ≤ v < 2 ^ 63 | KInt64 => zigzag_valid 64
  | KFuint64 | KUint64 | KDouble => λ v, 0 ≤ v < 2 ^ 64
  | KStringF16 => λ s, s ≠ [] ∧ str_size s < 2 ^ 16 ∧ 0 ≤ str_size s < 2 ^ 16
  | KStringF32 => λ s, s ≠ [] ∧ str_size s < 2 ^ 32 ∧ 0 ≤ str_size s < 2 ^ 32
  | KStringF64 | KStringVint => λ s, s ≠ [] ∧ str_size s < 2 ^ 64 ∧ 0 ≤ str_size s < 2 ^ 64
  end.

(** The bytes on the wire: they depend on the byte order the buffer is set to and
    not on the machine. *)
Definition kenc (k : kind) (e : endian) : kval k → list Z :=
  match k with
  | KFint8 => λ v, mem_bytes e 1 u8(v) | KFuint8 => λ v, mem_bytes e 1 v
  | KFint16 => λ v, mem_bytes e 2 u16(v) | KFuint16 => λ v, mem_bytes e 2 v
  | KFint32 => λ v, mem_bytes e 4 u32(v) | KFuint32 | KFloat => λ v, mem_bytes e 4 v
  | KFint64 => λ v, mem_bytes e 8 u64(v) | KFuint64 | KDouble => λ v, mem_bytes e 8 v
  | KInt32 => λ v, varint_enc 5 (zigzag v) | KUint32 => λ v, varint_enc 5 v
  | KInt64 => λ v, varint_enc 10 (zigzag v) | KUint64 => λ v, varint_enc 10 v
  | KStringF16 => λ s, mem_bytes e 2 (str_size s) ++ s
  | KStringF32 => λ s, mem_bytes e 4 (str_size s) ++ s
  | KStringF64 => λ s, mem_bytes e 8 (str_size s) ++ s
  | KStringVint => λ s, varint_enc 10 (str_size s) ++ s
  end.

Lemma codec_kind h1 h2 k : Codec (put h1 k) (get h2 k) (kenc k) (kvalid k).
Proof.
  destruct k; try apply _; try exact (codec_fixed h1 h2 _).
  - exact (codec_prefix _ _ _ _ 16 (codec_fixed h1 h2 1)).
  - exact (codec_prefix _ _ _ _ 32 (codec_fixed h1 h2 3)).
  - exact (codec_prefix _ _ _ _ 64 (codec_fixed h1 h2 7)).
  - exact (codec_prefix _ _ _ _ 64 (codec_uint64 h2)).
Qed.

Definition field : Type := { k : kind & kval k }.
Definition field_valid (f : field) : Prop := kvalid (projT1 f) (projT2 f).
Definition field_enc (e : endian) (f : field) : list Z := kenc (projT1 f) e (projT2 f).
Definition message_enc (e : endian) (fs : list field) : list Z := concat (field_enc e <$> fs).

Fixpoint put_all (host : endian) (fs : list field) : M ByteArray unit :=
  match fs with
  | [] => mret tt
  | f :: fs => put host (projT1 f) (projT2 f);; put_all host fs
  end.

Fixpoint get_all (host : endian) (ks : list kind) : M ByteArray (list field) :=
  match ks with
  | [] => mret []
  | k :: ks => v ← get host k; vs ← get_all host ks; mret (existT k v :: vs)
  end.

Lemma moved_0 b : wf b → moved 0 b = b.
Proof.
  intros []. unfold moved, set_tail. rewrite !Z.add_0_r, <- wf_cur0. by destruct b.
Qed.

Lemma spec_write_nil s : (pos s ≤ length (contents s))%nat → spec_write [] s = s.
Proof.
  intros. unfold spec_write. destruct s as [c p]. simpl in *.
  rewrite Nat.add_0_r. by rewrite take_drop.
Qed.

Lemma abs_pos_le b : wf b → (pos (abs b) ≤ length (contents (abs b)))%nat.
Proof. intros Hwf. simpl. rewrite length_take, flat_length by done. destruct Hwf. lia. Qed.

Lemma codec_message h1 h2 ks :
  Codec (put_all h1) (get_all h2 ks) message_enc
    (λ fs, projT1 <$> fs = ks ∧ Forall field_valid fs).
Proof.
  induction ks as [|k ks IH]; constructor.
  - intros fs b [Hks _] Hwf _. destruct fs; [|done]. exists b. split_and!; try done.
    symmetry. by apply spec_write_nil, abs_pos_le.
  - intros fs b rest [Hks _] Hwf _. destruct fs; [|done]. simpl. by rewrite moved_0.
  - intros fs b [Hks Hv] Hwf Hr. destruct fs as [|[k' v] fs]; [done|].
    injection Hks as -> Hks. apply Forall_cons in Hv as [Hv Hvs].
    unfold message_enc in *. rewrite fmap_cons in *. simpl in *. rewrite length_app in Hr.
    unfold field_enc at 1 in Hr. simpl in Hr.
    pose proof (codec_kind h1 h2 k) as HC.
    destruct (codec_write (Codec := HC) v b Hv Hwf) as (b1 & Hw & Hwf1 & He & HB & Habs).
    { lia. }
    rewrite bind_unfold, Hw. pose proof (f_equal pos Habs) as Hp. simpl in Hp.
    destruct (codec_write (Codec := IH) fs b1 (conj Hks Hvs) Hwf1)
      as (b2 & Hw2 & Hwf2 & He2 & HB2 & Habs2).
    { rewrite He, HB. destruct Hwf, Hwf1. lia. }
    exists b2. split_and!; [done|done|congruence|congruence|].
    rewrite Habs2, Habs, He, spec_write_app by by apply abs_pos_le. done.
  - intros fs b rest [Hks Hv] Hwf Hp. destruct fs as [|[k' v] fs]; [done|].
    injection Hks as -> Hks. apply Forall_cons in Hv as [Hv Hvs].
    unfold message_enc in *. rewrite fmap_cons in *. simpl in *.
    rewrite fmap_app, <- (assoc_L (++)) in Hp.
    pose proof (codec_kind h1 h2 k) as HC.
    rewrite bind_unfold, (codec_read (Codec := HC) v b _ Hv Hwf Hp).
    rewrite bind_unfold.
    rewrite (codec_read (Codec := IH) fs _ rest (conj Hks Hvs));
      [|by eapply wf_moved_bytes|by eapply peek_moved_bytes].
    rewrite moved_moved, length_app. unfold mret, M_ret. do 2 f_equal. unfold field_enc. simpl. lia.
Qed.

(** C6. A message of typed fields written by the typed members and read back from
    where it starts, with the members of the same types, is the same list of values:
    for every sequence of the eighteen kinds, whatever the block size and position,
    in either byte order of the buffer, and also when the writing and the reading
    machine differ in byte order. The bytes written are the wire encoding, which does
    not depend on the machine. The strings are not empty and no longer than their prefix
    can say (see [ReadString_empty_at_end] and [WriteStringF16_truncates]), and the values
    of the two zigzag kinds are those that [zigzag_roundtrip] says are encoded. *)
Theorem message_roundtrip (h1 h2 : endian) (fs : list field) (b : ByteArray)
  (Hv : Forall field_valid fs) (Hwf : wf b)
  (Hroom : position_ b + Z.of_nat (length (message_enc (endian_ b) fs)) + base_size_ b ≤ 2 ^ 63) :
  ∃ b', write_then_read (put_all h1) (get_all h2 (projT1 <$> fs)) fs b = (Ok fs, b') ∧
    wf b' ∧ abs b' = spec_write (message_enc (endian_ b) fs) (abs b).
Proof.
  pose proof (codec_message h1 h2 (projT1 <$> fs)) as HC.
  destruct (codec_roundtrip _ _ _ _ (Codec0 := HC) fs b (conj eq_refl Hv) Hwf Hroom)
    as (b' & ? & ? & _ & ?). eauto.
Qed.

Definition sample_message : list field :=
  [existT KFint16 (-2); existT KStringVint [104; 105]; existT KUint64 (2 ^ 64 - 1);
   existT KInt32 (1 - 2 ^ 31); existT KFuint32 305419896].

Lemma message_roundtrip_witness :
  ∃ b', write_then_read (put_all SYLAR_LITTLE_ENDIAN)
      (get_all SYLAR_BIG_ENDIAN (projT1 <$> sample_message)) sample_message (ByteArray_new 4)
      = (Ok sample_message, b') ∧
    wf b' ∧ abs b' = spec_write (message_enc (endian_ (ByteArray_new 4)) sample_message)
                       (abs (ByteArray_new 4)).
Proof.
  apply (message_roundtrip SYLAR_LITTLE_ENDIAN SYLAR_BIG_ENDIAN sample_message (ByteArray_new 4)).
  - repeat constructor; vm_compute; try done; intros [=].
  - apply bytes_wf_new. lia.
  - vm_compute. done.
Defined.

(** The array on the stack of [WriteUint32] ([WriteUint64]) is large enough:
    every value of the type is encoded in at most five (ten) bytes. *)
Theorem varint_array_bound (v : Z) :
  (0 ≤ v < 2 ^ 32 → ∃ bs, varint_loop 5 v = Ok bs ∧ (1 ≤ length bs ≤ 5)%nat) ∧
  (0 ≤ v < 2 ^ 64 → ∃ bs, varint_loop 10 v = Ok bs ∧ (1 ≤ length bs ≤ 10)%nat).
Proof.
  split; intros Hv.
  - destruct (varint_loop_ok 5 v) as (bs & ? & Hne & ? & _); [lia| |].
    { change (2 ^ (7 * Z.of_nat 5)) with (2 ^ 35). lia. }
    exists bs. split_and!; [done| |done]. destruct bs; simpl; [done|lia].
  - destruct (varint_loop_ok 10 v) as (bs & ? & Hne & ? & _); [lia| |].
    { change (2 ^ (7 * Z.of_nat 10)) with (2 ^ 70). lia. }
    exists bs. split_and!; [done| |done]. destruct bs; simpl; [done|lia].
Qed.

(** Ten bytes are needed, and five: the arrays are not larger than necessary. *)
Lemma varint_array_bound_witness :
  (0 ≤ 2 ^ 32 - 1 < 2 ^ 32 → ∃ bs, varint_loop 5 (2 ^ 32 - 1) = Ok bs ∧ (1 ≤ length bs ≤ 5)%nat) ∧
  (0 ≤ 2 ^ 32 - 1 < 2 ^ 64 → ∃ bs, varint_loop 10 (2 ^ 32 - 1) = Ok bs ∧ (1 ≤ length bs ≤ 10)%nat).
Proof. exact (varint_array_bound (2 ^ 32 - 1)). Defined.

(** *** The empty string at the end of the last block *)

(** After the two bytes of the length the position is the end of a buffer of one
    two-byte block; the current node is null, and the read of no byte that follows
    dereferences it. *)
Example ReadString_empty_at_end :
  (write_then_read (WriteStringF16 SYLAR_LITTLE_ENDIAN) (ReadStringF16 SYLAR_LITTLE_ENDIAN) []
     (ByteArray_new 2)).1 = Err UndefinedBehaviour.
Proof. vm_compute. reflexivity. Qed.

(** A string of 65536 bytes is written in full behind the length 0. *)
Example WriteStringF16_truncates n : str_size n = 65536 → u16(str_size n) = 0.
Proof. intros ->. reflexivity. Qed.

End Codec.
