(* ===== verification/Timer.v ===== *)
(** * Timer queue (util/timer.h, util/timer.cc)

    [Module Timer]: the [TimerManager] as a state of its own, the timers it
    shares with their owners on a heap, and every operation of [Timer] and
    [TimerManager]. The [std::set] of timers is the list of its elements in
    iteration order, an iterator is an index into it, and [end()] is the length.
    The clock ([GetElapsedMS]) and the address of a new timer are arguments.

    Theorems: no sequence of calls erases [end()] or loses the order of the set
    ([timer_calls_safe]); [ListExpiredCb] runs exactly the timers that are due
    ([ListExpiredCb_exact]); the interval [GetNextTimer] returns is the time to
    the next one ([GetNextTimer_wait]); [reset] moves the deadline as told
    ([reset_deadline]); and the notification at the front is enough: a waiter
    that was not notified has not missed an earlier deadline
    ([timer_no_lost_wakeup]). *)

From stdpp Require Import sorting.
From S2P Require Import Prelude.

Module Timer.

Local Open Scope Z_scope.

(** ** Data *)

(** A callback is a closure: a plain function, named by a number, or the
    [std::bind(&OnTimer, weak_cond, cb)] of a condition timer. *)
Inductive callback :=
  | Fn (f : nat)
  | OnTimer (weak_cond : nat) (f : nat).

#[export] Instance callback_eq_dec : EqDecision callback.
Proof. solve_decision. Defined.

(** [OnTimer] runs the callback only while [weak_cond.lock()] succeeds: the
    functions a callback calls, given which conditions are alive. *)
Definition run_callback (alive : nat → bool) (c : callback) : list nat :=
  match c with
  | Fn f => [f]
  | OnTimer w f => if alive w then [f] else []
  end.

(** [manager_] is the manager of the state below: the only constructor that
    puts a timer in a set gets [this]. *)
Record Timer := mk_Timer {
  recurring_ : bool;
  ms_ : Z;
  next_ : Z;
  cb_ : option callback
}.

#[export] Instance Timer_eq_dec : EqDecision Timer.
Proof. solve_decision. Defined.

Definition set_next_ (n : Z) (t : Timer) : Timer := mk_Timer (recurring_ t) (ms_ t) n (cb_ t).
Definition set_ms_ (n : Z) (t : Timer) : Timer := mk_Timer (recurring_ t) n (next_ t) (cb_ t).
Definition clear_cb_ (t : Timer) : Timer := mk_Timer (recurring_ t) (ms_ t) (next_ t) None.

(** [Timer(ms, cb, recurring, manager)] and [Timer(next)]. *)
Definition Timer_new (now ms : Z) (cb : callback) (recurring : bool) : Timer :=
  mk_Timer recurring ms u64(now + ms) (Some cb).
Definition Timer_at (next : Z) : Timer := mk_Timer false 0 next None.

(** [heap_] holds the timers some [shared_ptr] keeps alive; it stands for the
    memory, the other fields are the members. *)
Record TimerManager := mk_TimerManager {
  heap_ : gmap Z Timer;
  timers_ : list Z;
  tickled_ : bool;
  previous_use_time_ : Z
}.

Definition TimerManager_new (now : Z) : TimerManager := mk_TimerManager ∅ [] false now.

Definition set_heap_ (h : gmap Z Timer) (m : TimerManager) : TimerManager :=
  mk_TimerManager h (timers_ m) (tickled_ m) (previous_use_time_ m).
Definition set_timers_ (l : list Z) (m : TimerManager) : TimerManager :=
  mk_TimerManager (heap_ m) l (tickled_ m) (previous_use_time_ m).
Definition set_tickled_ (b : bool) (m : TimerManager) : TimerManager :=
  mk_TimerManager (heap_ m) (timers_ m) b (previous_use_time_ m).
Definition set_previous_use_time_ (z : Z) (m : TimerManager) : TimerManager :=
  mk_TimerManager (heap_ m) (timers_ m) (tickled_ m) z.

(** ** The ordered set *)

(** [Timer::Comparator]; a [Timer::ptr] is null or an address with its timer. *)
Definition Comparator (lhs rhs : option (Z * Timer)) : bool :=
  match lhs, rhs with
  | None, None => false
  | None, _ => true
  | _, None => false
  | Some (a, s), Some (b, t) =>
      if decide (next_ s < next_ t) then true
      else if decide (next_ t < next_ s) then false
      else bool_decide (a < b)
  end.

(** The pointer an element of the set is. *)
Definition ptr (h : gmap Z Timer) (p : Z) : option (Z * Timer) := (p,.) <$> h !! p.

(** [std::set::lower_bound], [find], [insert] and [erase]. *)
Fixpoint lower_bound (h : gmap Z Timer) (k : option (Z * Timer)) (l : list Z) : nat :=
  match l with
  | [] => 0
  | q :: l => if Comparator (ptr h q) k then S (lower_bound h k l) else 0
  end.

Definition set_find (h : gmap Z Timer) (p : Z) (l : list Z) : nat :=
  let i := lower_bound h (ptr h p) l in
  match l !! i with
  | Some q => if Comparator (ptr h p) (ptr h q) then length l else i
  | None => length l
  end.

(** The position of the element and the set afterwards: an element equivalent
    to one that is present is not inserted. *)
Definition set_insert (h : gmap Z Timer) (p : Z) (l : list Z) : nat * list Z :=
  let i := lower_bound h (ptr h p) l in
  match l !! i with
  | Some q => if Comparator (ptr h p) (ptr h q) then (i, take i l ++ p :: drop i l) else (i, l)
  | None => (i, take i l ++ p :: drop i l)
  end.

Definition set_erase (i : nat) : M TimerManager () :=
  m ← mget;
  if decide (i < length (timers_ m))%nat then mput (set_timers_ (delete i (timers_ m)) m)
  else mthrow UndefinedBehaviour.

(** ** Timers on the heap *)

Definition deref (p : Z) : M TimerManager Timer :=
  m ← mget;
  match heap_ m !! p with
  | Some t => mret t
  | None => mthrow UndefinedBehaviour
  end.

Definition store (p : Z) (t : Timer) : M TimerManager () :=
  mmodify (λ m, set_heap_ (<[p := t]> (heap_ m)) m).

Definition insert_timer (p : Z) : M TimerManager nat :=
  m ← mget;
  let '(i, l) := set_insert (heap_ m) p (timers_ m) in
  mput (set_timers_ l m);;
  mret i.

(** ** Operations *)

(** The protected [AddTimer(val, lock)]. The result tells whether
    [OnTimerInsertedAtFront] is called once the lock is released. *)
Definition AddTimer_locked (p : Z) : M TimerManager bool :=
  it ← insert_timer p;
  tickled ← mgets tickled_;
  let at_front := bool_decide (it = 0%nat) && negb tickled in
  (if at_front then mmodify (set_tickled_ true) else mret tt);;
  mret at_front.

Definition AddTimer (now p ms : Z) (cb : callback) (recurring : bool) : M TimerManager bool :=
  store p (Timer_new now ms cb recurring);;
  AddTimer_locked p.

Definition AddConditionTimer (now p ms : Z) (f weak_cond : nat) (recurring : bool) :
    M TimerManager bool :=
  AddTimer now p ms (OnTimer weak_cond f) recurring.

Definition Cancel (p : Z) : M TimerManager bool :=
  t ← deref p;
  if cb_ t is Some _ then
    store p (clear_cb_ t);;
    m ← mget;
    set_erase (set_find (heap_ m) p (timers_ m));;
    mret true
  else mret false.

Definition Refresh (now p : Z) : M TimerManager bool :=
  t ← deref p;
  if cb_ t is Some _ then
    m ← mget;
    let it := set_find (heap_ m) p (timers_ m) in
    if decide (it = length (timers_ m)) then mret false
    else
      set_erase it;;
      store p (set_next_ u64(now + ms_ t) t);;
      insert_timer p;;
      mret true
  else mret false.

(** The result is what the call returns and whether the hook is called. *)
Definition reset (now p ms : Z) (from_now : bool) : M TimerManager (bool * bool) :=
  t ← deref p;
  if decide (ms = ms_ t ∧ from_now = false) then mret (true, false)
  else if cb_ t is Some _ then
    m ← mget;
    let it := set_find (heap_ m) p (timers_ m) in
    if decide (it = length (timers_ m)) then mret (false, false)
    else
      set_erase it;;
      let start := if from_now then now else u64(next_ t - ms_ t) in
      store p (set_next_ u64(start + ms) (set_ms_ ms t));;
      front ← AddTimer_locked p;
      mret (true, front)
  else mret (false, false).

Definition GetNextTimer (now : Z) : M TimerManager Z :=
  mmodify (set_tickled_ false);;
  m ← mget;
  match timers_ m with
  | [] => mret (2 ^ 64 - 1)
  | p :: _ =>
      next ← deref p;
      mret (if decide (next_ next ≤ now) then 0 else u64(next_ next - now))
  end.

(** [60 * 60 * 1000] is an [int]; the subtraction is unsigned. *)
Definition DetectClockRollover (now_ms : Z) : M TimerManager bool :=
  prev ← mgets previous_use_time_;
  let rollover := bool_decide (now_ms < prev) && bool_decide (now_ms < u64(prev - 3600000)) in
  mmodify (set_previous_use_time_ now_ms);;
  mret rollover.

(** The loop that moves [it] past the timers due exactly at [now_ms]: how many of
    the elements from [it] on it passes. *)
Fixpoint skip_equal (h : gmap Z Timer) (now_ms : Z) (l : list Z) : nat :=
  match l with
  | [] => 0
  | q :: l =>
      match h !! q with
      | Some t => if decide (next_ t = now_ms) then S (skip_equal h now_ms l) else 0
      | None => 0
      end
  end.

(** The loop over the expired timers. *)
Fixpoint fire_expired (now_ms : Z) (expired : list Z) (cbs : list (option callback)) :
    M TimerManager (list (option callback)) :=
  match expired with
  | [] => mret cbs
  | p :: expired =>
      t ← deref p;
      (if recurring_ t then
         store p (set_next_ u64(now_ms + ms_ t) t);;
         insert_timer p;;
         mret tt
       else store p (clear_cb_ t));;
      fire_expired now_ms expired (cbs ++ [cb_ t])
  end.

(** [a] is the address of the temporary [now_timer]. The two tests for an empty
    set are one when no other thread runs in between. *)
Definition ListExpiredCb (now_ms a : Z) (cbs : list (option callback)) :
    M TimerManager (list (option callback)) :=
  m ← mget;
  match timers_ m with
  | [] => mret cbs
  | p :: _ =>
      rollover ← DetectClockRollover now_ms;
      first ← deref p;
      if negb rollover && bool_decide (now_ms < next_ first) then mret cbs
      else
        m ← mget;
        let h := heap_ m in
        let l := timers_ m in
        let it := if (rollover : bool) then length l
                  else lower_bound h (Some (a, Timer_at now_ms)) l in
        let it := (it + skip_equal h now_ms (drop it l))%nat in
        mput (set_timers_ (drop it l) m);;
        fire_expired now_ms (take it l) cbs
  end.

Definition HasTimer : M TimerManager bool :=
  l ← mgets timers_;
  mret (negb (bool_decide (l = []))).

(** ** The comparator is a strict total order *)

Lemma Comparator_irrefl x : Comparator x x = false.
Proof. destruct x as [[a s]|]; [|done]. simpl. repeat case_decide; try lia. case_bool_decide; lia. Qed.

Lemma Comparator_iff a s b t :
  Comparator (Some (a, s)) (Some (b, t)) = true ↔
  next_ s < next_ t ∨ (next_ s = next_ t ∧ a < b).
Proof. simpl. repeat case_decide; rewrite ?bool_decide_eq_true; intuition (try done; lia). Qed.

Lemma Comparator_trans x y z :
  Comparator x y = true → Comparator y z = true → Comparator x z = true.
Proof.
  destruct x as [[a s]|], y as [[b t]|], z as [[c u]|]; try done.
  rewrite !Comparator_iff. lia.
Qed.

Lemma Comparator_asym x y : Comparator x y = true → Comparator y x = false.
Proof.
  intros H. destruct (Comparator y x) eqn:E; [|done].
  pose proof (Comparator_trans _ _ _ H E). by rewrite Comparator_irrefl in *.
Qed.

Lemma Comparator_total a s b t :
  Comparator (Some (a, s)) (Some (b, t)) = false → a ≠ b →
  Comparator (Some (b, t)) (Some (a, s)) = true.
Proof.
  intros H Hne. apply (proj2 (Comparator_iff _ _ _ _)). simpl in H.
  repeat case_decide; rewrite ?bool_decide_eq_false in H; try done; lia.
Qed.

(** The comparator reads nothing of a timer but its deadline. *)
Definition before (h : gmap Z Timer) (p q : Z) : Prop := Comparator (ptr h p) (ptr h q) = true.

#[export] Instance before_trans h : Transitive (before h).
Proof. intros x y z. apply Comparator_trans. Qed.

(** ** The set of timers as a sorted list *)

(** The elements are in order and alive. *)
Definition good (h : gmap Z Timer) (l : list Z) : Prop :=
  StronglySorted (before h) l ∧ Forall (λ q, is_Some (h !! q)) l.

Section set.
Implicit Types (h : gmap Z Timer) (l : list Z).

Lemma good_nil h : good h [].
Proof. split; constructor. Qed.

Lemma good_app h l1 l2 : good h (l1 ++ l2) ↔
  (∀ p q, p ∈ l1 → q ∈ l2 → before h p q) ∧ good h l1 ∧ good h l2.
Proof. unfold good. rewrite StronglySorted_app, Forall_app. tauto. Qed.

Lemma good_cons h p l : good h (p :: l) ↔
  (∀ q, q ∈ l → before h p q) ∧ is_Some (h !! p) ∧ good h l.
Proof. unfold good. rewrite StronglySorted_cons, Forall_cons, Forall_forall. tauto. Qed.

Lemma good_alive h l p : good h l → p ∈ l → is_Some (h !! p).
Proof. intros [_ H]. by rewrite Forall_forall in H; apply H. Qed.

(** The first timer has the earliest deadline. *)
Lemma good_first h p l t q u : good h (p :: l) → h !! p = Some t → q ∈ p :: l → h !! q = Some u →
  next_ t ≤ next_ u.
Proof.
  intros (Hb & _ & _)%good_cons Ht [->|Hq]%elem_of_cons Hu; [simplify_eq; lia|].
  specialize (Hb q Hq). unfold before, ptr in Hb. rewrite Ht, Hu in Hb.
  apply Comparator_iff in Hb. lia.
Qed.

Lemma good_not_again h l1 p l2 : good h (l1 ++ p :: l2) → p ∉ l1 ++ l2.
Proof.
  rewrite good_app, good_cons. intros (H1 & _ & H2 & _).
  rewrite elem_of_app. intros [Hp|Hp].
  - specialize (H1 p p Hp ltac:(left)). unfold before in H1. by rewrite Comparator_irrefl in H1.
  - specialize (H2 p Hp). unfold before in H2. by rewrite Comparator_irrefl in H2.
Qed.

Lemma good_erase h l1 p l2 : good h (l1 ++ p :: l2) → good h (l1 ++ l2).
Proof. rewrite !good_app, good_cons. set_solver. Qed.

Lemma good_NoDup h l : good h l → NoDup l.
Proof.
  induction l as [|p l IH]; [constructor|]. intros H. constructor.
  - by apply (good_not_again h [] p l).
  - apply IH. by apply (good_erase h [] p l).
Qed.

Lemma ptr_next h h' p : next_ <$> h !! p = next_ <$> h' !! p →
  ∀ x, Comparator (ptr h p) x = Comparator (ptr h' p) x ∧ Comparator x (ptr h p) = Comparator x (ptr h' p).
Proof.
  unfold ptr. destruct (h !! p) as [t|], (h' !! p) as [t'|]; simpl; intros [=]; try done.
  intros [[b u]|]; simpl; split; repeat case_decide; auto; lia.
Qed.

Lemma good_ext h h' l : (∀ q, q ∈ l → next_ <$> h !! q = next_ <$> h' !! q) →
  good h l → good h' l.
Proof.
  induction l as [|p l IH]; [intros; apply good_nil|].
  rewrite !good_cons. intros Hn (H1 & H2 & H3). split_and!.
  - intros q Hq. specialize (H1 q Hq). unfold before in *.
    rewrite <- (proj1 (ptr_next h h' p (Hn p ltac:(left)) _)).
    by rewrite <- (proj2 (ptr_next h h' q (Hn q ltac:(by right)) _)).
  - specialize (Hn p ltac:(left)). destruct H2 as [t Ht]. rewrite Ht in Hn.
    destruct (h' !! p); [eauto|done].
  - apply IH; [|done]. intros q Hq. apply Hn. by right.
Qed.

Lemma good_store h l p t : p ∉ l → good h l → good (<[p := t]> h) l.
Proof.
  intros Hp. apply good_ext. intros q Hq. by rewrite lookup_insert_ne by (intros ->; done).
Qed.

Lemma good_store_same h l p s t :
  h !! p = Some s → next_ t = next_ s → good h l → good (<[p := t]> h) l.
Proof.
  intros Hp Hn. apply good_ext. intros q Hq.
  destruct (decide (q = p)) as [->|]; [|by rewrite lookup_insert_ne].
  rewrite lookup_insert_eq, Hp. simpl. by rewrite Hn.
Qed.

Lemma lower_bound_app h k l1 l2 :
  Forall (λ q, Comparator (ptr h q) k = true) l1 →
  lower_bound h k (l1 ++ l2) = (length l1 + lower_bound h k l2)%nat.
Proof. induction 1 as [|q l1 Hq _ IH]; [done|]. simpl. by rewrite Hq, IH. Qed.

Lemma lower_bound_split h k l : ∃ l1 l2, l = l1 ++ l2 ∧ lower_bound h k l = length l1 ∧
  Forall (λ q, Comparator (ptr h q) k = true) l1 ∧
  (∀ q, head l2 = Some q → Comparator (ptr h q) k = false).
Proof.
  induction l as [|q l (l1 & l2 & -> & Hl & H1 & H2)].
  - by exists [], [].
  - simpl. destruct (Comparator (ptr h q) k) eqn:E.
    + exists (q :: l1), l2. rewrite Hl. auto.
    + exists [], (q :: l1 ++ l2). split_and!; auto. by intros ? [= <-].
Qed.

Lemma set_find_ok h l1 p l2 : good h (l1 ++ p :: l2) →
  set_find h p (l1 ++ p :: l2) = length l1.
Proof.
  intros H. unfold set_find. apply good_app in H as (H & _ & _).
  assert (lower_bound h (ptr h p) (l1 ++ p :: l2) = length l1) as ->.
  { rewrite lower_bound_app.
    - simpl. rewrite Comparator_irrefl. lia.
    - apply Forall_forall. intros q Hq. apply H; [done|left]. }
  rewrite list_lookup_middle by done. by rewrite Comparator_irrefl.
Qed.

Lemma set_insert_ok h l p t : good h l → p ∉ l → h !! p = Some t →
  ∃ l1 l2, l = l1 ++ l2 ∧ set_insert h p l = (length l1, l1 ++ p :: l2) ∧
    good h (l1 ++ p :: l2).
Proof.
  intros Hg Hp Ht. unfold set_insert.
  destruct (lower_bound_split h (ptr h p) l) as (l1 & l2 & -> & -> & H1 & H2).
  exists l1, l2. split; [done|]. rewrite take_app_length, drop_app_length.
  apply not_elem_of_app in Hp as [Hp1 Hp2]. apply good_app in Hg as (Hg & Hg1 & Hg2).
  assert (∀ q, q ∈ l2 → before h p q) as Hafter.
  { destruct l2 as [|q l2]; [set_solver|]. specialize (H2 q eq_refl).
    apply good_cons in Hg2 as (Hq & [u Hu] & _).
    apply not_elem_of_cons in Hp2 as [Hne _].
    assert (before h p q) as Hpq.
    { unfold before, ptr in *. rewrite Ht, Hu in *. simpl in H2 |- *.
      apply Comparator_total in H2; [done|congruence]. }
    intros r [->|Hr]%elem_of_cons; [done|]. etrans; [done|]. by apply Hq. }
  split.
  - destruct l2 as [|q l2].
    + rewrite app_nil_r. rewrite lookup_ge_None_2 by lia. done.
    + rewrite list_lookup_middle by done. by rewrite (Hafter q ltac:(left)).
  - apply good_app. split_and!; [|done|].
    + intros q r Hq [->|Hr]%elem_of_cons; [|by apply Hg].
      by rewrite Forall_forall in H1; apply H1.
    + apply good_cons. rewrite Ht. eauto.
Qed.
End set.

(** ** The invariant *)

Definition armed (h : gmap Z Timer) (p : Z) : Prop := ∃ t, h !! p = Some t ∧ is_Some (cb_ t).

(** The set is sorted, and it holds exactly the timers that have a callback. *)
Record wf (m : TimerManager) : Prop := {
  wf_good : good (heap_ m) (timers_ m);
  wf_armed p : p ∈ timers_ m ↔ armed (heap_ m) p
}.

Lemma armed_store h p t q : armed (<[p := t]> h) q ↔ (q = p ∧ is_Some (cb_ t)) ∨ (q ≠ p ∧ armed h q).
Proof.
  unfold armed. destruct (decide (q = p)) as [->|Hne].
  - rewrite lookup_insert_eq. naive_solver.
  - rewrite lookup_insert_ne by done. naive_solver.
Qed.

Lemma timer_wf_new now : wf (TimerManager_new now).
Proof. split; [apply good_nil|]. intros p. split; [set_solver|]. by intros (t & ? & _). Qed.

Lemma wf_position m p t : wf m → heap_ m !! p = Some t → is_Some (cb_ t) →
  ∃ l1 l2, timers_ m = l1 ++ p :: l2 ∧ p ∉ l1 ++ l2 ∧ good (heap_ m) (l1 ++ l2).
Proof.
  intros [Hg Ha] Ht Hc. assert (p ∈ timers_ m) as Hp by (apply Ha; by exists t).
  apply list_elem_of_split in Hp as (l1 & l2 & Hl). exists l1, l2. rewrite Hl in Hg.
  split_and!; [done|by eapply good_not_again|by eapply good_erase].
Qed.

(** The set loses or gains one timer. *)
Lemma wf_remove m h l1 p l2 b z : wf m → timers_ m = l1 ++ p :: l2 → p ∉ l1 ++ l2 →
  good h (l1 ++ l2) → (∀ q, armed h q ↔ q ≠ p ∧ armed (heap_ m) q) →
  wf (mk_TimerManager h (l1 ++ l2) b z).
Proof.
  intros [_ Ha] Hl Hp Hg Hh. split; [done|]. intros q. simpl. rewrite Hh, <- Ha, Hl. set_solver.
Qed.

Lemma wf_replace h p t l l1 l2 b z : l = l1 ++ l2 → good (<[p := t]> h) (l1 ++ p :: l2) →
  is_Some (cb_ t) → (∀ q, q ∈ l ↔ q ≠ p ∧ armed h q) →
  wf (mk_TimerManager (<[p := t]> h) (l1 ++ p :: l2) b z).
Proof.
  intros -> Hg Hc Hh. split; [done|]. intros q. simpl. rewrite armed_store.
  rewrite elem_of_app, elem_of_cons. specialize (Hh q). rewrite elem_of_app in Hh.
  destruct (decide (q = p)); naive_solver.
Qed.

(** ** One step of each operation *)

Lemma timer_deref_ok m p t : heap_ m !! p = Some t → deref p m = (Ok t, m).
Proof. intros H. unfold deref. mstep. by rewrite H. Qed.

Lemma set_erase_ok m l1 p l2 : timers_ m = l1 ++ p :: l2 →
  set_erase (length l1) m = (Ok tt, set_timers_ (l1 ++ l2) m).
Proof.
  intros Hl. unfold set_erase. mstep. rewrite Hl, decide_True by (rewrite length_app; simpl; lia).
  unfold mput. by rewrite delete_middle.
Qed.

Lemma insert_timer_ok m p t : good (heap_ m) (timers_ m) → p ∉ timers_ m → heap_ m !! p = Some t →
  ∃ l1 l2, timers_ m = l1 ++ l2 ∧ good (heap_ m) (l1 ++ p :: l2) ∧
    insert_timer p m = (Ok (length l1), set_timers_ (l1 ++ p :: l2) m).
Proof.
  intros Hg Hp Ht. destruct (set_insert_ok _ _ _ _ Hg Hp Ht) as (l1 & l2 & Hl & Hi & Hg').
  exists l1, l2. split_and!; [done..|]. unfold insert_timer. mstep. by rewrite Hi.
Qed.

Lemma AddTimer_locked_ok m p t :
  good (heap_ m) (timers_ m) → p ∉ timers_ m → heap_ m !! p = Some t →
  ∃ l1 l2, timers_ m = l1 ++ l2 ∧ good (heap_ m) (l1 ++ p :: l2) ∧
    let front := bool_decide (l1 = []) && negb (tickled_ m) in
    AddTimer_locked p m =
      (Ok front, mk_TimerManager (heap_ m) (l1 ++ p :: l2) (tickled_ m || front) (previous_use_time_ m)).
Proof.
  intros Hg Hp Ht. destruct (insert_timer_ok _ _ _ Hg Hp Ht) as (l1 & l2 & Hl & Hg' & Hi).
  exists l1, l2. split_and!; [done..|]. unfold AddTimer_locked.
  rewrite (bind_ok _ _ _ _ _ Hi). mstep. unfold set_timers_. simpl.
  replace (bool_decide (length l1 = 0%nat)) with (bool_decide (l1 = []))
    by (destruct l1; done).
  destruct (bool_decide (l1 = [])), (tickled_ m); done.
Qed.

Lemma AddTimer_ok m now p ms cb rec : wf m → heap_ m !! p = None →
  let t := Timer_new now ms cb rec in
  ∃ l1 l2, timers_ m = l1 ++ l2 ∧ good (<[p := t]> (heap_ m)) (l1 ++ p :: l2) ∧
    let front := bool_decide (l1 = []) && negb (tickled_ m) in
    let m' := mk_TimerManager (<[p := t]> (heap_ m)) (l1 ++ p :: l2)
                (tickled_ m || front) (previous_use_time_ m) in
    AddTimer now p ms cb rec m = (Ok front, m') ∧ wf m'.
Proof.
  intros [Hg Ha] Hp t.
  assert (p ∉ timers_ m) as Hnp.
  { rewrite Ha. intros (u & Hu & _). congruence. }
  destruct (AddTimer_locked_ok (set_heap_ (<[p := t]> (heap_ m)) m) p t) as (l1 & l2 & Hl & Hg' & Hr).
  - by apply good_store.
  - done.
  - apply lookup_insert_eq.
  - exists l1, l2. split_and!; [done..|]. split.
    + unfold AddTimer, store. mstep. exact Hr.
    + eapply wf_replace; [done|done|by eexists|]. intros q. rewrite Ha.
      split; [|tauto]. intros Hq. split; [|done]. intros ->. apply Ha in Hq. done.
Qed.

Lemma Cancel_armed m p t : wf m → heap_ m !! p = Some t → is_Some (cb_ t) →
  ∃ l1 l2, timers_ m = l1 ++ p :: l2 ∧
    let m' := set_timers_ (l1 ++ l2) (set_heap_ (<[p := clear_cb_ t]> (heap_ m)) m) in
    Cancel p m = (Ok true, m') ∧ wf m'.
Proof.
  intros Hwf Ht [c Hc]. destruct (wf_position _ _ _ Hwf Ht ltac:(by eexists)) as (l1 & l2 & Hl & Hp & Hg).
  exists l1, l2. split; [done|]. split.
  - unfold Cancel, store. rewrite (bind_ok _ _ _ _ _ (timer_deref_ok _ _ _ Ht)). rewrite Hc. mstep.
    simpl. rewrite Hl, set_find_ok.
    + by rewrite (bind_ok _ _ _ _ _ (set_erase_ok (set_heap_ _ m) _ _ _ Hl)).
    + rewrite <- Hl. eapply good_store_same; [done|done|apply Hwf].
  - eapply (wf_remove m); [done..| |].
    + by apply good_store.
    + intros q. simpl. rewrite armed_store. simpl. split; [|tauto]. intros [[_ [? [=]]]|?]; done.
Qed.

Lemma Cancel_disarmed m p t : heap_ m !! p = Some t → cb_ t = None → Cancel p m = (Ok false, m).
Proof.
  intros Ht Hc. unfold Cancel. rewrite (bind_ok _ _ _ _ _ (timer_deref_ok _ _ _ Ht)). by rewrite Hc.
Qed.

(** A timer is put in (or back in) the set with the contents [t]: the new state,
    and whether the hook is called. *)
Definition placed (m : TimerManager) (p : Z) (t : Timer) (hook : bool) (m' : TimerManager) : Prop :=
  wf m' ∧ heap_ m' = <[p := t]> (heap_ m) ∧ previous_use_time_ m' = previous_use_time_ m ∧
  tickled_ m' = tickled_ m || hook.

(** The hook is called when the timer is the new first and nobody was told yet. *)
Definition at_front (m m' : TimerManager) (p : Z) : bool :=
  bool_decide (head (timers_ m') = Some p) && negb (tickled_ m).

Lemma at_front_app m h l1 p l2 b z : p ∉ l1 →
  at_front m (mk_TimerManager h (l1 ++ p :: l2) b z) p = bool_decide (l1 = []) && negb (tickled_ m).
Proof.
  intros Hp. unfold at_front. simpl. f_equal. apply bool_decide_ext.
  destruct l1 as [|q l1]; simpl; [done|]. split; [|done]. intros [= ->]. set_solver.
Qed.

Lemma AddTimer_placed m now p ms cb rec : wf m → heap_ m !! p = None →
  ∃ m', AddTimer now p ms cb rec m = (Ok (at_front m m' p), m') ∧
    placed m p (Timer_new now ms cb rec) (at_front m m' p) m'.
Proof.
  intros Hwf Hp. destruct (AddTimer_ok m now p ms cb rec Hwf Hp) as (l1 & l2 & Hl & Hg & Hr & Hwf').
  eexists. rewrite Hr. rewrite at_front_app.
  - by repeat split; try apply Hwf'.
  - intros H. apply (good_not_again _ _ _ _ Hg). set_solver.
Qed.

Section rearm.
Context (m : TimerManager) (p : Z) (t t' : Timer).
Context (Hwf : wf m) (Ht : heap_ m !! p = Some t) (Hc : is_Some (cb_ t)).

(** Between [erase] and [insert] the timer is in nobody's set. *)
Lemma rearm_ready : ∃ l1 l2, timers_ m = l1 ++ p :: l2 ∧
  set_find (heap_ m) p (timers_ m) = length l1 ∧
  p ∉ l1 ++ l2 ∧ good (<[p := t']> (heap_ m)) (l1 ++ l2) ∧
  (∀ q, q ∈ l1 ++ l2 ↔ q ≠ p ∧ armed (heap_ m) q).
Proof using Hwf Ht Hc.
  destruct (wf_position _ _ _ Hwf Ht Hc) as (l1 & l2 & Hl & Hp & Hg).
  exists l1, l2. split_and!; [done| |done|by apply good_store|].
  - rewrite Hl. apply set_find_ok. rewrite <- Hl. apply Hwf.
  - intros q. rewrite <- (wf_armed _ Hwf), Hl. set_solver.
Qed.
End rearm.

Lemma find_in_set (l l1 l2 : list Z) p : l = l1 ++ p :: l2 → length l1 ≠ length l.
Proof. intros ->. rewrite length_app. simpl. lia. Qed.

Lemma Refresh_armed m now p t : wf m → heap_ m !! p = Some t → is_Some (cb_ t) →
  ∃ m', Refresh now p m = (Ok true, m') ∧ placed m p (set_next_ u64(now + ms_ t) t) false m'.
Proof.
  intros Hwf Ht Hc. set (t' := set_next_ _ t).
  destruct (rearm_ready m p t t' Hwf Ht Hc) as (l1 & l2 & Hl & Hf & Hp & Hg & Ha).
  destruct (insert_timer_ok (mk_TimerManager (<[p := t']> (heap_ m)) (l1 ++ l2) (tickled_ m)
    (previous_use_time_ m)) p t') as (k1 & k2 & Hk & Hg' & Hi);
    [done|done|apply lookup_insert_eq|].
  eexists. split.
  - unfold Refresh, store. rewrite (bind_ok _ _ _ _ _ (timer_deref_ok _ _ _ Ht)).
    destruct (cb_ t) as [c|] eqn:Hc0; [|by destruct Hc].
    mstep. rewrite Hf, decide_False by (by eapply find_in_set).
    rewrite (bind_ok _ _ _ _ _ (set_erase_ok _ _ _ _ Hl)). mstep.
    rewrite (bind_ok _ _ _ _ _ Hi). done.
  - split; [|by rewrite orb_false_r]. eapply wf_replace; [exact Hk|done|done|done].
Qed.

Lemma Refresh_disarmed m now p t : heap_ m !! p = Some t → cb_ t = None →
  Refresh now p m = (Ok false, m).
Proof.
  intros Ht Hc. unfold Refresh. rewrite (bind_ok _ _ _ _ _ (timer_deref_ok _ _ _ Ht)). by rewrite Hc.
Qed.

(** The deadline [reset] computes. *)
Definition reset_timer (now ms : Z) (from_now : bool) (t : Timer) : Timer :=
  set_next_ u64((if from_now then now else u64(next_ t - ms_ t)) + ms) (set_ms_ ms t).

Lemma reset_armed m now p ms from_now t : wf m → heap_ m !! p = Some t → is_Some (cb_ t) →
  ms ≠ ms_ t ∨ from_now = true →
  ∃ m', reset now p ms from_now m = (Ok (true, at_front m m' p), m') ∧
    placed m p (reset_timer now ms from_now t) (at_front m m' p) m'.
Proof.
  intros Hwf Ht Hc Hne. set (t' := reset_timer _ _ _ t).
  destruct (rearm_ready m p t t' Hwf Ht Hc) as (l1 & l2 & Hl & Hf & Hp & Hg & Ha).
  destruct (AddTimer_locked_ok (mk_TimerManager (<[p := t']> (heap_ m)) (l1 ++ l2) (tickled_ m)
    (previous_use_time_ m)) p t') as (k1 & k2 & Hk & Hg' & Hi);
    [done|done|apply lookup_insert_eq|].
  simpl in Hk, Hg', Hi.
  assert (p ∉ k1) as Hpk by (rewrite Hk in Hp; set_solver).
  rewrite <- (at_front_app m (<[p := t']> (heap_ m)) k1 p k2
     (tickled_ m || (bool_decide (k1 = []) && negb (tickled_ m))) (previous_use_time_ m) Hpk) in Hi at 1.
  eexists. split.
  - unfold reset, store. rewrite (bind_ok _ _ _ _ _ (timer_deref_ok _ _ _ Ht)).
    rewrite decide_False by (destruct from_now; naive_solver).
    destruct (cb_ t) as [c|] eqn:Hc0; [|by destruct Hc].
    mstep. rewrite Hf, decide_False by (by eapply find_in_set).
    rewrite (bind_ok _ _ _ _ _ (set_erase_ok _ _ _ _ Hl)). mstep.
    unfold set_heap_, set_timers_. simpl. fold t'. rewrite (bind_ok _ _ _ _ _ Hi). done.
  - rewrite at_front_app by done. split; [|done].
    eapply wf_replace; [exact Hk|done|done|done].
Qed.

(** ** The expired timers *)

(** The deadline of a timer, when it is alive. *)
Definition due (h : gmap Z Timer) (now : Z) (p : Z) : Prop :=
  ∃ t, h !! p = Some t ∧ next_ t ≤ now.

#[export] Instance due_dec h now p : Decision (due h now p).
Proof.
  unfold due. destruct (h !! p) as [t|].
  - destruct (decide (next_ t ≤ now)) as [Hd|Hd]; [left|right].
    + by exists t.
    + intros (t' & [= ->] & ?). lia.
  - right. by intros (t' & ? & _).
Defined.

(** Does the clock seem to have gone back by more than an hour? *)
Definition rollover (m : TimerManager) (now : Z) : bool :=
  bool_decide (now < previous_use_time_ m) &&
  bool_decide (now < u64(previous_use_time_ m - 3600000)).

(** The timers one call runs, in the order it runs them. *)
Definition to_run (m : TimerManager) (now : Z) : list Z :=
  if rollover m now then timers_ m else filter (due (heap_ m) now) (timers_ m).

(** What running does to a timer. *)
Definition fired (now : Z) (t : Timer) : Timer :=
  if recurring_ t then set_next_ u64(now + ms_ t) t else clear_cb_ t.

Lemma due_before h now p q : before h p q → due h now q → is_Some (h !! p) → due h now p.
Proof.
  unfold before, ptr. intros Hb (t & Ht & Hd) [u Hu]. rewrite Hu, Ht in Hb.
  apply Comparator_iff in Hb. exists u. split; [done|lia].
Qed.

Lemma filter_Forall {A} (P : A → Prop) `{∀ x, Decision (P x)} l : Forall P l → filter P l = l.
Proof. induction 1; [done|]. rewrite filter_cons_True by done. by f_equal. Qed.

(** In a sorted set the due timers come first. *)
Lemma good_due_split h now l : good h l →
  ∃ l1 l2, l = l1 ++ l2 ∧ Forall (due h now) l1 ∧ Forall (λ q, ¬ due h now q) l2 ∧
    filter (due h now) l = l1.
Proof.
  induction l as [|p l IH]; intros Hg; [by exists [], []|].
  pose proof Hg as (Hb & Hp & Hl)%good_cons.
  destruct (IH Hl) as (l1 & l2 & -> & H1 & H2 & Hf).
  destruct (decide (due h now p)) as [Hd|Hd].
  - exists (p :: l1), l2. rewrite filter_cons_True by done. rewrite Hf. auto.
  - exists [], (p :: l1 ++ l2). split_and!; [done..| |].
    + constructor; [done|]. apply Forall_forall. intros q Hq Hdq. apply Hd.
      eapply due_before; eauto.
    + rewrite filter_cons_False by done. rewrite Hf.
      destruct l1 as [|q l1]; [done|]. apply Forall_cons in H1 as [H1 _]. destruct Hd.
      eapply due_before; [|done|done]. apply Hb. set_solver.
Qed.

(** Nothing is due when the first timer is not. *)
Lemma none_due h now l p l' t : good h l → l = p :: l' → h !! p = Some t →
  filter (due h now) l = [] ↔ now < next_ t.
Proof.
  intros Hg Hl Ht. destruct (good_due_split h now _ Hg) as (l1 & l2 & Hl12 & H1 & H2 & ->).
  rewrite Hl in Hl12. destruct l1 as [|q l1]; simplify_eq/=.
  - split; [intros _|done]. apply Forall_cons in H2 as [H2 _].
    destruct (decide (now < next_ t)); [done|]. destruct H2. exists t. split; [done|lia].
  - split; [done|]. apply Forall_cons in H1 as [(u & Hu & Hd) _]. simplify_eq. lia.
Qed.

Lemma skip_equal_due h now l : ∃ l1 l2, l = l1 ++ l2 ∧ skip_equal h now l = length l1 ∧
  Forall (λ q, ∃ t, h !! q = Some t ∧ next_ t = now) l1 ∧
  (∀ q t, head l2 = Some q → h !! q = Some t → next_ t ≠ now).
Proof.
  induction l as [|q l (l1 & l2 & -> & Hs & H1 & H2)]; [by exists [], []|].
  simpl. destruct (h !! q) as [t|] eqn:Hq; [case_decide|].
  - exists (q :: l1), l2. rewrite Hs. split_and!; auto. constructor; eauto.
  - exists [], (q :: l1 ++ l2). split_and!; auto. intros ? ? [= <-]. by rewrite Hq; intros [= <-].
  - exists [], (q :: l1 ++ l2). split_and!; auto. intros ? ? [= <-]. by rewrite Hq.
Qed.

(** [lower_bound] and the loop after it stop at the first timer that is not due. *)
Lemma expired_count h now a l : good h l →
  let i := lower_bound h (Some (a, Timer_at now)) l in
  take (i + skip_equal h now (drop i l))%nat l = filter (due h now) l.
Proof.
  intros Hg. destruct (lower_bound_split h (Some (a, Timer_at now)) l) as (k1 & k2 & -> & -> & H1 & H2).
  simpl. rewrite drop_app_length.
  destruct (skip_equal_due h now k2) as (k3 & k4 & -> & -> & H3 & H4).
  rewrite take_app_add, take_app_length.
  assert (Forall (due h now) (k1 ++ k3)) as Hdue.
  { apply Forall_app. split; [|eapply Forall_impl; [exact H3|]].
    - pose proof Hg as (_ & [_ Ha] & _)%good_app. rewrite Forall_forall in H1, Ha |- *.
      intros q Hq. destruct (Ha q Hq) as [t Ht]. specialize (H1 q Hq). unfold ptr in H1.
      rewrite Ht in H1. apply Comparator_iff in H1. exists t. simpl in H1. split; [done|lia].
    - intros q (t & Ht & Hn). exists t. split; [done|lia]. }
  rewrite (assoc_L (++)), filter_app, (filter_Forall _ _ Hdue).
  assert (filter (due h now) k4 = []) as ->; [|by rewrite app_nil_r].
  assert (¬ ∃ q, head k4 = Some q ∧ due h now q) as Hno.
  { intros (q & Hh & t & Ht & Hd). destruct k4 as [|? k4]; [done|]. simplify_eq/=.
    assert (next_ t ≠ now) by (eapply H4; done).
    destruct k3 as [|r k3].
    - specialize (H2 q eq_refl). unfold ptr in H2. rewrite Ht in H2. simpl in H2.
      repeat case_decide; lia.
    - apply Forall_cons in H3 as [(u & Hu & Hn) _].
      rewrite (assoc_L (++)) in Hg. apply good_app in Hg as (Hb & _ & _).
      specialize (Hb r q ltac:(set_solver) ltac:(left)). unfold before, ptr in Hb.
      rewrite Hu, Ht in Hb. apply Comparator_iff in Hb. lia. }
  rewrite !good_app in Hg. destruct Hg as (_ & _ & _ & _ & Hg).
  destruct (good_due_split h now k4 Hg) as (l1 & l2 & -> & Hd1 & _ & ->).
  destruct l1 as [|q l1]; [done|]. destruct Hno. exists q.
  apply Forall_cons in Hd1 as [? _]. done.
Qed.

(** The heap after the timers of [l] have run. *)
Definition heap_fired (h h' : gmap Z Timer) (now : Z) (l : list Z) : Prop :=
  ∀ q, h' !! q = (if decide (q ∈ l) then fired now <$> h !! q else h !! q).

Lemma heap_fired_cons h h' now p t l : p ∉ l → h !! p = Some t →
  heap_fired (<[p := fired now t]> h) h' now l → heap_fired h h' now (p :: l).
Proof.
  intros Hp Ht Hh q. rewrite (Hh q). destruct (decide (q = p)) as [->|Hne].
  - rewrite decide_False, decide_True by set_solver. by rewrite lookup_insert_eq, Ht.
  - rewrite lookup_insert_ne by done. by repeat case_decide; set_solver.
Qed.

Lemma fire_expired_ok now l : ∀ m cbs,
  good (heap_ m) (timers_ m) → NoDup l → (∀ q, q ∈ l → q ∉ timers_ m ∧ is_Some (heap_ m !! q)) →
  ∃ m', fire_expired now l cbs m = (Ok (cbs ++ ((λ q, heap_ m !! q ≫= cb_) <$> l)), m') ∧
    good (heap_ m') (timers_ m') ∧ heap_fired (heap_ m) (heap_ m') now l ∧
    (∀ q, q ∈ timers_ m' ↔ q ∈ timers_ m ∨ (q ∈ l ∧ ∃ t, heap_ m !! q = Some t ∧ recurring_ t = true)) ∧
    tickled_ m' = tickled_ m ∧ previous_use_time_ m' = previous_use_time_ m.
Proof.
  induction l as [|p l IH]; intros m cbs Hg Hnd Hl.
  { exists m. rewrite app_nil_r. split_and!; try done. set_solver. }
  apply NoDup_cons in Hnd as [Hpl Hnd]. destruct (Hl p ltac:(left)) as [Hp [t Ht]].
  assert (∃ m1, (if recurring_ t then store p (set_next_ u64(now + ms_ t) t);; insert_timer p;; mret tt
                 else store p (clear_cb_ t)) m = (Ok tt, m1) ∧
    good (heap_ m1) (timers_ m1) ∧ heap_ m1 = <[p := fired now t]> (heap_ m) ∧
    (∀ q, q ∈ timers_ m1 ↔ q ∈ timers_ m ∨ (q = p ∧ recurring_ t = true)) ∧
    tickled_ m1 = tickled_ m ∧ previous_use_time_ m1 = previous_use_time_ m)
    as (m1 & Hm1 & Hg1 & Hh1 & Ht1 & Htk1 & Hp1).
  { unfold fired, store. destruct (recurring_ t) eqn:Hrec; mstep.
    - destruct (insert_timer_ok (set_heap_ (<[p := set_next_ u64(now + ms_ t) t]> (heap_ m)) m) p
        (set_next_ u64(now + ms_ t) t)) as (l1 & l2 & Hlt & Hg1 & Hi);
        [by apply good_store|done|apply lookup_insert_eq|].
      rewrite (bind_ok _ _ _ _ _ Hi). eexists. split_and!; [done|done|done| |done|done].
      simpl in *. intros q. rewrite Hlt. set_solver.
    - eexists. split_and!; [done|by apply good_store|done| |done|done]. simpl. set_solver. }
  destruct (IH m1 (cbs ++ [cb_ t]) Hg1 Hnd) as (m' & Hm' & Hg' & Hf & Hti & Htk & Hpr).
  { intros q Hq. destruct (Hl q ltac:(by right)) as [Hnq Hs]. rewrite Hh1, Ht1.
    assert (q ≠ p) by (intros ->; done). rewrite lookup_insert_ne by done. naive_solver. }
  exists m'. split_and!.
  - simpl. rewrite (bind_ok _ _ _ _ _ (timer_deref_ok _ _ _ Ht)), (bind_ok _ _ _ _ _ Hm1), Hm'.
    rewrite <- (assoc_L (++)). simpl. rewrite Ht. simpl. do 4 f_equal.
    apply list_fmap_ext. intros i q Hq. assert (q ≠ p).
    { intros ->. apply Hpl. by eapply list_elem_of_lookup_2. }
    by rewrite Hh1, lookup_insert_ne.
  - done.
  - rewrite Hh1 in Hf. by eapply heap_fired_cons.
  - intros q. rewrite Hti, Ht1, Hh1, elem_of_cons. destruct (decide (q = p)) as [->|Hne].
    + rewrite Ht. naive_solver.
    + rewrite lookup_insert_ne by done. naive_solver.
  - congruence.
  - congruence.
Qed.

Lemma DetectClockRollover_ok m now :
  DetectClockRollover now m = (Ok (rollover m now), set_previous_use_time_ now m).
Proof. done. Qed.

Lemma skip_equal_nil h now : skip_equal h now [] = 0%nat.
Proof. done. Qed.

Lemma to_run_nil m now : timers_ m = [] → to_run m now = [].
Proof. intros H. unfold to_run. rewrite H. by destruct (rollover m now). Qed.

Lemma to_run_in m now q : q ∈ to_run m now → q ∈ timers_ m.
Proof. unfold to_run. destruct (rollover m now); [done|]. by intros [_ ?]%list_elem_of_filter. Qed.

(** The timers left in the set: those that were not run, and the recurring ones. *)
Definition left_armed (m m' : TimerManager) (now : Z) : Prop :=
  ∀ q, q ∈ timers_ m' ↔ q ∈ timers_ m ∧
    (q ∉ to_run m now ∨ ∃ t, heap_ m !! q = Some t ∧ recurring_ t = true).

(** After the due timers have fired, what is left in the set is what is armed. *)
Lemma left_is_armed m m' now : (∀ q, q ∈ timers_ m ↔ armed (heap_ m) q) →
  heap_fired (heap_ m) (heap_ m') now (to_run m now) → left_armed m m' now → ∀ q, q ∈ timers_ m' ↔ armed (heap_ m') q.
Proof.
  intros Ha Hf Hleft q. rewrite (Hleft q), (Ha q). unfold armed. rewrite (Hf q).
  unfold fired. destruct (decide (q ∈ to_run m now)) as [Hq|Hq]; [|tauto].
  destruct (heap_ m !! q) as [u|]; simpl; [|split; [intros [(v & ? & _) _]|intros (v & ? & _)]; done].
  destruct (recurring_ u) eqn:Hu; simpl.
  - split; [intros [(v & [= <-] & Hv) _]; by eexists|].
    intros (v & [= <-] & Hv). split; [|right]; by eexists.
  - split; [intros [_ [?|(v & [= <-] & ?)]]; congruence|].
    intros (v & [= <-] & [? [=]]).
Qed.

Lemma ListExpiredCb_ok m now a cbs : wf m →
  ∃ m', ListExpiredCb now a cbs m =
      (Ok (cbs ++ ((λ q, heap_ m !! q ≫= cb_) <$> to_run m now)), m') ∧ wf m' ∧
    heap_fired (heap_ m) (heap_ m') now (to_run m now) ∧ left_armed m m' now ∧
    tickled_ m' = tickled_ m ∧
    previous_use_time_ m' = (if decide (timers_ m = []) then previous_use_time_ m else now).
Proof.
  intros [Hg Ha]. unfold ListExpiredCb. mstep. destruct (timers_ m) as [|p l] eqn:Hl.
  { exists m. unfold left_armed. rewrite to_run_nil, Hl by done. rewrite app_nil_r.
    split_and!; try done; [split; by rewrite ?Hl|set_solver]. }
  rewrite <- Hl in *. rewrite (bind_ok _ _ _ _ _ (DetectClockRollover_ok m now)).
  assert (is_Some (heap_ m !! p)) as [t Ht].
  { eapply good_alive; [done|]. rewrite Hl. left. }
  rewrite (bind_ok _ _ _ _ _ (timer_deref_ok (set_previous_use_time_ now m) p t Ht)).
  pose proof (none_due _ now _ _ _ _ Hg Hl Ht) as Hfirst.
  destruct (negb (rollover m now) && bool_decide (now < next_ t)) eqn:Hno.
  - apply andb_true_iff in Hno as [Hr%negb_true_iff Hlt%bool_decide_eq_true].
    assert (to_run m now = []) as Hrun by (unfold to_run; rewrite Hr; by apply Hfirst).
    eexists. unfold left_armed. rewrite Hrun. rewrite app_nil_r.
    split_and!; [done|by constructor; [exact Hg|exact Ha]| | |done|by rewrite decide_False by (rewrite Hl; done)].
    + intros q. rewrite decide_False by set_solver. done.
    + simpl. set_solver.
  - mstep. simpl.
    set (i := (if rollover m now then length (timers_ m)
               else lower_bound (heap_ m) (Some (a, Timer_at now)) (timers_ m))).
    set (n := (i + skip_equal (heap_ m) now (drop i (timers_ m)))%nat).
    assert (take n (timers_ m) = to_run m now) as Hn.
    { unfold n, i, to_run. destruct (rollover m now); [|by apply expired_count].
      rewrite drop_all. apply take_ge. lia. }
    pose proof (good_NoDup _ _ Hg) as Hnd. rewrite <- (take_drop n (timers_ m)) in Hg, Hnd.
    apply good_app in Hg as (Hb & _ & Hg2). apply NoDup_app in Hnd as (Hnd1 & Hnd2 & _).
    destruct (fire_expired_ok now (take n (timers_ m))
      (mk_TimerManager (heap_ m) (drop n (timers_ m)) (tickled_ m) now) cbs)
      as (m' & Hm' & Hg' & Hf & Hti & Htk & Hpr); [done|done| |].
    { intros q Hq. split; [by apply Hnd2|].
      assert (q ∈ timers_ m) as (u & Hu & _)%Ha; [|by exists u].
      rewrite <- (take_drop n (timers_ m)). set_solver. }
    exists m'. unfold mput, set_timers_. rewrite bind_unfold. simpl in *. rewrite Hm'. rewrite Hn in *.
    assert (left_armed m m' now) as Hleft.
    { intros q. rewrite Hti. rewrite <- (take_drop n (timers_ m)) at 2. rewrite Hn, elem_of_app.
      specialize (Hnd2 q). tauto. }
    split_and!; [done| |done|done|done|by rewrite decide_False by (rewrite Hl; done)].
    split; [done|by apply (left_is_armed m m' now)].
Qed.

(** ** Sequences of calls *)

Inductive call :=
  | CAddTimer (now p ms : Z) (cb : callback) (recurring : bool)
  | CAddConditionTimer (now p ms : Z) (f weak_cond : nat) (recurring : bool)
  | CCancel (p : Z)
  | CRefresh (now p : Z)
  | CReset (now p ms : Z) (from_now : bool)
  | CGetNextTimer (now : Z)
  | CListExpiredCb (now a : Z)
  | CHasTimer.

(** One call; the result is whether [OnTimerInsertedAtFront] is called. *)
Definition step (c : call) : M TimerManager bool :=
  match c with
  | CAddTimer now p ms cb recurring => AddTimer now p ms cb recurring
  | CAddConditionTimer now p ms f w recurring => AddConditionTimer now p ms f w recurring
  | CCancel p => Cancel p;; mret false
  | CRefresh now p => Refresh now p;; mret false
  | CReset now p ms from_now => r ← reset now p ms from_now; mret r.2
  | CGetNextTimer now => GetNextTimer now;; mret false
  | CListExpiredCb now a => ListExpiredCb now a [];; mret false
  | CHasTimer => HasTimer;; mret false
  end.

Fixpoint exec (cs : list call) : M TimerManager bool :=
  match cs with
  | [] => mret false
  | c :: cs => b ← step c; b' ← exec cs; mret (b || b')
  end.

(** A new timer gets a new address; a call on a timer needs a pointer to it. *)
Definition addr_ok (h : gmap Z Timer) (c : call) : Prop :=
  match c with
  | CAddTimer _ p _ _ _ | CAddConditionTimer _ p _ _ _ _ | CListExpiredCb _ p => h !! p = None
  | CCancel p | CRefresh _ p | CReset _ p _ _ => is_Some (h !! p)
  | CGetNextTimer _ | CHasTimer => True
  end.

Fixpoint legal (m : TimerManager) (cs : list call) : Prop :=
  match cs with
  | [] => True
  | c :: cs => addr_ok (heap_ m) c ∧ legal (step c m).2 cs
  end.

Lemma wf_tickled m b : wf m → wf (set_tickled_ b m).
Proof. intros [Hg Ha]. by constructor. Qed.

Lemma reset_same m now p ms from_now t : heap_ m !! p = Some t →
  ms = ms_ t → from_now = false → reset now p ms from_now m = (Ok (true, false), m).
Proof.
  intros Ht -> ->. unfold reset. rewrite (bind_ok _ _ _ _ _ (timer_deref_ok _ _ _ Ht)).
  by rewrite decide_True.
Qed.

Lemma reset_disarmed m now p ms from_now t : heap_ m !! p = Some t → cb_ t = None →
  ms ≠ ms_ t ∨ from_now = true → reset now p ms from_now m = (Ok (false, false), m).
Proof.
  intros Ht Hc Hne. unfold reset. rewrite (bind_ok _ _ _ _ _ (timer_deref_ok _ _ _ Ht)).
  rewrite decide_False by (destruct from_now; naive_solver). by rewrite Hc.
Qed.

Lemma reset_cases ms from_now t :
  (ms = ms_ t ∧ from_now = false) ∨ (ms ≠ ms_ t ∨ from_now = true).
Proof. destruct (decide (ms = ms_ t)), from_now; auto. Qed.

Lemma GetNextTimer_ok m now : wf m →
  ∃ d, GetNextTimer now m = (Ok d, set_tickled_ false m) ∧
    match timers_ m with
    | [] => d = 2 ^ 64 - 1
    | p :: _ => ∃ t, heap_ m !! p = Some t ∧
        d = if decide (next_ t ≤ now) then 0 else u64(next_ t - now)
    end.
Proof.
  intros [Hg _]. unfold GetNextTimer. mstep. simpl. destruct (timers_ m) as [|p l] eqn:Hl.
  - by eexists.
  - destruct (good_alive _ _ p Hg ltac:(left)) as [t Ht].
    rewrite (bind_ok _ _ _ _ _ (timer_deref_ok (set_tickled_ false m) _ _ Ht)). eauto.
Qed.

Ltac step_done := eexists _, _; split; [reflexivity|assumption].

Lemma timer_step_ok m c : wf m → addr_ok (heap_ m) c → ∃ b m', step c m = (Ok b, m') ∧ wf m'.
Proof.
  intros Hwf Hok. destruct c as [now p ms cb rec|now p ms f w rec|p|now p|now p ms fn|now|now a|]; simpl in *.
  - destruct (AddTimer_placed m now p ms cb rec Hwf Hok) as (m' & -> & ? & _). eauto.
  - destruct (AddTimer_placed m now p ms (OnTimer w f) rec Hwf Hok) as (m' & Hr & ? & _). eauto.
  - destruct Hok as [t Ht]. destruct (cb_ t) as [c|] eqn:Hc.
    + destruct (Cancel_armed m p t Hwf Ht ltac:(by eexists)) as (l1 & l2 & _ & Hr & ?).
      rewrite (bind_ok _ _ _ _ _ Hr). step_done.
    + rewrite (bind_ok _ _ _ _ _ (Cancel_disarmed _ _ _ Ht Hc)). step_done.
  - destruct Hok as [t Ht]. destruct (cb_ t) as [c|] eqn:Hc.
    + destruct (Refresh_armed m now p t Hwf Ht ltac:(by eexists)) as (m' & Hr & ? & _).
      rewrite (bind_ok _ _ _ _ _ Hr). step_done.
    + rewrite (bind_ok _ _ _ _ _ (Refresh_disarmed _ now _ _ Ht Hc)). step_done.
  - destruct Hok as [t Ht]. destruct (reset_cases ms fn t) as [[Hm Hf]|Hne].
    { rewrite (bind_ok _ _ _ _ _ (reset_same m now _ _ _ _ Ht Hm Hf)). step_done. }
    destruct (cb_ t) as [c|] eqn:Hc.
    + destruct (reset_armed m now p ms fn t Hwf Ht ltac:(by eexists) Hne) as (m' & Hr & ? & _).
      rewrite (bind_ok _ _ _ _ _ Hr). step_done.
    + rewrite (bind_ok _ _ _ _ _ (reset_disarmed m now _ _ _ _ Ht Hc Hne)). step_done.
  - destruct (GetNextTimer_ok m now Hwf) as (d & Hr & _). rewrite (bind_ok _ _ _ _ _ Hr).
    eexists _, _. split; [done|]. by apply wf_tickled.
  - destruct (ListExpiredCb_ok m now a [] Hwf) as (m' & Hr & ? & _).
    rewrite (bind_ok _ _ _ _ _ Hr). step_done.
  - step_done.
Qed.

(** ** Theorems *)

(** C36. Whatever calls are made on the manager and on timers it gave out, no call
    fails: in particular [Cancel] never erases [end()], although it does not look at
    what [find] returned, and the set stays sorted with exactly the timers that
    still have a callback. *)
Theorem timer_calls_safe m cs : wf m → legal m cs → ∃ hook m', exec cs m = (Ok hook, m') ∧ wf m'.
Proof.
  revert m. induction cs as [|c cs IH]; intros m Hwf; simpl.
  - intros _. by exists false, m.
  - intros [Hok Hl]. destruct (timer_step_ok m c Hwf Hok) as (b & m1 & Hs & Hwf1). rewrite Hs in Hl.
    destruct (IH m1 Hwf1 Hl) as (b' & m' & He & Hwf').
    exists (b || b'), m'. by rewrite (bind_ok _ _ _ _ _ Hs), (bind_ok _ _ _ _ _ He).
Qed.

(** C35. When the clock does not seem to have gone back by more than an hour ([rollover]),
    [ListExpiredCb] returns the callbacks of the timers whose deadline has passed, in the
    order of their deadlines, and none of them is empty; a recurring timer is due again one
    period after now, the others are spent, and no other timer changes. *)
Theorem ListExpiredCb_exact m now a : wf m → rollover m now = false →
  ∃ m', ListExpiredCb now a [] m =
      (Ok ((λ p, heap_ m !! p ≫= cb_) <$> filter (due (heap_ m) now) (timers_ m)), m') ∧
    Forall is_Some ((λ p, heap_ m !! p ≫= cb_) <$> filter (due (heap_ m) now) (timers_ m)) ∧
    StronglySorted (before (heap_ m)) (filter (due (heap_ m) now) (timers_ m)) ∧
    (∀ p t, heap_ m !! p = Some t →
       heap_ m' !! p = Some (if decide (is_Some (cb_ t) ∧ next_ t ≤ now) then fired now t else t)) ∧
    (∀ p, p ∈ timers_ m' ↔ p ∈ timers_ m ∧
       ∃ t, heap_ m !! p = Some t ∧ (now < next_ t ∨ recurring_ t = true)).
Proof.
  intros Hwf Hr. pose proof Hwf as [Hg Ha].
  destruct (ListExpiredCb_ok m now a [] Hwf) as (m' & He & Hwf' & Hf & Hl & _).
  unfold left_armed, to_run in *. rewrite Hr in *. exists m'. split_and!; [done| | | |].
  - apply Forall_fmap, Forall_forall. intros p [_ (t & Ht & c & Hc)%Ha]%list_elem_of_filter.
    simpl. rewrite Ht. by exists c.
  - destruct (good_due_split (heap_ m) now _ Hg) as (l1 & l2 & Hl12 & _ & _ & ->).
    rewrite Hl12 in Hg. apply good_app in Hg as (_ & [? _] & _). done.
  - intros p t Ht. rewrite (Hf p), Ht.
    assert (p ∈ filter (due (heap_ m) now) (timers_ m) ↔ is_Some (cb_ t) ∧ next_ t ≤ now) as Hiff.
    { rewrite list_elem_of_filter, Ha. unfold due, armed. rewrite Ht. split.
      - intros [(u & [= <-] & ?) (v & [= <-] & ?)]. done.
      - intros [??]. split; by exists t. }
    do 2 case_decide; tauto.
  - intros p. rewrite Hl, list_elem_of_filter. split; intros [Hp Hd]; (split; [done|]).
    + destruct Hd as [Hd|(t & ? & ?)]; [|eauto].
      destruct (good_alive _ _ _ Hg Hp) as [t Ht]. exists t. split; [done|]. left.
      destruct (decide (now < next_ t)); [done|]. destruct Hd. split; [|done]. exists t. split; [done|lia].
    + destruct Hd as (t & Ht & [Hn|Hrec]); [left|right; eauto].
      intros [(u & Hu & ?) _]. simplify_eq. lia.
Qed.

(** Waiting for the interval [GetNextTimer] returns is waiting exactly until the
    next timer is due: a later [ListExpiredCb] runs something if and only if that
    long has passed, and the interval is the maximum when there is no timer. *)
Theorem GetNextTimer_wait m now now' a : wf m →
  0 ≤ now ≤ now' → previous_use_time_ m ≤ now' → heap_ m !! a = None →
  (∀ p t, heap_ m !! p = Some t → next_ t < 2 ^ 64) →
  ∃ d m1 cbs m2, GetNextTimer now m = (Ok d, m1) ∧ ListExpiredCb now' a [] m1 = (Ok cbs, m2) ∧
    (timers_ m = [] → d = 2 ^ 64 - 1 ∧ cbs = []) ∧
    (timers_ m ≠ [] → cbs ≠ [] ↔ now + d ≤ now').
Proof.
  intros Hwf Hnow Hprev Ha Hmax.
  destruct (GetNextTimer_ok m now Hwf) as (d & Hd & Hdl).
  destruct (ListExpiredCb_ok (set_tickled_ false m) now' a []) as (m2 & He & _); [by apply wf_tickled|].
  eexists d, _, _, m2. split_and!; [exact Hd|exact He| |].
  - intros Hl. rewrite Hl in Hdl. split; [done|]. by rewrite to_run_nil.
  - intros Hne. destruct (timers_ m) as [|p l] eqn:Hl; [done|]. destruct Hdl as (t & Ht & ->).
    specialize (Hmax p t Ht). destruct Hwf as [Hg _]. simpl.
    unfold to_run. replace (rollover _ now') with false; [simpl|].
    + pose proof (none_due _ now' _ _ _ _ Hg Hl Ht) as Hnone. rewrite Hl in Hnone |- *.
      assert (next_ t ≤ now ∨ u64(next_ t - now) = next_ t - now) as Hw.
      { destruct (decide (next_ t ≤ now)); [by left|right]. apply wrap_small. lia. }
      split.
      * intros Hc. destruct (decide (now' < next_ t)) as [Hlt|Hlt].
        { apply Hnone in Hlt. by rewrite Hlt in Hc. }
        case_decide; lia.
      * intros Hle Hc%fmap_nil_inv. apply Hnone in Hc. case_decide; lia.
    + unfold rollover. simpl. rewrite bool_decide_eq_false_2 by lia. done.
Qed.

(** [reset] gives the timer its new period and counts it from now or from where
    the old one was counted, and calls the hook when the timer is the new first one;
    it refuses a timer that was cancelled or has run, except that asking for the
    period it has, not from now, is granted without looking at the timer. *)
Theorem reset_deadline m now p ms (from_now : bool) t : wf m → heap_ m !! p = Some t →
  0 ≤ ms → 0 ≤ now → 0 ≤ ms_ t ≤ next_ t → next_ t < 2 ^ 64 →
  now + ms < 2 ^ 64 → next_ t - ms_ t + ms < 2 ^ 64 →
  let deadline := (if from_now then now else next_ t - ms_ t) + ms in
  let same := bool_decide (ms = ms_ t) && negb from_now in
  ∃ m', reset now p ms from_now m =
      (Ok (same || bool_decide (is_Some (cb_ t)),
           negb same && bool_decide (is_Some (cb_ t)) && at_front m m' p), m') ∧ wf m' ∧
    heap_ m' = if bool_decide (is_Some (cb_ t)) && negb same
               then <[p := mk_Timer (recurring_ t) ms deadline (cb_ t)]> (heap_ m) else heap_ m.
Proof.
  intros Hwf Ht Hms Hnow Hmt Hn Ho1 Ho2 deadline same.
  destruct (reset_cases ms from_now t) as [[Hm Hf]|Hne].
  { exists m. rewrite (reset_same m now _ _ _ _ Ht Hm Hf). unfold same.
    rewrite Hm, Hf, bool_decide_eq_true_2 by done. simpl. by rewrite andb_false_r. }
  assert (same = false) as ->.
  { unfold same. destruct from_now; [apply andb_false_r|]. destruct Hne; [|done].
    by rewrite bool_decide_eq_false_2. }
  case_bool_decide as Hc.
  - destruct (reset_armed m now p ms from_now t Hwf Ht Hc Hne) as (m' & Hr & Hwf' & Hh & _).
    exists m'. rewrite Hr, Hh. split_and!; [done..|]. f_equal. unfold reset_timer, deadline.
    unfold set_next_, set_ms_. simpl. f_equal. rewrite (wrap_small 64 (next_ t - ms_ t)) by lia.
    destruct from_now; apply wrap_small; lia.
  - assert (cb_ t = None) as Hc' by (by destruct (cb_ t); [destruct Hc|]).
    exists m. by rewrite (reset_disarmed m now _ _ _ _ Ht Hc' Hne).
Qed.

(** *** The notification protocol *)

(** Periods are below 2^63 and every timer was set at some time before [t]. *)
Definition on_time (t : Z) (m : TimerManager) : Prop :=
  0 ≤ t ∧ previous_use_time_ m ≤ t ∧
  ∀ p s, heap_ m !! p = Some s → 0 ≤ ms_ s < 2 ^ 63 ∧ 0 ≤ next_ s - ms_ s ≤ t.

Definition call_now (c : call) : option Z :=
  match c with
  | CAddTimer now _ _ _ _ | CAddConditionTimer now _ _ _ _ _ | CRefresh now _ | CReset now _ _ _
  | CGetNextTimer now | CListExpiredCb now _ => Some now
  | CCancel _ | CHasTimer => None
  end.

Definition call_ms (c : call) : Z :=
  match c with
  | CAddTimer _ _ ms _ _ | CAddConditionTimer _ _ ms _ _ _ | CReset _ _ ms _ => ms
  | _ => 0
  end.

Definition is_wait (c : call) : bool := match c with CGetNextTimer _ => true | _ => false end.

(** The clock does not go back, and clock and periods are far from overflow. *)
Fixpoint timed (t : Z) (cs : list call) : Prop :=
  match cs with
  | [] => True
  | c :: cs =>
      let t' := default t (call_now c) in
      t ≤ t' < 2 ^ 63 ∧ 0 ≤ call_ms c < 2 ^ 63 ∧ timed t' cs
  end.

(** No timer is due before [w]; [None] when there is no timer at all. *)
Definition late (w : option Z) (m : TimerManager) : Prop :=
  ∀ p s, heap_ m !! p = Some s → is_Some (cb_ s) →
    match w with Some w => w ≤ next_ s | None => False end.

(** What a step that does not call the hook keeps. *)
Definition quiet (t : Z) (w : option Z) (m : TimerManager) : Prop :=
  on_time t m ∧ late w m ∧ tickled_ m = false.

Lemma on_time_mono t t' m : t ≤ t' → on_time t m → on_time t' m.
Proof. intros Ht (H0 & Hp & H). split_and!; [lia..|]. intros p s Hs. specialize (H p s Hs). lia. Qed.

Lemma placed_quiet t w m m' p s : quiet t w m → placed m p s false m' →
  0 ≤ ms_ s < 2 ^ 63 → 0 ≤ next_ s - ms_ s ≤ t →
  match w with Some w => w ≤ next_ s | None => False end → quiet t w m'.
Proof.
  intros [(H0 & Hp & Ho) [Hl Htk]] (_ & Hh & Hpr & Htk') Hms Hst Hw. split_and!.
  - split_and!; [lia..|]. intros q u. rewrite Hh, lookup_insert_Some.
    intros [[_ <-]|[_ Hq]]; [done|eauto].
  - intros q u. rewrite Hh, lookup_insert_Some. intros [[_ <-]|[_ Hq]]; [done|by eapply Hl].
  - by rewrite Htk', Htk.
Qed.

(** A timer that was put in without a notification is behind another one. *)
Lemma not_front_late m m' p s w : wf m → late w m → tickled_ m = false → is_Some (cb_ s) →
  placed m p s (at_front m m' p) m' → at_front m m' p = false →
  match w with Some w => w ≤ next_ s | None => False end.
Proof.
  intros Hwf Hl Htk Hc (Hwf' & Hh & _) Hf. unfold at_front in Hf. rewrite Htk, andb_true_r in Hf.
  apply bool_decide_eq_false in Hf.
  assert (p ∈ timers_ m') as Hp.
  { apply Hwf'. exists s. rewrite Hh. by rewrite lookup_insert_eq. }
  pose proof (wf_good _ Hwf') as Hg. destruct (timers_ m') as [|q l] eqn:Hl'; [set_solver|].
  apply elem_of_cons in Hp as [->|Hp]; [done|]. apply good_cons in Hg as (Hb & _ & _).
  specialize (Hb p Hp).
  assert (armed (heap_ m') q) as (u & Hu & Hcu) by (apply Hwf'; rewrite Hl'; left).
  assert (q ≠ p) by (intros ->; done).
  rewrite Hh in Hu, Hb. rewrite lookup_insert_ne in Hu by done.
  unfold before, ptr in Hb. rewrite lookup_insert_eq, lookup_insert_ne, Hu in Hb by done.
  apply Comparator_iff in Hb. specialize (Hl q u Hu Hcu). destruct w; [lia|done].
Qed.

Lemma quiet_mono t t' w m : t ≤ t' → quiet t w m → quiet t' w m.
Proof. intros Ht [Ho Hl]. split; [by eapply on_time_mono|done]. Qed.

Lemma AddTimer_quiet t now w m m' p ms cb rec : wf m → heap_ m !! p = None → quiet t w m →
  t ≤ now < 2 ^ 63 → 0 ≤ ms < 2 ^ 63 → AddTimer now p ms cb rec m = (Ok false, m') → quiet now w m'.
Proof.
  intros Hwf Hp Hq Hnow Hms Hr.
  destruct (AddTimer_placed m now p ms cb rec Hwf Hp) as (m1 & Hr' & Hpl).
  rewrite Hr' in Hr. injection Hr as Hf ->.
  pose proof Hq as [[H0 _] [Hl Htk]]. rewrite Hf in Hpl.
  eapply placed_quiet; [eapply quiet_mono, Hq; lia|exact Hpl| | |]; simpl.
  - done.
  - rewrite wrap_small by lia. lia.
  - eapply (not_front_late m m' p (Timer_new now ms cb rec)); [done..|by eexists|by rewrite Hf|done].
Qed.

Lemma Cancel_quiet t w m m' p s : wf m → heap_ m !! p = Some s → quiet t w m →
  Cancel p m = (Ok true, m') ∨ Cancel p m = (Ok false, m') → quiet t w m'.
Proof.
  intros Hwf Hs Hq Hr. destruct (cb_ s) as [c|] eqn:Hc; last first.
  { rewrite (Cancel_disarmed _ _ _ Hs Hc) in Hr. by destruct Hr; simplify_eq. }
  destruct (Cancel_armed m p s Hwf Hs ltac:(by eexists)) as (l1 & l2 & _ & Hr' & _).
  rewrite Hr' in Hr. assert (set_timers_ (l1 ++ l2) (set_heap_ (<[p:=clear_cb_ s]> (heap_ m)) m) = m')
    as <- by (destruct Hr; by simplify_eq).
  destruct Hq as [(H0 & Hp & Ho) [Hl Htk]]. split_and!; [split_and!; [done|exact Hp|]|..]; simpl.
  - intros q u. simpl. rewrite lookup_insert_Some. intros [[_ <-]|[_ Hq]]; [|eauto]. apply (Ho _ _ Hs).
  - intros q u. simpl. rewrite lookup_insert_Some. intros [[_ <-]|[_ Hq]] Hcu; [by destruct Hcu|].
    by eapply Hl.
  - done.
Qed.

Lemma Refresh_quiet t now w m m' p s b : wf m → heap_ m !! p = Some s → quiet t w m →
  t ≤ now < 2 ^ 63 → Refresh now p m = (Ok b, m') → quiet now w m'.
Proof.
  intros Hwf Hs Hq Hnow Hr. destruct (cb_ s) as [c|] eqn:Hc; last first.
  { rewrite (Refresh_disarmed _ _ _ _ Hs Hc) in Hr. simplify_eq. eapply quiet_mono; [|done]. lia. }
  destruct (Refresh_armed m now p s Hwf Hs ltac:(by eexists)) as (m1 & Hr' & Hpl).
  rewrite Hr' in Hr. simplify_eq. pose proof Hq as [(H0 & _ & Ho) [Hl _]].
  specialize (Ho _ _ Hs). specialize (Hl _ _ Hs ltac:(by eexists)).
  eapply placed_quiet; [eapply quiet_mono, Hq; lia|done| | |]; simpl; [lia|..].
  - rewrite wrap_small by lia. lia.
  - rewrite wrap_small by lia. destruct w; [lia|done].
Qed.

Lemma reset_quiet t now w m m' p ms fn s b : wf m → heap_ m !! p = Some s → quiet t w m →
  t ≤ now < 2 ^ 63 → 0 ≤ ms < 2 ^ 63 → reset now p ms fn m = (Ok (b, false), m') → quiet now w m'.
Proof.
  intros Hwf Hs Hq Hnow Hms Hr. destruct (reset_cases ms fn s) as [[Hm Hf]|Hne].
  { rewrite (reset_same m now _ _ _ _ Hs Hm Hf) in Hr. simplify_eq. eapply quiet_mono; [|done]. lia. }
  destruct (cb_ s) as [c|] eqn:Hc; last first.
  { rewrite (reset_disarmed m now _ _ _ _ Hs Hc Hne) in Hr. simplify_eq.
    eapply quiet_mono; [|done]. lia. }
  destruct (reset_armed m now p ms fn s Hwf Hs ltac:(by eexists) Hne) as (m1 & Hr' & Hpl).
  rewrite Hr' in Hr. injection Hr as Hb Hf ->. pose proof Hq as [(H0 & _ & Ho) [Hl Htk]].
  specialize (Ho _ _ Hs). rewrite Hf in Hpl.
  eapply placed_quiet; [eapply quiet_mono, Hq; lia|exact Hpl| | |]; simpl; [lia|..].
  - rewrite (wrap_small 64 (next_ s - ms_ s)) by lia. rewrite wrap_small by (destruct fn; lia).
    destruct fn; lia.
  - eapply (not_front_late m m' p (reset_timer now ms fn s)); [done..| |by rewrite Hf|done].
    simpl. rewrite Hc. by eexists.
Qed.

Lemma ListExpiredCb_quiet t now w m m' a cbs : wf m → quiet t w m → t ≤ now < 2 ^ 63 →
  ListExpiredCb now a [] m = (Ok cbs, m') → quiet now w m'.
Proof.
  intros Hwf [(H0 & Hp & Ho) [Hl Htk]] Hnow Hr.
  destruct (ListExpiredCb_ok m now a [] Hwf) as (m1 & Hr' & _ & Hf & _ & Htk' & Hp').
  rewrite Hr' in Hr. injection Hr as _ ->.
  assert (∀ q, q ∈ to_run m now → ∀ u, heap_ m !! q = Some u → next_ u ≤ now) as Hdue.
  { intros q Hq u Hu. unfold to_run, rollover in Hq. rewrite bool_decide_eq_false_2 in Hq by lia.
    simpl in Hq. apply list_elem_of_filter in Hq as [(v & Hv & ?) _]. by simplify_eq. }
  assert (∀ q u, heap_ m' !! q = Some u → ∃ v, heap_ m !! q = Some v ∧
    (u = v ∨ u = clear_cb_ v ∨ (next_ v ≤ now ∧ u = set_next_ (now + ms_ v) v))) as Hheap.
  { intros q u. rewrite (Hf q). destruct (decide (q ∈ to_run m now)) as [Hq|Hq]; [|eauto].
    rewrite fmap_Some. intros (v & Hv & ->). exists v. split; [done|]. specialize (Ho _ _ Hv).
    unfold fired. destruct (recurring_ v); [|by auto]. rewrite wrap_small by lia. eauto. }
  split_and!.
  - split_and!; [lia|case_decide; lia|]. intros q u Hu.
    destruct (Hheap q u Hu) as (v & Hv & Hcase). specialize (Ho _ _ Hv).
    destruct Hcase as [->|[->|[? ->]]]; simpl; lia.
  - intros q u Hu Hc. destruct (Hheap q u Hu) as (v & Hv & Hcase). specialize (Ho _ _ Hv).
    destruct Hcase as [->|[->|[? ->]]].
    + by eapply Hl.
    + by destruct Hc.
    + specialize (Hl _ _ Hv Hc). destruct w; simpl; [lia|done].
  - congruence.
Qed.

Lemma step_quiet t w m m' c : wf m → addr_ok (heap_ m) c → quiet t w m → is_wait c = false →
  t ≤ default t (call_now c) < 2 ^ 63 → 0 ≤ call_ms c < 2 ^ 63 →
  step c m = (Ok false, m') → quiet (default t (call_now c)) w m'.
Proof.
  intros Hwf Hok Hq Hw Hnow Hms Hr.
  destruct c as [now p ms cb rec|now p ms f w' rec|p|now p|now p ms fn|now|now a|]; simpl in *; try done.
  - by eapply AddTimer_quiet.
  - by eapply AddTimer_quiet.
  - destruct Hok as [s Hs]. apply bind_inv in Hr as (b & m1 & Hr & [= <-]).
    eapply Cancel_quiet; [done..|]. destruct b; auto.
  - destruct Hok as [s Hs]. apply bind_inv in Hr as (b & m1 & Hr & [= <-]). by eapply Refresh_quiet.
  - destruct Hok as [s Hs]. apply bind_inv in Hr as ([b b'] & m1 & Hr & [= -> <-]).
    by eapply reset_quiet.
  - apply bind_inv in Hr as (b & m1 & Hr & [= <-]). by eapply ListExpiredCb_quiet.
  - by injection Hr as <-.
Qed.

Lemma exec_quiet w cs : ∀ t m m', wf m → quiet t w m → legal m cs → timed t cs →
  forallb (negb ∘ is_wait) cs = true → exec cs m = (Ok false, m') → wf m' ∧ late w m'.
Proof.
  induction cs as [|c cs IH]; intros t m m' Hwf Hq Hl Ht Hw He; simpl in *.
  - injection He as <-. split; [done|apply Hq].
  - destruct Hl as [Hok Hl], Ht as (Hnow & Hms & Ht).
    apply andb_true_iff in Hw as [Hw%negb_true_iff Hws].
    destruct (timer_step_ok m c Hwf Hok) as (b & m1 & Hs & Hwf1). rewrite Hs in Hl.
    rewrite (bind_ok _ _ _ _ _ Hs) in He. apply bind_inv in He as (b' & m2 & He & [= Hb ->]).
    apply orb_false_iff in Hb as [-> ->]. eapply (IH (default t (call_now c)) m1 m'); try done.
    exact (step_quiet t w m m1 c Hwf Hok Hq Hw Hnow Hms Hs).
Qed.

(** C7. No wake-up is lost. A thread asks for the interval to the next timer and
    goes to sleep for that long; other threads then add, reset, refresh, cancel and
    run timers. If none of their calls notified it, no timer is due before it wakes
    up by itself, even though [Refresh] and the re-arming of recurring timers
    insert without a notification. *)
Theorem timer_no_lost_wakeup m now d m0 cs m' :
  wf m → on_time now m → GetNextTimer now m = (Ok d, m0) → 0 < d →
  legal m0 cs → timed now cs → forallb (negb ∘ is_wait) cs = true →
  exec cs m0 = (Ok false, m') →
  ∀ p, p ∈ timers_ m' → ∃ s, heap_ m' !! p = Some s ∧ now + d ≤ next_ s.
Proof.
  intros Hwf Hot Hd Hpos Hl Ht Hw He p Hp.
  destruct (GetNextTimer_ok m now Hwf) as (d' & Hd' & Hfirst). rewrite Hd in Hd'. simplify_eq.
  set (w := match timers_ m with [] => None | _ => Some (now + d') end).
  assert (quiet now w (set_tickled_ false m)) as Hq.
  { split_and!; [done| |done]. intros q s Hs Hc. simpl in Hs.
    assert (q ∈ timers_ m) as Hq by (apply Hwf; by exists s). subst w.
    destruct (timers_ m) as [|r l] eqn:Htl; [set_solver|]. destruct Hfirst as (u & Hu & ->).
    case_decide; [lia|]. destruct Hot as (H0 & _ & Ho). specialize (Ho _ _ Hu).
    rewrite wrap_small by lia. pose proof (wf_good _ Hwf) as Hg. rewrite Htl in Hg.
    apply good_cons in Hg as (Hb & _ & _). apply elem_of_cons in Hq as [->|Hq]; [simplify_eq; lia|].
    specialize (Hb q Hq). unfold before, ptr in Hb. rewrite Hu, Hs in Hb.
    apply Comparator_iff in Hb. lia. }
  destruct (exec_quiet w cs now _ m' (wf_tickled _ _ Hwf) Hq Hl Ht Hw He) as [Hwf' Hlate].
  apply Hwf' in Hp as (s & Hs & Hc). exists s. split; [done|]. specialize (Hlate p s Hs Hc).
  unfold w in Hlate. by destruct (timers_ m).
Qed.

(** ** Witnesses *)

(** One recurring timer of 10 ms set at time 100, and one for 30 ms. *)
Definition sample : TimerManager :=
  (exec [CAddTimer 100 1 10 (Fn 7) true; CAddConditionTimer 100 2 30 8 5 false]
     (TimerManager_new 100)).2.

Lemma timer_exec_wf m cs : wf m → legal m cs → wf (exec cs m).2.
Proof.
  intros Hwf Hl. revert m Hwf Hl. induction cs as [|c cs IH]; intros m Hwf Hl; [done|].
  destruct Hl as [Hok Hl]. destruct (timer_step_ok m c Hwf Hok) as (b & m1 & Hs & Hwf1).
  rewrite Hs in Hl. specialize (IH m1 Hwf1 Hl). simpl exec.
  rewrite (bind_ok _ _ _ _ _ Hs), bind_unfold. by destruct (exec cs m1) as [[]].
Qed.

Ltac legal_calls := repeat (split; [vm_compute; first [done | by eexists]|]); exact I.

Lemma timer_wf_sample : wf sample.
Proof. apply timer_exec_wf; [apply timer_wf_new|]. legal_calls. Qed.

(** The calls made while the waiter sleeps: a later timer, a cancel, a refresh. *)
Definition sample_calls : list call :=
  [CAddTimer 102 3 50 (Fn 9) false; CCancel 2; CRefresh 105 1; CReset 106 3 60 true; CHasTimer].

Lemma timer_calls_safe_witness :
  ∃ hook m', exec (CGetNextTimer 101 :: CListExpiredCb 110 99 :: sample_calls) sample = (Ok hook, m') ∧ wf m'.
Proof. apply (timer_calls_safe sample); [apply timer_wf_sample|]. legal_calls. Defined.

Lemma ListExpiredCb_exact_witness : ∃ m',
  ListExpiredCb 110 99 [] sample = (Ok [Some (Fn 7)], m') ∧ timers_ m' = [1; 2].
Proof.
  destruct (ListExpiredCb_exact sample 110 99 timer_wf_sample eq_refl) as (m' & H & _).
  exists m'. split; [exact H|]. replace m' with (ListExpiredCb 110 99 [] sample).2 by (by rewrite H).
  by vm_compute.
Defined.

Lemma GetNextTimer_wait_witness : ∃ d m1 cbs m2,
  GetNextTimer 101 sample = (Ok d, m1) ∧ ListExpiredCb 110 99 [] m1 = (Ok cbs, m2) ∧
  d = 9 ∧ cbs ≠ [].
Proof.
  destruct (GetNextTimer_wait sample 101 110 99 timer_wf_sample) as (d & m1 & cbs & m2 & H1 & H2 & _ & H3).
  - lia.
  - by vm_compute.
  - by vm_compute.
  - apply (bool_decide_unpack (map_Forall (λ _ t, next_ t < 2 ^ 64) (heap_ sample))). by vm_compute.
  - assert (d = 9) as ->.
    { assert ((GetNextTimer 101 sample).1 = Ok 9) as H by (by vm_compute). rewrite H1 in H. by injection H. }
    exists 9, m1, cbs, m2. split_and!; [done..|]. apply H3; [by vm_compute|lia].
Defined.

Lemma reset_deadline_witness : ∃ m', reset 120 1 25 false sample = (Ok (true, false), m') ∧
  next_ <$> heap_ m' !! 1 = Some 125.
Proof.
  destruct (reset_deadline sample 120 1 25 false (mk_Timer true 10 110 (Some (Fn 7))) timer_wf_sample)
    as (m' & H1 & _ & H2); [by vm_compute|simpl; lia..|].
  exists m'. rewrite H2. split; [|by vm_compute].
  rewrite H1. unfold at_front. by rewrite andb_false_r.
Defined.

Lemma timer_no_lost_wakeup_witness : ∃ d m0 m', GetNextTimer 101 sample = (Ok d, m0) ∧
  exec sample_calls m0 = (Ok false, m') ∧
  ∀ p, p ∈ timers_ m' → ∃ s, heap_ m' !! p = Some s ∧ 101 + d ≤ next_ s.
Proof.
  exists 9, (GetNextTimer 101 sample).2, (exec sample_calls (GetNextTimer 101 sample).2).2.
  split; [by vm_compute|]. split; [by vm_compute|].
  apply (timer_no_lost_wakeup sample 101 9 (GetNextTimer 101 sample).2 sample_calls).
  - exact timer_wf_sample.
  - split; [lia|]. split; [by vm_compute|].
    apply (bool_decide_unpack (map_Forall (λ _ s, 0 ≤ ms_ s < 2 ^ 63 ∧ 0 ≤ next_ s - ms_ s ≤ 101)
      (heap_ sample))). by vm_compute.
  - by vm_compute.
  - lia.
  - legal_calls.
  - repeat (split; [vm_compute; split; congruence|]). exact I.
  - by vm_compute.
  - by vm_compute.
Defined.

(** ** Behaviour at the edges *)

(** A timer that was cancelled accepts [reset] with its own period and
    [from_now = false]: the test for that comes before the test of [cb_]. *)
Example reset_cancelled_true :
  (Cancel 1;; reset 120 1 10 false) sample = (Ok (true, false), (Cancel 1 sample).2).
Proof. by vm_compute. Qed.

(** [previous_use_time_ - 60 * 60 * 1000] wraps in the first hour of uptime: any
    step back of the clock then counts as a rollover and runs every timer. *)
Example rollover_first_hour : rollover (TimerManager_new 5000) 4999 = true ∧
  rollover (TimerManager_new 7200000) 7199999 = false.
Proof. by vm_compute. Qed.

End Timer.
