(* ===== verification/Fiber.v ===== *)
(** * Fibers of one thread (fiber/fiber.h, fiber/fiber.cc)

    [Module Fiber]: the fibers a thread runs, its thread-local pointers and which
    stack the processor executes on. [ucontext_t] is the platform's: a context is
    modelled by what [getcontext], [makecontext] and [swapcontext] document, namely
    which stack runs on when it is restored.

    Theorems: calls made the way the scheduler makes them never fail an assertion
    and keep one flow of control ([fiber_calls_safe]); a fiber that was resumed from the
    flow it goes back to gives control back to it when it yields or
    returns ([resume_returns]). [nested_resume_lost] shows why a fiber must not resume
    another one of its own kind. [TotalFibers] is declared and never defined. *)

From S2P Require Import Prelude.

Module Fiber.

(** ** Data *)

Inductive State := READY | RUNNING | TERM.

#[export] Instance State_eq_dec : EqDecision State.
Proof. solve_decision. Defined.

(** A stack to execute on: the thread's own, or the one the fiber at an address
    allocated. *)
Inductive flow := Native | Own (p : Z).

#[export] Instance flow_eq_dec : EqDecision flow.
Proof. solve_decision. Defined.

(** [stack_] says whether a stack was allocated. [run_in_scheduler_] is
    indeterminate in a main fiber: its constructor leaves it out. *)
Record Fiber := mk_Fiber {
  id_ : Z;
  stack_size_ : Z;
  state_ : State;
  ctx_ : flow;
  stack_ : bool;
  cb_ : option nat;
  run_in_scheduler_ : option bool
}.

Definition set_state_ (s : State) (f : Fiber) : Fiber :=
  mk_Fiber (id_ f) (stack_size_ f) s (ctx_ f) (stack_ f) (cb_ f) (run_in_scheduler_ f).
Definition set_ctx_ (c : flow) (f : Fiber) : Fiber :=
  mk_Fiber (id_ f) (stack_size_ f) (state_ f) c (stack_ f) (cb_ f) (run_in_scheduler_ f).
Definition set_cb_ (c : option nat) (f : Fiber) : Fiber :=
  mk_Fiber (id_ f) (stack_size_ f) (state_ f) (ctx_ f) (stack_ f) c (run_in_scheduler_ f).

(** One thread: the fibers alive, the thread-local pointers, the two global
    counters, and the stack the thread is on. [t_scheduler_fiber] belongs to
    fiber/scheduler.cc. *)
Record Thread := mk_Thread {
  fibers : gmap Z Fiber;
  t_fiber : option Z;
  t_thread_fiber : option Z;
  t_scheduler_fiber : option Z;
  s_fiber_id : Z;
  s_fiber_count : Z;
  running : flow
}.

Definition set_fibers (h : gmap Z Fiber) (t : Thread) : Thread :=
  mk_Thread h (t_fiber t) (t_thread_fiber t) (t_scheduler_fiber t) (s_fiber_id t)
    (s_fiber_count t) (running t).
Definition set_t_fiber (f : option Z) (t : Thread) : Thread :=
  mk_Thread (fibers t) f (t_thread_fiber t) (t_scheduler_fiber t) (s_fiber_id t)
    (s_fiber_count t) (running t).
Definition set_t_thread_fiber (f : option Z) (t : Thread) : Thread :=
  mk_Thread (fibers t) (t_fiber t) f (t_scheduler_fiber t) (s_fiber_id t)
    (s_fiber_count t) (running t).
Definition set_t_scheduler_fiber (f : option Z) (t : Thread) : Thread :=
  mk_Thread (fibers t) (t_fiber t) (t_thread_fiber t) f (s_fiber_id t)
    (s_fiber_count t) (running t).
Definition set_counters (id count : Z) (t : Thread) : Thread :=
  mk_Thread (fibers t) (t_fiber t) (t_thread_fiber t) (t_scheduler_fiber t) id count (running t).
Definition set_running (c : flow) (t : Thread) : Thread :=
  mk_Thread (fibers t) (t_fiber t) (t_thread_fiber t) (t_scheduler_fiber t) (s_fiber_id t)
    (s_fiber_count t) c.

(** A thread that has run no fiber yet. *)
Definition Thread_new : Thread := mk_Thread ∅ None None None 0 0 Native.

(** ** Access through pointers *)

Definition deref (p : option Z) : M Thread (Z * Fiber) :=
  t ← mget;
  match p ≫= λ q, (q,.) <$> fibers t !! q with
  | Some qf => mret qf
  | None => mthrow UndefinedBehaviour
  end.

Definition update (p : Z) (g : Fiber → Fiber) : M Thread () :=
  mmodify (λ t, set_fibers (alter g p (fibers t)) t).

(** [swapcontext(&save->ctx_, &restore->ctx_)]. *)
Definition swapcontext (save restore : Z) : M Thread () :=
  t ← mget;
  update save (set_ctx_ (running t));;
  r ← deref (Some restore);
  mmodify (set_running (ctx_ r.2)).

(** ** Operations *)

Definition SetThis (p : option Z) : M Thread () := mmodify (set_t_fiber p).

Definition GetFiberId : M Thread Z :=
  t ← mget;
  match t_fiber t with
  | Some p => f ← deref (Some p); mret (id_ f.2)
  | None => mret 0%Z
  end.

(** [Fiber::Fiber()], at the new address [p]; [getcontext] captures the stack the
    thread is on. *)
Definition Fiber_main (p : Z) : M Thread () :=
  SetThis (Some p);;
  t ← mget;
  mput (set_counters u64(s_fiber_id t + 1) u64(s_fiber_count t + 1)
    (set_fibers (<[p := mk_Fiber (s_fiber_id t) 0 RUNNING (running t) false None None]> (fibers t)) t)).

(** [p] is the address a new main fiber would get. *)
Definition GetThis (p : Z) : M Thread Z :=
  t ← mget;
  match t_fiber t with
  | Some q => f ← deref (Some q); mret f.1
  | None =>
      Fiber_main p;;
      cur ← mgets t_fiber;
      massert (bool_decide (cur = Some p));;
      mmodify (set_t_thread_fiber (Some p));;
      mret p
  end.

(** [Fiber::Fiber(cb, stacksize, run_in_scheduler)]; [config] is the value of
    [fiber.stack_size]. [makecontext] makes a context that starts on the fiber's
    own stack. *)
Definition Fiber_new (config p : Z) (cb : option nat) (stacksize : Z) (run_in_scheduler : bool) :
    M Thread () :=
  t ← mget;
  let size := u32(if decide (stacksize = 0%Z) then config else stacksize) in
  mput (set_counters u64(s_fiber_id t + 1) u64(s_fiber_count t + 1)
    (set_fibers (<[p := mk_Fiber (s_fiber_id t) size READY (Own p) true cb (Some run_in_scheduler)]>
       (fibers t)) t)).

(** [Fiber::~Fiber()]. *)
Definition delete_Fiber (p : Z) : M Thread () :=
  f ← deref (Some p);
  mmodify (λ t, set_counters (s_fiber_id t) u64(s_fiber_count t - 1) t);;
  (if stack_ f.2 then massert (bool_decide (state_ f.2 = TERM))
   else
     massert (bool_decide (cb_ f.2 = None));;
     massert (bool_decide (state_ f.2 = RUNNING));;
     cur ← mgets t_fiber;
     if decide (cur = Some p) then SetThis None else mret tt);;
  mmodify (λ t, set_fibers (delete p (fibers t)) t).

Definition Reset (p : Z) (cb : option nat) : M Thread () :=
  f ← deref (Some p);
  massert (stack_ f.2);;
  massert (bool_decide (state_ f.2 = TERM));;
  update p (set_cb_ cb);;
  update p (set_ctx_ (Own p));;
  update p (set_state_ READY).

(** The fiber whose context a switch uses: the scheduler's or the thread's. *)
Definition partner (f : Fiber) : M Thread Z :=
  match run_in_scheduler_ f with
  | Some b =>
      q ← mgets (if b then t_scheduler_fiber else t_thread_fiber);
      s ← deref q;
      mret s.1
  | None => mthrow UndefinedBehaviour
  end.

Definition Resume (p : Z) : M Thread () :=
  f ← deref (Some p);
  massert (bool_decide (state_ f.2 ≠ TERM) && bool_decide (state_ f.2 ≠ RUNNING));;
  SetThis (Some p);;
  update p (set_state_ RUNNING);;
  q ← partner f.2;
  swapcontext q p.

Definition Yield (p : Z) : M Thread () :=
  f ← deref (Some p);
  massert (bool_decide (state_ f.2 = RUNNING) || bool_decide (state_ f.2 = TERM));;
  main ← mgets t_thread_fiber;
  SetThis main;;
  (if decide (state_ f.2 = TERM) then mret tt else update p (set_state_ READY));;
  q ← partner f.2;
  swapcontext p q.

(** [MainFunc] up to the call of [cb_], and from its return. [p] is the address a
    main fiber would get if the thread had none. An empty [cb_] throws
    [bad_function_call]. *)
Definition MainFunc_enter (p : Z) : M Thread nat :=
  cur ← GetThis p;
  f ← deref (Some cur);
  match cb_ f.2 with
  | Some cb => mret cb
  | None => mthrow BadFunctionCall
  end.

Definition MainFunc_leave (cur : Z) : M Thread () :=
  update cur (set_cb_ None);;
  update cur (set_state_ TERM);;
  Yield cur.

(** ** The invariant *)

(** The stack a fiber's context belongs to. *)
Definition home (p : Z) (f : Fiber) : flow := if stack_ f then Own p else Native.

(** The fibers that are on the way from the thread's own stack to the running one. *)
Definition active (t : Thread) (p : Z) : Prop :=
  match running t with
  | Native => False
  | Own q => p = q ∨ ∃ f, fibers t !! q = Some f ∧ run_in_scheduler_ f = Some true ∧
                          t_scheduler_fiber t = Some p
  end.

(** [m] is the thread's main fiber and [s] the one its tasks return to: [m] itself,
    or the root fiber of a scheduler that uses the calling thread. *)
Record wf (m s : Z) (t : Thread) : Prop := {
  wf_main : t_thread_fiber t = Some m ∧ ∃ f, fibers t !! m = Some f ∧ stack_ f = false ∧
    state_ f = RUNNING;
  wf_sched : t_scheduler_fiber t = Some s ∧ ∃ f, fibers t !! s = Some f ∧
    (s = m ∨ stack_ f = true ∧ run_in_scheduler_ f = Some false);
  wf_fiber p f : fibers t !! p = Some f →
    ctx_ f = home p f ∧ (stack_ f = false ↔ p = m) ∧ (stack_ f = true → is_Some (run_in_scheduler_ f));
  wf_state p f : fibers t !! p = Some f → stack_ f = true → state_ f = RUNNING ↔ active t p;
  wf_running q : running t = Own q → ∃ f, fibers t !! q = Some f ∧ stack_ f = true;
  wf_this : t_fiber t = Some m ∨ ∃ q, running t = Own q ∧ t_fiber t = Some q
}.

(** The address of the fiber [f] switches with. *)
Definition partner_of (m s : Z) (f : Fiber) : Z :=
  match run_in_scheduler_ f with Some true => s | _ => m end.

(** The flow that has to resume [f]: the one its context switch saves. *)
Definition resumer (m s : Z) (f : Fiber) : flow :=
  if decide (partner_of m s f = m) then Native else Own s.

Lemma fiber_deref_ok t p f : fibers t !! p = Some f → deref (Some p) t = (Ok (p, f), t).
Proof. intros H. unfold deref. mstep. simpl. by rewrite H. Qed.

Lemma partner_alive m s t f : wf m s t → ∃ g, fibers t !! partner_of m s f = Some g.
Proof.
  intros [(_ & g & Hg & _) (_ & g' & Hg' & _) _ _ _ _]. unfold partner_of. destruct (run_in_scheduler_ f) as [[]|]; eauto.
Qed.

Lemma partner_home m s t f g : wf m s t → fibers t !! partner_of m s f = Some g →
  ctx_ g = resumer m s f ∧ stack_ g = bool_decide (partner_of m s f ≠ m).
Proof.
  intros Hwf Hg. destruct (wf_fiber _ _ _ Hwf _ _ Hg) as (Hc & Hm & _).
  rewrite Hc. unfold resumer, home. destruct (stack_ g) eqn:Hs.
  - assert (partner_of m s f ≠ m) as Hne by (intros H; by apply Hm in H).
    rewrite decide_False, bool_decide_eq_true_2 by done. split; [|done].
    unfold partner_of in *. by destruct (run_in_scheduler_ f) as [[]|].
  - assert (partner_of m s f = m) as He by (by apply Hm).
    by rewrite decide_True, bool_decide_eq_false_2 by (try done; intros H; by apply H).
Qed.

Lemma partner_raw t f b q : run_in_scheduler_ f = Some b →
  (if b then t_scheduler_fiber t else t_thread_fiber t) = Some q → is_Some (fibers t !! q) →
  partner f t = (Ok q, t).
Proof.
  intros Hb Hq [g Hg]. unfold partner. rewrite Hb. mstep.
  replace ((if b then t_scheduler_fiber else t_thread_fiber) t) with (Some q) by (by destruct b).
  by rewrite (bind_ok _ _ _ _ _ (fiber_deref_ok _ _ _ Hg)).
Qed.

Lemma partner_field m s t f : wf m s t → is_Some (run_in_scheduler_ f) →
  ∃ b, run_in_scheduler_ f = Some b ∧
    (if b then t_scheduler_fiber t else t_thread_fiber t) = Some (partner_of m s f).
Proof.
  intros Hwf [b Hb]. exists b. split; [done|]. unfold partner_of. rewrite Hb.
  destruct b; [apply (wf_sched _ _ _ Hwf)|apply (wf_main _ _ _ Hwf)].
Qed.

(** Saving the stack a fiber already has changes nothing. *)
Lemma alter_ctx_id (h : gmap Z Fiber) q g : h !! q = Some g → alter (set_ctx_ (ctx_ g)) q h = h.
Proof.
  intros Hg. apply map_eq. intros i. destruct (decide (i = q)) as [->|Hne].
  - rewrite lookup_alter_eq, Hg. by destruct g.
  - by rewrite lookup_alter_ne.
Qed.

Lemma alter_insert_eq (h : gmap Z Fiber) p f g : h !! p = Some f → alter g p h = <[p := g f]> h.
Proof.
  intros Hp. apply map_eq. intros i. destruct (decide (i = p)) as [->|Hne].
  - by rewrite lookup_alter_eq, Hp, lookup_insert_eq.
  - by rewrite lookup_alter_ne, lookup_insert_ne.
Qed.

(** A switch from the stack a fiber already has. *)
Lemma swapcontext_ok t save restore g r : fibers t !! save = Some g → running t = ctx_ g →
  fibers t !! restore = Some r → swapcontext save restore t = (Ok tt, set_running (ctx_ r) t).
Proof.
  intros Hg Hc Hr. unfold swapcontext, update. mstep. rewrite Hc, (alter_ctx_id _ _ _ Hg).
  replace (set_fibers (fibers t) t) with t by (by destruct t).
  by rewrite (bind_ok _ _ _ _ _ (fiber_deref_ok _ _ _ Hr)).
Qed.

(** ** One switch *)

Lemma Resume_ok m s t p f : wf m s t → fibers t !! p = Some f → stack_ f = true →
  state_ f = READY → running t = resumer m s f →
  p ≠ partner_of m s f ∧
  Resume p t = (Ok tt, mk_Thread (<[p := set_state_ RUNNING f]> (fibers t)) (Some p)
    (t_thread_fiber t) (t_scheduler_fiber t) (s_fiber_id t) (s_fiber_count t) (Own p)).
Proof.
  intros Hwf Hp Hst Hr Hrun. destruct (partner_alive m s t f Hwf) as [g Hg].
  destruct (partner_home m s t f g Hwf Hg) as [Hcg Hsg].
  destruct (wf_fiber _ _ _ Hwf _ _ Hp) as (Hc & Hm & Hris).
  assert (p ≠ partner_of m s f) as Hne.
  { intros Heq. assert (p ≠ m) as Hpm by (intros ->; destruct Hm as [_ Hm]; by rewrite Hm in Hst).
    unfold resumer in Hrun. rewrite <- Heq, decide_False in Hrun by done.
    assert (p = s) as -> by (unfold partner_of in Heq; by destruct (run_in_scheduler_ f) as [[]|]).
    assert (state_ f = RUNNING); [|congruence].
    apply (wf_state _ _ _ Hwf s); [done..|]. unfold active. rewrite Hrun. by left. }
  split; [done|]. unfold Resume. rewrite (bind_ok _ _ _ _ _ (fiber_deref_ok _ _ _ Hp)).
  simpl. rewrite Hr. simpl. unfold massert. rewrite bind_unfold. simpl.
  unfold SetThis, update. mstep. change (fibers (set_t_fiber (Some p) t)) with (fibers t).
  destruct (partner_field m s t f Hwf (Hris Hst)) as (b & Hb & Hfield).
  rewrite (bind_ok _ _ _ _ _ (partner_raw
    (set_fibers (alter (set_state_ RUNNING) p (fibers t)) (set_t_fiber (Some p) t)) f b
    (partner_of m s f) Hb Hfield ltac:(simpl; rewrite lookup_alter_ne by done; by exists g))).
  rewrite (swapcontext_ok _ _ _ g (set_state_ RUNNING f)).
  - unfold set_fibers, set_t_fiber, set_running. simpl. rewrite (alter_insert_eq _ _ _ _ Hp).
    unfold home in Hc. by rewrite Hc, Hst.
  - simpl. by rewrite lookup_alter_ne.
  - simpl. by rewrite Hcg.
  - simpl. by rewrite lookup_alter_eq, Hp.
Qed.

(** What [Yield] leaves in the fiber. *)
Definition yielded (f : Fiber) : Fiber := if decide (state_ f = TERM) then f else set_state_ READY f.

Lemma Yield_raw t p f q g b : fibers t !! p = Some f → state_ f ≠ READY → ctx_ f = Own p →
  running t = Own p → run_in_scheduler_ f = Some b →
  (if b then t_scheduler_fiber t else t_thread_fiber t) = Some q →
  fibers t !! q = Some g → q ≠ p →
  Yield p t = (Ok tt, mk_Thread (<[p := yielded f]> (fibers t)) (t_thread_fiber t)
    (t_thread_fiber t) (t_scheduler_fiber t) (s_fiber_id t) (s_fiber_count t) (ctx_ g)).
Proof.
  intros Hp Hst Hc Hrun Hb Hq Hg Hne. unfold Yield.
  rewrite (bind_ok _ _ _ _ _ (fiber_deref_ok _ _ _ Hp)). simpl.
  assert (bool_decide (state_ f = RUNNING) || bool_decide (state_ f = TERM) = true) as ->
    by (by destruct (state_ f)).
  unfold massert. rewrite bind_unfold. simpl. unfold SetThis. mstep.
  set (t1 := mk_Thread (<[p := yielded f]> (fibers t)) (t_thread_fiber t) (t_thread_fiber t)
    (t_scheduler_fiber t) (s_fiber_id t) (s_fiber_count t) (Own p)).
  assert ((if decide (state_ f = TERM) then mret () else update p (set_state_ READY))
    (set_t_fiber (t_thread_fiber t) t) = (Ok tt, t1)) as Hup.
  { subst t1. unfold yielded. rewrite <- Hrun. case_decide.
    - rewrite insert_id by done. done.
    - unfold update, mmodify, set_fibers. simpl. by rewrite (alter_insert_eq _ _ _ _ Hp). }
  rewrite (bind_ok _ _ _ _ _ Hup).
  rewrite (bind_ok _ _ _ _ _ (partner_raw t1 f b q Hb Hq
    ltac:(simpl; rewrite lookup_insert_ne by done; by exists g))).
  apply (swapcontext_ok t1 p q (yielded f) g); simpl.
  - apply lookup_insert_eq.
  - rewrite <- Hc. unfold yielded. by case_decide.
  - by rewrite lookup_insert_ne.
Qed.

(** ** The invariant is kept *)

(** On a stack fiber, being active is being the running one or the scheduler's. *)
Lemma active_Own m s t q f p : wf m s t → running t = Own q → fibers t !! q = Some f →
  active t p ↔ p = q ∨ (run_in_scheduler_ f = Some true ∧ p = s).
Proof.
  intros Hwf Hrun Hq. unfold active. rewrite Hrun, Hq. rewrite (proj1 (wf_sched _ _ _ Hwf)).
  split; (intros [->|H]; [by left|right]).
  - destruct H as (g & [= ->] & ? & [= ->]). done.
  - destruct H as [? ->]. eauto.
Qed.

(** While [f] may be resumed, the stack fibers that run are the scheduler's or none. *)
Lemma active_resumer m s t p f : wf m s t → running t = resumer m s f →
  p ≠ m → active t p ↔ partner_of m s f ≠ m ∧ p = s.
Proof.
  intros Hwf Hrun Hpm. unfold resumer in Hrun. case_decide as Hd.
  - unfold active. rewrite Hrun. naive_solver.
  - destruct (wf_sched _ _ _ Hwf) as [_ (g & Hg & Hsm)].
    rewrite (active_Own m s t s g p Hwf Hrun Hg).
    assert (s ≠ m) as Hsm'.
    { intros ->. destruct Hd. unfold partner_of. by destruct (run_in_scheduler_ f) as [[]|]. }
    destruct Hsm as [|[_ Hf]]; [done|]. rewrite Hf. naive_solver.
Qed.

Lemma partner_sched m s f : is_Some (run_in_scheduler_ f) →
  partner_of m s f ≠ m ↔ run_in_scheduler_ f = Some true ∧ s ≠ m.
Proof. intros [[] Hb]; unfold partner_of; rewrite Hb; naive_solver. Qed.

Section switch.
Context (m s : Z) (t : Thread) (p : Z) (f : Fiber).
Context (Hwf : wf m s t) (Hp : fibers t !! p = Some f) (Hst : stack_ f = true).

Lemma stack_not_main : p ≠ m.
Proof using Hwf Hp Hst.
  intros ->. destruct (wf_fiber _ _ _ Hwf _ _ Hp) as (_ & [_ Hm] & _). by rewrite Hm in Hst.
Qed.

(** Replacing the state (and callback) of a stack fiber keeps what does not depend
    on them. *)
Definition swapped (f' : Fiber) (this : option Z) (run : flow) : Thread :=
  mk_Thread (<[p := f']> (fibers t)) this (t_thread_fiber t) (t_scheduler_fiber t)
    (s_fiber_id t) (s_fiber_count t) run.

Lemma swapped_wf f' this run :
  ctx_ f' = ctx_ f → stack_ f' = stack_ f → run_in_scheduler_ f' = run_in_scheduler_ f →
  (state_ f' = RUNNING ↔ active (swapped f' this run) p) →
  (∀ q g, q ≠ p → fibers t !! q = Some g → stack_ g = true →
     active t q ↔ active (swapped f' this run) q) →
  (∀ q, run = Own q → ∃ g, fibers t !! q = Some g ∧ stack_ g = true) →
  (this = Some m ∨ ∃ q, run = Own q ∧ this = Some q) →
  wf m s (swapped f' this run).
Proof using Hwf Hp Hst.
  intros Hc Hs Hb Hself Hother Hr Hthis. pose proof stack_not_main as Hpm.
  destruct Hwf as [[Hm (g & Hg & Hmg)] [Hsf (g' & Hg' & Hsg)] Hf Hstate _ _].
  split; simpl.
  - split; [done|]. exists g. by rewrite lookup_insert_ne.
  - split; [done|]. destruct (decide (s = p)) as [->|Hne].
    + exists f'. rewrite lookup_insert_eq. split; [done|]. simplify_eq. by rewrite Hs, Hb.
    + exists g'. by rewrite lookup_insert_ne.
  - intros q h. rewrite lookup_insert_Some. intros [[<- <-]|[Hne Hq]]; [|by apply Hf].
    unfold home. rewrite Hc, Hs, Hb. apply (Hf _ _ Hp).
  - intros q h. rewrite lookup_insert_Some. intros [[<- <-]|[Hne Hq]] Hsh; [done|].
    rewrite (Hstate _ _ Hq Hsh). eapply Hother; eauto.
  - intros q Hq. destruct (Hr q Hq) as (h & Hh & Hsh). destruct (decide (q = p)) as [->|Hne].
    + exists f'. rewrite lookup_insert_eq. split; [done|congruence].
    + exists h. by rewrite lookup_insert_ne.
  - done.
Qed.

Lemma Resume_wf : state_ f = READY → running t = resumer m s f →
  Resume p t = (Ok tt, swapped (set_state_ RUNNING f) (Some p) (Own p)) ∧
  wf m s (swapped (set_state_ RUNNING f) (Some p) (Own p)).
Proof using Hwf Hp Hst.
  intros Hr Hrun. destruct (Resume_ok m s t p f Hwf Hp Hst Hr Hrun) as [Hne Hres].
  split; [exact Hres|]. apply swapped_wf; try done.
  - simpl. split; [by left|done].
  - intros q g Hqp Hq Hs. assert (q ≠ m) as Hqm.
    { intros ->. destruct (wf_fiber _ _ _ Hwf _ _ Hq) as (_ & [_ Hm] & _). by rewrite Hm in Hs. }
    rewrite (active_resumer m s t q f) by done.
    rewrite partner_sched by (by apply (wf_fiber _ _ _ Hwf _ _ Hp)).
    unfold active, swapped. simpl. rewrite lookup_insert_eq, (proj1 (wf_sched _ _ _ Hwf)).
    naive_solver.
  - intros q [= <-]. eauto.
  - right. eauto.
Qed.

(** From the running fiber back to the flow that resumed it. *)
Lemma back_wf f' : running t = Own p → state_ f' ≠ RUNNING →
  ctx_ f' = ctx_ f → stack_ f' = stack_ f → run_in_scheduler_ f' = run_in_scheduler_ f →
  wf m s (swapped f' (Some m) (resumer m s f)).
Proof using Hwf Hp Hst.
  intros Hrun Hns Hc Hs Hb. pose proof stack_not_main as Hpm.
  assert (is_Some (run_in_scheduler_ f)) as Hris by (by apply (wf_fiber _ _ _ Hwf _ _ Hp)).
  assert (partner_of m s f ≠ m → s ≠ p) as Hsp.
  { intros [Hrt Hsm]%partner_sched ->; [|done]. destruct (wf_sched _ _ _ Hwf) as [_ (g & Hg & Hg')].
    simplify_eq. destruct Hg' as [|[_ ?]]; [done|congruence]. }
  assert (∀ q, q ≠ m → active (swapped f' (Some m) (resumer m s f)) q ↔ partner_of m s f ≠ m ∧ q = s)
    as Hact.
  { intros q Hqm. unfold active, swapped, resumer. simpl. case_decide as Hd; [naive_solver|].
    rewrite lookup_insert_ne by (symmetry; auto).
    destruct (wf_sched _ _ _ Hwf) as [Hsf (g & Hg & Hgs)]. rewrite Hsf, Hg.
    pose proof (proj1 (partner_sched m s f Hris) Hd) as [_ Hsm]. destruct Hgs as [|[_ Hgs]]; [done|].
    split; [intros [->|(h & [= <-] & ? & _)]; [done|congruence]|intros [_ ->]; by left]. }
  apply swapped_wf; try done.
  - split; [done|]. intros [Hd ->]%Hact; [|done]. by apply Hsp in Hd.
  - intros q g Hqp Hq Hsg. assert (q ≠ m) as Hqm.
    { intros ->. destruct (wf_fiber _ _ _ Hwf _ _ Hq) as (_ & [_ Hm] & _). by rewrite Hm in Hsg. }
    rewrite Hact, partner_sched by done. rewrite (active_Own m s t p f q Hwf Hrun Hp). naive_solver.
  - intros q. unfold resumer. case_decide as Hd; [done|]. intros [= <-].
    destruct (wf_sched _ _ _ Hwf) as [Hsf (g & Hg & Hgs)]. exists g. split; [done|].
    apply partner_sched in Hd as [? Hsm]; [|done]. destruct Hgs as [|[? _]]; done.
  - by left.
Qed.

Lemma partner_not_self : running t = Own p → partner_of m s f ≠ p.
Proof using Hwf Hp Hst.
  intros Hrun Heq. pose proof stack_not_main as Hpm.
  assert (partner_of m s f ≠ m) as [Hrt Hsm]%partner_sched by (by rewrite Heq);
    [|by apply (wf_fiber _ _ _ Hwf _ _ Hp)].
  unfold partner_of in Heq. rewrite Hrt in Heq. subst p.
  destruct (wf_sched _ _ _ Hwf) as [_ (g & Hg & Hg')]. simplify_eq. naive_solver.
Qed.

Lemma Yield_wf : running t = Own p →
  Yield p t = (Ok tt, swapped (set_state_ READY f) (Some m) (resumer m s f)) ∧
  wf m s (swapped (set_state_ READY f) (Some m) (resumer m s f)).
Proof using Hwf Hp Hst.
  intros Hrun. split; [|by apply back_wf]. destruct (wf_fiber _ _ _ Hwf _ _ Hp) as (Hc & _ & Hris).
  destruct (partner_field m s t f Hwf (Hris Hst)) as (b & Hb & Hfield).
  destruct (partner_alive m s t f Hwf) as [g Hg].
  assert (state_ f = RUNNING) as Hr.
  { apply (wf_state _ _ _ Hwf p); [done..|]. unfold active. rewrite Hrun. by left. }
  rewrite (Yield_raw t p f (partner_of m s f) g b); try done.
  - unfold swapped, yielded. rewrite Hr, decide_False by done.
    destruct (partner_home m s t f g Hwf Hg) as [-> _]. do 2 f_equal. apply Hwf.
  - by rewrite Hr.
  - unfold home in Hc. by rewrite Hc, Hst.
  - by apply partner_not_self.
Qed.

Lemma MainFunc_leave_wf : running t = Own p →
  let f' := set_state_ TERM (set_cb_ None f) in
  MainFunc_leave p t = (Ok tt, swapped f' (Some m) (resumer m s f)) ∧
  wf m s (swapped f' (Some m) (resumer m s f)).
Proof using Hwf Hp Hst.
  intros Hrun f'. split; [|by apply back_wf]. destruct (wf_fiber _ _ _ Hwf _ _ Hp) as (Hc & _ & Hris).
  destruct (partner_field m s t f Hwf (Hris Hst)) as (b & Hb & Hfield).
  destruct (partner_alive m s t f Hwf) as [g Hg]. pose proof (partner_not_self Hrun) as Hne.
  unfold MainFunc_leave, update. mstep. simpl.
  rewrite (alter_insert_eq _ _ f (set_cb_ None) Hp).
  rewrite (alter_insert_eq _ _ (set_cb_ None f) (set_state_ TERM)) by apply lookup_insert_eq.
  rewrite insert_insert_eq.
  rewrite (Yield_raw _ p f' (partner_of m s f) g b); try done; simpl.
  - unfold swapped. rewrite insert_insert_eq. unfold yielded. rewrite decide_True by done.
    destruct (partner_home m s t f g Hwf Hg) as [-> _]. do 2 f_equal. apply Hwf.
  - apply lookup_insert_eq.
  - unfold home in Hc. by rewrite Hc, Hst.
  - by rewrite lookup_insert_ne.
Qed.
End switch.

(** ** Sequences of calls *)

(** [CReturn p] is the return of the callback of [p]. *)
Inductive call :=
  | CNew (config p : Z) (cb : option nat) (stacksize : Z) (run_in_scheduler : bool)
  | CGetThis (p : Z)
  | CGetFiberId
  | CResume (p : Z)
  | CYield (p : Z)
  | CReturn (p : Z)
  | CReset (p : Z) (cb : option nat)
  | CDelete (p : Z).

Definition step (c : call) : M Thread () :=
  match c with
  | CNew config p cb stacksize b => Fiber_new config p cb stacksize b
  | CGetThis p => GetThis p;; mret tt
  | CGetFiberId => GetFiberId;; mret tt
  | CResume p => Resume p
  | CYield p => Yield p
  | CReturn p => MainFunc_leave p
  | CReset p cb => Reset p cb
  | CDelete p => delete_Fiber p
  end.

Fixpoint exec (cs : list call) : M Thread () :=
  match cs with
  | [] => mret tt
  | c :: cs => step c;; exec cs
  end.

Definition stack_fiber (t : Thread) (p : Z) (st : State) : Prop :=
  ∃ f, fibers t !! p = Some f ∧ stack_ f = true ∧ state_ f = st.

(** The discipline of the scheduler: a fiber that is ready is resumed from the flow
    its switch saves, only the running fiber yields or returns, and only a finished
    one is reset or destroyed. *)
Definition call_ok (m s : Z) (t : Thread) (c : call) : Prop :=
  match c with
  | CNew _ p _ _ _ => fibers t !! p = None
  | CGetThis _ | CGetFiberId => True
  | CResume p => ∃ f, fibers t !! p = Some f ∧ stack_ f = true ∧ state_ f = READY ∧
                      running t = resumer m s f
  | CYield p | CReturn p => running t = Own p
  | CReset p _ => stack_fiber t p TERM
  | CDelete p => stack_fiber t p TERM ∧ p ≠ s
  end.

Fixpoint legal (m s : Z) (t : Thread) (cs : list call) : Prop :=
  match cs with
  | [] => True
  | c :: cs => call_ok m s t c ∧ legal m s (step c t).2 cs
  end.

(** A fiber that is not running may be rewritten: the way the thread got where it is
    does not change. *)
Lemma rewrite_wf m s t p f f' id count : wf m s t → fibers t !! p = Some f → stack_ f = true →
  state_ f = TERM → state_ f' ≠ RUNNING → ctx_ f' = ctx_ f → stack_ f' = stack_ f →
  run_in_scheduler_ f' = run_in_scheduler_ f →
  wf m s (set_counters id count (set_fibers (<[p := f']> (fibers t)) t)).
Proof.
  intros Hwf Hp Hst HT Hn Hc Hs Hb.
  assert (∀ q, active t q ↔ active (swapped t p f' (t_fiber t) (running t)) q) as Hact.
  { intros q. unfold active, swapped. simpl. destruct (running t) as [|r]; [done|].
    destruct (decide (r = p)) as [->|Hne]; [|by rewrite lookup_insert_ne].
    rewrite lookup_insert_eq, Hp.
    split; (intros [->|(h & [= <-] & ? & ?)]; [by left|right; eexists; split_and!; [done|congruence|done]]). }
  assert (wf m s (swapped t p f' (t_fiber t) (running t))) as [????? Hthis].
  { apply (swapped_wf m s t p f); try done.
    - rewrite <- Hact. split; [done|]. intros Ha. apply (wf_state _ _ _ Hwf _ _ Hp Hst) in Ha. congruence.
    - apply Hwf.
    - apply Hwf. }
  by constructor.
Qed.

Lemma new_wf m s t p f id count : wf m s t → fibers t !! p = None → state_ f = READY →
  ctx_ f = Own p → stack_ f = true → is_Some (run_in_scheduler_ f) →
  wf m s (set_counters id count (set_fibers (<[p := f]> (fibers t)) t)).
Proof.
  intros Hwf Hp Hr Hc Hs Hb. pose proof Hwf as [[Hm (g & Hg & Hmg)] [Hsf (g' & Hg' & Hsg)] Hf Hstate Hrun Hthis].
  assert (∀ q, active (set_counters id count (set_fibers (<[p := f]> (fibers t)) t)) q ↔ active t q)
    as Hact.
  { intros q. unfold active. simpl. destruct (running t) as [|r] eqn:Hr'; [done|].
    destruct (Hrun r eq_refl) as (h & Hh & _).
    by rewrite lookup_insert_ne by (intros ->; congruence). }
  split; simpl.
  - split; [done|]. exists g. by rewrite lookup_insert_ne by (intros ->; congruence).
  - split; [done|]. exists g'. by rewrite lookup_insert_ne by (intros ->; congruence).
  - intros q h. rewrite lookup_insert_Some. intros [[<- <-]|[Hne Hq]]; [|by apply Hf].
    unfold home. rewrite Hs. split_and!; [done| |done]. split; [done|]. intros ->. congruence.
  - intros q h. rewrite lookup_insert_Some, Hact.
    intros [[<- <-]|[Hne Hq]] Hsh; [|by apply Hstate]. rewrite Hr. split; [done|].
    unfold active. destruct (running t) as [|r] eqn:Hr'; [done|].
    destruct (Hrun r eq_refl) as (h & Hh & _). intros [->|(h' & _ & _ & Hts)]; congruence.
  - intros q Hq. destruct (Hrun q Hq) as (h & Hh & Hsh). exists h.
    by rewrite lookup_insert_ne by (intros ->; congruence).
  - done.
Qed.

Lemma delete_wf m s t p f id count : wf m s t → fibers t !! p = Some f → stack_ f = true →
  state_ f = TERM → p ≠ s →
  wf m s (set_fibers (delete p (fibers t)) (set_counters id count t)).
Proof.
  intros Hwf Hp Hst HT Hps. pose proof (stack_not_main m s t p f Hwf Hp Hst) as Hpm.
  pose proof Hwf as [[Hm (g & Hg & Hmg)] [Hsf (g' & Hg' & Hsg)] Hf Hstate Hrun Hthis].
  assert (running t ≠ Own p) as Hnr.
  { intros Hr. assert (state_ f = RUNNING); [|congruence]. apply (Hstate p); [done..|].
    unfold active. rewrite Hr. by left. }
  assert (∀ q, active (set_fibers (delete p (fibers t)) (set_counters id count t)) q ↔ active t q)
    as Hact.
  { intros q. unfold active. simpl. destruct (running t) as [|r] eqn:Hr'; [done|].
    by rewrite lookup_delete_ne by congruence. }
  split; simpl.
  - split; [done|]. exists g. by rewrite lookup_delete_ne by done.
  - split; [done|]. exists g'. by rewrite lookup_delete_ne by done.
  - intros q h. rewrite lookup_delete_Some. intros [_ Hq]. by apply Hf.
  - intros q h. rewrite lookup_delete_Some, Hact. intros [_ Hq]. by apply Hstate.
  - intros q Hq. rewrite lookup_delete_ne by congruence. by apply Hrun.
  - done.
Qed.

(** What no call but its destruction changes in a fiber. *)
Definition kept (c : call) (t t' : Thread) : Prop :=
  ∀ q f, fibers t !! q = Some f → c ≠ CDelete q →
    ∃ f', fibers t' !! q = Some f' ∧ stack_ f' = stack_ f ∧ run_in_scheduler_ f' = run_in_scheduler_ f.

Lemma kept_refl c t : kept c t t.
Proof. intros q f Hq _. eauto. Qed.

Lemma kept_insert c t t' p f f' : fibers t !! p = Some f → fibers t' = <[p := f']> (fibers t) →
  stack_ f' = stack_ f → run_in_scheduler_ f' = run_in_scheduler_ f → kept c t t'.
Proof.
  intros Hp Ht' Hs Hb q g Hq _. rewrite Ht'. destruct (decide (q = p)) as [->|Hne].
  - rewrite lookup_insert_eq. simplify_eq. eauto.
  - rewrite lookup_insert_ne by done. eauto.
Qed.

Lemma this_alive m s t : wf m s t → ∃ q f, t_fiber t = Some q ∧ fibers t !! q = Some f.
Proof.
  intros Hwf. destruct (wf_this _ _ _ Hwf) as [Ht|(q & Hr & Ht)].
  - destruct (wf_main _ _ _ Hwf) as (_ & f & Hf & _). eauto.
  - destruct (wf_running _ _ _ Hwf _ Hr) as (f & Hf & _). eauto.
Qed.

Lemma GetThis_ok t p q f : t_fiber t = Some q → fibers t !! q = Some f → GetThis p t = (Ok q, t).
Proof.
  intros Ht Hq. unfold GetThis. mstep. rewrite Ht. by rewrite (bind_ok _ _ _ _ _ (fiber_deref_ok _ _ _ Hq)).
Qed.

Lemma GetFiberId_ok t q f : t_fiber t = Some q → fibers t !! q = Some f →
  GetFiberId t = (Ok (id_ f), t).
Proof.
  intros Ht Hq. unfold GetFiberId. mstep. rewrite Ht.
  by rewrite (bind_ok _ _ _ _ _ (fiber_deref_ok _ _ _ Hq)).
Qed.

Lemma fiber_update_ok t p f g : fibers t !! p = Some f →
  update p g t = (Ok tt, set_fibers (<[p := g f]> (fibers t)) t).
Proof. intros Hp. unfold update, mmodify. by rewrite (alter_insert_eq _ _ _ _ Hp). Qed.

Lemma Reset_ok t p f cb : fibers t !! p = Some f → stack_ f = true → state_ f = TERM →
  Reset p cb t = (Ok tt, set_fibers (<[p := set_state_ READY (set_ctx_ (Own p) (set_cb_ cb f))]> (fibers t)) t).
Proof.
  intros Hp Hs HT. unfold Reset. rewrite (bind_ok _ _ _ _ _ (fiber_deref_ok _ _ _ Hp)).
  simpl. rewrite bind_massert by done. rewrite bind_massert by (by rewrite HT).
  rewrite (bind_ok _ _ _ _ _ (fiber_update_ok _ _ _ _ Hp)).
  erewrite bind_ok; [|apply fiber_update_ok; simpl; apply lookup_insert_eq].
  erewrite fiber_update_ok; [|simpl; apply lookup_insert_eq].
  unfold set_fibers. simpl. by rewrite !insert_insert_eq.
Qed.

Lemma delete_ok t p f : fibers t !! p = Some f → stack_ f = true → state_ f = TERM →
  delete_Fiber p t = (Ok tt, set_fibers (delete p (fibers t))
    (set_counters (s_fiber_id t) u64(s_fiber_count t - 1) t)).
Proof.
  intros Hp Hs HT. unfold delete_Fiber. rewrite (bind_ok _ _ _ _ _ (fiber_deref_ok _ _ _ Hp)).
  mstep. simpl. rewrite Hs, HT. done.
Qed.

Lemma fiber_step_ok m s t c : wf m s t → call_ok m s t c →
  ∃ t', step c t = (Ok tt, t') ∧ wf m s t' ∧ kept c t t'.
Proof.
  intros Hwf Hok. destruct c as [config p cb sz b|p| |p|p|p|p cb|p]; simpl in *.
  - unfold Fiber_new, mput. mstep. eexists. split; [reflexivity|]. split; [apply new_wf; [done..|by eexists]|].
    intros q f Hq _. exists f. split; [|done]. simpl.
    by rewrite lookup_insert_ne by (intros ->; congruence).
  - destruct (this_alive _ _ _ Hwf) as (q & f & Ht & Hq). exists t.
    split; [|by split; [|apply kept_refl]]. by rewrite (bind_ok _ _ _ _ _ (GetThis_ok t p _ _ Ht Hq)).
  - destruct (this_alive _ _ _ Hwf) as (q & f & Ht & Hq). exists t.
    split; [|by split; [|apply kept_refl]]. by rewrite (bind_ok _ _ _ _ _ (GetFiberId_ok t _ _ Ht Hq)).
  - destruct Hok as (f & Hp & Hs & Hr & Hrun).
    destruct (Resume_wf m s t p f Hwf Hp Hs Hr Hrun) as [-> Hwf']. eexists. split_and!; [done..|].
    by eapply kept_insert.
  - destruct (wf_running _ _ _ Hwf _ Hok) as (f & Hp & Hs).
    destruct (Yield_wf m s t p f Hwf Hp Hs Hok) as [-> Hwf']. eexists. split_and!; [done..|].
    by eapply kept_insert.
  - destruct (wf_running _ _ _ Hwf _ Hok) as (f & Hp & Hs).
    destruct (MainFunc_leave_wf m s t p f Hwf Hp Hs Hok) as [-> Hwf']. eexists. split_and!; [done..|].
    by eapply kept_insert.
  - destruct Hok as (f & Hp & Hs & HT). rewrite (Reset_ok t p f cb Hp Hs HT). eexists.
    split; [done|]. split; [|by eapply kept_insert].
    destruct (wf_fiber _ _ _ Hwf _ _ Hp) as (Hc & _ & _). unfold home in Hc. rewrite Hs in Hc.
    pose proof (rewrite_wf m s t p f (set_state_ READY (set_ctx_ (Own p) (set_cb_ cb f)))
      (s_fiber_id t) (s_fiber_count t) Hwf Hp Hs HT) as Hw.
    destruct Hw; [done..|]. by constructor.
  - destruct Hok as [(f & Hp & Hs & HT) Hne]. rewrite (delete_ok t p f Hp Hs HT). eexists.
    split; [done|]. split; [by eapply delete_wf|].
    intros q g Hq Hcq. exists g. split; [|done]. simpl. rewrite lookup_delete_ne; [done|].
    intros ->. done.
Qed.

(** ** Theorems *)

(** C37. Calls that follow the discipline never fail: no assertion on the state of a
    fiber, no null pointer, no context of another stack. Afterwards the fibers that are
    RUNNING are again those on the way to the one the processor executes, and
    every fiber's context is on its own stack. *)
Theorem fiber_calls_safe m s t cs : wf m s t → legal m s t cs →
  ∃ t', exec cs t = (Ok tt, t') ∧ wf m s t'.
Proof.
  revert t. induction cs as [|c cs IH]; intros t Hwf; simpl.
  - intros _. by exists t.
  - intros [Hok Hl]. destruct (fiber_step_ok m s t c Hwf Hok) as (t1 & Hs & Hwf1 & _). rewrite Hs in Hl.
    destruct (IH t1 Hwf1 Hl) as (t' & He & Hwf'). exists t'.
    by rewrite (bind_ok _ _ _ _ _ Hs).
Qed.

Lemma exec_kept m s cs : ∀ t q f, wf m s t → legal m s t cs → fibers t !! q = Some f →
  CDelete q ∉ cs → wf m s (exec cs t).2 ∧ ∃ f', fibers (exec cs t).2 !! q = Some f' ∧
    stack_ f' = stack_ f ∧ run_in_scheduler_ f' = run_in_scheduler_ f.
Proof.
  induction cs as [|c cs IH]; intros t q f Hwf Hl Hq Hnd; [by eauto|].
  destruct Hl as [Hok Hl]. destruct (fiber_step_ok m s t c Hwf Hok) as (t1 & Hs & Hwf1 & Hk).
  simpl exec. rewrite (bind_ok _ _ _ _ _ Hs). rewrite Hs in Hl.
  destruct (Hk q f Hq) as (f1 & Hq1 & Hs1 & Hb1); [set_solver|].
  destruct (IH t1 q f1 Hwf1 Hl Hq1) as (Hwf' & f' & ? & ? & ?); [set_solver|].
  split; [done|]. exists f'. split_and!; congruence.
Qed.

(** C28. When the caller of [Resume] runs on the stack that the fiber goes back to - that of
    the scheduler fiber for a fiber that runs in the scheduler, that of the main fiber for
    another - [Resume] hands control to the fiber, which finds itself as the current fiber
    and starts with its own callback; whatever it and the fibers it drives do in
    between, as long as they call [Resume] from there as well, when it yields or its callback
    returns, control is back on the stack that resumed it, the thread's main fiber is the
    current one, and the fiber is READY, or TERM without a callback. A caller on another
    stack does not get control back ([nested_resume_lost]). *)
Theorem resume_returns m s t p f cs : wf m s t → fibers t !! p = Some f → stack_ f = true →
  state_ f = READY → running t = resumer m s f →
  let t1 := (Resume p t).2 in
  Resume p t = (Ok tt, t1) ∧ running t1 = Own p ∧ t_fiber t1 = Some p ∧
  (∀ a cb, cb_ f = Some cb → MainFunc_enter a t1 = (Ok cb, t1)) ∧
  (legal m s t1 cs → CDelete p ∉ cs →
   let t2 := (exec cs t1).2 in running t2 = Own p →
   (let t3 := (Yield p t2).2 in Yield p t2 = (Ok tt, t3) ∧ running t3 = running t ∧
      t_fiber t3 = Some m ∧ state_ <$> fibers t3 !! p = Some READY) ∧
   (let t3 := (MainFunc_leave p t2).2 in MainFunc_leave p t2 = (Ok tt, t3) ∧ running t3 = running t ∧
      t_fiber t3 = Some m ∧ state_ <$> fibers t3 !! p = Some TERM ∧ fibers t3 !! p ≫= cb_ = None)).
Proof.
  intros Hwf Hp Hs Hr Hrun. destruct (Resume_wf m s t p f Hwf Hp Hs Hr Hrun) as [Hres Hwf1].
  rewrite Hres. simpl. split_and!; [done..| |].
  - intros a cb Hcb. set (t1 := swapped _ _ _ _ _).
    assert (fibers t1 !! p = Some (set_state_ RUNNING f)) as Hp1 by apply lookup_insert_eq.
    unfold MainFunc_enter. rewrite (bind_ok _ _ _ _ _ (GetThis_ok t1 a p _ eq_refl Hp1)).
    rewrite (bind_ok _ _ _ _ _ (fiber_deref_ok _ _ _ Hp1)). simpl. by rewrite Hcb.
  - intros Hl Hnd Hrun2.
    destruct (exec_kept m s cs _ p (set_state_ RUNNING f) Hwf1 Hl) as (Hwf2 & f2 & Hp2 & Hs2 & Hb2);
      [apply lookup_insert_eq|done|].
    assert (resumer m s f2 = running t) as Hback.
    { rewrite Hrun. unfold resumer, partner_of. rewrite Hb2. done. }
    assert (stack_ f2 = true) as Hst2 by (by rewrite Hs2).
    split.
    + destruct (Yield_wf m s _ p f2 Hwf2 Hp2 Hst2 Hrun2) as [-> _]. simpl.
      by rewrite lookup_insert_eq.
    + destruct (MainFunc_leave_wf m s _ p f2 Hwf2 Hp2 Hst2 Hrun2) as [-> _]. simpl.
      by rewrite lookup_insert_eq.
Qed.

(** ** Threads as the scheduler starts them *)

(** A worker's [Run]: its main fiber is its scheduler fiber. *)
Definition worker (m : Z) : Thread :=
  set_t_scheduler_fiber (Some m) (GetThis m Thread_new).2.

(** The calling thread of a scheduler built with [use_caller]: the root fiber, which
    does not run in the scheduler, is its scheduler fiber. *)
Definition caller (m root : Z) (cb : nat) : Thread :=
  set_t_scheduler_fiber (Some root) ((GetThis m;; Fiber_new 131072 root (Some cb) 0 false) Thread_new).2.

Lemma worker_fibers m : fibers (worker m) = {[ m := mk_Fiber 0 0 RUNNING Native false None None ]}.
Proof.
  unfold worker, GetThis. mstep. simpl. unfold Fiber_main, SetThis. simpl.
  unfold massert, mgets, mmodify, mput. rewrite !bind_unfold. simpl. rewrite bind_unfold. simpl.
  by rewrite bool_decide_eq_true_2.
Qed.

Lemma worker_wf m : wf m m (worker m).
Proof.
  assert (worker m = mk_Thread (fibers (worker m)) (Some m) (Some m) (Some m) 1 1 Native) as ->.
  { rewrite worker_fibers. unfold worker, GetThis. mstep. simpl. unfold Fiber_main, SetThis. simpl.
    unfold massert, mgets, mmodify, mput. rewrite !bind_unfold. simpl. rewrite bind_unfold. simpl.
    by rewrite bool_decide_eq_true_2. }
  rewrite worker_fibers. split; simpl.
  - split; [done|]. eexists. by rewrite lookup_singleton_eq.
  - split; [done|]. eexists. rewrite lookup_singleton_eq. eauto.
  - intros p f [-> <-]%lookup_singleton_Some. simpl. done.
  - intros p f [-> <-]%lookup_singleton_Some. done.
  - done.
  - by left.
Qed.

(** A fiber the thread may create before it has anything to do. *)
Lemma caller_wf : wf 1 2 (caller 1 2 7).
Proof.
  assert (wf 1 1 (step (CNew 131072 2 (Some 7) 0 false) (worker 1)).2) as [Hm _ Hf Hs _ Ht].
  { destruct (fiber_step_ok 1 1 (worker 1) (CNew 131072 2 (Some 7) 0 false) (worker_wf 1)) as (t' & -> & Hw & _);
      [by vm_compute|done]. }
  constructor; [exact Hm| |exact Hf|exact Hs|by intros ? [=]|by left].
  split; [done|]. eexists. split; [by vm_compute|]. by right.
Qed.

Ltac legal_calls :=
  repeat (split; [vm_compute; first [by eauto 10 | by split; [eauto 10|congruence]]|]); exact I.

(** The root fiber starts, makes a task and runs it to its end; the task is reused. *)
Definition sample_calls : list call :=
  [CResume 2; CNew 131072 3 (Some 8) 0 true; CResume 3; CYield 3; CResume 3; CReturn 3;
   CReset 3 (Some 9); CResume 3; CReturn 3; CDelete 3; CGetThis 4; CReturn 2].

Lemma fiber_calls_safe_witness : ∃ t', exec sample_calls (caller 1 2 7) = (Ok tt, t') ∧ wf 1 2 t'.
Proof. apply (fiber_calls_safe 1 2); [exact caller_wf|]. legal_calls. Defined.

Lemma resume_returns_witness :
  let t1 := (Resume 2 (caller 1 2 7)).2 in
  let t2 := (exec [CNew 131072 3 (Some 8) 0 true; CResume 3; CYield 3] t1).2 in
  running t1 = Own 2 ∧ (MainFunc_leave 2 t2).1 = Ok tt ∧ running (MainFunc_leave 2 t2).2 = Native.
Proof.
  destruct (resume_returns 1 2 (caller 1 2 7) 2 (mk_Fiber 1 131072 READY (Own 2) true (Some 7) (Some false))
    [CNew 131072 3 (Some 8) 0 true; CResume 3; CYield 3] caller_wf) as (_ & H1 & _ & _ & H2);
    [by vm_compute..|].
  destruct H2 as [_ (H3 & H4 & _)]; [legal_calls|set_solver|by vm_compute|].
  split; [exact H1|]. split; [by rewrite H3|exact H4].
Defined.

(** ** Behaviour at the edges *)

(** A task that resumes another task is lost: the other one saved the first as the
    flow to go back to, so when the first yields it "returns" to itself, at the
    point where it called [Resume], and the scheduler never runs again. *)
Example nested_resume_lost :
  let t := (exec [CNew 131072 2 (Some 7) 0 true; CNew 131072 3 (Some 8) 0 true] (worker 1)).2 in
  let t' := (exec [CResume 2; CResume 3; CYield 3; CYield 2] t).2 in
  (exec [CResume 2; CResume 3; CYield 3; CYield 2] t).1 = Ok tt ∧
  running t' = Own 2 ∧ state_ <$> fibers t' !! 2%Z = Some READY.
Proof. by vm_compute. Qed.

(** The fiber that resumes another one stays RUNNING, where the header says that it
    becomes READY. *)
Example resumer_stays_running :
  let t := (exec [CResume 2; CNew 131072 3 (Some 8) 0 true; CResume 3] (caller 1 2 7)).2 in
  state_ <$> fibers t !! 2%Z = Some RUNNING ∧ state_ <$> fibers t !! 3%Z = Some RUNNING.
Proof. by vm_compute. Qed.

(** A fiber that was never run cannot be destroyed or given another callback. *)
Example unused_fiber_aborts :
  let t := (exec [CNew 131072 2 (Some 7) 0 true] (worker 1)).2 in
  (delete_Fiber 2 t).1 = Err AssertFail ∧ (Reset 2 (Some 8) t).1 = Err AssertFail.
Proof. by vm_compute. Qed.

(** Yielding from a thread's main fiber reads a member that was never set. *)
Example main_yield_undefined : (Yield 1 (worker 1)).1 = Err UndefinedBehaviour.
Proof. by vm_compute. Qed.

End Fiber.
