(* ===== verification/Scheduler.v ===== *)
(** * The scheduler (fiber/scheduler.h, fiber/scheduler.cc)

    [Module Scheduler]: the task queue and its operations, the scan of [Run] under
    the lock, and the whole pool as a system of threads that interleave: each label
    of [do] is one stretch of [Run], [Schedule], [Stop] or [Idle] that holds the
    lock or does one atomic access.

    Theorems: the scan takes the first task the thread may run and leaves the order
    alone ([take_task_first]); no interleaving loses or duplicates a task, a pinned
    task stays with its thread and the two counters count ([tasks_conserved]); when
    [Stopping] answers yes every task ever scheduled is done, and it stays so
    ([stopping_final]); after that every thread leaves [Run] ([stopping_exits]).
    The examples at the end show the behaviours that are not guaranteed. *)

From S2P Require Import Prelude Fiber.
Import Fiber(State, READY, RUNNING, TERM).
#[local] Existing Instance Fiber.State_eq_dec.

Module Scheduler.

Local Open Scope Z_scope.

(** ** Data *)

(** A fiber (by address) or a callback (by number), and the thread that has to run
    it, -1 for any. *)
Record ScheduleTask := mk_ScheduleTask {
  fiber : option Z;
  cb : option nat;
  thread : Z
}.

#[export] Instance ScheduleTask_eq_dec : EqDecision ScheduleTask.
Proof. solve_decision. Defined.

Definition task_of_fiber (f : option Z) (thr : Z) : ScheduleTask := mk_ScheduleTask f None thr.
Definition task_of_cb (f : option nat) (thr : Z) : ScheduleTask := mk_ScheduleTask None f thr.
Definition task_reset : ScheduleTask := mk_ScheduleTask None None (-1).

(** [task.fiber || task.cb]. *)
Definition runnable (t : ScheduleTask) : bool :=
  bool_decide (is_Some (fiber t)) || bool_decide (is_Some (cb t)).

Record Scheduler := mk_Scheduler {
  tasks_ : list ScheduleTask;
  threads_ : list Z;
  thread_ids_ : list Z;
  thread_count_ : Z;
  active_thread_count_ : Z;
  idle_thread_count_ : Z;
  use_caller_ : bool;
  root_fiber_ : bool;
  root_thread_ : Z;
  stopping_ : bool
}.

Definition set_tasks_ (l : list ScheduleTask) (s : Scheduler) : Scheduler :=
  mk_Scheduler l (threads_ s) (thread_ids_ s) (thread_count_ s) (active_thread_count_ s)
    (idle_thread_count_ s) (use_caller_ s) (root_fiber_ s) (root_thread_ s) (stopping_ s).
Definition set_active (n : Z) (s : Scheduler) : Scheduler :=
  mk_Scheduler (tasks_ s) (threads_ s) (thread_ids_ s) (thread_count_ s) n
    (idle_thread_count_ s) (use_caller_ s) (root_fiber_ s) (root_thread_ s) (stopping_ s).
Definition set_idle (n : Z) (s : Scheduler) : Scheduler :=
  mk_Scheduler (tasks_ s) (threads_ s) (thread_ids_ s) (thread_count_ s) (active_thread_count_ s)
    n (use_caller_ s) (root_fiber_ s) (root_thread_ s) (stopping_ s).
Definition set_stopping_ (b : bool) (s : Scheduler) : Scheduler :=
  mk_Scheduler (tasks_ s) (threads_ s) (thread_ids_ s) (thread_count_ s) (active_thread_count_ s)
    (idle_thread_count_ s) (use_caller_ s) (root_fiber_ s) (root_thread_ s) b.
Definition set_threads (l ids : list Z) (s : Scheduler) : Scheduler :=
  mk_Scheduler (tasks_ s) l ids (thread_count_ s) (active_thread_count_ s)
    (idle_thread_count_ s) (use_caller_ s) (root_fiber_ s) (root_thread_ s) (stopping_ s).

(** ** Operations *)

(** The constructor; [self] is [GetThreadId()] and [other] tells that the thread
    already has a scheduler. *)
Definition Scheduler_new (threads self : Z) (use_caller other : bool) : res Scheduler :=
  if decide (0 < threads) then
    if use_caller then
      if other then Err AssertFail
      else Ok (mk_Scheduler [] [] [self] (threads - 1) 0 0 true true self false)
    else Ok (mk_Scheduler [] [] [] threads 0 0 false false (-1) false)
  else Err AssertFail.

(** The result of [ScheduleNoLock] is whether the threads have to be woken. *)
Definition ScheduleNoLock (task : ScheduleTask) : M Scheduler bool :=
  s ← mget;
  let need_tickle := bool_decide (tasks_ s = []) in
  (if runnable task then mput (set_tasks_ (tasks_ s ++ [task]) s) else mret tt);;
  mret need_tickle.

(** [Schedule] under its lock; the result tells whether it then calls [Tickle]. *)
Definition Schedule (task : ScheduleTask) : M Scheduler bool :=
  need_tickle ← ScheduleNoLock task;
  mret need_tickle.

(** [ids] are the ids the new threads get. *)
Definition Start (ids : list Z) : M Scheduler () :=
  s ← mget;
  if stopping_ s then mret tt
  else
    massert (bool_decide (threads_ s = []));;
    let ids := take (Z.to_nat (thread_count_ s)) ids in
    mput (set_threads ids (thread_ids_ s ++ ids) s).

Definition Stopping (s : Scheduler) : bool :=
  stopping_ s && bool_decide (tasks_ s = []) && bool_decide (active_thread_count_ s = 0).

(** [Stop] up to the wait for the threads; [this] tells that the scheduler of the
    calling thread is this one. The result is the number of [Tickle] calls, or
    [None] when it returns at once. *)
Definition Stop (this : bool) : M Scheduler (option Z) :=
  s ← mget;
  if Stopping s then mret None
  else
    mput (set_stopping_ true s);;
    massert (if use_caller_ s then this else negb this);;
    mret (Some (thread_count_ s + (if root_fiber_ s then 1 else 0))).

(** The last part of [Stop]: the threads to join. *)
Definition Stop_join : M Scheduler (list Z) :=
  s ← mget;
  mput (set_threads [] (thread_ids_ s) s);;
  mret (threads_ s).

(** The destructor's assertion. *)
Definition delete_Scheduler (s : Scheduler) : res () :=
  if stopping_ s then Ok tt else Err AssertFail.

Definition HasIdleThreads (s : Scheduler) : bool := bool_decide (0 < idle_thread_count_ s).

(** The scan of [Run] under the lock, by the thread [self]; [running] is
    [GetState() == RUNNING]. The result is the task, the queue that is left and
    [tickle_me]. *)
Fixpoint take_task (self : Z) (running : Z → bool) (ts : list ScheduleTask) :
    res (option ScheduleTask * list ScheduleTask * bool) :=
  match ts with
  | [] => Ok (None, [], false)
  | t :: ts =>
      if decide (thread t ≠ -1 ∧ thread t ≠ self) then
        '(r, rest, _) ← take_task self running ts;
        Ok (r, t :: rest, true)
      else if runnable t then
        if match fiber t with Some f => running f | None => false end then
          '(r, rest, tickle_me) ← take_task self running ts;
          Ok (r, t :: rest, tickle_me)
        else Ok (Some t, ts, negb (bool_decide (ts = [])))
      else Err AssertFail
  end.

(** ** The pool *)

(** Where a thread is in [Run]: at the head of the loop, with a task it took, inside
    the task's fiber, between the fiber's change of state and its switch, in the
    idle fiber, or out of [Run]. The flag says whether its idle fiber is TERM; [known] is
    the fiber when the code in it has told others of it, as it does before it waits. *)
Inductive pc :=
  | PLoop (idle_term : bool)
  | PHave (idle_term : bool) (t : ScheduleTask)
  | PRun (idle_term : bool) (t : ScheduleTask) (known : option Z)
  | PLeave (idle_term : bool) (t : ScheduleTask) (known : option Z)
  | PIdle
  | PExit.

#[export] Instance pc_eq_dec : EqDecision pc.
Proof. solve_decision. Defined.

(** The threads by their ids; a fiber's state, and whether its context is saved. [scheduled] and
    [done] record the history. *)
Record Pool := mk_Pool {
  sched : Scheduler;
  pcs : list (Z * pc);
  states : gmap Z (State * bool);
  scheduled : list ScheduleTask;
  finished : list (Z * ScheduleTask)
}.

Definition running_in (h : gmap Z (State * bool)) (f : Z) : bool :=
  match h !! f with Some (RUNNING, _) => true | _ => false end.

(** What can happen next. [LResume i] enters the task of thread [i]; with [LShare i f] the
    code in it gives [GetThis()], which is [f], to others, who may schedule it from then on;
    [LMark i s] is the assignment to [state_] of [Yield] or [MainFunc] in it and
    [LSwitch i] the switch back and the end of the iteration. *)
Inductive label :=
  | LSchedule (t : ScheduleTask)
  | LScheduleFrom (i : nat) (t : ScheduleTask)
  | LNewFiber (f : Z)
  | LTake (i : nat)
  | LResume (i : nat)
  | LShare (i : nat) (f : Z)
  | LMark (i : nat) (s : State)
  | LSwitch (i : nat)
  | LIdle (i : nat)
  | LStop (this : bool).

Definition set_pc (i : nat) (n : Z) (p : pc) (s : Scheduler) (w : Pool) : Pool :=
  mk_Pool s (<[i := (n, p)]> (pcs w)) (states w) (scheduled w) (finished w).

Definition set_states (h : gmap Z (State * bool)) (w : Pool) : Pool :=
  mk_Pool (sched w) (pcs w) h (scheduled w) (finished w).

Definition do_Schedule (t : ScheduleTask) (w : Pool) : option (res Pool) :=
  let '(_, s) := Schedule t (sched w) in
  Some (Ok (mk_Pool s (pcs w) (states w)
    (if runnable t then scheduled w ++ [t] else scheduled w) (finished w))).

(** The head of the loop in thread [i]: the scan, and the branch when it found
    nothing. *)
Definition do_Take (i : nat) (w : Pool) : option (res Pool) :=
  match pcs w !! i with
  | Some (n, PLoop it) =>
      Some (match take_task n (running_in (states w)) (tasks_ (sched w)) with
      | Err e => Err e
      | Ok (Some t, rest, _) =>
          let s := set_tasks_ rest (sched w) in
          Ok (set_pc i n (PHave it t) (set_active (active_thread_count_ s + 1) s) w)
      | Ok (None, rest, _) =>
          let s := set_tasks_ rest (sched w) in
          if it then Ok (set_pc i n PExit s w)
          else Ok (set_pc i n PIdle (set_idle (idle_thread_count_ s + 1) s) w)
      end)
  | _ => None
  end.

(** [Resume] of the task's fiber, or of the fiber a callback runs on. *)
Definition do_Resume (i : nat) (w : Pool) : option (res Pool) :=
  match pcs w !! i with
  | Some (n, PHave it t) =>
      Some (match fiber t with
      | None => Ok (set_pc i n (PRun it t None) (sched w) w)
      | Some f =>
          match states w !! f with
          | Some (READY, true) =>
              Ok (set_pc i n (PRun it t None) (sched w) (set_states (<[f := (RUNNING, false)]> (states w)) w))
          | Some (READY, false) => Err UndefinedBehaviour
          | Some (_, _) => Err AssertFail
          | None => Err UndefinedBehaviour
          end
      end)
  | _ => None
  end.

(** The fiber of a callback was made when its thread took it; nobody else has it until now. *)
Definition do_Share (i : nat) (f : Z) (w : Pool) : option (res Pool) :=
  match pcs w !! i with
  | Some (n, PRun it t None) =>
      let w' := set_pc i n (PRun it t (Some f)) (sched w) in
      match fiber t with
      | Some g => if decide (f = g) then Some (Ok (w' w)) else None
      | None =>
          match states w !! f with
          | None => Some (Ok (w' (set_states (<[f := (RUNNING, false)]> (states w)) w)))
          | Some _ => None
          end
      end
  | _ => None
  end.

(** The fiber that runs, when it is known by its address. *)
Definition rides (t : ScheduleTask) (known : option Z) : option Z :=
  match known with Some f => Some f | None => fiber t end.

Definition do_Mark (i : nat) (st : State) (w : Pool) : option (res Pool) :=
  match pcs w !! i with
  | Some (n, PRun it t o) =>
      if decide (st = RUNNING) then None
      else Some (Ok (set_pc i n (PLeave it t o) (sched w)
        (match rides t o with
         | Some f => set_states (<[f := (st, false)]> (states w)) w
         | None => w
         end)))
  | _ => None
  end.

Definition do_Switch (i : nat) (w : Pool) : option (res Pool) :=
  match pcs w !! i with
  | Some (n, PLeave it t o) =>
      let w := match rides t o with
               | Some f => set_states (alter (λ sb, (sb.1, true)) f (states w)) w
               | None => w
               end in
      let s := sched w in
      let w := set_pc i n (PLoop it) (set_active (active_thread_count_ s - 1) s) w in
      Some (Ok (mk_Pool (sched w) (pcs w) (states w) (scheduled w) (finished w ++ [(n, t)])))
  | _ => None
  end.

(** One turn of [Idle]: it ends when [Stopping] says so, and yields otherwise. *)
Definition do_Idle (i : nat) (w : Pool) : option (res Pool) :=
  match pcs w !! i with
  | Some (n, PIdle) =>
      let s := sched w in
      Some (Ok (set_pc i n (PLoop (Stopping s)) (set_idle (idle_thread_count_ s - 1) s) w))
  | _ => None
  end.

Definition do (l : label) (w : Pool) : option (res Pool) :=
  match l with
  | LSchedule t => do_Schedule t w
  | LScheduleFrom i t =>
      match pcs w !! i with Some (_, PRun _ _ _) => do_Schedule t w | _ => None end
  | LNewFiber f =>
      match states w !! f with
      | None => Some (Ok (set_states (<[f := (READY, true)]> (states w)) w))
      | Some _ => None
      end
  | LTake i => do_Take i w
  | LResume i => do_Resume i w
  | LShare i f => do_Share i f w
  | LMark i st => do_Mark i st w
  | LSwitch i => do_Switch i w
  | LIdle i => do_Idle i w
  | LStop this =>
      match Stop this (sched w) with
      | (Ok _, s) => Some (Ok (mk_Pool s (pcs w) (states w) (scheduled w) (finished w)))
      | (Err e, _) => Some (Err e)
      end
  end.

(** The pool before its threads have done anything. *)
Definition Pool_new (s : Scheduler) (ids : list Z) : Pool :=
  mk_Pool s ((λ n, (n, PLoop false)) <$> ids) ∅ [] [].

(** One step that does not abort, and what it leads to. *)
Definition step (w w' : Pool) : Prop := ∃ l, do l w = Some (Ok w').

(** ** The scan *)

(** May the thread [self] take the task now? *)
Definition pinned_elsewhere (self : Z) (t : ScheduleTask) : bool :=
  bool_decide (thread t ≠ -1) && bool_decide (thread t ≠ self).

Definition is_running (running : Z → bool) (t : ScheduleTask) : bool :=
  match fiber t with Some f => running f | None => false end.

Definition eligible (self : Z) (running : Z → bool) (t : ScheduleTask) : bool :=
  negb (pinned_elsewhere self t) && negb (is_running running t).

Lemma pinned_elsewhere_iff self t :
  pinned_elsewhere self t = true ↔ thread t ≠ -1 ∧ thread t ≠ self.
Proof. unfold pinned_elsewhere. by rewrite andb_true_iff, !bool_decide_eq_true. Qed.

Definition all_runnable (ts : list ScheduleTask) : Prop := Forall (λ t, runnable t = true) ts.

(** The scan takes the first task that is not pinned to another thread and whose
    fiber does not run, and nothing when there is none; the other tasks keep their
    order. The other threads are tickled when it passed a task pinned elsewhere or
    left something behind the task it took. Its assertion holds for every queue
    that [Schedule] builds. *)
Theorem take_task_first self running ts : all_runnable ts →
  ∃ r rest tickle_me, take_task self running ts = Ok (r, rest, tickle_me) ∧
  match r with
  | Some t => ∃ l1 l2, ts = l1 ++ t :: l2 ∧ rest = l1 ++ l2 ∧
      Forall (λ t', eligible self running t' = false) l1 ∧ eligible self running t = true ∧
      tickle_me = existsb (pinned_elsewhere self) l1 || negb (bool_decide (l2 = []))
  | None => rest = ts ∧ Forall (λ t', eligible self running t' = false) ts ∧
      tickle_me = existsb (pinned_elsewhere self) ts
  end.
Proof.
  induction 1 as [|t ts Ht _ IH]; simpl; [by repeat eexists|].
  destruct IH as (r & rest & tk & -> & Hr).
  destruct (pinned_elsewhere self t) eqn:Hpin.
  - rewrite decide_True by (by apply pinned_elsewhere_iff). simpl. do 3 eexists. split; [done|].
    assert (eligible self running t = false) as Hel by (unfold eligible; by rewrite Hpin).
    destruct r as [u|].
    + destruct Hr as (l1 & l2 & -> & -> & H1 & H2 & ->). exists (t :: l1), l2. simpl.
      split_and!; rewrite ?Hpin; auto.
    + destruct Hr as (-> & H1 & ->). simpl. split_and!; rewrite ?Hpin; auto.
  - rewrite decide_False, Ht by (intros H%pinned_elsewhere_iff; congruence).
    change (match fiber t with Some f => running f | None => false end) with (is_running running t).
    destruct (is_running running t) eqn:Hrun.
    + simpl. do 3 eexists. split; [done|].
      assert (eligible self running t = false) as Hel by (unfold eligible; by rewrite Hrun, andb_false_r).
      destruct r as [u|].
      * destruct Hr as (l1 & l2 & -> & -> & H1 & H2 & ->). exists (t :: l1), l2. simpl.
        split_and!; rewrite ?Hpin; auto.
      * destruct Hr as (-> & H1 & ->). simpl. split_and!; rewrite ?Hpin; auto.
    + do 3 eexists. split; [done|]. exists [], ts. unfold eligible. rewrite Hpin, Hrun. auto.
Qed.

Lemma take_task_Some self running ts t rest tk : take_task self running ts = Ok (Some t, rest, tk) →
  ts ≡ₚ t :: rest ∧ pinned_elsewhere self t = false.
Proof.
  revert rest tk. induction ts as [|u ts IH]; intros rest tk; simpl; [done|].
  assert (∀ r rest' tk', take_task self running ts = Ok (r, rest', tk') → r = Some t →
    u :: ts ≡ₚ t :: u :: rest' ∧ pinned_elsewhere self t = false) as Hrec.
  { intros r rest' tk' H ->. destruct (IH _ _ H) as [Hp ?]. split; [|done]. rewrite Hp. constructor. }
  case_decide as Hpin; [|destruct (runnable u); [|done];
    destruct (match fiber u with Some f => running f | None => false end)].
  - destruct (take_task self running ts) as [[[r rest'] tk']|]; [|done].
    intros [= -> <- _]. by eapply Hrec.
  - destruct (take_task self running ts) as [[[r rest'] tk']|]; [|done].
    intros [= -> <- _]. by eapply Hrec.
  - intros [= -> -> _]. split; [done|]. apply not_true_iff_false. by rewrite pinned_elsewhere_iff.
Qed.

Lemma take_task_None self running ts rest tk : take_task self running ts = Ok (None, rest, tk) → rest = ts.
Proof.
  revert rest tk. induction ts as [|u ts IH]; intros rest tk; simpl; [by intros [= <- _]|].
  case_decide; [|destruct (runnable u); [|done];
    destruct (match fiber u with Some f => running f | None => false end)]; [..|done];
    (destruct (take_task self running ts) as [[[r rest'] tk']|] eqn:E; [|done]);
    intros [= -> <- _]; f_equal; by eapply IH.
Qed.

(** ** The invariant of the pool *)

(** The task a thread holds. *)
Definition pc_task (p : pc) : option ScheduleTask :=
  match p with PHave _ t | PRun _ t _ | PLeave _ t _ => Some t | _ => None end.

Definition pc_idle (p : pc) : nat := match p with PIdle => 1 | _ => 0 end.

Definition held (l : list (Z * pc)) : list (Z * ScheduleTask) :=
  omap (λ np, (np.1,.) <$> pc_task np.2) l.

Definition idle (l : list (Z * pc)) : nat := sum_list_with (λ np, pc_idle np.2) l.

(** A thread ran only what it may run. *)
Definition allowed (nt : Z * ScheduleTask) : Prop := pinned_elsewhere nt.1 nt.2 = false.

Record wf (w : Pool) : Prop := {
  wf_active : active_thread_count_ (sched w) = Z.of_nat (length (held (pcs w)));
  wf_idle : idle_thread_count_ (sched w) = Z.of_nat (idle (pcs w));
  wf_tasks : scheduled w ≡ₚ tasks_ (sched w) ++ (held (pcs w)).*2 ++ (finished w).*2;
  wf_allowed : Forall allowed (held (pcs w) ++ finished w);
  wf_runnable : all_runnable (tasks_ (sched w))
}.

(** Moving one thread changes what that thread holds and nothing else. *)
Lemma move_pc l i n p : l !! i = Some (n, p) →
  ∃ rest k, (∀ p', held (<[i := (n, p')]> l) ≡ₚ option_list ((n,.) <$> pc_task p') ++ rest ∧
                   idle (<[i := (n, p')]> l) = (pc_idle p' + k)%nat) ∧
    held l ≡ₚ option_list ((n,.) <$> pc_task p) ++ rest ∧ idle l = (pc_idle p + k)%nat.
Proof.
  intros Hi. set (l1 := take i l). set (l2 := drop (S i) l).
  assert (l = l1 ++ (n, p) :: l2) as Hl by (symmetry; by apply take_drop_middle).
  assert (∀ p', <[i := (n, p')]> l = l1 ++ (n, p') :: l2) as Hins.
  { intros p'. apply insert_take_drop. by eapply lookup_lt_Some. }
  assert (∀ p', held (l1 ++ (n, p') :: l2) ≡ₚ option_list ((n,.) <$> pc_task p') ++ held l1 ++ held l2 ∧
    idle (l1 ++ (n, p') :: l2) = (pc_idle p' + (idle l1 + idle l2))%nat) as Hgen.
  { intros p'. unfold held, idle. rewrite omap_app, sum_list_with_app. simpl. split; [|lia].
    destruct (pc_task p') as [t|]; simpl; [|done]. by rewrite Permutation_middle. }
  exists (held l1 ++ held l2), (idle l1 + idle l2)%nat. split.
  - intros p'. rewrite Hins. apply Hgen.
  - rewrite Hl at 1 2. apply Hgen.
Qed.

Lemma perm_exchange {A} (a b a' b' c r f : list A) : a' ++ b' ++ c ≡ₚ a ++ b →
  a ++ (b ++ r) ++ f ≡ₚ a' ++ (b' ++ r) ++ f ++ c.
Proof.
  intros H. rewrite <- (assoc_L (++) b r f), (assoc_L (++) a b), <- H, <- !(assoc_L (++)).
  do 2 f_equiv. by rewrite (comm (++) c), <- (assoc_L (++)).
Qed.

(** A step of thread [i] that moves it from [p] to [p'], when the queue and the history
    change accordingly. *)
Lemma moved_wf w i n p p' s fin h :
  wf w → pcs w !! i = Some (n, p) →
  active_thread_count_ s - active_thread_count_ (sched w) =
    Z.of_nat (length (option_list (pc_task p'))) - Z.of_nat (length (option_list (pc_task p))) →
  idle_thread_count_ s - idle_thread_count_ (sched w) = Z.of_nat (pc_idle p') - Z.of_nat (pc_idle p) →
  tasks_ s ++ option_list (pc_task p') ++ fin.*2 ≡ₚ
    tasks_ (sched w) ++ option_list (pc_task p) →
  Forall allowed (((n,.) <$> option_list (pc_task p')) ++ fin) → all_runnable (tasks_ s) →
  wf (mk_Pool s (<[i := (n, p')]> (pcs w)) h (scheduled w) (finished w ++ fin)).
Proof.
  intros [Ha Hid Ht Hal Hr] Hi Hda Hdi Hdt Hfin Hrun.
  destruct (move_pc _ _ _ _ Hi) as (rest & k & Hmove & Hheld & Hidle).
  destruct (Hmove p') as [Hheld' Hidle']. rewrite Hheld in Ha, Hal, Ht.
  assert (∀ (o : option ScheduleTask), option_list ((n,.) <$> o) = (n,.) <$> option_list o) as Hol
    by (by intros []).
  rewrite !Hol in *. split; simpl.
  - rewrite Hheld'. rewrite !length_app, !length_fmap in *. lia.
  - lia.
  - rewrite Hheld', Ht, !fmap_app, <- !list_fmap_compose. simpl.
    rewrite !(list_fmap_ext (snd ∘ (n,.)) id) by done. rewrite !list_fmap_id.
    by apply perm_exchange.
  - rewrite Hheld'. rewrite !Forall_app in *. tauto.
  - done.
Qed.

Lemma wf_states w h : wf w → wf (set_states h w).
Proof. intros [????? ]. by constructor. Qed.

Lemma Schedule_ok t s : Schedule t s =
  (Ok (bool_decide (tasks_ s = [])), if runnable t then set_tasks_ (tasks_ s ++ [t]) s else s).
Proof. unfold Schedule, ScheduleNoLock. rewrite bind_unfold. mstep. by destruct (runnable t). Qed.

Lemma do_Schedule_wf t w w' : wf w → do_Schedule t w = Some (Ok w') → wf w'.
Proof.
  intros [Ha Hi Ht Hal Hr]. unfold do_Schedule. rewrite Schedule_ok.
  destruct (runnable t) eqn:Hrun; intros [= <-]; [|by constructor].
  constructor; simpl; try done.
  - rewrite Ht, <- !(assoc_L (++)). f_equiv. rewrite (comm (++) [t]), <- (assoc_L (++)). done.
  - apply Forall_app. split; [done|]. by constructor.
Qed.

Lemma set_pc_moved w i n p p' s : wf w → pcs w !! i = Some (n, p) →
  active_thread_count_ s - active_thread_count_ (sched w) =
    Z.of_nat (length (option_list (pc_task p'))) - Z.of_nat (length (option_list (pc_task p))) →
  idle_thread_count_ s - idle_thread_count_ (sched w) = Z.of_nat (pc_idle p') - Z.of_nat (pc_idle p) →
  tasks_ s ++ option_list (pc_task p') ≡ₚ tasks_ (sched w) ++ option_list (pc_task p) →
  Forall allowed ((n,.) <$> option_list (pc_task p')) → all_runnable (tasks_ s) →
  wf (set_pc i n p' s w).
Proof.
  intros Hwf Hi Ha Hid Ht Hal Hr.
  pose proof (moved_wf w i n p p' s [] (states w) Hwf Hi Ha Hid) as Hm.
  rewrite !app_nil_r in Hm. by apply Hm.
Qed.

(** A task that is held was allowed to its thread. *)
Lemma held_allowed w i n p t : wf w → pcs w !! i = Some (n, p) → pc_task p = Some t → allowed (n, t).
Proof.
  intros Hwf Hi Hp. pose proof (wf_allowed _ Hwf) as Hal. apply Forall_app in Hal as [Hal _].
  rewrite Forall_forall in Hal. apply Hal. unfold held. apply list_elem_of_omap.
  exists (n, p). simpl. rewrite Hp. split; [by eapply list_elem_of_lookup_2|done].
Qed.

Lemma all_runnable_perm ts t rest : ts ≡ₚ t :: rest → all_runnable ts → all_runnable rest.
Proof. unfold all_runnable. intros ->. by intros [_ ?]%Forall_cons. Qed.

Lemma do_Take_wf i w w' : wf w → do_Take i w = Some (Ok w') → wf w'.
Proof.
  intros Hwf. unfold do_Take. destruct (pcs w !! i) as [[n [it| | | | |]]|] eqn:Hi; try done.
  destruct (take_task _ _ _) as [[[[t|] rest] tk]|] eqn:Htk; intros [= H].
  - apply take_task_Some in Htk as [Hp Hpin]. subst w'. eapply set_pc_moved; try done; simpl.
    + lia.
    + lia.
    + rewrite Hp, app_nil_r. by rewrite (comm (++)).
    + by repeat constructor.
    + eapply all_runnable_perm; [exact Hp|apply Hwf].
  - apply take_task_None in Htk as ->. destruct it; injection H as <-; eapply set_pc_moved; try done; simpl;
      try lia; apply Hwf.
Qed.

Lemma do_Resume_wf i w w' : wf w → do_Resume i w = Some (Ok w') → wf w'.
Proof.
  intros Hwf. unfold do_Resume. destruct (pcs w !! i) as [[n [|it t| | | |]]|] eqn:Hi; try done.
  assert (∀ h, wf (set_pc i n (PRun it t None) (sched w) (set_states h w))) as Hgoal.
  { intros h. eapply set_pc_moved; [by apply wf_states|exact Hi|simpl; lia..|done| |apply Hwf].
    constructor; [|done]. by eapply held_allowed. }
  destruct (fiber t) as [f|].
  - destruct (states w !! f) as [[[] []]|]; intros [= <-]. apply Hgoal.
  - intros [= <-]. specialize (Hgoal (states w)). by destruct w.
Qed.

Lemma do_Share_wf i f w w' : wf w → do_Share i f w = Some (Ok w') → wf w'.
Proof.
  intros Hwf. unfold do_Share. destruct (pcs w !! i) as [[n [| |it t [o|]| | |]]|] eqn:Hi; try done.
  assert (∀ h, wf (set_pc i n (PRun it t (Some f)) (sched w) (set_states h w))) as Hgoal.
  { intros h. eapply set_pc_moved; [by apply wf_states|exact Hi|simpl; lia..|done| |apply Hwf].
    constructor; [|done]. by eapply held_allowed. }
  destruct (fiber t) as [g|].
  - case_decide; [|done]. intros [= <-]. specialize (Hgoal (states w)). by destruct w.
  - destruct (states w !! f); [done|]. intros [= <-]. apply Hgoal.
Qed.

Lemma do_Mark_wf i st w w' : wf w → do_Mark i st w = Some (Ok w') → wf w'.
Proof.
  intros Hwf. unfold do_Mark. destruct (pcs w !! i) as [[n [| |it t o| | |]]|] eqn:Hi; try done.
  case_decide; [done|].
  assert (∀ h, wf (set_pc i n (PLeave it t o) (sched w) (set_states h w))) as Hgoal.
  { intros h. eapply set_pc_moved; [by apply wf_states|exact Hi|simpl; lia..|done| |apply Hwf].
    constructor; [|done]. by eapply held_allowed. }
  destruct (rides t o) as [f|]; intros [= <-]; [apply Hgoal|].
  specialize (Hgoal (states w)). by destruct w.
Qed.

Lemma do_Switch_wf i w w' : wf w → do_Switch i w = Some (Ok w') → wf w'.
Proof.
  intros Hwf. unfold do_Switch. destruct (pcs w !! i) as [[n [| | |it t o| |]]|] eqn:Hi; try done.
  intros [= <-]. assert (allowed (n, t)) as Hal by (by eapply held_allowed).
  destruct (rides t o) as [f|]; simpl;
    eapply moved_wf; try done; simpl; try lia; try apply Hwf; by repeat constructor.
Qed.

Lemma do_Idle_wf i w w' : wf w → do_Idle i w = Some (Ok w') → wf w'.
Proof.
  intros Hwf. unfold do_Idle. destruct (pcs w !! i) as [[n [| | | | |]]|] eqn:Hi; try done.
  intros [= <-]. eapply set_pc_moved; try done; simpl; try lia; apply Hwf.
Qed.

Lemma Stop_ok this s x s' : Stop this s = (x, s') → s' = s ∨ s' = set_stopping_ true s.
Proof.
  unfold Stop. mstep. destruct (Stopping s); [intros [= _ <-]; by left|].
  unfold mput. rewrite bind_unfold. intros H. right. revert H. unfold massert. rewrite bind_unfold.
  destruct (if use_caller_ s then this else negb this); by intros [= _ <-].
Qed.

Lemma step_wf w w' : wf w → step w w' → wf w'.
Proof.
  intros Hwf [l Hl]. destruct l as [t|i t|f|i|i|i f|i st|i|i|this]; simpl in Hl.
  - by eapply do_Schedule_wf.
  - destruct (pcs w !! i) as [[n []]|]; try done. by eapply do_Schedule_wf.
  - destruct (states w !! f); [done|]. injection Hl as <-. by apply wf_states.
  - by eapply do_Take_wf.
  - by eapply do_Resume_wf.
  - by eapply do_Share_wf.
  - by eapply do_Mark_wf.
  - by eapply do_Switch_wf.
  - by eapply do_Idle_wf.
  - destruct (Stop this (sched w)) as [[x|] s] eqn:Hs; [|done]. injection Hl as <-.
    destruct Hwf as [Ha Hi Ht Hal Hr].
    destruct (Stop_ok _ _ _ _ Hs) as [->| ->]; by constructor.
Qed.

Lemma Pool_new_wf s ids : tasks_ s = [] → active_thread_count_ s = 0 → idle_thread_count_ s = 0 →
  wf (Pool_new s ids).
Proof.
  intros Ht Ha Hi. assert (held (pcs (Pool_new s ids)) = []) as Hh.
  { unfold held. simpl. induction ids as [|n ids IH]; [done|exact IH]. }
  assert (idle (pcs (Pool_new s ids)) = 0%nat) as Hid.
  { clear Hh. unfold idle. simpl. induction ids as [|n ids IH]; [done|exact IH]. }
  split; rewrite ?Hh, ?Hid; simpl; rewrite ?Ht; try done; constructor.
Qed.

(** ** Starting the pool *)

(** The pool of a scheduler that was built and started: one [Run] for each thread
    id. *)
Definition started (threads self : Z) (use_caller : bool) (ids : list Z) (w : Pool) : Prop :=
  ∃ s0 s, Scheduler_new threads self use_caller false = Ok s0 ∧ Start ids s0 = (Ok tt, s) ∧
    w = Pool_new s (thread_ids_ s).

Lemma Start_fields ids s x s' : Start ids s = (x, s') →
  tasks_ s' = tasks_ s ∧ active_thread_count_ s' = active_thread_count_ s ∧
  idle_thread_count_ s' = idle_thread_count_ s.
Proof.
  unfold Start. mstep. destruct (stopping_ s); [by intros [= _ <-]|].
  unfold massert, mput. rewrite bind_unfold.
  destruct (bool_decide (threads_ s = [])); by intros [= _ <-].
Qed.

Lemma started_wf threads self uc ids w : started threads self uc ids w → wf w.
Proof.
  intros (s0 & s & Hn & Hs & ->). destruct (Start_fields _ _ _ _ Hs) as (Ht & Ha & Hi).
  unfold Scheduler_new in Hn. case_decide; [|done].
  apply Pool_new_wf; rewrite ?Ht, ?Ha, ?Hi; destruct uc; by injection Hn as <-.
Qed.

Lemma steps_wf w w' : wf w → rtc step w w' → wf w'.
Proof. intros Hwf. induction 1; eauto using step_wf. Qed.

(** C3. Whatever the interleaving of the threads, the tasks that were scheduled are
    those in the queue, those a thread holds and those that were run, each once; a
    task pinned to a thread is held and run by that thread only; and
    [active_thread_count_] and [idle_thread_count_] count the threads that hold a
    task and those in the idle fiber. *)
Theorem tasks_conserved threads self uc ids w0 w :
  started threads self uc ids w0 → rtc step w0 w →
  scheduled w ≡ₚ tasks_ (sched w) ++ (held (pcs w)).*2 ++ (finished w).*2 ∧
  (∀ n t, (n, t) ∈ held (pcs w) ++ finished w → thread t = -1 ∨ thread t = n) ∧
  active_thread_count_ (sched w) = Z.of_nat (length (held (pcs w))) ∧
  idle_thread_count_ (sched w) = Z.of_nat (idle (pcs w)).
Proof.
  intros Hst Hsteps. pose proof (steps_wf _ _ (started_wf _ _ _ _ _ Hst) Hsteps) as [Ha Hi Ht Hal _].
  split_and!; [done| |done..]. intros n t Hin. rewrite Forall_forall in Hal.
  specialize (Hal (n, t) Hin). unfold allowed, pinned_elsewhere in Hal. simpl in Hal.
  apply andb_false_iff in Hal as [H%bool_decide_eq_false|H%bool_decide_eq_false];
    [left|right]; by apply dec_stable.
Qed.

(** ** Stopping *)

(** A step of the pool itself: nobody outside schedules. *)
Definition internal (w w' : Pool) : Prop := ∃ l, (∀ t, l ≠ LSchedule t) ∧ do l w = Some (Ok w').

Lemma Stopping_iff s : Stopping s = true ↔
  stopping_ s = true ∧ tasks_ s = [] ∧ active_thread_count_ s = 0.
Proof. unfold Stopping. rewrite !andb_true_iff, !bool_decide_eq_true. tauto. Qed.

Lemma stopping_nothing_held w : wf w → Stopping (sched w) = true → held (pcs w) = [].
Proof.
  intros Hwf (_ & _ & Ha)%Stopping_iff. rewrite (wf_active _ Hwf) in Ha.
  apply nil_length_inv. lia.
Qed.

Lemma stopping_pc w i n p : wf w → Stopping (sched w) = true → pcs w !! i = Some (n, p) →
  pc_task p = None.
Proof.
  intros Hwf Hst Hi. destruct (pc_task p) as [t|] eqn:Hp; [|done].
  assert ((n, t) ∈ held (pcs w)) as Hin.
  { unfold held. apply list_elem_of_omap. exists (n, p). simpl. rewrite Hp.
    split; [by eapply list_elem_of_lookup_2|done]. }
  rewrite (stopping_nothing_held _ Hwf Hst) in Hin. set_solver.
Qed.

Lemma internal_stays w w' : wf w → Stopping (sched w) = true → internal w w' →
  Stopping (sched w') = true ∧ finished w' = finished w ∧ scheduled w' = scheduled w.
Proof.
  intros Hwf Hst (l & Hext & Hl). pose proof Hst as (Hs & Ht & Ha)%Stopping_iff.
  assert (∀ i n p t, pcs w !! i = Some (n, p) → pc_task p = Some t → False) as Hno.
  { intros i n p t Hi Hp. pose proof (stopping_pc _ _ _ _ Hwf Hst Hi). congruence. }
  destruct l as [t|i t|f|i|i|i f|i st|i|i|this]; simpl in Hl.
  - by destruct (Hext t).
  - destruct (pcs w !! i) as [[n []]|] eqn:Hi; try done. by exfalso; eapply Hno.
  - destruct (states w !! f); [done|]. by injection Hl as <-.
  - unfold do_Take in Hl. destruct (pcs w !! i) as [[n [it| | | | |]]|] eqn:Hi; try done.
    rewrite Ht in Hl. simpl in Hl.
    destruct it; injection Hl as <-; simpl; split; try done; apply Stopping_iff; auto.
  - unfold do_Resume in Hl. destruct (pcs w !! i) as [[n []]|] eqn:Hi; try done. by exfalso; eapply Hno.
  - unfold do_Share in Hl. destruct (pcs w !! i) as [[n []]|] eqn:Hi; try done. by exfalso; eapply Hno.
  - unfold do_Mark in Hl. destruct (pcs w !! i) as [[n []]|] eqn:Hi; try done. by exfalso; eapply Hno.
  - unfold do_Switch in Hl. destruct (pcs w !! i) as [[n []]|] eqn:Hi; try done. by exfalso; eapply Hno.
  - unfold do_Idle in Hl. destruct (pcs w !! i) as [[n []]|] eqn:Hi; try done.
    injection Hl as <-. simpl. split; [|done]. apply Stopping_iff. auto.
  - unfold Stop in Hl. revert Hl. mstep. rewrite Hst. intros [= <-]. simpl. by rewrite Hst.
Qed.

Lemma internals_stay w w' : wf w → Stopping (sched w) = true → rtc internal w w' →
  Stopping (sched w') = true ∧ finished w' = finished w ∧ scheduled w' = scheduled w.
Proof.
  intros Hwf Hstop Hint. induction Hint as [w|w w1 w' Hs _ IH]; [done|].
  destruct (internal_stays _ _ Hwf Hstop Hs) as (? & Hf & Hsc).
  destruct Hs as (l & _ & Hl). rewrite <- Hf, <- Hsc. apply IH; [|done].
  eapply step_wf; [done|]. by exists l.
Qed.

(** The shutdown is graceful and final: when [Stopping] answers yes, every task
    that was ever scheduled has been run to its end, no thread holds one, and it
    stays like that whatever the threads still do, as long as nobody outside
    schedules. *)
Theorem stopping_final threads self uc ids w0 w w' :
  started threads self uc ids w0 → rtc step w0 w → Stopping (sched w) = true → rtc internal w w' →
  scheduled w ≡ₚ (finished w).*2 ∧ held (pcs w) = [] ∧
  Stopping (sched w') = true ∧ finished w' = finished w ∧ scheduled w' = scheduled w.
Proof.
  intros Hst Hsteps Hstop Hint. pose proof (steps_wf _ _ (started_wf _ _ _ _ _ Hst) Hsteps) as Hwf.
  pose proof (stopping_nothing_held _ Hwf Hstop) as Hh.
  split; [|split; [done|by eapply internals_stay]].
  rewrite (wf_tasks _ Hwf), Hh. pose proof Hstop as (_ & -> & _)%Stopping_iff. done.
Qed.

(** How many steps of its own a thread still takes once the pool is stopping. *)
Definition steps_left (p : pc) : nat :=
  match p with PLoop false => 3 | PIdle => 2 | PLoop true => 1 | _ => 0 end.

(** C29. Every thread leaves [Run] after the stop: as long as it is in the loop or in
    its idle fiber its next step is possible, needs no one else, and brings it
    closer to the exit, of which it is at most three steps away. *)
Theorem stopping_exits threads self uc ids w0 w i n p :
  started threads self uc ids w0 → rtc step w0 w → Stopping (sched w) = true →
  pcs w !! i = Some (n, p) → p ≠ PExit →
  ∃ l w' p', l = (if decide (p = PIdle) then LIdle i else LTake i) ∧ do l w = Some (Ok w') ∧
    pcs w' = <[i := (n, p')]> (pcs w) ∧ (steps_left p' < steps_left p ≤ 3)%nat ∧
    (steps_left p' = 0%nat → p' = PExit).
Proof.
  intros Hst Hsteps Hstop Hi Hne.
  pose proof (steps_wf _ _ (started_wf _ _ _ _ _ Hst) Hsteps) as Hwf.
  pose proof (stopping_pc _ _ _ _ Hwf Hstop Hi) as Hp.
  pose proof Hstop as (_ & Ht & _)%Stopping_iff.
  destruct p as [[]|?|?|?|  |]; try done; do 3 eexists; (split; [done|]); simpl.
  - unfold do_Take. rewrite Hi, Ht. simpl. split; [done|]. simpl. split; [done|]. split; [simpl; lia|done].
  - unfold do_Take. rewrite Hi, Ht. simpl. split; [done|]. simpl. split; [done|]. split; [simpl; lia|done].
  - unfold do_Idle. rewrite Hi, Hstop. split; [done|]. simpl. split; [done|]. split; [simpl; lia|done].
Qed.

(** ** Witnesses *)

Fixpoint do_all (ls : list label) (w : Pool) : option (res Pool) :=
  match ls with
  | [] => Some (Ok w)
  | l :: ls => match do l w with Some (Ok w') => do_all ls w' | x => x end
  end.

Lemma do_all_steps ls w w' : do_all ls w = Some (Ok w') → rtc step w w'.
Proof.
  revert w. induction ls as [|l ls IH]; intros w; simpl; [by intros [= ->]|].
  destruct (do l w) as [[w1|]|] eqn:Hl; try done. intros H. eapply rtc_l; [by exists l|by apply IH].
Qed.

Definition pool_after (ls : list label) (w : Pool) : Pool :=
  match do_all ls w with Some (Ok w') => w' | _ => w end.

(** Three threads, the caller 100 among them. *)
Definition sample0 : Pool :=
  match Scheduler_new 3 100 true false with
  | Ok s => Pool_new (Start [101; 102] s).2 (thread_ids_ (Start [101; 102] s).2)
  | Err _ => Pool_new (mk_Scheduler [] [] [] 0 0 0 false false 0 false) []
  end.

Lemma sample0_started : started 3 100 true [101; 102] sample0.
Proof. do 2 eexists. split_and!; [reflexivity|vm_compute; reflexivity|reflexivity]. Qed.

(** Thread 0 runs fiber 7, which schedules a callback; thread 2 runs the task that is
    pinned to it; thread 1 runs the callback; then the pool stops. *)
Definition sample_labels : list label :=
  [LNewFiber 7; LSchedule (task_of_fiber (Some 7) (-1)); LSchedule (task_of_cb (Some 5%nat) 102);
   LTake 0; LResume 0; LTake 1; LIdle 1; LScheduleFrom 0 (task_of_cb (Some 6%nat) (-1));
   LTake 2; LResume 2; LTake 1; LMark 0 READY; LSwitch 0; LResume 1; LMark 2 TERM; LSwitch 2;
   LMark 1 TERM; LSwitch 1; LTake 0; LStop true; LIdle 0].

Definition sample : Pool := pool_after sample_labels sample0.

Lemma sample_steps : rtc step sample0 sample.
Proof. apply (do_all_steps sample_labels). by vm_compute. Qed.

Lemma take_task_first_witness : ∃ r rest tickle_me,
  take_task 101 (λ f, bool_decide (f = 7))
    [task_of_fiber (Some 7) (-1); task_of_cb (Some 5%nat) 102; task_of_cb (Some 6%nat) 101] =
    Ok (r, rest, tickle_me) ∧ r = Some (task_of_cb (Some 6%nat) 101).
Proof.
  destruct (take_task_first 101 (λ f, bool_decide (f = 7))
    [task_of_fiber (Some 7) (-1); task_of_cb (Some 5%nat) 102; task_of_cb (Some 6%nat) 101])
    as (r & rest & tk & H & _); [by repeat constructor|].
  exists r, rest, tk. split; [exact H|]. vm_compute in H. by injection H.
Defined.

Lemma tasks_conserved_witness : scheduled sample ≡ₚ (finished sample).*2 ∧
  (finished sample).*1 = [100; 102; 101].
Proof.
  destruct (tasks_conserved 3 100 true [101; 102] sample0 sample sample0_started sample_steps)
    as (H & _ & _ & _).
  split; [|by vm_compute]. exact H.
Defined.

Lemma stopping_final_witness : finished (pool_after [LTake 0; LTake 2; LIdle 2] sample) = finished sample.
Proof.
  apply (stopping_final 3 100 true [101; 102] sample0 sample
    (pool_after [LTake 0; LTake 2; LIdle 2] sample) sample0_started sample_steps).
  - by vm_compute.
  - assert (∀ l w w', (∀ t, l ≠ LSchedule t) → do l w = Some (Ok w') → internal w w') as Hint
      by (intros l w w' ??; by exists l).
    eapply rtc_l; [apply (Hint (LTake 0)); [done|by vm_compute]|].
    eapply rtc_l; [apply (Hint (LTake 2)); [done|by vm_compute]|].
    eapply rtc_l; [apply (Hint (LIdle 2)); [done|by vm_compute]|]. by vm_compute.
Defined.

Lemma stopping_exits_witness : ∃ w' p', do (LTake 0) sample = Some (Ok w') ∧
  pcs w' = <[0%nat := (100, p')]> (pcs sample) ∧ p' = PExit.
Proof.
  destruct (stopping_exits 3 100 true [101; 102] sample0 sample 0 100 (PLoop true)
    sample0_started sample_steps) as (l & w' & p' & -> & H1 & H2 & [H3 _] & H4);
    [by vm_compute|by vm_compute|done|].
  exists w', p'. split; [exact H1|]. split; [exact H2|]. apply H4. simpl in H3. lia.
Defined.

(** ** Behaviour at the edges *)

(** A fiber that is scheduled while it yields: [Yield] sets READY before it switches,
    so another thread can take the fiber and resume a context that is not saved
    yet. The test for RUNNING in the scan does not close this window. The same happens to
    the fiber of a callback that waits for an event, when the event comes in between. *)
Example resume_before_switch :
  do_all [LNewFiber 7; LSchedule (task_of_fiber (Some 7) (-1)); LTake 0; LResume 0;
          LSchedule (task_of_fiber (Some 7) (-1)); LMark 0 READY; LTake 1; LResume 1] sample0
  = Some (Err UndefinedBehaviour).
Proof. by vm_compute. Qed.

Example woken_before_switch :
  do_all [LSchedule (task_of_cb (Some 5%nat) (-1)); LTake 0; LResume 0; LShare 0 9;
          LSchedule (task_of_fiber (Some 9) (-1)); LMark 0 READY; LTake 1; LResume 1] sample0
  = Some (Err UndefinedBehaviour).
Proof. by vm_compute. Qed.

(** A fiber that is scheduled twice is resumed twice, which aborts. *)
Example scheduled_twice_aborts :
  do_all [LNewFiber 7; LSchedule (task_of_fiber (Some 7) (-1));
          LSchedule (task_of_fiber (Some 7) (-1)); LTake 0; LTake 1; LResume 0; LResume 1] sample0
  = Some (Err AssertFail).
Proof. by vm_compute. Qed.

(** A thread goes idle although the queue is not empty, when what is in it is pinned
    elsewhere; a task that is scheduled then, which the idle thread could run, wakes
    nobody, because the queue was not empty. *)
Example idle_not_woken :
  let w := pool_after [LSchedule (task_of_cb (Some 5%nat) 101); LTake 0] sample0 in
  pcs w !! 0%nat = Some (100, PIdle) ∧ HasIdleThreads (sched w) = true ∧
  (Schedule (task_of_cb (Some 6%nat) (-1)) (sched w)).1 = Ok false.
Proof. by vm_compute. Qed.

End Scheduler.
