(* ===== verification/FdManager.v ===== *)
(** * The table of file descriptors (net/fd_manager.h, net/fd_manager.cc)

    [Module FdManager]: what the hooks remember of a descriptor ([FdCtx]) and the
    table of them ([FdManager]). [fstat] and [fcntl] are the kernel's: what they
    answer is an argument. The contexts are shared, so they live on a heap and the
    table holds their addresses.

    Theorem [FdManager_refines]: [Get] and [Del] behave like look-up, creation and
    removal in a map from descriptors to contexts, however the vector grows.
    [Get_twice_two_contexts] shows the race between its two critical sections. *)

From S2P Require Import Prelude.

Module FdManager.

Local Open Scope Z_scope.

(** The Linux values of the constants the code uses. *)
Definition O_NONBLOCK : Z := 2048.
Definition SO_RCVTIMEO : Z := 20.
Definition SO_SNDTIMEO : Z := 21.

Record FdCtx := mk_FdCtx {
  is_init_ : bool;
  is_socket_ : bool;
  sys_nonblock_ : bool;
  user_nonblock_ : bool;
  is_closed_ : bool;
  fd_ : Z;
  recv_timeout_ : Z;
  send_timeout_ : Z
}.

#[export] Instance FdCtx_eq_dec : EqDecision FdCtx.
Proof. solve_decision. Defined.

(** What the kernel says of a descriptor: whether it is a socket when [fstat]
    succeeds, and its status flags. *)
Record kernel_fd := mk_kernel_fd {
  k_socket : option bool;
  k_flags : Z
}.

Definition set_user_nonblock_ (v : bool) (c : FdCtx) : FdCtx :=
  mk_FdCtx (is_init_ c) (is_socket_ c) (sys_nonblock_ c) v (is_closed_ c) (fd_ c)
    (recv_timeout_ c) (send_timeout_ c).
Definition set_sys_nonblock_ (v : bool) (c : FdCtx) : FdCtx :=
  mk_FdCtx (is_init_ c) (is_socket_ c) v (user_nonblock_ c) (is_closed_ c) (fd_ c)
    (recv_timeout_ c) (send_timeout_ c).

Definition IsInit (c : FdCtx) : bool := is_init_ c.
Definition IsSocket (c : FdCtx) : bool := is_socket_ c.
Definition IsClose (c : FdCtx) : bool := is_closed_ c.
Definition SetUserNonblock (v : bool) (c : FdCtx) : FdCtx := set_user_nonblock_ v c.
Definition GetUserNonblock (c : FdCtx) : bool := user_nonblock_ c.
Definition SetSysNonblock (v : bool) (c : FdCtx) : FdCtx := set_sys_nonblock_ v c.
Definition GetSysNonblock (c : FdCtx) : bool := sys_nonblock_ c.

(** [Init]: the result, the flags it leaves in the kernel, and the context. A
    timeout of -1 is the largest [uint64_t]. *)
Definition Init (k : kernel_fd) (c : FdCtx) : bool * Z * FdCtx :=
  if is_init_ c then (true, k_flags k, c)
  else
    let '(init, sock) := match k_socket k with
                         | None => (false, false)
                         | Some s => (true, s)
                         end in
    let flags := if sock
                 then (if decide (Z.land (k_flags k) O_NONBLOCK = 0)
                       then Z.lor (k_flags k) O_NONBLOCK else k_flags k)
                 else k_flags k in
    (init, flags, mk_FdCtx init sock sock false false (fd_ c) (2 ^ 64 - 1) (2 ^ 64 - 1)).

Definition FdCtx_new (k : kernel_fd) (fd : Z) : FdCtx :=
  (Init k (mk_FdCtx false false false false false fd (2 ^ 64 - 1) (2 ^ 64 - 1))).2.

Definition SetTimeout (type v : Z) (c : FdCtx) : FdCtx :=
  if decide (type = SO_RCVTIMEO)
  then mk_FdCtx (is_init_ c) (is_socket_ c) (sys_nonblock_ c) (user_nonblock_ c) (is_closed_ c)
         (fd_ c) v (send_timeout_ c)
  else mk_FdCtx (is_init_ c) (is_socket_ c) (sys_nonblock_ c) (user_nonblock_ c) (is_closed_ c)
         (fd_ c) (recv_timeout_ c) v.

Definition GetTimeout (type : Z) (c : FdCtx) : Z :=
  if decide (type = SO_RCVTIMEO) then recv_timeout_ c else send_timeout_ c.

(** ** The table *)

(** [datas_] holds null or the address of a context on [heap]. *)
Record FdManager := mk_FdManager {
  heap : gmap Z FdCtx;
  datas_ : list (option Z)
}.

Definition FdManager_new : FdManager := mk_FdManager ∅ (replicate 64 None).

(** [datas_[fd]], undefined outside the vector. *)
Definition at_ (fd : Z) (l : list (option Z)) : res (option Z) :=
  if decide (fd < 0) then Err UndefinedBehaviour
  else match l !! Z.to_nat fd with Some p => Ok p | None => Err UndefinedBehaviour end.

(** [std::vector::resize]. *)
Definition resize (n : nat) (l : list (option Z)) : list (option Z) :=
  take n l ++ replicate (n - length l) None.

(** The part of [Get] under the read lock: [Some] what it returns there, [None] to go
    on. *)
Definition Get_read (fd : Z) (auto_create : bool) : M FdManager (option (option Z)) :=
  if decide (fd = -1) then mret (Some None)
  else
    m ← mget;
    if decide (Z.of_nat (length (datas_ m)) ≤ fd) then
      mret (if auto_create then None else Some None)
    else
      p ← mlift (at_ fd (datas_ m));
      mret (if bool_decide (is_Some p) || negb auto_create then Some p else None).

(** The part under the write lock; [a] is the address of the new context. The size
    [fd * 1.5] is computed in double precision, exact for an [int], and truncated. *)
Definition Get_write (k : kernel_fd) (a fd : Z) : M FdManager (option Z) :=
  m ← mget;
  let l := if decide (Z.of_nat (length (datas_ m)) ≤ fd)
           then resize (Z.to_nat (fd * 3 / 2)) (datas_ m) else datas_ m in
  mlift (at_ fd l);;
  mput (mk_FdManager (<[a := FdCtx_new k fd]> (heap m)) (<[Z.to_nat fd := Some a]> l));;
  mret (Some a).

Definition Get (k : kernel_fd) (a fd : Z) (auto_create : bool) : M FdManager (option Z) :=
  r ← Get_read fd auto_create;
  match r with
  | Some p => mret p
  | None => Get_write k a fd
  end.

Definition Del (fd : Z) : M FdManager () :=
  m ← mget;
  if decide (Z.of_nat (length (datas_ m)) ≤ fd) then mret tt
  else
    mlift (at_ fd (datas_ m));;
    mput (mk_FdManager (heap m) (<[Z.to_nat fd := None]> (datas_ m))).

(** ** The map it implements *)

(** The context of a descriptor, if it has one. *)
Definition lookup_fd (m : FdManager) (fd : Z) : option Z := mjoin (datas_ m !! Z.to_nat fd).

Definition wf (m : FdManager) : Prop := (64 ≤ length (datas_ m))%nat.

Lemma table_wf_new : wf FdManager_new.
Proof. unfold wf. simpl. lia. Qed.

Lemma lookup_resize n l i : (length l ≤ n)%nat → mjoin (resize n l !! i) = mjoin (l !! i).
Proof.
  intros Hn. unfold resize. rewrite take_ge by done. destruct (decide (i < length l)%nat).
  - by rewrite lookup_app_l.
  - rewrite lookup_app_r, (lookup_ge_None_2 l) by lia.
    destruct (decide (i - length l < n - length l)%nat).
    + by rewrite lookup_replicate_2.
    + by rewrite lookup_ge_None_2 by (rewrite length_replicate; lia).
Qed.

Lemma resize_length n l : (length l ≤ n)%nat → length (resize n l) = n.
Proof. intros. unfold resize. rewrite length_app, length_replicate, take_ge by done. lia. Qed.

Lemma at_ok fd l p : 0 ≤ fd → l !! Z.to_nat fd = Some p → at_ fd l = Ok p.
Proof. intros Hfd Hp. unfold at_. rewrite decide_False by lia. by rewrite Hp. Qed.

Lemma at_inside fd l : 0 ≤ fd < Z.of_nat (length l) → ∃ p, l !! Z.to_nat fd = Some p ∧ at_ fd l = Ok p.
Proof.
  intros Hfd. destruct (lookup_lt_is_Some_2 l (Z.to_nat fd)) as [p Hp]; [lia|].
  exists p. split; [done|]. apply at_ok; [lia|done].
Qed.

(** What [Get] does in terms of the map. *)
Lemma Get_read_ok m fd b : 0 ≤ fd →
  Get_read fd b m = (Ok (match lookup_fd m fd with
                         | Some p => Some (Some p)
                         | None => if b then None else Some None
                         end), m).
Proof.
  intros Hfd. unfold Get_read, lookup_fd. rewrite decide_False by lia. mstep. case_decide as Hlen.
  - rewrite lookup_ge_None_2 by lia. by destruct b.
  - destruct (at_inside fd (datas_ m)) as (p & Hp & Ha); [lia|]. mstep. rewrite Ha, Hp.
    by destruct p as [p|], b.
Qed.

Lemma Get_write_ok m k a fd : wf m → 0 ≤ fd →
  ∃ m', Get_write k a fd m = (Ok (Some a), m') ∧ wf m' ∧
    heap m' = <[a := FdCtx_new k fd]> (heap m) ∧
    ∀ fd', 0 ≤ fd' → lookup_fd m' fd' = if decide (fd' = fd) then Some a else lookup_fd m fd'.
Proof.
  intros Hwf Hfd. unfold wf in Hwf. unfold Get_write. mstep.
  set (l := if decide _ then _ else _).
  assert ((length (datas_ m) ≤ length l)%nat ∧ fd < Z.of_nat (length l) ∧
    ∀ i, mjoin (l !! i) = mjoin (datas_ m !! i)) as (Hlen & Hin & Hl).
  { unfold l. case_decide; [|split_and!; [lia|lia|done]].
    assert (fd + fd / 2 ≤ fd * 3 / 2) by (rewrite <- Z.div_add_l by lia; apply Z.div_le_mono; lia).
    assert (32 ≤ fd / 2) by (apply Z.div_le_lower_bound; lia).
    rewrite resize_length by lia. split_and!; [lia|lia|]. intros i. apply lookup_resize. lia. }
  destruct (at_inside fd l) as (p & Hp & Ha); [lia|]. mstep. rewrite Ha.
  eexists. split; [reflexivity|]. split_and!; [unfold wf; simpl; rewrite length_insert; lia|done|].
  intros fd' Hfd'. unfold lookup_fd. simpl. case_decide as Heq.
  - subst fd'. rewrite list_lookup_insert_eq by lia. done.
  - rewrite list_lookup_insert_ne by lia. apply Hl.
Qed.

Lemma Del_ok m fd : wf m → 0 ≤ fd →
  ∃ m', Del fd m = (Ok tt, m') ∧ wf m' ∧ heap m' = heap m ∧
    ∀ fd', 0 ≤ fd' → lookup_fd m' fd' = if decide (fd' = fd) then None else lookup_fd m fd'.
Proof.
  intros Hwf Hfd. unfold Del. mstep. case_decide as Hlen.
  - exists m. split_and!; try done. intros fd' _. case_decide; [|done]. subst.
    unfold lookup_fd. by rewrite lookup_ge_None_2 by lia.
  - destruct (at_inside fd (datas_ m)) as (p & Hp & Ha); [lia|]. mstep. rewrite Ha.
    eexists. split; [reflexivity|]. unfold wf, lookup_fd. simpl.
    split_and!; [by rewrite length_insert|done|]. intros fd' Hfd'. case_decide as Heq.
    + subst fd'. rewrite list_lookup_insert_eq by lia. done.
    + by rewrite list_lookup_insert_ne by lia.
Qed.

(** ** Theorem *)

(** C33. The table is a map from descriptors to contexts. [Get] of a descriptor that
    has a context returns it and changes nothing; without one it returns null, or
    makes a context for the descriptor when told to and changes no other entry;
    [Del] removes the entry. The vector never needs an index it does not have, and
    descriptor -1 has no context. *)
Theorem FdManager_refines m k a fd b : wf m → -1 ≤ fd →
  (∃ p m', Get k a fd b m = (Ok p, m') ∧ wf m' ∧
    match (if decide (fd = -1) then None else lookup_fd m fd) with
    | Some q => p = Some q ∧ m' = m
    | None => if b && bool_decide (fd ≠ -1)
        then p = Some a ∧ heap m' !! a = Some (FdCtx_new k fd) ∧ fd_ (FdCtx_new k fd) = fd ∧
             ∀ fd', 0 ≤ fd' → lookup_fd m' fd' = if decide (fd' = fd) then Some a else lookup_fd m fd'
        else p = None ∧ m' = m
    end) ∧
  (0 ≤ fd → ∃ m', Del fd m = (Ok tt, m') ∧ wf m' ∧
    ∀ fd', 0 ≤ fd' → lookup_fd m' fd' = if decide (fd' = fd) then None else lookup_fd m fd').
Proof.
  intros Hwf Hfd. split.
  - unfold Get. case_decide as Hm1.
    + subst fd. exists None, m. unfold Get_read. rewrite decide_True by done.
      by rewrite bind_mret, (bool_decide_eq_false_2 (-1 ≠ -1)), andb_false_r by lia.
    + rewrite (bind_ok _ _ _ _ _ (Get_read_ok m fd b ltac:(lia))).
      rewrite (bool_decide_eq_true_2 (fd ≠ -1)), andb_true_r by done.
      destruct (lookup_fd m fd) as [q|]; [by exists (Some q), m|].
      destruct b; [|by exists None, m].
      destruct (Get_write_ok m k a fd Hwf ltac:(lia)) as (m' & Hw & Hwf' & Hh & Hl).
      exists (Some a), m'. rewrite Hw, Hh, lookup_insert_eq. split_and!; try done.
      unfold FdCtx_new, Init. by destruct (k_socket k).
  - intros H0. destruct (Del_ok m fd Hwf H0) as (m' & ? & ? & _ & ?). eauto.
Qed.

Lemma FdManager_refines_witness :
  ∃ m', Get (mk_kernel_fd (Some true) 2) 1000 200 true FdManager_new = (Ok (Some 1000), m') ∧
    lookup_fd m' 200 = Some 1000 ∧ lookup_fd m' 201 = None.
Proof.
  destruct (FdManager_refines FdManager_new (mk_kernel_fd (Some true) 2) 1000 200 true table_wf_new)
    as [(p & m' & Hg & _ & H) _]; [lia|].
  destruct H as (-> & _ & _ & Hl). exists m'. split; [exact Hg|].
  rewrite !Hl by lia. split; by vm_compute.
Defined.

(** ** Behaviour at the edges *)

(** A socket is made non-blocking and says so; anything else is left alone. *)
Example FdCtx_new_socket :
  Init (mk_kernel_fd (Some true) 2) (mk_FdCtx false false false false false 5 0 0) =
    (true, 2050, mk_FdCtx true true true false false 5 (2 ^ 64 - 1) (2 ^ 64 - 1)) ∧
  FdCtx_new (mk_kernel_fd (Some false) 2) 5 = mk_FdCtx true false false false false 5 (2 ^ 64 - 1) (2 ^ 64 - 1) ∧
  FdCtx_new (mk_kernel_fd None 0) 5 = mk_FdCtx false false false false false 5 (2 ^ 64 - 1) (2 ^ 64 - 1).
Proof. by vm_compute. Qed.

(** Two threads that create the context of one descriptor: both leave the read lock
    without one, and the second replaces the context the first already returned. *)
Example Get_twice_two_contexts :
  let k := mk_kernel_fd (Some true) 2 in
  (r1 ← Get_read 5 true; r2 ← Get_read 5 true; p1 ← Get_write k 1000 5; p2 ← Get_write k 1001 5;
   mret (r1, r2, p1, p2)) FdManager_new =
  (Ok (None, None, Some 1000, Some 1001),
   ((Get_write k 1000 5;; Get_write k 1001 5) FdManager_new).2).
Proof. by vm_compute. Qed.

End FdManager.
