(* ===== verification/FdTable.v ===== *)
(** * The table of file descriptors under several threads (net/fd_manager.cc)

    [Module FdTable]: threads call [Get] and [Del] of the one [FdManager]. [Get] locks
    twice: it looks under the read lock, and when it has to make a context it comes back
    under the write lock ([TWrite]); between the two other threads may do anything. [done]
    is the history: the calls in the order in which they returned, with their results.

    [calls_atomic]: no interleaving faults; and as long as no two threads make the context
    of the same descriptor at once, the calls are atomic: results and table are those of
    the calls made one after the other. [lost_context] shows that this is needed. Theorem
    [hooks_atomic]: the hooks (net/hook.cc) keep to it, since they make contexts only of
    descriptors that the kernel has just given to their thread. *)

From stdpp Require Import gmap sets.
From S2P Require Import Prelude FdManager.

Module FdTable.
Import FdManager(kernel_fd, mk_kernel_fd, FdManager_new, Get, Get_read, Get_write, Del, lookup_fd).

Local Open Scope Z_scope.

(** A call and its arguments; [a] is the address of the context it makes, if it does. *)
Inductive call :=
  | CGet (k : kernel_fd) (a fd : Z) (auto_create : bool)
  | CDel (fd : Z).

Record Threads := mkThreads {
  table : FdManager.FdManager;
  pending : gmap nat (kernel_fd * Z * Z);
  done : list (call * option Z)
}.

Definition Threads_new : Threads := mkThreads FdManager_new ∅ [].

(** Thread [i] begins a call, or comes back under the write lock. *)
Inductive label :=
  | TGet (i : nat) (k : kernel_fd) (a fd : Z) (auto_create : bool)
  | TWrite (i : nat)
  | TDel (i : nat) (fd : Z).

(** [None]: the step is not possible. *)
Definition step (l : label) (s : Threads) : option (res Threads) :=
  match l with
  | TGet i k a fd b =>
      match pending s !! i with
      | Some _ => None
      | None => Some (match Get_read fd b (table s) with
          | (Err e, _) => Err e
          | (Ok (Some p), m) => Ok (mkThreads m (pending s) (done s ++ [(CGet k a fd b, p)]))
          | (Ok None, m) => Ok (mkThreads m (<[i := (k, a, fd)]> (pending s)) (done s))
          end)
      end
  | TWrite i =>
      '(k, a, fd) ← pending s !! i;
      Some (match Get_write k a fd (table s) with
        | (Err e, _) => Err e
        | (Ok p, m) => Ok (mkThreads m (delete i (pending s)) (done s ++ [(CGet k a fd true, p)]))
        end)
  | TDel i fd =>
      match pending s !! i with
      | Some _ => None
      | None => Some (match Del fd (table s) with
          | (Err e, _) => Err e
          | (Ok _, m) => Ok (mkThreads m (pending s) (done s ++ [(CDel fd, None)]))
          end)
      end
  end.

Fixpoint run (ls : list label) (s : Threads) : res Threads :=
  match ls with
  | [] => Ok s
  | l :: ls => match step l s with
               | None => run ls s
               | Some (Ok s) => run ls s
               | Some (Err e) => Err e
               end
  end.

(** The same calls one after the other. *)
Definition seq_call (c : call) : M FdManager.FdManager (option Z) :=
  match c with
  | CGet k a fd b => Get k a fd b
  | CDel fd => Del fd;; mret None
  end.

Fixpoint seq_calls (cs : list call) : M FdManager.FdManager (list (option Z)) :=
  match cs with
  | [] => mret []
  | c :: cs => r ← seq_call c; rs ← seq_calls cs; mret (r :: rs)
  end.

(** The descriptors are those of [int] variables that hold one or -1; only [Get] is
    called with -1. *)
Definition fd_ok (l : label) : bool :=
  match l with
  | TGet _ _ _ fd _ => bool_decide (-1 ≤ fd)
  | TWrite _ => true
  | TDel _ fd => bool_decide (0 ≤ fd)
  end.

(** Nobody makes a context for [fd]. *)
Definition unclaimed (fd : Z) (s : Threads) : Prop := map_Forall (λ _ x, x.2 ≠ fd) (pending s).

#[export] Instance unclaimed_dec fd s : Decision (unclaimed fd s).
Proof. unfold unclaimed. apply _. Defined.

(** No two threads make the context of one descriptor at once. *)
Fixpoint disciplined (ls : list label) (s : Threads) : bool :=
  match ls with
  | [] => true
  | l :: ls =>
      match l with TGet _ _ _ fd true => bool_decide (unclaimed fd s) | _ => true end &&
      disciplined ls (match step l s with Some (Ok s) => s | _ => s end)
  end.

(** ** Lemmas *)

Record inv (s : Threads) : Prop := {
  n_wf : FdManager.wf (table s);
  n_fd i k a fd : pending s !! i = Some (k, a, fd) → 0 ≤ fd
}.

(** The calls that have returned are those of a sequential run, and who makes a context
    still has to. *)
Record atomic (s : Threads) : Prop := {
  n_seq : seq_calls (done s).*1 FdManager_new = (Ok (done s).*2, table s);
  n_none i k a fd : pending s !! i = Some (k, a, fd) → lookup_fd (table s) fd = None;
  n_one i j x y : pending s !! i = Some x → pending s !! j = Some y → i ≠ j → x.2 ≠ y.2
}.

Lemma seq_calls_app cs c m m1 m2 rs r : seq_calls cs m = (Ok rs, m1) → seq_call c m1 = (Ok r, m2) →
  seq_calls (cs ++ [c]) m = (Ok (rs ++ [r]), m2).
Proof.
  intros Hcs Hc. revert m rs Hcs. induction cs as [|d cs IH]; intros m rs; cbn [seq_calls app].
  - intros [= <- <-]. by rewrite (bind_ok _ _ _ _ _ Hc).
  - destruct (seq_call d m) as [[x|e] m0] eqn:Hd; [|by rewrite (bind_err _ _ _ _ _ Hd)].
    rewrite !(bind_ok _ _ _ _ _ Hd). destruct (seq_calls cs m0) as [[xs|e] m3] eqn:Hs; [|by rewrite (bind_err _ _ _ _ _ Hs)].
    rewrite (bind_ok _ _ _ _ _ Hs). intros [= <- <-]. by rewrite (bind_ok _ _ _ _ _ (IH _ _ Hs)).
Qed.

Lemma done_snoc s m c r p : atomic s → seq_call c (table s) = (Ok r, m) →
  (∀ i k a fd, p !! i = Some (k, a, fd) → lookup_fd m fd = None) →
  (∀ i j x y, p !! i = Some x → p !! j = Some y → i ≠ j → x.2 ≠ y.2) →
  atomic (mkThreads m p (done s ++ [(c, r)])).
Proof.
  intros [Hs _ _] Hc Hn Ho. constructor; [|exact Hn|exact Ho]. simpl. rewrite !fmap_app. by eapply seq_calls_app.
Qed.

(** The first section of [Get]. *)
Lemma read_cases fd b m : -1 ≤ fd →
  (∃ p, Get_read fd b m = (Ok (Some p), m)) ∨
  Get_read fd b m = (Ok None, m) ∧ 0 ≤ fd ∧ b = true ∧ lookup_fd m fd = None.
Proof.
  intros Hfd. destruct (decide (fd = -1)) as [->|Hne]; [left; by exists None|].
  rewrite FdManager.Get_read_ok by lia. destruct (lookup_fd m fd) as [p|]; [left; by exists (Some p)|].
  destruct b; [right|left; by exists None]. split_and!; [done|lia|done|done].
Qed.

Lemma get_step i k a fd b s : inv s → -1 ≤ fd → pending s !! i = None → ∃ s',
  step (TGet i k a fd b) s = Some (Ok s') ∧ inv s' ∧ table s' = table s ∧
  (pending s' = pending s ∨ b = true ∧ 0 ≤ fd ∧ pending s' = <[i := (k, a, fd)]> (pending s)) ∧
  (atomic s → (b = true → unclaimed fd s) → atomic s').
Proof.
  intros [Hwf Hfd] H0 Hi. cbn [step]. rewrite Hi.
  destruct (read_cases fd b (table s) H0) as [(p & Hr)|(Hr & Hp & -> & Hl)]; rewrite Hr; (eexists; split; [reflexivity|]).
  - split; [by constructor|]. split; [done|]. split; [by left|]. intros Ha _. apply done_snoc; [done| |apply Ha|apply Ha].
    cbn [seq_call]. unfold Get. by rewrite (bind_ok _ _ _ _ _ Hr).
  - split.
    + constructor; [done|]. simpl. intros j k' a' fd'. rewrite lookup_insert_Some. intros [[_ [= _ _ <-]]|[_ Hj]]; [done|by eapply Hfd].
    + split; [done|]. split; [by right|]. intros [Hs Hn Ho] Hu. specialize (Hu eq_refl). constructor; [done| |]; simpl.
      * intros j k' a' fd'. rewrite lookup_insert_Some. intros [[_ [= _ _ <-]]|[_ Hj]]; [done|by eapply Hn].
      * intros j1 j2 x y. rewrite !lookup_insert_Some. intros [[<- <-]|[H1 Hj1]] [[<- <-]|[H2 Hj2]] Hne; simpl; try done.
        -- intros Heq. by apply (Hu j2 y).
        -- by apply (Hu j1 x).
        -- by eapply Ho.
Qed.

Lemma write_step i k a fd s : inv s → pending s !! i = Some (k, a, fd) → ∃ s',
  step (TWrite i) s = Some (Ok s') ∧ inv s' ∧ pending s' = delete i (pending s) ∧
  (∀ fd', 0 ≤ fd' → lookup_fd (table s') fd' = if decide (fd' = fd) then Some a else lookup_fd (table s) fd') ∧
  (atomic s → atomic s').
Proof.
  intros [Hwf Hfd] Hi. cbn [step]. rewrite Hi. cbn [mbind option_bind].
  destruct (FdManager.Get_write_ok (table s) k a fd Hwf (Hfd _ _ _ _ Hi)) as (m & Hr & Hwf' & _ & Hl). rewrite Hr.
  eexists. split; [reflexivity|]. split.
  - constructor; [done|]. simpl. intros j k' a' fd' [_ Hj]%lookup_delete_Some. by eapply Hfd.
  - split; [done|]. split; [exact Hl|]. intros Ha. pose proof Ha as [_ Hn Ho]. apply done_snoc; [done| | |].
    + cbn [seq_call]. unfold Get. pose proof (FdManager.Get_read_ok (table s) fd true (Hfd _ _ _ _ Hi)) as Hg.
      rewrite (Hn _ _ _ _ Hi) in Hg. by rewrite (bind_ok _ _ _ _ _ Hg).
    + intros j k' a' fd' [Hne Hj]%lookup_delete_Some. rewrite Hl by (by eapply Hfd). rewrite decide_False; [by eapply Hn|].
      intros ->. by apply (Ho i j _ _ Hi Hj).
    + intros j1 j2 x y [_ H1]%lookup_delete_Some [_ H2]%lookup_delete_Some. by apply Ho.
Qed.

Lemma del_step i fd s : inv s → 0 ≤ fd → pending s !! i = None → ∃ s',
  step (TDel i fd) s = Some (Ok s') ∧ inv s' ∧ pending s' = pending s ∧
  (∀ fd', 0 ≤ fd' → lookup_fd (table s') fd' = if decide (fd' = fd) then None else lookup_fd (table s) fd') ∧
  (atomic s → atomic s').
Proof.
  intros [Hwf Hfd] H0 Hi. cbn [step]. rewrite Hi. destruct (FdManager.Del_ok (table s) fd Hwf H0) as (m & Hr & Hwf' & _ & Hl).
  rewrite Hr. eexists. split; [reflexivity|]. split; [by constructor|]. split; [done|]. split; [exact Hl|].
  intros Ha. apply done_snoc; [done| | |apply Ha].
  - cbn [seq_call]. by rewrite (bind_ok _ _ _ _ _ Hr).
  - intros j k a fd' Hj. rewrite Hl by (by eapply Hfd). case_decide; [done|by eapply n_none].
Qed.

Lemma threads_run_ok ls : ∀ s, inv s → forallb fd_ok ls = true → ∃ s', run ls s = Ok s' ∧ inv s' ∧
  (atomic s → disciplined ls s = true → atomic s').
Proof.
  induction ls as [|l ls IH]; intros s Hs Hls; cbn [run]; [by exists s|].
  simpl in Hls. apply andb_true_iff in Hls as [Hl Hls].
  assert (step l s = None ∨ ∃ s1, step l s = Some (Ok s1) ∧ inv s1 ∧
    (atomic s → match l with TGet _ _ _ fd true => bool_decide (unclaimed fd s) | _ => true end = true → atomic s1))
    as [Hn|(s1 & Hr & Hs1 & Ha)].
  { destruct l as [i k a fd b|i|i fd]; simpl in Hl; rewrite ?bool_decide_eq_true in Hl.
    - destruct (pending s !! i) eqn:Hi; [left; simpl; by rewrite Hi|right].
      destruct (get_step i k a fd b s Hs Hl Hi) as (s1 & ? & ? & _ & _ & Ha). exists s1. split_and!; [done..|].
      intros Hat Hd. apply Ha; [done|]. intros ->. by apply bool_decide_eq_true in Hd.
    - destruct (pending s !! i) as [[[k a] fd]|] eqn:Hi; [right|left; simpl; by rewrite Hi].
      destruct (write_step i k a fd s Hs Hi) as (s1 & ? & ? & _ & _ & Ha). exists s1. split_and!; [done..|]. intros Hat _. by apply Ha.
    - destruct (pending s !! i) eqn:Hi; [left; simpl; by rewrite Hi|right].
      destruct (del_step i fd s Hs Hl Hi) as (s1 & ? & ? & _ & _ & Ha). exists s1. split_and!; [done..|]. intros Hat _. by apply Ha. }
  - rewrite Hn. destruct (IH s Hs Hls) as (s' & ? & ? & Ha). exists s'. split; [done|]. split; [done|].
    intros Hat. cbn [disciplined]. rewrite Hn. intros [_ ?]%andb_true_iff. by apply Ha.
  - rewrite Hr. destruct (IH s1 Hs1 Hls) as (s' & ? & ? & Ha'). exists s'. split; [done|]. split; [done|].
    intros Hat. cbn [disciplined]. rewrite Hr. intros [? ?]%andb_true_iff. by apply Ha'; [apply Ha|].
Qed.

Lemma threads_new : inv Threads_new ∧ atomic Threads_new.
Proof.
  split; constructor; [apply FdManager.table_wf_new| |reflexivity| |].
  - intros i k a fd Hi. simpl in Hi. by apply lookup_empty_Some in Hi.
  - intros i k a fd Hi. simpl in Hi. by apply lookup_empty_Some in Hi.
  - intros i j x y Hi. simpl in Hi. by apply lookup_empty_Some in Hi.
Qed.

(** The table under several threads. Whatever the threads call and however the two
    sections of [Get] of one come between the sections of the others, no call faults. And
    if no two of them make the context of the same descriptor at once, every call is
    atomic, at the moment it returns: made one after the other in that order, the same
    calls have the same results and leave the same table. *)
Theorem calls_atomic ls : forallb fd_ok ls = true → ∃ s, run ls Threads_new = Ok s ∧
  (disciplined ls Threads_new = true → seq_calls (done s).*1 FdManager_new = (Ok (done s).*2, table s)).
Proof.
  intros Hls. destruct threads_new as [Hi Ha]. destruct (threads_run_ok ls Threads_new Hi Hls) as (s & Hr & _ & Hs).
  exists s. split; [exact Hr|]. intros Hd. by apply Hs.
Qed.

(** ** The calls that the hooks make *)

(** The descriptors that are open, and who is in [close]: of which descriptor, and whether
    its context is still to be removed. *)
Record Hooks := mkHooks {
  threads : Threads;
  opened : gset Z;
  closing : gmap nat (Z * bool)
}.

Definition Hooks_new (o : gset Z) : Hooks := mkHooks Threads_new o ∅.

(** [socket] and [accept] ([HOpen], [HBack]): the kernel gives a number that is not open,
    and the hook makes its context. [close] ([HClose], [HDel], [HClosed]): the hook looks
    for the context, removes it, and then closes. [HGet] is every other hooked call. *)
Inductive hlabel :=
  | HOpen (i : nat) (k : kernel_fd) (a fd : Z)
  | HBack (i : nat)
  | HGet (i : nat) (k : kernel_fd) (fd : Z)
  | HClose (i : nat) (k : kernel_fd) (fd : Z)
  | HDel (i : nat)
  | HClosed (i : nat).

(** A step of the table, and what is open and being closed afterwards. *)
Definition on_table (l : label) (o : gset Z) (c : gmap nat (Z * bool)) (h : Hooks) : option (res Hooks) :=
  match step l (threads h) with
  | None => None
  | Some (Err e) => Some (Err e)
  | Some (Ok s) => Some (Ok (mkHooks s o c))
  end.

(** Nobody closes [fd]. *)
Definition kept (fd : Z) (h : Hooks) : Prop := map_Forall (λ _ x, x.1 ≠ fd) (closing h).

#[export] Instance kept_dec fd h : Decision (kept fd h).
Proof. unfold kept. apply _. Defined.

(** A thread closes a descriptor that is open and that a call has given to the program,
    and no two threads close the same one. *)
Definition hstep (l : hlabel) (h : Hooks) : option (res Hooks) :=
  match l with
  | HOpen i k a fd =>
      if decide (closing h !! i = None ∧ 0 ≤ fd ∧ fd ∉ opened h) then
        on_table (TGet i k a fd true) ({[fd]} ∪ opened h) (closing h) h
      else None
  | HBack i => on_table (TWrite i) (opened h) (closing h) h
  | HGet i k fd =>
      if decide (closing h !! i = None ∧ -1 ≤ fd) then on_table (TGet i k 0 fd false) (opened h) (closing h) h else None
  | HClose i k fd =>
      if decide (closing h !! i = None ∧ 0 ≤ fd ∧ fd ∈ opened h ∧ unclaimed fd (threads h) ∧ kept fd h) then
        on_table (TGet i k 0 fd false) (opened h)
          (<[i := (fd, bool_decide (is_Some (lookup_fd (table (threads h)) fd)))]> (closing h)) h
      else None
  | HDel i =>
      match closing h !! i with
      | Some (fd, true) => on_table (TDel i fd) (opened h) (<[i := (fd, false)]> (closing h)) h
      | _ => None
      end
  | HClosed i =>
      match closing h !! i with
      | Some (fd, false) => Some (Ok (mkHooks (threads h) (opened h ∖ {[fd]}) (delete i (closing h))))
      | _ => None
      end
  end.

Fixpoint hrun (ls : list hlabel) (h : Hooks) : res Hooks :=
  match ls with
  | [] => Ok h
  | l :: ls => match hstep l h with
               | None => hrun ls h
               | Some (Ok h) => hrun ls h
               | Some (Err e) => Err e
               end
  end.

Record hinv (h : Hooks) : Prop := {
  h_inv : inv (threads h);
  h_atomic : atomic (threads h);
  h_pending i k a fd : pending (threads h) !! i = Some (k, a, fd) → fd ∈ opened h ∧ kept fd h;
  h_closing i fd b : closing h !! i = Some (fd, b) → 0 ≤ fd ∧ fd ∈ opened h ∧
    (b = false → lookup_fd (table (threads h)) fd = None) ∧ ∀ j b', closing h !! j = Some (fd, b') → j = i;
  h_table fd p : 0 ≤ fd → lookup_fd (table (threads h)) fd = Some p → fd ∈ opened h
}.

Lemma lookup_new fd : lookup_fd FdManager_new fd = None.
Proof.
  unfold lookup_fd, FdManager_new. cbn [FdManager.datas_]. destruct (decide (Z.to_nat fd < 64)%nat).
  - by rewrite lookup_replicate_2.
  - by rewrite lookup_ge_None_2 by (rewrite length_replicate; lia).
Qed.

Lemma hinv_new o : hinv (Hooks_new o).
Proof.
  destruct threads_new as [Hi Ha]. constructor; [exact Hi|exact Ha|..]; cbn [threads closing Hooks_new].
  - intros i k a fd H. simpl in H. by apply lookup_empty_Some in H.
  - intros i fd b H. simpl in H. by apply lookup_empty_Some in H.
  - intros fd p _. cbn [table Threads_new]. by rewrite lookup_new.
Qed.

Lemma kept_no h i fd b : kept fd h → closing h !! i = Some (fd, b) → False.
Proof. intros Hk Hi. by apply (Hk i (fd, b) Hi). Qed.

Lemma open_step i k a fd h h' : hinv h → hstep (HOpen i k a fd) h = Some h' → ∃ h1, h' = Ok h1 ∧ hinv h1.
Proof.
  intros [Hi Ha Hp Hc Ht]. cbn [hstep]. case_decide as Hg; [|done]. destruct Hg as (_ & H0 & Hfd).
  unfold on_table. destruct (pending (threads h) !! i) as [x|] eqn:Hpi; [simpl; by rewrite Hpi|].
  destruct (get_step i k a fd true (threads h) Hi ltac:(lia) Hpi) as (s' & -> & Hi' & Htb & Hpe & Ha'). intros [= <-].
  assert (unclaimed fd (threads h)) as Hu by (intros j [[k' a'] fd'] Hj ?; simplify_eq/=; by destruct (Hp _ _ _ _ Hj)).
  eexists. split; [reflexivity|]. constructor; simpl; [done|by apply Ha'| |rewrite Htb|rewrite Htb].
  - intros j k' a' fd' Hj. assert (pending (threads h) !! j = Some (k', a', fd') ∨ fd' = fd) as [Hold| ->].
    { destruct Hpe as [Hpe|(_ & _ & Hpe)]; rewrite Hpe in Hj; [by left|].
      apply lookup_insert_Some in Hj as [[_ [= _ _ ->]]|[_ ?]]; auto. }
    + destruct (Hp _ _ _ _ Hold). split; [set_solver|done].
    + split; [set_solver|]. intros l [fd' b] Hl. simpl. intros ->. by destruct (Hc _ _ _ Hl) as (_ & ? & _).
  - intros j fd' b Hj. destruct (Hc _ _ _ Hj) as (? & ? & ? & ?). split_and!; [done|set_solver|done|done].
  - intros fd' p Hfd' Hl. pose proof (Ht _ _ Hfd' Hl). set_solver.
Qed.

Lemma back_step i h h' : hinv h → hstep (HBack i) h = Some h' → ∃ h1, h' = Ok h1 ∧ hinv h1.
Proof.
  intros [Hi Ha Hp Hc Ht]. cbn [hstep]. unfold on_table.
  destruct (pending (threads h) !! i) as [[[k a] fd]|] eqn:Hpi; [|simpl; by rewrite Hpi].
  destruct (write_step i k a fd (threads h) Hi Hpi) as (s' & -> & Hi' & Hpe & Hl & Ha'). intros [= <-].
  destruct (Hp _ _ _ _ Hpi) as [Hfd Hk]. eexists. split; [reflexivity|]. constructor; simpl; [done|by apply Ha'| | |].
  - intros j k' a' fd'. rewrite Hpe. intros [_ Hj]%lookup_delete_Some. by eapply Hp.
  - intros j fd' b Hj. destruct (Hc _ _ _ Hj) as (H0 & ? & Hn & ?). split_and!; try done. intros Hb. rewrite Hl by done.
    rewrite decide_False; [by apply Hn|]. intros ->. by apply (kept_no h j fd b).
  - intros fd' p H0. rewrite Hl by done. case_decide as He; [by subst|]. by apply Ht.
Qed.

(** A look-up changes nothing. *)
Lemma look_step i k fd c h h' : hinv h → -1 ≤ fd → on_table (TGet i k 0 fd false) (opened h) c h = Some h' →
  ∃ s', h' = Ok (mkHooks s' (opened h) c) ∧ inv s' ∧ atomic s' ∧ table s' = table (threads h) ∧ pending s' = pending (threads h).
Proof.
  intros [Hi Ha _ _ _] Hfd. unfold on_table. destruct (pending (threads h) !! i) as [x|] eqn:Hpi; [simpl; by rewrite Hpi|].
  destruct (get_step i k 0 fd false (threads h) Hi Hfd Hpi) as (s' & -> & Hi' & Htb & Hpe & Ha'). intros [= <-].
  exists s'. split_and!; [done|done|by apply Ha'|done|]. by destruct Hpe as [?|[? _]].
Qed.

Lemma close_step i k fd h h' : hinv h → hstep (HClose i k fd) h = Some h' → ∃ h1, h' = Ok h1 ∧ hinv h1.
Proof.
  intros Hh. cbn [hstep]. case_decide as Hg; [|done]. destruct Hg as (Hci & H0 & Hfd & Hu & Hk). intros Hr.
  destruct (look_step i k fd _ _ _ Hh ltac:(lia) Hr) as (s' & -> & Hi' & Ha' & Htb & Hpe). destruct Hh as [Hi Ha Hp Hc Ht].
  eexists. split; [reflexivity|]. constructor; simpl; [done|done| |rewrite Htb|by rewrite Htb].
  - intros j k' a' fd'. rewrite Hpe. intros Hj. destruct (Hp _ _ _ _ Hj) as [? Hk']. split; [done|].
    intros l [g b] Hl. simpl in *. apply lookup_insert_Some in Hl as [[_ [= <- _]]|[_ Hl]]; [|by apply (Hk' l (g, b))].
    intros ->. by apply (Hu j (k', a', fd')).
  - intros j g b. rewrite lookup_insert_Some. intros [[<- [= <- <-]]|[Hne Hj]].
    + split_and!; [done|done|by intros ?%bool_decide_eq_false%eq_None_not_Some|].
      intros l b'. rewrite lookup_insert_Some. intros [[<- _]|[_ Hl]]; [done|]. by destruct (kept_no h l fd b').
    + destruct (Hc _ _ _ Hj) as (? & ? & ? & Hone). split_and!; [done..|]. intros l b'.
      rewrite lookup_insert_Some. intros [[_ [= <- _]]|[_ Hl]]; [by destruct (kept_no h j fd b)|by eapply Hone].
Qed.

Lemma del_hstep i h h' : hinv h → hstep (HDel i) h = Some h' → ∃ h1, h' = Ok h1 ∧ hinv h1.
Proof.
  intros [Hi Ha Hp Hc Ht]. cbn [hstep]. destruct (closing h !! i) as [[fd []]|] eqn:Hci; [|done..].
  destruct (Hc _ _ _ Hci) as (H0 & Hfd & _ & Hone). unfold on_table.
  destruct (pending (threads h) !! i) as [x|] eqn:Hpi; [simpl; by rewrite Hpi|].
  destruct (del_step i fd (threads h) Hi H0 Hpi) as (s' & -> & Hi' & Hpe & Hl & Ha'). intros [= <-].
  eexists. split; [reflexivity|]. constructor; simpl; [done|by apply Ha'| | |].
  - intros j k' a' fd'. rewrite Hpe. intros Hj. destruct (Hp _ _ _ _ Hj) as [? Hk]. split; [done|].
    intros l [g b] Hg. simpl in *. apply lookup_insert_Some in Hg as [[<- [= <- _]]|[_ Hg]]; [by apply (Hk i (fd, true))|by apply (Hk l (g, b))].
  - intros j g b. rewrite lookup_insert_Some. intros [[<- [= <- <-]]|[Hne Hj]].
    + split_and!; [done|done|intros _; by rewrite Hl, decide_True by done|].
      intros l b'. rewrite lookup_insert_Some. intros [[<- _]|[_ ?]]; [done|by eapply Hone].
    + destruct (Hc _ _ _ Hj) as (Hg0 & ? & Hn & Hone'). split_and!; [done..| |].
      * intros Hb. rewrite Hl by done. case_decide; [done|by apply Hn].
      * intros l b'. rewrite lookup_insert_Some. intros [[<- [= <- _]]|[_ ?]]; [by apply (Hone' i true)|by eapply Hone'].
  - intros g p Hg. rewrite Hl by done. case_decide; [done|by apply Ht].
Qed.

Lemma closed_step i h h' : hinv h → hstep (HClosed i) h = Some h' → ∃ h1, h' = Ok h1 ∧ hinv h1.
Proof.
  intros [Hi Ha Hp Hc Ht]. cbn [hstep]. destruct (closing h !! i) as [[fd []]|] eqn:Hci; [done| |done]. intros [= <-].
  destruct (Hc _ _ _ Hci) as (H0 & Hfd & Hn & Hone). eexists. split; [reflexivity|]. constructor; simpl; [done|done| | |].
  - intros j k' a' fd' Hj. destruct (Hp _ _ _ _ Hj) as [? Hk]. split.
    + assert (fd' ≠ fd); [|set_solver]. intros ->. by apply (kept_no h i fd false).
    + intros l x Hl. simpl in Hl. apply lookup_delete_Some in Hl as [_ Hl]. by apply (Hk l).
  - intros j g b [Hne Hj]%lookup_delete_Some. destruct (Hc _ _ _ Hj) as (? & ? & ? & Hone'). split_and!; [done| |done|].
    + assert (g ≠ fd); [|set_solver]. intros ->. by apply Hne, (Hone' i false).
    + intros l b' [_ Hl]%lookup_delete_Some. by eapply Hone'.
  - intros g p Hg Hl. pose proof (Ht _ _ Hg Hl). assert (g ≠ fd); [|set_solver]. intros ->. by rewrite Hn in Hl.
Qed.

Lemma hstep_ok l h h' : hinv h → hstep l h = Some h' → ∃ h1, h' = Ok h1 ∧ hinv h1.
Proof.
  intros Hh. destruct l as [i k a fd|i|i k fd|i k fd|i|i];
    [by apply open_step|by apply back_step| |by apply close_step|by apply del_hstep|by apply closed_step].
  cbn [hstep]. case_decide as Hg; [|done]. intros Hr.
  destruct (look_step _ _ _ _ _ _ Hh (proj2 Hg) Hr) as (s' & -> & Hi' & Ha' & Htb & Hpe).
  destruct Hh as [Hi Ha Hp Hc Ht]. eexists. split; [reflexivity|].
  constructor; simpl; rewrite ?Htb, ?Hpe; done.
Qed.

(** C32. Threads that open, use and close descriptors with the hooked calls, interleaved in
    any way at the locks of the table and at the system calls, never race for a context: no
    call of the table faults, each is atomic at the moment it returns, with the result it
    has in the sequential run of the same calls, and the table has contexts only of
    descriptors that are open, so that a number which the kernel gives again never finds
    the context of its last life. *)
Theorem hooks_atomic ls o : ∃ h, hrun ls (Hooks_new o) = Ok h ∧
  seq_calls (done (threads h)).*1 FdManager_new = (Ok (done (threads h)).*2, table (threads h)) ∧
  ∀ fd p, 0 ≤ fd → lookup_fd (table (threads h)) fd = Some p → fd ∈ opened h.
Proof.
  assert (∀ h, hinv h → ∃ h', hrun ls h = Ok h' ∧ hinv h') as Hrun.
  { induction ls as [|l ls IH]; intros h Hh; cbn [hrun]; [by exists h|].
    destruct (hstep l h) as [r|] eqn:Hr; [|by apply IH]. destruct (hstep_ok l h r Hh Hr) as (h1 & -> & Hh1). by apply IH. }
  destruct (Hrun _ (hinv_new o)) as (h & Hr & Hh). exists h. split; [exact Hr|]. split; [apply Hh|apply (h_table _ Hh)].
Qed.

(** ** Witness *)

(** Between the sections of thread 0 others look for its descriptor 70, remove it, and make
    another one, which makes the vector longer. *)
Definition two_threads : list label :=
  let k := mk_kernel_fd (Some true) 2 in
  [TGet 0 k 1000 70 true; TGet 1 k 0 70 false; TDel 1 70; TGet 1 k 1001 90 true; TWrite 1; TWrite 0;
   TGet 1 k 0 70 false; TGet 0 k 1002 90 true; TDel 0 90; TGet 1 k 0 90 false].

Lemma calls_atomic_witness : ∃ s, run two_threads Threads_new = Ok s ∧
  seq_calls (done s).*1 FdManager_new = (Ok (done s).*2, table s) ∧
  (done s).*2 = [None; None; Some 1001; Some 1000; Some 1000; Some 1001; None; None].
Proof.
  destruct (calls_atomic two_threads) as (s & Hr & Hs); [vm_compute; reflexivity|].
  exists s. split; [exact Hr|]. split; [apply Hs; vm_compute; reflexivity|].
  assert (s = match run two_threads Threads_new with Ok s => s | Err _ => s end) as -> by (by rewrite Hr).
  vm_compute. reflexivity.
Defined.

(** Descriptor 5 is closed by thread 0 and given to thread 1, whose context it then has;
    thread 2 looks while it has none. *)
Definition reuse : list hlabel :=
  let k := mk_kernel_fd (Some true) 2 in
  [HOpen 0 k 1000 5; HBack 0; HGet 2 k 5; HClose 0 k 5; HDel 0; HOpen 1 k 1001 5; HGet 2 k 5; HClosed 0;
   HOpen 1 k 1001 5; HBack 1; HGet 2 k 5].

Example reused : match hrun reuse (Hooks_new {[0; 1; 2]}) with
  | Ok h => ((done (threads h)).*2, bool_decide (opened h = {[0; 1; 2; 5]}))
  | Err _ => ([], false)
  end = ([Some 1000; Some 1000; Some 1000; None; None; Some 1001; Some 1001], true).
Proof. vm_compute. reflexivity. Qed.

(** ** Behaviour at the edges *)

(** Two threads make the context of descriptor 5: both get one, and the first one's is not
    in the table; in no order of atomic calls would both [Get]s return a new context. *)
Definition two_makers : list label :=
  let k := mk_kernel_fd (Some true) 2 in
  [TGet 0 k 1000 5 true; TGet 1 k 1001 5 true; TWrite 0; TWrite 1].

Definition results (ls : list label) : res (list (option Z) * option Z) :=
  match run ls Threads_new with Ok s => Ok ((done s).*2, lookup_fd (table s) 5) | Err e => Err e end.

Example lost_context :
  results two_makers = Ok ([Some 1000; Some 1001], Some 1001) ∧
  (seq_calls [CGet (mk_kernel_fd (Some true) 2) 1000 5 true; CGet (mk_kernel_fd (Some true) 2) 1001 5 true] FdManager_new).1 =
    Ok [Some 1000; Some 1000] ∧
  (seq_calls [CGet (mk_kernel_fd (Some true) 2) 1001 5 true; CGet (mk_kernel_fd (Some true) 2) 1000 5 true] FdManager_new).1 =
    Ok [Some 1001; Some 1001].
Proof. by vm_compute. Qed.

End FdTable.
