(* ===== verification/IOManager.v ===== *)
(** * The IO scheduler (net/iomanager.h, net/iomanager.cc)

    [Module IOManager]: the contexts of the descriptors, the operations that add,
    delete, cancel and trigger events, and one turn of [Idle]. The timers and the
    task queue it inherits are those of Timer.v and Scheduler.v; here it keeps what
    it hands to a scheduler. The kernel is epoll as documented: a table from
    descriptors to the interest registered, which refuses to add what is there and
    to change what is not ([epoll_ctl]), and may refuse for other reasons
    ([accept]).

    Theorems: for any sequence of calls that are made as they should ([legal]: no event is
    added twice, reports are not stale), one after the other, no assertion fails, the
    counter of pending events is the number of callbacks registered, the kernel's
    interest is the registered one, and every callback added is either still
    registered, or deleted, or was handed to its scheduler exactly once
    ([events_conserved]); an event that occurs wakes exactly the callbacks that
    wait for it and re-arms the rest ([handle_event_exact]); a failing [epoll_ctl]
    registers, drops and wakes nothing ([failed_ctl_unchanged]); [Stopping] is right
    ([IO_Stopping_exact]); and each wait of [Idle] is bounded by the next timer and by
    five seconds, when a timer is less than 2^31 ms away ([idle_wait_bounds]). *)

From S2P Require Import Prelude Scheduler Timer.
#[local] Existing Instance Scheduler.ScheduleTask_eq_dec.

Module IOManager.

Local Open Scope Z_scope.

(** ** Data *)

Definition NONE : Z := 0.
Definition READ : Z := 1.
Definition WRITE : Z := 4.

(** The Linux values of the epoll constants. *)
Definition EPOLLIN : Z := 1.
Definition EPOLLOUT : Z := 4.
Definition EPOLLERR : Z := 8.
Definition EPOLLHUP : Z := 16.
Definition EPOLLET : Z := 2147483648.
Inductive ctl := EPOLL_CTL_ADD | EPOLL_CTL_MOD | EPOLL_CTL_DEL.

Record EventContext := mk_EventContext {
  scheduler : option Z;
  fiber : option Z;
  cb : option nat
}.

#[export] Instance EventContext_eq_dec : EqDecision EventContext.
Proof. solve_decision. Defined.

Definition no_context : EventContext := mk_EventContext None None None.

Record FdContext := mk_FdContext {
  read : EventContext;
  write : EventContext;
  fd : Z;
  events : Z
}.

#[export] Instance FdContext_eq_dec : EqDecision FdContext.
Proof. solve_decision. Defined.

Definition set_read (c : EventContext) (f : FdContext) : FdContext :=
  mk_FdContext c (write f) (fd f) (events f).
Definition set_write (c : EventContext) (f : FdContext) : FdContext :=
  mk_FdContext (read f) c (fd f) (events f).
Definition set_events (e : Z) (f : FdContext) : FdContext :=
  mk_FdContext (read f) (write f) (fd f) e.

(** The contexts live on [heap], [fd_contexts_] holds their addresses and [fresh] is
    the next address; [epoll] is the kernel's table: the events of interest and the
    pointer registered with them. [woken] lists what was handed to which scheduler;
    [added] and [deleted] record the history. *)
Record IOManager := mk_IOManager {
  heap : gmap Z FdContext;
  fresh : Z;
  fd_contexts_ : list Z;
  pending_event_count_ : Z;
  epoll : gmap Z (Z * Z);
  woken : list (Z * Scheduler.ScheduleTask);
  added : list (Z * Scheduler.ScheduleTask);
  deleted : list (Z * Scheduler.ScheduleTask)
}.

Definition set_heap (h : gmap Z FdContext) (m : IOManager) : IOManager :=
  mk_IOManager h (fresh m) (fd_contexts_ m) (pending_event_count_ m) (epoll m) (woken m)
    (added m) (deleted m).
Definition set_pending (n : Z) (m : IOManager) : IOManager :=
  mk_IOManager (heap m) (fresh m) (fd_contexts_ m) n (epoll m) (woken m) (added m) (deleted m).
Definition set_epoll (e : gmap Z (Z * Z)) (m : IOManager) : IOManager :=
  mk_IOManager (heap m) (fresh m) (fd_contexts_ m) (pending_event_count_ m) e (woken m)
    (added m) (deleted m).
Definition set_woken (l : list (Z * Scheduler.ScheduleTask)) (m : IOManager) : IOManager :=
  mk_IOManager (heap m) (fresh m) (fd_contexts_ m) (pending_event_count_ m) (epoll m) l
    (added m) (deleted m).
Definition set_history (a d : list (Z * Scheduler.ScheduleTask)) (m : IOManager) : IOManager :=
  mk_IOManager (heap m) (fresh m) (fd_contexts_ m) (pending_event_count_ m) (epoll m) (woken m) a d.

(** ** The kernel *)

(** [epoll_ctl(epfd_, op, fd, &epevent)]: 0, or -1 with [errno]. *)
Definition epoll_ctl (accept : bool) (op : ctl) (fd evs ptr : Z) : M IOManager Z :=
  m ← mget;
  match op, epoll m !! fd with
  | EPOLL_CTL_ADD, None | EPOLL_CTL_MOD, Some _ =>
      if accept then mput (set_epoll (<[fd := (evs, ptr)]> (epoll m)) m);; mret 0 else mret (-1)
  | EPOLL_CTL_DEL, Some _ =>
      if accept then mput (set_epoll (delete fd (epoll m)) m);; mret 0 else mret (-1)
  | _, _ => mret (-1)
  end.

(** ** Contexts *)

Definition deref (p : Z) : M IOManager FdContext :=
  m ← mget;
  match heap m !! p with Some c => mret c | None => mthrow UndefinedBehaviour end.

Definition update (p : Z) (g : FdContext → FdContext) : M IOManager () :=
  mmodify (λ m, set_heap (alter g p (heap m)) m).

(** [GetEventContext]: which of the two fields an event names. *)
Inductive which := Read | Write.

Definition GetEventContext (event : Z) : res which :=
  if decide (event = READ) then Ok Read
  else if decide (event = WRITE) then Ok Write
  else Err AssertFail.

Definition ctx_of (w : which) (c : FdContext) : EventContext :=
  match w with Read => read c | Write => write c end.
Definition set_ctx (w : which) (x : EventContext) : FdContext → FdContext :=
  match w with Read => set_read x | Write => set_write x end.

Definition ResetEventContext (w : which) : FdContext → FdContext := set_ctx w no_context.

(** The task an event context stands for. *)
Definition ctx_task (x : EventContext) : Scheduler.ScheduleTask :=
  match cb x with
  | Some _ => Scheduler.task_of_cb (cb x) (-1)
  | None => Scheduler.task_of_fiber (fiber x) (-1)
  end.

Definition TriggerEvent (p event : Z) : M IOManager () :=
  c ← deref p;
  massert (bool_decide (Z.land (events c) event ≠ 0));;
  update p (set_events (Z.land (events c) (Z.lnot event)));;
  w ← mlift (GetEventContext event);
  let x := ctx_of w c in
  match scheduler x with
  | None => mthrow UndefinedBehaviour
  | Some s => mmodify (λ m, set_woken (woken m ++ [(s, ctx_task x)]) m)
  end;;
  update p (ResetEventContext w).

(** ** The table of contexts *)

(** The loop of [ContextResize] over the entries that are null, from index [i]. *)
Fixpoint new_contexts (n : nat) (i next : Z) (h : gmap Z FdContext) : list Z * gmap Z FdContext :=
  match n with
  | O => ([], h)
  | S n =>
      let '(l, h') := new_contexts n (i + 1) (next + 1) (<[next := mk_FdContext no_context no_context i NONE]> h) in
      (next :: l, h')
  end.

(** The entries that a smaller size drops are not freed. *)
Definition ContextResize (size : Z) : M IOManager () :=
  m ← mget;
  let old := length (fd_contexts_ m) in
  let n := Z.to_nat size in
  let '(l, h) := new_contexts (n - old) (Z.of_nat old) (fresh m) (heap m) in
  mput (mk_IOManager h (fresh m + Z.of_nat (n - old)) (take n (fd_contexts_ m) ++ l)
    (pending_event_count_ m) (epoll m) (woken m) (added m) (deleted m)).

(** [fd_contexts_[fd]], undefined outside the vector. *)
Definition context_at (fd : Z) : M IOManager Z :=
  m ← mget;
  if decide (fd < 0) then mthrow UndefinedBehaviour
  else match fd_contexts_ m !! Z.to_nat fd with
       | Some p => mret p
       | None => mthrow UndefinedBehaviour
       end.

(** The constructor after the pipe is registered: 32 contexts. *)
Definition IOManager_new : IOManager :=
  (ContextResize 32 (mk_IOManager ∅ 1 [] 0 ∅ [] [] [])).2.

(** ** Operations on events *)

(** The first part of [AddEvent], under the lock of the table. *)
Definition AddEvent_context (fd : Z) : M IOManager Z :=
  m ← mget;
  if decide (fd < Z.of_nat (length (fd_contexts_ m))) then context_at fd
  else
    ContextResize (fd * 3 / 2);;
    context_at fd.

(** What is registered for an event. *)
Definition registration (w : which) (c : FdContext) : option (Z * Scheduler.ScheduleTask) :=
  let x := ctx_of w c in (., ctx_task x) <$> scheduler x.

(** The second part, under the lock of the descriptor. [sch] is
    [Scheduler::GetThis()], [cur] the current fiber and whether it is RUNNING. *)
Definition AddEvent_register (accept : bool) (sch : option Z) (cur : Z * bool) (p fd event : Z)
    (callback : option nat) : M IOManager Z :=
  c ← deref p;
  massert (bool_decide (Z.land (events c) event = 0));;
  let op := if decide (events c = 0) then EPOLL_CTL_ADD else EPOLL_CTL_MOD in
  rt ← epoll_ctl accept op fd (Z.lor (Z.lor EPOLLET (events c)) event) p;
  if decide (rt = 0) then
    mmodify (λ m, set_pending (pending_event_count_ m + 1) m);;
    update p (set_events (Z.lor (events c) event));;
    w ← mlift (GetEventContext event);
    massert (bool_decide (ctx_of w c = no_context));;
    let x := match callback with
             | Some f => mk_EventContext sch None (Some f)
             | None => mk_EventContext sch (Some cur.1) None
             end in
    update p (set_ctx w x);;
    mmodify (λ m, set_history (added m ++ option_list ((., ctx_task x) <$> sch)) (deleted m) m);;
    massert (bool_decide (is_Some callback) || cur.2);;
    mret 0
  else mret (-1).

Definition AddEvent (accept : bool) (sch : option Z) (cur : Z * bool) (fd event : Z)
    (callback : option nat) : M IOManager Z :=
  p ← AddEvent_context fd;
  AddEvent_register accept sch cur p fd event callback.

Definition DelEvent (accept : bool) (fd event : Z) : M IOManager bool :=
  m ← mget;
  if decide (Z.of_nat (length (fd_contexts_ m)) ≤ fd) then mret false
  else
    p ← context_at fd;
    c ← deref p;
    if decide (Z.land (events c) event = 0) then mret false
    else
      let new_events := Z.land (events c) (Z.lnot event) in
      let op := if decide (new_events = 0) then EPOLL_CTL_DEL else EPOLL_CTL_MOD in
      rt ← epoll_ctl accept op fd (Z.lor EPOLLET new_events) p;
      if decide (rt = 0) then
        mmodify (λ m, set_pending (pending_event_count_ m - 1) m);;
        update p (set_events new_events);;
        w ← mlift (GetEventContext event);
        mmodify (λ m, set_history (added m) (deleted m ++ option_list (registration w c)) m);;
        update p (ResetEventContext w);;
        mret true
      else mret false.

Definition CancelEvent (accept : bool) (fd event : Z) : M IOManager bool :=
  m ← mget;
  if decide (Z.of_nat (length (fd_contexts_ m)) ≤ fd) then mret false
  else
    p ← context_at fd;
    c ← deref p;
    if decide (Z.land (events c) event = 0) then mret false
    else
      let new_events := Z.land (events c) (Z.lnot event) in
      let op := if decide (new_events = 0) then EPOLL_CTL_DEL else EPOLL_CTL_MOD in
      rt ← epoll_ctl accept op fd (Z.lor EPOLLET new_events) p;
      if decide (rt = 0) then
        TriggerEvent p event;;
        mmodify (λ m, set_pending (pending_event_count_ m - 1) m);;
        mret true
      else mret false.

(** [if (mask & event) { TriggerEvent(event); --pending_event_count_; }]. *)
Definition trigger_if (mask p event : Z) : M IOManager () :=
  if decide (Z.land mask event = 0) then mret tt
  else
    TriggerEvent p event;;
    mmodify (λ m, set_pending (pending_event_count_ m - 1) m).

Definition CancelAll (accept : bool) (fd : Z) : M IOManager bool :=
  m ← mget;
  if decide (Z.of_nat (length (fd_contexts_ m)) ≤ fd) then mret false
  else
    p ← context_at fd;
    c ← deref p;
    if decide (events c = 0) then mret false
    else
      rt ← epoll_ctl accept EPOLL_CTL_DEL fd 0 p;
      if decide (rt = 0) then
        trigger_if (events c) p READ;;
        c ← deref p;
        trigger_if (events c) p WRITE;;
        c ← deref p;
        massert (bool_decide (events c = 0));;
        mret true
      else mret false.

(** ** Idle *)

(** The events of one report that concern a descriptor. *)
Definition real_events (reported registered : Z) : Z :=
  let e := if decide (Z.land reported (Z.lor EPOLLERR EPOLLHUP) = 0) then reported
           else Z.lor reported (Z.land (Z.lor EPOLLIN EPOLLOUT) registered) in
  Z.lor (if decide (Z.land e EPOLLIN = 0) then NONE else READ)
        (if decide (Z.land e EPOLLOUT = 0) then NONE else WRITE).

(** The body of the loop over what [epoll_wait] reports, for one descriptor. *)
Definition handle_event (accept : bool) (p reported : Z) : M IOManager () :=
  c ← deref p;
  let real := real_events reported (events c) in
  if decide (Z.land (events c) real = NONE) then mret tt
  else
    let left_events := Z.land (events c) (Z.lnot real) in
    let op := if decide (left_events = 0) then EPOLL_CTL_DEL else EPOLL_CTL_MOD in
    rt2 ← epoll_ctl accept op (fd c) (Z.lor EPOLLET left_events) p;
    if decide (rt2 = 0) then
      trigger_if real p READ;;
      trigger_if real p WRITE
    else mret tt.

(** What a turn of the loop around [epoll_wait] makes of [next_timeout], at first the
    interval to the next timer; and the timeout it then gives to [epoll_wait], an [int]. *)
Definition clamp_timeout (next_timeout : Z) : Z :=
  if decide (next_timeout ≠ 2 ^ 64 - 1) then u64(Z.min i32(next_timeout) 5000) else 5000.

Definition epoll_timeout (next_timeout : Z) : Z := i32(clamp_timeout next_timeout).

(** The loop, by what each [epoll_wait] answers; [None] is -1 with [EINTR], after which it
    goes round. The result is the timeouts given, and the last answer; [None] when
    [epoll_wait] has not returned. *)
Fixpoint epoll_waits {A} (answers : list (option A)) (next_timeout : Z) : option (list Z * A) :=
  match answers with
  | [] => None
  | a :: answers =>
      let next_timeout' := clamp_timeout next_timeout in
      match a with
      | Some rt => Some ([i32(next_timeout')], rt)
      | None => '(ts, rt) ← epoll_waits answers next_timeout'; Some (i32(next_timeout') :: ts, rt)
      end
  end.

(** [Tickle]: the bytes written to the pipe. *)
Definition Tickle (s : Scheduler.Scheduler) : nat := if Scheduler.HasIdleThreads s then 1 else 0.

(** [Stopping(timeout)]: the answer and the interval to the next timer. *)
Definition Stopping (now : Z) (m : IOManager) (s : Scheduler.Scheduler) :
    M Timer.TimerManager (bool * Z) :=
  timeout ← Timer.GetNextTimer now;
  mret (bool_decide (timeout = 2 ^ 64 - 1) && bool_decide (pending_event_count_ m = 0) &&
        Scheduler.Stopping s, timeout).

(** The callbacks of the expired timers are scheduled on this scheduler. *)
Fixpoint schedule_expired (cbs : list (option nat)) : M Scheduler.Scheduler () :=
  match cbs with
  | [] => mret tt
  | f :: cbs => Scheduler.Schedule (Scheduler.task_of_cb f (-1));; schedule_expired cbs
  end.

(** What [epoll_wait] returned, in order: [None] is the pipe of [Tickle], which is
    emptied; another event comes with its pointer and whether [epoll_ctl] accepts
    what follows. *)
Fixpoint handle_all (evs : list (option (bool * Z * Z))) : M IOManager () :=
  match evs with
  | [] => mret tt
  | None :: evs => handle_all evs
  | Some (accept, p, reported) :: evs => handle_event accept p reported;; handle_all evs
  end.

(** One turn of the loop of [Idle]: whether it goes on, after its [Yield], and the three
    parts of the object. [now] is the time before [epoll_wait] and [now'] after it;
    [answers] is what it answers each time, with no events when it fails; [OutOfFuel] says
    that it has not returned; [name] gives the number a timer's callback has as a task. *)
Definition Idle_turn (now now' a : Z) (name : Timer.callback → nat)
    (answers : list (option (list (option (bool * Z * Z)))))
    (m : IOManager) (t : Timer.TimerManager) (s : Scheduler.Scheduler) :
    res (bool * IOManager * Timer.TimerManager * Scheduler.Scheduler) :=
  match Stopping now m s t with
  | (Err e, _) => Err e
  | (Ok (true, _), t) => Ok (false, m, t, s)
  | (Ok (false, next_timeout), t) =>
      match epoll_waits answers next_timeout with
      | None => Err OutOfFuel
      | Some (_, evs) =>
          match Timer.ListExpiredCb now' a [] t with
          | (Err e, _) => Err e
          | (Ok cbs, t) =>
              match schedule_expired (fmap (M := option) name <$> cbs) s, handle_all evs m with
              | (Ok _, s), (Ok _, m) => Ok (true, m, t, s)
              | (Err e, _), _ | _, (Err e, _) => Err e
              end
          end
      end
  end.

(** ** Event masks *)

(** The mask of a set of events. *)
Definition mask (r w : bool) : Z := (if r then READ else 0) + (if w then WRITE else 0).

Definition event_of (w : which) : Z := match w with Read => READ | Write => WRITE end.

(** Is something registered for the event? *)
Definition waits (w : which) (c : FdContext) : bool := bool_decide (is_Some (scheduler (ctx_of w c))).

Lemma GetEventContext_of w : GetEventContext (event_of w) = Ok w.
Proof. by destruct w; vm_compute. Qed.

Lemma mask_land r w e : Z.land (mask r w) (event_of e) =
  if (match e with Read => r | Write => w end) then event_of e else 0.
Proof. by destruct r, w, e; vm_compute. Qed.

Lemma mask_without r w e : Z.land (mask r w) (Z.lnot (event_of e)) =
  match e with Read => mask false w | Write => mask r false end.
Proof. by destruct r, w, e; vm_compute. Qed.

Lemma mask_with r w e : Z.lor (mask r w) (event_of e) =
  match e with Read => mask true w | Write => mask r true end.
Proof. by destruct r, w, e; vm_compute. Qed.

Lemma mask_0 r w : mask r w = 0 ↔ r = false ∧ w = false.
Proof. destruct r, w; vm_compute; naive_solver. Qed.

(** A context in order: its mask names the events that are registered, and nothing
    is left of the others. *)
Record ctx_ok (c : FdContext) : Prop := {
  ok_mask : events c = mask (waits Read c) (waits Write c);
  ok_clear w : waits w c = false → ctx_of w c = no_context
}.

(** What a context holds. *)
Definition reg_of (c : FdContext) : list (Z * Scheduler.ScheduleTask) :=
  option_list (registration Read c) ++ option_list (registration Write c).

Definition regs (h : gmap Z FdContext) : list (Z * Scheduler.ScheduleTask) :=
  map_to_list h ≫= λ pc, reg_of pc.2.

Lemma regs_fresh h p c : h !! p = None → regs (<[p := c]> h) ≡ₚ reg_of c ++ regs h.
Proof. intros Hp. unfold regs. by rewrite map_to_list_insert. Qed.

Lemma regs_change h p c : h !! p = Some c → ∃ rest, regs h ≡ₚ reg_of c ++ rest ∧
  ∀ c', regs (<[p := c']> h) ≡ₚ reg_of c' ++ rest.
Proof.
  intros Hp. exists (regs (delete p h)). split.
  - rewrite <- regs_fresh by apply lookup_delete_eq. by rewrite insert_delete_id.
  - intros c'. rewrite <- regs_fresh by apply lookup_delete_eq. by rewrite insert_delete_eq.
Qed.

(** [delete fd_contexts_[i]] for every context, which [~IOManager] ends with; an address
    that is not allocated any more is freed twice. *)
Definition delete_context (p : Z) : M IOManager () :=
  deref p;;
  mmodify (λ m, set_heap (delete p (heap m)) m).

Fixpoint delete_contexts (ps : list Z) : M IOManager () :=
  match ps with
  | [] => mret tt
  | p :: ps => delete_context p;; delete_contexts ps
  end.

(** The destructor after [Stop] and the closing of its three descriptors. *)
Definition destroy : M IOManager () :=
  m ← mget;
  delete_contexts (fd_contexts_ m).

(** ** The invariant *)

(** What the kernel has for a context. *)
Definition interest (p : Z) (c : FdContext) : option (Z * Z) :=
  if decide (events c = 0) then None else Some (Z.lor EPOLLET (events c), p).

Record wf (m : IOManager) : Prop := {
  wf_table i p : fd_contexts_ m !! i = Some p → ∃ c, heap m !! p = Some c ∧ fd c = Z.of_nat i;
  wf_heap p c : heap m !! p = Some c → ctx_ok c ∧ p < fresh m ∧ 0 ≤ fd c ∧
    fd_contexts_ m !! Z.to_nat (fd c) = Some p;
  wf_epoll p c : heap m !! p = Some c → epoll m !! fd c = interest p c;
  wf_epoll_only f e : epoll m !! f = Some e → ∃ p c, heap m !! p = Some c ∧ fd c = f;
  wf_pending : pending_event_count_ m = Z.of_nat (length (regs (heap m)));
  wf_history : added m ≡ₚ regs (heap m) ++ deleted m ++ woken m;
  wf_size : (32 ≤ length (fd_contexts_ m))%nat
}.

(** One context changes, and the counter, the kernel and the history with it. *)
Lemma change_wf m p c c' n wk ad de :
  wf m → heap m !! p = Some c → ctx_ok c' → fd c' = fd c →
  n = pending_event_count_ m + Z.of_nat (length (reg_of c')) - Z.of_nat (length (reg_of c)) →
  ad ++ reg_of c ++ deleted m ++ woken m ≡ₚ added m ++ reg_of c' ++ de ++ wk →
  wf (mk_IOManager (<[p := c']> (heap m)) (fresh m) (fd_contexts_ m) n
    (partial_alter (λ _, interest p c') (fd c) (epoll m)) wk ad de).
Proof.
  intros [Ht Hh He Heo Hp Hhist Hsz] Hc Hok Hfd Hn Hx.
  destruct (regs_change _ _ _ Hc) as (rest & Hr & Hr').
  assert (∀ q d, q ≠ p → heap m !! q = Some d → fd d ≠ fd c) as Hfds.
  { intros q d Hq Hd Heq. destruct (Hh _ _ Hc) as (_ & _ & _ & Hp1).
    destruct (Hh _ _ Hd) as (_ & _ & _ & Hp2). rewrite Heq in Hp2. congruence. }
  split; simpl.
  - intros i q Hi. destruct (Ht i q Hi) as (d & Hd & Hfdd). destruct (decide (q = p)) as [->|Hne].
    + exists c'. rewrite lookup_insert_eq. split; [done|]. simplify_eq. congruence.
    + exists d. by rewrite lookup_insert_ne.
  - intros q d. rewrite lookup_insert_Some. intros [[<- <-]|[Hne Hd]]; [|by apply Hh].
    destruct (Hh _ _ Hc) as (_ & ? & ? & ?). rewrite Hfd. done.
  - intros q d. rewrite lookup_insert_Some. intros [[<- <-]|[Hne Hd]].
    + by rewrite Hfd, lookup_partial_alter_eq.
    + rewrite lookup_partial_alter_ne; [by apply He|]. intros Heq. by eapply Hfds.
  - intros f e. destruct (decide (f = fd c)) as [->|Hne].
    + intros _. exists p, c'. by rewrite lookup_insert_eq.
    + rewrite lookup_partial_alter_ne by done. intros Hf. destruct (Heo f e Hf) as (q & d & Hd & Hfdd).
      destruct (decide (q = p)) as [->|Hqp]; [exfalso; simplify_eq; done|].
      exists q, d. by rewrite lookup_insert_ne.
  - rewrite (Permutation_length (Hr' c')), length_app. rewrite (Permutation_length Hr), length_app in Hp. lia.
  - specialize (Hr' c').
    perm_count.
  - done.
Qed.

(** ** Growing the table *)

Lemma new_contexts_ok n : ∀ i next h l h',
  (∀ q c, h !! q = Some c → q < next) → new_contexts n i next h = (l, h') →
  l = seqZ next (Z.of_nat n) ∧ regs h' ≡ₚ regs h ∧
  ∀ q, h' !! q = if decide (next ≤ q < next + Z.of_nat n)
                 then Some (mk_FdContext no_context no_context (i + (q - next)) NONE) else h !! q.
Proof.
  induction n as [|n IH]; intros i next h l h' Hh; simpl.
  - intros [= <- <-]. split_and!; [done..|]. intros q. by rewrite decide_False by lia.
  - destruct (new_contexts n (i + 1) (next + 1) _) as [l1 h1] eqn:E. intros [= <- <-].
    assert (h !! next = None) as Hnext.
    { destruct (h !! next) as [c|] eqn:Hc; [|done]. specialize (Hh _ _ Hc). lia. }
    apply IH in E as (-> & Hr & Hl); last first.
    { intros q c. rewrite lookup_insert_Some. intros [[<- _]|[_ Hq]]; [lia|].
      specialize (Hh _ _ Hq). lia. }
    split_and!.
    + rewrite (seqZ_cons next) by lia. f_equal. f_equal; lia.
    + rewrite Hr, regs_fresh by done. done.
    + intros q. rewrite Hl. destruct (decide (q = next)) as [->|Hne].
      * rewrite decide_False, decide_True, lookup_insert_eq by lia. do 2 f_equal. lia.
      * rewrite lookup_insert_ne by done.
        destruct (decide (next + 1 ≤ q < next + 1 + Z.of_nat n)).
        -- rewrite decide_True by lia. do 2 f_equal. lia.
        -- by rewrite decide_False by lia.
Qed.

Lemma lookup_seqZ_inv next n i p : seqZ next (Z.of_nat n) !! i = Some p → p = next + Z.of_nat i ∧ (i < n)%nat.
Proof. intros [-> ?]%lookup_seqZ. split; [done|lia]. Qed.

(** What growing the table keeps and makes. *)
Record grown (m m' : IOManager) : Prop := {
  grown_heap p c : heap m !! p = Some c → heap m' !! p = Some c;
  grown_table i p : fd_contexts_ m !! i = Some p → fd_contexts_ m' !! i = Some p;
  grown_new i : (length (fd_contexts_ m) ≤ i < length (fd_contexts_ m'))%nat →
    ∃ p, fd_contexts_ m' !! i = Some p ∧
      heap m' !! p = Some (mk_FdContext no_context no_context (Z.of_nat i) NONE)
}.

Lemma fresh_above m : wf m → ∀ q c, heap m !! q = Some c → q < fresh m.
Proof. intros Hwf q c Hq. apply (wf_heap _ Hwf _ _ Hq). Qed.

(** The new contexts, one for each new index. *)
Lemma resized_table m n h l : wf m → (length (fd_contexts_ m) ≤ n)%nat →
  new_contexts (n - length (fd_contexts_ m)) (Z.of_nat (length (fd_contexts_ m))) (fresh m) (heap m) = (l, h) →
  (∀ q c, heap m !! q = Some c → h !! q = Some c) ∧
  ∀ i, (length (fd_contexts_ m) ≤ i < n)%nat →
    (fd_contexts_ m ++ l) !! i = Some (fresh m + Z.of_nat (i - length (fd_contexts_ m))) ∧
    h !! (fresh m + Z.of_nat (i - length (fd_contexts_ m))) = Some (mk_FdContext no_context no_context (Z.of_nat i) NONE).
Proof.
  intros Hwf Hn E. destruct (new_contexts_ok _ _ _ _ _ _ (fresh_above m Hwf) E) as (-> & _ & Hh). split.
  - intros q c Hq. rewrite Hh, decide_False; [done|]. pose proof (fresh_above _ Hwf _ _ Hq). lia.
  - intros i Hi. split.
    + rewrite lookup_app_r by lia. apply lookup_seqZ. split; [done|lia].
    + rewrite Hh, decide_True by lia. do 2 f_equal. lia.
Qed.

Lemma ContextResize_wf m size : wf m → Z.of_nat (length (fd_contexts_ m)) ≤ size →
  ∃ m', ContextResize size m = (Ok tt, m') ∧ wf m' ∧ grown m m' ∧
    length (fd_contexts_ m') = Z.to_nat size ∧ woken m' = woken m ∧ added m' = added m ∧
    deleted m' = deleted m.
Proof.
  intros Hwf Hsize. unfold ContextResize. mstep.
  set (old := length (fd_contexts_ m)) in *. set (n := Z.to_nat size).
  destruct (new_contexts (n - old) (Z.of_nat old) (fresh m) (heap m)) as [l h] eqn:E.
  destruct (new_contexts_ok _ _ _ _ _ _ (fresh_above m Hwf) E) as (Hl & Hr & Hh).
  rewrite (take_ge (fd_contexts_ m) n) by (subst n; lia). subst l.
  destruct (resized_table m n h _ Hwf ltac:(lia) E) as [Hkeep Hnew]. fold old in Hnew.
  eexists. split; [reflexivity|]. split_and!; simpl; try done.
  - destruct Hwf as [Ht Hhp He Heo Hp Hhist Hsz]. split; simpl.
    + intros i p Hi. destruct (decide (i < old)%nat) as [Hlt|Hge].
      * rewrite lookup_app_l in Hi by done. destruct (Ht i p Hi) as (c & Hc & ?). eauto.
      * rewrite lookup_app_r in Hi by (fold old; lia). apply lookup_seqZ_inv in Hi as [-> Hi].
        fold old in Hi |- *. exists (mk_FdContext no_context no_context (Z.of_nat i) NONE).
        split; [apply Hnew; lia|done].
    + intros q c. rewrite Hh. case_decide as Hq.
      * intros [= <-]. simpl. split_and!; [by split; [|intros []]|lia|lia|].
        replace (Z.to_nat (Z.of_nat old + (q - fresh m))) with (old + Z.to_nat (q - fresh m))%nat by lia.
        destruct (Hnew (old + Z.to_nat (q - fresh m))%nat) as [-> _]; [lia|]. f_equal. lia.
      * intros Hc. destruct (Hhp _ _ Hc) as (? & ? & ? & Hi). split_and!; [done|lia|done|].
        apply lookup_app_l_Some. done.
    + intros q c. rewrite Hh. case_decide as Hq; [|by apply He].
      intros [= <-]. simpl. unfold interest. simpl.
      destruct (epoll m !! _) as [e|] eqn:Ee; [|done]. exfalso.
      destruct (Heo _ _ Ee) as (q' & c & Hc & Hf). destruct (Hhp _ _ Hc) as (_ & _ & _ & Hi).
      apply lookup_lt_Some in Hi. fold old in Hi. lia.
    + intros f e Hf. destruct (Heo f e Hf) as (q & c & Hc & ?). eauto.
    + by rewrite (Permutation_length Hr).
    + by rewrite Hr.
    + rewrite length_app. fold old. lia.
  - split; simpl; [done| |].
    + intros i p Hi. apply lookup_app_l_Some. done.
    + intros i Hi. rewrite length_app, length_seqZ in Hi. fold old in Hi.
      exists (fresh m + Z.of_nat (i - old)). apply Hnew. lia.
  - rewrite length_app, length_seqZ. fold old. lia.
Qed.

Lemma wf_resized n : (32 ≤ n)%nat →
  wf (ContextResize (Z.of_nat n) (mk_IOManager ∅ 1 [] 0 ∅ [] [] [])).2.
Proof.
  intros Hn. unfold ContextResize. mstep. simpl. rewrite Nat2Z.id, take_nil, Nat.sub_0_r.
  change (Z.of_nat 0) with 0.
  destruct (new_contexts n 0 1 ∅) as [l h] eqn:E.
  assert (∀ q c, (∅ : gmap Z FdContext) !! q = Some c → q < 1) as H0
    by (intros q c; by rewrite lookup_empty).
  destruct (new_contexts_ok _ _ _ _ _ _ H0 E) as (-> & Hr & Hh). split; simpl.
  - intros i p [-> Hi]%lookup_seqZ_inv. rewrite Hh, decide_True by lia.
    eexists. split; [done|]. simpl. lia.
  - intros q c. rewrite Hh. case_decide as Hq; [|done]. intros [= <-]. simpl.
    split_and!; [by split; [|intros []]|lia|lia|]. apply lookup_seqZ. lia.
  - intros q c. rewrite Hh. case_decide; [|done]. by intros [= <-].
  - done.
  - by rewrite (Permutation_length Hr).
  - by rewrite Hr.
  - rewrite length_seqZ. lia.
Qed.

Lemma wf_start : wf IOManager_new.
Proof. apply (wf_resized 32). done. Qed.

(** ** One step of each operation *)

Lemma io_deref_ok m p c : heap m !! p = Some c → deref p m = (Ok c, m).
Proof. intros H. unfold deref. mstep. by rewrite H. Qed.

Lemma io_update_ok m p c g : heap m !! p = Some c →
  update p g m = (Ok tt, set_heap (<[p := g c]> (heap m)) m).
Proof.
  intros H. unfold update, mmodify. do 2 f_equal. apply map_eq. intros i.
  destruct (decide (i = p)) as [->|Hne].
  - by rewrite lookup_alter_eq, H, lookup_insert_eq.
  - by rewrite lookup_alter_ne, lookup_insert_ne.
Qed.

(** The kernel does what the switch from [c] to [c'] needs, or refuses. *)
Lemma epoll_ctl_ok accept m p c c' op evs : epoll m !! fd c = interest p c →
  op = (if decide (events c' = 0) then EPOLL_CTL_DEL
        else if decide (events c = 0) then EPOLL_CTL_ADD else EPOLL_CTL_MOD) →
  (events c = 0 → events c' ≠ 0) → (events c' ≠ 0 → evs = Z.lor EPOLLET (events c')) →
  epoll_ctl accept op (fd c) evs p m =
    if accept then (Ok 0, set_epoll (partial_alter (λ _, interest p c') (fd c) (epoll m)) m)
    else (Ok (-1), m).
Proof.
  intros He -> Hch Hev. unfold epoll_ctl. mstep. rewrite He. unfold interest.
  repeat case_decide; try tauto; destruct accept; try done; unfold mput; rewrite bind_unfold;
    by rewrite ?Hev.
Qed.

(** The context with an event taken out. *)
Definition dropped (w : which) (c : FdContext) : FdContext :=
  set_ctx w no_context (set_events (Z.land (events c) (Z.lnot (event_of w))) c).

Lemma dropped_fd w c : fd (dropped w c) = fd c.
Proof. by destruct w. Qed.

Lemma dropped_events w c : events (dropped w c) = Z.land (events c) (Z.lnot (event_of w)).
Proof. by destruct w. Qed.

Lemma waits_dropped w w' c : waits w' (dropped w c) =
  match w, w' with Read, Read | Write, Write => false | _, _ => waits w' c end.
Proof. by destruct w, w'. Qed.

Lemma dropped_ok w c : ctx_ok c → ctx_ok (dropped w c).
Proof.
  intros [Hm Hc]. split.
  - rewrite dropped_events, Hm, mask_without, !waits_dropped. by destruct w.
  - intros w'. rewrite waits_dropped. specialize (Hc w'). by destruct w, w'.
Qed.

Lemma waits_event w c : ctx_ok c → waits w c = bool_decide (Z.land (events c) (event_of w) ≠ 0).
Proof.
  intros [-> _]. rewrite mask_land. symmetry. destruct w; [destruct (waits Read c)|destruct (waits Write c)];
    by vm_compute.
Qed.

Lemma waits_registration w c : waits w c = true → ∃ s, scheduler (ctx_of w c) = Some s ∧
  registration w c = Some (s, ctx_task (ctx_of w c)).
Proof.
  unfold waits, registration. intros [s Hs]%bool_decide_eq_true. exists s. by rewrite Hs.
Qed.

Lemma not_waits_registration w c : waits w c = false → registration w c = None.
Proof.
  unfold waits, registration. intros H%bool_decide_eq_false.
  destruct (scheduler (ctx_of w c)); [by destruct H; eauto|done].
Qed.

Lemma reg_dropped w c : reg_of c ≡ₚ option_list (registration w c) ++ reg_of (dropped w c).
Proof.
  unfold reg_of. destruct w; simpl; [done|]. rewrite app_nil_r. by rewrite (comm (++)).
Qed.

Lemma TriggerEvent_ok m p c w : heap m !! p = Some c → ctx_ok c → waits w c = true →
  TriggerEvent p (event_of w) m = (Ok tt,
    set_woken (woken m ++ option_list (registration w c)) (set_heap (<[p := dropped w c]> (heap m)) m)).
Proof.
  intros Hc Hok Hw. destruct (waits_registration _ _ Hw) as (s & Hs & Hr).
  unfold TriggerEvent. rewrite (bind_ok _ _ _ _ _ (io_deref_ok _ _ _ Hc)).
  rewrite bind_massert by (by rewrite <- waits_event).
  rewrite (bind_ok _ _ _ _ _ (io_update_ok _ _ _ _ Hc)). mstep.
  rewrite GetEventContext_of. rewrite Hs. mstep.
  erewrite io_update_ok; [|simpl; apply lookup_insert_eq]. rewrite Hr.
  unfold set_woken, set_heap. simpl. by rewrite insert_insert_eq.
Qed.

(** The way to the context of a descriptor. *)
Definition context_of (m : IOManager) (f p : Z) (c : FdContext) : Prop :=
  0 ≤ f ∧ fd_contexts_ m !! Z.to_nat f = Some p ∧ heap m !! p = Some c ∧ fd c = f.

Lemma context_exists m f : wf m → 0 ≤ f < Z.of_nat (length (fd_contexts_ m)) → ∃ p c, context_of m f p c.
Proof.
  intros Hwf Hf. destruct (lookup_lt_is_Some_2 (fd_contexts_ m) (Z.to_nat f)) as [p Hp]; [lia|].
  destruct (wf_table _ Hwf _ _ Hp) as (c & Hc & Hfd). exists p, c. split_and!; [lia|done|done|lia].
Qed.

Lemma context_at_ok m f p c : context_of m f p c → context_at f m = (Ok p, m).
Proof.
  intros (Hf & Hp & _). unfold context_at. mstep. rewrite decide_False by lia. by rewrite Hp.
Qed.

Lemma context_len m f p c : context_of m f p c → f < Z.of_nat (length (fd_contexts_ m)).
Proof. intros (Hf & Hp%lookup_lt_Some & _). lia. Qed.

(** The state after a context changed from [c] to [c']. *)
Definition after (m : IOManager) (p : Z) (c c' : FdContext) (n : Z)
    (wk ad de : list (Z * Scheduler.ScheduleTask)) : IOManager :=
  mk_IOManager (<[p := c']> (heap m)) (fresh m) (fd_contexts_ m) n
    (partial_alter (λ _, interest p c') (fd c) (epoll m)) wk ad de.

Definition deleted_event (m : IOManager) (p : Z) (c : FdContext) (w : which) : IOManager :=
  after m p c (dropped w c) (pending_event_count_ m - 1) (woken m) (added m)
    (deleted m ++ option_list (registration w c)).

Definition woken_event (m : IOManager) (p : Z) (c : FdContext) (w : which) : IOManager :=
  after m p c (dropped w c) (pending_event_count_ m - 1)
    (woken m ++ option_list (registration w c)) (added m) (deleted m).

Lemma length_reg_dropped w c : waits w c = true →
  length (reg_of c) = S (length (reg_of (dropped w c))).
Proof.
  intros Hw. destruct (waits_registration _ _ Hw) as (s & _ & Hr).
  rewrite (Permutation_length (reg_dropped w c)), Hr. done.
Qed.

Lemma dropped_wf m p c w b : wf m → heap m !! p = Some c → waits w c = true →
  wf (if (b : bool) then woken_event m p c w else deleted_event m p c w).
Proof.
  intros Hwf Hc Hw. pose proof (length_reg_dropped _ _ Hw) as Hlen. pose proof (reg_dropped w c) as Hreg.
  destruct b; (apply change_wf; [done|done|by apply dropped_ok; apply (wf_heap _ Hwf _ _ Hc)|
    apply dropped_fd|lia|perm_count]).
Qed.

Lemma waits_mask w c : ctx_ok c → waits w c = true → events c ≠ 0.
Proof. intros Hok Hw. rewrite (ok_mask _ Hok). rewrite mask_0. destruct w; intros [??]; congruence. Qed.

(** Taking an event out of the kernel's interest. *)
Lemma drop_ctl accept m p c w : wf m → heap m !! p = Some c → waits w c = true →
  let new_events := Z.land (events c) (Z.lnot (event_of w)) in
  epoll_ctl accept (if decide (new_events = 0) then EPOLL_CTL_DEL else EPOLL_CTL_MOD) (fd c)
    (Z.lor EPOLLET new_events) p m =
  if accept then (Ok 0, set_epoll (partial_alter (λ _, interest p (dropped w c)) (fd c) (epoll m)) m)
  else (Ok (-1), m).
Proof.
  intros Hwf Hc Hw new_events. pose proof (wf_heap _ Hwf _ _ Hc) as (Hok & _).
  pose proof (waits_mask _ _ Hok Hw) as Hne.
  apply epoll_ctl_ok.
  - by apply (wf_epoll _ Hwf).
  - rewrite dropped_events. fold new_events. case_decide; [done|]. by rewrite decide_False.
  - done.
  - intros _. by rewrite dropped_events.
Qed.

Section operations.
Context (m : IOManager) (f p : Z) (c : FdContext).
Context (Hwf : wf m) (Hctx : context_of m f p c).

Lemma ctx_heap : heap m !! p = Some c.
Proof using Hctx. apply Hctx. Qed.

Lemma ctx_in_order : ctx_ok c.
Proof using Hwf Hctx. apply (wf_heap _ Hwf _ _ ctx_heap). Qed.

Ltac enter :=
  mstep; rewrite decide_False by (pose proof (context_len _ _ _ _ Hctx); lia);
  rewrite (bind_ok _ _ _ _ _ (context_at_ok _ _ _ _ Hctx)),
    (bind_ok _ _ _ _ _ (io_deref_ok _ _ _ ctx_heap)).

Lemma DelEvent_ok accept w : DelEvent accept f (event_of w) m =
  if waits w c && accept then (Ok true, deleted_event m p c w) else (Ok false, m).
Proof using Hwf Hctx.
  unfold DelEvent. enter. pose proof ctx_heap as Hc. destruct (waits w c) eqn:Hw.
  - pose proof Hw as Hnz. rewrite waits_event, bool_decide_eq_true in Hnz by apply ctx_in_order.
    rewrite decide_False by done. destruct Hctx as (_ & _ & _ & Hfd). rewrite <- Hfd.
    pose proof (drop_ctl accept m p c w Hwf Hc Hw) as Hctl. cbv zeta in Hctl.
    destruct accept; rewrite (bind_ok _ _ _ _ _ Hctl); simpl; [|done].
    mstep. erewrite bind_ok; [|apply io_update_ok; simpl; exact Hc]. rewrite GetEventContext_of. mstep.
    erewrite bind_ok; [|apply io_update_ok; simpl; apply lookup_insert_eq].
    unfold set_heap. simpl. by rewrite insert_insert_eq.
  - rewrite waits_event in Hw by apply ctx_in_order. apply bool_decide_eq_false in Hw.
    by rewrite decide_True by (by apply dec_stable).
Qed.

Lemma CancelEvent_ok accept w : CancelEvent accept f (event_of w) m =
  if waits w c && accept then (Ok true, woken_event m p c w) else (Ok false, m).
Proof using Hwf Hctx.
  unfold CancelEvent. enter. pose proof ctx_heap as Hc. destruct (waits w c) eqn:Hw.
  - pose proof Hw as Hnz. rewrite waits_event, bool_decide_eq_true in Hnz by apply ctx_in_order.
    rewrite decide_False by done. destruct Hctx as (_ & _ & _ & Hfd). rewrite <- Hfd.
    pose proof (drop_ctl accept m p c w Hwf Hc Hw) as Hctl. cbv zeta in Hctl.
    destruct accept; rewrite (bind_ok _ _ _ _ _ Hctl); simpl; [|done].
    erewrite bind_ok; [|apply TriggerEvent_ok; [exact Hc|apply ctx_in_order|done]]. done.
  - rewrite waits_event in Hw by apply ctx_in_order. apply bool_decide_eq_false in Hw.
    by rewrite decide_True by (by apply dec_stable).
Qed.
End operations.

(** *** Firing both events of a descriptor *)

(** The context when the events [r] (read) and [w] (write) have fired, and what they wake. *)
Definition fired (r w : bool) (c : FdContext) : FdContext :=
  let c := if r then dropped Read c else c in if w then dropped Write c else c.

Definition fired_regs (r w : bool) (c : FdContext) : list (Z * Scheduler.ScheduleTask) :=
  (if r then option_list (registration Read c) else []) ++
  (if w then option_list (registration Write c) else []).

Definition fired_state (m : IOManager) (p : Z) (c : FdContext) (r w : bool)
    (e : gmap Z (Z * Z)) : IOManager :=
  mk_IOManager (<[p := fired r w c]> (heap m)) (fresh m) (fd_contexts_ m)
    (pending_event_count_ m - Z.of_nat (length (fired_regs r w c))) e
    (woken m ++ fired_regs r w c) (added m) (deleted m).

Lemma fired_fd r w c : fd (fired r w c) = fd c.
Proof. by destruct r, w. Qed.

Lemma fired_ok r w c : ctx_ok c → ctx_ok (fired r w c).
Proof. intros H. destruct r, w; unfold fired; auto using dropped_ok. Qed.

Lemma fired_events r w c : ctx_ok c →
  events (fired r w c) = mask (waits Read c && negb r) (waits Write c && negb w).
Proof.
  intros Hok. rewrite (ok_mask _ (fired_ok r w c Hok)).
  destruct r, w; unfold fired; cbn [negb]; rewrite ?waits_dropped, ?andb_true_r, ?andb_false_r; done.
Qed.

Lemma fired_reg r w c : reg_of c ≡ₚ fired_regs r w c ++ reg_of (fired r w c).
Proof.
  unfold fired_regs, fired. destruct r, w; rewrite ?app_nil_r.
  - pose proof (reg_dropped Read c). pose proof (reg_dropped Write (dropped Read c)) as Hw.
    change (registration Write (dropped Read c)) with (registration Write c) in Hw. perm_count.
  - apply reg_dropped.
  - apply reg_dropped.
  - done.
Qed.

Lemma trigger_if_ok m p c w evs : heap m !! p = Some c → ctx_ok c →
  (Z.land evs (event_of w) ≠ 0 → waits w c = true) →
  trigger_if evs p (event_of w) m = (Ok tt,
    if decide (Z.land evs (event_of w) = 0) then m
    else mk_IOManager (<[p := dropped w c]> (heap m)) (fresh m) (fd_contexts_ m)
           (pending_event_count_ m - 1) (epoll m) (woken m ++ option_list (registration w c))
           (added m) (deleted m)).
Proof.
  intros Hc Hok Hw. unfold trigger_if. case_decide as Hz; [done|].
  by rewrite (bind_ok _ _ _ _ _ (TriggerEvent_ok _ _ _ _ Hc Hok (Hw Hz))).
Qed.

Definition has (w : which) (evs : Z) : bool := bool_decide (Z.land evs (event_of w) ≠ 0).

Lemma has_decide {A} w evs (x y : A) : (if decide (Z.land evs (event_of w) = 0) then x else y) =
  if has w evs then y else x.
Proof. unfold has. by repeat case_decide; case_bool_decide. Qed.

Lemma length_registration w c : waits w c = true → length (option_list (registration w c)) = 1%nat.
Proof. intros H. destruct (waits_registration _ _ H) as (s & _ & ->). done. Qed.

Lemma fire_both m p c evs evs' : heap m !! p = Some c → ctx_ok c →
  (has Read evs = true → waits Read c = true) → (has Write evs' = true → waits Write c = true) →
  (trigger_if evs p READ;; trigger_if evs' p WRITE) m =
    (Ok tt, fired_state m p c (has Read evs) (has Write evs') (epoll m)).
Proof.
  intros Hc Hok Hr Hw.
  assert (∀ w e, has w e = true ↔ Z.land e (event_of w) ≠ 0) as Hhas
    by (intros; unfold has; apply bool_decide_eq_true).
  rewrite (bind_ok _ _ _ _ _ (trigger_if_ok m p c Read evs Hc Hok ltac:(by rewrite <- Hhas))).
  rewrite has_decide. destruct (has Read evs) eqn:HR.
  - rewrite (trigger_if_ok _ p (dropped Read c) Write evs');
      [|by apply lookup_insert_eq|by apply dropped_ok|by rewrite <- Hhas].
    rewrite has_decide. unfold fired_state, fired_regs. destruct (has Write evs') eqn:HW; simpl.
    + rewrite length_app, !length_registration by auto. rewrite insert_insert_eq, <- (assoc_L (++)).
      do 2 f_equal. lia.
    + by rewrite app_nil_r, length_registration by auto.
  - rewrite (trigger_if_ok _ p c Write evs'); [|done|done|by rewrite <- Hhas].
    rewrite has_decide. unfold fired_state, fired_regs. destruct (has Write evs') eqn:HW; simpl.
    + by rewrite length_registration by auto.
    + rewrite insert_id, app_nil_r, Z.sub_0_r by done. by destruct m.
Qed.

Lemma fired_wf m p c r w : wf m → heap m !! p = Some c →
  wf (fired_state m p c r w (partial_alter (λ _, interest p (fired r w c)) (fd c) (epoll m))).
Proof.
  intros Hwf Hc. pose proof (fired_reg r w c) as Hreg.
  pose proof (Permutation_length Hreg) as Hlen. rewrite length_app in Hlen.
  apply (change_wf m p c (fired r w c)); [done|done|by apply fired_ok; apply (wf_heap _ Hwf _ _ Hc)|
    apply fired_fd|lia|perm_count].
Qed.

(** *** Events that occur *)

(** The kernel reports no input or output that nobody registered. *)
Definition reported_ok (reported : Z) (c : FdContext) : Prop :=
  (has Read reported = true → waits Read c = true) ∧ (has Write reported = true → waits Write c = true).

(** An error or a hang-up. *)
Definition broken (reported : Z) : bool := bool_decide (Z.land reported (Z.lor EPOLLERR EPOLLHUP) ≠ 0).

Lemma land_lor_0 a b c : Z.land (Z.lor a b) c = 0 ↔ Z.land a c = 0 ∧ Z.land b c = 0.
Proof. by rewrite Z.land_lor_distr_l, Z.lor_eq_0_iff. Qed.

Lemma bool_decide_not {P : Prop} `{Decision P} (b : bool) : (P ↔ b = false) → bool_decide (¬ P) = b.
Proof. intros Hb. destruct b; [apply bool_decide_eq_true|apply bool_decide_eq_false]; naive_solver. Qed.

Lemma has_false w e : has w e = false ↔ Z.land e (event_of w) = 0.
Proof. unfold has. rewrite bool_decide_eq_false. split; [apply dec_stable|auto]. Qed.

(** Which events really occurred: those reported, or all that are registered after an
    error. *)
Lemma real_events_has reported c w : ctx_ok c →
  has w (real_events reported (events c)) = has w reported || (broken reported && waits w c).
Proof.
  intros Hok. set (e := if decide (Z.land reported (Z.lor EPOLLERR EPOLLHUP) = 0) then reported
    else Z.lor reported (Z.land (Z.lor EPOLLIN EPOLLOUT) (events c))).
  assert (has w (real_events reported (events c)) = has w e) as ->.
  { unfold real_events. fold e. change EPOLLIN with (event_of Read). change EPOLLOUT with (event_of Write).
    rewrite !has_decide. by destruct w, (has Read e), (has Write e). }
  unfold broken, e. case_decide as Hb.
  - rewrite bool_decide_eq_false_2 by auto. by rewrite orb_false_r.
  - rewrite bool_decide_eq_true_2 by done. simpl. rewrite waits_event by done.
    unfold has at 1. apply bool_decide_not. rewrite land_lor_0, orb_false_iff, has_false.
    rewrite bool_decide_eq_false. rewrite <- Z.land_assoc, (Z.land_comm (events c)), Z.land_assoc.
    assert (Z.land (Z.lor EPOLLIN EPOLLOUT) (event_of w) = event_of w) as -> by (by destruct w).
    rewrite (Z.land_comm (event_of w)).
    destruct (decide (Z.land (events c) (event_of w) = 0)); naive_solver.
Qed.

Lemma real_events_mask reported registered : ∃ r w, real_events reported registered = mask r w.
Proof.
  unfold real_events. set (e := if decide _ then reported else _).
  exists (has Read e), (has Write e). change EPOLLIN with (event_of Read).
  change EPOLLOUT with (event_of Write). rewrite !has_decide. by destruct (has Read e), (has Write e).
Qed.

Lemma has_mask w r x : has w (mask r x) = match w with Read => r | Write => x end.
Proof. by destruct w, r, x; vm_compute. Qed.

Definition occurred (reported : Z) (w : which) (c : FdContext) : bool :=
  has w reported || (broken reported && waits w c).

Lemma occurred_waits reported w c : reported_ok reported c → occurred reported w c = true →
  waits w c = true.
Proof.
  unfold occurred. intros [Hr Hw]. rewrite orb_true_iff, andb_true_iff. destruct w; naive_solver.
Qed.

Lemma handle_event_ok accept m p c reported : wf m → heap m !! p = Some c → reported_ok reported c →
  let r := occurred reported Read c in
  let w := occurred reported Write c in
  handle_event accept p reported m =
    (Ok tt, if (r || w) && accept
            then fired_state m p c r w (partial_alter (λ _, interest p (fired r w c)) (fd c) (epoll m))
            else m).
Proof.
  intros Hwf Hc Hrep r w. pose proof (wf_heap _ Hwf _ _ Hc) as (Hok & _).
  unfold handle_event. rewrite (bind_ok _ _ _ _ _ (io_deref_ok _ _ _ Hc)).
  pose proof (real_events_has reported c Read Hok) as Hr. fold (occurred reported Read c) in Hr. fold r in Hr.
  pose proof (real_events_has reported c Write Hok) as Hw. fold (occurred reported Write c) in Hw. fold w in Hw.
  assert (r = true → waits Read c = true) as Hrw by (by apply occurred_waits).
  assert (w = true → waits Write c = true) as Hww by (by apply occurred_waits).
  destruct (real_events_mask reported (events c)) as (r' & w' & Hreal). rewrite Hreal in Hr, Hw |- *.
  rewrite has_mask in Hr, Hw. subst r' w'.
  assert (Z.land (events c) (mask r w) = mask r w) as Hand.
  { rewrite (ok_mask _ Hok). destruct r, w, (waits Read c), (waits Write c); naive_solver. }
  rewrite Hand. case_decide as Hz.
  { apply mask_0 in Hz as [-> ->]. done. }
  assert (r || w = true) as -> by (by destruct r, w).
  assert (Z.land (events c) (Z.lnot (mask r w)) = events (fired r w c)) as Hleft.
  { rewrite fired_events, (ok_mask _ Hok) by done. by destruct r, w, (waits Read c), (waits Write c). }
  rewrite Hleft. assert (events c ≠ 0) as Hne.
  { rewrite <- Hand in Hz. intros He. rewrite He in Hz. by rewrite Z.land_0_l in Hz. }
  pose proof (epoll_ctl_ok accept m p c (fired r w c)
    (if decide (events (fired r w c) = 0) then EPOLL_CTL_DEL else EPOLL_CTL_MOD)
    (Z.lor EPOLLET (events (fired r w c))) (wf_epoll _ Hwf _ _ Hc)) as Hctl.
  rewrite (decide_False (P := events c = 0)) in Hctl by done.
  specialize (Hctl eq_refl ltac:(done) ltac:(done)).
  destruct accept; rewrite (bind_ok _ _ _ _ _ Hctl); simpl; [|done].
  assert (has Read (mask r w) = r ∧ has Write (mask r w) = w) as [HR HW] by (by rewrite !has_mask).
  rewrite (fire_both _ p c (mask r w) (mask r w)).
  - rewrite HR, HW. done.
  - exact Hc.
  - done.
  - by rewrite HR.
  - by rewrite HW.
Qed.

Section operations2.
Context (m : IOManager) (f p : Z) (c : FdContext).
Context (Hwf : wf m) (Hctx : context_of m f p c).

Lemma CancelAll_ok accept : CancelAll accept f m =
  let r := waits Read c in
  let w := waits Write c in
  if (r || w) && accept
  then (Ok true, fired_state m p c r w (partial_alter (λ _, interest p (fired r w c)) (fd c) (epoll m)))
  else (Ok false, m).
Proof using Hwf Hctx.
  pose proof (ctx_heap _ _ _ _ Hctx) as Hc. pose proof (ctx_in_order _ _ _ _ Hwf Hctx) as Hok.
  cbv zeta. unfold CancelAll. mstep.
  rewrite decide_False by (pose proof (context_len _ _ _ _ Hctx); lia).
  rewrite (bind_ok _ _ _ _ _ (context_at_ok _ _ _ _ Hctx)), (bind_ok _ _ _ _ _ (io_deref_ok _ _ _ Hc)).
  case_decide as Hz.
  { rewrite (ok_mask _ Hok), mask_0 in Hz. destruct Hz as [-> ->]. done. }
  assert (waits Read c || waits Write c = true) as ->.
  { rewrite (ok_mask _ Hok), mask_0 in Hz. destruct (waits Read c), (waits Write c); tauto. }
  set (r := waits Read c). set (w := waits Write c).
  assert (events (fired r w c) = 0) as H0.
  { rewrite fired_events by done. subst r w. by destruct (waits Read c), (waits Write c). }
  pose proof (epoll_ctl_ok accept m p c (fired r w c) EPOLL_CTL_DEL 0 (wf_epoll _ Hwf _ _ Hc)) as Hctl.
  rewrite decide_True in Hctl by done. specialize (Hctl eq_refl ltac:(done) ltac:(done)).
  destruct Hctx as (_ & _ & _ & Hfd). rewrite Hfd in Hctl.
  destruct accept; rewrite (bind_ok _ _ _ _ _ Hctl); simpl; [|done].
  set (m1 := set_epoll _ m).
  assert (has Read (events c) = r ∧ has Write (events c) = w) as [HR HW].
  { rewrite (ok_mask _ Hok), !has_mask. done. }
  pose proof (fire_both m1 p c (events c) (events c) Hc Hok ltac:(by rewrite HR) ltac:(by rewrite HW)) as Hf.
  rewrite HR, HW in Hf. apply bind_inv in Hf as ([] & m2 & H1 & H2).
  rewrite (bind_ok _ _ _ _ _ H1).
  assert (heap m2 !! p = Some (fired r false c) ∧ has Write (events (fired r false c)) = w) as [Hm2 Hw2].
  { change READ with (event_of Read) in H1.
    rewrite (trigger_if_ok m1 p c Read (events c) Hc Hok), has_decide, HR in H1.
    - injection H1 as <-. split.
      + destruct r; [apply lookup_insert_eq|exact Hc].
      + rewrite fired_events by done. rewrite has_mask. subst w. by rewrite andb_true_r.
    - intros Hne. change (waits Read c) with r. rewrite <- HR. by apply bool_decide_eq_true. }
  rewrite (bind_ok _ _ _ _ _ (io_deref_ok _ _ _ Hm2)). cbv beta.
  assert (trigger_if (events (fired r false c)) p WRITE = trigger_if (events c) p WRITE) as ->.
  { change WRITE with (event_of Write). unfold trigger_if. rewrite !has_decide, Hw2, HW. done. }
  rewrite (bind_ok _ _ _ _ _ H2).
  erewrite bind_ok; [|apply io_deref_ok; simpl; apply lookup_insert_eq].
  rewrite bind_massert by (by apply bool_decide_eq_true). rewrite Hfd. done.
Qed.
End operations2.

(** *** Adding an event *)

Definition registered_ctx (sch : Z) (cur : Z) (callback : option nat) : EventContext :=
  match callback with
  | Some g => mk_EventContext (Some sch) None (Some g)
  | None => mk_EventContext (Some sch) (Some cur) None
  end.

Definition with_event (w : which) (x : EventContext) (c : FdContext) : FdContext :=
  set_ctx w x (set_events (Z.lor (events c) (event_of w)) c).

Lemma with_event_fd w x c : fd (with_event w x c) = fd c.
Proof. by destruct w. Qed.

Lemma waits_with w w' x c s : scheduler x = Some s → waits w' (with_event w x c) =
  match w, w' with Read, Read | Write, Write => true | _, _ => waits w' c end.
Proof. intros Hs. unfold waits. destruct w, w'; simpl; rewrite ?Hs; try done; by apply bool_decide_eq_true. Qed.

Lemma with_event_ok w x c s : ctx_ok c → scheduler x = Some s → ctx_ok (with_event w x c).
Proof.
  intros [Hm Hc] Hs. split.
  - rewrite !(waits_with w _ x c s Hs). destruct w; simpl; rewrite Hm;
      [apply (mask_with _ _ Read)|apply (mask_with _ _ Write)].
  - intros w'. rewrite (waits_with w w' x c s Hs). specialize (Hc w'). by destruct w, w'.
Qed.

Lemma reg_with w x c s : waits w c = false → scheduler x = Some s →
  reg_of (with_event w x c) ≡ₚ (s, ctx_task x) :: reg_of c.
Proof.
  intros Hw Hs. pose proof (not_waits_registration _ _ Hw) as Hn. unfold reg_of.
  assert (registration w (with_event w x c) = Some (s, ctx_task x)) as Hr.
  { unfold registration. destruct w; simpl; by rewrite Hs. }
  destruct w; rewrite Hr, Hn; simpl; [done|].
  change (registration Read (with_event Write x c)) with (registration Read c).
  rewrite app_nil_r. by rewrite Permutation_app_comm.
Qed.

Definition added_state (m : IOManager) (p : Z) (c : FdContext) (w : which) (x : EventContext) (s : Z) :=
  after m p c (with_event w x c) (pending_event_count_ m + 1) (woken m)
    (added m ++ [(s, ctx_task x)]) (deleted m).

Lemma added_wf m p c w x s : wf m → heap m !! p = Some c → waits w c = false → scheduler x = Some s →
  wf (added_state m p c w x s).
Proof.
  intros Hwf Hc Hw Hs. pose proof (reg_with _ x _ s Hw Hs) as Hreg.
  apply change_wf; [done|done| |apply with_event_fd| |].
  - eapply with_event_ok; [|done]. apply (wf_heap _ Hwf _ _ Hc).
  - rewrite (Permutation_length Hreg). simpl. lia.
  - rewrite Hreg. assert ((s, ctx_task x) :: reg_of c = [(s, ctx_task x)] ++ reg_of c) as -> by done.
    perm_count.
Qed.

Lemma AddEvent_register_ok accept m p c w s cur callback : wf m → heap m !! p = Some c →
  waits w c = false → is_Some callback ∨ cur.2 = true →
  let x := registered_ctx s cur.1 callback in
  AddEvent_register accept (Some s) cur p (fd c) (event_of w) callback m =
    if accept then (Ok 0, added_state m p c w x s) else (Ok (-1), m).
Proof.
  intros Hwf Hc Hw Hcur x. pose proof (wf_heap _ Hwf _ _ Hc) as (Hok & _).
  unfold AddEvent_register. rewrite (bind_ok _ _ _ _ _ (io_deref_ok _ _ _ Hc)).
  assert (Z.land (events c) (event_of w) = 0) as Hz.
  { rewrite waits_event in Hw by done. apply bool_decide_eq_false in Hw. by apply dec_stable. }
  rewrite bind_massert by (by apply bool_decide_eq_true).
  assert (scheduler x = Some s) as Hs by (by destruct callback).
  assert (events (with_event w x c) = Z.lor (events c) (event_of w)) as Hev by (by destruct w).
  assert (Z.lor (events c) (event_of w) ≠ 0) as Hne.
  { intros [_ H]%Z.lor_eq_0_iff. by destruct w. }
  pose proof (epoll_ctl_ok accept m p c (with_event w x c)
    (if decide (events c = 0) then EPOLL_CTL_ADD else EPOLL_CTL_MOD)
    (Z.lor (Z.lor EPOLLET (events c)) (event_of w)) (wf_epoll _ Hwf _ _ Hc)) as Hctl.
  rewrite Hev in Hctl. rewrite (decide_False (P := Z.lor (events c) (event_of w) = 0)) in Hctl by done.
  specialize (Hctl eq_refl ltac:(done) ltac:(intros; by rewrite Z.lor_assoc)).
  destruct accept; rewrite (bind_ok _ _ _ _ _ Hctl); simpl; [|done]. mstep.
  erewrite bind_ok; [|apply io_update_ok; simpl; exact Hc]. rewrite GetEventContext_of. mstep.
  rewrite bind_massert by (apply bool_decide_eq_true, (ok_clear _ Hok), Hw).
  replace (match callback with Some g => mk_EventContext (Some s) None (Some g)
    | None => mk_EventContext (Some s) (Some cur.1) None end) with x by (by destruct callback).
  erewrite bind_ok; [|apply io_update_ok; simpl; apply lookup_insert_eq]. mstep.
  rewrite bind_massert.
  - unfold set_heap, set_history. simpl. rewrite insert_insert_eq. done.
  - apply orb_true_iff. rewrite bool_decide_eq_true. tauto.
Qed.

(** ** Sequences of calls *)

(** [CReport p reported] is an event [epoll_wait] reports with the pointer [p]. *)
Inductive call :=
  | CAddEvent (accept : bool) (sch : option Z) (cur : Z * bool) (f event : Z) (callback : option nat)
  | CDelEvent (accept : bool) (f event : Z)
  | CCancelEvent (accept : bool) (f event : Z)
  | CCancelAll (accept : bool) (f : Z)
  | CReport (accept : bool) (p reported : Z).

Definition step (c : call) : M IOManager () :=
  match c with
  | CAddEvent accept sch cur f event callback => AddEvent accept sch cur f event callback;; mret tt
  | CDelEvent accept f event => DelEvent accept f event;; mret tt
  | CCancelEvent accept f event => CancelEvent accept f event;; mret tt
  | CCancelAll accept f => CancelAll accept f;; mret tt
  | CReport accept p reported => handle_event accept p reported
  end.

Fixpoint exec (cs : list call) : M IOManager () :=
  match cs with
  | [] => mret tt
  | c :: cs => step c;; exec cs
  end.

Definition is_event (event : Z) : Prop := event = READ ∨ event = WRITE.

(** An event is added once, by a thread of a scheduler, with a callback or from a
    fiber that runs; the kernel reports what is registered. *)
Definition call_ok (m : IOManager) (c : call) : Prop :=
  match c with
  | CAddEvent _ sch cur f event callback => 0 ≤ f ∧ is_event event ∧ is_Some sch ∧
      (is_Some callback ∨ cur.2 = true) ∧
      match fd_contexts_ m !! Z.to_nat f ≫= λ p, heap m !! p with
      | Some x => Z.land (events x) event = 0
      | None => True
      end
  | CDelEvent _ f event | CCancelEvent _ f event => 0 ≤ f ∧ is_event event
  | CCancelAll _ f => 0 ≤ f
  | CReport _ p reported => match heap m !! p with Some x => reported_ok reported x | None => False end
  end.

Fixpoint legal (m : IOManager) (cs : list call) : Prop :=
  match cs with
  | [] => True
  | c :: cs => call_ok m c ∧ legal (step c m).2 cs
  end.

Lemma is_event_of event : is_event event → ∃ w, event = event_of w.
Proof. intros [->| ->]; [by exists Read|by exists Write]. Qed.

Lemma AddEvent_context_ok m f : wf m → 0 ≤ f → ∃ m' p c, AddEvent_context f m = (Ok p, m') ∧ wf m' ∧
  context_of m' f p c ∧ woken m' = woken m ∧ added m' = added m ∧ deleted m' = deleted m ∧
  (context_of m f p c ∧ m' = m ∨
   fd_contexts_ m !! Z.to_nat f = None ∧ c = mk_FdContext no_context no_context f NONE).
Proof.
  intros Hwf Hf. unfold AddEvent_context. mstep. case_decide as Hlen.
  - destruct (context_exists m f Hwf ltac:(lia)) as (p & c & Hctx). exists m, p, c.
    rewrite (context_at_ok _ _ _ _ Hctx). auto 10.
  - pose proof (wf_size _ Hwf) as Hsz.
    assert (f + f / 2 ≤ f * 3 / 2) by (rewrite <- Z.div_add_l by lia; apply Z.div_le_mono; lia).
    assert (16 ≤ f / 2) by (apply Z.div_le_lower_bound; lia).
    destruct (ContextResize_wf m (f * 3 / 2) Hwf ltac:(lia)) as (m' & Hr & Hwf' & Hg & Hl & ? & ? & ?).
    destruct (grown_new _ _ Hg (Z.to_nat f)) as (p & Hp & Hc); [lia|].
    rewrite Z2Nat.id in Hc by done.
    assert (context_of m' f p (mk_FdContext no_context no_context f NONE)) as Hctx by done.
    rewrite (bind_ok _ _ _ _ _ Hr), (context_at_ok _ _ _ _ Hctx). do 3 eexists. split_and!; try done.
    right. split; [|done]. apply lookup_ge_None_2. lia.
Qed.

Lemma context_dec m f : wf m → 0 ≤ f → (∃ p c, context_of m f p c) ∨ Z.of_nat (length (fd_contexts_ m)) ≤ f.
Proof.
  intros Hwf Hf. destruct (decide (Z.of_nat (length (fd_contexts_ m)) ≤ f)); [by right|left].
  apply context_exists; [done|lia].
Qed.

Lemma io_step_ok m c : wf m → call_ok m c → ∃ m', step c m = (Ok tt, m') ∧ wf m'.
Proof.
  intros Hwf Hok. destruct c as [accept sch cur f event callback|accept f event|accept f event|accept f|
    accept p reported]; simpl in *.
  - destruct Hok as (Hf & Hev & [s ->] & Hcur & Hnew).
    destruct (AddEvent_context_ok m f Hwf Hf) as (m' & p & c & Hctx & Hwf' & Hc & _ & _ & _ & Hcase).
    apply is_event_of in Hev as [w ->].
    assert (waits w c = false) as Hw.
    { destruct Hcase as [[(_ & Hp & Hh & _) ->]|[_ ->]]; [|by destruct w].
      rewrite Hp in Hnew. simpl in Hnew. rewrite Hh in Hnew.
      rewrite waits_event by (by eapply ctx_in_order). rewrite Hnew. done. }
    pose proof Hc as (_ & _ & Hh & Hfd).
    pose proof (AddEvent_register_ok accept m' p c w s cur callback Hwf' Hh Hw Hcur) as Hreg.
    cbv zeta in Hreg. rewrite Hfd in Hreg. unfold AddEvent. rewrite bind_unfold, (bind_ok _ _ _ _ _ Hctx).
    rewrite Hreg. destruct accept; [|by exists m'].
    eexists. split; [reflexivity|]. apply added_wf; [done..|by destruct callback].
  - destruct Hok as (Hf & [w ->]%is_event_of). destruct (context_dec m f Hwf Hf) as [(p & c & Hc)|Hout].
    + rewrite bind_unfold, (DelEvent_ok m f p c Hwf Hc).
      destruct (waits w c) eqn:Hw, accept; simpl; [|by exists m..].
      eexists. split; [done|]. apply (dropped_wf m p c w false Hwf); [apply Hc|done].
    + exists m. unfold DelEvent. rewrite bind_unfold. mstep. by rewrite decide_True.
  - destruct Hok as (Hf & [w ->]%is_event_of). destruct (context_dec m f Hwf Hf) as [(p & c & Hc)|Hout].
    + rewrite bind_unfold, (CancelEvent_ok m f p c Hwf Hc).
      destruct (waits w c) eqn:Hw, accept; simpl; [|by exists m..].
      eexists. split; [done|]. apply (dropped_wf m p c w true Hwf); [apply Hc|done].
    + exists m. unfold CancelEvent. rewrite bind_unfold. mstep. by rewrite decide_True.
  - destruct (context_dec m f Hwf Hok) as [(p & c & Hc)|Hout].
    + pose proof (CancelAll_ok m f p c Hwf Hc accept) as Hr. cbv zeta in Hr.
      rewrite bind_unfold, Hr. destruct ((_ || _) && _); [|by exists m].
      eexists. split; [done|]. apply fired_wf; [done|apply Hc].
    + exists m. unfold CancelAll. rewrite bind_unfold. mstep. by rewrite decide_True.
  - destruct (heap m !! p) as [c|] eqn:Hc; [|done].
    pose proof (handle_event_ok accept m p c reported Hwf Hc Hok) as Hr. cbv zeta in Hr. rewrite Hr.
    destruct ((_ || _) && _); [|by exists m]. eexists. split; [done|]. by apply fired_wf.
Qed.

Lemma exec_ok m cs : wf m → legal m cs → ∃ m', exec cs m = (Ok tt, m') ∧ wf m'.
Proof.
  revert m. induction cs as [|c cs IH]; intros m Hwf; simpl.
  - intros _. by exists m.
  - intros [Hok Hl]. destruct (io_step_ok m c Hwf Hok) as (m1 & Hs & Hwf1). rewrite Hs in Hl.
    destruct (IH m1 Hwf1 Hl) as (m' & He & Hwf'). exists m'. by rewrite (bind_ok _ _ _ _ _ Hs).
Qed.

(** ** Theorems *)

(** C8. Events are added, deleted, cancelled and reported in any order, one call after the
    other, under the rules of [legal]: descriptors are not negative, an event is added
    only when it is not registered, by a thread that has a scheduler and with a callback
    or from a fiber that runs, and the kernel reports of a descriptor only what is
    registered for it (errors and hang-ups apart). Then no assertion
    fails; [pending_event_count_] is the number of callbacks registered; the
    interest the kernel has for a descriptor is the mask of its registered events;
    and each callback that was ever added is in exactly one place: still registered,
    or deleted by [DelEvent], or handed to its scheduler, once. What happens outside the
    rules is shown by [stale_report_aborts], [add_without_scheduler], [cancel_negative]
    and [resize_race_loses_event]. *)
Theorem events_conserved m cs : wf m → legal m cs →
  ∃ m', exec cs m = (Ok tt, m') ∧
    added m' ≡ₚ regs (heap m') ++ deleted m' ++ woken m' ∧
    pending_event_count_ m' = Z.of_nat (length (regs (heap m'))) ∧
    (∀ p c, heap m' !! p = Some c → events c = mask (waits Read c) (waits Write c) ∧
       epoll m' !! fd c = if decide (events c = 0) then None else Some (Z.lor EPOLLET (events c), p)).
Proof.
  intros Hwf Hl. destruct (exec_ok m cs Hwf Hl) as (m' & He & Hwf'). exists m'.
  split_and!; [done|apply Hwf'|apply Hwf'|]. intros p c Hc. split.
  - apply ok_mask, (wf_heap _ Hwf' _ _ Hc).
  - apply (wf_epoll _ Hwf' _ _ Hc).
Qed.

(** When the kernel reports events of a descriptor, what waits for them is handed
    to its scheduler, the reader first, and nothing else is: an event that was not
    reported wakes nobody, unless there was an error or a hang-up, which wakes both.
    What is left stays registered, in the context and in the kernel, and other
    descriptors are not touched. *)
Theorem handle_event_exact m p c reported : wf m → heap m !! p = Some c → reported_ok reported c →
  let r := waits Read c && (has Read reported || broken reported) in
  let w := waits Write c && (has Write reported || broken reported) in
  ∃ m', handle_event true p reported m = (Ok tt, m') ∧
    woken m' = woken m ++ (if r then option_list (registration Read c) else []) ++
                          (if w then option_list (registration Write c) else []) ∧
    (∀ q, q ≠ p → heap m' !! q = heap m !! q) ∧
    (∃ c', heap m' !! p = Some c' ∧
       registration Read c' = (if r then None else registration Read c) ∧
       registration Write c' = (if w then None else registration Write c) ∧
       epoll m' !! fd c = interest p c') ∧
    pending_event_count_ m' = pending_event_count_ m - (if r then 1 else 0) - (if w then 1 else 0).
Proof.
  intros Hwf Hc Hrep r w. pose proof (handle_event_ok true m p c reported Hwf Hc Hrep) as Hr.
  cbv zeta in Hr.
  assert (∀ e, (has e reported = true → waits e c = true) →
    occurred reported e c = waits e c && (has e reported || broken reported)) as Hocc.
  { intros e He. unfold occurred. destruct (has e reported), (broken reported), (waits e c); naive_solver. }
  rewrite (Hocc Read), (Hocc Write) in Hr by apply Hrep. fold r in Hr. fold w in Hr. rewrite Hr.
  rewrite andb_true_r. exists (if r || w then fired_state m p c r w
    (partial_alter (λ _, interest p (fired r w c)) (fd c) (epoll m)) else m).
  split; [done|]. assert (r = true → waits Read c = true) as Hrw by (by intros [? _]%andb_true_iff).
  assert (w = true → waits Write c = true) as Hww by (by intros [? _]%andb_true_iff).
  assert (∀ a b : bool, (a = true → waits Read c = true) → (b = true → waits Write c = true) →
    length (fired_regs a b c) = ((if a then 1 else 0) + (if b then 1 else 0))%nat) as Hlen.
  { intros a b Ha Hb. unfold fired_regs. destruct a, b; rewrite ?length_app, ?length_registration; auto. }
  destruct (r || w) eqn:Hrw'.
  - split_and!; simpl.
    + done.
    + intros q Hq. by rewrite lookup_insert_ne.
    + exists (fired r w c). rewrite lookup_insert_eq, lookup_partial_alter_eq.
      split_and!; [done|by destruct r, w|by destruct r, w|done].
    + rewrite Hlen by done. destruct r, w; lia.
  - apply orb_false_iff in Hrw' as [-> ->]. rewrite !app_nil_r. split_and!; try done; [|lia].
    exists c. split_and!; try done. by apply (wf_epoll _ Hwf).
Qed.

(** The first part of [AddEvent] only adds contexts to the table. *)
Lemma AddEvent_context_grows m f : wf m → 0 ≤ f → ∃ m' p c, AddEvent_context f m = (Ok p, m') ∧ wf m' ∧
  context_of m' f p c ∧ grown m m' ∧ regs (heap m') ≡ₚ regs (heap m) ∧
  pending_event_count_ m' = pending_event_count_ m ∧ epoll m' = epoll m ∧
  woken m' = woken m ∧ added m' = added m ∧ deleted m' = deleted m ∧
  (f < Z.of_nat (length (fd_contexts_ m)) → m' = m).
Proof.
  intros Hwf Hf. destruct (AddEvent_context_ok m f Hwf Hf) as (m' & p & c & Hr & Hwf' & Hctx & Hwk & Had & Hde & _).
  exists m', p, c. split; [done|]. split; [done|]. split; [done|].
  assert (grown m m' ∧ pending_event_count_ m' = pending_event_count_ m ∧ epoll m' = epoll m ∧
    (f < Z.of_nat (length (fd_contexts_ m)) → m' = m)) as (Hg & Hpe & Hep & Hsame).
  { revert Hr. unfold AddEvent_context. mstep. case_decide as Hlen.
    - destruct (context_exists m f Hwf ltac:(lia)) as (p' & c' & Hc). rewrite (context_at_ok _ _ _ _ Hc).
      intros [= <- <-]. split; [split; [done|done|lia]|done].
    - pose proof (wf_size _ Hwf) as Hsz.
      assert (f + f / 2 ≤ f * 3 / 2) by (rewrite <- Z.div_add_l by lia; apply Z.div_le_mono; lia).
      assert (16 ≤ f / 2) by (apply Z.div_le_lower_bound; lia).
      destruct (ContextResize_wf m (f * 3 / 2) Hwf ltac:(lia)) as (m1 & Hr1 & Hwf1 & Hg & _).
      rewrite (bind_ok _ _ _ _ _ Hr1). intros Hat.
      assert (m' = m1) as ->.
      { revert Hat. unfold context_at. rewrite bind_mget. repeat case_match; by intros [=]. }
      split; [done|]. unfold ContextResize in Hr1. rewrite bind_mget in Hr1.
      destruct (new_contexts _ _ _ _) as [l h]. injection Hr1 as <-. split; [done|]. split; [done|lia]. }
  split_and!; try done. pose proof (wf_history _ Hwf) as H1. pose proof (wf_history _ Hwf') as H2.
  rewrite Had, Hde, Hwk, H1 in H2. symmetry. by apply Permutation_app_inv_r in H2.
Qed.

(** A call for a descriptor that has no context. *)
Lemma no_context_calls m f w accept : Z.of_nat (length (fd_contexts_ m)) ≤ f →
  DelEvent accept f (event_of w) m = (Ok false, m) ∧ CancelEvent accept f (event_of w) m = (Ok false, m) ∧
  CancelAll accept f m = (Ok false, m).
Proof.
  intros Hlen. unfold DelEvent, CancelEvent, CancelAll. rewrite !bind_mget, !decide_True by done. done.
Qed.

Lemma epoll_ctl_refused op f evs p m : epoll_ctl false op f evs p m = (Ok (-1), m).
Proof. unfold epoll_ctl. rewrite bind_mget. destruct op, (epoll m !! f); reflexivity. Qed.

(** C39. When [epoll_ctl] fails, the operation reports it, and no callback is registered,
    dropped or woken, the kernel's interest and the counter are as before: for
    [DelEvent], [CancelEvent], [CancelAll] and the report of an event nothing at all has
    changed, whether or not the descriptor has a context and whatever is reported. The
    same is so for [AddEvent] of an event that is not registered, of a descriptor that
    has a context; for another one the table has grown by contexts at which nothing is
    registered, and the contexts that were there are as they were. *)
Theorem failed_ctl_unchanged m f w sch cur callback : wf m → 0 ≤ f →
  ((∀ p c, context_of m f p c → waits w c = false) → ∃ m',
     AddEvent false sch cur f (event_of w) callback m = (Ok (-1), m') ∧ grown m m' ∧
     regs (heap m') ≡ₚ regs (heap m) ∧ pending_event_count_ m' = pending_event_count_ m ∧ epoll m' = epoll m ∧
     woken m' = woken m ∧ added m' = added m ∧ deleted m' = deleted m ∧
     (f < Z.of_nat (length (fd_contexts_ m)) → m' = m)) ∧
  DelEvent false f (event_of w) m = (Ok false, m) ∧
  CancelEvent false f (event_of w) m = (Ok false, m) ∧
  CancelAll false f m = (Ok false, m) ∧
  (∀ p c reported, heap m !! p = Some c → handle_event false p reported m = (Ok tt, m)).
Proof.
  intros Hwf Hf. split.
  - intros Hw. destruct (AddEvent_context_ok m f Hwf Hf) as (m1 & p1 & c1 & Hr1 & _ & Hctx1 & _ & _ & _ & Hcase).
    destruct (AddEvent_context_grows m f Hwf Hf) as (m' & p & c & Hr & Hwf' & Hctx & Hrest).
    rewrite Hr in Hr1. injection Hr1 as <- <-. exists m'. split; [|exact Hrest].
    pose proof Hctx as (_ & _ & Hc & Hfd). assert (c1 = c) as -> by (destruct Hctx1 as (_ & _ & ? & _); congruence).
    assert (waits w c = false) as Hwc.
    { destruct Hcase as [[Hm ->]|[_ ->]]; [by eapply Hw|by destruct w]. }
    unfold AddEvent. rewrite (bind_ok _ _ _ _ _ Hr). unfold AddEvent_register.
    rewrite (bind_ok _ _ _ _ _ (io_deref_ok m' p c Hc)). rewrite waits_event in Hwc by (by eapply ctx_in_order).
    apply bool_decide_eq_false, dec_stable in Hwc. rewrite bind_massert by (by apply bool_decide_eq_true_2).
    cbv zeta. by rewrite (bind_ok _ _ _ _ _ (epoll_ctl_refused _ _ _ _ _)).
  - assert (DelEvent false f (event_of w) m = (Ok false, m) ∧ CancelEvent false f (event_of w) m = (Ok false, m) ∧
      CancelAll false f m = (Ok false, m)) as (-> & -> & ->).
    { destruct (context_dec m f Hwf Hf) as [(p & c & Hctx)|Hlen]; [|by apply no_context_calls].
      rewrite (DelEvent_ok m f p c Hwf Hctx), (CancelEvent_ok m f p c Hwf Hctx), (CancelAll_ok m f p c Hwf Hctx).
      cbv zeta. by rewrite !andb_false_r. }
    split_and!; try done. intros p c reported Hc. unfold handle_event. rewrite (bind_ok _ _ _ _ _ (io_deref_ok m p c Hc)).
    cbv zeta. case_decide; [done|]. by rewrite (bind_ok _ _ _ _ _ (epoll_ctl_refused _ _ _ _ _)).
Qed.

Lemma epoll_timeout_small d : 0 ≤ d < 2 ^ 31 → clamp_timeout d = Z.min d 5000 ∧ epoll_timeout d = Z.min d 5000.
Proof.
  intros Hd. assert (clamp_timeout d = Z.min d 5000) as Hc.
  { unfold clamp_timeout. rewrite decide_True by lia. rewrite (swrap_small 32) by lia. apply wrap_small. lia. }
  split; [done|]. unfold epoll_timeout. rewrite Hc. apply swrap_small; lia.
Qed.

(** Going round changes nothing: each wait is as long as the first could be. *)
Lemma epoll_waits_same {A} (answers : list (option A)) d ts r : 0 ≤ d < 2 ^ 31 → epoll_waits answers d = Some (ts, r) →
  ∃ k rest, answers = replicate k None ++ Some r :: rest ∧ ts = replicate (S k) (epoll_timeout d).
Proof.
  revert d ts. induction answers as [|[x|] answers IH]; intros d ts Hd; cbn [epoll_waits]; [done| |].
  - intros [= <- <-]. by exists 0%nat, answers.
  - destruct (epoll_timeout_small d Hd) as [Hc He]. destruct (epoll_waits answers _) as [[ts' r']|] eqn:Hw; [|done].
    intros [= <- <-]. rewrite Hc in Hw. destruct (IH (Z.min d 5000) ts' ltac:(lia) Hw) as (k & rest & -> & ->).
    exists (S k), rest. split; [done|]. destruct (epoll_timeout_small (Z.min d 5000) ltac:(lia)) as [_ ->].
    rewrite (Z.min_l (Z.min d 5000)), <- He by lia. done.
Qed.


(** [Stopping] of the IO scheduler answers yes exactly when no timer is set, no
    event is registered and the scheduler itself may stop. *)
Theorem IO_Stopping_exact m t s now : wf m → Timer.wf t → 0 < now →
  (∀ p u, Timer.heap_ t !! p = Some u → Timer.next_ u < 2 ^ 64) →
  ∃ b d t', Stopping now m s t = (Ok (b, d), t') ∧
    (b = true ↔ Timer.timers_ t = [] ∧ regs (heap m) = [] ∧
       Scheduler.stopping_ s = true ∧ Scheduler.tasks_ s = [] ∧ Scheduler.active_thread_count_ s = 0).
Proof.
  intros Hwf Htw Hnow Hmax. destruct (Timer.GetNextTimer_ok t now Htw) as (d & Hd & Hfirst).
  unfold Stopping. rewrite (bind_ok _ _ _ _ _ Hd). do 3 eexists. split; [reflexivity|].
  rewrite !andb_true_iff, !bool_decide_eq_true, Scheduler.Stopping_iff, (wf_pending _ Hwf).
  assert (d = 2 ^ 64 - 1 ↔ Timer.timers_ t = []) as ->.
  { destruct (Timer.timers_ t) as [|p l]; [done|]. destruct Hfirst as (u & Hu & ->).
    split; [|done]. intros He. exfalso. specialize (Hmax p u Hu). case_decide; [lia|].
    rewrite wrap_small in He by lia. lia. }
  assert (Z.of_nat (length (regs (heap m))) = 0 ↔ regs (heap m) = []) as ->.
  { split; [intros H; apply nil_length_inv; lia|by intros ->]. }
  tauto.
Qed.

(** ** The destructor *)

Lemma delete_contexts_ok ps : ∀ m, NoDup ps → (∀ p, p ∈ ps → is_Some (heap m !! p)) →
  ∃ m', delete_contexts ps m = (Ok tt, m') ∧ fd_contexts_ m' = fd_contexts_ m ∧
    ∀ p, heap m' !! p = if decide (p ∈ ps) then None else heap m !! p.
Proof.
  induction ps as [|q ps IH]; intros m Hnd Hps; cbn [delete_contexts].
  { exists m. split_and!; [done|done|]. intros p. by rewrite decide_False by apply not_elem_of_nil. }
  apply NoDup_cons in Hnd as [Hq Hnd]. destruct (Hps q) as [c Hc]; [by left|].
  set (m1 := set_heap (delete q (heap m)) m).
  assert (delete_context q m = (Ok tt, m1)) as Hd.
  { unfold delete_context, deref, mbind, M_bind. simpl. by rewrite Hc. }
  rewrite (bind_ok _ _ _ _ _ Hd). destruct (IH m1 Hnd) as (m' & Hr & Hf & Hh).
  { intros p Hp. simpl. rewrite lookup_delete_ne by (by intros ->). apply Hps. by right. }
  exists m'. split_and!; [done|done|]. intros p. rewrite Hh. simpl.
  destruct (decide (p = q)) as [->|Hne].
  - rewrite lookup_delete_eq, (decide_True (P := q ∈ q :: ps)) by (by left). by case_decide.
  - rewrite lookup_delete_ne by done. apply decide_ext. rewrite elem_of_cons. tauto.
Qed.

(** No context leaks and none is freed twice: after the destructor the heap is empty. *)
Theorem destroy_frees m : wf m → ∃ m', destroy m = (Ok tt, m') ∧ heap m' = ∅.
Proof.
  intros Hwf. destruct (delete_contexts_ok (fd_contexts_ m) m) as (m' & Hr & _ & Hh).
  - apply NoDup_alt. intros i j p Hi Hj. destruct (wf_table _ Hwf i p Hi) as (c & Hc & Hci).
    destruct (wf_table _ Hwf j p Hj) as (c' & Hc' & Hcj). simplify_eq. lia.
  - intros p [i Hi]%list_elem_of_lookup. destruct (wf_table _ Hwf i p Hi) as (c & Hc & _). by eexists.
  - exists m'. unfold destroy. rewrite bind_mget. split; [exact Hr|]. apply map_eq. intros p.
    rewrite Hh, lookup_empty. case_decide as Hp; [done|]. destruct (heap m !! p) as [c|] eqn:Hc; [|done].
    destruct Hp. destruct (wf_heap _ Hwf p c Hc) as (_ & _ & _ & Hl). by eapply list_elem_of_lookup_2.
Qed.

(** ** Witnesses *)

(** Fiber 50 waits to read from descriptor 40, a callback to write to it, another to
    read from descriptor 5. *)
Definition sample_adds : list call :=
  [CAddEvent true (Some 900) (50, true) 40 READ None;
   CAddEvent true (Some 900) (51, true) 40 WRITE (Some 7%nat);
   CAddEvent true (Some 900) (51, true) 5 READ (Some 8%nat)].

Definition sample : IOManager := (exec sample_adds IOManager_new).2.

(** The read event of descriptor 40 occurs and descriptor 5 is given up. *)
Definition sample_calls : list call := sample_adds ++ [CReport true 41 EPOLLIN; CDelEvent true 5 READ].

Ltac legal_calls :=
  repeat (split; [first
    [ vm_compute; split_and!; [congruence|by auto|by eexists|by first [left; by eexists|right]|done]
    | vm_compute; split_and!; [congruence|by auto]
    | vm_compute; done ]|]); exact I.

Lemma io_exec_wf cs : legal IOManager_new cs → wf (exec cs IOManager_new).2.
Proof. intros Hl. by destruct (exec_ok IOManager_new cs wf_start Hl) as (m' & -> & ?). Qed.

Lemma io_wf_sample : wf sample.
Proof. apply io_exec_wf. legal_calls. Qed.

Lemma destroy_frees_witness : ∃ m', destroy sample = (Ok tt, m') ∧ heap m' = ∅.
Proof. destruct (destroy_frees sample io_wf_sample) as (m' & Hr & Hh). exists m'. split; [exact Hr|exact Hh]. Defined.

Definition sample_ctx : FdContext :=
  mk_FdContext (mk_EventContext (Some 900) (Some 50) None) (mk_EventContext (Some 900) None (Some 7%nat)) 40 5.

Lemma sample_at : context_of sample 40 41 sample_ctx.
Proof. split_and!; [lia|by vm_compute..]. Qed.

Lemma events_conserved_witness : ∃ m', exec sample_calls IOManager_new = (Ok tt, m') ∧
  woken m' = [(900, Scheduler.task_of_fiber (Some 50) (-1))] ∧
  deleted m' = [(900, Scheduler.task_of_cb (Some 8%nat) (-1))] ∧
  added m' ≡ₚ regs (heap m') ++ deleted m' ++ woken m'.
Proof.
  destruct (events_conserved IOManager_new sample_calls wf_start) as (m' & He & Hadd & _);
    [unfold sample_calls; simpl app; legal_calls|].
  exists m'. split; [exact He|]. split; [|split; [|exact Hadd]].
  - replace m' with (exec sample_calls IOManager_new).2 by (by rewrite He). by vm_compute.
  - replace m' with (exec sample_calls IOManager_new).2 by (by rewrite He). by vm_compute.
Defined.

Lemma handle_event_exact_witness : ∃ m', handle_event true 41 EPOLLHUP sample = (Ok tt, m') ∧
  woken m' = [(900, Scheduler.task_of_fiber (Some 50) (-1)); (900, Scheduler.task_of_cb (Some 7%nat) (-1))].
Proof.
  destruct (handle_event_exact sample 41 sample_ctx EPOLLHUP io_wf_sample) as (m' & H1 & H2 & _);
    [by vm_compute|by vm_compute|].
  exists m'. split; [exact H1|]. rewrite H2. by vm_compute.
Defined.

(** Descriptor 100 has no context: the table grows from 60 entries to 150. *)
Lemma failed_ctl_unchanged_witness : DelEvent false 40 WRITE sample = (Ok false, sample) ∧
  CancelAll false 40 sample = (Ok false, sample) ∧
  ∃ m', AddEvent false (Some 900) (51, true) 100 WRITE None sample = (Ok (-1), m') ∧
    regs (heap m') ≡ₚ regs (heap sample) ∧ length (fd_contexts_ sample) = 60%nat ∧ length (fd_contexts_ m') = 150%nat.
Proof.
  destruct (failed_ctl_unchanged sample 40 Write None (51, true) None io_wf_sample ltac:(lia)) as (_ & H1 & _ & H2 & _).
  split; [exact H1|]. split; [exact H2|].
  destruct (failed_ctl_unchanged sample 100 Write (Some 900) (51, true) None io_wf_sample ltac:(lia)) as (H & _).
  destruct H as (m' & Hr & _ & Hregs & _).
  - intros p c (_ & Hp & _). vm_compute in Hp. discriminate Hp.
  - exists m'. split; [exact Hr|]. split; [exact Hregs|]. split; [vm_compute; reflexivity|].
    replace m' with (AddEvent false (Some 900) (51, true) 100 WRITE None sample).2 by exact (f_equal snd Hr).
    vm_compute. reflexivity.
Defined.


Definition idle_scheduler : Scheduler.Scheduler := Scheduler.mk_Scheduler [] [] [] 0 0 0 false false 0 true.

Lemma IO_Stopping_exact_witness : ∃ d t',
  Stopping 101 sample idle_scheduler Timer.sample = (Ok (false, d), t').
Proof.
  destruct (IO_Stopping_exact sample Timer.sample idle_scheduler 101 io_wf_sample Timer.timer_wf_sample)
    as (b & d & t' & H1 & H2); [lia| |].
  - apply (bool_decide_unpack (map_Forall (λ _ s, Timer.next_ s < 2 ^ 64) (Timer.heap_ Timer.sample))).
    by vm_compute.
  - exists d, t'. rewrite H1. destruct b; [|reflexivity].
    destruct H2 as [H2 _]. destruct (H2 eq_refl) as [H3 _]. by vm_compute in H3.
Defined.

(** ** Behaviour at the edges *)

(** Another thread cancels an event between [epoll_wait] and the handling of what it
    reported, while the other event of the descriptor is registered: the report is
    stale and the assertion of [TriggerEvent] fails. *)
Example stale_report_aborts :
  (CancelEvent true 40 READ;; handle_event true 41 (Z.lor EPOLLIN EPOLLOUT)) sample =
  (Err AssertFail, ((CancelEvent true 40 READ;; handle_event true 41 (Z.lor EPOLLIN EPOLLOUT)) sample).2).
Proof. by vm_compute. Qed.

(** Two threads find the table too small; the one that asked for less resizes it last
    and cuts off the context of the other, whose event is then not found. *)
Example resize_race_loses_event :
  let m := (AddEvent true (Some 900) (50, true) 100 READ None IOManager_new).2 in
  let m' := (ContextResize (40 * 3 / 2) m).2 in
  pending_event_count_ m' = 1 ∧ DelEvent true 100 READ m' = (Ok false, m') ∧
  CancelAll true 100 m' = (Ok false, m').
Proof. by vm_compute. Qed.

(** Descriptor -1, as that of a socket that has none, indexes the table below its start. *)
Example cancel_negative :
  (CancelEvent true (-1) READ sample).1 = Err UndefinedBehaviour ∧
  (CancelAll true (-1) sample).1 = Err UndefinedBehaviour.
Proof. by vm_compute. Qed.

(** An event added outside any scheduler is registered without one, and triggering
    it dereferences null. *)
Example add_without_scheduler :
  (AddEvent true None (50, true) 40 READ None;; CancelEvent true 40 READ) IOManager_new =
  (Err UndefinedBehaviour, ((AddEvent true None (50, true) 40 READ None;; CancelEvent true 40 READ) IOManager_new).2).
Proof. by vm_compute. Qed.

(** Each interruption begins the whole wait again: a timer that is due in a second is
    passed by when signals keep coming. *)
Example interrupted_past_timer : epoll_waits [None; None; Some tt] 1000 = Some ([1000; 1000; 1000], tt).
Proof. by vm_compute. Qed.

(** A next timer between 2^31 and 2^32 ms away (25 to 50 days) makes the timeout
    negative, and [epoll_wait] waits without a bound. *)
Example idle_sleeps_for_ever : epoll_timeout (2 ^ 31) = - 2 ^ 31 ∧ epoll_timeout (2 ^ 32 - 2) = -2.
Proof. by vm_compute. Qed.

End IOManager.
