(* ===== verification/Hook.v ===== *)
(** * The hooked system calls (net/hook.cc)

    [Module Hook]: what the wrappers of read, write, connect, sleep, close, fcntl,
    ioctl and setsockopt do around the original functions. The originals are the
    kernel's: a call is given the answers they will return ([script]), and each wait
    its outcome ([waits]); the wrappers return the answer and the list of what they
    did ([effect]).

    Theorems: for a blocking socket a hooked call returns what a blocking call would,
    never EAGAIN or EINTR, and leaves no timer behind; everything else goes straight
    to the original ([do_io_blocking]); the user sees the O_NONBLOCK flag he set while
    the descriptor stays non-blocking ([fcntl_transparent]); connect reports the error
    of the connection or the timeout ([connect_result]); closing a descriptor wakes
    what waits for it and forgets it ([close_wakes]). *)

From S2P Require Import Prelude FdManager IOManager.

Module Hook.
Import FdManager(FdCtx, O_NONBLOCK, SO_RCVTIMEO, SO_SNDTIMEO).
Import IOManager(READ, WRITE).

Local Open Scope Z_scope.

(** The Linux values of the constants the code uses. *)
Definition EINTR : Z := 4.
Definition EBADF : Z := 9.
Definition EAGAIN : Z := 11.
Definition ETIMEDOUT : Z := 110.
Definition EINPROGRESS : Z := 115.
Definition SOL_SOCKET : Z := 1.
Definition FIONBIO : Z := 21537.

(** What a call returns, and [errno] when that is -1. *)
Definition answer : Type := Z * Z.

(** How a wait ends. The thread has no IO manager, and the null pointer is followed; a
    fiber waits for the event already, and the assertion in [AddEvent] fails; [AddEvent]
    fails with an [errno]; the event comes; or the timer has fired before the fiber goes on:
    it took the event back, or, when it fired before [AddEvent], found nothing to take back,
    and the fiber goes on when the event comes, to be told that the time was up. *)
Inductive waiting := W_no_manager | W_registered | W_refused (err : Z) | W_ready | W_timeout.

#[export] Instance waiting_eq_dec : EqDecision waiting.
Proof. solve_decision. Defined.

(** What a wrapper does: calls the original, sets or cancels its timer, registers for
    an event, yields. *)
Inductive effect :=
  | ECall
  | EAddTimer (ms : Z)
  | EAddEvent (event : Z)
  | EYield
  | ECancelTimer.

#[export] Instance effect_eq_dec : EqDecision effect.
Proof. solve_decision. Defined.

(** ** do_io *)

(** A timeout of -1, as [uint64_t], is none. *)
Definition no_timeout : Z := 2 ^ 64 - 1.

Definition add_timer (to : Z) : list effect := if decide (to = no_timeout) then [] else [EAddTimer to].
Definition cancel_timer (to : Z) : list effect := if decide (to = no_timeout) then [] else [ECancelTimer].

(** Waits that end in a crash. *)
Definition crash (w : waiting) : option fault :=
  match w with W_no_manager => Some UndefinedBehaviour | W_registered => Some AssertFail | _ => None end.

(** From the label [retry] on. [None] is a call or a wait that has not ended. *)
Fixpoint io_loop (to event : Z) (script : list answer) (waits : list waiting) (log : list effect) :
    option (res answer * list effect) :=
  match script with
  | [] => None
  | (n, err) :: script =>
      let log := log ++ [ECall] in
      if decide (n = -1 ∧ err = EINTR) then io_loop to event script waits log
      else if decide (n = -1 ∧ err = EAGAIN) then
        match waits with
        | [] => None
        | W_no_manager :: _ => Some (Err UndefinedBehaviour, log)
        | W_registered :: _ => Some (Err AssertFail, log ++ add_timer to ++ [EAddEvent event])
        | W_refused err :: _ => Some (Ok (-1, err), log ++ add_timer to ++ [EAddEvent event] ++ cancel_timer to)
        | w :: waits =>
            let log := log ++ add_timer to ++ [EAddEvent event; EYield] ++ cancel_timer to in
            if decide (w = W_timeout ∧ to ≠ no_timeout) then Some (Ok (-1, ETIMEDOUT), log)
            else io_loop to event script waits log
        end
      else Some (Ok (n, err), log)
  end.

(** The original function called once. *)
Definition call_original (script : list answer) : option (res answer * list effect) :=
  match script with [] => None | a :: _ => Some (Ok a, [ECall]) end.

(** [do_io]; [ctx] is what [FdMgr::Get(fd)] returns. *)
Definition do_io (hook_enable : bool) (ctx : option FdCtx) (event timeout_so : Z)
    (script : list answer) (waits : list waiting) : option (res answer * list effect) :=
  if negb hook_enable then call_original script
  else match ctx with
  | None => call_original script
  | Some ctx =>
      if FdManager.IsClose ctx then Some (Ok (-1, EBADF), [])
      else if negb (FdManager.IsSocket ctx) || FdManager.GetUserNonblock ctx then call_original script
      else io_loop (FdManager.GetTimeout timeout_so ctx) event script waits []
  end.

Definition read (h : bool) (ctx : option FdCtx) := do_io h ctx READ SO_RCVTIMEO.
Definition readv (h : bool) (ctx : option FdCtx) := do_io h ctx READ SO_RCVTIMEO.
Definition recv (h : bool) (ctx : option FdCtx) := do_io h ctx READ SO_RCVTIMEO.
Definition recvfrom (h : bool) (ctx : option FdCtx) := do_io h ctx READ SO_RCVTIMEO.
Definition recvmsg (h : bool) (ctx : option FdCtx) := do_io h ctx READ SO_RCVTIMEO.
Definition write (h : bool) (ctx : option FdCtx) := do_io h ctx WRITE SO_SNDTIMEO.
Definition writev (h : bool) (ctx : option FdCtx) := do_io h ctx WRITE SO_SNDTIMEO.
Definition send (h : bool) (ctx : option FdCtx) := do_io h ctx WRITE SO_SNDTIMEO.
Definition sendto (h : bool) (ctx : option FdCtx) := do_io h ctx WRITE SO_SNDTIMEO.
Definition sendmsg (h : bool) (ctx : option FdCtx) := do_io h ctx WRITE SO_SNDTIMEO.

(** [accept]: the new descriptor, an [int], gets a context. [k] is the kernel's view of
    it and [a] the address of a new context. *)
Definition accept (h : bool) (ctx : option FdCtx) (script : list answer) (waits : list waiting)
    (k : FdManager.kernel_fd) (a : Z) (m : FdManager.FdManager) :
    option (res answer * list effect * FdManager.FdManager) :=
  match do_io h ctx READ SO_RCVTIMEO script waits with
  | None => None
  | Some (Err e, log) => Some (Err e, log, m)
  | Some (Ok (n, err), log) =>
      let fd := i32(n) in
      if decide (0 ≤ fd) then
        match FdManager.Get k a fd true m with
        | (Ok _, m) => Some (Ok (fd, err), log, m)
        | (Err e, m) => Some (Err e, log, m)
        end
      else Some (Ok (fd, err), log, m)
  end.

(** [socket], when the original returned [fd]. *)
Definition socket (h : bool) (fd : Z) (k : FdManager.kernel_fd) (a : Z) :
    M FdManager.FdManager Z :=
  if negb h then mret fd
  else if decide (fd = -1) then mret fd
  else
    FdManager.Get k a fd true;;
    mret fd.

(** ** Sleeping *)

(** The intervals of the timers: [unsigned int], [useconds_t] and [int] arithmetic;
    the argument of [AddTimer] is a [uint64_t]. *)
Definition sleep_ms (seconds : Z) : Z := u32(seconds * 1000).
Definition usleep_ms (usec : Z) : Z := usec `quot` 1000.
Definition nanosleep_ms (sec nsec : Z) : Z := u64(i32(sec * 1000 + nsec `quot` 1000 `quot` 1000)).

(** All three set a timer that schedules the current fiber, yield and return 0. *)
Definition sleep (h : bool) (seconds original : Z) : Z * list effect :=
  if negb h then (original, [ECall]) else (0, [EAddTimer (sleep_ms seconds); EYield]).
Definition usleep (h : bool) (usec original : Z) : Z * list effect :=
  if negb h then (original, [ECall]) else (0, [EAddTimer (usleep_ms usec); EYield]).
Definition nanosleep (h : bool) (sec nsec original : Z) : Z * list effect :=
  if negb h then (original, [ECall]) else (0, [EAddTimer (nanosleep_ms sec nsec); EYield]).

(** ** connect *)

(** [s_connect_timeout], from the configured [int]. *)
Definition connect_timeout (configured : Z) : Z := u64(configured).

(** [connect_with_timeout]: [first] is the answer of [connect_f], [w] how the wait
    ends, and [so] the answer of [getsockopt] with the error it stores. *)
Definition connect_with_timeout (h : bool) (ctx : option FdCtx) (timeout_ms : Z)
    (first : answer) (w : waiting) (so : answer * Z) : res answer * list effect :=
  if negb h then (Ok first, [ECall])
  else match ctx with
  | None => (Ok (-1, EBADF), [])
  | Some ctx =>
      if FdManager.IsClose ctx then (Ok (-1, EBADF), [])
      else if negb (FdManager.IsSocket ctx) then (Ok first, [ECall])
      else if FdManager.GetUserNonblock ctx then (Ok first, [ECall])
      else if decide (first.1 = 0) then (Ok (0, first.2), [ECall])
      else if decide (first.1 ≠ -1 ∨ first.2 ≠ EINPROGRESS) then (Ok first, [ECall])
      else
        let set := [ECall] ++ add_timer timeout_ms ++ [EAddEvent WRITE] in
        let finish (refused cancelled : bool) :=
          let log := set ++ (if refused then [] else [EYield]) ++ cancel_timer timeout_ms in
          if cancelled then (Ok (-1, ETIMEDOUT), log)
          else if decide (so.1.1 = -1) then (Ok (-1, so.1.2), log)
          else if decide (so.2 = 0) then (Ok (0, so.1.2), log)
          else (Ok (-1, so.2), log) in
        match w with
        | W_no_manager => (Err UndefinedBehaviour, [ECall])
        | W_registered => (Err AssertFail, set)
        | W_refused _ => finish true false
        | W_ready => finish false false
        | W_timeout => finish false (bool_decide (timeout_ms ≠ no_timeout))
        end
  end.

Definition connect (h : bool) (ctx : option FdCtx) (configured : Z) (first : answer) (w : waiting)
    (so : answer * Z) : res answer * list effect :=
  connect_with_timeout h ctx (connect_timeout configured) first w so.

(** ** close, fcntl, ioctl and setsockopt *)

(** The table of contexts, the IO manager of the thread if it has one, and the
    kernel's status flags of the open descriptors. *)
Record World := mk_World {
  fds : FdManager.FdManager;
  iom : option IOManager.IOManager;
  kflags : gmap Z Z
}.

Definition set_fds (m : FdManager.FdManager) (w : World) : World := mk_World m (iom w) (kflags w).

(** Look-up without creation: the context behind [Get(fd)]. *)
Definition get_ctx (fd : Z) (w : World) : res (option (Z * FdCtx)) :=
  match FdManager.Get (FdManager.mk_kernel_fd None 0) 0 fd false (fds w) with
  | (Ok (Some p), m) =>
      match FdManager.heap m !! p with
      | Some c => Ok (Some (p, c))
      | None => Err UndefinedBehaviour
      end
  | (Ok None, _) => Ok None
  | (Err e, _) => Err e
  end.

Definition update_ctx (p : Z) (g : FdCtx → FdCtx) (w : World) : World :=
  set_fds (FdManager.mk_FdManager (alter g p (FdManager.heap (fds w))) (FdManager.datas_ (fds w))) w.

(** [close_f]: 0, or -1 for a descriptor that is not open. *)
Definition close_original (fd : Z) (w : World) : Z * World :=
  match kflags w !! fd with
  | Some _ => (0, mk_World (fds w) (iom w) (delete fd (kflags w)))
  | None => (-1, w)
  end.

Definition close (h ctl_ok : bool) (fd : Z) (w : World) : res (Z * World) :=
  if negb h then Ok (close_original fd w)
  else
    c ← get_ctx fd w;
    match c with
    | None => Ok (close_original fd w)
    | Some _ =>
        i ← match iom w with
            | None => Ok None
            | Some i => match IOManager.CancelAll ctl_ok fd i with
                        | (Ok _, i) => Ok (Some i)
                        | (Err e, _) => Err e
                        end
            end;
        match FdManager.Del fd (fds w) with
        | (Ok _, m) => Ok (close_original fd (mk_World m i (kflags w)))
        | (Err e, _) => Err e
        end
    end.

(** Does the wrapper manage the descriptor? *)
Definition managed (c : option (Z * FdCtx)) : option (Z * FdCtx) :=
  match c with
  | Some (p, c) => if FdManager.IsClose c || negb (FdManager.IsSocket c) then None else Some (p, c)
  | None => None
  end.

(** [fcntl_f] with F_SETFL and F_GETFL. *)
Definition setfl_original (fd arg : Z) (w : World) : Z * World :=
  match kflags w !! fd with
  | Some _ => (0, mk_World (fds w) (iom w) (<[fd := arg]> (kflags w)))
  | None => (-1, w)
  end.
Definition getfl_original (fd : Z) (w : World) : Z := default (-1) (kflags w !! fd).

Definition fcntl_SETFL (fd arg : Z) (w : World) : res (Z * World) :=
  c ← get_ctx fd w;
  match managed c with
  | None => Ok (setfl_original fd arg w)
  | Some (p, c) =>
      let w := update_ctx p (FdManager.SetUserNonblock (bool_decide (Z.land arg O_NONBLOCK ≠ 0))) w in
      let arg := if FdManager.GetSysNonblock c then Z.lor arg O_NONBLOCK
                 else Z.land arg (Z.lnot O_NONBLOCK) in
      Ok (setfl_original fd arg w)
  end.

Definition fcntl_GETFL (fd : Z) (w : World) : res Z :=
  let arg := getfl_original fd w in
  c ← get_ctx fd w;
  match managed c with
  | None => Ok arg
  | Some (_, c) => Ok (if FdManager.GetUserNonblock c then Z.lor arg O_NONBLOCK
                       else Z.land arg (Z.lnot O_NONBLOCK))
  end.

(** The commands of [fcntl] by what is passed on to the original: an [int], nothing,
    a pointer; an unknown command loses its argument. *)
Inductive fcntl_arg := pass_int | pass_none | pass_pointer.

Inductive fcntl_cmd :=
  | F_DUPFD | F_DUPFD_CLOEXEC | F_SETFD | F_SETOWN | F_SETSIG | F_SETLEASE | F_NOTIFY | F_SETPIPE_SZ
  | F_GETFD | F_GETOWN | F_GETSIG | F_GETLEASE | F_GETPIPE_SZ
  | F_SETLK | F_SETLKW | F_GETLK | F_GETOWN_EX | F_SETOWN_EX | F_OTHER.

Definition fcntl_passes (cmd : fcntl_cmd) : fcntl_arg :=
  match cmd with
  | F_DUPFD | F_DUPFD_CLOEXEC | F_SETFD | F_SETOWN | F_SETSIG | F_SETLEASE | F_NOTIFY
  | F_SETPIPE_SZ => pass_int
  | F_GETFD | F_GETOWN | F_GETSIG | F_GETLEASE | F_GETPIPE_SZ => pass_none
  | F_SETLK | F_SETLKW | F_GETLK | F_GETOWN_EX | F_SETOWN_EX => pass_pointer
  | F_OTHER => pass_none
  end.

(** The kernel's FIONBIO sets or clears O_NONBLOCK. *)
Definition fionbio_original (fd value : Z) (w : World) : Z * World :=
  match kflags w !! fd with
  | Some fl => (0, mk_World (fds w) (iom w)
      (<[fd := if decide (value = 0) then Z.land fl (Z.lnot O_NONBLOCK) else Z.lor fl O_NONBLOCK]> (kflags w)))
  | None => (-1, w)
  end.

Definition ioctl_FIONBIO (fd value : Z) (w : World) : res (Z * World) :=
  c ← get_ctx fd w;
  match managed c with
  | None => Ok (fionbio_original fd value w)
  | Some (p, _) =>
      Ok (fionbio_original fd value
            (update_ctx p (FdManager.SetUserNonblock (bool_decide (value ≠ 0))) w))
  end.

(** [setsockopt]: the [timeval] is two [long]s, the sum is converted to [uint64_t]. *)
Definition timeout_of (sec usec : Z) : Z := u64(sec * 1000 + usec `quot` 1000).

Definition setsockopt (h : bool) (fd level optname sec usec : Z) (w : World) : res World :=
  if negb h then Ok w
  else if decide (level = SOL_SOCKET ∧ (optname = SO_RCVTIMEO ∨ optname = SO_SNDTIMEO)) then
    c ← get_ctx fd w;
    match c with
    | Some (p, _) => Ok (update_ctx p (FdManager.SetTimeout optname (timeout_of sec usec)) w)
    | None => Ok w
    end
  else Ok w.

(** ** What a blocking call does *)

(** An answer that a blocking call would not give. *)
Definition transient (a : answer) : bool :=
  bool_decide (a.1 = -1 ∧ (a.2 = EINTR ∨ a.2 = EAGAIN)).

Definition would_block (a : answer) : bool := bool_decide (a.1 = -1 ∧ a.2 = EAGAIN).

(** The answer a blocking call gives, and how often it has to wait for it. *)
Fixpoint blocking (script : list answer) : option (answer * nat) :=
  match script with
  | [] => None
  | a :: script =>
      if transient a then
        '(b, n) ← blocking script; Some (b, (if would_block a then S n else n))
      else Some (a, 0%nat)
  end.

(** At most one timer is pending, and none at the end. *)
Fixpoint timers_balanced (pending : bool) (log : list effect) : bool :=
  match log with
  | [] => negb pending
  | EAddTimer _ :: log => negb pending && timers_balanced true log
  | ECancelTimer :: log => pending && timers_balanced false log
  | _ :: log => timers_balanced pending log
  end.

Lemma timers_balanced_app l1 l2 b : timers_balanced b l1 = true →
  timers_balanced b (l1 ++ l2) = timers_balanced false l2.
Proof.
  revert b. induction l1 as [|e l1 IH]; intros b; simpl; [by destruct b|].
  destruct e; simpl; auto; rewrite andb_true_iff; intros [-> H]; simpl; auto.
Qed.

Definition yields (log : list effect) : nat := length (filter (λ e, e = EYield) log).

Lemma yields_app l1 l2 : yields (l1 ++ l2) = (yields l1 + yields l2)%nat.
Proof. unfold yields. by rewrite filter_app, length_app. Qed.

(** One wait: a timer when there is a timeout, the event, the yield. *)
Lemma wait_log to event : timers_balanced false (add_timer to ++ [EAddEvent event; EYield] ++ cancel_timer to) = true ∧
  timers_balanced false (add_timer to ++ [EAddEvent event] ++ cancel_timer to) = true ∧
  yields (add_timer to ++ [EAddEvent event; EYield] ++ cancel_timer to) = 1%nat.
Proof. unfold add_timer, cancel_timer. by case_decide. Qed.

Lemma io_loop_cases to event script : ∀ waits log a log', timers_balanced false log = true →
  io_loop to event script waits log = Some (Ok a, log') →
  timers_balanced false log' = true ∧
  (option_map fst (blocking script) = Some a ∨
   (a = (-1, ETIMEDOUT) ∧ to ≠ no_timeout ∧ W_timeout ∈ waits) ∨
   (∃ err, a = (-1, err) ∧ W_refused err ∈ waits)).
Proof.
  induction script as [|[n err] script IH]; intros waits log a log' Hb; simpl; [done|].
  assert (timers_balanced false (log ++ [ECall]) = true) as Hb'.
  { by rewrite timers_balanced_app. }
  unfold transient. simpl. destruct (wait_log to event) as (Hw1 & Hw2 & _).
  case_decide as Hintr.
  { intros H. destruct (IH _ _ _ _ Hb' H) as [? Hc]. split; [done|].
    rewrite bool_decide_eq_true_2 by tauto. destruct (blocking script) as [[]|]; naive_solver. }
  case_decide as Hagain; last first.
  { intros [= <- <-]. split; [done|]. left. rewrite bool_decide_eq_false_2 by tauto. done. }
  rewrite bool_decide_eq_true_2 by tauto.
  assert (∀ w ws, waits = w :: ws → io_loop to event script ws
      ((log ++ [ECall]) ++ add_timer to ++ [EAddEvent event; EYield] ++ cancel_timer to) = Some (Ok a, log') →
    timers_balanced false log' = true ∧
    (option_map fst ('(b, m) ← blocking script; Some (b, (if would_block (n, err) then S m else m))) = Some a ∨
     (a = (-1, ETIMEDOUT) ∧ to ≠ no_timeout ∧ W_timeout ∈ waits) ∨
     (∃ err, a = (-1, err) ∧ W_refused err ∈ waits))) as Hrec.
  { intros w ws -> H. apply IH in H; [|by rewrite timers_balanced_app].
    destruct H as [? Hc]. split; [done|]. destruct Hc as [Hc|[(? & ? & ?)|(e & ? & ?)]].
    - left. destruct (blocking script) as [[]|]; done.
    - right; left. split_and!; [done..|by right].
    - right; right. exists e. split; [done|by right]. }
  destruct waits as [|[| |e| |] waits]; [done..| | |].
  - intros [= <- <-]. split; [by rewrite timers_balanced_app|]. right; right. exists e. split; [done|left].
  - rewrite decide_False by naive_solver. by apply (Hrec W_ready waits).
  - case_decide as Hto; [|by apply (Hrec W_timeout waits)]. intros [= <- <-].
    split; [by rewrite timers_balanced_app|]. right; left. split_and!; [done|tauto|left].
Qed.

(** A call crashes only in a wait that does. *)
Lemma io_loop_crash to event script : ∀ waits log e log',
  io_loop to event script waits log = Some (Err e, log') → Exists (λ w, crash w = Some e) waits.
Proof.
  induction script as [|[n err] script IH]; intros waits log e log'; simpl; [done|].
  case_decide; [apply IH|]. case_decide; [|done].
  destruct waits as [|[| |x| |] waits]; [done|intros [= <- _]; by left|intros [= <- _]; by left|done| |];
    (case_decide; [done|]); intros Hl; right; by eapply IH.
Qed.

Lemma io_loop_ready to event script a n : ∀ log k, blocking script = Some (a, n) → (n ≤ k)%nat →
  ∃ log', io_loop to event script (replicate k W_ready) log = Some (Ok a, log') ∧
    yields log' = (yields log + n)%nat.
Proof.
  revert n. induction script as [|[x err] script IH]; intros n log k; simpl; [done|].
  unfold transient, would_block. simpl. case_bool_decide as Ht; last first.
  { intros [= <- <-] _. rewrite !decide_False by tauto. eexists. split; [done|].
    rewrite yields_app. simpl. unfold yields. simpl. lia. }
  destruct (blocking script) as [[b m]|]; [|done]. simpl. intros [= -> <-] Hk.
  destruct (wait_log to event) as (_ & _ & Hy).
  destruct (decide (x = -1 ∧ err = EINTR)) as [Hintr|Hintr].
  { rewrite bool_decide_eq_false_2 in * by (intros [_ ->]; by destruct Hintr).
    destruct (IH m (log ++ [ECall]) k eq_refl Hk) as (log' & Hl & Hyl). exists log'. split; [done|].
    rewrite Hyl, yields_app. unfold yields. simpl. lia. }
  rewrite decide_True by tauto. rewrite bool_decide_eq_true_2 in * by tauto.
  destruct k as [|k]; [lia|]. simpl replicate. cbv iota. rewrite decide_False by naive_solver.
  destruct (IH m ((log ++ [ECall]) ++ add_timer to ++ [EAddEvent event; EYield] ++ cancel_timer to) k
    eq_refl ltac:(lia)) as (log' & Hl & Hyl). exists log'. split; [exact Hl|].
  rewrite Hyl, yields_app, Hy, yields_app. unfold yields at 2. simpl. lia.
Qed.

(** A blocking socket that is open. *)
Definition blocking_socket (c : FdCtx) : bool :=
  negb (FdManager.IsClose c) && FdManager.IsSocket c && negb (FdManager.GetUserNonblock c).

Lemma do_io_socket c event so script waits : blocking_socket c = true →
  do_io true (Some c) event so script waits =
    io_loop (FdManager.GetTimeout so c) event script waits [].
Proof.
  unfold blocking_socket, do_io. rewrite !andb_true_iff, !negb_true_iff. intros [[-> ->] ->]. done.
Qed.

(** C24. On a blocking socket a hooked call behaves like the blocking call: when every
    wait ends with the event, it returns the first answer that is neither EINTR nor
    EAGAIN, after one yield for each EAGAIN. In any case it returns that answer, or
    -1 with ETIMEDOUT when a timeout was set and ran out, or -1 with the error of
    [AddEvent]; and each timer it sets it also cancels, before it sets another. It fails
    only by a wait that does: in a thread without an IO manager, or for an event that a
    fiber waits for already. When
    hooking is off, or the descriptor is unknown, not a socket or non-blocking for
    the user, the original is called once and its answer returned. *)
Theorem do_io_blocking c event so :
  (blocking_socket c = true →
   (∀ script a n k, blocking script = Some (a, n) → (n ≤ k)%nat →
      ∃ log, do_io true (Some c) event so script (replicate k W_ready) = Some (Ok a, log) ∧ yields log = n) ∧
   (∀ script waits a log, do_io true (Some c) event so script waits = Some (Ok a, log) →
      timers_balanced false log = true ∧
      (option_map fst (blocking script) = Some a ∨
       (a = (-1, ETIMEDOUT) ∧ FdManager.GetTimeout so c ≠ no_timeout ∧ W_timeout ∈ waits) ∨
       (∃ err, a = (-1, err) ∧ W_refused err ∈ waits))) ∧
   (∀ script waits e log, do_io true (Some c) event so script waits = Some (Err e, log) →
      Exists (λ w, crash w = Some e) waits)) ∧
  (∀ h ctx script waits,
     h = false ∨ ctx = None ∨ (ctx = Some c ∧ FdManager.IsClose c = false ∧
       (FdManager.IsSocket c = false ∨ FdManager.GetUserNonblock c = true)) →
     do_io h ctx event so script waits = call_original script).
Proof.
  split.
  - intros Hc. split_and!; intros script.
    + intros a n k Hb Hk. rewrite do_io_socket by done.
      by destruct (io_loop_ready (FdManager.GetTimeout so c) event script a n [] k Hb Hk) as (log & ? & ?); eauto.
    + intros waits a log. rewrite do_io_socket by done. by apply io_loop_cases.
    + intros waits e log. rewrite do_io_socket by done. apply io_loop_crash.
  - intros h ctx script waits [->|[->|(-> & Hcl & Hs)]]; [done|by destruct h|].
    unfold do_io. destruct h; [|done]. simpl. rewrite Hcl.
    destruct Hs as [->| ->]; [done|]. by rewrite orb_true_r.
Qed.

(** ** Flags *)

Definition has_ctx (w : World) (fd p : Z) (c : FdCtx) : Prop :=
  0 ≤ fd ∧ FdManager.lookup_fd (fds w) fd = Some p ∧ FdManager.heap (fds w) !! p = Some c.

Lemma get_ctx_ok w fd p c : has_ctx w fd p c → get_ctx fd w = Ok (Some (p, c)).
Proof.
  intros (Hfd & Hp & Hc). unfold get_ctx, FdManager.Get.
  rewrite (bind_ok _ _ _ _ _ (FdManager.Get_read_ok (fds w) fd false Hfd)), Hp. simpl.
  by rewrite Hc.
Qed.

Lemma has_ctx_update w fd p c g : has_ctx w fd p c → has_ctx (update_ctx p g w) fd p (g c).
Proof. intros (Hfd & Hp & Hc). split_and!; [done|done|]. simpl. by rewrite lookup_alter_eq, Hc. Qed.

Lemma has_ctx_flags w fd p c i k : has_ctx w fd p c → has_ctx (mk_World (fds w) i k) fd p c.
Proof. done. Qed.

Lemma set_clear_nonblock arg :
  (if bool_decide (Z.land arg O_NONBLOCK ≠ 0) then Z.lor (Z.lor arg O_NONBLOCK) O_NONBLOCK
   else Z.land (Z.lor arg O_NONBLOCK) (Z.lnot O_NONBLOCK)) = arg.
Proof.
  change O_NONBLOCK with (2 ^ 11).
  assert (∀ n, 0 ≤ n → Z.testbit (2 ^ 11) n = bool_decide (n = 11)) as Hbit.
  { intros n Hn. rewrite Z.pow2_bits_eqb by lia. by destruct (Z.eqb_spec 11 n); case_bool_decide; try lia. }
  assert (Z.land arg (2 ^ 11) = 0 ↔ Z.testbit arg 11 = false) as H0.
  { split.
    - intros H. apply (f_equal (λ z, Z.testbit z 11)) in H. rewrite Z.land_spec, Hbit in H by lia.
      rewrite bool_decide_eq_true_2, andb_true_r, Z.bits_0 in H by done. done.
    - intros H. apply Z.bits_inj'. intros n Hn. rewrite Z.land_spec, Hbit, Z.bits_0 by lia.
      case_bool_decide as He; [subst; by rewrite H|apply andb_false_r]. }
  apply Z.bits_inj'. intros n Hn. case_bool_decide as Hb.
  - rewrite !Z.lor_spec, Hbit by lia. case_bool_decide as He; [|by rewrite !orb_false_r].
    subst. rewrite !orb_true_r. symmetry. apply not_false_is_true. intros H. by apply Hb, H0.
  - rewrite Z.land_spec, Z.lor_spec, Z.lnot_spec, Hbit by lia.
    apply H0 in Hb. case_bool_decide as He.
    + subst. by rewrite Hb, andb_false_r.
    + by rewrite orb_false_r, andb_true_r.
Qed.

(** The user of a managed socket sees the flags he sets: F_GETFL after F_SETFL
    returns them, O_NONBLOCK as he set it, although the descriptor is non-blocking
    in the kernel all the time. The wrapper remembers his choice, and from then on
    treats the socket as blocking or not accordingly; other descriptors are not
    touched. *)
Theorem fcntl_transparent w fd p c fl arg :
  has_ctx w fd p c → FdManager.IsClose c = false → FdManager.IsSocket c = true →
  FdManager.GetSysNonblock c = true → kflags w !! fd = Some fl →
  ∃ w', fcntl_SETFL fd arg w = Ok (0, w') ∧
    kflags w' = <[fd := Z.lor arg O_NONBLOCK]> (kflags w) ∧
    fcntl_GETFL fd w' = Ok arg ∧
    has_ctx w' fd p (FdManager.SetUserNonblock (bool_decide (Z.land arg O_NONBLOCK ≠ 0)) c) ∧
    (∀ q, q ≠ p → FdManager.heap (fds w') !! q = FdManager.heap (fds w) !! q).
Proof.
  intros Hc Hcl Hs Hn Hk. unfold FdManager.GetSysNonblock in Hn.
  set (c' := FdManager.SetUserNonblock (bool_decide (Z.land arg O_NONBLOCK ≠ 0)) c).
  pose proof (has_ctx_update w fd p c
    (FdManager.SetUserNonblock (bool_decide (Z.land arg O_NONBLOCK ≠ 0))) Hc) as Hc'. fold c' in Hc'.
  eexists. split.
  - unfold fcntl_SETFL. rewrite (get_ctx_ok _ _ _ _ Hc). simpl. rewrite Hcl, Hs. simpl.
    unfold FdManager.GetSysNonblock. rewrite Hn. unfold setfl_original. simpl. rewrite Hk. reflexivity.
  - simpl. split; [done|]. split; [|split; [exact Hc'|]].
    + unfold fcntl_GETFL. erewrite get_ctx_ok; [|exact Hc']. simpl.
      unfold FdManager.IsClose, FdManager.IsSocket in *. simpl. rewrite Hcl, Hs. simpl.
      unfold getfl_original. simpl. rewrite lookup_insert_eq. simpl. f_equal. apply set_clear_nonblock.
    + intros q Hq. by rewrite lookup_alter_ne.
Qed.

(** ** connect and close *)

(** A connect crashes only in a wait that does. *)
Lemma connect_sound h ctx ms first w so : crash w = None →
  ∃ a log, connect_with_timeout h ctx ms first w so = (Ok a, log).
Proof. intros Hw. unfold connect_with_timeout. repeat case_match; try done; by do 2 eexists. Qed.

(** A hooked connect of a blocking socket whose connection does not complete at
    once waits for it, unless the event cannot be registered, and returns 0 when the
    socket has no error then, -1 with ETIMEDOUT when the timeout ran out first, and
    -1 with the socket's error otherwise; no timer is left. (If the wait does not crash.) *)
Theorem connect_result c configured w so first : blocking_socket c = true →
  first.1 = -1 → first.2 = EINPROGRESS → -2 ^ 31 ≤ configured < 2 ^ 31 → crash w = None →
  ∃ log, connect true (Some c) configured first w so =
    (Ok (if decide (w = W_timeout ∧ configured ≠ -1) then (-1, ETIMEDOUT)
     else if decide (so.1.1 = -1) then (-1, so.1.2)
     else if decide (so.2 = 0) then (0, so.1.2) else (-1, so.2)), log) ∧
    timers_balanced false log = true ∧
    yields log = (match w with W_refused _ => 0 | _ => 1 end)%nat.
Proof.
  intros Hc H1 H2 Hconf Hcrash. unfold blocking_socket in Hc. rewrite !andb_true_iff, !negb_true_iff in Hc.
  destruct Hc as [[Hcl Hs] Hu]. unfold connect, connect_with_timeout. rewrite Hcl, Hs, Hu. simpl.
  rewrite decide_False by lia. rewrite decide_False by lia.
  assert (connect_timeout configured = no_timeout ↔ configured = -1) as Hto.
  { unfold connect_timeout, no_timeout, wrap. split; [|by intros ->].
    intros H. destruct (decide (0 ≤ configured)).
    - rewrite Z.mod_small in H by lia. lia.
    - rewrite <- (Z.mod_add configured 1) in H by lia. rewrite Z.mod_small in H by lia. lia. }
  unfold add_timer, cancel_timer.
  destruct (decide (connect_timeout configured = no_timeout)) as [Ht|Ht].
  - rewrite bool_decide_eq_false_2 by auto. rewrite (decide_False (P := w = W_timeout ∧ configured ≠ -1)) by tauto.
    destruct w; try done; simpl; repeat case_decide; eauto.
  - rewrite bool_decide_eq_true_2 by done.
    destruct w; [done|done|rewrite (decide_False (P := _ ∧ _)) by naive_solver|
      rewrite (decide_False (P := _ ∧ _)) by naive_solver|
      rewrite (decide_True (P := _ ∧ _)) by tauto]; simpl; repeat case_decide; eauto.
Qed.

(** Closing a managed descriptor hands everything that waits for it to its
    scheduler, takes it out of epoll and out of the table, and closes it. *)
Theorem close_wakes w fd p c i q x fl : has_ctx w fd p c → FdManager.wf (fds w) →
  iom w = Some i → IOManager.wf i → IOManager.context_of i fd q x → kflags w !! fd = Some fl →
  ∃ w' i', close true true fd w = Ok (0, w') ∧ iom w' = Some i' ∧
    IOManager.woken i' = IOManager.woken i ++ IOManager.reg_of x ∧
    IOManager.epoll i' !! fd = None ∧ IOManager.wf i' ∧
    FdManager.lookup_fd (fds w') fd = None ∧ kflags w' = delete fd (kflags w).
Proof.
  intros Hc Hfw Hi Hiw Hctx Hk. pose proof Hc as (Hfd & _).
  unfold close. rewrite (get_ctx_ok _ _ _ _ Hc). simpl. rewrite Hi.
  pose proof (IOManager.CancelAll_ok i fd q x Hiw Hctx true) as Hca. cbv zeta in Hca.
  destruct (FdManager.Del_ok (fds w) fd Hfw Hfd) as (m' & Hdel & _ & _ & Hl).
  pose proof Hctx as (_ & _ & Hh & Hxfd).
  pose proof (IOManager.wf_heap _ Hiw _ _ Hh) as (Hok & _).
  assert (IOManager.events x = IOManager.mask (IOManager.waits IOManager.Read x)
    (IOManager.waits IOManager.Write x)) as Hm by apply Hok.
  assert (∀ e, IOManager.waits e x = false → IOManager.registration e x = None) as Hnr
    by (intros; by apply IOManager.not_waits_registration).
  destruct (IOManager.waits IOManager.Read x || IOManager.waits IOManager.Write x) eqn:Hor; rewrite Hca.
  - simpl. rewrite Hdel. unfold close_original. simpl. rewrite Hk. do 2 eexists. split; [reflexivity|].
    split; [reflexivity|]. simpl. split_and!.
    + unfold IOManager.fired_regs, IOManager.reg_of. f_equal.
      destruct (IOManager.waits IOManager.Read x) eqn:HR, (IOManager.waits IOManager.Write x) eqn:HW;
        rewrite ?(Hnr _ HR), ?(Hnr _ HW); done.
    + rewrite Hxfd, lookup_partial_alter_eq. unfold IOManager.interest.
      rewrite IOManager.fired_events by done.
      by destruct (IOManager.waits IOManager.Read x), (IOManager.waits IOManager.Write x).
    + by apply IOManager.fired_wf.
    + rewrite Hl by done. by rewrite decide_True.
    + done.
  - apply orb_false_iff in Hor as [HR HW]. simpl. rewrite Hdel. unfold close_original. simpl. rewrite Hk.
    do 2 eexists. split; [reflexivity|]. split; [reflexivity|]. simpl. split_and!.
    + unfold IOManager.reg_of. rewrite (Hnr _ HR), (Hnr _ HW). by rewrite app_nil_r.
    + rewrite <- Hxfd. rewrite (IOManager.wf_epoll _ Hiw _ _ Hh). unfold IOManager.interest.
      rewrite Hm, HR, HW. done.
    + done.
    + rewrite Hl by done. by rewrite decide_True.
    + done.
Qed.

(** ** Witnesses *)

(** A blocking socket with a receive timeout of 300 ms. *)
Definition sample_ctx : FdCtx :=
  FdManager.SetTimeout SO_RCVTIMEO 300 (FdManager.FdCtx_new (FdManager.mk_kernel_fd (Some true) 2) 40).

Lemma do_io_blocking_witness :
  (∃ log, do_io true (Some sample_ctx) READ SO_RCVTIMEO
     [(-1, EINTR); (-1, EAGAIN); (-1, EAGAIN); (17, 0)] [W_ready; W_ready] = Some (Ok (17, 0), log) ∧
     yields log = 2%nat) ∧
  (∃ log, do_io true (Some sample_ctx) READ SO_RCVTIMEO [(-1, EAGAIN)] [W_timeout] =
     Some (Ok (-1, ETIMEDOUT), log) ∧ timers_balanced false log = true).
Proof.
  destruct (do_io_blocking sample_ctx READ SO_RCVTIMEO) as [H _]. destruct H as (H1 & H2 & _); [by vm_compute|].
  split.
  - destruct (H1 [(-1, EINTR); (-1, EAGAIN); (-1, EAGAIN); (17, 0)] (17, 0) 2%nat 2%nat) as (log & Hl & Hy);
      [by vm_compute|lia|]. exists log. split; [exact Hl|exact Hy].
  - eexists. split; [by vm_compute|].
    refine (proj1 (H2 [(-1, EAGAIN)] [W_timeout] (-1, ETIMEDOUT) _ _)). by vm_compute.
Defined.

(** Descriptor 40 is open and managed, and its context is at 1000. *)
Definition sample_world : World :=
  mk_World (FdManager.Get (FdManager.mk_kernel_fd (Some true) 2) 1000 40 true FdManager.FdManager_new).2
    (Some IOManager.sample) {[ 40 := 2050 ]}.

Lemma sample_has_ctx : has_ctx sample_world 40 1000 (FdManager.FdCtx_new (FdManager.mk_kernel_fd (Some true) 2) 40).
Proof. split; [lia|]. by vm_compute. Qed.

Lemma fcntl_transparent_witness : ∃ w', fcntl_SETFL 40 2 sample_world = Ok (0, w') ∧
  kflags w' !! 40 = Some 2050 ∧ fcntl_GETFL 40 w' = Ok 2.
Proof.
  destruct (fcntl_transparent sample_world 40 1000
    (FdManager.FdCtx_new (FdManager.mk_kernel_fd (Some true) 2) 40) 2050 2 sample_has_ctx)
    as (w' & H1 & H2 & H3 & _); [by vm_compute..|].
  exists w'. split; [exact H1|]. split; [rewrite H2; by vm_compute|exact H3].
Defined.

Lemma connect_result_witness : ∃ log,
  connect true (Some sample_ctx) 5000 (-1, EINPROGRESS) W_ready ((0, 0), 111) = (Ok (-1, 111), log) ∧
  timers_balanced false log = true.
Proof.
  destruct (connect_result sample_ctx 5000 W_ready ((0, 0), 111) (-1, EINPROGRESS))
    as (log & H1 & H2 & _); [by vm_compute|done|done|lia|done|].
  exists log. split; [exact H1|exact H2].
Defined.

Lemma close_wakes_witness : ∃ w' i', close true true 40 sample_world = Ok (0, w') ∧
  IOManager.woken i' =
    [(900, Scheduler.Scheduler.task_of_fiber (Some 50) (-1));
     (900, Scheduler.Scheduler.task_of_cb (Some 7%nat) (-1))].
Proof.
  destruct (close_wakes sample_world 40 1000 _ IOManager.sample 41 IOManager.sample_ctx 2050 sample_has_ctx)
    as (w' & i' & H1 & _ & H2 & _);
    [unfold FdManager.wf; vm_compute; lia|done|exact IOManager.io_wf_sample|exact IOManager.sample_at|by vm_compute|].
  exists w', i'. split; [exact H1|]. rewrite H2. by vm_compute.
Defined.

(** ** Behaviour at the edges *)

(** FIONBIO with 0 also makes the descriptor blocking in the kernel, while the wrapper
    goes on to treat it as one it made non-blocking: the next read blocks the
    thread. [fcntl] takes care of this, [ioctl] does not. *)
Example ioctl_unblocks_kernel :
  match ioctl_FIONBIO 40 0 sample_world with
  | Ok (_, w) => Z.land (default 0 (kflags w !! 40)) O_NONBLOCK = 0 ∧
      option_map FdManager.GetSysNonblock (FdManager.heap (fds w) !! 1000) = Some true
  | Err _ => False
  end.
Proof. by vm_compute. Qed.

(** A timeout of zero means none to [setsockopt]; here every wait ends at once. *)
Example zero_timeout_fails :
  match setsockopt true 40 SOL_SOCKET SO_RCVTIMEO 0 0 sample_world with
  | Ok w => option_map (λ c, do_io true (Some c) READ SO_RCVTIMEO [(-1, EAGAIN)] [W_timeout])
      (FdManager.heap (fds w) !! 1000) =
      Some (Some (Ok (-1, ETIMEDOUT), [ECall; EAddTimer 0; EAddEvent READ; EYield; ECancelTimer]))
  | Err _ => False
  end.
Proof. by vm_compute. Qed.

(** When the event cannot be registered, connect does not wait and takes the missing
    error of a connection in progress for success. *)
Example connect_refused_success : (connect true (Some sample_ctx) 5000 (-1, EINPROGRESS)
  (W_refused 12) ((0, 0), 0)).1 = Ok (0, 0).
Proof. by vm_compute. Qed.

(** Two fibers that read from one socket: the second one fails the assertion of [AddEvent],
    its timer set. *)
Example second_reader : do_io true (Some sample_ctx) READ SO_RCVTIMEO [(-1, EAGAIN)] [W_registered] =
  Some (Err AssertFail, [ECall; EAddTimer 300; EAddEvent READ]).
Proof. by vm_compute. Qed.

(** [sleep] of 4294968 seconds, some 50 days, sleeps 704 ms; a negative [nanosleep]
    for ever; and [usleep] of less than a millisecond does not sleep. *)
Example sleep_wraps : sleep_ms 4294968 = 704 ∧ sleep_ms 4294967 = 4294967000 ∧
  nanosleep_ms 2147484 0 = 2 ^ 64 - 2147483296 ∧ usleep_ms 999 = 0.
Proof. by vm_compute. Qed.

(** An unknown [fcntl] command is passed on without its argument. *)
Example fcntl_other_drops : fcntl_passes F_OTHER = pass_none.
Proof. done. Qed.

(** [F_GETFL] that fails returns -1 with a bit cleared. *)
Example getfl_failure_masked :
  fcntl_GETFL 40 (mk_World (fds sample_world) None ∅) = Ok (-2049).
Proof. by vm_compute. Qed.

End Hook.
