(* ===== verification/StringUtil.v ===== *)
(** * String and file-system helpers (util/util.cc)

    [Module StringUtil]: percent-encoding with the tables of the source, trimming,
    path splitting, case, number parsing and the search for files by suffix. A string is
    a list of bytes.

    Theorems: decoding inverts encoding for every string of bytes ([url_roundtrip]),
    and the encoder that only allocates when it must is the plain one
    ([UrlEncode_spec]); [Trim] and [TrimLeft] cut exactly the delimiters, and
    [TrimRight] one character too many ([trim_exact]); a path is its directory and
    its base name ([path_split]); [ListAllFile] finds exactly the regular files with
    the suffix ([ListAllFile_exact]). *)

From Stdlib Require Import Ascii String.
From S2P Require Import Prelude.

Module StringUtil.

Local Open Scope Z_scope.

Abbreviation str := (list ascii).

(** The value of a character as [unsigned char] and as [char] (signed on Linux x86). *)
Definition uchar (c : ascii) : Z := Z.of_N (N_of_ascii c).
Definition char_of (z : Z) : ascii := ascii_of_N (Z.to_N u8(z)).

(** Text for examples. *)
Definition S_ (s : string) : str := list_ascii_of_string s.

(** ** Percent-encoding *)

Definition uri_chars : list Z :=
  [0; 0; 0; 0; 0; 0; 0; 0; 0; 0; 0; 0; 0; 0; 0; 0; 0; 0; 0; 0; 0; 0; 0; 0; 0; 0; 0; 0; 0; 0; 0; 0;
   0; 0; 0; 0; 0; 0; 0; 0; 0; 0; 0; 0; 0; 1; 1; 0; 1; 1; 1; 1; 1; 1; 1; 1; 1; 1; 0; 0; 0; 1; 0; 0;
   0; 1; 1; 1; 1; 1; 1; 1; 1; 1; 1; 1; 1; 1; 1; 1; 1; 1; 1; 1; 1; 1; 1; 1; 1; 1; 1; 0; 0; 0; 0; 1;
   0; 1; 1; 1; 1; 1; 1; 1; 1; 1; 1; 1; 1; 1; 1; 1; 1; 1; 1; 1; 1; 1; 1; 1; 1; 1; 1; 0; 0; 0; 1; 0;
   0; 0; 0; 0; 0; 0; 0; 0; 0; 0; 0; 0; 0; 0; 0; 0; 0; 0; 0; 0; 0; 0; 0; 0; 0; 0; 0; 0; 0; 0; 0; 0;
   0; 0; 0; 0; 0; 0; 0; 0; 0; 0; 0; 0; 0; 0; 0; 0; 0; 0; 0; 0; 0; 0; 0; 0; 0; 0; 0; 0; 0; 0; 0; 0;
   0; 0; 0; 0; 0; 0; 0; 0; 0; 0; 0; 0; 0; 0; 0; 0; 0; 0; 0; 0; 0; 0; 0; 0; 0; 0; 0; 0; 0; 0; 0; 0;
   0; 0; 0; 0; 0; 0; 0; 0; 0; 0; 0; 0; 0; 0; 0; 0; 0; 0; 0; 0; 0; 0; 0; 0; 0; 0; 0; 0; 0; 0; 0; 0].

Definition xdigit_chars : list Z :=
  [0; 0; 0; 0; 0; 0; 0; 0; 0; 0; 0; 0; 0; 0; 0; 0; 0; 0; 0; 0; 0; 0; 0; 0; 0; 0; 0; 0; 0; 0; 0; 0;
   0; 0; 0; 0; 0; 0; 0; 0; 0; 0; 0; 0; 0; 0; 0; 0; 0; 1; 2; 3; 4; 5; 6; 7; 8; 9; 0; 0; 0; 0; 0; 0;
   0; 10; 11; 12; 13; 14; 15; 0; 0; 0; 0; 0; 0; 0; 0; 0; 0; 0; 0; 0; 0; 0; 0; 0; 0; 0; 0; 0; 0; 0; 0; 0;
   0; 10; 11; 12; 13; 14; 15; 0; 0; 0; 0; 0; 0; 0; 0; 0; 0; 0; 0; 0; 0; 0; 0; 0; 0; 0; 0; 0; 0; 0; 0; 0;
   0; 0; 0; 0; 0; 0; 0; 0; 0; 0; 0; 0; 0; 0; 0; 0; 0; 0; 0; 0; 0; 0; 0; 0; 0; 0; 0; 0; 0; 0; 0; 0;
   0; 0; 0; 0; 0; 0; 0; 0; 0; 0; 0; 0; 0; 0; 0; 0; 0; 0; 0; 0; 0; 0; 0; 0; 0; 0; 0; 0; 0; 0; 0; 0;
   0; 0; 0; 0; 0; 0; 0; 0; 0; 0; 0; 0; 0; 0; 0; 0; 0; 0; 0; 0; 0; 0; 0; 0; 0; 0; 0; 0; 0; 0; 0; 0;
   0; 0; 0; 0; 0; 0; 0; 0; 0; 0; 0; 0; 0; 0; 0; 0; 0; 0; 0; 0; 0; 0; 0; 0; 0; 0; 0; 0; 0; 0; 0; 0].

Definition hexdigits : str := S_ "0123456789ABCDEF".

(** An access to a table. *)
Definition table (t : list Z) (i : Z) : Z := default 0 (t !! Z.to_nat i).
Definition hexdigit (i : Z) : ascii := default "0"%char (hexdigits !! Z.to_nat i).

Definition CHAR_IS_UNRESERVED (c : ascii) : bool := bool_decide (table uri_chars (uchar c) ≠ 0).

(** What is appended for a character that is not unreserved. *)
Definition encoded (space_as_plus : bool) (c : ascii) : str :=
  if bool_decide (c = " "%char) && space_as_plus then ["+"%char]
  else ["%"%char; hexdigit (Z.shiftr (uchar c) 4); hexdigit (Z.land (uchar c) 15)].

(** The loop of [UrlEncode]: [before] is the part of the string already read, [ss] the
    result if it had to be allocated. *)
Fixpoint encode_loop (space_as_plus : bool) (before rest : str) (ss : option str) : option str :=
  match rest with
  | [] => ss
  | c :: rest =>
      let ss := if CHAR_IS_UNRESERVED c then (λ s, s ++ [c]) <$> ss
                else Some (default before ss ++ encoded space_as_plus c) in
      encode_loop space_as_plus (before ++ [c]) rest ss
  end.

Definition UrlEncode (s : str) (space_as_plus : bool) : str :=
  default s (encode_loop space_as_plus [] s None).

(** [isxdigit] in the C locale. *)
Definition isxdigit (c : ascii) : bool :=
  let z := uchar c in
  bool_decide (48 ≤ z ≤ 57) || bool_decide (65 ≤ z ≤ 70) || bool_decide (97 ≤ z ≤ 102).

Definition hex_value (c1 c2 : ascii) : ascii :=
  char_of (Z.lor (Z.shiftl (table xdigit_chars (uchar c1)) 4) (table xdigit_chars (uchar c2))).

Fixpoint decode_loop (space_as_plus : bool) (before rest : str) (ss : option str) : option str :=
  match rest with
  | [] => ss
  | c :: rest =>
      if bool_decide (c = "+"%char) && space_as_plus then
        decode_loop space_as_plus (before ++ [c]) rest (Some (default before ss ++ [" "%char]))
      else
        let plain := decode_loop space_as_plus (before ++ [c]) rest ((λ s, s ++ [c]) <$> ss) in
        match rest with
        | c1 :: c2 :: rest =>
            if bool_decide (c = "%"%char) && isxdigit c1 && isxdigit c2 then
              decode_loop space_as_plus (before ++ [c; c1; c2]) rest
                (Some (default before ss ++ [hex_value c1 c2]))
            else plain
        | _ => plain
        end
  end.

Definition UrlDecode (s : str) (space_as_plus : bool) : str :=
  default s (decode_loop space_as_plus [] s None).

(** ** Searching and trimming *)

(** [std::string::find_first_not_of], [find_last_not_of] and [rfind]; [None] is
    [npos]. *)
Fixpoint find_first_not_of (s delimit : str) : option nat :=
  match s with
  | [] => None
  | c :: s => if decide (c ∈ delimit) then S <$> find_first_not_of s delimit else Some 0%nat
  end.

Fixpoint find_last_not_of (s delimit : str) : option nat :=
  match s with
  | [] => None
  | c :: s =>
      match find_last_not_of s delimit with
      | Some i => Some (S i)
      | None => if decide (c ∈ delimit) then None else Some 0%nat
      end
  end.

Fixpoint rfind (s : str) (x : ascii) : option nat :=
  match s with
  | [] => None
  | c :: s =>
      match rfind s x with
      | Some i => Some (S i)
      | None => if decide (c = x) then Some 0%nat else None
      end
  end.

Definition substr (s : str) (pos len : nat) : str := take len (drop pos s).

Definition Trim (s delimit : str) : str :=
  match find_first_not_of s delimit, find_last_not_of s delimit with
  | Some b, Some e => substr s b (e - b + 1)
  | None, _ => []
  | Some b, None => drop b s
  end.

Definition TrimLeft (s delimit : str) : str :=
  match find_first_not_of s delimit with
  | None => []
  | Some b => drop b s
  end.

Definition TrimRight (s delimit : str) : str :=
  match find_last_not_of s delimit with
  | None => []
  | Some e => substr s 0 e
  end.

(** ** Paths *)

Definition Dirname (filename : str) : str :=
  if decide (filename = []) then S_ "."
  else match rfind filename "/"%char with
       | Some O => S_ "/"
       | None => S_ "."
       | Some pos => substr filename 0 pos
       end.

Definition Basename (filename : str) : str :=
  if decide (filename = []) then filename
  else match rfind filename "/"%char with
       | None => filename
       | Some pos => drop (S pos) filename
       end.

(** What [readdir] shows of a directory: sub-directories with what is in them,
    regular files, and the rest. *)
Inductive entry :=
  | DT_DIR (d_name : str) (children : list entry)
  | DT_REG (d_name : str)
  | DT_OTHER (d_name : str).

(** The test for the suffix. *)
Definition has_suffix (filename subfix : str) : bool :=
  if decide (subfix = []) then true
  else if decide (length filename < length subfix)%nat then false
  else bool_decide (drop (length filename - length subfix) filename = subfix).

(** [ListAllFile] of a directory at [path] that can be opened, appending to [files]. *)
Fixpoint list_entry (subfix : str) (files : list str) (path : str) (e : entry) : list str :=
  match e with
  | DT_DIR name children =>
      if decide (name = S_ "." ∨ name = S_ "..") then files
      else
        let path := path ++ S_ "/" ++ name in
        (fix go (files : list str) (es : list entry) : list str :=
           match es with
           | [] => files
           | e :: es => go (list_entry subfix files path e) es
           end) files children
  | DT_REG name => if has_suffix name subfix then files ++ [path ++ S_ "/" ++ name] else files
  | DT_OTHER _ => files
  end.

Definition ListAllFile (files : list str) (path : str) (children : list entry) (subfix : str) : list str :=
  foldl (λ files e, list_entry subfix files path e) files children.

(** ** Case, numbers and time *)

Definition toupper (c : ascii) : ascii :=
  if decide (97 ≤ uchar c ≤ 122) then char_of (uchar c - 32) else c.
Definition tolower (c : ascii) : ascii :=
  if decide (65 ≤ uchar c ≤ 90) then char_of (uchar c + 32) else c.

Definition ToUpper (name : str) : str := toupper <$> name.
Definition ToLower (name : str) : str := tolower <$> name.

(** The first character as [int8_t]. *)
Definition ToChar (s : str) : Z := match s with [] => 0 | c :: _ => i8(uchar c) end.

(** [strtoull] in base 10: white space, a sign, digits; the largest value on
    overflow; a minus sign negates modulo 2^64. *)
Definition is_space (c : ascii) : bool :=
  bool_decide (uchar c = 32) || bool_decide (9 ≤ uchar c ≤ 13).
Definition is_digit (c : ascii) : bool := bool_decide (48 ≤ uchar c ≤ 57).

Fixpoint skip_space (s : str) : str :=
  match s with c :: s' => if is_space c then skip_space s' else s | [] => [] end.

Fixpoint digits (acc : Z) (s : str) : Z :=
  match s with c :: s => if is_digit c then digits (acc * 10 + (uchar c - 48)) s else acc | [] => acc end.

Definition strtoull (s : str) : Z :=
  let '(neg, s) := match skip_space s with
                   | "-"%char :: s => (true, s)
                   | "+"%char :: s => (false, s)
                   | s => (false, s)
                   end in
  let v := digits 0 s in
  if decide (2 ^ 64 ≤ v) then 2 ^ 64 - 1 else if neg then u64(- v) else v.

Definition Atoi (s : str) : Z := if decide (s = []) then 0 else i64(strtoull s).

(** [GetElapsedMS] and the other clocks, from what the kernel says. *)
Definition GetElapsedMS (tv_sec tv_nsec : Z) : Z := u64(tv_sec * 1000 + tv_nsec `quot` 1000000).
Definition GetCurrentMS (tv_sec tv_usec : Z) : Z := u64(tv_sec * 1000 + tv_usec `quot` 1000).
Definition GetCurrentUS (tv_sec tv_usec : Z) : Z := u64(tv_sec * 1000000 + tv_usec).

(** ** Percent-encoding: the plain definitions *)

Definition encode_char (space_as_plus : bool) (c : ascii) : str :=
  if CHAR_IS_UNRESERVED c then [c] else encoded space_as_plus c.

Fixpoint decode (space_as_plus : bool) (s : str) : str :=
  match s with
  | [] => []
  | c :: rest =>
      if bool_decide (c = "+"%char) && space_as_plus then " "%char :: decode space_as_plus rest
      else match rest with
           | c1 :: c2 :: rest' =>
               if bool_decide (c = "%"%char) && isxdigit c1 && isxdigit c2
               then hex_value c1 c2 :: decode space_as_plus rest'
               else c :: decode space_as_plus rest
           | _ => c :: decode space_as_plus rest
           end
  end.

Lemma encode_loop_spec sp rest : ∀ before ss,
  default (before ++ rest) (encode_loop sp before rest ss) =
    default before ss ++ (rest ≫= encode_char sp).
Proof.
  induction rest as [|c rest IH]; intros before ss; simpl; [by rewrite !app_nil_r|].
  replace (before ++ c :: rest) with ((before ++ [c]) ++ rest) by by rewrite <- (assoc_L (++)).
  rewrite IH. unfold encode_char at 2. rewrite (assoc_L (++)). f_equal.
  destruct (CHAR_IS_UNRESERVED c); [|done]. by destruct ss.
Qed.

Lemma decode_loop_spec sp n : ∀ rest before ss, (length rest ≤ n)%nat →
  default (before ++ rest) (decode_loop sp before rest ss) = default before ss ++ decode sp rest.
Proof.
  induction n as [|n IH]; intros [|c rest] before ss Hn; simpl in *; try lia; [by rewrite !app_nil_r..|].
  assert (∀ o, default (before ++ c :: rest) (decode_loop sp (before ++ [c]) rest o) =
    default (before ++ [c]) o ++ decode sp rest) as Hone.
  { intros o. rewrite <- IH by lia. by rewrite <- (assoc_L (++)). }
  assert (default (before ++ c :: rest) (decode_loop sp (before ++ [c]) rest ((λ s, s ++ [c]) <$> ss)) =
    default before ss ++ c :: decode sp rest) as Hplain.
  { rewrite Hone. destruct ss; simpl; by rewrite <- (assoc_L (++)). }
  destruct (bool_decide (c = "+"%char) && sp).
  { rewrite Hone. simpl. by rewrite <- (assoc_L (++)). }
  destruct rest as [|c1 [|c2 rest]]; [exact Hplain..|].
  destruct (bool_decide (c = "%"%char) && isxdigit c1 && isxdigit c2); [|exact Hplain].
  simpl in Hn. replace (before ++ c :: c1 :: c2 :: rest) with ((before ++ [c; c1; c2]) ++ rest)
    by by rewrite <- (assoc_L (++)).
  rewrite IH by lia. simpl. by rewrite <- (assoc_L (++)).
Qed.

Lemma UrlEncode_plain s sp : UrlEncode s sp = s ≫= encode_char sp.
Proof. apply (encode_loop_spec sp s [] None). Qed.

Lemma UrlDecode_plain s sp : UrlDecode s sp = decode sp s.
Proof. by apply (decode_loop_spec sp (length s) s [] None). Qed.

(** Facts about single characters, checked on all 256. *)
Ltac all_chars c := destruct c as [[] [] [] [] [] [] [] []].

Lemma unreserved_plain c : CHAR_IS_UNRESERVED c = true → c ≠ "%"%char ∧ c ≠ "+"%char.
Proof. all_chars c; vm_compute; by repeat split. Qed.

Lemma hex_inverse c :
  isxdigit (hexdigit (Z.shiftr (uchar c) 4)) = true ∧ isxdigit (hexdigit (Z.land (uchar c) 15)) = true ∧
  hex_value (hexdigit (Z.shiftr (uchar c) 4)) (hexdigit (Z.land (uchar c) 15)) = c.
Proof. all_chars c; by vm_compute. Qed.

Lemma decode_encoded_char sp c t : decode sp (encode_char sp c ++ t) = c :: decode sp t.
Proof.
  unfold encode_char. destruct (CHAR_IS_UNRESERVED c) eqn:Hu.
  - apply unreserved_plain in Hu as [Hp Hq]. simpl. rewrite (bool_decide_eq_false_2 (c = "+"%char)) by done.
    rewrite (bool_decide_eq_false_2 (c = "%"%char)) by done. simpl. by destruct t as [|? [|? ?]].
  - unfold encoded. destruct (bool_decide (c = " "%char) && sp) eqn:Hs.
    + apply andb_true_iff in Hs as [->%bool_decide_eq_true ->]. done.
    + destruct (hex_inverse c) as (H1 & H2 & H3). simpl app. cbn [decode].
      rewrite H1, H2, H3. reflexivity.
Qed.

(** What a reader of the comment above [UrlEncode] expects of a character: the ones listed
    there stay, and the equals sign, which the comment does not list; a space becomes a plus
    sign on request, and everything else a percent sign and two upper-case hexadecimal
    digits. *)
Definition unreserved : str :=
  S_ "-.0123456789ABCDEFGHIJKLMNOPQRSTUVWXYZ_abcdefghijklmnopqrstuvwxyz~".
Definition upper_hex (d : Z) : ascii := char_of (if decide (d < 10) then 48 + d else 55 + d).
Definition percent (sp : bool) (c : ascii) : str :=
  if bool_decide (c ∈ unreserved) || bool_decide (c = "="%char) then [c]
  else if bool_decide (c = " "%char) && sp then ["+"%char]
  else ["%"%char; upper_hex (uchar c `div` 16); upper_hex (uchar c `mod` 16)].

Lemma encode_char_percent sp c : encode_char sp c = percent sp c.
Proof. destruct sp; all_chars c; by vm_compute. Qed.

(** ** Searching *)

Lemma find_first_not_of_spec s (d : str) :
  match find_first_not_of s d with
  | None => Forall (.∈ d) s
  | Some b => ∃ l c r, s = l ++ c :: r ∧ length l = b ∧ Forall (.∈ d) l ∧ c ∉ d
  end.
Proof.
  induction s as [|c s IH]; simpl; [constructor|]. destruct (decide (c ∈ d)) as [Hc|Hc].
  - destruct (find_first_not_of s d) as [b|]; simpl; [|by constructor].
    destruct IH as (l & x & r & -> & <- & Hl & Hx). exists (c :: l), x, r. split_and!; [done..| |done].
    by constructor.
  - exists [], c, s. split_and!; [done..|constructor|done].
Qed.

Lemma find_last_not_of_spec s (d : str) :
  match find_last_not_of s d with
  | None => Forall (.∈ d) s
  | Some e => ∃ l c r, s = l ++ c :: r ∧ length l = e ∧ Forall (.∈ d) r ∧ c ∉ d
  end.
Proof.
  induction s as [|c s IH]; simpl; [constructor|]. destruct (find_last_not_of s d) as [e|].
  - destruct IH as (l & x & r & -> & <- & Hr & Hx). by exists (c :: l), x, r.
  - destruct (decide (c ∈ d)) as [Hc|Hc]; [by constructor|]. by exists [], c, s.
Qed.

Lemma rfind_spec s x :
  match rfind s x with
  | None => x ∉ s
  | Some p => ∃ l r, s = l ++ x :: r ∧ length l = p ∧ x ∉ r
  end.
Proof.
  induction s as [|c s IH]; simpl; [apply not_elem_of_nil|]. destruct (rfind s x) as [p|].
  - destruct IH as (l & r & -> & <- & Hr). by exists (c :: l), r.
  - destruct (decide (c = x)) as [->|Hc]; [by exists [], s|]. by apply not_elem_of_cons.
Qed.

Lemma first_none s (d : str) : Forall (λ c, c ∈ d) s → find_first_not_of s d = None.
Proof. induction 1 as [|c s Hc _ IH]; simpl; [done|]. by rewrite decide_True, IH. Qed.

Lemma last_none s (d : str) : Forall (λ c, c ∈ d) s → find_last_not_of s d = None.
Proof. induction 1 as [|c s Hc _ IH]; simpl; [done|]. by rewrite IH, decide_True. Qed.

Lemma first_cut (d : str) l c r : Forall (λ c, c ∈ d) l → c ∉ d →
  find_first_not_of (l ++ c :: r) d = Some (length l).
Proof.
  intros Hl Hc. induction Hl as [|x l Hx _ IH]; simpl; [by rewrite decide_False|].
  by rewrite decide_True, IH.
Qed.

Lemma last_cut (d : str) l c r : Forall (λ c, c ∈ d) r → c ∉ d →
  find_last_not_of (l ++ c :: r) d = Some (length l).
Proof.
  intros Hr Hc. induction l as [|x l IH]; simpl; [by rewrite last_none, decide_False|]. by rewrite IH.
Qed.

Lemma rfind_cut x l r : x ∉ r → rfind (l ++ x :: r) x = Some (length l).
Proof.
  intros Hr. induction l as [|y l IH]; simpl; [|by rewrite IH].
  pose proof (rfind_spec r x) as H. destruct (rfind r x); [|by rewrite decide_True].
  destruct H as (? & ? & -> & _). set_solver.
Qed.

(** The part of a string between its first and its last character outside [d]. *)
Lemma cut_exists s (d : str) : ¬ Forall (λ c, c ∈ d) s → ∃ l m r, s = l ++ m ++ r ∧
  Forall (λ c, c ∈ d) l ∧ Forall (λ c, c ∈ d) r ∧
  (∃ c, head m = Some c ∧ c ∉ d) ∧ (∃ c, last m = Some c ∧ c ∉ d).
Proof.
  intros Hs. pose proof (find_first_not_of_spec s d) as H.
  destruct (find_first_not_of s d) as [b|]; [|done].
  destruct H as (l & c & t & -> & _ & Hl & Hc).
  pose proof (find_last_not_of_spec (c :: t) d) as H. destruct (find_last_not_of (c :: t) d) as [e|].
  - destruct H as (m & c' & r & Heq & _ & Hr & Hc'). exists l, (m ++ [c']), r.
    split_and!; [by rewrite <- (assoc_L (++)), Heq|done|done| |].
    + exists c. split; [|done]. destruct m; by simplify_eq/=.
    + exists c'. split; [|done]. apply last_snoc.
  - inversion H. done.
Qed.

(** ** Files *)

(** [regular path e file name]: below the entry [e] of the directory at [path] there
    is a regular file [name], which is at [file]. *)
Inductive regular : str → entry → str → str → Prop :=
  | regular_file path name : regular path (DT_REG name) (path ++ S_ "/" ++ name) name
  | regular_below path name children e file n :
      name ≠ S_ "." → name ≠ S_ ".." → e ∈ children →
      regular (path ++ S_ "/" ++ name) e file n → regular path (DT_DIR name children) file n.

Lemma has_suffix_iff name subfix : has_suffix name subfix = true ↔ ∃ p, name = p ++ subfix.
Proof.
  unfold has_suffix. destruct (decide (subfix = [])) as [->|Hn].
  { split; [|done]. intros _. exists name. by rewrite app_nil_r. }
  destruct (decide _) as [Hl|Hl].
  - split; [done|]. intros [p ->]. rewrite length_app in Hl. lia.
  - rewrite bool_decide_eq_true. split.
    + intros <-. exists (take (length name - length subfix) name). by rewrite take_drop.
    + intros [p ->]. rewrite length_app. apply drop_app_length'. lia.
Qed.

(** Induction on an entry and all that is below it. *)
Lemma entry_ind_below (P : entry → Prop) :
  (∀ name children, Forall P children → P (DT_DIR name children)) →
  (∀ name, P (DT_REG name)) → (∀ name, P (DT_OTHER name)) → ∀ e, P e.
Proof.
  intros Hd Hr Ho. fix IH 1. intros [name children|name|name]; [|apply Hr|apply Ho].
  apply Hd. induction children as [|e es IHes]; [constructor|]. constructor; [apply IH|exact IHes].
Qed.

Lemma list_entry_dir subfix files path name children : name ≠ S_ "." → name ≠ S_ ".." →
  list_entry subfix files path (DT_DIR name children) =
    ListAllFile files (path ++ S_ "/" ++ name) children subfix.
Proof.
  intros H1 H2. simpl. rewrite decide_False by (by intros [?|?]).
  unfold ListAllFile. generalize (path ++ S_ "/" ++ name) as p. intros p. revert files.
  induction children as [|e es IH]; intros files; simpl; [done|]. apply IH.
Qed.

(** What an entry adds, and what a directory adds given what its entries add. *)
Definition adds (subfix path : str) (e : entry) : Prop := ∀ files, ∃ more,
  list_entry subfix files path e = files ++ more ∧
  ∀ f, f ∈ more ↔ ∃ n, regular path e f n ∧ has_suffix n subfix = true.

Lemma ListAllFile_adds subfix path children : Forall (adds subfix path) children →
  ∀ files, ∃ more, ListAllFile files path children subfix = files ++ more ∧
  ∀ f, f ∈ more ↔ ∃ e n, e ∈ children ∧ regular path e f n ∧ has_suffix n subfix = true.
Proof.
  unfold ListAllFile. induction 1 as [|e es He _ IH]; intros files; simpl.
  { exists []. split; [by rewrite app_nil_r|]. set_solver. }
  destruct (He files) as (m1 & -> & H1). destruct (IH (files ++ m1)) as (m2 & -> & H2).
  exists (m1 ++ m2). split; [by rewrite (assoc_L (++))|]. intros f. rewrite elem_of_app, H1, H2. split.
  - intros [(n & ? & ?)|(e' & n & ? & ? & ?)]; [exists e, n|exists e', n]; split_and!; by try constructor.
  - intros (e' & n & [->|?]%elem_of_cons & ? & ?); [left; by exists n|right; by exists e', n].
Qed.

Lemma list_entry_adds subfix e : ∀ path, adds subfix path e.
Proof.
  induction e as [name children IH|name|name] using entry_ind_below; intros path files.
  - destruct (decide (name = S_ "." ∨ name = S_ "..")) as [Hd|Hd].
    + exists []. split; [simpl; by rewrite decide_True, app_nil_r|]. intros f. split; [set_solver|].
      intros (n & H & _). inversion H; tauto.
    + rewrite list_entry_dir by tauto.
      destruct (ListAllFile_adds subfix (path ++ S_ "/" ++ name) children) with (files := files) as (more & -> & Hm).
      { apply (Forall_impl _ _ _ IH). auto. }
      exists more. split; [done|]. intros f. rewrite Hm. split.
      * intros (e & n & He & Hr & Hs). exists n. split; [|done]. apply (regular_below _ _ _ e); tauto.
      * intros (n & Hr & Hs). inversion Hr; subst. eauto.
  - simpl. destruct (has_suffix name subfix) eqn:Hs.
    + eexists. split; [done|]. intros f. rewrite list_elem_of_singleton. split.
      * intros ->. exists name. split; [constructor|done].
      * intros (n & H & _). by inversion H.
    + exists []. split; [by rewrite app_nil_r|]. intros f. split; [set_solver|].
      intros (n & H & Hn). inversion H; subst. congruence.
  - exists []. split; [by rewrite app_nil_r|]. intros f. split; [set_solver|]. intros (n & H & _). inversion H.
Qed.

(** ** Theorems *)

(** C18. Decoding an encoded string gives the string back, for every string of bytes
    and either treatment of spaces; and the encoding of a string is that of its characters,
    one after the other: exactly the characters that the comment at [util.cc:680] lists, and
    the equals sign, which it does not list, are left as they are ([percent]). *)
Theorem url_roundtrip s sp : UrlDecode (UrlEncode s sp) sp = s ∧ UrlEncode s sp = s ≫= percent sp.
Proof.
  rewrite UrlDecode_plain, UrlEncode_plain. split.
  - induction s as [|c s IH]; [done|]. by rewrite bind_cons, decode_encoded_char, IH.
  - induction s as [|c s IH]; [done|]. by rewrite !bind_cons, encode_char_percent, IH.
Qed.

(** The loops that copy the string only from the first character they have to change
    compute the plain character-by-character encoding and decoding. *)
Theorem UrlEncode_spec s sp :
  UrlEncode s sp = s ≫= encode_char sp ∧ UrlDecode s sp = decode sp s ∧
  (Forall (λ c, CHAR_IS_UNRESERVED c = true) s → UrlEncode s sp = s ∧ UrlDecode s sp = s).
Proof.
  rewrite UrlEncode_plain, UrlDecode_plain. split_and!; [done..|].
  induction 1 as [|c s Hc _ [IH1 IH2]]; [done|]. split.
  - rewrite bind_cons, IH1. unfold encode_char. by rewrite Hc.
  - pose proof (decode_encoded_char sp c s) as Hd. unfold encode_char in Hd. rewrite Hc in Hd.
    simpl app in Hd. by rewrite Hd, IH2.
Qed.

(** [Trim] and [TrimLeft] remove exactly the delimiters at both ends and at the
    beginning; a string of delimiters becomes empty. [TrimRight] keeps the delimiters
    at the beginning but removes, besides the ones at the end, the last character that
    is not a delimiter. Every other string has the form the middle case speaks of. *)
Theorem trim_exact s (d : str) :
  (Forall (λ c, c ∈ d) s → Trim s d = [] ∧ TrimLeft s d = [] ∧ TrimRight s d = []) ∧
  (∀ l m r, s = l ++ m ++ r → Forall (λ c, c ∈ d) l → Forall (λ c, c ∈ d) r →
    (∃ c, head m = Some c ∧ c ∉ d) → (∃ c, last m = Some c ∧ c ∉ d) →
    Trim s d = m ∧ TrimLeft s d = m ++ r ∧ TrimRight s d = l ++ removelast m) ∧
  (¬ Forall (λ c, c ∈ d) s → ∃ l m r, s = l ++ m ++ r ∧ Forall (λ c, c ∈ d) l ∧ Forall (λ c, c ∈ d) r ∧
    (∃ c, head m = Some c ∧ c ∉ d) ∧ (∃ c, last m = Some c ∧ c ∉ d)).
Proof.
  unfold Trim, TrimLeft, TrimRight. split_and!; [|intros l m r -> Hl Hr Hc Hc'|apply cut_exists].
  - intros H. by rewrite (first_none _ _ H), (last_none _ _ H).
  - assert (find_first_not_of (l ++ m ++ r) d = Some (length l)) as ->.
    { destruct Hc as (c & Hc & Hd). destruct m as [|x m]; [done|]. simplify_eq/=. by apply first_cut. }
    destruct Hc' as (c & [m' ->]%last_Some & Hd).
    replace (l ++ (m' ++ [c]) ++ r) with ((l ++ m') ++ c :: r) by by rewrite <- !(assoc_L (++)).
    rewrite last_cut by done. unfold substr. rewrite removelast_last, !length_app. split_and!.
    + rewrite <- !(assoc_L (++)), drop_app_length. replace (m' ++ c :: r) with ((m' ++ [c]) ++ r)
        by by rewrite <- (assoc_L (++)).
      apply take_app_length'. rewrite length_app. simpl. lia.
    + rewrite <- !(assoc_L (++)), drop_app_length. done.
    + rewrite drop_0. apply take_app_length'. by rewrite length_app.
Qed.

(** The base name of a path holds no slash. A path without a slash is its base name
    and its directory is [.]; any other path is its directory, a slash and its base
    name, except that the directory of what is directly below the root is the root. *)
Theorem path_split filename :
  "/"%char ∉ Basename filename ∧
  (if decide ("/"%char ∈ filename)
   then filename = Dirname filename ++ S_ "/" ++ Basename filename ∨
        (filename = S_ "/" ++ Basename filename ∧ Dirname filename = S_ "/")
   else Dirname filename = S_ "." ∧ Basename filename = filename).
Proof.
  unfold Basename, Dirname. destruct (decide (filename = [])) as [->|Hn].
  { rewrite decide_False by set_solver. split; [set_solver|done]. }
  pose proof (rfind_spec filename "/"%char) as H. destruct (rfind filename "/"%char) as [p|] eqn:Hp.
  - destruct H as (l & r & -> & <- & Hr). rewrite decide_True by set_solver.
    replace (l ++ "/"%char :: r) with ((l ++ ["/"%char]) ++ r) by by rewrite <- (assoc_L (++)).
    rewrite drop_app_length' by (rewrite length_app; simpl; lia). split; [done|].
    rewrite <- (assoc_L (++)). destruct l as [|x l]; [by right|]. left.
    simpl length. cbv iota. unfold substr. by rewrite drop_0, take_app_length' by done.
  - split; [done|]. by rewrite decide_False.
Qed.

(** [ListAllFile] appends to [files] exactly the paths of the regular files at any
    depth below the directory, the two links [.] and [..] apart, whose names end with
    the suffix; what was in [files] stays in front. *)
Theorem ListAllFile_exact files path children subfix : ∃ more,
  ListAllFile files path children subfix = files ++ more ∧
  ∀ f, f ∈ more ↔ ∃ e n p, e ∈ children ∧ regular path e f n ∧ n = p ++ subfix.
Proof.
  destruct (ListAllFile_adds subfix path children) with (files := files) as (more & Heq & Hm).
  { apply Forall_forall. intros e _. apply list_entry_adds. }
  exists more. split; [done|]. intros f. rewrite Hm. setoid_rewrite has_suffix_iff.
  split; [intros (e & n & ? & ? & p & ?)|intros (e & n & p & ? & ? & ?)]; eauto 10.
Qed.

(** ** Edge cases *)

(** The comment of [UrlEncode] lists the unreserved characters; the table has the
    equals sign besides. *)
Example equals_unreserved : UrlEncode (S_ "a=b&c") true = S_ "a=b%26c".
Proof. vm_compute. done. Qed.

(** [TrimRight] loses a character of the text, and all of a text without delimiters
    but its last character. *)
Example TrimRight_cuts : TrimRight (S_ " ab  ") (S_ " ") = S_ " a".
Proof. vm_compute. done. Qed.

Example encode_utf8 : UrlEncode (S_ "a b%") true = S_ "a+b%25" ∧ UrlEncode (S_ "a b") false = S_ "a%20b".
Proof. vm_compute. done. Qed.

(** A percent sign not followed by two hexadecimal digits stays. *)
Example decode_lenient : UrlDecode (S_ "100%+%4") true = S_ "100% %4" ∧ UrlDecode (S_ "%zz%41") true = S_ "%zzA".
Proof. vm_compute. done. Qed.

(** [Dirname] does not drop trailing slashes. *)
Example dirname_trailing : Dirname (S_ "/a/b/") = S_ "/a/b" ∧ Basename (S_ "/a/b/") = [].
Proof. vm_compute. done. Qed.

Example list_yaml :
  ListAllFile [] (S_ "conf") [DT_DIR (S_ ".") []; DT_REG (S_ "a.yml"); DT_REG (S_ "b.txt");
    DT_DIR (S_ "d") [DT_REG (S_ "c.yml"); DT_OTHER (S_ "e.yml")]] (S_ ".yml")
  = [S_ "conf/a.yml"; S_ "conf/d/c.yml"].
Proof. vm_compute. done. Qed.

(** ** Witnesses *)

Lemma trim_exact_witness :
  Trim (S_ " a b ") (S_ " ") = S_ "a b" ∧ TrimLeft (S_ " a b ") (S_ " ") = S_ "a b " ∧
  TrimRight (S_ " a b ") (S_ " ") = S_ " a ".
Proof.
  apply (proj1 (proj2 (trim_exact (S_ " a b ") (S_ " ")))) with (l := S_ " ") (m := S_ "a b") (r := S_ " ").
  - reflexivity.
  - vm_compute. repeat constructor.
  - vm_compute. repeat constructor.
  - exists "a"%char. split; [reflexivity|]. apply (bool_decide_unpack _). vm_compute. exact I.
  - exists "b"%char. split; [reflexivity|]. apply (bool_decide_unpack _). vm_compute. exact I.
Defined.

Lemma UrlEncode_spec_witness :
  UrlEncode (S_ "a-b") true = S_ "a-b" ∧ UrlDecode (S_ "a-b") true = S_ "a-b".
Proof. apply (UrlEncode_spec (S_ "a-b") true). vm_compute. repeat constructor. Defined.

Lemma ListAllFile_exact_witness : ∃ more,
  ListAllFile [] (S_ "c") [DT_REG (S_ "a.yml")] (S_ ".yml") = [] ++ more ∧
  ∀ f, f ∈ more ↔ ∃ e n p, e ∈ [DT_REG (S_ "a.yml")] ∧ regular (S_ "c") e f n ∧ n = p ++ S_ ".yml".
Proof. apply ListAllFile_exact. Defined.

End StringUtil.
