(* ===== verification/FileSys.v ===== *)
(** * Calls that change the file system (util/util.cc, [FSUtil])

    [Module FileSys]: [Mkdir], [Rm], [Mv], [Symlink], [Unlink], [Realpath],
    [IsRunningPidfile] and the two functions that open files, over an interface to the
    system calls ([Class FileSystem]). What POSIX says of the calls below one directory is
    [Class FileLaws]: the names below it are a tree, a failed call changes nothing, and a
    call that succeeds removes what it says. Paths hold no zero byte. The names that
    [readdir] gives are those that were there when the directory was opened.

    Theorems: [Rm] ends, touches nothing outside, and answers true exactly when the name
    is gone or [lstat] was refused, and it is gone when no call is refused ([Rm_exact]); [Mkdir] makes all the
    directories of a path or stops at the first that is refused ([Mkdir_exact]). *)

From Stdlib Require Import Ascii String.
From S2P Require Import Prelude StringUtil.
Import StringUtil.

(** The state [F] of the file system and the system calls. The calls that change it
    answer whether they succeed. *)
Class FileSystem (F : Type) := {
  (** [st_mode], if the call succeeds. *)
  sys_lstat : str → F → option Z;
  sys_access : str → F → bool;
  (** All names that [readdir] gives until the end, if the directory can be opened. *)
  sys_readdir : str → F → option (list str);
  sys_mkdir : str → F → bool * F;
  sys_unlink : str → F → bool * F;
  sys_rmdir : str → F → bool * F;
  sys_rename : str → str → F → bool * F;
  sys_symlink : str → str → F → bool * F;
  sys_realpath : str → F → option str;
  (** The first line of a file, if it can be opened and has one. *)
  first_line : str → F → option str;
  (** Opening for reading and for writing. *)
  open_in : str → F → bool;
  open_out : str → F → bool * F;
  (** No path that exists has more than so many names. *)
  depth : F → nat }.

Module FileSys.

Local Open Scope Z_scope.

Definition S_IFMT : Z := 61440.
Definition S_IFDIR : Z := 16384.
Definition S_IFLNK : Z := 40960.
Definition S_IFSOCK : Z := 49152.

Section fs.
Context {F : Type} `{!FileSystem F}.

(** A call that changes the file system. *)
Definition call (c : F → bool * F) : M F bool := λ f, let '(b, f') := c f in (Ok b, f').

Definition __lstat (file : str) : M F (option Z) := mgets (sys_lstat file).

(** Zero is success. *)
Definition __mkdir (dirname : str) : M F bool :=
  a ← mgets (sys_access dirname);
  if a : bool then mret true else call (sys_mkdir dirname).

(** The loop of [Mkdir]: the path is cut at every slash in turn; [before] is what is
    before the cut. *)
Fixpoint mkdir_loop (before rest : str) : M F bool :=
  match rest with
  | [] => mret true
  | c :: rest =>
      if decide (c = "/"%char) then
        ok ← __mkdir before;
        if ok : bool then mkdir_loop (before ++ [c]) rest else mret false
      else mkdir_loop (before ++ [c]) rest
  end.

(** [strchr(path + 1, '/')] of the empty path is beyond its end. *)
Definition Mkdir (dirname : str) : M F bool :=
  st ← __lstat dirname;
  match st with
  | Some _ => mret true
  | None =>
      match dirname with
      | [] => mthrow UndefinedBehaviour
      | c :: rest =>
          ok ← mkdir_loop [c] rest;
          if ok : bool then __mkdir dirname else mret false
      end
  end.

Definition Unlink (filename : str) (exist : bool) : M F bool :=
  st ← __lstat filename;
  match st with
  | None => if exist then call (sys_unlink filename) else mret true
  | Some _ => call (sys_unlink filename)
  end.

(** The loop over the entries of a directory: [ret] is the answer for the last one. *)
Fixpoint rm_entries (rm : str → M F bool) (path : str) (names : list str) (ret : bool) : M F bool :=
  match names with
  | [] => mret ret
  | name :: names =>
      if decide (name = S_ "." ∨ name = S_ "..") then rm_entries rm path names ret
      else ret ← rm (path ++ S_ "/" ++ name); rm_entries rm path names ret
  end.

Fixpoint Rm_fuel (fuel : nat) (path : str) : M F bool :=
  match fuel with
  | O => mthrow OutOfFuel
  | S fuel =>
      st ← __lstat path;
      match st with
      | None => mret true
      | Some st_mode =>
          if decide (Z.land st_mode S_IFDIR = 0) then Unlink path false
          else
            dir ← mgets (sys_readdir path);
            match dir with
            | None => mret false
            | Some names =>
                ret ← rm_entries (Rm_fuel fuel) path names true;
                ok ← call (sys_rmdir path);
                mret (if ok : bool then ret else false)
            end
      end
  end.

Definition Rm (path : str) : M F bool := f ← mget; Rm_fuel (S (depth f)) path.

Definition Mv (from to : str) : M F bool :=
  ok ← Rm to; if ok : bool then call (sys_rename from to) else mret false.

Definition Symlink (from to : str) : M F bool :=
  ok ← Rm to; if ok : bool then call (sys_symlink from to) else mret false.

(** The new value of [rpath], if there is one. *)
Definition Realpath (path : str) : M F (option str) :=
  st ← __lstat path;
  match st with None => mret None | Some _ => mgets (sys_realpath path) end.

(** [atoi], the value of [strtol] as an [int]. *)
Definition atoi (s : str) : Z :=
  let s := skip_space s in
  let '(sign, s) := match s with
                    | c :: s' => if decide (c = "-"%char) then (-1, s') else if decide (c = "+"%char) then (1, s') else (1, s)
                    | [] => (1, [])
                    end in
  i32((- 2 ^ 63) `max` ((2 ^ 63 - 1) `min` (sign * digits 0 s))).

(** [kill(pid, 0) == 0] is an argument. *)
Definition IsRunningPidfile (kill : Z → bool) (pidfile : str) : M F bool :=
  st ← __lstat pidfile;
  match st with
  | None => mret false
  | Some _ =>
      line ← mgets (first_line pidfile);
      match line with
      | None | Some [] => mret false
      | Some line =>
          let pid := atoi line in
          if decide (pid ≤ 1) then mret false else mret (kill pid)
      end
  end.

Definition OpenForRead (filename : str) : M F bool := mgets (open_in filename).

Definition OpenForWrite (filename : str) : M F bool :=
  ok ← call (open_out filename);
  if ok : bool then mret true
  else Mkdir (Dirname filename);; call (open_out filename).

(** ** Below one directory *)

Definition is_dir (m : Z) : Prop := Z.land m S_IFMT = S_IFDIR.
#[global] Instance is_dir_dec m : Decision (is_dir m).
Proof. unfold is_dir. apply _. Defined.

Lemma type_bit m t : Z.land m S_IFMT = t → Z.land m S_IFDIR = Z.land t S_IFDIR.
Proof using. intros <-. by rewrite <- Z.land_assoc. Qed.

Definition dot (n : str) : Prop := n = S_ "." ∨ n = S_ "..".
Definition good (n : str) : Prop := n ≠ [] ∧ ¬ dot n ∧ "/"%char ∉ n.

Section laws.
Context (root : str) (view : F → list str → option Z).

(** The path of the file below [root] with these names. *)
Definition join (ns : list str) : str := foldl (λ p n, p ++ S_ "/" ++ n) root ns.

Lemma join_snoc ns n : join (ns ++ [n]) = join ns ++ S_ "/" ++ n.
Proof using. unfold join. by rewrite foldl_app. Qed.

(** The names below [root] are a tree: [view f ns] is the mode of what is there. *)
(** No symbolic link is on the way to these names. *)
Definition direct (f : F) (ns : list str) : Prop :=
  ∀ k n m, k ++ [n] `prefix_of` ns → view f k = Some m → is_dir m.

(** [lstat] can be refused whether something is there or not. *)
Class FileLaws : Prop := {
  view_lstat f ns m : Forall good ns → direct f ns → sys_lstat (join ns) f = Some m → view f ns = Some m;
  view_depth f ns m : view f ns = Some m → (length ns ≤ depth f)%nat;
  view_child f ns n : is_Some (view f (ns ++ [n])) → good n ∧ ∃ m, view f ns = Some m ∧ is_dir m;
  readdir_ok f ns m names : Forall good ns → view f ns = Some m → is_dir m → sys_readdir (join ns) f = Some names →
    ∀ n, n ∈ names ↔ dot n ∨ is_Some (view f (ns ++ [n]));
  readdir_file f ns m : Forall good ns → view f ns = Some m → ¬ is_dir m → Z.land m S_IFMT ≠ S_IFLNK →
    sys_readdir (join ns) f = None;
  unlink_ok f f' ns m : Forall good ns → view f ns = Some m → sys_unlink (join ns) f = (true, f') →
    ¬ is_dir m ∧ view f' ns = None ∧ ∀ k, k ≠ ns → view f' k = view f k;
  unlink_fails f f' ns : sys_unlink (join ns) f = (false, f') → view f' = view f;
  rmdir_ok f f' ns m : Forall good ns → view f ns = Some m → sys_rmdir (join ns) f = (true, f') →
    (∀ n, view f (ns ++ [n]) = None) ∧ view f' ns = None ∧ ∀ k, k ≠ ns → view f' k = view f k;
  rmdir_fails f f' ns : sys_rmdir (join ns) f = (false, f') → view f' = view f }.

(** No call is refused that can be done. *)
Record permits : Prop := {
  permits_lstat f ns m : Forall good ns → view f ns = Some m → is_Some (sys_lstat (join ns) f);
  permits_readdir f ns m : Forall good ns → view f ns = Some m → is_dir m → is_Some (sys_readdir (join ns) f);
  permits_unlink f ns m : Forall good ns → view f ns = Some m → ¬ is_dir m → (sys_unlink (join ns) f).1 = true;
  permits_rmdir f ns m : Forall good ns → view f ns = Some m → is_dir m → (∀ n, view f (ns ++ [n]) = None) →
    (sys_rmdir (join ns) f).1 = true }.

(** No socket and no block device, whose types have the bit that the program tests. *)
Definition no_bit (f : F) : Prop := ∀ ns m, view f ns = Some m → ¬ is_dir m → Z.land m S_IFDIR = 0.

(** At most what is at [ns] and below is removed. *)
Definition below (f f' : F) (ns : list str) : Prop :=
  ∀ k, view f' k = view f k ∨ view f' k = None ∧ ns `prefix_of` k.

Lemma below_refl f ns : below f f ns.
Proof. by left. Qed.

Lemma below_trans f1 f2 f3 ns : below f1 f2 ns → below f2 f3 ns → below f1 f3 ns.
Proof. intros H1 H2 k. destruct (H2 k) as [->|?]; [apply H1|by right]. Qed.

Lemma below_child f f' ns n : below f f' (ns ++ [n]) → below f f' ns ∧ view f' ns = view f ns.
Proof.
  intros H. split.
  - intros k. destruct (H k) as [?|[? Hk]]; [by left|right]. split; [done|]. etrans; [|exact Hk]. by apply prefix_app_r.
  - destruct (H ns) as [?|[_ Hk]]; [done|]. apply prefix_length in Hk. rewrite length_app in Hk. simpl in Hk. lia.
Qed.

Lemma below_none f f' ns k : below f f' ns → view f k = None → view f' k = None.
Proof. intros H Hk. destruct (H k) as [->|[? _]]; done. Qed.

Lemma below_some f f' ns k m : below f f' ns → view f' k = Some m → view f k = Some m.
Proof. intros H Hk. destruct (H k) as [<-|[Hn _]]; [done|congruence]. Qed.

Definition bound (B : nat) (f : F) : Prop := ∀ k m, view f k = Some m → (length k ≤ B)%nat.

(** What a removal of [ns] with the answer [b] has done. *)
Definition removal (f : F) (ns : list str) (b : bool) (f' : F) : Prop :=
  below f f' ns ∧ (b = true ↔ view f' ns = None ∨ sys_lstat (join ns) f = None) ∧
  (permits → no_bit f → b = true ∧ view f' ns = None).

(** A directory that is there. *)
Definition stays (f : F) (ns : list str) : Prop := ∃ m, view f ns = Some m ∧ is_dir m.

Lemma no_bit_below f f' ns : below f f' ns → no_bit f → no_bit f'.
Proof. intros H Hf k m Hk. by apply (Hf k), (below_some _ _ _ _ _ H). Qed.

Lemma bound_below B f f' ns : below f f' ns → bound B f → bound B f'.
Proof. intros H Hf k m Hk. by apply (Hf k m), (below_some _ _ _ _ _ H). Qed.

Lemma rm_entries_dots rm path names ret f : Forall dot names → rm_entries rm path names ret f = (Ok ret, f).
Proof using. induction 1 as [|n names Hn _ IH]; [done|]. cbn [rm_entries]. by rewrite decide_True. Qed.

(** The loop, if the removal of every entry is right. *)
Lemma rm_entries_ok rm B ns : Forall good ns →
  ∀ names, (∀ n f, n ∈ names → ¬ dot n → bound B f → stays f ns →
    ∃ b f', rm (join (ns ++ [n])) f = (Ok b, f') ∧ removal f (ns ++ [n]) b f') →
  ∀ ret f, bound B f → stays f ns → ∃ b f', rm_entries rm (join ns) names ret f = (Ok b, f') ∧
    below f f' ns ∧ view f' ns = view f ns ∧
    (b = false → (Forall dot names ∧ ret = false) ∨ ∃ n, is_Some (view f' (ns ++ [n]))) ∧
    (permits → no_bit f → (ret = true → b = true) ∧ ∀ n, n ∈ names → dot n ∨ view f' (ns ++ [n]) = None).
Proof using.
  intros Hns. induction names as [|n names IH]; intros Hrm ret f Hb Hst.
  { exists ret, f. split; [done|]. split; [apply below_refl|]. split; [done|]. split; [by left|].
    intros _ _. split; [done|]. by intros n ?%not_elem_of_nil. }
  assert (∀ n f, n ∈ names → ¬ dot n → bound B f → stays f ns →
    ∃ b f', rm (join (ns ++ [n])) f = (Ok b, f') ∧ removal f (ns ++ [n]) b f') as Hrm'.
  { intros k g Hk. apply Hrm. by right. }
  cbn [rm_entries]. destruct (decide (n = S_ "." ∨ n = S_ "..")) as [Hd|Hd].
  { destruct (IH Hrm' ret f Hb Hst) as (b & f' & Hr & H1 & H2 & H3 & H4). exists b, f'. split_and!; [done..| |].
    - intros Hf. destruct (H3 Hf) as [[? ?]|?]; [left|by right]. split; [by constructor|done].
    - intros Hp Hn. destruct (H4 Hp Hn) as [H5 H6]. split; [done|]. intros k [->|Hk]%elem_of_cons; [by left|by apply H6]. }
  destruct (Hrm n f) as (b1 & f1 & Hr1 & Hbel & Hgone & Hper); [by left|done|done|done|].
  rewrite <- join_snoc, (bind_ok _ _ _ _ _ Hr1). pose proof (below_child _ _ _ _ Hbel) as [Hbel' Heq].
  assert (stays f1 ns) as Hst1 by (destruct Hst as (m & Hm & Hdm); exists m; by rewrite Heq).
  destruct (IH Hrm' b1 f1 (bound_below _ _ _ _ Hbel Hb) Hst1) as (b & f' & Hr & H1 & H2 & H3 & H4).
  exists b, f'. split; [done|]. split; [by eapply below_trans|]. split; [congruence|]. split.
  - intros Hf. destruct (H3 Hf) as [[Hdots ->]|?]; [|by right]. right. exists n.
    rewrite (rm_entries_dots _ _ _ _ _ Hdots) in Hr. injection Hr as _ <-.
    destruct (view f1 (ns ++ [n])); [by eexists|]. by discriminate (proj2 Hgone (or_introl eq_refl)).
  - intros Hp Hn. destruct (H4 Hp (no_bit_below _ _ _ Hbel Hn)) as [H5 H6]. destruct (Hper Hp Hn) as [Hbt Hnone].
    split; [intros _; by apply H5|]. intros k [->|Hk]%elem_of_cons; [|by apply H6].
    right. by eapply below_none.
Qed.

Context {laws : FileLaws}.

Lemma removed_below f f' ns : view f' ns = None → (∀ k, k ≠ ns → view f' k = view f k) → below f f' ns.
Proof using. intros Hn Ho k. destruct (decide (k = ns)) as [->|Hk]; [by right|left; by apply Ho]. Qed.

Lemma same_below f f' ns : view f' = view f → below f f' ns.
Proof using. intros H k. left. by rewrite H. Qed.

Lemma view_prefix f ns k : k `prefix_of` ns → is_Some (view f ns) → is_Some (view f k).
Proof using All.
  intros [l ->]. induction l as [|n l IH] using rev_ind; [by rewrite app_nil_r|].
  intros H. rewrite (assoc_L (++)) in H. destruct (view_child f (k ++ l) n H) as (_ & m & Hm & _). apply IH. by exists m.
Qed.

Lemma direct_child f ns n : stays f ns → direct f (ns ++ [n]).
Proof using All.
  intros (m & Hm & Hd) k i x [l Hk] Hx. destruct l as [|j l _] using rev_ind.
  - rewrite app_nil_r in Hk. apply app_inj_2 in Hk as [-> _]; [|done]. congruence.
  - rewrite (assoc_L (++)) in Hk. apply app_inj_2 in Hk as [-> _]; [|done].
    destruct (view_child f k i) as (_ & y & Hy & Hdy); [|congruence].
    apply (view_prefix f ((k ++ [i]) ++ l)); [by eexists|by exists m].
Qed.

Lemma direct_here f ns m : view f ns = Some m → direct f ns.
Proof using All.
  intros Hm k n x Hk Hx. destruct (view_child f k n) as (_ & y & Hy & Hdy); [|congruence].
  apply (view_prefix f ns); [done|by exists m].
Qed.

(** A file that is no directory. *)
Lemma Unlink_removal f ns m : Forall good ns → view f ns = Some m → sys_lstat (join ns) f = Some m → Z.land m S_IFDIR = 0 →
  ∃ b f', Unlink (join ns) false f = (Ok b, f') ∧ removal f ns b f'.
Proof using All.
  intros Hns Hm Hl Hbit. assert (¬ is_dir m) as Hd by (intros Hd; by rewrite (type_bit _ _ Hd) in Hbit).
  unfold Unlink, __lstat, removal. rewrite bind_mgets, Hl. unfold call.
  destruct (sys_unlink (join ns) f) as [b f'] eqn:Hu. exists b, f'. split; [done|]. destruct b.
  - destruct (unlink_ok _ _ _ _ Hns Hm Hu) as (_ & Hn & Ho). split; [by apply removed_below|]. naive_solver.
  - apply unlink_fails in Hu as Hv. split; [by apply same_below|]. split.
    + rewrite Hv, Hm. naive_solver.
    + intros Hp _. pose proof (permits_unlink Hp f ns m Hns Hm Hd) as H. by rewrite Hu in H.
Qed.

Lemma Rm_fuel_ok fuel : ∀ B f ns, bound B f → Forall good ns → direct f ns → (B < length ns + fuel)%nat → (0 < fuel)%nat →
  ∃ b f', Rm_fuel fuel (join ns) f = (Ok b, f') ∧ removal f ns b f'.
Proof using All.
  induction fuel as [|fuel IH]; intros B f ns Hb Hns Hdir0 Hfuel Hpos; [lia|]. cbn [Rm_fuel]. unfold __lstat.
  rewrite bind_mgets. destruct (sys_lstat (join ns) f) as [m|] eqn:Hl.
  2: { exists true, f. split; [done|]. split; [apply below_refl|]. split; [naive_solver|]. intros Hp _.
    split; [done|]. destruct (view f ns) as [m|] eqn:Hm; [|done].
    destruct (permits_lstat Hp f ns m Hns Hm) as [? ?]. congruence. }
  pose proof (view_lstat f ns m Hns Hdir0 Hl) as Hm.
  destruct (decide (Z.land m S_IFDIR = 0)) as [Hbit|Hbit]; [by eapply Unlink_removal|].
  rewrite bind_mgets. destruct (sys_readdir (join ns) f) as [names|] eqn:Hdir.
  2: { exists false, f. split; [done|]. split; [apply below_refl|]. split; [rewrite Hm, Hl; naive_solver|].
    intros Hp Hn. destruct (decide (is_dir m)) as [Hd|Hd]; [|by destruct Hbit; apply (Hn ns)].
    destruct (permits_readdir Hp f ns m Hns Hm Hd) as [? ?]. congruence. }
  assert (is_dir m) as Hd.
  { destruct (decide (is_dir m)) as [Hd|Hd]; [done|]. rewrite (readdir_file f ns m) in Hdir; [done..|].
    intros Hlnk. by rewrite (type_bit _ _ Hlnk) in Hbit. }
  pose proof (readdir_ok f ns m names Hns Hm Hd Hdir) as Hnames.
  destruct (rm_entries_ok (Rm_fuel fuel) B ns Hns names) with (ret := true) (f := f)
    as (b1 & f1 & Hr1 & Hbel & Heq & Hfalse & Hper); [|done|by exists m|].
  { intros n g Hn Hnd Hg Hst. apply Hnames in Hn as [?|Hn]; [done|]. destruct (view_child f ns n Hn) as [Hgood _].
    destruct Hn as [mn Hn]. apply Hb in Hn. rewrite length_app in Hn. simpl in Hn.
    apply (IH B); [done|by apply Forall_app_2; [|constructor]|by apply direct_child|rewrite length_app; simpl; lia|lia]. }
  rewrite (bind_ok _ _ _ _ _ Hr1). rewrite Hm in Heq. unfold call.
  destruct (sys_rmdir (join ns) f1) as [ok f2] eqn:Hrm. erewrite bind_ok by (by rewrite Hrm).
  exists (if ok then b1 else false), f2. split; [done|]. destruct ok.
  - destruct (rmdir_ok _ _ _ _ Hns Heq Hrm) as (Hempty & Hn & Ho).
    assert (b1 = true) as ->.
    { destruct b1; [done|]. destruct (Hfalse eq_refl) as [[_ ?]|[n [? Hx]]]; [done|]. by rewrite Hempty in Hx. }
    split; [eapply below_trans; [exact Hbel|by apply removed_below]|]. naive_solver.
  - apply rmdir_fails in Hrm as Hv. split; [eapply below_trans; [exact Hbel|by apply same_below]|].
    split; [rewrite Hv, Heq, Hl; naive_solver|]. intros Hp Hn. exfalso. destruct (Hper Hp Hn) as [_ Hgone].
    pose proof (permits_rmdir Hp f1 ns m Hns Heq Hd) as H. rewrite Hrm in H.
    cut (false = true); [done|]. apply H. intros n.
    destruct (view f1 (ns ++ [n])) as [mn|] eqn:Hmn; [|done].
    pose proof (below_some _ _ _ _ _ Hbel Hmn) as Hmn'.
    destruct (view_child f ns n) as [(_ & Hnd & _) _]; [by eexists|].
    destruct (Hgone n) as [?|?]; [apply Hnames; right; by eexists|done|congruence].
Qed.

(** C27. [Rm] of any path below a directory, with no symbolic link on the way to it, ends,
    and removes nothing that is not at the path or below it. It answers true exactly when
    the path is gone, although the answer for an entry overwrites that for the ones before,
    or when [lstat] of the path was refused, for whatever reason: [util.cc:240] takes that for
    a path that is not there ([rm_unseen]). If the system refuses nothing that can be done,
    and there are no sockets and no block devices, which are taken for directories, the
    path is gone. *)
Theorem Rm_exact f ns : Forall good ns → direct f ns → ∃ b f',
  Rm (join ns) f = (Ok b, f') ∧
  (∀ k, view f' k = view f k ∨ view f' k = None ∧ ns `prefix_of` k) ∧
  (b = true ↔ view f' ns = None ∨ sys_lstat (join ns) f = None) ∧
  (permits → no_bit f → b = true ∧ view f' ns = None).
Proof using All.
  intros Hns Hd. unfold Rm. rewrite bind_mget.
  apply (Rm_fuel_ok (S (depth f)) (depth f)); [intros k m; apply view_depth|done|done|lia..].
Qed.

End laws.
(** ** Making directories *)

(** What is made, in this order: the path up to each slash after the first character. *)
Fixpoint cuts (before rest : str) : list str :=
  match rest with
  | [] => []
  | c :: rest => if decide (c = "/"%char) then before :: cuts (before ++ [c]) rest else cuts (before ++ [c]) rest
  end.

Definition steps (dirname : str) : list str := match dirname with [] => [] | c :: rest => cuts [c] rest ++ [dirname] end.

(** What exists in [f] exists in [f']. *)
Definition grows (f f' : F) : Prop := ∀ q, sys_access q f = true → sys_access q f' = true.

#[local] Instance grows_pre : PreOrder grows.
Proof using. split; [by intros f q|]. intros f1 f2 f3 H1 H2 q Hq. by apply H2, H1. Qed.

(** A directory that was made exists, and making one removes nothing. *)
Class MkdirLaws : Prop := {
  mkdir_makes p f f' : sys_mkdir p f = (true, f') → sys_access p f' = true;
  mkdir_grows p f : grows f (sys_mkdir p f).2 }.

Context {mlaws : MkdirLaws}.

(** The outcome of a list of steps: all exist, or the first one that is refused. *)
Definition made (l : list str) (f : F) (b : bool) (f' : F) : Prop :=
  grows f f' ∧
  if b then ∀ q, q ∈ l → sys_access q f' = true
  else ∃ pre q post f1, l = pre ++ q :: post ∧ grows f f1 ∧ (∀ p, p ∈ pre → sys_access p f1 = true) ∧
    sys_access q f1 = false ∧ sys_mkdir q f1 = (false, f').

Lemma made_cons q l f f1 b f' : made [q] f true f1 → made l f1 b f' → made (q :: l) f b f'.
Proof using.
  intros [Hg Hq] [Hg' H]. split; [by etrans|]. specialize (Hq q ltac:(by left)). destruct b.
  - intros p [->|Hp]%elem_of_cons; [by apply Hg'|by apply H].
  - destruct H as (pre & r & post & f2 & -> & Hg2 & Hpre & Hr & Hm). exists (q :: pre), r, post, f2.
    split; [done|]. split; [by etrans|]. split; [|done].
    intros p [->|Hp]%elem_of_cons; [by apply Hg2|by apply Hpre].
Qed.

Lemma made_stop q l f f' : made [q] f false f' → made (q :: l) f false f'.
Proof using.
  intros [Hg (pre & r & post & f1 & Heq & H)]. split; [done|]. exists pre, r, (post ++ l), f1.
  split; [|done]. change (q :: l) with ([q] ++ l). rewrite Heq. by rewrite <- (assoc_L (++)).
Qed.

Lemma mkdir_made q f : ∃ b f', __mkdir q f = (Ok b, f') ∧ made [q] f b f'.
Proof using mlaws.
  unfold __mkdir. rewrite bind_mgets. destruct (sys_access q f) eqn:Ha.
  - exists true, f. split; [done|]. split; [done|]. by intros p ->%list_elem_of_singleton.
  - unfold call. pose proof (mkdir_grows q f) as Hg. destruct (sys_mkdir q f) as [b f'] eqn:Hm.
    exists b, f'. split; [done|]. split; [done|]. destruct b.
    + intros p ->%list_elem_of_singleton. by apply (mkdir_makes q f).
    + exists [], q, [], f. split_and!; try done. by intros p ?%not_elem_of_nil.
Qed.

Lemma mkdir_loop_made rest : ∀ before f, ∃ b f', mkdir_loop before rest f = (Ok b, f') ∧
  made (cuts before rest) f b f'.
Proof using mlaws.
  induction rest as [|c rest IH]; intros before f; cbn [mkdir_loop cuts].
  { exists true, f. split; [done|]. split; [done|]. by intros q ?%not_elem_of_nil. }
  case_decide; [|apply IH]. destruct (mkdir_made before f) as (b & f1 & H1 & Hm1).
  rewrite (bind_ok _ _ _ _ _ H1). destruct b.
  - destruct (IH (before ++ [c]) f1) as (b & f2 & H2 & Hm2). exists b, f2. split; [done|]. by eapply made_cons.
  - exists false, f1. split; [done|]. by apply made_stop.
Qed.

Lemma made_app l q f b f1 b' f' : made l f b f1 → (if b then made [q] f1 b' f' else b' = false ∧ f' = f1) →
  made (l ++ [q]) f b' f'.
Proof using.
  intros [Hg H] Hq. destruct b.
  - destruct Hq as [Hg' Hq]. split; [by etrans|]. destruct b'.
    + intros p [Hp|Hp]%elem_of_app; [by apply Hg', H|by apply Hq].
    + destruct Hq as (pre & r & post & f2 & Heq & Hg2 & Hpre & Hr & Hm).
      exists (l ++ pre), r, post, f2. split; [rewrite Heq; by rewrite <- (assoc_L (++))|]. split; [by etrans|].
      split; [|done]. intros p [Hp|Hp]%elem_of_app; [by apply Hg2, H|by apply Hpre].
  - destruct Hq as [-> ->]. split; [done|]. destruct H as (pre & r & post & f2 & -> & H).
    exists pre, r, (post ++ [q]), f2. split; [by rewrite <- (assoc_L (++))|done].
Qed.

(** [Mkdir] answers true at once for whatever exists, a file as well. Otherwise it makes the
    directories from the first to the last: it answers true when all of them exist, and
    false at the first one that is refused, leaving the ones before it. *)
Theorem Mkdir_exact dirname f : dirname ≠ [] → ∃ b f', Mkdir dirname f = (Ok b, f') ∧
  match sys_lstat dirname f with
  | Some _ => b = true ∧ f' = f
  | None => made (steps dirname) f b f'
  end.
Proof using mlaws.
  intros Hne. unfold Mkdir, __lstat. rewrite bind_mgets. destruct (sys_lstat dirname f) as [m|]; [by exists true, f|].
  destruct dirname as [|c rest]; [done|]. destruct (mkdir_loop_made rest [c] f) as (b & f1 & H1 & Hm1).
  rewrite (bind_ok _ _ _ _ _ H1). destruct b.
  - destruct (mkdir_made (c :: rest) f1) as (b & f2 & H2 & Hm2). exists b, f2. split; [done|].
    by eapply made_app.
  - exists false, f1. split; [done|]. by eapply made_app.
Qed.

End fs.

(** ** A concrete instance *)

#[global] Instance good_dec n : Decision (good n).
Proof. unfold good, dot. apply _. Defined.

Definition parent (k : list str) : list str := take (pred (length k)) k.

(** Every file has a good name and is in a directory. *)
Definition tree_ok (m : gmap (list str) Z) : Prop :=
  ∀ k n x, m !! (k ++ [n]) = Some x → good n ∧ ∃ y, m !! k = Some y ∧ is_dir y.

(** The files of a disk by their names from the root. *)
Record disk := Disk { files : gmap (list str) Z; files_ok : tree_ok files }.

Definition childless (m : gmap (list str) Z) (k : list str) : Prop := map_Forall (λ j _, j = [] ∨ parent j ≠ k) m.

Lemma childless_spec m k : childless m k ↔ ∀ n, m !! (k ++ [n]) = None.
Proof.
  split.
  - intros H n. destruct (m !! (k ++ [n])) as [x|] eqn:Hx; [|done]. exfalso.
    destruct (H _ _ Hx) as [?|Hp]; [by destruct k|]. apply Hp. unfold parent. rewrite length_app, Nat.add_1_r. simpl.
    by rewrite take_app_length.
  - intros H j x Hj. destruct j as [|n j _] using rev_ind; [by left|right]. intros <-.
    assert (parent (j ++ [n]) = j) as Hp by (unfold parent; by rewrite length_app, Nat.add_1_r; simpl; rewrite take_app_length).
    rewrite Hp in H. by rewrite H in Hj.
Qed.

Lemma disk_tree_delete m k : tree_ok m → childless m k → tree_ok (delete k m).
Proof.
  intros Hm Hk j n x Hj. apply lookup_delete_Some in Hj as [Hne Hj]. destruct (Hm _ _ _ Hj) as (Hg & y & Hy & Hd).
  split; [done|]. exists y. rewrite lookup_delete_ne; [done|]. intros ->.
  by rewrite (proj1 (childless_spec m j) Hk) in Hj.
Qed.

Lemma disk_tree_insert m k n x y : tree_ok m → m !! (k ++ [n]) = None → good n → m !! k = Some y → is_dir y →
  tree_ok (<[k ++ [n] := x]> m).
Proof.
  intros Hm Hnew Hg Hk Hd j i z Hj. apply lookup_insert_Some in Hj as [[Heq _]|[Hne Hj]].
  - apply app_inj_2 in Heq as [-> [= ->]]; [|done]. split; [done|]. exists y. split; [|done].
    rewrite lookup_insert_ne; [done|]. intros Heq. rewrite <- Heq in Hk. congruence.
  - destruct (Hm _ _ _ Hj) as (Hgi & w & Hw & Hdw). split; [done|]. exists w. split; [|done].
    rewrite lookup_insert_ne; [done|]. intros Heq. rewrite <- Heq in Hw. congruence.
Qed.

Definition disk_delete (k : list str) (f : disk) : bool * disk :=
  match decide (childless (files f) k) with
  | left H => (true, Disk (delete k (files f)) (disk_tree_delete _ _ (files_ok f) H))
  | right _ => (false, f)
  end.

(** The names of an absolute path. *)
Fixpoint split (cur s : str) : list str :=
  match s with
  | [] => [cur]
  | c :: s => if decide (c = "/"%char) then cur :: split [] s else split (cur ++ [c]) s
  end.
Definition parse (p : str) : option (list str) :=
  match p with
  | c :: _ => if decide (c = "/"%char) then Some (filter (λ n, n ≠ []) (split [] p)) else None
  | [] => None
  end.

Lemma split_snoc p n : ∀ cur, "/"%char ∉ n → split cur (p ++ S_ "/" ++ n) = split cur p ++ [n].
Proof.
  assert (∀ n cur, "/"%char ∉ n → split cur n = [cur ++ n]) as Hn.
  { clear. induction n as [|c n IH]; intros cur Hc; simpl; [by rewrite app_nil_r|]. apply not_elem_of_cons in Hc as [? ?].
    rewrite decide_False by done. rewrite IH by done. by rewrite <- (assoc_L (++)). }
  induction p as [|c p IH]; intros cur Hc; simpl; [by rewrite Hn|]. case_decide; [by rewrite IH|by apply IH].
Qed.

Lemma parse_join ns : Forall good ns → parse (join (S_ "/") ns) = Some ns.
Proof.
  intros H. assert (∃ p, join (S_ "/") ns = "/"%char :: p ∧ split [] (join (S_ "/") ns) = [] :: [] :: ns) as (p & Hp & Hs).
  - induction ns as [|n ns IH] using rev_ind; [by exists []|]. apply Forall_app in H as [H (_ & _ & Hn)%Forall_singleton].
    destruct (IH H) as (p & Hp & Hs). rewrite join_snoc, split_snoc, Hs, Hp by done. by eexists.
  - unfold parse. rewrite Hs, Hp. rewrite decide_True by done. f_equal. rewrite !filter_cons_False by (by intros []).
    clear -H. induction H as [|n ns (Hn & _) _ IH]; [done|]. rewrite filter_cons_True by done. by rewrite IH.
Qed.

Definition on_path {A} (p : str) (d : A) (g : list str → A) : A := match parse p with Some k => g k | None => d end.

(** The system calls. A file that is renamed must not have files below it. *)
Definition disk_insert (k : list str) (x : Z) (f : disk) : bool * disk :=
  match last k with
  | None => (false, f)
  | Some n =>
      match decide (k = parent k ++ [n] ∧ files f !! (parent k ++ [n]) = None ∧ good n) with
      | right _ => (false, f)
      | left H =>
          match files f !! parent k as o return files f !! parent k = o → bool * disk with
          | None => λ _, (false, f)
          | Some y => λ Hy,
              match decide (is_dir y) with
              | right _ => (false, f)
              | left Hd => (true, Disk (<[parent k ++ [n] := x]> (files f))
                  (disk_tree_insert _ _ _ x y (files_ok f) (proj1 (proj2 H)) (proj2 (proj2 H)) Hy Hd))
              end
          end eq_refl
      end
  end.

Definition REG : Z := 33188.
Definition DIR : Z := 16877.
Definition SOCK : Z := 49645.

#[global] Instance disk_system : FileSystem disk := {
  sys_lstat p f := on_path p None (λ k, files f !! k);
  sys_access p f := on_path p false (λ k, bool_decide (is_Some (files f !! k)));
  sys_readdir p f := on_path p None (λ k,
    match files f !! k with
    | Some m => if decide (is_dir m) then
        Some (S_ "." :: S_ ".." :: omap (λ j, if decide (parent j.1 = k) then last j.1 else None) (map_to_list (files f)))
      else None
    | None => None
    end);
  sys_mkdir p f := on_path p (false, f) (λ k, disk_insert k DIR f);
  sys_unlink p f := on_path p (false, f) (λ k,
    match files f !! k with
    | Some m => if decide (is_dir m) then (false, f) else disk_delete k f
    | None => (false, f)
    end);
  sys_rmdir p f := on_path p (false, f) (λ k,
    match files f !! k with
    | Some m => if decide (is_dir m) then disk_delete k f else (false, f)
    | None => (false, f)
    end);
  sys_rename from to f := on_path from (false, f) (λ k, on_path to (false, f) (λ k',
    match files f !! k with
    | Some m => let '(b, f') := disk_delete k f in if b : bool then disk_insert k' m f' else (false, f)
    | None => (false, f)
    end));
  sys_symlink _ to f := on_path to (false, f) (λ k, disk_insert k (S_IFLNK + 511) f);
  sys_realpath p f := on_path p None (λ k, if decide (is_Some (files f !! k)) then Some p else None);
  first_line p f := None;
  open_in p f := on_path p false (λ k, bool_decide (is_Some (files f !! k)));
  open_out p f := on_path p (false, f) (λ k,
    match files f !! k with
    | Some m => (bool_decide (¬ is_dir m), f)
    | None => disk_insert k REG f
    end);
  depth f := foldr (λ j n, length j.1 `max` n)%nat 0%nat (map_to_list (files f)) }.

Definition disk_view (f : disk) (k : list str) : option Z := files f !! k.

Lemma disk_delete_true k f f' : disk_delete k f = (true, f') →
  (∀ n, disk_view f (k ++ [n]) = None) ∧ disk_view f' k = None ∧ ∀ j, j ≠ k → disk_view f' j = disk_view f j.
Proof.
  unfold disk_delete, disk_view. destruct (decide (childless (files f) k)) as [H|H]; intros [= <-]. simpl.
  split; [by apply childless_spec|]. split; [apply lookup_delete_eq|]. intros j Hj. by apply lookup_delete_ne.
Qed.

Lemma disk_delete_false k f f' : disk_delete k f = (false, f') → f' = f.
Proof. unfold disk_delete. by destruct (decide _); intros [= <-]. Qed.

Lemma disk_entries f k n : n ∈ omap (λ j, if decide (parent j.1 = k) then last j.1 else None) (map_to_list (files f)) →
  is_Some (files f !! (k ++ [n])).
Proof.
  intros ([j x] & Hj%elem_of_map_to_list & Hn)%list_elem_of_omap. simpl in Hn. case_decide as Hp; [|done].
  destruct j as [|i j _] using rev_ind; [done|]. rewrite last_snoc in Hn. simplify_eq.
  unfold parent. rewrite length_app, Nat.add_1_r. simpl. rewrite take_app_length. by eexists.
Qed.

#[global] Instance disk_laws : FileLaws (S_ "/") disk_view.
Proof.
  split.
  - intros f ns m H _. unfold sys_lstat, on_path. simpl. unfold on_path. by rewrite parse_join.
  - intros f ns m H. unfold depth. simpl. unfold disk_view in H. apply elem_of_map_to_list in H.
    induction (map_to_list (files f)) as [|[j x] l IH]; [by apply not_elem_of_nil in H|]. simpl.
    apply elem_of_cons in H as [[= -> ->]|H]; [lia|]. specialize (IH H). lia.
  - intros f ns n [x Hx]. apply (files_ok f _ _ _ Hx).
  - intros f ns m names Hg Hm Hd. simpl. unfold on_path. rewrite parse_join by done. unfold disk_view in *.
    rewrite Hm, decide_True by done. intros [= <-] n. rewrite !elem_of_cons. split.
    + intros [->|[->|H%disk_entries]]; [by left; left|by left; right|by right].
    + intros [[-> | ->]|[x Hx]]; [by left|by right; left|right; right]. apply list_elem_of_omap.
      exists (ns ++ [n], x). split; [by apply elem_of_map_to_list|]. simpl. unfold parent.
      rewrite length_app, Nat.add_1_r. simpl. rewrite take_app_length, decide_True by done. apply last_snoc.
  - intros f ns m Hg Hm Hd _. simpl. unfold on_path. rewrite parse_join by done. unfold disk_view in Hm.
    by rewrite Hm, decide_False.
  - intros f f' ns m Hg Hm. simpl. unfold on_path. rewrite parse_join by done. unfold disk_view in Hm.
    rewrite Hm. case_decide as Hd; [done|]. intros H. split; [done|]. by apply disk_delete_true.
  - intros f f' ns. simpl. unfold on_path. destruct (parse _) as [k|]; [|by intros [= <-]].
    destruct (files f !! k) as [m|]; [|by intros [= <-]]. case_decide; [by intros [= <-]|].
    by intros ->%disk_delete_false.
  - intros f f' ns m Hg Hm. simpl. unfold on_path. rewrite parse_join by done. unfold disk_view in Hm.
    rewrite Hm. case_decide; [|done]. apply disk_delete_true.
  - intros f f' ns. simpl. unfold on_path. destruct (parse _) as [k|]; [|by intros [= <-]].
    destruct (files f !! k) as [m|]; [|by intros [= <-]]. case_decide; [|by intros [= <-]].
    by intros ->%disk_delete_false.
Qed.

Lemma disk_insert_files k x f : files (disk_insert k x f).2 = files f ∨ files (disk_insert k x f).2 = <[k := x]> (files f).
Proof.
  unfold disk_insert. destruct (last k) as [n|]; [|by left]. destruct (decide _) as [H|H]; [|by left].
  generalize (disk_tree_insert (files f) (parent k) n x) as ins.
  generalize (proj1 (proj2 H)) as H1. generalize (proj2 (proj2 H)) as H2. destruct H as [Hk _]. intros H2 H1.
  destruct (files f !! parent k) as [y|]; [|by left]. intros ins. destruct (decide (is_dir y)); [|by left].
  right. simpl. by rewrite <- Hk.
Qed.

Lemma disk_insert_true k x f f' : disk_insert k x f = (true, f') → files f' = <[k := x]> (files f).
Proof.
  unfold disk_insert. destruct (last k) as [n|]; [|done]. destruct (decide _) as [H|H]; [|done].
  generalize (disk_tree_insert (files f) (parent k) n x) as ins.
  generalize (proj1 (proj2 H)) as H1. generalize (proj2 (proj2 H)) as H2. destruct H as [Hk _]. intros H2 H1.
  destruct (files f !! parent k) as [y|]; [|done]. intros ins. destruct (decide (is_dir y)); [|done].
  intros [= <-]. simpl. by rewrite <- Hk.
Qed.

#[global] Instance disk_mkdir : MkdirLaws (F := disk).
Proof.
  split.
  - intros p f f'. simpl. unfold on_path. destruct (parse p) as [k|]; [|done].
    intros ->%disk_insert_true. apply bool_decide_eq_true. rewrite lookup_insert_eq. by eexists.
  - intros p f q. simpl. unfold on_path. destruct (parse q) as [j|]; [|done]. intros [x Hj]%bool_decide_eq_true.
    apply bool_decide_eq_true. destruct (parse p) as [k|]; [|by eexists].
    destruct (disk_insert_files k DIR f) as [-> | ->]; [by eexists|].
    destruct (decide (k = j)) as [->|Hne]; [rewrite lookup_insert_eq|rewrite lookup_insert_ne by done]; by eexists.
Qed.

Lemma empty_ok : tree_ok {[ [] := DIR ]}.
Proof. intros k n x H. apply lookup_singleton_Some in H as [H _]. by destruct k. Qed.

(** A directory with a file and a directory in it. *)
Definition empty_disk : disk := Disk {[ [] := DIR ]} empty_ok.
Definition sample_disk : disk :=
  (sys_mkdir (S_ "/a/b") (open_out (S_ "/a/f") (sys_mkdir (S_ "/a") empty_disk).2).2).2.
Definition socket_disk : disk := (disk_insert [S_ "s"] SOCK empty_disk).2.

Definition result (r : res bool * disk) : res bool * list (list str * Z) := (r.1, map_to_list (files r.2)).

(** ** Edge cases *)

Example rm_tree : result (Rm (S_ "/a") sample_disk) = (Ok true, [([], DIR)]).
Proof. vm_compute. done. Qed.

(** A socket, as Unix sockets leave them behind, cannot be removed. *)
Example socket_stays : result (Rm (S_ "/s") socket_disk) = result (Ok false, socket_disk).
Proof. vm_compute. done. Qed.

(** When [lstat] is refused, as for a path in a directory that may not be searched, [Rm]
    answers true and does nothing. *)
Definition unseen_system : FileSystem disk := {|
  sys_lstat _ _ := None; sys_access := sys_access; sys_readdir := sys_readdir; sys_mkdir := sys_mkdir;
  sys_unlink := sys_unlink; sys_rmdir := sys_rmdir; sys_rename := sys_rename; sys_symlink := sys_symlink;
  sys_realpath := sys_realpath; first_line := first_line; open_in := open_in; open_out := open_out; depth := depth |}.

Example rm_unseen : Rm (FileSystem0 := unseen_system) (S_ "/a/f") sample_disk = (Ok true, sample_disk) ∧
  is_Some (files sample_disk !! [S_ "a"; S_ "f"]).
Proof. split; [reflexivity|vm_compute; by eexists]. Qed.

(** Moving a file onto itself removes it. *)
Example mv_same : let r := Mv (S_ "/a/f") (S_ "/a/f") sample_disk in r.1 = Ok false ∧ files r.2 !! [S_ "a"; S_ "f"] = None.
Proof. vm_compute. done. Qed.

(** [Mkdir] of the empty path reads beyond it; of a file it answers true. *)
Example mkdir_empty : (Mkdir [] sample_disk).1 = Err UndefinedBehaviour.
Proof. vm_compute. done. Qed.
Example mkdir_file : result (Mkdir (S_ "/a/f") sample_disk) = result (Ok true, sample_disk).
Proof. vm_compute. done. Qed.

(** Opening a file for writing makes its directories. *)
Example open_makes : (OpenForWrite (S_ "/x/y/z") empty_disk).1 = Ok true ∧
  (OpenForWrite (S_ "/a/f/z") sample_disk).1 = Ok false.
Proof. vm_compute. done. Qed.

Example atoi_values : atoi (S_ " -12x") = -12 ∧ atoi (S_ "4294967297") = 1 ∧ atoi (S_ "x") = 0.
Proof. vm_compute. done. Qed.

(** ** Witnesses *)

Lemma Rm_exact_witness : ∃ f', Rm (join (S_ "/") [S_ "a"]) sample_disk = (Ok true, f') ∧ disk_view f' [S_ "a"] = None.
Proof.
  destruct (Rm_exact (S_ "/") disk_view sample_disk [S_ "a"]) as (b & f' & Hr & _ & Hb & _).
  - apply Forall_singleton, (bool_decide_unpack _). vm_compute. exact I.
  - apply (direct_here (S_ "/") disk_view _ _ DIR). vm_compute. reflexivity.
  - assert (b = true) as ->.
    { assert (Ok b = Ok true) as [= ->]; [|done]. change (Ok b) with (Ok b, f').1. rewrite <- Hr. vm_compute. done. }
    exists f'. split; [exact Hr|]. destruct (proj1 Hb eq_refl) as [H|H]; [exact H|].
    exfalso. revert H. vm_compute. discriminate.
Defined.

Lemma Mkdir_exact_witness : ∃ b f', Mkdir (S_ "/c/d") sample_disk = (Ok b, f') ∧
  made (steps (S_ "/c/d")) sample_disk b f'.
Proof.
  destruct (Mkdir_exact (S_ "/c/d") sample_disk) as (b & f' & Hr & Hm); [discriminate|]. exists b, f'.
  split; [exact Hr|]. assert (sys_lstat (S_ "/c/d") sample_disk = None) as Hl by (vm_compute; reflexivity).
  by rewrite Hl in Hm.
Defined.

End FileSys.
