(* ===== verification/Address.v ===== *)
(** * Network addresses (net/address.cc)

    [Module Address]: the four kinds of address, their text, the network prefixes, the
    order, and looking addresses up. A [sockaddr] is a record of its fields at the width
    of the type, in the byte order of the network where C has it so; [host] is the byte
    order of the host. [getaddrinfo], [getifaddrs] and [inet_pton] are arguments.

    Theorems: the prefixes of IPv4 ([ipv4_prefix]) and IPv6 ([ipv6_prefix]) addresses
    are what they mean, but for the network of an IPv6 address; the order is a strict
    total order that agrees with equality ([address_order]); IPv6 text is the
    compressed form ([Insert6_exact]); a path goes into a Unix address and comes out
    again ([unix_path]); the target of a lookup ([lookup_target_exact]); and
    [CountBytes] counts bits ([CountBytes_exact]). *)

From Stdlib Require Import Ascii String.
From stdpp Require Import pretty.
From S2P Require Import Prelude Endian StringUtil.
Import Endian StringUtil.

Module Address.

Local Open Scope Z_scope.

Definition AF_UNSPEC : Z := 0.
Definition AF_UNIX : Z := 1.
Definition AF_INET : Z := 2.
Definition AF_INET6 : Z := 10.

Record sockaddr_in := Sockaddr_in { sin_family : Z; sin_port : Z; s_addr : Z; sin_zero : list Z }.
Record sockaddr_in6 := Sockaddr_in6
  { sin6_family : Z; sin6_port : Z; sin6_flowinfo : Z; s6_addr : list Z; sin6_scope_id : Z }.
Record sockaddr_un := Sockaddr_un { sun_family : Z; sun_path : list Z }.
Record sockaddr := Sockaddr { sa_family : Z; sa_data : list Z }.

Inductive Address :=
  | IPv4Address (addr_ : sockaddr_in)
  | IPv6Address (addr_ : sockaddr_in6)
  | UnixAddress (addr_ : sockaddr_un) (length_ : Z)
  | UnknownAddress (addr_ : sockaddr).

(** ** Templates *)

(** [CreateMask] for a type of [w] bits; [sizeof(T) * 8 - bits] is a [size_t], and the
    shifted [1] and the difference are [int]s. *)
Definition CreateMask (w bits : Z) : res Z :=
  let n := u64(w - bits) in
  if decide (n < 31) then Ok (wrap w (Z.shiftl 1 n - 1)) else Err UndefinedBehaviour.

(** [~x] for a type of [w] bits. *)
Definition bnot (w x : Z) : Z := wrap w (Z.lnot x).

Fixpoint CountBytes_loop (fuel : nat) (value result : Z) : option Z :=
  match fuel with
  | O => None
  | S fuel => if decide (value = 0) then Some result
              else CountBytes_loop fuel (Z.land value (value - 1)) (result + 1)
  end.

(** A 32-bit value: 32 turns and the last test. *)
Definition CountBytes (value : Z) : option Z := CountBytes_loop 33 value 0.

Section host.
Context (host : endian).

Definition swap (n : nat) (v : Z) : Z := ByteswapOnLittleEndian host n v.

(** ** IPv4 *)

Definition IPv4Address_of (address port : Z) : sockaddr_in :=
  Sockaddr_in AF_INET (swap 2 port) (swap 4 address) (replicate 8 0).

Definition IPv4_Create (inet_pton : str → option Z) (address : str) (port : Z) : option sockaddr_in :=
  let rt := IPv4Address_of 0 0 in
  match inet_pton address with
  | None => None
  | Some a => Some (Sockaddr_in (sin_family rt) (swap 2 port) a (sin_zero rt))
  end.

Definition dec (z : Z) : str := S_ (pretty (Z.to_N z)).

Definition IPv4_Insert (a : sockaddr_in) : str :=
  let addr := swap 4 (s_addr a) in
  dec (Z.land (Z.shiftr addr 24) 255) ++ S_ "." ++ dec (Z.land (Z.shiftr addr 16) 255) ++ S_ "." ++
  dec (Z.land (Z.shiftr addr 8) 255) ++ S_ "." ++ dec (Z.land addr 255) ++
  S_ ":" ++ dec (swap 2 (sin_port a)).

Definition set_s_addr (v : Z) (a : sockaddr_in) : sockaddr_in :=
  Sockaddr_in (sin_family a) (sin_port a) v (sin_zero a).

Definition IPv4_BroadcastAddress (a : sockaddr_in) (prefix_len : Z) : res (option sockaddr_in) :=
  if decide (32 < prefix_len) then Ok None
  else
    mask ← CreateMask 32 prefix_len;
    mret (Some (set_s_addr (Z.lor (s_addr a) (swap 4 mask)) a)).

Definition IPv4_NetworkAddress (a : sockaddr_in) (prefix_len : Z) : res (option sockaddr_in) :=
  if decide (32 < prefix_len) then Ok None
  else
    mask ← CreateMask 32 prefix_len;
    mret (Some (set_s_addr (Z.land (s_addr a) (swap 4 (bnot 32 mask))) a)).

Definition IPv4_SubnetMask (prefix_len : Z) : res sockaddr_in :=
  mask ← CreateMask 32 prefix_len;
  mret (Sockaddr_in AF_INET 0 (bnot 32 (swap 4 mask)) (replicate 8 0)).

Definition IPv4_GetPort (a : sockaddr_in) : Z := swap 2 (sin_port a).
Definition IPv4_SetPort (v : Z) (a : sockaddr_in) : sockaddr_in :=
  Sockaddr_in (sin_family a) (swap 2 v) (s_addr a) (sin_zero a).

(** ** IPv6 *)

Definition IPv6Address_new : sockaddr_in6 := Sockaddr_in6 AF_INET6 0 0 (replicate 16 0) 0.

Definition IPv6Address_of (address : list Z) (port : Z) : sockaddr_in6 :=
  Sockaddr_in6 AF_INET6 (swap 2 port) 0 address 0.

Definition IPv6_Create (inet_pton : str → option (list Z)) (address : str) (port : Z)
    : option sockaddr_in6 :=
  match inet_pton address with
  | None => None
  | Some a => Some (Sockaddr_in6 AF_INET6 (swap 2 port) 0 a 0)
  end.

(** The address as an array of [uint16_t]. *)
Fixpoint words (bs : list Z) : list Z :=
  match bs with
  | b0 :: b1 :: bs => of_mem host [b0; b1] :: words bs
  | _ => []
  end.

(** A number in hexadecimal, as [std::hex] prints it. *)
Definition xdigit (z : Z) : ascii := default "0"%char (S_ "0123456789abcdef" !! Z.to_nat z).
Definition hex (z : Z) : str :=
  let d := λ k, xdigit (Z.land (Z.shiftr z k) 15) in
  if decide (z < 16) then [d 0]
  else if decide (z < 256) then [d 4; d 0]
  else if decide (z < 4096) then [d 8; d 4; d 0]
  else [d 12; d 8; d 4; d 0].

(** The loop over the words: [first] stands for [i = 0], [prev] for [addr[i - 1]]. *)
Fixpoint Insert_loop (first : bool) (prev : Z) (used_zeros : bool) (addr : list Z) (os : str)
    : bool * str :=
  match addr with
  | [] => (used_zeros, os)
  | g :: addr =>
      if bool_decide (g = 0) && negb used_zeros then Insert_loop false g used_zeros addr os
      else
        let colons := negb first && bool_decide (prev = 0) && negb used_zeros in
        let os := if colons then os ++ S_ ":" else os in
        let os := if first then os else os ++ S_ ":" in
        Insert_loop false g (used_zeros || colons) addr (os ++ hex (swap 2 g))
  end.

Definition IPv6_Insert (a : sockaddr_in6) : str :=
  let addr := words (s6_addr a) in
  let '(used_zeros, os) := Insert_loop true 0 false addr (S_ "[") in
  let os := if negb used_zeros && bool_decide (addr !! 7%nat = Some 0) then os ++ S_ "::" else os in
  os ++ S_ "]:" ++ dec (swap 2 (sin6_port a)).

Definition set_s6_addr (v : list Z) (a : sockaddr_in6) : sockaddr_in6 :=
  Sockaddr_in6 (sin6_family a) (sin6_port a) (sin6_flowinfo a) v (sin6_scope_id a).

(** [for (int i = from; i < to; ++i) l[i] = v]. *)
Definition fill (from to : nat) (v : Z) (l : list Z) : list Z :=
  foldl (λ l i, <[i := v]> l) l (seq from (to - from)).

(** An update of [s6_addr[i]]. *)
Definition update_byte (i : nat) (f : Z → Z) (l : list Z) : res (list Z) :=
  match l !! i with
  | None => Err UndefinedBehaviour
  | Some b => Ok (<[i := f b]> l)
  end.

Definition IPv6_BroadcastAddress (a : sockaddr_in6) (prefix_len : Z) : res sockaddr_in6 :=
  let k := Z.to_nat (prefix_len / 8) in
  mask ← CreateMask 8 (prefix_len `mod` 8);
  l ← update_byte k (λ b, Z.lor b mask) (s6_addr a);
  mret (set_s6_addr (fill (k + 1) 16 255 l) a).

Definition IPv6_NetworkAddress (a : sockaddr_in6) (prefix_len : Z) : res sockaddr_in6 :=
  let k := Z.to_nat (prefix_len / 8) in
  mask ← CreateMask 8 (prefix_len `mod` 8);
  l ← update_byte k (λ b, Z.land b mask) (s6_addr a);
  mret (set_s6_addr (fill (k + 1) 16 0 l) a).

Definition IPv6_SubnetMask (prefix_len : Z) : res sockaddr_in6 :=
  let k := Z.to_nat (prefix_len / 8) in
  mask ← CreateMask 8 (prefix_len `mod` 8);
  l ← update_byte k (λ _, bnot 8 mask) (replicate 16 0);
  mret (Sockaddr_in6 AF_INET6 0 0 (fill 0 k 255 l) 0).

Definition IPv6_GetPort (a : sockaddr_in6) : Z := swap 2 (sin6_port a).
Definition IPv6_SetPort (v : Z) (a : sockaddr_in6) : sockaddr_in6 :=
  Sockaddr_in6 (sin6_family a) (swap 2 v) (sin6_flowinfo a) (s6_addr a) (sin6_scope_id a).

(** ** Unix and unknown addresses *)

Definition sizeof_sun_path : nat := 108.
Definition MAX_PATH_LEN : Z := Z.of_nat sizeof_sun_path - 1.

Definition UnixAddress_new : Address :=
  UnixAddress (Sockaddr_un AF_UNIX (replicate sizeof_sun_path 0)) (2 + MAX_PATH_LEN).

(** The bytes of a string. *)
Definition str_bytes (s : str) : list Z := uchar <$> s.
Definition bytes_str (bs : list Z) : str := char_of <$> bs.

Definition UnixAddress_of (path : str) : res Address :=
  let length_ := u32(Z.of_nat (length path) + 1) in
  let length_ := match path with c :: _ => if decide (uchar c = 0) then u32(length_ - 1) else length_
                               | [] => length_ end in
  if decide (Z.of_nat sizeof_sun_path < length_) then Err LogicError
  else Ok (UnixAddress
    (Sockaddr_un AF_UNIX (splice 0 (take (Z.to_nat length_) (str_bytes path ++ [0])) (replicate sizeof_sun_path 0)))
    (length_ + 2)).

Definition SetAddrLen (v : Z) (a : Address) : Address :=
  match a with UnixAddress addr _ => UnixAddress addr v | a => a end.

(** The C string in an array: to the first zero, which has to be in the array. *)
Fixpoint c_string (bs : list Z) : res (list Z) :=
  match bs with
  | [] => Err UndefinedBehaviour
  | b :: bs => if decide (b = 0) then Ok [] else r ← c_string bs; mret (b :: r)
  end.

Definition GetPath (addr : sockaddr_un) (length_ : Z) : res str :=
  if bool_decide (2 < length_) && bool_decide (sun_path addr !! 0%nat = Some 0) then
    let n := Z.to_nat (length_ - 2 - 1) in
    if decide (length (sun_path addr) < n + 1)%nat then Err UndefinedBehaviour
    else Ok (S_ "\0" ++ bytes_str (take n (drop 1 (sun_path addr))))
  else r ← c_string (sun_path addr); mret (bytes_str r).

Definition UnknownAddress_of (family : Z) : sockaddr := Sockaddr family (replicate 14 0).

(** [Insert] of every class. *)
Definition Insert (a : Address) : res str :=
  match a with
  | IPv4Address a => Ok (IPv4_Insert a)
  | IPv6Address a => Ok (IPv6_Insert a)
  | UnixAddress a l => GetPath a l
  | UnknownAddress a => Ok (S_ "[UnknownAddress family=" ++ dec (sa_family a) ++ S_ "]")
  end.

(** ** Comparing *)

(** The bytes of the object behind [GetAddrGetFamily]. *)
Definition object (a : Address) : list Z :=
  match a with
  | IPv4Address a => mem_bytes host 2 (sin_family a) ++ mem_bytes host 2 (sin_port a) ++
      mem_bytes host 4 (s_addr a) ++ sin_zero a
  | IPv6Address a => mem_bytes host 2 (sin6_family a) ++ mem_bytes host 2 (sin6_port a) ++
      mem_bytes host 4 (sin6_flowinfo a) ++ s6_addr a ++ mem_bytes host 4 (sin6_scope_id a)
  | UnixAddress a _ => mem_bytes host 2 (sun_family a) ++ sun_path a
  | UnknownAddress a => mem_bytes host 2 (sa_family a) ++ sa_data a
  end.

Definition GetAddrLen (a : Address) : Z :=
  match a with
  | IPv4Address _ => 16
  | IPv6Address _ => 28
  | UnixAddress _ length_ => length_
  | UnknownAddress _ => 16
  end.

Definition GetFamily (a : Address) : Z :=
  match a with
  | IPv4Address a => sin_family a
  | IPv6Address a => sin6_family a
  | UnixAddress a _ => sun_family a
  | UnknownAddress a => sa_family a
  end.

(** [memcmp] of [n] bytes: the sign of the first difference. *)
Fixpoint memcmp (n : nat) (x y : list Z) : comparison :=
  match n, x, y with
  | S n, a :: x, b :: y => match Z.compare a b with Eq => memcmp n x y | c => c end
  | _, _, _ => Eq
  end.

Definition address_lt (a b : Address) : bool :=
  let minlen := Z.to_nat (Z.min (GetAddrLen a) (GetAddrLen b)) in
  match memcmp minlen (object a) (object b) with
  | Lt => true
  | Gt => false
  | Eq => bool_decide (GetAddrLen a < GetAddrLen b)
  end.

Definition address_eq (a b : Address) : bool :=
  bool_decide (GetAddrLen a = GetAddrLen b) &&
  bool_decide (memcmp (Z.to_nat (GetAddrLen a)) (object a) (object b) = Eq).

Definition address_ne (a b : Address) : bool := negb (address_eq a b).

(** ** Making addresses *)

(** The fields of an object, from its bytes. *)
Definition sockaddr_in_of (bs : list Z) : sockaddr_in :=
  Sockaddr_in (of_mem host (take 2 bs)) (of_mem host (take 2 (drop 2 bs)))
    (of_mem host (take 4 (drop 4 bs))) (take 8 (drop 8 bs)).

Definition sockaddr_in6_of (bs : list Z) : sockaddr_in6 :=
  Sockaddr_in6 (of_mem host (take 2 bs)) (of_mem host (take 2 (drop 2 bs)))
    (of_mem host (take 4 (drop 4 bs))) (take 16 (drop 8 bs)) (of_mem host (take 4 (drop 24 bs))).

Definition sockaddr_of (bs : list Z) : sockaddr :=
  Sockaddr (of_mem host (take 2 bs)) (take 14 (drop 2 bs)).

(** [Address::Create]; [None] is the null pointer. *)
Definition Create (addr : option (list Z)) : option Address :=
  match addr with
  | None => None
  | Some bs =>
      let family := of_mem host (take 2 bs) in
      Some (if decide (family = AF_INET) then IPv4Address (sockaddr_in_of bs)
            else if decide (family = AF_INET6) then IPv6Address (sockaddr_in6_of bs)
            else UnknownAddress (sockaddr_of bs))
  end.

(** [dynamic_pointer_cast<IPAddress>]. *)
Definition is_IPAddress (a : Address) : bool :=
  match a with IPv4Address _ | IPv6Address _ => true | _ => false end.

Definition SetPort (v : Z) (a : Address) : Address :=
  match a with
  | IPv4Address a => IPv4Address (IPv4_SetPort v a)
  | IPv6Address a => IPv6Address (IPv6_SetPort v a)
  | a => a
  end.

(** [getaddrinfo(node, service, hints)]; the hints are the flags, the family, the
    type and the protocol; [None] is an error. *)
Context (getaddrinfo : str → option str → Z → Z → Z → Z → option (list (list Z))).

Definition AI_NUMERICHOST : Z := 4.

Definition IPAddress_Create (address : str) (port : Z) : option Address :=
  match getaddrinfo address None AI_NUMERICHOST AF_UNSPEC 0 0 with
  | None | Some [] => None
  | Some (bs :: _) =>
      match Create (Some bs) with
      | Some a => if is_IPAddress a then Some (SetPort port a) else None
      | None => None
      end
  end.

(** The offset of a character from [pos] on. *)
Fixpoint memchr (s : str) (x : ascii) : option nat :=
  match s with
  | [] => None
  | c :: s => if decide (c = x) then Some O else S <$> memchr s x
  end.

(** What [const char *] shows of a string. *)
Fixpoint c_str (s : str) : str :=
  match s with
  | [] => []
  | c :: s => if decide (uchar c = 0) then [] else c :: c_str s
  end.

(** The node and the service of [Lookup]; a service is the rest of the host from some
    position. *)
Definition bracketed (host : str) : str * option str :=
  match host with
  | "["%char :: rest =>
      match memchr rest "]"%char with
      | None => ([], None)
      | Some n =>
          (substr host 1 n,
           if decide (rest !! S n = Some ":"%char) then Some (drop (S (S n)) rest) else None)
      end
  | _ => ([], None)
  end.

Definition unbracketed (host : str) : str * option str :=
  match memchr host ":"%char with
  | None => ([], None)
  | Some n =>
      let service := drop n host in
      match memchr (drop 1 service) ":"%char with
      | None => (substr host 0 n, Some (drop 1 service))
      | Some _ => ([], Some service)
      end
  end.

Definition lookup_target (host : str) : str * option str :=
  let '(node, service) := bracketed host in
  let '(node, service) := if decide (node = []) then unbracketed host else (node, service) in
  (if decide (node = []) then host else node, service).

Definition Lookup (result : list (option Address)) (host : str) (family type protocol : Z)
    : bool * list (option Address) :=
  let '(node, service) := lookup_target host in
  match getaddrinfo (c_str node) (c_str <$> service) 0 family type protocol with
  | None => (false, result)
  | Some results =>
      let result := result ++ ((λ bs, Create (Some bs)) <$> results) in
      (bool_decide (result ≠ []), result)
  end.

Definition LookupAny (host : str) (family type protocol : Z) : option Address :=
  match Lookup [] host family type protocol with
  | (true, a :: _) => a
  | _ => None
  end.

Definition first_IPAddress (result : list (option Address)) : option Address :=
  head (filter (λ a, is_IPAddress a = true) (omap id result)).

Definition LookupAnyIPAddress (host : str) (family type protocol : Z) : option Address :=
  match Lookup [] host family type protocol with
  | (true, result) => first_IPAddress result
  | _ => None
  end.

(** ** Interfaces *)

(** An entry of [getifaddrs]; the addresses may be null. *)
Record ifaddrs := Ifaddrs { ifa_name : str; ifa_addr : option (list Z); ifa_netmask : option (list Z) }.

(** The prefix length in a netmask. *)
Definition netmask_in (m : option (list Z)) : res Z :=
  match m with
  | None => Err UndefinedBehaviour
  | Some bs => match CountBytes (s_addr (sockaddr_in_of bs)) with Some n => Ok n | None => Err OutOfFuel end
  end.

Definition netmask_in6 (m : option (list Z)) : res Z :=
  match m with
  | None => Err UndefinedBehaviour
  | Some bs => foldl (λ n b, n ← n; match CountBytes b with Some k => Ok (n + k) | None => Err OutOfFuel end)
                 (Ok 0) (s6_addr (sockaddr_in6_of bs))
  end.

(** One turn of the loop; the [multimap] is the list of its entries in the order they
    were inserted. *)
Definition add_interface (family : Z) (result : list (str * (Address * Z))) (next : ifaddrs)
    : res (list (str * (Address * Z))) :=
  match ifa_addr next with
  | None => Err UndefinedBehaviour
  | Some bs =>
      let f := of_mem host (take 2 bs) in
      if decide (family ≠ AF_UNSPEC ∧ family ≠ f) then Ok result
      else if decide (f = AF_INET) then
        n ← netmask_in (ifa_netmask next);
        mret (result ++ [(ifa_name next, (IPv4Address (sockaddr_in_of bs), n))])
      else if decide (f = AF_INET6) then
        n ← netmask_in6 (ifa_netmask next);
        mret (result ++ [(ifa_name next, (IPv6Address (sockaddr_in6_of bs), n))])
      else Ok result
  end.

Definition GetInterfaceAddresses_all (getifaddrs : option (list ifaddrs))
    (result : list (str * (Address * Z))) (family : Z) : res (bool * list (str * (Address * Z))) :=
  match getifaddrs with
  | None => Ok (false, result)
  | Some results =>
      r ← foldl (λ r next, r ← r; add_interface family r next) (Ok result) results;
      mret (bool_decide (r ≠ []), r)
  end.

Definition GetInterfaceAddresses (getifaddrs : option (list ifaddrs)) (result : list (Address * Z))
    (iface : str) (family : Z) : res (bool * list (Address * Z)) :=
  if decide (iface = [] ∨ iface = S_ "*") then
    let result := if decide (family = AF_INET ∨ family = AF_UNSPEC)
                  then result ++ [(IPv4Address (IPv4Address_of 0 0), 0)] else result in
    let result := if decide (family = AF_INET6 ∨ family = AF_UNSPEC)
                  then result ++ [(IPv6Address IPv6Address_new, 0)] else result in
    Ok (true, result)
  else
    '(ok, results) ← GetInterfaceAddresses_all getifaddrs [] family;
    if negb ok then mret (false, result)
    else
      let result := result ++ (filter (λ r, r.1 = iface) results).*2 in
      mret (bool_decide (result ≠ []), result).

End host.

(** ** Bits of a swapped integer *)

Lemma of_le_testbit bs k : Forall is_byte bs → 0 ≤ k →
  Z.testbit (of_le bs) k = Z.testbit (default 0 (bs !! Z.to_nat (k / 8))) (k `mod` 8).
Proof.
  unfold is_byte. intros Hb. revert k. induction Hb as [|b bs Hb Hbs IH]; intros k Hk; simpl of_le.
  { by rewrite !Z.bits_0. }
  replace (b + 256 * of_le bs) with (Z.lor b (of_le bs * 2 ^ 8))
    by (rewrite lor_disjoint_add by lia; lia).
  rewrite Z.lor_spec. destruct (decide (k < 8)) as [H8|H8].
  - rewrite Z.mul_pow2_bits_low by lia. rewrite orb_false_r.
    rewrite Z.div_small, Z.mod_small by lia. done.
  - rewrite Z.mul_pow2_bits by lia. rewrite IH by lia.
    replace (Z.testbit b k) with false.
    + replace k with (k - 8 + 1 * 8) at 3 4 by lia. rewrite Z.div_add, Z_mod_plus_full by lia.
      replace (Z.to_nat ((k - 8) / 8 + 1)) with (S (Z.to_nat ((k - 8) / 8))); [done|].
      pose proof (Z.div_pos (k - 8) 8). lia.
    + symmetry. rewrite <- (Z.mod_small b (2 ^ 8)) by lia. apply Z.mod_pow2_bits_high. lia.
Qed.

(** Where bit [k] of a swapped integer comes from. *)
Definition swap_bit (host : endian) (n : nat) (k : Z) : Z :=
  match host with
  | SYLAR_BIG_ENDIAN => k
  | SYLAR_LITTLE_ENDIAN => 8 * (Z.of_nat n - 1 - k / 8) + k `mod` 8
  end.

Lemma swap_testbit host n v k : 0 ≤ k < 8 * Z.of_nat n →
  Z.testbit (swap host n v) k = Z.testbit v (swap_bit host n k) ∧
  0 ≤ swap_bit host n k < 8 * Z.of_nat n.
Proof.
  intros Hk. destruct host; simpl; [|done].
  pose proof (Z.div_mod k 8). pose proof (Z.mod_pos_bound k 8).
  assert (0 ≤ k / 8 < Z.of_nat n) as Hd by (split; [apply Z.div_pos|apply Z.div_lt_upper_bound]; lia).
  split; [|lia]. unfold byteswap. rewrite of_le_testbit by (apply Forall_rev, le_bytes_byte || lia).
  set (j := 8 * (Z.of_nat n - 1 - k / 8) + k `mod` 8).
  assert (j `mod` 8 = k `mod` 8) as Hm.
  { unfold j. rewrite Z.mul_comm, Z.add_comm, Z_mod_plus_full, Z.mod_mod; lia. }
  assert (Z.to_nat (j / 8) = (n - 1 - Z.to_nat (k / 8))%nat) as Hj.
  { unfold j. rewrite Z.mul_comm, Z.add_comm, Z_div_plus_full, (Z.div_small (k `mod` 8)) by lia. lia. }
  assert (0 ≤ j < 8 * Z.of_nat n) as Hjr by (unfold j; lia).
  replace (Z.testbit v j) with (Z.testbit (of_le (le_bytes n v)) j).
  2: { rewrite of_le_le_bytes. unfold wrap. apply Z.mod_pow2_bits_low. lia. }
  rewrite of_le_testbit by (apply le_bytes_byte || lia). rewrite Hm, Hj.
  rewrite rev_alt. change (rev_append ?l []) with (reverse l).
  do 2 f_equal. rewrite reverse_lookup by (rewrite le_bytes_length; lia).
  rewrite le_bytes_length. f_equal. lia.
Qed.

Lemma swap_range host n v : 0 ≤ v < 2 ^ (8 * Z.of_nat n) → 0 ≤ swap host n v < 2 ^ (8 * Z.of_nat n).
Proof. intros Hv. destruct host; [apply byteswap_range|done]. Qed.

Lemma swap_involutive host n v : 0 ≤ v < 2 ^ (8 * Z.of_nat n) → swap host n (swap host n v) = v.
Proof. intros Hv. destruct host; [by apply byteswap_involutive|done]. Qed.

(** Integers of a width are equal when their bits are. *)
Lemma bits_ext w x y : 0 ≤ x < 2 ^ w → 0 ≤ y < 2 ^ w → 0 ≤ w →
  (∀ k, 0 ≤ k < w → Z.testbit x k = Z.testbit y k) → x = y.
Proof.
  intros Hx Hy Hw H. apply Z.bits_inj'. intros k Hk. destruct (decide (k < w)); [auto with lia|].
  rewrite <- (Z.mod_small x (2 ^ w)), <- (Z.mod_small y (2 ^ w)) by done.
  by rewrite !Z.mod_pow2_bits_high by lia.
Qed.

Lemma land_range w x y : 0 ≤ w → 0 ≤ x < 2 ^ w → 0 ≤ y → 0 ≤ Z.land x y < 2 ^ w.
Proof.
  intros Hw Hx Hy. assert (0 ≤ Z.land x y) by (apply Z.land_nonneg; lia). split; [done|].
  rewrite <- (Z.mod_small x (2 ^ w)) by done. rewrite <- Z.land_ones, <- Z.land_assoc, (Z.land_comm _ y), Z.land_assoc, Z.land_ones by done.
  apply Z.mod_pos_bound. lia.
Qed.

Lemma lor_range w x y : 0 ≤ w → 0 ≤ x < 2 ^ w → 0 ≤ y < 2 ^ w → 0 ≤ Z.lor x y < 2 ^ w.
Proof.
  intros Hw Hx Hy. assert (0 ≤ Z.lor x y) by (apply Z.lor_nonneg; lia). split; [done|].
  assert (Z.lor x y = Z.lor x y `mod` 2 ^ w) as ->; [|apply Z.mod_pos_bound; lia].
  apply Z.bits_inj'. intros k Hk. destruct (decide (k < w)); [by rewrite Z.mod_pow2_bits_low|].
  rewrite Z.mod_pow2_bits_high, Z.lor_spec by lia.
  rewrite <- (Z.mod_small x (2 ^ w)), <- (Z.mod_small y (2 ^ w)) by done.
  by rewrite !Z.mod_pow2_bits_high by lia.
Qed.

Lemma bnot_range w x : 0 ≤ w → 0 ≤ bnot w x < 2 ^ w.
Proof. apply wrap_range. Qed.

Lemma bnot_testbit w x k : 0 ≤ k < w → Z.testbit (bnot w x) k = negb (Z.testbit x k).
Proof. intros Hk. unfold bnot, wrap. rewrite Z.mod_pow2_bits_low by lia. apply Z.lnot_spec. lia. Qed.

(** Swapping commutes with the operations on bits. *)
Section swap.
Context (host : endian) (n : nat).
Let w := 8 * Z.of_nat n.

Lemma swap_lor x y : 0 ≤ x < 2 ^ w → 0 ≤ y < 2 ^ w →
  swap host n (Z.lor x y) = Z.lor (swap host n x) (swap host n y).
Proof.
  intros Hx Hy. apply (bits_ext w); [apply swap_range, lor_range; [lia|exact Hx|exact Hy]|apply lor_range; [lia|by apply swap_range..]|lia|].
  intros k Hk. rewrite Z.lor_spec, !(proj1 (swap_testbit host n _ k Hk)). apply Z.lor_spec.
Qed.

Lemma swap_land x y : 0 ≤ x < 2 ^ w → 0 ≤ y < 2 ^ w →
  swap host n (Z.land x y) = Z.land (swap host n x) (swap host n y).
Proof.
  intros Hx Hy. apply (bits_ext w).
  - apply swap_range, land_range; [lia|exact Hx|apply Hy].
  - apply land_range; [lia|by apply swap_range|]. by apply (swap_range host n y).
  - lia.
  - intros k Hk. rewrite Z.land_spec, !(proj1 (swap_testbit host n _ k Hk)). apply Z.land_spec.
Qed.

Lemma swap_bnot x : 0 ≤ x < 2 ^ w → swap host n (bnot w x) = bnot w (swap host n x).
Proof.
  intros Hx. apply (bits_ext w); [apply swap_range, bnot_range; lia|apply bnot_range; unfold w; lia|lia|].
  intros k Hk. pose proof (swap_testbit host n (bnot w x) k Hk) as [-> Hr].
  rewrite !bnot_testbit by done. by rewrite (proj1 (swap_testbit host n x k Hk)).
Qed.
End swap.

Lemma CreateMask_ok w bits : 0 ≤ bits ≤ w → w ≤ 64 → w - bits < 31 →
  CreateMask w bits = Ok (2 ^ (w - bits) - 1).
Proof.
  intros Hb Hw Hn. unfold CreateMask. rewrite (wrap_small 64) by lia.
  rewrite decide_True by done. f_equal. rewrite Z.shiftl_1_l. apply wrap_small.
  assert (0 < 2 ^ (w - bits) ≤ 2 ^ w); [|lia].
  split; [apply Z.pow_pos_nonneg; lia|apply Z.pow_le_mono_r; lia].
Qed.

(** The bits from [n] on, and all below set or clear. *)
Lemma land_high w x n : 0 ≤ n ≤ w → 0 ≤ x < 2 ^ w →
  Z.land x (bnot w (2 ^ n - 1)) = x / 2 ^ n * 2 ^ n.
Proof.
  intros Hn Hx. apply Z.bits_inj'. intros k Hk.
  rewrite <- Z.shiftl_mul_pow2, <- Z.shiftr_div_pow2, Z.land_spec, Z.shiftl_spec by lia.
  assert (2 ^ n - 1 = Z.ones n) as -> by (rewrite Z.ones_equiv; lia).
  destruct (decide (k < n)).
  - rewrite bnot_testbit, Z.ones_spec_low, (Z.testbit_neg_r _ (k - n)) by lia. apply andb_false_r.
  - rewrite Z.shiftr_spec by lia. replace (k - n + n) with k by lia.
    destruct (decide (k < w)).
    + rewrite bnot_testbit, Z.ones_spec_high by lia. apply andb_true_r.
    + rewrite <- (Z.mod_small x (2 ^ w)) by done. by rewrite Z.mod_pow2_bits_high by lia.
Qed.

Lemma lor_low x n : 0 ≤ n → Z.lor x (2 ^ n - 1) = x / 2 ^ n * 2 ^ n + 2 ^ n - 1.
Proof.
  intros Hn. assert (0 < 2 ^ n) by (apply Z.pow_pos_nonneg; lia).
  replace (x / 2 ^ n * 2 ^ n + 2 ^ n - 1) with (2 ^ n - 1 + x / 2 ^ n * 2 ^ n) by lia.
  rewrite <- lor_disjoint_add by lia. apply Z.bits_inj'. intros k Hk.
  rewrite !Z.lor_spec, orb_comm.
  rewrite <- Z.shiftl_mul_pow2, <- Z.shiftr_div_pow2, Z.shiftl_spec by lia.
  assert (2 ^ n - 1 = Z.ones n) as -> by (rewrite Z.ones_equiv; lia).
  destruct (decide (k < n)).
  - by rewrite Z.ones_spec_low by lia.
  - rewrite Z.ones_spec_high, Z.shiftr_spec by lia. do 2 f_equal. lia.
Qed.

Lemma bnot_low w n : 0 ≤ n ≤ w → bnot w (2 ^ n - 1) = 2 ^ w - 2 ^ n.
Proof.
  intros Hn. assert (0 < 2 ^ n ≤ 2 ^ w) by (split; [apply Z.pow_pos_nonneg; lia|apply Z.pow_le_mono_r; lia]).
  unfold bnot. rewrite <- (wrap_small w (2 ^ w - 2 ^ n)) by lia.
  rewrite <- (wrap_add_pow w (Z.lnot _) 1) by lia. f_equal. unfold Z.lnot. lia.
Qed.

(** ** The bytes of an IPv6 address *)

Lemma fill_lookup from to v l i : (i < length l)%nat →
  fill from to v l !! i = if decide (from ≤ i < to)%nat then Some v else l !! i.
Proof.
  unfold fill. intros Hi. remember (to - from)%nat as n eqn:Hn.
  assert (∀ n from l, (i < length l)%nat →
    foldl (λ l j, <[j := v]> l) l (seq from n) !! i =
      if decide (from ≤ i < from + n)%nat then Some v else l !! i) as H.
  { clear. induction n as [|n IH]; intros from l Hi; simpl.
    - rewrite decide_False by lia. done.
    - rewrite IH by by rewrite length_insert. destruct (decide (from = i)) as [->|Hf].
      + rewrite decide_False by lia. rewrite decide_True by lia. by rewrite list_lookup_insert_eq.
      + rewrite list_lookup_insert_ne by done.
        destruct (decide (S from ≤ i < S from + n)%nat), (decide (from ≤ i < from + S n)%nat); done || lia. }
  rewrite H by done. destruct (decide _), (decide _); done || lia.
Qed.

(** Bit [j] of an address, counted from the front. *)
Definition bit (l : list Z) (j : Z) : bool :=
  Z.testbit (default 0 (l !! Z.to_nat (j / 8))) (7 - j `mod` 8).

(** A byte [b] changed at the end of a prefix of [p] bits, and the bytes after it filled. *)
Lemma update_fill_bit l p (f : Z → Z) v j : length l = 16%nat → 0 ≤ p < 128 → 0 ≤ j < 128 →
  ∃ l', update_byte (Z.to_nat (p / 8)) f l = Ok l' ∧ length l' = 16%nat ∧
    bit (fill (Z.to_nat (p / 8) + 1) 16 v l') j =
      if decide (j / 8 < p / 8) then bit l j
      else if decide (j / 8 = p / 8) then
        Z.testbit (f (default 0 (l !! Z.to_nat (p / 8)))) (7 - j `mod` 8)
      else Z.testbit v (7 - j `mod` 8).
Proof.
  intros Hl Hp Hj. set (k := Z.to_nat (p / 8)).
  assert (0 ≤ p / 8 < 16) as Hk by (split; [apply Z.div_pos|apply Z.div_lt_upper_bound]; lia).
  assert (0 ≤ j / 8 < 16) as Hjk by (split; [apply Z.div_pos|apply Z.div_lt_upper_bound]; lia).
  destruct (lookup_lt_is_Some_2 l k) as [b Hb]; [lia|]. unfold update_byte. rewrite Hb.
  eexists. split; [done|]. rewrite length_insert. split; [done|].
  unfold bit. rewrite fill_lookup by (rewrite length_insert; lia). simpl default.
  destruct (decide (j / 8 < p / 8)); [|destruct (decide (j / 8 = p / 8)) as [He|]].
  - rewrite decide_False by lia. by rewrite list_lookup_insert_ne by lia.
  - rewrite decide_False by lia. replace (Z.to_nat (j / 8)) with k by (subst k; by rewrite He).
    by rewrite list_lookup_insert_eq by lia.
  - by rewrite decide_True by lia.
Qed.

(** The bits of the mask of the last byte. *)
Lemma mask_testbit p j : 0 ≤ p → 0 ≤ j →
  Z.testbit (2 ^ (8 - p `mod` 8) - 1) (7 - j `mod` 8) = bool_decide (p `mod` 8 ≤ j `mod` 8).
Proof.
  intros Hp Hj. pose proof (Z.mod_pos_bound p 8). pose proof (Z.mod_pos_bound j 8).
  assert (∀ n, 2 ^ n - 1 = Z.ones n) as -> by (intros; rewrite Z.ones_equiv; lia).
  case_bool_decide; [apply Z.ones_spec_low|apply Z.ones_spec_high]; lia.
Qed.

Lemma byte_bit_high j v : 0 ≤ j → v = 255 → Z.testbit v (7 - j `mod` 8) = true.
Proof. intros Hj ->. pose proof (Z.mod_pos_bound j 8). apply (Z.ones_spec_low 8). lia. Qed.

(** Whether a bit is in a prefix, by its byte and its place in the byte. *)
Lemma prefix_bytes p j : 0 ≤ p → 0 ≤ j →
  (j < p ↔ j / 8 < p / 8 ∨ j / 8 = p / 8 ∧ j `mod` 8 < p `mod` 8).
Proof.
  intros Hp Hj. pose proof (Z.div_mod p 8). pose proof (Z.div_mod j 8).
  pose proof (Z.mod_pos_bound p 8). pose proof (Z.mod_pos_bound j 8). lia.
Qed.

Lemma SubnetMask_bit p j : 0 ≤ p < 128 → 0 ≤ j < 128 → ∃ l',
  update_byte (Z.to_nat (p / 8)) (λ _, bnot 8 (2 ^ (8 - p `mod` 8) - 1)) (replicate 16 0) = Ok l' ∧
  bit (fill 0 (Z.to_nat (p / 8)) 255 l') j = bool_decide (j < p).
Proof.
  intros Hp Hj. pose proof (prefix_bytes p j ltac:(lia) ltac:(lia)) as Hpj.
  assert (0 ≤ p / 8 < 16) as Hk by (split; [apply Z.div_pos|apply Z.div_lt_upper_bound]; lia).
  assert (0 ≤ j / 8 < 16) as Hjk by (split; [apply Z.div_pos|apply Z.div_lt_upper_bound]; lia).
  unfold update_byte. rewrite lookup_replicate_2 by lia. eexists. split; [done|].
  unfold bit. rewrite fill_lookup by (rewrite length_insert, length_replicate; lia).
  destruct (decide (j / 8 < p / 8)).
  { rewrite decide_True, bool_decide_eq_true_2 by lia. apply byte_bit_high; [lia|done]. }
  rewrite decide_False by lia. destruct (decide (j / 8 = p / 8)) as [He|].
  - rewrite He, list_lookup_insert_eq by (rewrite length_replicate; lia). simpl default.
    pose proof (Z.mod_pos_bound j 8). rewrite bnot_testbit, mask_testbit by lia.
    rewrite <- bool_decide_not. apply bool_decide_ext. lia.
  - rewrite list_lookup_insert_ne, lookup_replicate_2, bool_decide_eq_false_2 by lia. apply Z.bits_0.
Qed.

(** C23. For a prefix of 2 to 32 bits the network of an IPv4 address is the address
    with all bits after the prefix clear, the broadcast address has them set, and the
    netmask is the prefix itself; port and family stay. A longer prefix gives no
    network and no broadcast address; the masks of the two shortest prefixes are
    undefined, as [int] is shifted too far. The addresses are the ones the network byte
    order stands for, on hosts of either byte order. *)
Theorem ipv4_prefix host a p : 0 ≤ s_addr a < 2 ^ 32 → 0 ≤ p < 2 ^ 32 →
  let net := swap host 4 (s_addr a) / 2 ^ (32 - p) * 2 ^ (32 - p) in
  (2 ≤ p ≤ 32 → ∃ b n m,
    IPv4_BroadcastAddress host a p = Ok (Some b) ∧ IPv4_NetworkAddress host a p = Ok (Some n) ∧
    IPv4_SubnetMask host p = Ok m ∧
    swap host 4 (s_addr n) = net ∧ swap host 4 (s_addr b) = net + 2 ^ (32 - p) - 1 ∧
    swap host 4 (s_addr m) = 2 ^ 32 - 2 ^ (32 - p) ∧
    sin_port b = sin_port a ∧ sin_port n = sin_port a ∧ sin_family b = sin_family a ∧
    sin_family n = sin_family a) ∧
  (32 < p → IPv4_BroadcastAddress host a p = Ok None ∧ IPv4_NetworkAddress host a p = Ok None) ∧
  (p < 2 → IPv4_BroadcastAddress host a p = Err UndefinedBehaviour ∧
    IPv4_NetworkAddress host a p = Err UndefinedBehaviour ∧ IPv4_SubnetMask host p = Err UndefinedBehaviour).
Proof.
  intros Ha Hp net. unfold IPv4_BroadcastAddress, IPv4_NetworkAddress, IPv4_SubnetMask. split_and!.
  - intros Hr. rewrite !decide_False, CreateMask_ok by lia. simpl.
    assert (0 < 2 ^ (32 - p) ≤ 2 ^ 32)
      by (split; [apply Z.pow_pos_nonneg; lia|apply Z.pow_le_mono_r; lia]).
    do 3 eexists. do 3 (split; [reflexivity|]). simpl. split_and!; [..|done|done|done|done].
    + rewrite (swap_land host 4) by (done || apply swap_range, bnot_range; lia).
      rewrite (swap_involutive host 4) by (apply bnot_range; lia).
      apply land_high; [lia|]. by apply (swap_range host 4).
    + rewrite (swap_lor host 4) by (done || apply (swap_range host 4); lia).
      rewrite (swap_involutive host 4) by lia. apply lor_low. lia.
    + rewrite (swap_bnot host 4) by (apply (swap_range host 4); lia).
      rewrite (swap_involutive host 4) by lia. apply bnot_low. lia.
  - intros Hr. by rewrite !decide_True.
  - intros Hr. assert (CreateMask 32 p = Err UndefinedBehaviour) as Hm.
    { unfold CreateMask. rewrite (wrap_small 64) by lia. by rewrite decide_False by lia. }
    rewrite !decide_False, Hm by lia. done.
Qed.

(** For every prefix below 128 bits the broadcast address of an IPv6 address has the
    bits of the address in the prefix and ones after it, and the netmask is the prefix.
    The network is not: of the byte in which the prefix ends it keeps the bits after the
    prefix and clears the ones in it. A prefix of 128 bits or more accesses the array
    beyond its end. *)
Theorem ipv6_prefix a p : length (s6_addr a) = 16%nat → 0 ≤ p < 2 ^ 32 →
  (p < 128 → ∀ j, 0 ≤ j < 128 → ∃ b n m,
    IPv6_BroadcastAddress a p = Ok b ∧ IPv6_NetworkAddress a p = Ok n ∧ IPv6_SubnetMask p = Ok m ∧
    bit (s6_addr b) j = (if decide (j < p) then bit (s6_addr a) j else true) ∧
    bit (s6_addr m) j = bool_decide (j < p) ∧
    bit (s6_addr n) j = (bool_decide (j / 8 < p / 8) || bool_decide (j / 8 = p / 8) && bool_decide (p ≤ j))
      && bit (s6_addr a) j) ∧
  (128 ≤ p → IPv6_BroadcastAddress a p = Err UndefinedBehaviour ∧
    IPv6_NetworkAddress a p = Err UndefinedBehaviour ∧ IPv6_SubnetMask p = Err UndefinedBehaviour).
Proof.
  intros Hl Hp. pose proof (Z.mod_pos_bound p 8) as Hm.
  unfold IPv6_BroadcastAddress, IPv6_NetworkAddress, IPv6_SubnetMask.
  rewrite CreateMask_ok by lia. cbn [mbind res_bind]. split.
  - intros Hlt j Hj. pose proof (prefix_bytes p j ltac:(lia) ltac:(lia)) as Hpj.
    set (mask := 2 ^ (8 - p `mod` 8) - 1).
    destruct (update_fill_bit (s6_addr a) p (λ b, Z.lor b mask) 255 j) as (l1 & -> & _ & H1); [lia..|].
    destruct (update_fill_bit (s6_addr a) p (λ b, Z.land b mask) 0 j) as (l2 & -> & _ & H2); [lia..|].
    destruct (SubnetMask_bit p j) as (l3 & H3 & H3'); [lia..|]. fold mask in H3. rewrite H3.
    do 3 eexists. do 3 (split; [reflexivity|]). cbn [s6_addr set_s6_addr]. rewrite H1, H2, H3'. clear H1 H2 H3 H3'.
    assert (j / 8 = p / 8 → Z.to_nat (p / 8) = Z.to_nat (j / 8)) as Hk by (by intros ->).
    unfold bit at 2 4. split_and!.
    + destruct (decide (j / 8 < p / 8)); [by rewrite decide_True by lia|].
      destruct (decide (j / 8 = p / 8)); [|rewrite decide_False by lia; apply byte_bit_high; lia].
      rewrite Z.lor_spec. unfold mask. rewrite mask_testbit, Hk by lia.
      case_bool_decide; [rewrite decide_False by lia; apply orb_true_r|].
      rewrite decide_True by lia. apply orb_false_r.
    + done.
    + destruct (decide (j / 8 < p / 8)); [rewrite bool_decide_eq_true_2 by done; done|].
      rewrite (bool_decide_eq_false_2 (j / 8 < p / 8)) by done. simpl.
      destruct (decide (j / 8 = p / 8)); [|rewrite bool_decide_eq_false_2 by done; apply Z.bits_0].
      rewrite (bool_decide_eq_true_2 (j / 8 = p / 8)) by done. simpl.
      rewrite Z.land_spec. unfold mask. rewrite mask_testbit, Hk, andb_comm by lia. f_equal.
      apply bool_decide_ext. lia.
  - intros Hge. assert (16 ≤ p / 8) by (apply Z.div_le_lower_bound; lia).
    unfold update_byte. rewrite !lookup_ge_None_2; [done|simpl; lia|lia].
Qed.

(** ** The order *)

(** The lexicographic order of byte strings; a proper prefix is smaller. *)
Fixpoint lex (x y : list Z) : comparison :=
  match x, y with
  | [], [] => Eq
  | [], _ :: _ => Lt
  | _ :: _, [] => Gt
  | a :: x, b :: y => match Z.compare a b with Eq => lex x y | c => c end
  end.

Lemma lex_eq x y : lex x y = Eq ↔ x = y.
Proof.
  revert y. induction x as [|a x IH]; intros [|b y]; simpl; [done..|].
  destruct (Z.compare_spec a b) as [->|Hc|Hc]; [rewrite IH|..]; split; intros; simplify_eq; lia || done.
Qed.

Lemma lex_sym x y : lex y x = CompOpp (lex x y).
Proof.
  revert y. induction x as [|a x IH]; intros [|b y]; simpl; [done..|].
  rewrite Z.compare_antisym. by destruct (Z.compare a b); simpl.
Qed.

Lemma lex_trans x y z : lex x y = Lt → lex y z = Lt → lex x z = Lt.
Proof.
  revert y z. induction x as [|a x IH]; intros [|b y] [|c z]; simpl; try done.
  destruct (Z.compare_spec a b), (Z.compare_spec b c), (Z.compare_spec a c); try done; try lia.
  intros. by eapply IH.
Qed.

Lemma memcmp_lex n m x y : (n ≤ length x)%nat → (m ≤ length y)%nat →
  lex (take n x) (take m y) = match memcmp (n `min` m) x y with Eq => Nat.compare n m | c => c end.
Proof.
  revert m x y. induction n as [|n IH]; intros [|m] [|a x] [|b y] Hx Hy; simpl in *; try lia; try done.
  destruct (Z.compare a b); [apply IH; lia|done..].
Qed.

(** What is compared: the bytes of the object up to the length of the address. *)
Definition key (host : endian) (a : Address) : list Z := take (Z.to_nat (GetAddrLen a)) (object host a).

Definition wf (host : endian) (a : Address) : Prop :=
  0 ≤ GetAddrLen a ≤ Z.of_nat (length (object host a)).

Lemma key_length host a : wf host a → Z.of_nat (length (key host a)) = GetAddrLen a.
Proof. intros Ha. unfold key. rewrite length_take. unfold wf in Ha. lia. Qed.

Lemma address_lt_lex host a b : wf host a → wf host b →
  address_lt host a b = bool_decide (lex (key host a) (key host b) = Lt).
Proof.
  unfold wf. intros Ha Hb. unfold address_lt, key. rewrite memcmp_lex by lia. rewrite Z2Nat.inj_min.
  destruct (memcmp _ _ _); [|done..]. apply bool_decide_ext. rewrite Nat.compare_lt_iff. lia.
Qed.

Lemma address_eq_key host a b : wf host a → wf host b →
  address_eq host a b = bool_decide (key host a = key host b).
Proof.
  intros Ha Hb. unfold address_eq. rewrite <- bool_decide_and. apply bool_decide_ext.
  split; [intros [Hl Hc]|intros Hk].
  - apply lex_eq. unfold key. unfold wf in *. rewrite memcmp_lex, <- Hl, Nat.min_id, Hc by lia.
    apply Nat.compare_refl.
  - pose proof (f_equal length Hk) as Hl. pose proof (key_length _ _ Ha). pose proof (key_length _ _ Hb).
    assert (GetAddrLen a = GetAddrLen b) as He by lia. split; [done|].
    apply lex_eq in Hk. unfold key in Hk. unfold wf in *. rewrite memcmp_lex, <- He, Nat.min_id in Hk by lia.
    by destruct (memcmp _ _ _).
Qed.

(** The order on addresses, of whatever kinds, is a strict total order that agrees
    with equality: of two addresses exactly one is smaller or they are equal; and equal
    are those whose bytes, up to the length of the address, are the same. *)
Theorem address_order host a b c : wf host a → wf host b → wf host c →
  address_lt host a a = false ∧
  (address_lt host a b = true → address_lt host b c = true → address_lt host a c = true) ∧
  (Nat.b2n (address_lt host a b) + Nat.b2n (address_eq host a b) + Nat.b2n (address_lt host b a) = 1)%nat ∧
  (address_eq host a b = true ↔ key host a = key host b) ∧
  address_ne host a b = negb (address_eq host a b).
Proof.
  intros Ha Hb Hc. unfold address_ne. rewrite !address_lt_lex, !address_eq_key by done. split_and!; [..|done].
  - apply bool_decide_eq_false_2. by rewrite (proj2 (lex_eq _ _)).
  - rewrite !bool_decide_eq_true. apply lex_trans.
  - rewrite (lex_sym (key host a)). pose proof (lex_eq (key host a) (key host b)) as He.
    destruct (lex (key host a) (key host b)).
    + by rewrite (bool_decide_eq_true_2 (key host a = key host b)) by by apply He.
    + rewrite (bool_decide_eq_false_2 (key host a = key host b)); [done|]. by intros ?%He.
    + rewrite (bool_decide_eq_false_2 (key host a = key host b)); [done|]. by intros ?%He.
  - apply bool_decide_eq_true.
Qed.

(** ** The text of an IPv6 address *)

(** The eight groups, as numbers. *)
Fixpoint groups (bs : list Z) : list Z :=
  match bs with
  | b0 :: b1 :: bs => b0 * 256 + b1 :: groups bs
  | _ => []
  end.

Definition tail_text (gs : list Z) : str := gs ≫= (λ g, S_ ":" ++ hex g).
Arguments tail_text : simpl never.
#[local] Arguments S_ : simpl never.

Lemma tail_text_cons g gs : tail_text (g :: gs) = S_ ":" ++ hex g ++ tail_text gs.
Proof. reflexivity. Qed.

(** Groups in hexadecimal, with colons between them. *)
Definition join (gs : list Z) : str :=
  match gs with [] => [] | g :: gs => hex g ++ tail_text gs end.

Lemma swap_word host b0 b1 : is_byte b0 → is_byte b1 →
  swap host 2 (of_mem host [b0; b1]) = b0 * 256 + b1 ∧
  (of_mem host [b0; b1] = 0 ↔ b0 * 256 + b1 = 0).
Proof.
  intros H0 H1. assert (Forall is_byte [b0; b1]) as Hb.
  { constructor; [done|]. by constructor. }
  unfold is_byte in *. destruct host; simpl; [|lia]. split; [|lia]. unfold byteswap.
  pose proof (le_bytes_of_le [b0; b1] Hb) as Hl. change (length [b0; b1]) with 2%nat in Hl.
  change (b0 + 256 * (b1 + 256 * 0)) with (of_le [b0; b1]). rewrite Hl. simpl. lia.
Qed.

(** The loop over words whose values are [gs]. *)
Section text.
Context (host : endian).

Definition word_of (g v : Z) : Prop := swap host 2 g = v ∧ (g = 0 ↔ v = 0).

Lemma words_groups bs : Forall is_byte bs → Forall2 word_of (words host bs) (groups bs).
Proof.
  remember (length bs) as n eqn:Hn. revert bs Hn. induction n as [n IH] using lt_wf_ind.
  intros [|b0 [|b1 bs]] -> Hb; simpl; [constructor..|].
  inversion Hb as [|? ? H0 Hb1]; subst. inversion Hb1 as [|? ? H1 Hb2]; subst.
  constructor; [by apply swap_word|]. eapply IH; [|done|done]. simpl. lia.
Qed.

Lemma loop_used ws gs prev os : Forall2 word_of ws gs →
  Insert_loop host false prev true ws os = (true, os ++ tail_text gs).
Proof.
  intros H. revert prev os. induction H as [|g v ws gs [Hv _] _ IH]; intros prev os; simpl.
  { unfold tail_text. simpl. by rewrite app_nil_r. }
  rewrite !andb_false_r. simpl. rewrite IH, Hv, tail_text_cons. rewrite <- !(assoc_L (++)). done.
Qed.

Lemma loop_nonzero ws gs rest prev os : Forall2 word_of ws gs → Forall (λ v, v ≠ 0) gs → prev ≠ 0 →
  ∃ prev', prev' ≠ 0 ∧ Insert_loop host false prev false (ws ++ rest) os =
    Insert_loop host false prev' false rest (os ++ tail_text gs).
Proof.
  intros H. revert prev os. induction H as [|g v ws gs [Hv H0] _ IH]; intros prev os Hz Hp; simpl.
  { exists prev. by rewrite app_nil_r. }
  inversion Hz; subst. assert (g ≠ 0) by tauto.
  rewrite (bool_decide_eq_false_2 (g = 0)), (bool_decide_eq_false_2 (prev = 0)) by done. simpl.
  destruct (IH g ((os ++ S_ ":") ++ hex (swap host 2 g))) as (p' & Hp' & Heq); [done..|].
  exists p'. split; [done|]. rewrite Heq. rewrite tail_text_cons.
  by rewrite <- !(assoc_L (++)).
Qed.

(** From the start, over groups none of which is zero. *)
Lemma loop_start ws gs rest os : Forall2 word_of ws gs → Forall (λ v, v ≠ 0) gs →
  gs = [] ∨ ∃ prev', prev' ≠ 0 ∧ Insert_loop host true 0 false (ws ++ rest) os =
    Insert_loop host false prev' false rest (os ++ join gs).
Proof.
  intros [|g v ws' gs' [Hv H0] H] Hz; [by left|right]. inversion Hz; subst. assert (g ≠ 0) by tauto.
  simpl. rewrite (bool_decide_eq_false_2 (g = 0)) by done. simpl.
  destruct (loop_nonzero ws' gs' rest g (os ++ hex (swap host 2 g))) as (p' & Hp' & ->); [done..|].
  exists p'. by rewrite <- (assoc_L (++)).
Qed.

Lemma loop_zeros n rest first prev os :
  Insert_loop host first prev false (replicate (S n) 0 ++ rest) os =
    Insert_loop host false 0 false rest os.
Proof. revert first prev. induction n as [|n IH]; intros first prev; [done|]. apply (IH false 0). Qed.

(** After the zeros. *)
Lemma loop_after ws gs os : Forall2 word_of ws gs → head gs ≠ Some 0 →
  Insert_loop host false 0 false ws os =
    match gs with [] => (false, os) | _ => (true, os ++ S_ "::" ++ join gs) end.
Proof.
  intros [|g v ws' gs' [Hv H0] H] Hh; [done|]. simpl in Hh. assert (g ≠ 0) by (intros ?%H0; congruence).
  simpl. rewrite (bool_decide_eq_false_2 (g = 0)) by done. simpl. rewrite (loop_used _ _ _ _ H), Hv.
  by rewrite <- !(assoc_L (++)).
Qed.
End text.

Lemma words_zero host n ws : Forall2 (word_of host) ws (replicate n 0) → ws = replicate n 0.
Proof.
  revert ws. induction n as [|n IH]; intros ws H; simpl in *; [by apply Forall2_nil_inv_r in H|].
  apply Forall2_cons_inv_r in H as (w & ws' & [_ Hw] & H & ->). f_equal; [by apply Hw|by apply IH].
Qed.

(** An IPv6 address is printed with its groups in hexadecimal, and the first run of
    zero groups, wherever it is and however long, as two colons; then the port. *)
Theorem Insert6_exact host a : length (s6_addr a) = 16%nat → Forall is_byte (s6_addr a) →
  let gs := groups (s6_addr a) in
  let text := λ s, S_ "[" ++ s ++ S_ "]:" ++ dec (IPv6_GetPort host a) in
  length gs = 8%nat ∧
  (Forall (λ g, g ≠ 0) gs → IPv6_Insert host a = text (join gs)) ∧
  (∀ l n r, gs = l ++ replicate (S n) 0 ++ r → Forall (λ g, g ≠ 0) l → head r ≠ Some 0 →
    IPv6_Insert host a = text (join l ++ S_ "::" ++ join r)).
Proof.
  intros Hl Hb gs text. pose proof (words_groups host _ Hb) as Hw. fold gs in Hw.
  assert (length gs = 8%nat) as Hlen.
  { unfold gs. clear -Hl. destruct (s6_addr a) as [|? l]; [done|].
    do 15 (destruct l as [|? l]; [done|]). by destruct l. }
  unfold IPv6_Insert. set (ws := words host (s6_addr a)) in *. split_and!; [done|..].
  - intros Hz. destruct (loop_start host ws gs [] (S_ "[") Hw Hz) as [He|(p' & Hp' & Heq)].
    { by rewrite He in Hlen. }
    rewrite app_nil_r in Heq. rewrite Heq. cbn [Insert_loop].
    rewrite bool_decide_eq_false_2. { cbn [andb negb]. unfold text. by rewrite <- !(assoc_L (++)). }
    intros H7. destruct (Forall2_lookup_l _ _ _ _ _ Hw H7) as (v & Hv & [_ Hz0]).
    rewrite Forall_lookup in Hz. apply (Hz _ _ Hv). by apply Hz0.
  - intros l n r Hgs Hz Hr. rewrite Hgs in Hw.
    apply Forall2_app_inv_r in Hw as (w1 & w2 & Hw1 & Hw2 & Hws).
    apply Forall2_app_inv_r in Hw2 as (w3 & w4 & Hw3 & Hw4 & ->).
    apply words_zero in Hw3 as ->. rewrite Hws in *.
    assert (Insert_loop host true 0 false (w1 ++ replicate (S n) 0 ++ w4) (S_ "[") =
      Insert_loop host false 0 false w4 (S_ "[" ++ join l)) as Heq.
    { destruct (loop_start host w1 l (replicate (S n) 0 ++ w4) (S_ "[") Hw1 Hz) as [->|(p' & _ & ->)].
      - apply Forall2_nil_inv_r in Hw1 as ->. by rewrite (app_nil_l _), loop_zeros.
      - apply loop_zeros. }
    rewrite Heq, (loop_after host w4 r _ Hw4 Hr). destruct r as [|g r].
    + apply Forall2_nil_inv_r in Hw4 as ->. rewrite bool_decide_eq_true_2.
      { cbn [andb negb]. unfold text. simpl join. rewrite <- !(assoc_L (++)). done. }
      apply Forall2_length in Hw1. rewrite app_nil_r in *.
      rewrite Hgs, length_app, length_replicate in Hlen.
      rewrite lookup_app_r, lookup_replicate_2 by lia. done.
    + cbn [andb negb]. unfold text. by rewrite <- !(assoc_L (++)).
Qed.

(** ** Paths of Unix addresses *)

Lemma char_of_uchar c : char_of (uchar c) = c.
Proof. all_chars c; reflexivity. Qed.

Lemma bytes_str_bytes s : bytes_str (str_bytes s) = s.
Proof. unfold bytes_str, str_bytes. induction s as [|c s IH]; [done|]. by rewrite !fmap_cons, char_of_uchar, IH. Qed.

Definition NUL : ascii := "000"%char.

Lemma uchar_zero c : uchar c = 0 ↔ c = NUL.
Proof.
  split; [|by intros ->]. intros H. rewrite <- (char_of_uchar c), H. reflexivity.
Qed.

Lemma c_string_path s bs : NUL ∉ s → c_string (str_bytes s ++ 0 :: bs) = Ok (str_bytes s).
Proof.
  induction s as [|c s IH]; intros Hs; [done|]. apply not_elem_of_cons in Hs as [Hc Hs].
  cbn [str_bytes fmap list_fmap app c_string]. rewrite decide_False by (rewrite uchar_zero; congruence).
  unfold str_bytes in IH. by rewrite IH.
Qed.

(** What is in the array after [memcpy] of bytes that fit. *)
Lemma splice_start (bs l : list Z) : splice 0 bs l = bs ++ drop (length bs) l.
Proof. done. Qed.

(** The path of a Unix address is the one it was made of, for a path without zero
    bytes that is not empty and for an abstract one, whose leading zero byte is shown as a backslash and a
    zero. The length is that of the path with its final zero byte, or of the abstract
    name without one, and two; a path that does not fit is refused. *)
Theorem unix_path path : Z.of_nat (length path) < 2 ^ 32 - 1 →
  (NUL ∉ path → path ≠ [] → (length path ≤ 107)%nat → ∃ addr, UnixAddress_of path = Ok (UnixAddress addr (Z.of_nat (length path) + 3)) ∧
    GetPath addr (Z.of_nat (length path) + 3) = Ok path) ∧
  (∀ name, path = NUL :: name → (length name ≤ 107)%nat → ∃ addr,
    UnixAddress_of path = Ok (UnixAddress addr (Z.of_nat (length name) + 3)) ∧
    GetPath addr (Z.of_nat (length name) + 3) = Ok (S_ "\0" ++ name)) ∧
  ((if decide (head path = Some NUL) then 108 else 107) < Z.of_nat (length path) →
    UnixAddress_of path = Err LogicError).
Proof.
  intros Hlen. split_and!.
  - intros Hp Hne Hl. unfold UnixAddress_of. rewrite (wrap_small 32) by lia.
    assert (match path with c :: _ => if decide (uchar c = 0) then u32(Z.of_nat (length path) + 1 - 1)
      else Z.of_nat (length path) + 1 | [] => Z.of_nat (length path) + 1 end = Z.of_nat (length path) + 1) as ->.
    { destruct path as [|c path]; [done|]. apply not_elem_of_cons in Hp as [Hc _].
      by rewrite decide_False by (rewrite uchar_zero; congruence). }
    unfold sizeof_sun_path. rewrite decide_False by lia. eexists. split; [f_equal; f_equal; lia|].
    replace (Z.to_nat (Z.of_nat (length path) + 1)) with (length (str_bytes path ++ [0]))
      by (rewrite length_app; unfold str_bytes; rewrite length_fmap; simpl; lia).
    rewrite firstn_all, splice_start. unfold GetPath. cbn [sun_path].
    rewrite <- (assoc_L (++)). cbn [app]. rewrite c_string_path by done.
    rewrite (bool_decide_eq_true_2 (2 < _)) by lia. cbn [andb].
    destruct path as [|c path]; [done|]. apply not_elem_of_cons in Hp as [Hc _].
    rewrite bool_decide_eq_false_2; [cbn; f_equal; apply (bytes_str_bytes (c :: path))|].
    cbn. intros ?. simplify_eq. by apply Hc, eq_sym, uchar_zero.
  - intros name -> Hl. unfold UnixAddress_of. cbn [length] in *.
    rewrite (wrap_small 32 (Z.of_nat (S (length name)) + 1)) by lia.
    destruct (decide (uchar NUL = 0)) as [_|Hc]; [|by destruct Hc].
    rewrite (wrap_small 32) by lia. unfold sizeof_sun_path.
    rewrite decide_False by lia. eexists. split; [f_equal; f_equal; lia|].
    unfold GetPath. cbn [sun_path]. rewrite (bool_decide_eq_true_2 (2 < _)) by lia.
    set (bs := take _ _). assert (bs = 0 :: str_bytes name) as ->.
    { unfold bs. replace (Z.to_nat _) with (length (str_bytes (NUL :: name)))
        by (unfold str_bytes; rewrite length_fmap; simpl; lia). by rewrite take_app_length. }
    rewrite splice_start. rewrite bool_decide_eq_true_2 by done. cbn [andb].
    replace (Z.to_nat _) with (length (str_bytes name)) by (unfold str_bytes; rewrite length_fmap; lia).
    rewrite decide_False.
    + rewrite <- app_comm_cons. change (drop 1 (0 :: ?x)) with x. by rewrite take_app_length, bytes_str_bytes.
    + rewrite length_app. simpl. lia.
  - intros Hl. unfold UnixAddress_of. rewrite (wrap_small 32 (Z.of_nat (length path) + 1)) by lia.
    unfold sizeof_sun_path.
    destruct path as [|c path]; simpl in Hl; [lia|]. cbn [length] in *.
    destruct (decide (uchar c = 0)) as [Hc|Hc].
    + apply uchar_zero in Hc as ->.
      destruct (decide (Some NUL = Some NUL)) as [_|Hc]; [|by destruct Hc].
      rewrite (wrap_small 32) by lia. by rewrite decide_True by lia.
    + rewrite decide_False in Hl by (intros ?; simplify_eq; by apply Hc). by rewrite decide_True by lia.
Qed.

(** ** The target of a lookup *)

Lemma memchr_cut l x r : x ∉ l → memchr (l ++ x :: r) x = Some (length l).
Proof.
  induction l as [|c l IH]; intros Hl; simpl; [by rewrite decide_True|].
  apply not_elem_of_cons in Hl as [Hc Hl]. by rewrite decide_False, IH by congruence.
Qed.

Lemma memchr_none s x : x ∉ s → memchr s x = None.
Proof.
  induction s as [|c s IH]; intros Hs; simpl; [done|].
  apply not_elem_of_cons in Hs as [Hc Hs]. by rewrite decide_False, IH by congruence.
Qed.

Lemma memchr_some s (x : ascii) : x ∈ s → ∃ k, memchr s x = Some k.
Proof.
  induction s as [|c s IH]; intros Hs; simpl; [by apply not_elem_of_nil in Hs|].
  destruct (decide (c = x)) as [|Hc]; [eauto|]. apply elem_of_cons in Hs as [->|Hs]; [done|].
  destruct (IH Hs) as [k ->]. by eexists.
Qed.

Lemma bracketed_v6 v6 rest : "]"%char ∉ v6 →
  bracketed ("["%char :: v6 ++ "]"%char :: rest) =
    (v6, match rest with c :: s => if decide (c = ":"%char) then Some s else None | [] => None end).
Proof.
  intros H. unfold bracketed. rewrite memchr_cut by done. f_equal.
  - unfold substr. cbn [drop]. by apply take_app_length.
  - replace (S (length v6)) with (length v6 + 1)%nat by lia. rewrite lookup_app_r by lia.
    replace (length v6 + 1 - length v6)%nat with 1%nat by lia.
    replace (S (length v6 + 1)) with (length v6 + 2)%nat by lia. rewrite drop_app_add.
    destruct rest as [|c s]; [done|]. simpl. destruct (decide (c = ":"%char)) as [->|Hc].
    + by rewrite decide_True.
    + by rewrite decide_False by congruence.
Qed.

Lemma bracketed_plain host : head host ≠ Some "["%char → bracketed host = ([], None).
Proof.
  destruct host as [|c host]; [done|]. simpl. intros Hc.
  destruct c as [[] [] [] [] [] [] [] []]; done.
Qed.

(** C22. What [Lookup] asks for: an address in brackets, with the service after a colon
    behind them if there is one; otherwise the parts before and after the only colon; a
    host without a colon by itself. A host with several colons and no brackets, as a bare
    IPv6 address is, is asked for with all that follows its first colon, that colon
    included, as the service. *)
Theorem lookup_target_exact host :
  (∀ v6 rest, host = "["%char :: v6 ++ "]"%char :: rest → "]"%char ∉ v6 → v6 ≠ [] →
    lookup_target host =
      (v6, match rest with c :: s => if decide (c = ":"%char) then Some s else None | [] => None end)) ∧
  (head host ≠ Some "["%char →
    (":"%char ∉ host → lookup_target host = (host, None)) ∧
    (∀ name service, host = name ++ ":"%char :: service → ":"%char ∉ name → name ≠ [] →
      lookup_target host = if decide (":"%char ∈ service) then (host, Some (":"%char :: service))
                           else (name, Some service))).
Proof.
  split.
  - intros v6 rest -> Hv Hn. unfold lookup_target. rewrite bracketed_v6 by done.
    by rewrite !decide_False.
  - intros Hb. unfold lookup_target. rewrite bracketed_plain, decide_True by done. split.
    + intros Hc. unfold unbracketed. rewrite memchr_none by done. by rewrite decide_True.
    + intros name service -> Hn Hne. unfold unbracketed. rewrite memchr_cut, drop_app_length by done.
      change (drop 1 (?c :: ?x)) with x. destruct (decide (":"%char ∈ service)) as [Hs|Hs].
      * destruct (memchr_some _ _ Hs) as [n ->]. by rewrite decide_True.
      * rewrite memchr_none by done. unfold substr. rewrite drop_0, take_app_length. by rewrite decide_False.
Qed.

(** ** Counting bits *)

(** The bits that are set. *)
Fixpoint pos_bits (p : positive) : Z :=
  match p with
  | xH => 1
  | xO p => pos_bits p
  | xI p => 1 + pos_bits p
  end.

Definition popcount (v : Z) : Z := match v with Zpos p => pos_bits p | _ => 0 end.

(** One turn of the loop clears one bit. *)
Lemma clear_lowest p : 0 ≤ Z.land (Zpos p) (Zpos p - 1) < Zpos p ∧
  popcount (Z.land (Zpos p) (Zpos p - 1)) = pos_bits p - 1.
Proof.
  induction p as [p _|p IH|]; [..|done].
  - replace (Zpos p~1 - 1) with (Zpos p~0) by lia.
    assert (Z.land (Zpos p~1) (Zpos p~0) = Zpos p~0) as ->; [|simpl; lia].
    replace (Zpos p~1) with (2 * Zpos p + 1) by lia. replace (Zpos p~0) with (2 * Zpos p) by lia.
    apply Z.bits_inj'. intros k Hk. rewrite Z.land_spec.
    destruct (decide (k = 0)) as [->|]; [rewrite !Z.testbit_even_0; apply andb_false_r|].
    replace k with (Z.succ (k - 1)) by lia.
    rewrite Z.testbit_even_succ, Z.testbit_odd_succ by lia. apply andb_diag.
  - replace (Zpos p~0) with (2 * Zpos p) by lia.
    assert (Z.land (2 * Zpos p) (2 * Zpos p - 1) = 2 * Z.land (Zpos p) (Zpos p - 1)) as ->.
    { apply Z.bits_inj'. intros k Hk. rewrite Z.land_spec.
      destruct (decide (k = 0)) as [->|]; [by rewrite !Z.testbit_even_0|].
      replace k with (Z.succ (k - 1)) by lia. rewrite !Z.testbit_even_succ by lia.
      replace (2 * Zpos p - 1) with (2 * (Zpos p - 1) + 1) by lia.
      rewrite Z.testbit_odd_succ by lia. symmetry. apply Z.land_spec. }
    destruct IH as [Hr Hc]. split; [lia|]. simpl pos_bits. rewrite <- Hc.
    destruct (Z.land (Zpos p) (Zpos p - 1)); [done|done|lia].
Qed.

Lemma popcount_range v n : 0 ≤ v < 2 ^ Z.of_nat n → 0 ≤ popcount v ≤ Z.of_nat n.
Proof.
  revert v. induction n as [|n IH]; intros v Hv; [by replace v with 0 by lia|].
  rewrite Nat2Z.inj_succ, Z.pow_succ_r in Hv by lia.
  destruct v as [|[p|p|]|]; simpl; try lia.
  - specialize (IH (Zpos p)). simpl in IH. lia.
  - specialize (IH (Zpos p)). simpl in IH. lia.
Qed.

(** [CountBytes] of a 32-bit value is the number of its bits that are set: the loop ends. *)
Lemma CountBytes_exact v : 0 ≤ v < 2 ^ 32 → CountBytes v = Some (popcount v).
Proof.
  intros Hv. pose proof (popcount_range v 32 Hv) as Hp.
  assert (∀ fuel v r, 0 ≤ v → popcount v < Z.of_nat fuel →
    CountBytes_loop fuel v r = Some (r + popcount v)) as H.
  { clear. induction fuel as [|fuel IH]; intros v r Hv Hf; [|simpl].
    { destruct v as [|p|p]; simpl in Hf; [lia| |lia]. assert (0 < pos_bits p); [|lia].
      clear. induction p; simpl; lia. }
    destruct (decide (v = 0)) as [->|Hn]; [simpl; f_equal; lia|].
    destruct v as [|p|p]; [done| |lia]. destruct (clear_lowest p) as [Hr Hc].
    simpl in Hf. rewrite IH, Hc by lia. simpl popcount. f_equal. lia. }
  apply (H 33%nat v 0); lia.
Qed.

(** ** Edge cases *)

Definition bytes16 (l : list Z) : sockaddr_in6 :=
  IPv6Address_of SYLAR_LITTLE_ENDIAN (l ++ replicate (16 - length l) 0) 80.

(** The network of 2001:db8:aabb:ccdd::/56 keeps the byte it should clear. *)
Example network6_wrong :
  s6_addr <$> (match IPv6_NetworkAddress (bytes16 [32; 1; 13; 184; 170; 187; 204; 221]) 56 with
    Ok a => Some a | Err _ => None end) =
  Some [32; 1; 13; 184; 170; 187; 204; 221; 0; 0; 0; 0; 0; 0; 0; 0].
Proof. vm_compute. done. Qed.

(** A bare IPv6 address: the service is [::1]. *)
Example lookup_bare_v6 : lookup_target (S_ "::1") = (S_ "::1", Some (S_ "::1")).
Proof. vm_compute. done. Qed.

Example lookup_edges :
  lookup_target (S_ "[]:80") = (S_ "[]", Some (S_ "80")) ∧
  lookup_target (S_ ":80") = (S_ ":80", Some (S_ "80")) ∧
  lookup_target (S_ "[::1") = (S_ "[::1", Some (S_ "::1")).
Proof. vm_compute. done. Qed.

Example insert_text :
  IPv4_Insert SYLAR_LITTLE_ENDIAN (IPv4Address_of SYLAR_LITTLE_ENDIAN 3232235777 8080) = S_ "192.168.1.1:8080" ∧
  IPv6_Insert SYLAR_LITTLE_ENDIAN (bytes16 [254; 128; 0; 0; 0; 1]) = S_ "[fe80::1:0:0:0:0:0]:80" ∧
  IPv6_Insert SYLAR_LITTLE_ENDIAN IPv6Address_new = S_ "[::]:0".
Proof. vm_compute. done. Qed.

(** An empty path is shown as an abstract one. *)
Example unix_empty :
  (match UnixAddress_of [] with Ok a => Insert SYLAR_LITTLE_ENDIAN a | Err e => Err e end) = Ok (S_ "\0").
Proof. vm_compute. done. Qed.

(** An interface without an address is a null pointer. *)
Example interface_without_address family :
  GetInterfaceAddresses_all SYLAR_LITTLE_ENDIAN (Some [Ifaddrs (S_ "tun0") None None]) [] family
    = Err UndefinedBehaviour.
Proof. done. Qed.

(** ** Witnesses *)

Lemma ipv4_prefix_witness : ∃ b n m,
  let a := IPv4Address_of SYLAR_LITTLE_ENDIAN 3232235777 80 in
  IPv4_BroadcastAddress SYLAR_LITTLE_ENDIAN a 24 = Ok (Some b) ∧
  IPv4_NetworkAddress SYLAR_LITTLE_ENDIAN a 24 = Ok (Some n) ∧
  IPv4_SubnetMask SYLAR_LITTLE_ENDIAN 24 = Ok m ∧
  swap SYLAR_LITTLE_ENDIAN 4 (s_addr n) = 3232235776.
Proof.
  destruct (proj1 (ipv4_prefix SYLAR_LITTLE_ENDIAN (IPv4Address_of SYLAR_LITTLE_ENDIAN 3232235777 80) 24
    ltac:(split; by vm_compute) ltac:(lia)) ltac:(lia)) as (b & n & m & Hb & Hn & Hm & Hnet & _).
  exists b, n, m. split_and!; [exact Hb|exact Hn|exact Hm|]. rewrite Hnet. vm_compute. reflexivity.
Defined.

Lemma ipv6_prefix_witness : ∃ b n m,
  IPv6_BroadcastAddress (bytes16 [32; 1; 13; 184]) 33 = Ok b ∧
  IPv6_NetworkAddress (bytes16 [32; 1; 13; 184]) 33 = Ok n ∧ IPv6_SubnetMask 33 = Ok m ∧
  bit (s6_addr b) 40 = true.
Proof.
  destruct (proj1 (ipv6_prefix (bytes16 [32; 1; 13; 184]) 33 eq_refl ltac:(lia)) ltac:(lia) 40 ltac:(lia))
    as (b & n & m & Hb & Hn & Hm & Hbit & _).
  exists b, n, m. split_and!; [exact Hb|exact Hn|exact Hm|]. exact Hbit.
Defined.

Lemma address_order_witness :
  let a := IPv4Address (IPv4Address_of SYLAR_LITTLE_ENDIAN 1 80) in
  let b := IPv4Address (IPv4Address_of SYLAR_LITTLE_ENDIAN 2 80) in
  address_lt SYLAR_LITTLE_ENDIAN a a = false ∧ address_lt SYLAR_LITTLE_ENDIAN a b = true.
Proof.
  intros a b. split; [|vm_compute; reflexivity].
  apply (address_order SYLAR_LITTLE_ENDIAN a b b); split; by vm_compute.
Defined.

Lemma Insert6_exact_witness :
  IPv6_Insert SYLAR_LITTLE_ENDIAN (bytes16 [254; 128]) = S_ "[fe80::]:80".
Proof.
  refine (proj2 (proj2 (Insert6_exact SYLAR_LITTLE_ENDIAN (bytes16 [254; 128]) eq_refl _)) [65152] 6%nat [] _ _ _).
  - vm_compute. repeat constructor; discriminate.
  - reflexivity.
  - repeat constructor; discriminate.
  - discriminate.
Defined.

Lemma unix_path_witness : ∃ addr,
  UnixAddress_of (S_ "/tmp/s") = Ok (UnixAddress addr 9) ∧ GetPath addr 9 = Ok (S_ "/tmp/s").
Proof.
  apply (proj1 (unix_path (S_ "/tmp/s") ltac:(vm_compute; reflexivity))).
  - apply (bool_decide_unpack _). vm_compute. exact I.
  - discriminate.
  - vm_compute. lia.
Defined.

Lemma lookup_target_exact_witness :
  lookup_target (S_ "[::1]:80") = (S_ "::1", Some (S_ "80")) ∧
  lookup_target (S_ "a.b:80") = (S_ "a.b", Some (S_ "80")).
Proof.
  split.
  - refine (proj1 (lookup_target_exact (S_ "[::1]:80")) (S_ "::1") (S_ ":80") eq_refl _ _).
    + apply (bool_decide_unpack _). vm_compute. exact I.
    + discriminate.
  - refine (proj2 (proj2 (lookup_target_exact (S_ "a.b:80")) _) (S_ "a.b") (S_ "80") eq_refl _ _).
    + discriminate.
    + apply (bool_decide_unpack _). vm_compute. exact I.
    + discriminate.
Defined.

End Address.
