(* ===== verification/Text.v ===== *)
(** * Text, time and names over the C library (util/util.cc)

    [Module Text]: formatting, wide strings, calendar times, the name of a thread and the
    conversions from C strings. The C library is [Class Libc]; [Class LibcLaws] says of it
    what its documentation says. The locale of the process is the state of the functions
    that set it.

    Theorems: wide strings come back from their bytes, and the locale of the process is
    the environment's afterwards, whatever it was before ([wide_roundtrip]); a time comes
    back from its text outside daylight saving ([time_roundtrip]); a thread has the first
    fifteen bytes of its name ([thread_name_exact]). *)

From Stdlib Require Import Ascii String.
From S2P Require Import Prelude StringUtil Address.
Import StringUtil.

(** The fields of [struct tm] that a format can set, and [tm_isdst]. *)
Record tm := mkTm {
  tm_sec : Z; tm_min : Z; tm_hour : Z; tm_mday : Z; tm_mon : Z; tm_year : Z; tm_wday : Z; tm_yday : Z; tm_isdst : Z
}.

(** What the code calls. [environment] is the locale that the environment names, if it names
    one; [wcstombs] and [mbstowcs] convert a whole string in a locale, [None] when it cannot
    be converted; [strftime] makes the whole text; [None] is a null pointer. *)
Class Libc := {
  environment : option str;
  has_locale : str → bool;
  wcstombs (locale : str) (ws : list Z) : option str;
  mbstowcs (locale : str) (s : str) : option (list Z);
  localtime_r (ts : Z) : option tm;
  mktime (t : tm) : Z;
  strftime (format : str) (t : tm) : str;
  strptime (s format : str) (t : tm) : option tm
}.

(** A string of neither kind has a zero before its end; the two conversions invert each
    other; [strptime] reads what [strftime] wrote into the fields, if the format has all
    of them, and [mktime] inverts [localtime_r] in standard time. *)
Class LibcLaws `{Libc} := {
  all_fields (format : str) : bool;
  wcstombs_text l ws s : wcstombs l ws = Some s → 0%Z ∉ ws → Address.NUL ∉ s;
  mbstowcs_text l ws s : wcstombs l ws = Some s → 0%Z ∉ ws → mbstowcs l s = Some ws;
  strftime_text f t : Address.NUL ∉ strftime f t;
  strptime_strftime ts f t t0 : localtime_r ts = Some t → all_fields f = true → strptime (strftime f t) f t0 =
    Some (mkTm (tm_sec t) (tm_min t) (tm_hour t) (tm_mday t) (tm_mon t) (tm_year t) (tm_wday t) (tm_yday t) (tm_isdst t0));
  mktime_localtime ts t : localtime_r ts = Some t → tm_isdst t = 0%Z → mktime t = ts
}.

Module Text.

Local Open Scope Z_scope.

Section text.
Context `{Libc}.

(** ** Formatting *)

(** [formatted] is what [vasprintf] makes, [None] when it fails. *)
Definition Formatv (formatted : option str) : str := default [] formatted.
Definition Format (formatted : option str) : str := Formatv formatted.

(** ** Wide strings *)

(** Up to the first zero: what a function sees of [ws.c_str()]. *)
Fixpoint wc_str (ws : list Z) : list Z :=
  match ws with
  | [] => []
  | w :: ws => if decide (w = 0) then [] else w :: wc_str ws
  end.

(** [setlocale(LC_ALL, "")] and [setlocale(LC_ALL, l)]: the locale it selects, [None] when
    it fails and changes nothing. *)
Definition setlocale (l : str) : M str (option str) := λ current,
  match (if decide (l = []) then environment else if has_locale l then Some l else None) with
  | Some l => (Ok (Some l), l)
  | None => (Ok None, current)
  end.

(** A [std::string] made from a [char *]; from a null pointer it throws. *)
Definition string_of (p : option str) : M str str :=
  match p with Some s => mret s | None => mthrow LogicError end.

(** When the text cannot be converted [wcstombs] returns -1: an array of no bytes is made,
    and read as a string. *)
Definition WStringToString (ws : list Z) : M str str :=
  l ← setlocale [];
  str_locale ← string_of l;
  current ← mget;
  match wcstombs current (wc_str ws) with
  | None => mthrow UndefinedBehaviour
  | Some s => setlocale str_locale;; mret (Address.c_str s)
  end.

Definition StringToWString (s : str) : M str (list Z) :=
  l ← setlocale [];
  str_locale ← string_of l;
  current ← mget;
  match mbstowcs current (Address.c_str s) with
  | None => mthrow UndefinedBehaviour
  | Some ws => setlocale str_locale;; mret (wc_str ws)
  end.

(** ** Calendar times *)

(** The text is written into 64 bytes; one that does not fit, or a time that has no calendar
    time, leaves bytes that are not defined. *)
Definition Time2Str (ts : Z) (format : str) : res str :=
  match localtime_r ts with
  | None => Err UndefinedBehaviour
  | Some t =>
      let text := strftime (Address.c_str format) t in
      if decide (length text < 64)%nat then Ok (Address.c_str text) else Err UndefinedBehaviour
  end.

Definition tm_zero : tm := mkTm 0 0 0 0 0 0 0 0 0.

Definition Str2Time (s format : str) : Z :=
  match strptime (Address.c_str s) (Address.c_str format) tm_zero with
  | None => 0
  | Some t => mktime t
  end.

(** ** Conversions from C strings, [None] being a null pointer *)

Definition ToChar_ptr (p : option str) : Z :=
  match p with None => 0 | Some s => ToChar (Address.c_str s) end.
Definition Atoi_ptr (p : option str) : Z :=
  match p with None => 0 | Some s => i64(strtoull (Address.c_str s)) end.

(** [atof] is an argument; a value is the number the library makes. *)
Definition Atof {F} (zero : F) (atof : str → F) (s : str) : F :=
  if decide (s = []) then zero else atof (Address.c_str s).
Definition Atof_ptr {F} (zero : F) (atof : str → F) (p : option str) : F :=
  match p with None => zero | Some s => atof (Address.c_str s) end.

(** ** The name of a thread *)

(** The kernel's name of the thread, of at most fifteen bytes; setting a longer one fails. *)
Definition pthread_setname_np (name : str) : M str bool := λ comm,
  if decide (length name ≤ 15)%nat then (Ok true, name) else (Ok false, comm).
Definition SetThreadName (name : str) : M str () :=
  pthread_setname_np (Address.c_str (take 15 name));; mret tt.
Definition GetThreadName : M str str := comm ← mget; mret (Address.c_str (take 16 comm)).

(** ** Lemmas *)

Lemma c_str_id s : Address.NUL ∉ s → Address.c_str s = s.
Proof using.
  induction s as [|c s IH]; intros Hn; [done|]. apply not_elem_of_cons in Hn as [Hc Hs]. simpl.
  rewrite decide_False, IH; [done|done|]. intros Hz. apply Hc.
  rewrite <- (ascii_N_embedding c). unfold uchar in Hz. by replace (N_of_ascii c) with 0%N by lia.
Qed.

Lemma c_str_prefix s : ∃ rest, s = Address.c_str s ++ rest.
Proof using.
  induction s as [|c s [rest IH]]; [by exists []|]. simpl. case_decide; [by eexists|].
  exists rest. simpl. by f_equal.
Qed.

Lemma c_str_length s : (length (Address.c_str s) ≤ length s)%nat.
Proof using. destruct (c_str_prefix s) as [rest Hr]. apply (f_equal length) in Hr. rewrite length_app in Hr. lia. Qed.

Lemma c_str_no_nul s : Address.NUL ∉ Address.c_str s.
Proof using.
  induction s as [|c s IH]; simpl; [apply not_elem_of_nil|]. case_decide as Hz; [apply not_elem_of_nil|].
  apply not_elem_of_cons. split; [|done]. intros Hc. by rewrite <- Hc in Hz.
Qed.

Lemma wc_str_id ws : 0 ∉ ws → wc_str ws = ws.
Proof using.
  induction ws as [|w ws IH]; intros Hn; [done|]. apply not_elem_of_cons in Hn as [Hw Hs]. simpl.
  rewrite decide_False, IH by congruence. done.
Qed.

Lemma wc_str_no_zero ws : 0 ∉ wc_str ws.
Proof using.
  induction ws as [|w ws IH]; simpl; [apply not_elem_of_nil|]. case_decide; [apply not_elem_of_nil|].
  apply not_elem_of_cons. by split.
Qed.

Lemma setlocale_env current l : environment = Some l → setlocale [] current = (Ok (Some l), l).
Proof using. intros He. unfold setlocale. by rewrite decide_True, He by done. Qed.

(** The locale is the environment's after another [setlocale] too, or still. *)
Lemma setlocale_again l : environment = Some l → (setlocale l l).2 = l ∧ ∃ r, (setlocale l l).1 = Ok r.
Proof using.
  intros He. unfold setlocale. case_decide; [rewrite He; eauto|]. destruct (has_locale l); eauto.
Qed.

Context `{!LibcLaws}.

(** A wide string comes back from its bytes, up to its first zero, whatever the locale of
    the process was, when the environment names a locale that has the characters. Both
    functions leave the process in the environment's locale: the one it had before is
    lost. *)
Theorem wide_roundtrip ws l before before' bytes : environment = Some l → wcstombs l (wc_str ws) = Some bytes →
  WStringToString ws before = (Ok bytes, l) ∧ StringToWString bytes before' = (Ok (wc_str ws), l).
Proof using All.
  intros He Hw. pose proof (wc_str_no_zero ws) as Hz.
  pose proof (wcstombs_text _ _ _ Hw Hz) as Hnul. pose proof (mbstowcs_text _ _ _ Hw Hz) as Hm.
  destruct (setlocale_again l He) as [H2 [r H1]]. destruct (setlocale l l) as [r' l'] eqn:Hs. simpl in *. subst r' l'.
  split.
  - unfold WStringToString. rewrite (bind_ok _ _ _ _ _ (setlocale_env before l He)). cbn [string_of].
    mstep. rewrite Hw, (bind_ok _ _ _ _ _ Hs). by rewrite c_str_id.
  - unfold StringToWString. rewrite (bind_ok _ _ _ _ _ (setlocale_env before' l He)). cbn [string_of].
    mstep. rewrite c_str_id, Hm, (bind_ok _ _ _ _ _ Hs) by done.
    by rewrite wc_str_id.
Qed.

(** A time in standard time comes back from its text, when the format has all fields and
    the text fits into the buffer. *)
Theorem time_roundtrip ts t format : localtime_r ts = Some t → tm_isdst t = 0 → Address.NUL ∉ format →
  all_fields format = true → (length (strftime format t) < 64)%nat →
  ∃ text, Time2Str ts format = Ok text ∧ Str2Time text format = ts.
Proof using All.
  intros Ht Hd Hf Ha Hlen. exists (strftime format t). pose proof (strftime_text format t) as Hn.
  unfold Time2Str, Str2Time. rewrite Ht, (c_str_id format), decide_True, !(c_str_id (strftime format t)) by done.
  split; [done|]. rewrite (strptime_strftime ts) by done. apply mktime_localtime; [|done].
  rewrite Ht. f_equal. destruct t. simpl in *. by subst.
Qed.

(** A thread is named by the first fifteen bytes of its name, up to a zero. *)
Theorem thread_name_exact name comm :
  ∃ comm', SetThreadName name comm = (Ok tt, comm') ∧
    GetThreadName comm' = (Ok (Address.c_str (take 15 name)), comm').
Proof using.
  exists (Address.c_str (take 15 name)). pose proof (c_str_length (take 15 name)) as Hl. rewrite length_take in Hl.
  assert (pthread_setname_np (Address.c_str (take 15 name)) comm = (Ok true, Address.c_str (take 15 name))) as Hs.
  { unfold pthread_setname_np. by rewrite decide_True by lia. }
  unfold SetThreadName. rewrite (bind_ok _ _ _ _ _ Hs). split; [done|].
  unfold GetThreadName. mstep. rewrite take_ge by lia.
  by rewrite (c_str_id _ (c_str_no_nul _)).
Qed.

End text.

(** ** A small C library *)

(** One locale whose characters are the bytes; the first day of the epoch, an hour ahead in
    summer; every format is [%H:%M:%S]. *)
Definition digits2 (n : Z) : str := [char_of (48 + n / 10); char_of (48 + n mod 10)].
Definition number2 (c1 c2 : ascii) : Z := (uchar c1 - 48) * 10 + (uchar c2 - 48).

Definition small_localtime (summer : bool) (ts : Z) : option tm :=
  if decide (0 ≤ ts < 82800) then
    let s := ts + (if summer then 3600 else 0) in
    Some (mkTm (s mod 60) (s / 60 mod 60) (s / 3600) 1 0 70 4 0 (if summer then 1 else 0))
  else None.

Definition small_libc (summer : bool) : Libc := {|
  environment := Some (S_ "C");
  has_locale l := bool_decide (l = S_ "C");
  wcstombs _ ws := if forallb (λ w, bool_decide (0 ≤ w < 256)) ws then Some (char_of <$> ws) else None;
  mbstowcs _ s := Some (uchar <$> s);
  localtime_r := small_localtime summer;
  mktime t := tm_hour t * 3600 + tm_min t * 60 + tm_sec t - (if decide (tm_isdst t = 0) then 0 else 3600);
  strftime _ t := Address.c_str
    (digits2 (tm_hour t) ++ S_ ":" ++ digits2 (tm_min t) ++ S_ ":" ++ digits2 (tm_sec t));
  strptime s _ t := match s with
    | [h1; h2; _; m1; m2; _; s1; s2] =>
        Some (mkTm (number2 s1 s2) (number2 m1 m2) (number2 h1 h2) 1 0 70 4 0 (tm_isdst t))
    | _ => None
    end
|}.

Lemma uchar_char_of z : uchar (char_of z) = u8(z).
Proof.
  unfold uchar, char_of. pose proof (wrap_range 8 z). rewrite N_ascii_embedding; lia.
Qed.

Lemma digits2_ok n : 0 ≤ n < 100 → Address.NUL ∉ digits2 n ∧
  number2 (char_of (48 + n / 10)) (char_of (48 + n mod 10)) = n.
Proof.
  intros Hn. pose proof (Z.div_mod n 10). assert (0 ≤ n / 10 < 10) by (split; [apply Z.div_pos|apply Z.div_lt_upper_bound]; lia).
  pose proof (Z.mod_pos_bound n 10).
  assert (∀ d, 0 ≤ d < 10 → uchar (char_of (48 + d)) = 48 + d) as Hu.
  { intros d Hd. rewrite uchar_char_of, wrap_small by lia. done. }
  split; [|unfold number2; rewrite !Hu by lia; lia].
  intros Hin. apply elem_of_cons in Hin as [Hin|Hin%list_elem_of_singleton];
    apply (f_equal uchar) in Hin; rewrite Hu in Hin by lia; change (uchar Address.NUL) with 0 in Hin; lia.
Qed.

Lemma small_localtime_range summer ts t : small_localtime summer ts = Some t →
  (0 ≤ ts < 82800 ∧ 0 ≤ tm_hour t < 24 ∧ 0 ≤ tm_min t < 60 ∧ 0 ≤ tm_sec t < 60) ∧
  t = mkTm (tm_sec t) (tm_min t) (tm_hour t) 1 0 70 4 0 (if summer then 1 else 0) ∧
  tm_hour t * 3600 + tm_min t * 60 + tm_sec t = ts + (if summer then 3600 else 0).
Proof.
  unfold small_localtime. case_decide as Hts; [|done]. intros [= <-]. cbn [tm_sec tm_min tm_hour].
  set (s := ts + _). assert (0 ≤ s < 86400) as Hs by (unfold s; destruct summer; lia).
  pose proof (Z.mod_pos_bound s 60 ltac:(lia)). pose proof (Z.mod_pos_bound (s / 60) 60 ltac:(lia)).
  pose proof (Z.div_mod s 60 ltac:(lia)). pose proof (Z.div_mod (s / 60) 60 ltac:(lia)).
  assert (s / 3600 = s / 60 / 60) as -> by (rewrite Z.div_div; [done|lia..]). split; [|split; [done|]]; lia.
Qed.

#[global, refine] Instance small_libc_laws summer : @LibcLaws (small_libc summer) := {| all_fields _ := true |}.
Proof.
  - intros l ws s. simpl. destruct (forallb _ ws) eqn:Hf; [|done]. intros [= <-] Hz Hin.
    apply list_elem_of_fmap in Hin as (w & Hw & Hin). pose proof (proj1 (forallb_True _ _) ltac:(by rewrite Hf)) as Ha.
    rewrite Forall_forall in Ha. specialize (Ha w Hin). simpl in Ha. apply bool_decide_unpack in Ha.
    apply (f_equal uchar) in Hw. rewrite uchar_char_of, wrap_small in Hw by lia.
    change (uchar Address.NUL) with 0 in Hw. congruence.
  - intros l ws s. simpl. destruct (forallb _ ws) eqn:Hf; [|done]. intros [= <-] _. f_equal.
    pose proof (proj1 (forallb_True _ _) ltac:(by rewrite Hf)) as Ha. rewrite <- list_fmap_compose.
    induction Ha as [|w ws Hw Ha IH]; [done|]. simpl in *. apply andb_true_iff in Hf as [_ Hf]. f_equal; [|by apply IH].
    apply bool_decide_unpack in Hw. rewrite uchar_char_of, wrap_small by lia. done.
  - intros f t. apply c_str_no_nul.
  - intros ts f t t0 Ht _. cbn [localtime_r strftime strptime small_libc] in *.
    destruct (small_localtime_range _ _ _ Ht) as ((_ & Hh & Hm & Hs) & Heq & _).
    destruct (digits2_ok (tm_hour t)) as [Hh1 Hh2]; [lia|]. destruct (digits2_ok (tm_min t)) as [Hm1 Hm2]; [lia|].
    destruct (digits2_ok (tm_sec t)) as [Hs1 Hs2]; [lia|].
    rewrite c_str_id.
    + unfold digits2. simpl. rewrite Hh2, Hm2, Hs2. f_equal. rewrite Heq. simpl. by rewrite Heq.
    + rewrite !not_elem_of_app. split_and!; try done; by vm_compute; intros ?%list_elem_of_singleton.
  - intros ts t Ht Hd. cbn [localtime_r mktime small_libc] in *.
    destruct (small_localtime_range _ _ _ Ht) as (_ & Heq & Hsum). rewrite Heq in Hd. simpl in Hd.
    destruct summer; [done|]. rewrite Heq. simpl. lia.
Defined.

(** ** Witnesses *)

Lemma wide_roundtrip_witness : ∃ bytes,
  WStringToString (H := small_libc false) [72; 233; 0; 7] (S_ "POSIX") = (Ok bytes, S_ "C") ∧
  StringToWString (H := small_libc false) bytes (S_ "POSIX") = (Ok [72; 233], S_ "C").
Proof.
  eexists. apply (wide_roundtrip (H := small_libc false) [72; 233; 0; 7] (S_ "C") (S_ "POSIX") (S_ "POSIX"));
    [reflexivity|vm_compute; reflexivity].
Defined.

Lemma time_roundtrip_witness : ∃ text,
  Time2Str (H := small_libc false) 3661 (S_ "%T") = Ok text ∧ Str2Time (H := small_libc false) text (S_ "%T") = 3661.
Proof.
  apply (time_roundtrip (H := small_libc false) 3661 (mkTm 1 1 1 1 0 70 4 0 0) (S_ "%T"));
    [vm_compute; reflexivity|reflexivity|apply (bool_decide_eq_true_1 _); vm_compute; reflexivity|reflexivity
    |apply Nat.ltb_lt; vm_compute; reflexivity].
Defined.

(** ** Behaviour at the edges *)

(** [setlocale] returns the locale it has just selected, so the one from before is not put
    back. *)
Example locale_lost : WStringToString (H := small_libc false) [72] (S_ "POSIX") = (Ok (S_ "H"), S_ "C").
Proof. vm_compute. reflexivity. Qed.

(** A character that the locale does not have. *)
Example unknown_character : WStringToString (H := small_libc false) [8364] (S_ "C") = (Err UndefinedBehaviour, S_ "C").
Proof. vm_compute. reflexivity. Qed.

(** The fields are read with [tm_isdst] zero: in summer the time is an hour late. *)
Example summer_time : (text ← Time2Str (H := small_libc true) 3661 (S_ "%T");
  mret (Str2Time (H := small_libc true) text (S_ "%T"))) = Ok 7261.
Proof. vm_compute. reflexivity. Qed.

(** A name is cut after fifteen bytes, and at a zero. *)
Example long_name : (SetThreadName (S_ "brand_new_thread");; GetThreadName) (S_ "main") =
  (Ok (S_ "brand_new_threa"), S_ "brand_new_threa").
Proof. vm_compute. reflexivity. Qed.

End Text.
