(* ===== verification/Util.v ===== *)
(** * Diagnostics and singletons (util/util.cc, util/macro.h, util/singleton.h)

    [Module Util]: the text of a call stack, with the scan of its lines; the assertions,
    which print it; singletons. What the C++ runtime makes of a mangled name is an argument.

    Theorems: what is made of a line of the form the C library gives ([demangle_exact]);
    a stack is printed line by line ([backtrace_lines]); an assertion does nothing when
    its condition holds, and otherwise evaluates it once more ([ASSERT_exact]); a singleton
    is constructed once and stays ([singleton_exact]). *)

From Stdlib Require Import Ascii String.
From S2P Require Import Prelude StringUtil Address Text.
Import StringUtil.

Module Util.

Local Open Scope Z_scope.

(** ** sscanf *)

(** The longest prefix of at most [n] characters in the set. *)
Fixpoint span (p : ascii → bool) (n : nat) (s : str) : str * str :=
  match n, s with
  | S n, c :: s' => if p c then let '(a, b) := span p n s' in (c :: a, b) else ([], s)
  | _, _ => ([], s)
  end.

(** A conversion [%[...]] has to match a character at least. *)
Definition scan_set (p : ascii → bool) (n : nat) (s : str) : option (str * str) :=
  match span p n s with
  | ([], _) => None
  | r => Some r
  end.

Definition not_in (set : str) (c : ascii) : bool := negb (bool_decide (c ∈ set)).

(** ["%*[^(]%*[^_]%255[^)+]"]: the third field. *)
Definition scan_symbol (s : str) : option str :=
  '(_, s) ← scan_set (not_in (S_ "(")) (length s) s;
  '(_, s) ← scan_set (not_in (S_ "_")) (length s) s;
  '(field, _) ← scan_set (not_in (S_ ")+")) 255 s;
  Some field.

(** ["%255s"]. *)
Definition scan_word (s : str) : option str :=
  fst <$> scan_set (λ c, negb (is_space c)) 255 (skip_space s).

(** What [sscanf] writes into the buffer: the field and a zero. *)
Definition store (field : str) (rt : str) : str := splice 0 (field ++ [Address.NUL]) rt.

Section demangle.
Context (cxa_demangle : str → option str).

(** [str] is a C string. *)
Definition demangle (s : str) : str :=
  let s := Address.c_str s in
  let rt := replicate 256 Address.NUL in
  let first := scan_symbol s in
  match field ← first; cxa_demangle field with
  | Some v => Address.c_str v
  | None =>
      let rt := match first with Some field => store field rt | None => rt end in
      match scan_word s with
      | Some word => store word rt
      | None => s
      end
  end.

(** [frames] are the lines for the stack, [None] when [backtrace_symbols] fails. A negative
    [skip] is a huge [size_t]. *)
Definition Backtrace (frames : option (list str)) (size skip : Z) (bt : list str) : list str :=
  match take (Z.to_nat size) <$> frames with
  | None => bt
  | Some strings => bt ++ (demangle <$> (if decide (0 ≤ skip) then drop (Z.to_nat skip) strings else []))
  end.

Definition BacktraceToString (frames : option (list str)) (size skip : Z) (prefix : str) : str :=
  Backtrace frames size skip [] ≫= λ line, prefix ++ line ++ S_ "
".

End demangle.

(** ** Assertions *)

(** [ASSERT] and [ASSERT2]: [log] prints the stack. The library is built without [NDEBUG],
    so [assert] aborts when the condition is false. *)
Definition ASSERT {S} (x : M S bool) (log : M S ()) : M S () :=
  b ← x;
  if negb b then
    log;;
    b ← x;
    massert b
  else mret tt.

(** ** Singletons *)

Section singleton.
Context {K T : Type} `{Countable K}.

(** The static objects that exist, by class, tag and number. *)
Abbreviation Statics := (gmap K T).

(** [make] is what the constructor does; when it throws, the next call tries again. *)
Definition GetInstance (k : K) (make : res T) : M Statics T := λ st,
  match st !! k with
  | Some v => (Ok v, st)
  | None => match make with Ok v => (Ok v, <[k := v]> st) | Err e => (Err e, st) end
  end.

(** Calls, from whatever thread, one after the other; a call that throws is caught. *)
Fixpoint calls (cs : list (K * res T)) (st : Statics) : list (res T) * Statics :=
  match cs with
  | [] => ([], st)
  | (k, make) :: cs =>
      let '(r, st) := GetInstance k make st in
      let '(rs, st) := calls cs st in (r :: rs, st)
  end.

(** The first construction for [k] that does not throw. *)
Definition first_made (k : K) (cs : list (K * res T)) : option T :=
  head (omap (λ c, if decide (c.1 = k) then match c.2 with Ok v => Some v | Err _ => None end else None) cs).

Lemma first_made_cons k k' m cs : first_made k ((k', m) :: cs) =
  if decide (k' = k) then match m with Ok v => Some v | Err _ => first_made k cs end else first_made k cs.
Proof using. unfold first_made, omap. simpl. destruct (decide (k' = k)); [destruct m|]; reflexivity. Qed.

Lemma calls_ok cs : ∀ st k, (calls cs st).2 !! k = match st !! k with Some v => Some v | None => first_made k cs end.
Proof using.
  induction cs as [|[k' m] cs IH]; intros st k; simpl; [by destruct (st !! k)|]. unfold GetInstance.
  rewrite first_made_cons. destruct (st !! k') as [v|] eqn:Hv.
  - specialize (IH st k). destruct (calls cs st) as [rs st']. simpl in *. rewrite IH.
    destruct (st !! k) eqn:Hk; [done|]. rewrite decide_False; [done|]. intros ->. congruence.
  - destruct m as [v|e].
    + specialize (IH (<[k' := v]> st) k). destruct (calls cs _) as [rs st']. simpl in *. rewrite IH.
      destruct (decide (k' = k)) as [->|Hne]; [by rewrite lookup_insert_eq, Hv|]. by rewrite lookup_insert_ne.
    + specialize (IH st k). destruct (calls cs st) as [rs st']. simpl in *. rewrite IH.
      destruct (st !! k); [done|]. by case_decide.
Qed.

(** A singleton is constructed once. Whatever calls are made, in whatever order: the
    instance of a key is the first that was constructed without an exception, and every
    later call for the key gives it. *)
Theorem singleton_exact cs k make : (calls cs ∅).2 !! k = first_made k cs ∧
  ∀ v, first_made k cs = Some v → GetInstance k make (calls cs ∅).2 = (Ok v, (calls cs ∅).2).
Proof using.
  assert ((calls cs ∅).2 !! k = first_made k cs) as Hk by (by rewrite calls_ok, lookup_empty).
  split; [exact Hk|]. intros v Hv. unfold GetInstance. by rewrite Hk, Hv.
Qed.
End singleton.

(** ** What the scan makes of a line *)

Lemma span_app p n a b : forallb p a = true → (length a ≤ n)%nat →
  match b with c :: _ => p c = false ∨ length a = n | [] => True end → span p n (a ++ b) = (a, b).
Proof.
  revert n. induction a as [|c a IH]; intros n Ha Hn Hb; simpl.
  - destruct b as [|c b]; [by destruct n|]. destruct n as [|n]; [done|]. destruct Hb as [Hb|Hb]; [|done].
    simpl. by rewrite Hb.
  - simpl in *. apply andb_true_iff in Ha as [Hc Ha]. destruct n as [|n]; [lia|]. simpl. rewrite Hc, IH; [done|done|lia|].
    destruct b; [done|]. destruct Hb; [by left|right; lia].
Qed.

Lemma scan_set_app p n a b : a ≠ [] → forallb p a = true → (length a ≤ n)%nat →
  match b with c :: _ => p c = false ∨ length a = n | [] => True end → scan_set p n (a ++ b) = Some (a, b).
Proof. intros Ha Hp Hn Hb. unfold scan_set. rewrite span_app by done. by destruct a. Qed.

Lemma span_length p n : ∀ s, (length (span p n s).1 ≤ n)%nat.
Proof.
  induction n as [|n IH]; intros [|c s]; simpl; try lia. destruct (p c); simpl; [|lia].
  specialize (IH s). destruct (span p n s). simpl in *. lia.
Qed.

Lemma forallb_not_in set a : (∀ c, c ∈ set → c ∉ a) → forallb (not_in set) a = true.
Proof.
  intros H. apply forallb_forall. intros c Hc%list_elem_of_In. unfold not_in.
  rewrite bool_decide_eq_false_2; [done|]. intros Hin. exact (H c Hin Hc).
Qed.

Lemma scan_set_some p n c s : p c = true → (0 < n)%nat →
  ∃ w r, scan_set p n (c :: s) = Some (w, r) ∧ (length w ≤ n)%nat.
Proof.
  intros Hc Hn. destruct n as [|n]; [lia|]. unfold scan_set. pose proof (span_length p n s) as Hl. simpl.
  rewrite Hc. destruct (span p n s) as [w r]. simpl in *. do 2 eexists. split; [done|simpl; lia].
Qed.

(** The lines of [backtrace_symbols]: [file(symbol+offset) [address]]. *)
Definition line_of (file symbol rest : str) : str := file ++ S_ "(" ++ S_ "_" ++ symbol ++ rest.

Lemma scan_symbol_ok file symbol rest : file ≠ [] → "("%char ∉ file → (∀ c, c ∈ S_ ")+" → c ∉ symbol) →
  (length symbol < 255)%nat → match rest with c :: _ => c ∈ S_ ")+" | [] => True end →
  scan_symbol (line_of file symbol rest) = Some (S_ "_" ++ symbol).
Proof.
  intros Hf Hp Hs Hl Hr. unfold scan_symbol, line_of. set (s := file ++ _).
  assert (scan_set (not_in (S_ "(")) (length s) s = Some (file, S_ "(" ++ S_ "_" ++ symbol ++ rest)) as ->.
  { apply scan_set_app; [done| |unfold s; rewrite length_app; lia|by left].
    apply forallb_not_in. intros c ->%list_elem_of_singleton. done. }
  cbn [mbind option_bind]. set (s2 := S_ "(" ++ _).
  assert (scan_set (not_in (S_ "_")) (length s2) s2 = Some (S_ "(", S_ "_" ++ symbol ++ rest)) as ->.
  { apply scan_set_app; [done|done|unfold s2; rewrite length_app; lia|by left]. }
  cbn [mbind option_bind].
  assert (scan_set (not_in (S_ ")+")) 255 (S_ "_" ++ symbol ++ rest) = Some (S_ "_" ++ symbol, rest)) as ->; [|done].
  rewrite (assoc_L (++)). apply scan_set_app; [done| |simpl; lia|].
  - apply forallb_not_in. intros c Hc Hin. apply elem_of_app in Hin as [Hin|Hin]; [|by apply (Hs c)].
    apply list_elem_of_singleton in Hin as ->. revert Hc. by apply (bool_decide_eq_true_1 _).
  - destruct rest as [|c rest]; [done|]. left. unfold not_in. by rewrite bool_decide_eq_true_2.
Qed.

(** A line with a character that is not white space has a word. *)
Lemma scan_word_some s c : c ∈ s → is_space c = false → ∃ word, scan_word s = Some word ∧ (length word ≤ 255)%nat.
Proof.
  intros Hc Hs. assert (∃ d t, skip_space s = d :: t ∧ is_space d = false) as (d & t & Ht & Hd).
  { induction s as [|d t IH]; [by apply not_elem_of_nil in Hc|]. simpl. destruct (is_space d) eqn:Hd; [|by eauto].
    apply elem_of_cons in Hc as [->|Hc]; [congruence|by apply IH]. }
  unfold scan_word. rewrite Ht.
  destruct (scan_set_some (λ c, negb (is_space c)) 255 d t) as (w & r & -> & Hl); [by rewrite Hd|lia|].
  by exists w.
Qed.

Lemma store_ok field rt : length rt = 256%nat → (length field ≤ 255)%nat →
  ∃ pad, store field rt = field ++ Address.NUL :: pad ∧ length (store field rt) = 256%nat.
Proof.
  intros Hr Hf. exists (drop (length field + 1) rt). unfold store, splice. rewrite take_0. simpl.
  rewrite length_app. simpl. rewrite <- (assoc_L (++)). split; [done|].
  rewrite length_app. simpl. rewrite length_drop. lia.
Qed.

(** A line of a call stack is replaced by the demangled symbol. When the runtime cannot
    demangle it, the result is not the line but its first word in a string of 256
    characters: the zeros and what the buffer had before follow it. *)
Theorem demangle_exact cxa file symbol rest : file ≠ [] → "("%char ∉ file → (∀ c, c ∈ S_ ")+" → c ∉ symbol) →
  (length symbol < 255)%nat → match rest with c :: _ => c ∈ S_ ")+" | [] => True end →
  Address.NUL ∉ line_of file symbol rest →
  match cxa (S_ "_" ++ symbol) with
  | Some v => demangle cxa (line_of file symbol rest) = Address.c_str v
  | None => ∃ word pad, scan_word (line_of file symbol rest) = Some word ∧
      demangle cxa (line_of file symbol rest) = word ++ Address.NUL :: pad ∧
      length (demangle cxa (line_of file symbol rest)) = 256%nat
  end.
Proof.
  intros Hf Hp Hs Hl Hr Hn. unfold demangle. rewrite Text.c_str_id by done.
  rewrite (scan_symbol_ok file symbol rest) by done. cbn [mbind option_bind].
  destruct (cxa _) as [v|]; [done|].
  destruct (scan_word_some (line_of file symbol rest) "_"%char) as (word & Hw & Hlen); [|done|].
  { unfold line_of. rewrite !elem_of_app. right. right. left. by left. }
  rewrite Hw. destruct (store_ok (S_ "_" ++ symbol) (replicate 256 Address.NUL)) as (p1 & _ & H1); [done|simpl; lia|].
  destruct (store_ok word (store (S_ "_" ++ symbol) (replicate 256 Address.NUL)) H1 Hlen) as (pad & Hpad & H2).
  exists word, pad. by rewrite Hpad in H2 |- *.
Qed.

(** A stack is printed frame by frame, from [skip] on and [size] frames at most. *)
Theorem backtrace_lines cxa frames size skip prefix : 0 ≤ skip → 0 ≤ size →
  BacktraceToString cxa (Some frames) size skip prefix =
    mjoin ((λ line, prefix ++ demangle cxa line ++ S_ "
") <$> take (Z.to_nat (size - skip)) (drop (Z.to_nat skip) frames)).
Proof.
  intros Hk Hs. unfold BacktraceToString, Backtrace. simpl. rewrite decide_True by done.
  assert (drop (Z.to_nat skip) (take (Z.to_nat size) frames) =
    take (Z.to_nat (size - skip)) (drop (Z.to_nat skip) frames)) as ->.
  { destruct (decide (size < skip)).
    - replace (Z.to_nat (size - skip)) with 0%nat by lia. rewrite drop_ge; [done|]. rewrite length_take. lia.
    - rewrite take_drop_commute. do 2 f_equal. lia. }
  generalize (take (Z.to_nat (size - skip)) (drop (Z.to_nat skip) frames)) as l.
  induction l as [|x l IH]; [done|]. exact (f_equal (app _) IH).
Qed.

(** An assertion that holds costs nothing; one that does not is printed, and its condition
    is evaluated again: that value is the one that counts. *)
Theorem ASSERT_exact {S} (x : M S bool) (log : M S ()) s b s1 : x s = (Ok b, s1) →
  ASSERT x log s = if b then (Ok tt, s1) else (log;; b' ← x; massert b') s1.
Proof. intros Hx. unfold ASSERT. rewrite (bind_ok _ _ _ _ _ Hx). by destruct b. Qed.

(** ** Witnesses *)

Definition cxa (s : str) : option str := if decide (s = S_ "_Z4mainv") then Some (S_ "main()") else None.

Lemma demangle_exact_witness : demangle cxa (line_of (S_ "./a") (S_ "Z4mainv") (S_ "+0x1f) [0x401]")) = S_ "main()".
Proof.
  exact (demangle_exact cxa (S_ "./a") (S_ "Z4mainv") (S_ "+0x1f) [0x401]") ltac:(discriminate)
    (bool_decide_eq_true_1 ("("%char ∉ S_ "./a") eq_refl)
    (proj1 (Forall_forall _ _) (bool_decide_eq_true_1 (Forall (λ c, c ∉ S_ "Z4mainv") (S_ ")+")) eq_refl))
    (proj1 (Nat.ltb_lt 7 255) eq_refl)
    (bool_decide_eq_true_1 ("+"%char ∈ S_ ")+") eq_refl)
    (bool_decide_eq_true_1 (Address.NUL ∉ line_of (S_ "./a") (S_ "Z4mainv") (S_ "+0x1f) [0x401]")) eq_refl)).
Defined.

Lemma backtrace_lines_witness : 0 ≤ 1 ∧
  BacktraceToString cxa (Some [S_ "x"; S_ "./a(_Z4mainv+1) [2]"; S_ "y"]) 2 1 (S_ "  ") = S_ "  main()
".
Proof.
  split; [lia|]. rewrite (backtrace_lines cxa _ 2 1 (S_ "  ")) by lia. vm_compute. reflexivity.
Defined.

Lemma ASSERT_exact_witness : ASSERT (S := Z) (x ← mget; mput (x + 1);; mret (bool_decide (0 < x))) (mret tt) 0 = (Ok tt, 2).
Proof.
  rewrite (ASSERT_exact (S := Z) (x ← mget; mput (x + 1);; mret (bool_decide (0 < x))) (mret tt) 0 false 1);
    [vm_compute; reflexivity|reflexivity].
Defined.

(** ** Behaviour at the edges *)

(** The symbol of a C function is not mangled: its line is cut at the first space, and
    filled up to 256 characters with zeros. *)
Example c_symbol : let r := demangle cxa (S_ "./a(main+0x1f) [0x401]") in
  length r = 256%nat ∧ Address.c_str r = S_ "./a(main+0x1f)".
Proof. vm_compute. done. Qed.

(** What the first scan left is in the string, behind the word. *)
Example left_over : let r := demangle cxa (S_ "a (_ZN3fooEv+0) [1]") in
  Address.c_str r = S_ "a" ∧ Address.c_str (drop 2 r) = S_ "N3fooEv".
Proof. vm_compute. done. Qed.

End Util.
