(* ===== verification/Log.v ===== *)
(** * The logging system (log/log.h, log/log.cc)

    [Module Log]: levels, events, the pattern of a formatter and its parser, appenders,
    loggers, the manager that knows them by name, and the listener that configures them.
    Appenders live in a heap, as loggers share pointers to them; the manager never
    forgets a logger, so the pointer to a logger is its name. What the operating system
    answers when a file is opened or written is an argument. What an appender writes to the
    terminal about its file is part of the model; what the parser of patterns writes there
    about its errors is not.

    Theorems: every pattern is parsed as the grammar of its documentation says, with
    three exceptions ([formatter_parse], [pattern_complete]); the listener configures
    exactly the loggers that are new or gone ([listener_exact]); an event reaches the
    appenders of its logger, in order, exactly when its level is enabled ([Log_exact]);
    level names are read back ([level_roundtrip]). [LogYaml] has the conversions to and
    from YAML. *)

From Stdlib Require Import Ascii String.
From stdpp Require Import pretty.
From S2P Require Import Prelude StringUtil.
Import StringUtil.

Module Log.

Local Open Scope Z_scope.

(** ** Levels *)

Abbreviation Level := Z (only parsing).
Definition FATAL : Level := 0.
Definition ALERT : Level := 100.
Definition CRIT : Level := 200.
Definition ERROR : Level := 300.
Definition WARN : Level := 400.
Definition NOTICE : Level := 500.
Definition INFO : Level := 600.
Definition DEBUG : Level := 700.
Definition NOTSET : Level := 800.

(** The first entry of a table with a key, as a chain of tests finds it. *)
Fixpoint assoc {A B} `{EqDecision A} (l : list (A * B)) (k : A) : option B :=
  match l with
  | [] => None
  | (k', v) :: l => if decide (k = k') then Some v else assoc l k
  end.

Definition level_names : list (Level * str) :=
  [(FATAL, S_ "FATAL"); (ALERT, S_ "ALERT"); (CRIT, S_ "CRIT"); (ERROR, S_ "ERROR");
   (WARN, S_ "WARN"); (NOTICE, S_ "NOTICE"); (INFO, S_ "INFO"); (DEBUG, S_ "DEBUG")].

Definition ToString (level : Level) : str := default (S_ "NOTSET") (assoc level_names level).

Definition level_strings : list (str * Level) :=
  [(S_ "fatal", FATAL); (S_ "alert", ALERT); (S_ "crit", CRIT); (S_ "error", ERROR);
   (S_ "warn", WARN); (S_ "notice", NOTICE); (S_ "info", INFO); (S_ "debug", DEBUG);
   (S_ "FATAL", FATAL); (S_ "ALERT", ALERT); (S_ "CRIT", CRIT); (S_ "ERROR", ERROR);
   (S_ "WARN", WARN); (S_ "NOTICE", NOTICE); (S_ "INFO", INFO); (S_ "DEBUG", DEBUG)].

Definition FromString (s : str) : Level := default NOTSET (assoc level_strings s).

(** ** Events and the items of a format *)

Record LogEvent := Event {
  e_level : Level;
  e_content : str;
  e_file : str;
  e_line : Z;
  e_elapse : Z;
  e_thread_id : Z;
  e_fiber_id : Z;
  e_time : Z;
  e_thread_name : str;
  e_logger_name : str }.

(** The constructor; [elapse], the numbers and the names are what the macros ask for. *)
Definition LogEvent_new (logger_name : str) (level : Level) (file : str) (line elapse thread_id fiber_id time : Z)
    (thread_name : str) : LogEvent :=
  Event level [] file line i64(elapse) u32(thread_id) u64(fiber_id) time thread_name logger_name.

(** [VPrintf], which [Printf] calls: [formatted] is what [vasprintf] makes, [None] when it
    fails. [GetSS() << text] appends likewise. *)
Definition VPrintf (formatted : option str) (e : LogEvent) : LogEvent :=
  match formatted with
  | Some text => Event (e_level e) (e_content e ++ text) (e_file e) (e_line e) (e_elapse e) (e_thread_id e)
                   (e_fiber_id e) (e_time e) (e_thread_name e) (e_logger_name e)
  | None => e
  end.

Inductive FormatItem :=
  | MessageFormatItem
  | LevelFormatItem
  | ElapseFormatItem
  | LoggerNameFormatItem
  | ThreadIdFormatItem
  | FiberIdFormatItem
  | ThreadNameFormatItem
  | DateTimeFormatItem (m_format : str)
  | FileNameFormatItem
  | LineFormatItem
  | NewLineFormatItem
  | StringFormatItem (m_string : str)
  | TabFormatItem
  | PercentSignFormatItem.

(** The constructor of [DateTimeFormatItem]. *)
Definition default_date : str := S_ "%Y-%m-%d %H:%M:%S".
Definition DateTimeFormatItem_new (format : str) : FormatItem :=
  DateTimeFormatItem (if decide (format = []) then default_date else format).

(** An integer as a stream prints it. *)
Definition show_int (z : Z) : str :=
  if decide (z < 0) then S_ "-" ++ S_ (pretty (Z.to_N (- z))) else S_ (pretty (Z.to_N z)).

Definition NL : ascii := "010"%char.
Definition TAB : ascii := "009"%char.

(** [Format] of every class; [strftime] is given the format and the local time. A text
    that does not fit into the buffer leaves it undefined. *)
Definition Format_item (strftime : str → Z → str) (i : FormatItem) (event : LogEvent) : res str :=
  match i with
  | MessageFormatItem => Ok (e_content event)
  | LevelFormatItem => Ok (ToString (e_level event))
  | ElapseFormatItem => Ok (show_int (e_elapse event))
  | LoggerNameFormatItem => Ok (e_logger_name event)
  | ThreadIdFormatItem => Ok (show_int (e_thread_id event))
  | FiberIdFormatItem => Ok (show_int (e_fiber_id event))
  | ThreadNameFormatItem => Ok (e_thread_name event)
  | DateTimeFormatItem m_format =>
      let buf := strftime m_format (e_time event) in
      if decide (length buf < 64)%nat then Ok buf else Err UndefinedBehaviour
  | FileNameFormatItem => Ok (e_file event)
  | LineFormatItem => Ok (show_int (e_line event))
  | NewLineFormatItem => Ok [NL]
  | StringFormatItem m_string => Ok m_string
  | TabFormatItem => Ok [TAB]
  | PercentSignFormatItem => Ok (S_ "%")
  end.

(** ** The pattern of a formatter *)

Definition s_format_items : list (ascii * FormatItem) :=
  [("m", MessageFormatItem); ("p", LevelFormatItem); ("c", LoggerNameFormatItem);
   ("r", ElapseFormatItem); ("f", FileNameFormatItem); ("l", LineFormatItem);
   ("t", ThreadIdFormatItem); ("F", FiberIdFormatItem); ("N", ThreadNameFormatItem);
   ("%", PercentSignFormatItem); ("T", TabFormatItem); ("n", NewLineFormatItem)]%char.

Record LogFormatter := Formatter {
  pattern_ : str;
  items_ : list FormatItem;
  error_ : bool }.

(** [pattern_[i]]: the terminating zero is at the end, and nothing is behind it. *)
Definition char_at (pattern : str) (i : nat) : res ascii :=
  if decide (i = length pattern) then Ok "000"%char
  else match pattern !! i with Some c => Ok c | None => Err UndefinedBehaviour end.

(** A parsed piece of the pattern: text, type 0, or the letter after a percent sign,
    type 1. *)
Inductive pattern_item := Type0 (s : str) | Type1 (c : ascii).

(** The local variables of the loop. *)
Record parser := Parser {
  patterns : list pattern_item;
  tmp : str;
  dateformat : str;
  parsing_string : bool }.

Definition flush (s : str) : list pattern_item := if decide (s = []) then [] else [Type0 s].

(** The loop over what is in braces. *)
Fixpoint brace_loop (rest : str) (i : nat) (dateformat : str) : nat * str :=
  match rest with
  | [] => (i, dateformat)
  | c :: rest => if decide (c = "}"%char) then (i, dateformat)
                 else brace_loop rest (S i) (dateformat ++ [c])
  end.

(** What happens after the letter [d]: the next position and the date format, or
    [None] when the brace is not closed. *)
Definition after_d (pattern : str) (i : nat) (dateformat : str) : res (option (nat * str)) :=
  if decide (i < length pattern ∧ pattern !! i ≠ Some "{"%char)%nat then Ok (Some (i, dateformat))
  else
    let '(i, dateformat) := brace_loop (drop (S i) pattern) (S i) dateformat in
    c ← char_at pattern i;
    mret (if decide (c = "}"%char) then Some (S i, dateformat) else None).

(** The [while] loop; every turn moves on by at least one character. *)
Fixpoint parse_loop (fuel : nat) (pattern : str) (i : nat) (p : parser) : res (option parser) :=
  match fuel with
  | O => Err OutOfFuel
  | S fuel =>
      match pattern !! i with
      | None => Ok (Some p)
      | Some c =>
          if decide (c = "%"%char) then
            if parsing_string p then
              parse_loop fuel pattern (S i)
                (Parser (patterns p ++ flush (tmp p)) [] (dateformat p) false)
            else
              parse_loop fuel pattern (S i)
                (Parser (patterns p ++ [Type1 c]) (tmp p) (dateformat p) true)
          else if parsing_string p then
            parse_loop fuel pattern (S i) (Parser (patterns p) (tmp p ++ [c]) (dateformat p) true)
          else
            let ps := patterns p ++ [Type1 c] in
            if decide (c ≠ "d"%char) then
              parse_loop fuel pattern (S i) (Parser ps (tmp p) (dateformat p) true)
            else
              next ← after_d pattern (S i) (dateformat p);
              match next with
              | None => Ok None
              | Some (i, df) => parse_loop fuel pattern i (Parser ps (tmp p) df true)
              end
      end
  end.

(** The loop that makes the items: what is made before an unknown letter stays. *)
Fixpoint make_items (dateformat : str) (ps : list pattern_item) : list FormatItem * bool :=
  match ps with
  | [] => ([], false)
  | p :: ps =>
      match (match p with
             | Type0 s => Some (StringFormatItem s)
             | Type1 c => if decide (c = "d"%char) then Some (DateTimeFormatItem_new dateformat)
                          else assoc s_format_items c
             end) with
      | None => ([], true)
      | Some i => let '(items, error) := make_items dateformat ps in (i :: items, error)
      end
  end.

Definition Init (pattern : str) : res LogFormatter :=
  r ← parse_loop (S (length pattern)) pattern 0 (Parser [] [] [] true);
  match r with
  | None => mret (Formatter pattern [] true)
  | Some p =>
      let '(items, error) := make_items (dateformat p) (patterns p ++ flush (tmp p)) in
      mret (Formatter pattern items error)
  end.

Definition default_pattern : str :=
  S_ "%d{%Y-%m-%d %H:%M:%S} [%rms]%T%t%T%N%T%F%T[%p]%T[%c]%T%f:%l%T%m%n".

Fixpoint Format_items (strftime : str → Z → str) (items : list FormatItem) (event : LogEvent) : res str :=
  match items with
  | [] => Ok []
  | i :: items => s ← Format_item strftime i event; r ← Format_items strftime items event; mret (s ++ r)
  end.

Definition Format (strftime : str → Z → str) (f : LogFormatter) (event : LogEvent) : res str :=
  Format_items strftime (items_ f) event.

(** ** The grammar of patterns *)

Inductive token :=
  | TText (s : str)
  | TItem (c : ascii)
  | TDate (format : option str).

Definition render_token (t : token) : str :=
  match t with
  | TText s => s
  | TItem c => ["%"%char; c]
  | TDate None => S_ "%d"
  | TDate (Some f) => S_ "%d{" ++ f ++ S_ "}"
  end.

Definition render (ts : list token) : str := ts ≫= render_token.

(** A token in front of [next] is read as the token it is. *)
Definition fits (t : token) (next : str) : Prop :=
  match t with
  | TText s => s ≠ [] ∧ "%"%char ∉ s ∧ (next = [] ∨ head next = Some "%"%char)
  | TItem c => c ≠ "d"%char
  | TDate None => next ≠ [] ∧ head next ≠ Some "{"%char
  | TDate (Some f) => "}"%char ∉ f
  end.

Fixpoint canonical (ts : list token) (tail : str) : Prop :=
  match ts with
  | [] => True
  | t :: ts => fits t (render ts ++ tail) ∧ canonical ts tail
  end.

(** The date format that all dates of a pattern share. *)
Definition dates (ts : list token) : str :=
  ts ≫= (λ t, match t with TDate (Some f) => f | _ => [] end).

Definition token_item (date : str) (t : token) : option FormatItem :=
  match t with
  | TText s => Some (StringFormatItem s)
  | TItem c => assoc s_format_items c
  | TDate _ => Some (DateTimeFormatItem_new date)
  end.

Definition token_pattern (t : token) : pattern_item :=
  match t with TText s => Type0 s | TItem c => Type1 c | TDate _ => Type1 "d"%char end.

(** ** The parser *)

Lemma middle {A} (pre : list A) c rest : (pre ++ [c]) ++ rest = pre ++ c :: rest.
Proof. by rewrite <- (assoc_L (++)). Qed.

Lemma length_snoc {A} (pre : list A) c : length (pre ++ [c]) = S (length pre).
Proof. rewrite length_app. simpl. lia. Qed.

(** A character of text. *)
Lemma step_text fuel pre c rest p : c ≠ "%"%char → parsing_string p = true →
  parse_loop (S fuel) (pre ++ c :: rest) (length pre) p =
    parse_loop fuel (pre ++ c :: rest) (S (length pre)) (Parser (patterns p) (tmp p ++ [c]) (dateformat p) true).
Proof. intros Hc Hp. simpl. rewrite list_lookup_middle by done. by rewrite decide_False, Hp. Qed.

(** The percent sign that opens a letter. *)
Lemma step_percent fuel pre rest p : parsing_string p = true →
  parse_loop (S fuel) (pre ++ "%"%char :: rest) (length pre) p =
    parse_loop fuel (pre ++ "%"%char :: rest) (S (length pre))
      (Parser (patterns p ++ flush (tmp p)) [] (dateformat p) false).
Proof. intros Hp. simpl. rewrite list_lookup_middle by done. by rewrite decide_True, Hp. Qed.

(** A letter other than [d], a second percent sign being one. *)
Lemma step_letter fuel pre c rest p : c ≠ "d"%char → parsing_string p = false →
  parse_loop (S fuel) (pre ++ c :: rest) (length pre) p =
    parse_loop fuel (pre ++ c :: rest) (S (length pre)) (Parser (patterns p ++ [Type1 c]) (tmp p) (dateformat p) true).
Proof.
  intros Hc Hp. simpl. rewrite list_lookup_middle by done.
  destruct (decide (c = "%"%char)) as [->|]; [by rewrite Hp|]. rewrite Hp. by rewrite decide_True.
Qed.

Lemma step_d fuel pre rest p : parsing_string p = false →
  parse_loop (S fuel) (pre ++ "d"%char :: rest) (length pre) p =
    (next ← after_d (pre ++ "d"%char :: rest) (S (length pre)) (dateformat p);
     match next with
     | None => Ok None
     | Some (i, df) => parse_loop fuel (pre ++ "d"%char :: rest) i
         (Parser (patterns p ++ [Type1 "d"%char]) (tmp p) df true)
     end).
Proof. intros Hp. simpl. rewrite list_lookup_middle by done. by rewrite decide_False, Hp. Qed.

Lemma parse_text s : ∀ fuel pre rest p, "%"%char ∉ s → parsing_string p = true →
  (length s ≤ fuel)%nat →
  parse_loop fuel (pre ++ s ++ rest) (length pre) p =
    parse_loop (fuel - length s) (pre ++ s ++ rest) (length (pre ++ s))
      (Parser (patterns p) (tmp p ++ s) (dateformat p) true).
Proof.
  induction s as [|c s IH]; intros fuel pre rest p Hs Hp Hf.
  - rewrite !app_nil_r. simpl. rewrite Nat.sub_0_r. destruct p; simpl in *; by subst.
  - apply not_elem_of_cons in Hs as [Hc Hs]. simpl in Hf. destruct fuel as [|fuel]; [lia|].
    simpl app. rewrite step_text by done. rewrite <- length_snoc with (c := c), <- middle.
    rewrite IH by (done || simpl; lia). simpl. by rewrite middle, <- !(assoc_L (++)).
Qed.

Lemma brace_loop_closed f rest i df : "}"%char ∉ f →
  brace_loop (f ++ "}"%char :: rest) i df = ((i + length f)%nat, df ++ f).
Proof.
  revert i df. induction f as [|c f IH]; intros i df Hf; simpl.
  - by rewrite Nat.add_0_r, app_nil_r.
  - apply not_elem_of_cons in Hf as [Hc Hf]. rewrite decide_False, IH, <- (assoc_L (++)) by done.
    f_equal. lia.
Qed.

Lemma brace_loop_open f i df : "}"%char ∉ f → brace_loop f i df = ((i + length f)%nat, df ++ f).
Proof.
  revert i df. induction f as [|c f IH]; intros i df Hf; simpl.
  - by rewrite Nat.add_0_r, app_nil_r.
  - apply not_elem_of_cons in Hf as [Hc Hf]. rewrite decide_False, IH, <- (assoc_L (++)) by done.
    f_equal. lia.
Qed.

(** After the letter [d]: no brace, a brace that is closed or not, the end. *)
Lemma after_d_plain pre next df : next ≠ [] → head next ≠ Some "{"%char →
  after_d (pre ++ next) (length pre) df = Ok (Some (length pre, df)).
Proof.
  intros Hn Hh. unfold after_d. rewrite decide_True; [done|]. destruct next as [|c next]; [done|].
  rewrite length_app, list_lookup_middle by done. simpl in *. split; [lia|]. congruence.
Qed.

Lemma after_d_closed pre f rest df : "}"%char ∉ f →
  after_d (pre ++ "{"%char :: f ++ "}"%char :: rest) (length pre) df =
    Ok (Some (length (pre ++ "{"%char :: f ++ ["}"%char]), df ++ f)).
Proof.
  intros Hf. unfold after_d. rewrite decide_False by (rewrite list_lookup_middle by done; tauto).
  rewrite <- middle, drop_app_length' by (rewrite length_snoc; done).
  rewrite brace_loop_closed by done. unfold char_at.
  replace (S (length pre) + length f)%nat with (length ((pre ++ ["{"%char]) ++ f))
    by (rewrite !length_app; simpl; lia).
  rewrite (assoc_L (++)), decide_False by (rewrite (length_app _ (_ :: _)); simpl; lia).
  rewrite list_lookup_middle by done. simpl. do 3 f_equal. rewrite !length_app. simpl.
  rewrite length_app. simpl. lia.
Qed.

Lemma after_d_open pre f df : "}"%char ∉ f →
  after_d (pre ++ "{"%char :: f) (length pre) df = Ok None.
Proof.
  intros Hf. unfold after_d. rewrite decide_False by (rewrite list_lookup_middle by done; tauto).
  rewrite <- middle, drop_app_length' by (rewrite length_snoc; done).
  rewrite brace_loop_open by done. unfold char_at.
  rewrite decide_True by (rewrite !length_app; simpl; lia). done.
Qed.

Lemma after_d_end pre df : after_d pre (length pre) df = Err UndefinedBehaviour.
Proof.
  unfold after_d. rewrite decide_False by lia. rewrite drop_ge by lia. simpl. unfold char_at.
  rewrite decide_False by lia. by rewrite lookup_ge_None_2 by lia.
Qed.

Definition token_date (t : token) : str := match t with TDate (Some f) => f | _ => [] end.

(** Text that has been read is followed by a percent sign or by nothing. *)
Definition quiet (p : parser) (next : str) : Prop :=
  tmp p = [] ∨ next = [] ∨ head next = Some "%"%char.

(** What has been read so far. *)
Definition parsed (p : parser) (ps : list pattern_item) (df : str) : Prop :=
  parsing_string p = true ∧ patterns p ++ flush (tmp p) = ps ∧ dateformat p = df.

Lemma quiet_nil ps df b next : quiet (Parser ps [] df b) next.
Proof. by left. Qed.

Ltac parsed_item := split_and!; simpl;
  change (flush []) with (@nil pattern_item); rewrite ?app_nil_r, <- ?(assoc_L (++)); done.

Lemma parse_token t fuel pre next p ps df : fits t next → parsed p ps df → quiet p (render_token t ++ next) →
  (length (render_token t ++ next) < fuel)%nat → ∃ fuel' p',
  parse_loop fuel (pre ++ render_token t ++ next) (length pre) p =
    parse_loop fuel' ((pre ++ render_token t) ++ next) (length (pre ++ render_token t)) p' ∧
  parsed p' (ps ++ [token_pattern t]) (df ++ token_date t) ∧ quiet p' next ∧ (length next < fuel')%nat.
Proof.
  intros Ht (Hp & <- & <-) Hq Hf. rewrite length_app in Hf. destruct t as [s|c|[f|]]; simpl in Ht, Hf.
  - destruct Ht as (Hs & Hpc & Hn). assert (tmp p = []) as Htmp.
    { destruct Hq as [H|[H|H]]; [done|..]; destruct s as [|c s]; try done.
      simpl in H. simplify_eq. set_solver. }
    simpl render_token. rewrite parse_text by (done || lia). eexists _, _. rewrite (assoc_L (++)).
    split; [reflexivity|]. split_and!; [|by right|lia]. rewrite Htmp. split_and!; simpl; [done| |by rewrite app_nil_r].
    unfold flush at 1. rewrite decide_False by done. by rewrite app_nil_r.
  - destruct fuel as [|[|fuel]]; [lia..|]. simpl app. rewrite step_percent by done.
    rewrite <- (length_snoc pre "%"%char), <- middle, step_letter by done.
    rewrite <- length_snoc with (c := c). eexists _, _. rewrite <- middle, <- !(assoc_L (++)). simpl app.
    split; [reflexivity|]. split; [parsed_item|split; [apply quiet_nil|lia]].
  - destruct fuel as [|[|fuel]]; [lia..|]. simpl app. rewrite step_percent by done.
    rewrite <- (length_snoc pre "%"%char), <- middle, step_d by done.
    rewrite <- (length_snoc _ "d"%char), <- middle.
    rewrite (middle f "}"%char next). rewrite after_d_closed by done. simpl mbind. cbv beta iota.
    exists fuel. eexists. split.
    { f_equal; rewrite <- !(assoc_L (++)); simpl; by rewrite <- ?(assoc_L (++)). }
    split; [parsed_item|split; [apply quiet_nil|rewrite length_app in Hf; simpl in Hf; lia]].
  - destruct Ht as [Hn Hh]. destruct fuel as [|[|fuel]]; [lia..|]. simpl app. rewrite step_percent by done.
    rewrite <- (length_snoc pre "%"%char), <- middle, step_d by done.
    rewrite <- (length_snoc _ "d"%char), <- middle, after_d_plain by done. simpl mbind. cbv beta iota.
    exists fuel. eexists. split.
    { f_equal; rewrite <- !(assoc_L (++)); simpl; by rewrite <- ?(assoc_L (++)). }
    split; [parsed_item|split; [apply quiet_nil|lia]].
Qed.

Lemma parse_tokens ts : ∀ fuel pre tail p ps df, canonical ts tail → parsed p ps df → quiet p (render ts ++ tail) →
  (length (render ts ++ tail) < fuel)%nat → ∃ fuel' p',
  parse_loop fuel (pre ++ render ts ++ tail) (length pre) p =
    parse_loop fuel' ((pre ++ render ts) ++ tail) (length (pre ++ render ts)) p' ∧
  parsed p' (ps ++ (token_pattern <$> ts)) (df ++ dates ts) ∧ quiet p' tail ∧ (length tail < fuel')%nat.
Proof.
  induction ts as [|t ts IH]; intros fuel pre tail p ps df Hc Hp Hq Hf.
  { exists fuel, p. unfold render, dates. simpl in *. rewrite !app_nil_r. done. }
  destruct Hc as [Ht Hc]. change (render (t :: ts)) with (render_token t ++ render ts) in *.
  rewrite <- (assoc_L (++)) in Hq, Hf |- *.
  destruct (parse_token t fuel pre _ p ps df Ht Hp Hq Hf) as (f1 & p1 & -> & Hp1 & Hq1 & Hf1).
  destruct (IH f1 (pre ++ render_token t) tail p1 _ _ Hc Hp1 Hq1 Hf1) as (f2 & p2 & -> & Hp2 & Hq2 & Hf2).
  exists f2, p2. rewrite !(assoc_L (++)). rewrite fmap_cons.
  change (dates (t :: ts)) with (token_date t ++ dates ts). rewrite <- !(assoc_L (++)) in Hp2 |- *.
  rewrite middle in Hp2. split_and!; [reflexivity|exact Hp2|exact Hq2|exact Hf2].
Qed.

(** The items of the tokens, up to the first unknown letter. *)
Lemma make_items_tokens df ts tail : canonical ts tail →
  let r := make_items df (token_pattern <$> ts) in
  (Forall (λ t, is_Some (token_item df t)) ts → r.2 = false ∧ Some <$> r.1 = token_item df <$> ts) ∧
  (¬ Forall (λ t, is_Some (token_item df t)) ts → r.2 = true).
Proof.
  induction ts as [|t ts IH]; intros Hc; [split; [done|intros []; constructor]|].
  destruct Hc as [Ht Hc]. specialize (IH Hc) as [IH1 IH2].
  assert ((match token_pattern t with
    | Type0 s => Some (StringFormatItem s)
    | Type1 c => if decide (c = "d"%char) then Some (DateTimeFormatItem_new df) else assoc s_format_items c
    end) = token_item df t) as Heq.
  { destruct t as [s|c|f]; simpl in *; [done| |done]. by rewrite decide_False. }
  rewrite fmap_cons. cbn [make_items]. rewrite Heq.
  destruct (token_item df t) as [i|] eqn:Hi; cbn zeta.
  - destruct (make_items df (token_pattern <$> ts)) as [items error]. simpl in *. rewrite Hi. split.
    + intros H. inversion H; subst. destruct IH1 as [-> Hit]; [done|].
      split; [done|]. by apply (f_equal (cons (Some i))).
    + intros Hn. apply IH2. intros H. apply Hn. by constructor; [rewrite Hi; eexists|].
  - split; [|done]. intros H. inversion H; subst. rewrite Hi in *. by destruct H2.
Qed.

(** The first occurrence of a character. *)
Lemma split_first (c : ascii) s : c ∉ s ∨ ∃ l r, s = l ++ c :: r ∧ c ∉ l.
Proof.
  induction s as [|x s IH]; [left; apply not_elem_of_nil|].
  destruct (decide (x = c)) as [->|Hx]; [right; exists [], s; split; [done|apply not_elem_of_nil]|].
  destruct IH as [H|(l & r & -> & H)]; [left; by apply not_elem_of_cons|].
  right. exists (x :: l), r. split; [done|]. by apply not_elem_of_cons.
Qed.

(** The ends of a pattern that are no token. *)
Definition loose_end (tail : str) : Prop :=
  tail = [] ∨ tail = S_ "%" ∨ tail = S_ "%d" ∨ ∃ f, tail = S_ "%d{" ++ f ∧ "}"%char ∉ f.

(** Every pattern is a list of tokens and a loose end. *)
Lemma pattern_complete s : ∃ ts tail, s = render ts ++ tail ∧ canonical ts tail ∧ loose_end tail.
Proof.
  remember (length s) as n eqn:Hn. revert s Hn. induction n as [n IH] using lt_wf_ind. intros s ->.
  assert (∀ t rest, s = render_token t ++ rest → (length rest < length s)%nat → fits t rest →
    ∃ ts tail, s = render ts ++ tail ∧ canonical ts tail ∧ loose_end tail) as Hstep.
  { intros t rest Hs Hl Ht. destruct (IH _ Hl rest eq_refl) as (ts & tail & Hr & Hc & He).
    exists (t :: ts), tail. rewrite Hs, Hr in *. split_and!; [|split|done]; [|done|done].
    change (render (t :: ts)) with (render_token t ++ render ts). by rewrite <- (assoc_L (++)). }
  assert (∀ tail, s = tail → loose_end tail → ∃ ts tail, s = render ts ++ tail ∧ canonical ts tail ∧ loose_end tail)
    as Hend by (intros tail -> H; by exists [], tail).
  destruct s as [|c s]; [eapply Hend; [done|by left]|].
  destruct (decide (c = "%"%char)) as [->|Hc].
  2: { destruct (split_first "%"%char (c :: s)) as [H|(l & r & Heq & H)].
    - apply (Hstep (TText (c :: s)) []); [by rewrite app_nil_r|simpl; lia|by split_and!; [| |left]].
    - apply (Hstep (TText l) ("%"%char :: r)); [done| |].
      + rewrite Heq, length_app. destruct l; [by simplify_eq/=|simpl; lia].
      + split_and!; [by destruct l; simplify_eq/=|done|by right]. }
  destruct s as [|c s]; [eapply Hend; [done|right; by left]|].
  destruct (decide (c = "d"%char)) as [->|Hd]; [|apply (Hstep (TItem c) s); [done|simpl; lia|done]].
  destruct s as [|c s]; [eapply Hend; [done|right; right; by left]|].
  destruct (decide (c = "{"%char)) as [->|Hb].
  2: { apply (Hstep (TDate None) (c :: s)); [done|simpl; lia|]. split; [done|]. simpl. congruence. }
  destruct (split_first "}"%char s) as [H|(f & r & -> & H)].
  - apply (Hend (S_ "%d{" ++ s)); [done|]. right; right; right. by exists s.
  - apply (Hstep (TDate (Some f)) r); [|rewrite !length_cons, length_app; simpl; lia|done].
    simpl. by rewrite middle.
Qed.

(** C16. The parser of patterns reads every pattern, which is always a list of tokens of
    the documented grammar and perhaps a loose end ([pattern_complete]), as that list:
    the items are those of the tokens in order, where all dates share the formats of all
    dates one after the other; the error flag is set exactly when there is a letter the
    documentation does not list. A percent sign alone at the end is dropped without an
    error; an unclosed brace is an error and leaves no item; and a pattern that ends with
    [%d] makes the parser read behind the end of the string. *)
Theorem formatter_parse ts tail : canonical ts tail →
  let date := dates ts in
  let known := Forall (λ t, is_Some (token_item date t)) ts in
  (tail = [] ∨ tail = S_ "%" → ∃ f, Init (render ts ++ tail) = Ok f ∧ pattern_ f = render ts ++ tail ∧
    (error_ f = false ↔ known) ∧ (known → Some <$> items_ f = token_item date <$> ts)) ∧
  (∀ b, tail = S_ "%d{" ++ b → "}"%char ∉ b →
    Init (render ts ++ tail) = Ok (Formatter (render ts ++ tail) [] true)) ∧
  (tail = S_ "%d" → Init (render ts ++ tail) = Err UndefinedBehaviour).
Proof.
  intros Hc date known. set (pat := render ts ++ tail).
  destruct (parse_tokens ts (S (length pat)) [] tail (Parser [] [] [] true) [] [] Hc)
    as (fuel & p & Heq & (Hp & Hps & Hdf) & Hq & Hf); [done|by left|unfold pat; lia|].
  change (length []) with 0%nat in Heq. rewrite !app_nil_l in Heq. fold pat in Heq.
  rewrite app_nil_l in Hps. change ([] ++ dates ts) with date in Hdf.
  unfold Init. rewrite Heq. clear Heq. split_and!.
  - intros Ht. assert (∃ p', parse_loop fuel pat (length (render ts)) p = Ok (Some p') ∧
      patterns p' ++ flush (tmp p') = token_pattern <$> ts ∧ dateformat p' = date) as (p' & -> & Hps' & Hdf').
    { unfold pat. destruct Ht as [->| ->].
      - exists p. destruct fuel as [|fuel]; [lia|]. rewrite app_nil_r. simpl.
        by rewrite lookup_ge_None_2.
      - eexists. destruct fuel as [|[|fuel]]; simpl in Hf; [lia..|]. unfold S_. simpl list_ascii_of_string.
        rewrite step_percent by done. simpl. rewrite lookup_ge_None_2 by (rewrite length_app; simpl; lia).
        split; [reflexivity|]. simpl. split; [by rewrite app_nil_r|done]. }
    simpl. rewrite Hps', Hdf'. destruct (make_items_tokens date ts tail Hc) as [H1 H2].
    destruct (make_items date (token_pattern <$> ts)) as [items error]. simpl in H1, H2.
    eexists. split; [reflexivity|]. simpl. fold known in H1, H2. split_and!; [done| |intros K; by destruct (H1 K)].
    split; [|intros K; by destruct (H1 K)]. intros ->.
    destruct (decide (Forall (λ t, is_Some (token_item date t)) ts)); [done|]. by discriminate H2.
  - intros b -> Hb. destruct fuel as [|[|fuel]]; simpl in Hf; [lia..|]. unfold pat.
    change (S_ "%d{" ++ b) with ("%"%char :: "d"%char :: "{"%char :: b).
    rewrite step_percent, <- (length_snoc _ "%"%char), <- middle, step_d by done.
    rewrite <- (length_snoc _ "d"%char), <- middle, after_d_open by done. done.
  - intros ->. destruct fuel as [|[|fuel]]; simpl in Hf; [lia..|]. unfold pat.
    change (S_ "%d") with ["%"%char; "d"%char].
    rewrite step_percent, <- (length_snoc _ "%"%char), <- middle, step_d by done.
    rewrite <- (length_snoc _ "d"%char), <- middle, app_nil_r, after_d_end. done.
Qed.

(** ** Appenders, loggers and the manager *)

(** A [std::ofstream]: whether its file is open, and whether no operation has failed. *)
Record ofstream := Stream { is_open : bool; good : bool }.

Inductive AppenderKind :=
  | StdoutLogAppender
  | FileLogAppender (file_name_ : str) (file_stream_ : ofstream) (last_time_ : Z) (reopen_error_ : bool).

Record LogAppender := Appender {
  kind : AppenderKind;
  formatter_ : option LogFormatter;
  default_formatter_ : LogFormatter }.

Record Logger := mkLogger {
  name_ : str;
  level_ : Level;
  appenders_ : list nat;
  create_time_ : Z }.

(** The manager, the heap of appenders, and what was written: to the terminal, and to
    files. *)
Record Logs := mkLogs {
  loggers_ : gmap str Logger;
  heap : gmap nat LogAppender;
  next_id : nat;
  cout : list str;
  written : list (str * str) }.

Definition set_loggers (m : gmap str Logger) (s : Logs) : Logs :=
  mkLogs m (heap s) (next_id s) (cout s) (written s).
Definition store (id : nat) (a : LogAppender) (s : Logs) : Logs :=
  mkLogs (loggers_ s) (<[id := a]> (heap s)) (next_id s) (cout s) (written s).
Definition print (text : str) (s : Logs) : Logs :=
  mkLogs (loggers_ s) (heap s) (next_id s) (cout s ++ [text]) (written s).
Definition write_file (file text : str) (s : Logs) : Logs :=
  mkLogs (loggers_ s) (heap s) (next_id s) (cout s) (written s ++ [(file, text)]).

(** [new]: a fresh object. *)
Definition allocate (a : LogAppender) : M Logs nat := λ s,
  (Ok (next_id s), mkLogs (loggers_ s) (<[next_id s := a]> (heap s)) (S (next_id s)) (cout s) (written s)).

Definition deref (id : nat) : M Logs LogAppender := λ s,
  (match heap s !! id with Some a => Ok a | None => Err UndefinedBehaviour end, s).

(** [SetFormatter] and [GetFormatter]. *)
Definition SetFormatter (val : option LogFormatter) (a : LogAppender) : LogAppender :=
  Appender (kind a) val (default_formatter_ a).
Definition GetFormatter (a : LogAppender) : LogFormatter := default (default_formatter_ a) (formatter_ a).

(** The answers of the system in one call: whether a file can be opened for appending,
    and whether what the appender writes reaches it. *)
Record os := Os { open_ok : str → bool; write_ok : nat → bool; localtime_text : str → Z → str }.

Section os.
Context (o : os).

(** [close] and [open] of the stream. Closing a file that is not open fails, as does
    opening one that is; opening a file clears the failure. *)
Definition close (s : ofstream) : ofstream := Stream false (is_open s && good s).
Definition open (file : str) (s : ofstream) : ofstream :=
  if is_open s then Stream true false
  else if open_ok o file then Stream true true else Stream false false.

(** [FileLogAppender::Reopen]: the new stream and [reopen_error_]. *)
Definition Reopen (file : str) (s : ofstream) : ofstream * bool :=
  let s := if good s then close s else s in
  let s := open file s in
  (s, negb (good s)).

(** What [FileLogAppender] writes to [std::cout] when it cannot open its file, or when the
    stream has failed after it wrote to it; [std::endl] ends the line. *)
Definition reopen_message (file : str) : str := S_ "Reopen file " ++ file ++ S_ " error" ++ ["010"%char].
Definition format_message : str := S_ "[ERROR] FileLogAppender::log() Format error" ++ ["010"%char].

(** [Log] of the two classes. *)
Definition Appender_Log (id : nat) (event : LogEvent) : M Logs unit :=
  a ← deref id;
  match kind a with
  | StdoutLogAppender =>
      text ← mlift (Format (localtime_text o) (GetFormatter a) event);
      mmodify (print text)
  | FileLogAppender file stream last err =>
      let now := u64(e_time event) in
      let due := bool_decide (u64(last + 3) ≤ now) in
      let '(stream, last, err) :=
        if due then let '(stream, err) := Reopen file stream in (stream, now, err)
        else (stream, last, err) in
      mmodify (store id (Appender (FileLogAppender file stream last err) (formatter_ a) (default_formatter_ a)));;
      (if due && err then mmodify (print (reopen_message file)) else mret tt);;
      if err : bool then mret tt
      else
        text ← mlift (Format (localtime_text o) (GetFormatter a) event);
        if good stream then
          mmodify (write_file file text);;
          mmodify (store id (Appender (FileLogAppender file (Stream (is_open stream) (write_ok o id)) last err)
                               (formatter_ a) (default_formatter_ a)));;
          if write_ok o id then mret tt else mmodify (print format_message)
        else mmodify (print format_message)
  end.

(** [new FileLogAppender(file)] and [new StdoutLogAppender]. *)
Definition FileLogAppender_new (file : str) : M Logs nat :=
  f ← mlift (Init default_pattern);
  let '(stream, err) := Reopen file (Stream false true) in
  (if err : bool then mmodify (print (reopen_message file)) else mret tt);;
  allocate (Appender (FileLogAppender file stream 0 err) None f).

Definition StdoutLogAppender_new : M Logs nat :=
  f ← mlift (Init default_pattern);
  allocate (Appender StdoutLogAppender None f).

(** Loggers. [now] is what [GetElapsedMS] says. *)
Definition Logger_new (name : str) (now : Z) : Logger := mkLogger name INFO [] now.

Definition set_level (level : Level) (l : Logger) : Logger :=
  mkLogger (name_ l) level (appenders_ l) (create_time_ l).
Definition set_appenders (as_ : list nat) (l : Logger) : Logger :=
  mkLogger (name_ l) (level_ l) as_ (create_time_ l).

(** An update of the logger a name stands for. *)
Definition with_logger (name : str) (f : Logger → Logger) : M Logs unit := λ s,
  match loggers_ s !! name with
  | Some l => (Ok tt, set_loggers (<[name := f l]> (loggers_ s)) s)
  | None => (Err UndefinedBehaviour, s)
  end.

Definition SetLevel (name : str) (level : Level) : M Logs unit := with_logger name (set_level level).
Definition AddAppender (name : str) (appender : nat) : M Logs unit :=
  with_logger name (λ l, set_appenders (appenders_ l ++ [appender]) l).

(** The first element that is the pointer is erased. *)
Fixpoint erase_first (x : nat) (l : list nat) : list nat :=
  match l with [] => [] | y :: l => if decide (y = x) then l else y :: erase_first x l end.
Definition DelAppender (name : str) (appender : nat) : M Logs unit :=
  with_logger name (λ l, set_appenders (erase_first appender (appenders_ l)) l).
Definition ClearAppenders (name : str) : M Logs unit := with_logger name (set_appenders []).

Fixpoint log_all (ids : list nat) (event : LogEvent) : M Logs unit :=
  match ids with
  | [] => mret tt
  | id :: ids => Appender_Log id event;; log_all ids event
  end.

(** [Logger::Log]. *)
Definition Logger_Log (name : str) (event : LogEvent) : M Logs unit := λ s,
  match loggers_ s !! name with
  | None => (Err UndefinedBehaviour, s)
  | Some l => if decide (e_level event ≤ level_ l) then log_all (appenders_ l) event s else (Ok tt, s)
  end.

(** [LOG_LEVEL(logger, level) << ...], the event being what the macro and the stream make. *)
Definition LOG_LEVEL (name : str) (event : LogEvent) : M Logs unit := λ s,
  match loggers_ s !! name with
  | None => (Err UndefinedBehaviour, s)
  | Some l => if decide (e_level event ≤ level_ l) then Logger_Log name event s else (Ok tt, s)
  end.

(** [~LogEventWrap], for the macros that format: the event is logged when the full
    expression ends. *)
Definition LOG_FMT_LEVEL (name : str) (event : LogEvent) (formatted : option str) : M Logs unit := λ s,
  match loggers_ s !! name with
  | None => (Err UndefinedBehaviour, s)
  | Some l => if decide (e_level event ≤ level_ l) then Logger_Log name (VPrintf formatted event) s else (Ok tt, s)
  end.

Definition GetLogger (name : str) (now : Z) : M Logs str := λ s,
  match loggers_ s !! name with
  | Some _ => (Ok name, s)
  | None => (Ok name, set_loggers (<[name := Logger_new name now]> (loggers_ s)) s)
  end.

Definition root : str := S_ "root".

Definition LoggerManager_new (now : Z) : res Logs :=
  let s := mkLogs {[root := Logger_new root now]} ∅ 0 [] [] in
  match (a ← StdoutLogAppender_new; AddAppender root a) s with
  | (Ok _, s) => Ok s
  | (Err e, _) => Err e
  end.

(** ** The configuration of loggers *)

Record LogAppenderDefine := mkAppenderDefine { type : Z; pattern : str; file : str }.
Record LogDefine := mkDefine { d_name : str; d_level : Level; d_appenders : list LogAppenderDefine }.

(** [operator==] of [LogDefine]: the appenders are compared with themselves. *)
Definition define_eq (x y : LogDefine) : bool :=
  bool_decide (d_name x = d_name y) && bool_decide (d_level x = d_level y) && true.

(** A [std::set] is the list of its elements in the order of their names, and [find]
    looks for the name. *)
Fixpoint find_define (l : list LogDefine) (name : str) : option LogDefine :=
  match l with
  | [] => None
  | d :: l => if decide (d_name d = name) then Some d else find_define l name
  end.

(** One appender of a definition; [daemon] is whether the program has the option [d]. *)
Definition add_appender (daemon : bool) (name : str) (a : LogAppenderDefine) : M Logs unit :=
  ap ← (if decide (type a = 1) then p ← FileLogAppender_new (file a); mret (Some (Some p))
        else if decide (type a = 2) then
          if daemon then mret None else p ← StdoutLogAppender_new; mret (Some (Some p))
        else mret (Some None));
  match ap with
  | None => mret tt
  | Some ap =>
      f ← mlift (Init (if decide (pattern a ≠ []) then pattern a else default_pattern));
      match ap with
      | None => mthrow UndefinedBehaviour
      | Some p => o ← deref p; mmodify (store p (SetFormatter (Some f) o));; AddAppender name p
      end
  end.

Fixpoint add_appenders (daemon : bool) (name : str) (l : list LogAppenderDefine) : M Logs unit :=
  match l with
  | [] => mret tt
  | a :: l => add_appender daemon name a;; add_appenders daemon name l
  end.

(** One definition of the new value: a logger that is modified leaves the pointer null. *)
Definition configure (daemon : bool) (now : Z) (old_value : list LogDefine) (i : LogDefine) : M Logs unit :=
  logger ← match find_define old_value (d_name i) with
           | None => n ← GetLogger (d_name i) now; mret (Some (Some n))
           | Some it => if define_eq i it then mret None
                        else GetLogger (d_name i) now;; mret (Some None)
           end;
  match logger with
  | None => mret tt
  | Some None => mthrow UndefinedBehaviour
  | Some (Some n) =>
      SetLevel n (d_level i);; ClearAppenders n;; add_appenders daemon n (d_appenders i)
  end.

Fixpoint configure_all (daemon : bool) (now : Z) (old_value l : list LogDefine) : M Logs unit :=
  match l with
  | [] => mret tt
  | i :: l => configure daemon now old_value i;; configure_all daemon now old_value l
  end.

(** A logger that is no longer defined. *)
Definition disable (now : Z) (new_value : list LogDefine) (i : LogDefine) : M Logs unit :=
  match find_define new_value (d_name i) with
  | Some _ => mret tt
  | None => n ← GetLogger (d_name i) now; SetLevel n NOTSET;; ClearAppenders n
  end.

Fixpoint disable_all (now : Z) (new_value l : list LogDefine) : M Logs unit :=
  match l with
  | [] => mret tt
  | i :: l => disable now new_value i;; disable_all now new_value l
  end.

(** The listener of [LogIniter]; [event] is the one it logs to the root logger. *)
Definition on_log_config (daemon : bool) (now : Z) (event : LogEvent) (old_value new_value : list LogDefine)
    : M Logs unit :=
  LOG_LEVEL root event;;
  configure_all daemon now old_value new_value;;
  disable_all now new_value old_value.

End os.

(** ** What the listener does *)

(** [s'] has the objects of [s], unchanged, and perhaps new ones; the terminal got nothing
    but messages about files that cannot be opened. *)
Definition extends (s s' : Logs) : Prop :=
  (next_id s ≤ next_id s')%nat ∧ (∃ files, cout s' = cout s ++ (reopen_message <$> files)) ∧ written s' = written s ∧
  ∀ id, (id < next_id s)%nat → heap s' !! id = heap s !! id.

Lemma extends_refl s : extends s s.
Proof. split_and!; [done|exists []; by rewrite app_nil_r|done..]. Qed.

Lemma extends_loggers m s : extends s (set_loggers m s).
Proof. split_and!; [done|exists []; by rewrite app_nil_r|done..]. Qed.

Lemma extends_trans s1 s2 s3 : extends s1 s2 → extends s2 s3 → extends s1 s3.
Proof.
  intros (H1 & [fs Hc] & Hw & H2) (H3 & [fs' Hc'] & Hw' & H4). split_and!; [lia| |congruence|].
  { exists (fs ++ fs'). by rewrite Hc', Hc, fmap_app, (assoc_L (++)). }
  intros id Hid. rewrite H4 by lia. by apply H2.
Qed.

(** The formatter an appender definition asks for. *)
Definition pattern_of (a : LogAppenderDefine) : str :=
  if decide (pattern a ≠ []) then pattern a else default_pattern.

(** An appender made for a definition: its class, its file and its formatter. *)
Definition built (a : LogAppenderDefine) (ap : LogAppender) : Prop :=
  (∃ f, Init (pattern_of a) = Ok f ∧ formatter_ ap = Some f) ∧
  match kind ap with
  | StdoutLogAppender => type a = 2
  | FileLogAppender f _ _ _ => type a = 1 ∧ f = file a
  end.

(** The definitions that get an appender: a daemon has none on the terminal. *)
Definition kept (daemon : bool) (l : list LogAppenderDefine) : list LogAppenderDefine :=
  filter (λ a, type a = 1 ∨ daemon = false) l.

Definition usable (a : LogAppenderDefine) : Prop :=
  (type a = 1 ∨ type a = 2) ∧ ∃ f, Init (pattern_of a) = Ok f.

(** The logger [name] has the level and, one for each definition, the appenders. *)
Definition configured (daemon : bool) (s : Logs) (d : LogDefine) : Prop :=
  ∃ l, loggers_ s !! d_name d = Some l ∧ level_ l = d_level d ∧
    Forall2 (λ id a, ∃ ap, heap s !! id = Some ap ∧ (id < next_id s)%nat ∧ built a ap)
      (appenders_ l) (kept daemon (d_appenders d)).

Lemma default_pattern_ok : ∃ f, Init default_pattern = Ok f.
Proof. eexists. vm_compute. reflexivity. Qed.

#[local] Opaque Init.

Lemma with_logger_ok name f s l : loggers_ s !! name = Some l →
  with_logger name f s = (Ok tt, set_loggers (<[name := f l]> (loggers_ s)) s).
Proof. intros H. unfold with_logger. by rewrite H. Qed.

Lemma allocate_ok a s : ∃ s', allocate a s = (Ok (next_id s), s') ∧ extends s s' ∧ loggers_ s' = loggers_ s ∧
  heap s' !! next_id s = Some a ∧ next_id s' = S (next_id s).
Proof.
  eexists. split; [reflexivity|]. split; [|split_and!; [done|apply lookup_insert_eq|done]].
  split_and!; simpl; [lia|exists []; by rewrite app_nil_r|done|]. intros id Hid. by rewrite lookup_insert_ne by lia.
Qed.

Lemma store_top a s s' : extends s s' → extends s (store (next_id s) a s').
Proof.
  intros (H1 & Hc & Hw & H2). split_and!; simpl; try done. intros id Hid.
  rewrite lookup_insert_ne by lia. by apply H2.
Qed.

(** The new object of a definition. *)
Lemma new_appender o a s : type a = 1 ∨ type a = 2 → ∃ s' ap,
  (if decide (type a = 1) then FileLogAppender_new o (file a) else StdoutLogAppender_new) s = (Ok (next_id s), s') ∧
  extends s s' ∧ loggers_ s' = loggers_ s ∧ heap s' !! next_id s = Some ap ∧ next_id s' = S (next_id s) ∧
  match kind ap with
  | StdoutLogAppender => type a = 2
  | FileLogAppender f _ _ _ => type a = 1 ∧ f = file a
  end.
Proof.
  intros Ht. destruct default_pattern_ok as [f Hf].
  destruct (decide (type a = 1)) as [H1|H1].
  - unfold FileLogAppender_new. rewrite bind_mlift, Hf. destruct (Reopen o _ _) as [st err].
    set (s0 := if err then print (reopen_message (file a)) s else s).
    assert (extends s s0 ∧ loggers_ s0 = loggers_ s ∧ next_id s0 = next_id s) as (He0 & Hl0 & Hn0).
    { unfold s0. destruct err; (split; [|split; reflexivity]); [|apply extends_refl].
      split; [reflexivity|]. split; [exists [file a]; reflexivity|]. by split. }
    destruct (allocate_ok (Appender (FileLogAppender (file a) st 0 err) None f) s0)
      as (s' & Hs & He & Hl & Hh & Hn).
    rewrite Hn0 in Hs, Hh, Hn. rewrite Hl0 in Hl. apply (extends_trans _ _ _ He0) in He.
    eexists s', _. split.
    { erewrite bind_ok; [exact Hs|]. unfold s0. destruct err; reflexivity. }
    split; [exact He|]. split; [exact Hl|].
    split; [exact Hh|]. split; [exact Hn|]. by split.
  - unfold StdoutLogAppender_new. rewrite bind_mlift, Hf.
    destruct (allocate_ok (Appender StdoutLogAppender None f) s) as (s' & Hs & He & Hl & Hh & Hn).
    eexists s', _. split; [exact Hs|]. split; [exact He|]. split; [exact Hl|].
    split; [exact Hh|]. split; [exact Hn|]. destruct Ht as [Ht|Ht]; [by destruct H1|exact Ht].
Qed.

(** One appender: it is added to the logger, or the definition is passed over. *)
Lemma add_appender_ok o daemon name a s l : usable a → loggers_ s !! name = Some l →
  ∃ s', add_appender o daemon name a s = (Ok tt, s') ∧ extends s s' ∧
  if decide (type a = 1 ∨ daemon = false) then
    loggers_ s' = <[name := set_appenders (appenders_ l ++ [next_id s]) l]> (loggers_ s) ∧
    ∃ ap, heap s' !! next_id s = Some ap ∧ (next_id s < next_id s')%nat ∧ built a ap
  else s' = s.
Proof.
  intros [Ht [f Hf]] Hl. destruct (decide (type a = 1 ∨ daemon = false)) as [Hk|Hk].
  2: { exists s. split; [|by split; [apply extends_refl|]]. unfold add_appender.
    assert (type a ≠ 1) as H1 by (intros ?; apply Hk; by left). destruct Ht as [Ht|Ht]; [by destruct H1|].
    rewrite (decide_False (P := type a = 1)), (decide_True (P := type a = 2)) by assumption. destruct daemon; [reflexivity|]. destruct Hk. by right. }
  destruct (new_appender o a s Ht) as (s1 & ap & Hnew & He & Hl1 & Hh & Hn & Hkind).
  assert (add_appender o daemon name a s = (AddAppender name (next_id s))
    (store (next_id s) (SetFormatter (Some f) ap) s1)) as ->.
  { unfold add_appender. fold (pattern_of a). rewrite Hf. destruct (decide (type a = 1)).
    - erewrite bind_ok by (erewrite bind_ok by exact Hnew; reflexivity). cbv beta iota.
      rewrite bind_mlift. unfold deref. erewrite bind_ok by (rewrite Hh; reflexivity). reflexivity.
    - destruct Ht as [Ht|Ht]; [by destruct n|]. destruct Hk as [Hk|Hk]; [by destruct n|]. subst daemon.
      rewrite (decide_True (P := type a = 2)) by exact Ht. cbv iota.
      erewrite bind_ok by (erewrite bind_ok by exact Hnew; reflexivity). cbv beta iota.
      rewrite bind_mlift. unfold deref. erewrite bind_ok by (rewrite Hh; reflexivity). reflexivity. }
  unfold AddAppender. rewrite (with_logger_ok _ _ _ l) by by rewrite <- Hl, <- Hl1.
  eexists. split; [reflexivity|]. split; [exact (store_top _ _ _ He)|]. simpl. rewrite Hl1.
  split; [done|]. exists (SetFormatter (Some f) ap).
  split_and!; [apply lookup_insert_eq|lia|]. split; [by exists f|]. exact Hkind.
Qed.

Definition made (s : Logs) (id : nat) (a : LogAppenderDefine) : Prop :=
  ∃ ap, heap s !! id = Some ap ∧ (id < next_id s)%nat ∧ built a ap.

Lemma made_extends s s' id a : extends s s' → made s id a → made s' id a.
Proof.
  intros (H1 & _ & _ & H2) (ap & Hh & Hid & Hb). exists ap. split_and!; [|lia|done]. by rewrite H2.
Qed.

Lemma configured_extends daemon s s' d : extends s s' → loggers_ s' !! d_name d = loggers_ s !! d_name d →
  configured daemon s d → configured daemon s' d.
Proof.
  intros He Hl (l & H1 & H2 & H3). exists l. rewrite Hl. split_and!; [done..|].
  apply (Forall2_impl _ _ _ _ H3). intros id a. by apply made_extends.
Qed.

Lemma set_appenders_same l : set_appenders (appenders_ l) l = l.
Proof. by destruct l. Qed.

Lemma kept_cons daemon a l : kept daemon (a :: l) =
  (if decide (type a = 1 ∨ daemon = false) then [a] else []) ++ kept daemon l.
Proof. unfold kept. rewrite filter_cons. by destruct (decide _). Qed.

Lemma add_appenders_ok o daemon name l : ∀ s lg, Forall usable l → loggers_ s !! name = Some lg →
  ∃ s' ids, add_appenders o daemon name l s = (Ok tt, s') ∧ extends s s' ∧
    loggers_ s' = <[name := set_appenders (appenders_ lg ++ ids) lg]> (loggers_ s) ∧
    Forall2 (made s') ids (kept daemon l).
Proof.
  induction l as [|a l IH]; intros s lg Hu Hl.
  { exists s, []. split; [done|]. split; [apply extends_refl|]. split; [|constructor].
    by rewrite app_nil_r, set_appenders_same, insert_id. }
  inversion Hu as [|? ? Ha Hu']; subst.
  destruct (add_appender_ok o daemon name a s lg Ha Hl) as (s1 & Hs1 & He1 & Hc).
  cbn [add_appenders]. rewrite (bind_ok _ _ _ _ _ Hs1). rewrite kept_cons.
  destruct (decide (type a = 1 ∨ daemon = false)) as [Hk|Hk].
  - destruct Hc as [Hl1 Hm]. destruct (IH s1 _ Hu' ltac:(rewrite Hl1; apply lookup_insert_eq))
      as (s2 & ids & Hs2 & He2 & Hl2 & Hm2). exists s2, (next_id s :: ids).
    split; [exact Hs2|]. split; [by eapply extends_trans|]. split.
    + rewrite Hl2, Hl1, insert_insert_eq. unfold set_appenders. simpl. by rewrite <- (assoc_L (++)).
    + constructor; [|done]. by apply (made_extends s1).
  - subst s1. destruct (IH s lg Hu' Hl) as (s2 & ids & Hs2 & He2 & Hl2 & Hm2). by exists s2, ids.
Qed.

Lemma find_define_name l name d : find_define l name = Some d → d_name d = name ∧ d ∈ l.
Proof.
  induction l as [|x l IH]; simpl; [done|]. destruct (decide (d_name x = name)) as [Hx|Hx].
  - intros ?; simplify_eq. split; [done|]. by left.
  - intros H. destruct (IH H). split; [done|]. by right.
Qed.

Lemma find_define_None l name : find_define l name = None → name ∉ d_name <$> l.
Proof.
  induction l as [|x l IH]; simpl; [intros _; apply not_elem_of_nil|].
  destruct (decide (d_name x = name)) as [Hx|Hx]; [done|]. intros H. apply not_elem_of_cons. auto.
Qed.

Lemma find_define_in l d : NoDup (d_name <$> l) → d ∈ l → find_define l (d_name d) = Some d.
Proof.
  induction l as [|x l IH]; intros Hn Hd; [by apply not_elem_of_nil in Hd|].
  rewrite fmap_cons in Hn. apply NoDup_cons in Hn as [Hx Hn]. simpl.
  apply elem_of_cons in Hd as [->|Hd]; [by rewrite decide_True|].
  rewrite decide_False; [by apply IH|]. intros Heq. apply Hx. rewrite Heq. by apply list_elem_of_fmap_2.
Qed.

(** A logger is there after [GetLogger]; nothing else changes. *)
Lemma GetLogger_ok name now s : ∃ s' l, GetLogger name now s = (Ok name, s') ∧ extends s s' ∧
  loggers_ s' !! name = Some l ∧ (∀ n, n ≠ name → loggers_ s' !! n = loggers_ s !! n) ∧
  match loggers_ s !! name with Some l' => l = l' ∧ s' = s | None => l = Logger_new name now end.
Proof.
  unfold GetLogger. destruct (loggers_ s !! name) as [l|] eqn:Hl.
  - exists s, l. split; [done|]. split; [apply extends_refl|]. done.
  - eexists _, _. split; [reflexivity|]. split; [apply extends_loggers|]. split; [apply lookup_insert_eq|].
    split; [|done]. intros n Hn. by apply lookup_insert_ne.
Qed.

(** A definition that is new, or is the same as before. *)
Lemma configure_ok o daemon now old i s : Forall usable (d_appenders i) →
  (∀ it, find_define old (d_name i) = Some it → d_level i = d_level it) →
  ∃ s', configure o daemon now old i s = (Ok tt, s') ∧ extends s s' ∧
    (∀ n, n ≠ d_name i → loggers_ s' !! n = loggers_ s !! n) ∧
    match find_define old (d_name i) with
    | Some _ => loggers_ s' !! d_name i = loggers_ s !! d_name i
    | None => configured daemon s' i
    end.
Proof.
  intros Hu Hsame. unfold configure. destruct (find_define old (d_name i)) as [it|] eqn:Hf.
  - assert (define_eq i it = true) as ->.
    { unfold define_eq. destruct (find_define_name _ _ _ Hf) as [-> _].
      rewrite (Hsame _ eq_refl). by rewrite !bool_decide_eq_true_2. }
    exists s. split; [done|]. split; [apply extends_refl|]. done.
  - destruct (GetLogger_ok (d_name i) now s) as (s1 & l & Hg & He & Hl & Hn & _).
    erewrite bind_ok by (erewrite bind_ok by exact Hg; reflexivity). cbv beta iota.
    unfold SetLevel, ClearAppenders. rewrite (bind_ok _ _ _ _ _ (with_logger_ok _ _ _ _ Hl)).
    erewrite bind_ok by (apply with_logger_ok; apply lookup_insert_eq).
    set (s2 := set_loggers _ _). destruct (add_appenders_ok o daemon (d_name i) (d_appenders i) s2
      (set_appenders [] (set_level (d_level i) l)) Hu) as (s3 & ids & Hs3 & He3 & Hl3 & Hm).
    { apply lookup_insert_eq. }
    exists s3. split; [exact Hs3|]. split; [eapply extends_trans; [exact He|exact He3]|].
    rewrite Hl3. split.
    + intros n Hne. unfold s2. simpl. rewrite !lookup_insert_ne by done. by apply Hn.
    + unfold configured. rewrite Hl3, lookup_insert_eq. eexists. split; [done|]. split; [done|exact Hm].
Qed.

Definition unchanged (old : list LogDefine) (i : LogDefine) : Prop :=
  ∀ it, find_define old (d_name i) = Some it → d_level i = d_level it.

Lemma configure_all_ok o daemon now old l : ∀ s, NoDup (d_name <$> l) →
  Forall (λ i, Forall usable (d_appenders i)) l → Forall (unchanged old) l →
  ∃ s', configure_all o daemon now old l s = (Ok tt, s') ∧ extends s s' ∧
    (∀ i, i ∈ l → find_define old (d_name i) = None → configured daemon s' i) ∧
    (∀ n, (n ∈ d_name <$> l → find_define old n ≠ None) → loggers_ s' !! n = loggers_ s !! n).
Proof.
  induction l as [|i l IH]; intros s Hn Hu Hs.
  { exists s. split; [done|]. split; [apply extends_refl|]. split; [|done].
    intros i Hi. by apply not_elem_of_nil in Hi. }
  rewrite fmap_cons in *. apply NoDup_cons in Hn as [Hi Hn].
  inversion Hu; inversion Hs; subst.
  destruct (configure_ok o daemon now old i s) as (s1 & Hs1 & He1 & Ho1 & Hc1); [done..|].
  destruct (IH s1) as (s2 & Hs2 & He2 & Hc2 & Ho2); [done..|].
  exists s2. cbn [configure_all]. rewrite (bind_ok _ _ _ _ _ Hs1). split; [exact Hs2|].
  split; [by eapply extends_trans|].
  assert (loggers_ s2 !! d_name i = loggers_ s1 !! d_name i) as Hsame by by apply Ho2.
  split.
  - intros j Hj Hf. apply elem_of_cons in Hj as [->|Hj]; [|by apply Hc2].
    rewrite Hf in Hc1. by apply (configured_extends _ s1).
  - intros n Hf. destruct (decide (n = d_name i)) as [->|Hne].
    + rewrite Hsame. destruct (find_define old (d_name i)); [done|]. destruct Hf; [by left|done].
    + rewrite Ho2; [by apply Ho1|]. intros H. apply Hf. by right.
Qed.

Definition disabled (s : Logs) (n : str) : Prop :=
  ∃ l, loggers_ s !! n = Some l ∧ level_ l = NOTSET ∧ appenders_ l = [].

Lemma disable_all_ok now new l : ∀ s, ∃ s', disable_all now new l s = (Ok tt, s') ∧ extends s s' ∧
  (∀ n, n ∈ d_name <$> l → find_define new n = None → disabled s' n) ∧
  (∀ n, (n ∈ d_name <$> l → find_define new n ≠ None) → loggers_ s' !! n = loggers_ s !! n).
Proof.
  induction l as [|i l IH]; intros s.
  { exists s. split; [done|]. split; [apply extends_refl|]. split; [|done].
    intros n Hi. by apply not_elem_of_nil in Hi. }
  cbn [disable_all]. unfold disable. rewrite fmap_cons. destruct (find_define new (d_name i)) as [j|] eqn:Hf.
  - destruct (IH s) as (s' & Hs & He & H1 & H2). exists s'. split; [exact Hs|]. split; [done|]. split.
    + intros n Hn Hnone. apply elem_of_cons in Hn as [->|Hn]; [congruence|by apply H1].
    + intros n Hn. apply H2. intros ?. apply Hn. by right.
  - destruct (GetLogger_ok (d_name i) now s) as (s1 & lg & Hg & He & Hl & Hn & _).
    set (s2 := set_loggers (<[d_name i := set_appenders [] (set_level NOTSET lg)]> (loggers_ s1)) s1).
    assert ((n ← GetLogger (d_name i) now; SetLevel n NOTSET;; ClearAppenders n) s = (Ok tt, s2)) as Hd.
    { rewrite (bind_ok _ _ _ _ _ Hg). unfold SetLevel, ClearAppenders.
      rewrite (bind_ok _ _ _ _ _ (with_logger_ok _ _ _ _ Hl)).
      erewrite with_logger_ok by apply lookup_insert_eq. unfold s2, set_loggers. simpl.
      by rewrite insert_insert_eq. }
    rewrite (bind_ok _ _ _ _ _ Hd). destruct (IH s2) as (s' & Hs & He' & H1 & H2).
    exists s'. split; [exact Hs|]. split; [eapply extends_trans; [exact He|exact He']|]. split.
    + intros n Hin Hnone. destruct (decide (n ∈ d_name <$> l)) as [Hl'|Hl']; [by apply H1|].
      apply elem_of_cons in Hin as [->|Hin]; [|done].
      unfold disabled. rewrite H2 by done. unfold s2. simpl. rewrite lookup_insert_eq. by eexists.
    + intros n Hin. assert (n ≠ d_name i) as Hne by (intros ->; apply Hin; [by left|done]).
      rewrite H2 by (intros ?; apply Hin; by right). unfold s2. simpl.
      rewrite lookup_insert_ne by done. by apply Hn.
Qed.

Lemma configure_all_crashes o daemon now old l : ∀ s, NoDup (d_name <$> l) →
  Forall (λ i, Forall usable (d_appenders i)) l → ¬ Forall (unchanged old) l →
  (configure_all o daemon now old l s).1 = Err UndefinedBehaviour.
Proof.
  induction l as [|i l IH]; intros s Hn Hu Hs; [destruct Hs; constructor|].
  rewrite fmap_cons in Hn. apply NoDup_cons in Hn as [_ Hn]. inversion Hu; subst. cbn [configure_all].
  assert (unchanged old i ∨ ∃ it, find_define old (d_name i) = Some it ∧ d_level i ≠ d_level it)
    as [Hi|(it & Hf & Hne)].
  { unfold unchanged. destruct (find_define old (d_name i)) as [it|]; [|by left].
    destruct (decide (d_level i = d_level it)); [left; intros; by simplify_eq|right; eauto]. }
  - destruct (configure_ok o daemon now old i s) as (s1 & Hs1 & _); [done..|].
    rewrite (bind_ok _ _ _ _ _ Hs1). apply IH; [done..|]. intros ?. apply Hs. by constructor.
  - destruct (GetLogger_ok (d_name i) now s) as (s1 & lg & Hg & _).
    rewrite (bind_err _ _ _ s1 UndefinedBehaviour); [done|].
    unfold configure. rewrite Hf. assert (define_eq i it = false) as ->.
    { unfold define_eq. by rewrite (bool_decide_eq_false_2 (d_level i = d_level it)), andb_false_r. }
    erewrite bind_ok by (erewrite bind_ok by exact Hg; reflexivity). done.
Qed.

Lemma listener_spec o daemon now event old new s s1 :
  LOG_LEVEL o root event s = (Ok tt, s1) → NoDup (d_name <$> new) → NoDup (d_name <$> old) →
  Forall (λ i, Forall usable (d_appenders i)) new →
  (Forall (unchanged old) new →
    ∃ s', on_log_config o daemon now event old new s = (Ok tt, s') ∧ extends s1 s' ∧
    ∀ name, match find_define new name, find_define old name with
            | Some d, None => configured daemon s' d
            | None, Some _ => disabled s' name
            | _, _ => loggers_ s' !! name = loggers_ s1 !! name
            end) ∧
  (¬ Forall (unchanged old) new →
    (on_log_config o daemon now event old new s).1 = Err UndefinedBehaviour).
Proof.
  intros Hlog Hn Hno Hu. unfold on_log_config. rewrite (bind_ok _ _ _ _ _ Hlog). cbv beta. split; intros Hs.
  - destruct (configure_all_ok o daemon now old new s1 Hn Hu Hs) as (s2 & Hs2 & He2 & Hc & Ho).
    destruct (disable_all_ok now new old s2) as (s3 & Hs3 & He3 & Hd & Ho3).
    exists s3. rewrite (bind_ok _ _ _ _ _ Hs2). split; [exact Hs3|].
    split; [by eapply extends_trans|]. intros name.
    destruct (find_define new name) as [d|] eqn:Hfn.
    + assert (loggers_ s3 !! name = loggers_ s2 !! name) as Hl by (apply Ho3; congruence).
      destruct (find_define_name _ _ _ Hfn) as [<- Hin].
      destruct (find_define old (d_name d)) as [it|] eqn:Hfo.
      * rewrite Hl. apply Ho. congruence.
      * apply (configured_extends _ s2); [done|done|by apply Hc].
    + destruct (find_define old name) as [it|] eqn:Hfo.
      * apply Hd; [|done]. destruct (find_define_name _ _ _ Hfo) as [<- Hin]. by apply list_elem_of_fmap_2.
      * rewrite Ho3. { apply Ho. intros Hin. by apply find_define_None in Hfn. }
        intros Hin. by apply find_define_None in Hfo.
  - pose proof (configure_all_crashes o daemon now old new s1 Hn Hu Hs) as Hc.
    rewrite bind_unfold. destruct (configure_all o daemon now old new s1) as [[?|e] s2]; simpl in Hc; by simplify_eq.
Qed.

(** When the configuration of the loggers changes, and no logger that was configured
    before gets another level, the listener gives every new logger its level and one
    appender of the right class, file and format for each of its definitions, in order
    and without the terminal in a daemon; it silences every logger that is no longer
    defined, and leaves all others as they are, also those whose appenders were
    changed. If a logger that was configured before gets another level, the
    listener follows a null pointer. *)
Theorem listener_exact o daemon now event old new s s1 :
  LOG_LEVEL o root event s = (Ok tt, s1) → NoDup (d_name <$> new) → NoDup (d_name <$> old) →
  Forall (λ i, Forall usable (d_appenders i)) new →
  (Forall (unchanged old) new →
    ∃ s', on_log_config o daemon now event old new s = (Ok tt, s') ∧ extends s1 s' ∧
    ∀ name, match find_define new name, find_define old name with
            | Some d, None => configured daemon s' d
            | None, Some _ => disabled s' name
            | _, _ => loggers_ s' !! name = loggers_ s1 !! name
            end) ∧
  (¬ Forall (unchanged old) new →
    (on_log_config o daemon now event old new s).1 = Err UndefinedBehaviour).
Proof. apply listener_spec. Qed.

(** ** Writing *)

(** An appender that can write, when the system lets it. *)
Definition healthy (o : os) (id : nat) (a : LogAppender) : Prop :=
  match kind a with
  | StdoutLogAppender => True
  | FileLogAppender f st _ err => st = Stream true true ∧ err = false ∧ open_ok o f = true ∧ write_ok o id = true
  end.

Definition all_healthy (o : os) (s : Logs) (ids : list nat) : Prop :=
  ∀ id, id ∈ ids → ∃ a, heap s !! id = Some a ∧ healthy o id a.

(** What one appender adds to the outputs. *)
Definition output (a : LogAppender) (text : str) : list str * list (str * str) :=
  match kind a with
  | StdoutLogAppender => ([text], [])
  | FileLogAppender f _ _ _ => ([], [(f, text)])
  end.

(** Two appenders with the same class, file and formatters. *)
Definition same_target (a b : LogAppender) : Prop :=
  formatter_ a = formatter_ b ∧ default_formatter_ a = default_formatter_ b ∧
  match kind a, kind b with
  | StdoutLogAppender, StdoutLogAppender => True
  | FileLogAppender f _ _ _, FileLogAppender g _ _ _ => f = g
  | _, _ => False
  end.

Lemma Appender_Log_ok o id event s a text : heap s !! id = Some a → healthy o id a →
  Format (localtime_text o) (GetFormatter a) event = Ok text →
  ∃ s' a', Appender_Log o id event s = (Ok tt, s') ∧ heap s' = <[id := a']> (heap s) ∧ healthy o id a' ∧
    same_target a a' ∧ loggers_ s' = loggers_ s ∧
    cout s' = cout s ++ (output a text).1 ∧ written s' = written s ++ (output a text).2.
Proof.
  intros Ha Hh Ht. unfold Appender_Log, deref. erewrite bind_ok by (rewrite Ha; reflexivity).
  unfold healthy, output in *. destruct a as [k f df]. cbn [kind] in *. destruct k as [|file st last err].
  - rewrite bind_mlift, Ht. eexists _, _. split; [reflexivity|]. simpl.
    split; [symmetry; by apply insert_id|]. by rewrite app_nil_r.
  - destruct Hh as (-> & -> & Ho & Hw).
    cbv zeta. set (due := bool_decide _).
    assert (∃ last', (if due then
      let '(stream, err) := Reopen o file (Stream true true) in (stream, u64(e_time event), err)
      else (Stream true true, last, false)) = (Stream true true, last', false)) as [last' ->].
    { unfold Reopen, open, close. simpl. rewrite Ho. simpl. by destruct due; eexists. }
    rewrite bind_mmodify, andb_false_r, bind_mret. cbv iota. rewrite bind_mlift. unfold GetFormatter in *. cbn [formatter_ default_formatter_] in *.
    rewrite Ht. cbn [good]. rewrite !bind_mmodify, Hw.
    eexists _, _. split; [reflexivity|]. simpl. split; [apply insert_insert_eq|].
    split; [by split_and!|]. by rewrite app_nil_r.
Qed.

Lemma healthy_same_heap o s a' id ids : all_healthy o s ids → healthy o id a' →
  ∀ s', heap s' = <[id := a']> (heap s) → all_healthy o s' ids.
Proof.
  intros Hall Ha' s' Hs' j Hj. rewrite Hs'. destruct (decide (j = id)) as [->|Hne].
  - rewrite lookup_insert_eq. eauto.
  - rewrite lookup_insert_ne by done. auto.
Qed.

(** The output of a list of appenders, one after the other. *)
Fixpoint outputs (s : Logs) (text : LogFormatter → str) (ids : list nat) : list str * list (str * str) :=
  match ids with
  | [] => ([], [])
  | id :: ids =>
      let o := match heap s !! id with Some a => output a (text (GetFormatter a)) | None => ([], []) end in
      (o.1 ++ (outputs s text ids).1, o.2 ++ (outputs s text ids).2)
  end.

Lemma same_formatter a b : same_target a b → GetFormatter b = GetFormatter a.
Proof. unfold GetFormatter. by intros (-> & -> & _). Qed.

Lemma outputs_same s s' text ids id a a' : heap s !! id = Some a → heap s' = <[id := a']> (heap s) →
  same_target a a' → outputs s' text ids = outputs s text ids.
Proof.
  intros Ha Hs' Hst. pose proof Hst as (_ & _ & Hk). induction ids as [|j ids IH]; [done|]. simpl. rewrite IH, Hs'.
  destruct (decide (j = id)) as [->|Hne]; [|by rewrite lookup_insert_ne].
  rewrite lookup_insert_eq, Ha, (same_formatter _ _ Hst). unfold output. destruct (kind a), (kind a'); naive_solver.
Qed.

Lemma log_all_ok o event text all ids : ∀ s, all_healthy o s all → (∀ id, id ∈ ids → id ∈ all) →
  (∀ id a, id ∈ all → heap s !! id = Some a →
    Format (localtime_text o) (GetFormatter a) event = Ok (text (GetFormatter a))) →
  ∃ s', log_all o ids event s = (Ok tt, s') ∧ cout s' = cout s ++ (outputs s text ids).1 ∧
    written s' = written s ++ (outputs s text ids).2 ∧ loggers_ s' = loggers_ s ∧ all_healthy o s' all ∧
    (∀ id a, id ∈ all → heap s' !! id = Some a →
      Format (localtime_text o) (GetFormatter a) event = Ok (text (GetFormatter a))).
Proof.
  induction ids as [|id ids IH]; intros s Hh Hsub Ht.
  { exists s. simpl. by rewrite !app_nil_r. }
  assert (id ∈ all) as Hid by (apply Hsub; by left). destruct (Hh id Hid) as (a & Ha & Hah).
  destruct (Appender_Log_ok o id event s a _ Ha Hah (Ht id a Hid Ha))
    as (s1 & a' & Hs1 & Hheap & Hah' & Hsame & Hlg & Hc & Hw).
  destruct (IH s1) as (s2 & Hs2 & Hc2 & Hw2 & Hl2 & Hh2 & Ht2).
  { by eapply healthy_same_heap. }
  { intros j Hj. apply Hsub. by right. }
  { intros j b Hj. rewrite Hheap. destruct (decide (j = id)) as [->|Hne].
    - rewrite lookup_insert_eq. intros ?; simplify_eq. rewrite (same_formatter _ _ Hsame). by apply (Ht id).
    - rewrite lookup_insert_ne by done. by apply Ht. }
  exists s2. cbn [log_all]. rewrite (bind_ok _ _ _ _ _ Hs1). split; [exact Hs2|].
  rewrite (outputs_same s s1 text ids id a a' Ha Hheap Hsame) in Hc2, Hw2.
  simpl. rewrite Ha, Hc2, Hc, Hw2, Hw, <- !(assoc_L (++)), Hl2, Hlg. done.
Qed.

(** C40. A logger hands an event to its appenders, in order, exactly when the level of the
    event is enabled. When the system lets them write, everything arrives: each appender
    on the terminal and each on a file writes the event once, in its own format. *)
Theorem Log_exact o name event s l text : loggers_ s !! name = Some l →
  all_healthy o s (appenders_ l) →
  (∀ id a, id ∈ appenders_ l → heap s !! id = Some a →
    Format (localtime_text o) (GetFormatter a) event = Ok (text (GetFormatter a))) →
  ∃ s', Logger_Log o name event s = (Ok tt, s') ∧
  if decide (e_level event ≤ level_ l) then
    cout s' = cout s ++ (outputs s text (appenders_ l)).1 ∧
    written s' = written s ++ (outputs s text (appenders_ l)).2 ∧
    loggers_ s' = loggers_ s ∧ all_healthy o s' (appenders_ l)
  else s' = s.
Proof.
  intros Hl Hh Ht. unfold Logger_Log. rewrite Hl. destruct (decide (e_level event ≤ level_ l)); [|by eexists].
  destruct (log_all_ok o event text (appenders_ l) (appenders_ l) s) as (s' & H); [done..|].
  exists s'. destruct H as (H1 & H2 & H3 & H4 & H5 & _). done.
Qed.

(** The test of a macro is that of the logger: a macro logs what a call of [Log] would. *)
Theorem macros_log o name event formatted s :
  LOG_LEVEL o name event s = Logger_Log o name event s ∧
  LOG_FMT_LEVEL o name event formatted s = LOG_LEVEL o name (VPrintf formatted event) s.
Proof.
  assert (e_level (VPrintf formatted event) = e_level event) as He by (by destruct formatted).
  unfold LOG_FMT_LEVEL, LOG_LEVEL, Logger_Log. rewrite He.
  destruct (loggers_ s !! name); [|done]. by case_decide.
Qed.

#[local] Transparent Init.

(** A file appender whose stream failed while its file was open. *)
Definition broken (a : LogAppender) : Prop :=
  match kind a with
  | StdoutLogAppender => False
  | FileLogAppender _ st _ _ => st = Stream true false
  end.

(** After a failed write a file appender never writes again: [Reopen] closes a stream
    only when it has not failed, and a stream whose file is open cannot open it. *)
Lemma write_error_final o id event s a : heap s !! id = Some a → broken a →
  ∃ a', heap (Appender_Log o id event s).2 !! id = Some a' ∧ broken a' ∧
    written (Appender_Log o id event s).2 = written s.
Proof.
  intros Ha Hb. unfold Appender_Log, deref. erewrite bind_ok by (rewrite Ha; reflexivity).
  unfold broken in *. destruct a as [k f df]. cbn [kind] in *. destruct k as [|file st last err]; [done|]. subst st.
  cbv zeta. set (due := bool_decide _).
  assert (∃ last' err', (if due then
      let '(stream, err) := Reopen o file (Stream true false) in (stream, u64(e_time event), err)
      else (Stream true false, last, err)) = (Stream true false, last', err')) as (last' & err' & ->).
  { unfold Reopen, open. simpl. destruct due; by eexists _, _. }
  rewrite bind_mmodify. destruct err'.
  - rewrite andb_true_r. eexists. destruct due; simpl; (split; [apply lookup_insert_eq|done]).
  - rewrite andb_false_r, bind_mret, bind_mlift. destruct (Format _ _ _); simpl; eexists; (split; [apply lookup_insert_eq|done]).
Qed.

(** Every level is read back from its name, in capitals or in small letters. *)
Lemma level_roundtrip : Forall (λ '(level, name), ToString level = name ∧ FromString name = level ∧
  FromString (ToLower name) = level) level_names.
Proof. repeat constructor; vm_compute; done. Qed.

(** ** Edge cases *)

(** The note says that case does not matter. *)
Example level_mixed_case : FromString (S_ "Error") = NOTSET.
Proof. vm_compute. done. Qed.

Example pattern_ends_with_d : Init (S_ "%m%d") = Err UndefinedBehaviour.
Proof. vm_compute. done. Qed.

Example pattern_percent_at_end : Init (S_ "%m%") = Ok (Formatter (S_ "%m%") [MessageFormatItem] false).
Proof. vm_compute. done. Qed.

(** Two dates share one format, the two formats one after the other. *)
Example two_dates : Init (S_ "%d{%H}%d{%M}") =
  Ok (Formatter (S_ "%d{%H}%d{%M}") [DateTimeFormatItem (S_ "%H%M"); DateTimeFormatItem (S_ "%H%M")] false).
Proof. vm_compute. done. Qed.

(** An unknown letter is an error; what was before it is still written. *)
Example unknown_letter : Init (S_ "%m%x%p") = Ok (Formatter (S_ "%m%x%p") [MessageFormatItem] true).
Proof. vm_compute. done. Qed.

(** A change of the appenders alone is no change. *)
Example appenders_ignored :
  define_eq (mkDefine root INFO [mkAppenderDefine 2 [] []]) (mkDefine root INFO []) = true.
Proof. done. Qed.

(** ** Witnesses *)

Definition sample_os : os := Os (λ _, true) (λ _, true) (λ _ _, S_ "12:00").
Definition sample_event : LogEvent :=
  Event INFO (S_ "hello") (S_ "a.cc") 7 5 1 0 100 (S_ "main") root.
Definition sample_logs : Logs :=
  match LoggerManager_new 0 with Ok s => s | Err _ => mkLogs ∅ ∅ 0 [] [] end.
Definition sample_define : LogDefine := mkDefine (S_ "net") DEBUG [mkAppenderDefine 2 (S_ "%p: %m%n") []].

Lemma formatter_parse_witness : ∃ f, Init (S_ "%d{%H} %m") = Ok f ∧ error_ f = false ∧
  Some <$> items_ f =
    [Some (DateTimeFormatItem (S_ "%H")); Some (StringFormatItem (S_ " ")); Some MessageFormatItem].
Proof.
  set (ts := [TDate (Some (S_ "%H")); TText (S_ " "); TItem "m"%char]).
  assert (canonical ts []) as Hc.
  { split; [|split; [|split; [|exact I]]]; simpl.
    - apply (bool_decide_unpack _). vm_compute. exact I.
    - split; [discriminate|]. split; [apply (bool_decide_unpack _); vm_compute; exact I|]. right. reflexivity.
    - discriminate. }
  assert (Forall (λ t, is_Some (token_item (dates ts) t)) ts) as Hk by (repeat constructor; eexists; reflexivity).
  destruct (proj1 (formatter_parse ts [] Hc) (or_introl eq_refl)) as (f & Hf & _ & He & Hi).
  exists f. split; [exact Hf|]. split; [by apply He|]. rewrite Hi; [|exact Hk]. reflexivity.
Defined.

Lemma Log_exact_witness : ∃ s',
  Logger_Log sample_os root sample_event sample_logs = (Ok tt, s') ∧ length (cout s') = 1%nat.
Proof.
  destruct (Log_exact sample_os root sample_event sample_logs (mkLogger root INFO [0%nat] 0)
    (λ f, match Format (localtime_text sample_os) f sample_event with Ok t => t | Err _ => [] end))
    as (s' & Hs & H).
  - vm_compute. reflexivity.
  - intros id Hid. apply list_elem_of_singleton in Hid as ->. eexists. split; [vm_compute; reflexivity|exact I].
  - intros id a Hid Ha. apply list_elem_of_singleton in Hid as ->. vm_compute in Ha. simplify_eq. vm_compute. reflexivity.
  - exists s'. split; [exact Hs|]. rewrite decide_True in H by (vm_compute; discriminate).
    destruct H as [-> _]. vm_compute. reflexivity.
Defined.

Lemma listener_exact_witness : ∃ s',
  on_log_config sample_os false 9 sample_event [] [sample_define] sample_logs = (Ok tt, s') ∧
  configured false s' sample_define.
Proof.
  destruct (LOG_LEVEL sample_os root sample_event sample_logs) as [r s1] eqn:Hlog.
  assert (r = Ok tt) as -> by (change r with (r, s1).1; rewrite <- Hlog; vm_compute; reflexivity).
  assert (Forall (λ i, Forall usable (d_appenders i)) [sample_define]) as Hu.
  { apply Forall_singleton, Forall_singleton. split; [by right|]. eexists. vm_compute. reflexivity. }
  destruct (proj1 (listener_exact sample_os false 9 sample_event [] [sample_define] sample_logs s1 Hlog
    ltac:(apply NoDup_singleton) ltac:(apply NoDup_nil_2)
    Hu)) as (s' & Hs & _ & H).
  - constructor; [|constructor]. intros it Hit. discriminate.
  - exists s'. split; [exact Hs|]. exact (H (S_ "net")).
Defined.

End Log.
