(* ===== verification/Config.v ===== *)
(** * The configuration system (config/config.h, config/config.cc)

    [Module Config]: typed variables with listeners, the table of all variables, and
    loading YAML. A type [T] of the program is a tag; its values, its equality and its
    conversions to and from text are arguments ([Convert] has those of the containers), as
    is the YAML library ([Class Yaml]). Listeners are callbacks on a world of their own; what they do while
    they run is part of the model, and calls back into the variable, which would lock it
    twice, are not. Variables are never removed, so a pointer to one is its name.

    Theorems: well-typed programs do not go wrong ([config_typed]); a
    listener that mirrors the value stays in step with it through every sequence of calls
    in which no listener fails ([mirror_in_step]); loading a document
    gives every variable the values at its path, in order, and changes nothing else
    ([LoadFromYaml_exact]); [Lookup] creates a variable once and for one type
    ([Lookup_exact]); a directory that did not change is not loaded again
    ([LoadFromConfDir_again]). *)

From Stdlib Require Import Ascii String.
From S2P Require Import Prelude StringUtil.
Import StringUtil.

(** What the program uses of a YAML node. A document is a finite tree. *)
Class Yaml (node : Type) := {
  IsMap : node → bool;
  IsScalar : node → bool;
  Scalar : node → str;
  entries : node → list (node * node);
  dump : node → str;
  size : node → nat;
  entries_size n k v : (k, v) ∈ entries n → (size v < size n)%nat
}.

Module Config.

Local Open Scope Z_scope.

Section config.
(** Types, values, equality and conversions; [None] is an exception. *)
Context {T : Type} `{EqDecision T} {V W : Type}.
Context (eqb : T → V → V → bool) (FromStr : T → str → option V) (ToStr : T → V → option str).

(** A listener: the old and the new value, and its effect on the world. *)
Definition on_change_cb : Type := V → V → M W unit.

Record ConfigVar := Var {
  name_ : str;
  description_ : str;
  type_ : T;
  val_ : V;
  cbs_ : list (Z * on_change_cb) }.

(** The table, the counter of listeners of every type, and the world. *)
Record State := mkState {
  datas : gmap str ConfigVar;
  s_fun_id : T → Z;
  world : W }.

(** The constructor: the name is put in lower case. *)
Definition ConfigVar_new (name : str) (t : T) (default_value : V) (description : str) : ConfigVar :=
  Var (ToLower name) description t default_value [].

Definition set_val (v : V) (x : ConfigVar) : ConfigVar :=
  Var (name_ x) (description_ x) (type_ x) v (cbs_ x).
Definition set_cbs (l : list (Z * on_change_cb)) (x : ConfigVar) : ConfigVar :=
  Var (name_ x) (description_ x) (type_ x) (val_ x) l.

Definition put (name : str) (x : ConfigVar) (s : State) : State :=
  mkState (<[name := x]> (datas s)) (s_fun_id s) (world s).
Definition set_world (w : W) (s : State) : State := mkState (datas s) (s_fun_id s) w.

(** The variable a pointer stands for. *)
Definition var (name : str) : M State ConfigVar := λ s,
  (match datas s !! name with Some x => Ok x | None => Err UndefinedBehaviour end, s).

Definition GetValue (name : str) : M State V := x ← var name; mret (val_ x).

(** The listeners are called in the order of their keys. *)
Fixpoint notify (cbs : list (Z * on_change_cb)) (old_value new_value : V) : M W unit :=
  match cbs with
  | [] => mret tt
  | (_, cb) :: cbs => cb old_value new_value;; notify cbs old_value new_value
  end.

Definition SetValue (name : str) (v : V) : M State unit :=
  x ← var name;
  if eqb (type_ x) v (val_ x) then mret tt
  else
    (λ s, let '(r, w) := notify (cbs_ x) (val_ x) v (world s) in (r, set_world w s));;
    mmodify (put name (set_val v x)).

(** Whether [catch (std::exception &)] catches a fault. *)
Definition is_exception (e : fault) : bool :=
  match e with
  | OutOfRange | LogicError | InvalidArgument | BadFunctionCall | BadLexicalCast => true
  | AssertFail | UndefinedBehaviour | OutOfFuel => false
  end.

Definition catch {A} (m : M State A) (handler : M State A) : M State A := λ s,
  match m s with
  | (Err e, s') => if is_exception e then handler s' else (Err e, s')
  | r => r
  end.

Definition FromString (name : str) (val : str) : M State bool :=
  x ← var name;
  catch (match FromStr (type_ x) val with
         | None => mthrow BadLexicalCast
         | Some v => SetValue name v
         end) (mret tt);;
  mret false.

Definition ToString (name : str) : M State str :=
  x ← var name;
  mret (default [] (ToStr (type_ x) (val_ x))).

(** [cbs_[key] = cb] in the order of the keys. *)
Fixpoint insert_cb (key : Z) (cb : on_change_cb) (l : list (Z * on_change_cb)) : list (Z * on_change_cb) :=
  match l with
  | [] => [(key, cb)]
  | (k, c) :: l' => if decide (key < k) then (key, cb) :: l
                    else if decide (key = k) then (key, cb) :: l'
                    else (k, c) :: insert_cb key cb l'
  end.

Definition AddListener (name : str) (cb : on_change_cb) : M State Z :=
  x ← var name;
  s ← mget;
  let id := u64(s_fun_id s (type_ x) + 1) in
  mput (mkState (datas s) (λ t, if decide (t = type_ x) then id else s_fun_id s t) (world s));;
  mmodify (put name (set_cbs (insert_cb id cb (cbs_ x)) x));;
  mret id.

Definition DelListener (name : str) (key : Z) : M State unit :=
  x ← var name;
  mmodify (put name (set_cbs (filter (λ c, c.1 ≠ key) (cbs_ x)) x)).

Definition GetListener (name : str) (key : Z) : M State (option on_change_cb) :=
  x ← var name;
  mret (snd <$> head (filter (λ c, c.1 = key) (cbs_ x))).

Definition ClearListener (name : str) : M State unit :=
  x ← var name;
  mmodify (put name (set_cbs [] x)).

(** ** The table *)

Definition alphabet : str := S_ "abcdefghikjlmnopqrstuvwxyz._012345678".
Definition valid (name : str) : bool :=
  match find_first_not_of name alphabet with None => true | Some _ => false end.

(** [Lookup] with a default value; [None] is the null pointer. *)
Definition Lookup (t : T) (name : str) (default_value : V) (description : str) : M State (option str) := λ s,
  match datas s !! name with
  | Some x => (Ok (if decide (type_ x = t) then Some name else None), s)
  | None =>
      if valid name then
        (Ok (Some name), put name (ConfigVar_new name t default_value description) s)
      else (Err InvalidArgument, s)
  end.

Definition Lookup_existing (t : T) (name : str) : M State (option str) := λ s,
  (Ok (match datas s !! name with
       | Some x => if decide (type_ x = t) then Some name else None
       | None => None
       end), s).

Definition LookupBase (name : str) : M State (option str) := λ s,
  (Ok (match datas s !! name with Some _ => Some name | None => None end), s).

(** ** Loading *)

Context {node : Type} `{!Yaml node}.

Fixpoint ListAllMember (fuel : nat) (prefix : str) (n : node) (output : list (str * node))
    : res (list (str * node)) :=
  match fuel with
  | O => Err OutOfFuel
  | S fuel =>
      if negb (valid prefix) then Ok output
      else
        let output := output ++ [(prefix, n)] in
        if IsMap n then
          foldl (λ o it, o ← o;
            ListAllMember fuel
              (if decide (prefix = []) then Scalar it.1 else prefix ++ S_ "." ++ Scalar it.1)
              it.2 o) (Ok output) (entries n)
        else Ok output
  end.

Fixpoint load_nodes (l : list (str * node)) : M State unit :=
  match l with
  | [] => mret tt
  | (key, n) :: l =>
      (if decide (key = []) then mret tt
       else
         let key := ToLower key in
         v ← LookupBase key;
         match v with
         | None => mret tt
         | Some v => FromString v (if IsScalar n then Scalar n else dump n);; mret tt
         end);;
      load_nodes l
  end.

(** A path is at most as deep as the document. *)
Definition LoadFromYaml (root : node) : M State unit :=
  all_nodes ← mlift (ListAllMember (S (size root)) [] root []);
  load_nodes all_nodes.

(** [LoadFromConfDir]: the files are those [ListAllFile] finds; [lstat] gives the time of
    the last change, and [LoadFile] is the YAML library's, [None] an exception. *)
Record Files := mkFiles { config : State; s_file2modifytime : gmap str Z }.

Definition load_file (force : bool) (lstat : str → option Z) (LoadFile : str → option node)
    (i : str) : M Files unit := λ f,
  match lstat i with
  | None => (Err UndefinedBehaviour, f)
  | Some mtime =>
      if negb force && bool_decide (default 0 (s_file2modifytime f !! i) = u64(mtime)) then (Ok tt, f)
      else
        let times := <[i := u64(mtime)]> (s_file2modifytime f) in
        match LoadFile i with
        | None => (Ok tt, mkFiles (config f) times)
        | Some root =>
            let '(r, s) := LoadFromYaml root (config f) in
            (match r with
             | Ok _ => Ok tt
             | Err e => if is_exception e then Ok tt else Err e
             end, mkFiles s times)
        end
  end.

Fixpoint LoadFromConfDir (force : bool) (lstat : str → option Z) (LoadFile : str → option node)
    (files : list str) : M Files unit :=
  match files with
  | [] => mret tt
  | i :: files => load_file force lstat LoadFile i;; LoadFromConfDir force lstat LoadFile files
  end.

(** [Visit]: a callback on every variable, in the order of the table. *)
Fixpoint Visit_all (cb : ConfigVar → M W unit) (l : list ConfigVar) : M W unit :=
  match l with
  | [] => mret tt
  | x :: l => cb x;; Visit_all cb l
  end.

Definition Visit (cb : ConfigVar → M W unit) : M State unit := λ s,
  let '(r, w) := Visit_all cb ((map_to_list (datas s)).*2) (world s) in (r, set_world w s).

(** ** Calls in which no listener fails *)

Definition succeeds (cb : on_change_cb) : Prop := ∀ o n w, ∃ w', cb o n w = (Ok tt, w').

(** No listener of any variable fails. *)
Definition calm (s : State) : Prop :=
  ∀ n x, datas s !! n = Some x → Forall (λ c, succeeds c.2) (cbs_ x).

Lemma notify_ok cbs o n : Forall (λ c, succeeds c.2) cbs → ∀ w, ∃ w', notify cbs o n w = (Ok tt, w').
Proof.
  induction 1 as [|[k cb] cbs Hcb _ IH]; intros w; [by eexists|]. simpl in Hcb.
  destruct (Hcb o n w) as [w1 H1]. destruct (IH w1) as [w2 H2]. exists w2.
  cbn [notify]. by rewrite (bind_ok _ _ _ _ _ H1).
Qed.

(** The value after an assignment. *)
Definition assign (t : T) (old v : V) : V := if eqb t v old then old else v.
Definition assign_text (t : T) (old : V) (text : str) : V :=
  match FromStr t text with Some v => assign t old v | None => old end.

Lemma set_val_same x : set_val (val_ x) x = x.
Proof. by destruct x. Qed.

Lemma var_ok s name x : datas s !! name = Some x → var name s = (Ok x, s).
Proof. intros H. unfold var. by rewrite H. Qed.

(** [SetValue] and [FromString] change the value, and the world as the listeners do. *)
Lemma SetValue_ok s name x v : datas s !! name = Some x → Forall (λ c, succeeds c.2) (cbs_ x) →
  ∃ w, SetValue name v s = (Ok tt, set_world w (put name (set_val (assign (type_ x) (val_ x) v) x) s)) ∧
    (if eqb (type_ x) v (val_ x) then w = world s else notify (cbs_ x) (val_ x) v (world s) = (Ok tt, w)).
Proof.
  intros Hx Hc. unfold SetValue. rewrite (bind_ok _ _ _ _ _ (var_ok _ _ _ Hx)). unfold assign.
  destruct (eqb (type_ x) v (val_ x)).
  - exists (world s). split; [|done]. unfold put, set_world. simpl. rewrite set_val_same, insert_id by done.
    by destruct s.
  - destruct (notify_ok _ (val_ x) v Hc (world s)) as [w Hw]. exists w. split; [|done].
    erewrite bind_ok by (rewrite Hw; reflexivity). reflexivity.
Qed.

Lemma FromString_ok s name x text : datas s !! name = Some x → Forall (λ c, succeeds c.2) (cbs_ x) →
  ∃ w, FromString name text s =
    (Ok false, set_world w (put name (set_val (assign_text (type_ x) (val_ x) text) x) s)) ∧
    match FromStr (type_ x) text with
    | Some v => if eqb (type_ x) v (val_ x) then w = world s else notify (cbs_ x) (val_ x) v (world s) = (Ok tt, w)
    | None => w = world s
    end.
Proof.
  intros Hx Hc. unfold FromString. rewrite (bind_ok _ _ _ _ _ (var_ok _ _ _ Hx)). unfold assign_text.
  destruct (FromStr (type_ x) text) as [v|].
  - destruct (SetValue_ok s name x v Hx Hc) as (w & Hs & Hw). exists w. split; [|done].
    erewrite bind_ok; [reflexivity|]. unfold catch. by rewrite Hs.
  - exists (world s). split; [|done]. erewrite bind_ok by reflexivity.
    unfold put, set_world. simpl. rewrite set_val_same, insert_id by done. by destruct s.
Qed.

(** ** The paths of a document *)

Definition child (prefix : str) (k : node) : str :=
  if decide (prefix = []) then Scalar k else prefix ++ S_ "." ++ Scalar k.

(** [member prefix n p m]: below [n], which is at [prefix], the node [m] is at [p], and
    all prefixes on the way are valid. *)
Inductive member : str → node → str → node → Prop :=
  | member_here prefix n : valid prefix = true → member prefix n prefix n
  | member_below prefix n k v p m : valid prefix = true → IsMap n = true → (k, v) ∈ entries n →
      member (child prefix k) v p m → member prefix n p m.

(** [walk prefix n l]: the nodes below [n], each before those below it and the entries of
    a map in their order, once for every path that leads to them. *)
Inductive walk : str → node → list (str * node) → Prop :=
  | walk_refused prefix n : valid prefix = false → walk prefix n []
  | walk_leaf prefix n : valid prefix = true → IsMap n = false → walk prefix n [(prefix, n)]
  | walk_map prefix n ls : valid prefix = true → IsMap n = true →
      Forall2 (λ (e : node * node) (l : list (str * node)), walk (child prefix e.1) e.2 l) (entries n) ls →
      walk prefix n ((prefix, n) :: concat ls).

Lemma ListAllMember_ok fuel : ∀ prefix n output, (size n < fuel)%nat → ∃ l,
  ListAllMember fuel prefix n output = Ok (output ++ l) ∧ walk prefix n l ∧ ∀ p m, (p, m) ∈ l ↔ member prefix n p m.
Proof.
  induction fuel as [|fuel IH]; intros prefix n output Hs; [lia|]. cbn [ListAllMember].
  destruct (valid prefix) eqn:Hv; cbn [negb].
  2: { exists []. split; [by rewrite app_nil_r|]. split; [by constructor|]. intros p m.
    split; [by intros ?%not_elem_of_nil|]. intros H. inversion H; congruence. }
  destruct (IsMap n) eqn:Hm.
  2: { exists [(prefix, n)]. split; [done|]. split; [by constructor|]. intros p m. rewrite list_elem_of_singleton. split.
    - intros ?; simplify_eq. by constructor.
    - intros H. inversion H; [done|congruence]. }
  assert (∀ es output, (∀ e, e ∈ es → e ∈ entries n) → ∃ ls,
    foldl (λ o it, o ← o; ListAllMember fuel (child prefix it.1) it.2 o) (Ok output) es = Ok (output ++ concat ls) ∧
    Forall2 (λ e l, walk (child prefix e.1) e.2 l) es ls ∧ ∀ p m, (p, m) ∈ concat ls ↔ ∃ k v, (k, v) ∈ es ∧ member (child prefix k) v p m) as Hes.
  { induction es as [|[k v] es IHes]; intros out Hsub.
    { exists []. split; [by rewrite app_nil_r|]. split; [constructor|]. intros p m.
      split; [by intros ?%not_elem_of_nil|]. intros (? & ? & ?%not_elem_of_nil & _). done. }
    assert ((k, v) ∈ entries n) as Hin by (apply Hsub; by left). apply entries_size in Hin.
    destruct (IH (child prefix k) v out ltac:(lia)) as (l1 & Hl1 & Hw1 & H1).
    destruct (IHes (out ++ l1)) as (l2 & Hl2 & Hw2 & H2); [intros e He; apply Hsub; by right|].
    exists (l1 :: l2). cbn [foldl concat]. simpl. rewrite Hl1. rewrite Hl2. split; [by rewrite (assoc_L (++))|].
    split; [by constructor|].
    intros p m. rewrite elem_of_app, H1, H2. split.
    - intros [H|(k' & v' & Hk & H)]; [exists k, v|exists k', v']; (split; [|done]); by constructor.
    - intros (k' & v' & Hk & H). apply elem_of_cons in Hk as [?|Hk]; [simplify_eq; by left|].
      right. by exists k', v'. }
  destruct (Hes (entries n) (output ++ [(prefix, n)])) as (ls & Hl & Hw & H); [done|].
  exists ((prefix, n) :: concat ls). unfold child in Hl. cbv zeta. rewrite Hl. split; [by rewrite <- (assoc_L (++))|].
  split; [by constructor|].
  intros p m. rewrite elem_of_cons, H. split.
  - intros [?|(k & v & Hk & Hmem)]; [simplify_eq; by constructor|by eapply member_below].
  - intros Hmem. inversion Hmem; subst; [by left|]. right. eauto.
Qed.

Lemma member_valid prefix n p m : member prefix n p m → valid p = true.
Proof. by induction 1. Qed.

Lemma valid_lower p : valid p = true → ToLower p = p.
Proof.
  unfold valid. intros Hv. pose proof (find_first_not_of_spec p alphabet) as H. revert Hv H.
  destruct (find_first_not_of p alphabet) as [b|]; [discriminate|]. intros _ H.
  induction H as [|c p Hc _ IH]; [done|]. unfold ToLower in *. rewrite fmap_cons, IH. f_equal.
  assert (Forall (λ c, tolower c = c) alphabet) as Hall by (apply (bool_decide_unpack _); vm_compute; exact I).
  rewrite Forall_forall in Hall. by apply Hall.
Qed.

(** The text a variable is set from. *)
Definition node_text (n : node) : str := if IsScalar n then Scalar n else dump n.

(** The texts a list of nodes holds for the variable [n]. *)
Definition texts (n : str) (l : list (str * node)) : list str :=
  (λ pm, node_text pm.2) <$> filter (λ pm, pm.1 = n ∧ pm.1 ≠ []) l.

Definition loaded (l : list (str * node)) (n : str) (x : ConfigVar) : ConfigVar :=
  set_val (foldl (assign_text (type_ x)) (val_ x) (texts n l)) x.

Lemma loaded_cons pm l n x : loaded (pm :: l) n x = loaded l n (loaded [pm] n x).
Proof.
  unfold loaded. assert (texts n (pm :: l) = texts n [pm] ++ texts n l) as ->.
  { unfold texts. by rewrite <- fmap_app, <- filter_app. }
  rewrite foldl_app. done.
Qed.

Lemma calm_put s name x v w : calm s → datas s !! name = Some x → calm (set_world w (put name (set_val v x) s)).
Proof.
  intros Hc Hx n y. simpl. destruct (decide (n = name)) as [->|Hn].
  - rewrite lookup_insert_eq. intros ?; simplify_eq. simpl. by apply (Hc name).
  - rewrite lookup_insert_ne by done. apply Hc.
Qed.

Lemma load_nodes_ok l : ∀ s, calm s → Forall (λ pm, valid pm.1 = true) l → ∃ s',
  load_nodes l s = (Ok tt, s') ∧ calm s' ∧ ∀ n, datas s' !! n = loaded l n <$> datas s !! n.
Proof.
  induction l as [|[p m] l IH]; intros s Hc Hv.
  { exists s. split_and!; [done..|]. intros n. destruct (datas s !! n) as [x|]; [|done].
    simpl. unfold loaded. simpl. by rewrite set_val_same. }
  inversion Hv as [|? ? Hp Hv']; subst. simpl in Hp. cbn [load_nodes].
  assert (∃ s1, (if decide (p = []) then mret tt
       else let key := ToLower p in v ← LookupBase key;
         match v with None => mret tt
         | Some v => FromString v (if IsScalar m then Scalar m else dump m);; mret tt end) s = (Ok tt, s1) ∧
    calm s1 ∧ ∀ n, datas s1 !! n = loaded [(p, m)] n <$> datas s !! n) as (s1 & Hs1 & Hc1 & Hd1).
  { cbv zeta. rewrite valid_lower by done. destruct (decide (p = [])) as [->|Hne].
    - exists s. split_and!; [done..|]. intros n. destruct (datas s !! n) as [x|]; [|done]. simpl.
      unfold loaded, texts. rewrite filter_cons_False by (simpl; tauto). simpl. by rewrite set_val_same.
    - assert (LookupBase p s = (Ok (match datas s !! p with Some _ => Some p | None => None end), s)) as Hlb by done.
      rewrite (bind_ok _ _ _ _ _ Hlb). destruct (datas s !! p) as [x|] eqn:Hx.
      + destruct (FromString_ok s p x (node_text m) Hx (Hc _ _ Hx)) as (w & Hs & _).
        eexists. split. { erewrite bind_ok by exact Hs. reflexivity. }
        split; [by apply calm_put|]. intros n. simpl. destruct (decide (n = p)) as [->|Hnp].
        * rewrite lookup_insert_eq, Hx. simpl. unfold loaded, texts.
          rewrite filter_cons_True by done. done.
        * rewrite lookup_insert_ne by done. destruct (datas s !! n) as [y|]; [|done]. simpl.
          unfold loaded, texts. rewrite filter_cons_False by (simpl; naive_solver). simpl. by rewrite set_val_same.
      + exists s. split; [done|]. split; [done|].
        intros n. destruct (datas s !! n) as [y|] eqn:Hy; [|done]. simpl. unfold loaded, texts.
        rewrite filter_cons_False by (simpl; naive_solver). simpl. by rewrite set_val_same. }
  rewrite (bind_ok _ _ _ _ _ Hs1). destruct (IH s1 Hc1 Hv') as (s2 & Hs2 & Hc2 & Hd2).
  exists s2. split_and!; [done..|]. intros n. rewrite Hd2, Hd1. destruct (datas s !! n) as [x|]; [|done].
  simpl. f_equal. symmetry. apply loaded_cons.
Qed.

(** C12. Loading a document, when no listener fails, assigns to every variable the texts
    at its path one after the other, in the order of the document, and changes no other
    variable: the paths are the keys joined by dots, as far as they are valid names. A text
    that does not convert changes nothing, and loading goes on: [FromString] catches
    the exception that its documentation promises ([config.h:361]). Nor does a value equal to
    the present one. *)
Theorem LoadFromYaml_exact root s : calm s → ∃ l s',
  LoadFromYaml root s = (Ok tt, s') ∧ walk [] root l ∧ (∀ p m, (p, m) ∈ l ↔ member [] root p m) ∧
  (∀ n x, datas s !! n = Some x →
    datas s' !! n = Some (set_val (foldl (assign_text (type_ x)) (val_ x) (texts n l)) x)) ∧
  (∀ n, datas s !! n = None → datas s' !! n = None) ∧ calm s'.
Proof.
  intros Hc. destruct (ListAllMember_ok (S (size root)) [] root []) as (l & Hl & Hw & Hm); [lia|].
  destruct (load_nodes_ok l s Hc) as (s' & Hs & Hc' & Hd).
  { apply Forall_forall. intros [p m] Hpm. apply Hm in Hpm. by eapply member_valid. }
  exists l, s'. unfold LoadFromYaml. rewrite bind_mlift, Hl. split_and!; [done..| | |done].
  - intros n x Hx. by rewrite Hd, Hx.
  - intros n Hx. by rewrite Hd, Hx.
Qed.

(** ** A listener that mirrors the value *)

Section mirror.
Context (mirror : W → V).

(** A listener that keeps the mirror equal to the new value, and one that does not
    touch it. *)
Definition follows (cb : on_change_cb) : Prop := ∀ o n w, ∃ w', cb o n w = (Ok tt, w') ∧ mirror w' = n.
Definition neutral (cb : on_change_cb) : Prop := ∀ o n w, ∃ w', cb o n w = (Ok tt, w') ∧ mirror w' = mirror w.

(** The mirror shows the value of the variable [name], which at least one of its
    listeners sees to; no other listener fails or touches it. *)
Definition in_step (name : str) (s : State) : Prop :=
  (∃ x, datas s !! name = Some x ∧ mirror (world s) = val_ x ∧
    Forall (λ c, follows c.2 ∨ neutral c.2) (cbs_ x) ∧ Exists (λ c, follows c.2) (cbs_ x)) ∧
  ∀ n x, n ≠ name → datas s !! n = Some x → Forall (λ c, neutral c.2) (cbs_ x).

Inductive call :=
  | CSetValue (name : str) (v : V)
  | CFromString (name : str) (text : str)
  | CLoadFromYaml (root : node).

Definition run (c : call) : M State unit :=
  match c with
  | CSetValue name v => SetValue name v
  | CFromString name text => FromString name text;; mret tt
  | CLoadFromYaml root => LoadFromYaml root
  end.

Fixpoint run_all (cs : list call) : M State unit :=
  match cs with
  | [] => mret tt
  | c :: cs => run c;; run_all cs
  end.

(** A call names a variable that exists. *)
Definition names_variable (s : State) (c : call) : Prop :=
  match c with
  | CSetValue name _ | CFromString name _ => is_Some (datas s !! name)
  | CLoadFromYaml _ => True
  end.

Lemma follows_succeeds cb : follows cb → succeeds cb.
Proof. intros H o n w. destruct (H o n w) as (w' & Hw & _). by exists w'. Qed.

Lemma neutral_succeeds cb : neutral cb → succeeds cb.
Proof. intros H o n w. destruct (H o n w) as (w' & Hw & _). by exists w'. Qed.

Lemma in_step_calm name s : in_step name s → calm s.
Proof.
  intros [(x & Hx & _ & Hf & _) Ho] n y Hy. destruct (decide (n = name)) as [->|Hn].
  - simplify_eq. apply (Forall_impl _ _ _ Hf). intros c [?|?]; [by apply follows_succeeds|by apply neutral_succeeds].
  - apply (Forall_impl _ _ _ (Ho n y Hn Hy)). intros c. apply neutral_succeeds.
Qed.

Lemma notify_neutral cbs o n w w' : Forall (λ c, neutral c.2) cbs →
  notify cbs o n w = (Ok tt, w') → mirror w' = mirror w.
Proof.
  intros H. revert w. induction H as [|[k cb] cbs Hcb _ IH]; intros w; cbn [notify]; [by intros [= ->]|].
  simpl in Hcb. destruct (Hcb o n w) as (w1 & H1 & Hm). rewrite (bind_ok _ _ _ _ _ H1). intros Hw.
  rewrite <- Hm. by apply IH.
Qed.

Lemma notify_mixed cbs o n w w' : Forall (λ c, follows c.2 ∨ neutral c.2) cbs →
  notify cbs o n w = (Ok tt, w') → (mirror w = n ∨ Exists (λ c, follows c.2) cbs) → mirror w' = n.
Proof.
  intros H. revert w. induction H as [|[k cb] cbs Hcb _ IH]; intros w; cbn [notify].
  - intros [= ->] [?|He]; [done|inversion He].
  - simpl in Hcb. destruct Hcb as [Hcb|Hcb]; destruct (Hcb o n w) as (w1 & H1 & Hm);
      rewrite (bind_ok _ _ _ _ _ H1); intros Hw He; apply (IH w1 Hw); [by left|].
    rewrite Hm. destruct He as [?|He]; [by left|]. inversion He as [? ? Hf|]; subst; [|by right].
    left. destruct (Hf o n w) as (w2 & H2 & Hm2). simpl in H2. rewrite H1 in H2. injection H2 as <-. congruence.
Qed.

(** One assignment. *)
Lemma assign_in_step name s n x v w : in_step name s → datas s !! n = Some x →
  (if eqb (type_ x) v (val_ x) then w = world s else notify (cbs_ x) (val_ x) v (world s) = (Ok tt, w)) →
  in_step name (set_world w (put n (set_val (assign (type_ x) (val_ x) v) x) s)).
Proof.
  intros [(y & Hy & Hm & Hf & He) Ho] Hx Hw. unfold assign. split; simpl.
  - destruct (decide (n = name)) as [->|Hn].
    + assert (y = x) as -> by congruence. rewrite lookup_insert_eq. eexists. split; [done|]. simpl. split; [|done].
      destruct (eqb (type_ x) v (val_ x)); [by subst|]. apply (notify_mixed _ _ _ _ _ Hf Hw). by right.
    + rewrite lookup_insert_ne by done. exists y. split; [done|]. split; [|done]. rewrite <- Hm.
      destruct (eqb (type_ x) v (val_ x)); [by subst|].
      eapply notify_neutral; [|exact Hw]. by apply (Ho n x).
  - intros m z Hne. destruct (decide (n = m)) as [->|Hn].
    + rewrite lookup_insert_eq. intros [= <-]. simpl. by apply (Ho m).
    + rewrite lookup_insert_ne by done. by apply Ho.
Qed.

Lemma keeps_names s n x v w m : datas s !! n = Some x →
  (is_Some (datas (set_world w (put n (set_val v x) s)) !! m) ↔ is_Some (datas s !! m)).
Proof.
  intros Hx. simpl. destruct (decide (n = m)) as [->|Hn].
  - rewrite lookup_insert_eq, Hx. split; by eexists.
  - by rewrite lookup_insert_ne.
Qed.

Lemma FromString_in_step name s n text : in_step name s → is_Some (datas s !! n) →
  ∃ s', FromString n text s = (Ok false, s') ∧ in_step name s' ∧
    ∀ m, is_Some (datas s' !! m) ↔ is_Some (datas s !! m).
Proof.
  intros Hs [x Hx]. destruct (FromString_ok s n x text Hx (in_step_calm _ _ Hs _ _ Hx)) as (w & Heq & Hw).
  eexists. split; [exact Heq|]. split; [|intros m; by apply keeps_names]. unfold assign_text.
  destruct (FromStr (type_ x) text) as [v|]; [by apply assign_in_step|]. subst w.
  unfold put, set_world. simpl. rewrite set_val_same, insert_id by done. by destruct s.
Qed.

Lemma load_in_step name l : ∀ s, in_step name s → ∃ s', load_nodes l s = (Ok tt, s') ∧ in_step name s' ∧
  ∀ m, is_Some (datas s' !! m) ↔ is_Some (datas s !! m).
Proof.
  induction l as [|[p n] l IH]; intros s Hs; [by exists s|]. cbn [load_nodes].
  assert (∃ s1, (if decide (p = []) then mret tt
       else let key := ToLower p in v ← LookupBase key;
         match v with None => mret tt
         | Some v => FromString v (if IsScalar n then Scalar n else dump n);; mret tt end) s = (Ok tt, s1) ∧
    in_step name s1 ∧ ∀ m, is_Some (datas s1 !! m) ↔ is_Some (datas s !! m)) as (s1 & Hs1 & H1 & Hd1).
  { cbv zeta. destruct (decide (p = [])); [by exists s|].
    assert (LookupBase (ToLower p) s =
      (Ok (match datas s !! ToLower p with Some _ => Some (ToLower p) | None => None end), s)) as Hlb by done.
    rewrite (bind_ok _ _ _ _ _ Hlb). destruct (datas s !! ToLower p) as [x|] eqn:Hx; [|by exists s].
    destruct (FromString_in_step name s (ToLower p) (if IsScalar n then Scalar n else dump n) Hs)
      as (s1 & Hf & H1 & Hd); [by rewrite Hx|]. exists s1. by rewrite (bind_ok _ _ _ _ _ Hf). }
  rewrite (bind_ok _ _ _ _ _ Hs1). destruct (IH s1 H1) as (s2 & Hs2 & H2 & Hd2).
  exists s2. split_and!; [done..|]. intros m. by rewrite Hd2.
Qed.

Lemma run_in_step name c s : in_step name s → names_variable s c → ∃ s', run c s = (Ok tt, s') ∧ in_step name s' ∧
  ∀ m, is_Some (datas s' !! m) ↔ is_Some (datas s !! m).
Proof.
  intros Hs Hc. destruct c as [n v|n text|root]; simpl in Hc |- *.
  - destruct Hc as [x Hx]. destruct (SetValue_ok s n x v Hx (in_step_calm _ _ Hs _ _ Hx)) as (w & Heq & Hw).
    eexists. split; [exact Heq|]. split; [by apply assign_in_step|intros m; by apply keeps_names].
  - destruct (FromString_in_step name s n text Hs Hc) as (s' & Heq & H). exists s'.
    by rewrite (bind_ok _ _ _ _ _ Heq).
  - destruct (ListAllMember_ok (S (size root)) [] root []) as (l & Hl & _); [lia|].
    unfold LoadFromYaml. rewrite bind_mlift, Hl. by apply load_in_step.
Qed.

(** A listener that copies the new value of a variable into a mirror, as the one of
    the log does, keeps the mirror equal to the value through every sequence of
    assignments, conversions and documents, whatever other variables they set and
    whatever the order of the listeners, as long as no listener fails. *)
Theorem mirror_in_step name cs : ∀ s, in_step name s → Forall (names_variable s) cs →
  ∃ s' x, run_all cs s = (Ok tt, s') ∧ in_step name s' ∧
    datas s' !! name = Some x ∧ mirror (world s') = val_ x.
Proof.
  induction cs as [|c cs IH]; intros s Hs Hc.
  - pose proof Hs as [(x & Hx & Hm & _) _]. by exists s, x.
  - inversion Hc as [|? ? Hc1 Hcs]; subst. destruct (run_in_step name c s Hs Hc1) as (s1 & Hs1 & H1 & Hd).
    cbn [run_all]. rewrite (bind_ok _ _ _ _ _ Hs1). apply IH; [done|].
    apply (Forall_impl _ _ _ Hcs). intros [n v|n text|root]; simpl; [by rewrite Hd..|done].
Qed.
End mirror.

(** ** Types *)

Section typing.
(** [has t v]: the value is of the type; conversions give values of their type. *)
Context (has : T → V → Prop) (FromStr_has : ∀ t s v, FromStr t s = Some v → has t v).

Definition fine {A} (r : res A) : Prop := match r with Ok _ => True | Err e => is_exception e = true end.

(** A listener that may rely on being told values of the type [t]: with them it does not
    fail other than by an exception. *)
Definition safe (t : T) (cb : on_change_cb) : Prop := ∀ o n w, has t o → has t n → fine (cb o n w).1.

(** Every variable has a value of its type and listeners for that type. *)
Definition sound (s : State) : Prop := ∀ n x, datas s !! n = Some x →
  has (type_ x) (val_ x) ∧ Forall (λ c, safe (type_ x) c.2) (cbs_ x).

(** Variables stay, with their types. *)
Definition extends (s s' : State) : Prop := ∀ n x, datas s !! n = Some x →
  ∃ x', datas s' !! n = Some x' ∧ type_ x' = type_ x.

#[local] Instance extends_pre : PreOrder extends.
Proof.
  split; [intros s n x Hx; by exists x|]. intros s1 s2 s3 H1 H2 n x Hx.
  destruct (H1 n x Hx) as (y & Hy & Ht). destruct (H2 n y Hy) as (z & Hz & Ht2). exists z. by rewrite Ht2, Ht.
Qed.

(** A computation that keeps all that and does not go wrong. *)
Definition sane {A} (s : State) (m : M State A) : Prop :=
  sound s → sound (m s).2 ∧ extends s (m s).2 ∧ fine (m s).1.

Lemma sane_ret {A} s (a : A) : sane s (mret a).
Proof. intros Hs. split_and!; [done|reflexivity|done]. Qed.

Lemma sane_bind {A B} s (m : M State A) (f : A → M State B) :
  sane s m → (∀ a s', m s = (Ok a, s') → sane s' (f a)) → sane s (m ≫= f).
Proof.
  intros Hm Hf Hs. destruct (Hm Hs) as (H1 & H2 & H3). rewrite bind_unfold.
  destruct (m s) as [[a|e] s1] eqn:Hr; simpl in *; [|by split_and!].
  destruct (Hf a s1 eq_refl H1) as (H4 & H5 & H6). split_and!; [done|by etrans|done].
Qed.

Lemma sound_put s name x y : sound s → datas s !! name = Some x → type_ y = type_ x →
  has (type_ y) (val_ y) → Forall (λ c, safe (type_ y) c.2) (cbs_ y) →
  ∀ w id, sound (mkState (<[name := y]> (datas s)) id w) ∧ extends s (mkState (<[name := y]> (datas s)) id w).
Proof.
  intros Hs Hx Ht Hv Hc w id. split.
  - intros n z. simpl. destruct (decide (name = n)) as [<-|Hn]; [rewrite lookup_insert_eq; intros [= <-]; done|].
    rewrite lookup_insert_ne by done. apply Hs.
  - intros n z Hz. simpl. destruct (decide (name = n)) as [<-|Hn].
    + exists y. rewrite lookup_insert_eq. simplify_eq. done.
    + exists z. by rewrite lookup_insert_ne.
Qed.

Lemma notify_fine t cbs o n : Forall (λ c, safe t c.2) cbs → has t o → has t n → ∀ w, fine (notify cbs o n w).1.
Proof.
  intros H Ho Hn. induction H as [|[k cb] cbs Hcb _ IH]; intros w; [done|]. cbn [notify]. rewrite bind_unfold.
  specialize (Hcb o n w Ho Hn). simpl in Hcb. by destruct (cb o n w) as [[[]|e] w1].
Qed.

Lemma SetValue_sane s name x v : datas s !! name = Some x → has (type_ x) v → sane s (SetValue name v).
Proof.
  intros Hx Hv Hs. destruct (Hs _ _ Hx) as [Hval Hc]. unfold SetValue.
  rewrite (bind_ok _ _ _ _ _ (var_ok _ _ _ Hx)). destruct (eqb (type_ x) v (val_ x)); [by apply sane_ret|].
  pose proof (notify_fine _ _ _ _ Hc Hval Hv (world s)) as Hf. rewrite bind_unfold.
  destruct (notify (cbs_ x) (val_ x) v (world s)) as [[[]|e] w]; simpl in *; [|split_and!; [exact Hs|intros n y Hy; by exists y|exact Hf]].
  destruct (sound_put s name x (set_val v x) Hs Hx eq_refl Hv Hc w (s_fun_id s)) as [H1 H2].
  by split_and!.
Qed.

Lemma catch_sane s (m : M State ()) : sane s m → sane s (catch m (mret tt)).
Proof.
  intros Hm Hs. destruct (Hm Hs) as (H1 & H2 & H3). unfold catch.
  destruct (m s) as [[[]|e] s'] eqn:Hr; simpl in *; [by split_and!|]. rewrite H3. by split_and!.
Qed.

Lemma FromString_sane s name text : is_Some (datas s !! name) → sane s (FromString name text).
Proof using Type FromStr_has.
  intros [x Hx]. unfold FromString. intros Hs. rewrite (bind_ok _ _ _ _ _ (var_ok _ _ _ Hx)). revert Hs.
  apply (sane_bind s); [|intros; apply sane_ret]. apply catch_sane.
  destruct (FromStr (type_ x) text) as [v|] eqn:Hf; [by eapply SetValue_sane; eauto|].
  intros Hs. split_and!; [done|reflexivity|done].
Qed.

Lemma load_nodes_sane l : ∀ s, sane s (load_nodes l).
Proof using Type FromStr_has.
  induction l as [|[p m] l IH]; intros s; [apply sane_ret|]. cbn [load_nodes].
  apply sane_bind; [|intros; apply IH]. cbv zeta. case_decide; [apply sane_ret|].
  assert (LookupBase (ToLower p) s =
    (Ok (match datas s !! ToLower p with Some _ => Some (ToLower p) | None => None end), s)) as Hl by done.
  intros Hs. rewrite (bind_ok _ _ _ _ _ Hl). revert Hs.
  destruct (datas s !! ToLower p) eqn:Hx; [|apply sane_ret].
  apply (sane_bind s); [|intros; apply sane_ret]. apply FromString_sane. by rewrite Hx.
Qed.

(** What a program calls, with the type the compiler knows; a null pointer from [Lookup]
    is not followed. *)
Inductive api :=
  | ALookup (t : T) (name : str) (default_value : V) (description : str)
  | ASetValue (t : T) (name : str) (v : V)
  | AFromString (name : str) (text : str)
  | AAddListener (t : T) (name : str) (cb : on_change_cb)
  | ADelListener (t : T) (name : str) (key : Z)
  | AClearListener (t : T) (name : str)
  | ALoadFromYaml (root : node).

Definition if_found (p : option str) (m : str → M State ()) : M State () :=
  match p with Some name => m name | None => mret tt end.

Definition api_run (c : api) : M State () :=
  match c with
  | ALookup t name v d => Lookup t name v d;; mret tt
  | ASetValue t name v => p ← Lookup_existing t name; if_found p (λ n, SetValue n v)
  | AFromString name text => p ← LookupBase name; if_found p (λ n, FromString n text;; mret tt)
  | AAddListener t name cb => p ← Lookup_existing t name; if_found p (λ n, AddListener n cb;; mret tt)
  | ADelListener t name key => p ← Lookup_existing t name; if_found p (λ n, DelListener n key)
  | AClearListener t name => p ← Lookup_existing t name; if_found p ClearListener
  | ALoadFromYaml root => LoadFromYaml root
  end.

(** Exceptions go to the caller, who goes on. *)
Fixpoint api_run_all (cs : list api) : M State () :=
  match cs with
  | [] => mret tt
  | c :: cs => catch (api_run c) (mret tt);; api_run_all cs
  end.

(** What the compiler checks. *)
Definition api_typed (c : api) : Prop :=
  match c with
  | ALookup t _ v _ | ASetValue t _ v => has t v
  | AAddListener t _ cb => safe t cb
  | _ => True
  end.

Lemma Lookup_sane s t name v d : has t v → sane s (Lookup t name v d).
Proof.
  intros Hv Hs. unfold Lookup. destruct (datas s !! name) as [x|] eqn:Hx; [by split_and!; [|reflexivity|]|].
  destruct (valid name); [|by split_and!; [|reflexivity|]]. split_and!; [| |done].
  - intros n y. simpl. destruct (decide (name = n)) as [<-|Hn].
    + rewrite lookup_insert_eq. intros [= <-]. split; [done|constructor].
    + rewrite lookup_insert_ne by done. apply Hs.
  - intros n y Hy. exists y. simpl. rewrite lookup_insert_ne by congruence. done.
Qed.

(** A typed look-up that succeeds gives a variable of the type. *)
Lemma found_sane {m : str → M State ()} s t name : (∀ x, datas s !! name = Some x → type_ x = t → sane s (m name)) →
  sane s (p ← Lookup_existing t name; if_found p m).
Proof.
  intros Hm. assert (Lookup_existing t name s = (Ok (match datas s !! name with
    | Some x => if decide (type_ x = t) then Some name else None | None => None end), s)) as Hl by done.
  intros Hs. rewrite (bind_ok _ _ _ _ _ Hl). revert Hs.
  destruct (datas s !! name) as [x|] eqn:Hx; [|apply sane_ret]. case_decide; [|apply sane_ret]. by apply (Hm x).
Qed.

Lemma insert_cb_safe t key cb l : safe t cb → Forall (λ c : Z * on_change_cb, safe t c.2) l →
  Forall (λ c, safe t c.2) (insert_cb key cb l).
Proof.
  intros Hcb. induction 1 as [|[k c] l Hc Hl IH]; [by repeat constructor|]. simpl.
  repeat case_decide; repeat constructor; done.
Qed.

Lemma set_cbs_sane s name x l : datas s !! name = Some x →
  (sound s → Forall (λ c, safe (type_ x) c.2) l) → sane s (mmodify (put name (set_cbs l x))).
Proof.
  intros Hx Hl Hs. destruct (Hs _ _ Hx) as [Hv _]. specialize (Hl Hs).
  destruct (sound_put s name x (set_cbs l x) Hs Hx eq_refl Hv Hl (world s) (s_fun_id s)) as [H1 H2]. by split_and!.
Qed.

Lemma var_sane {B} s name x (f : ConfigVar → M State B) : datas s !! name = Some x → sane s (f x) →
  sane s (x ← var name; f x).
Proof. intros Hx Hf Hs. rewrite (bind_ok _ _ _ _ _ (var_ok _ _ _ Hx)). by apply Hf. Qed.

Lemma AddListener_sane s name x cb : datas s !! name = Some x → safe (type_ x) cb → sane s (AddListener name cb).
Proof.
  intros Hx Hcb Hs. destruct (Hs _ _ Hx) as [Hv Hc].
  destruct (sound_put s name x (set_cbs (insert_cb u64(s_fun_id s (type_ x) + 1) cb (cbs_ x)) x) Hs Hx eq_refl Hv
    (insert_cb_safe _ _ _ _ Hcb Hc) (world s)
    (λ t, if decide (t = type_ x) then u64(s_fun_id s (type_ x) + 1) else s_fun_id s t)) as [H1 H2].
  unfold AddListener. rewrite (bind_ok _ _ _ _ _ (var_ok _ _ _ Hx)). by split_and!.
Qed.

Lemma api_run_sane c s : api_typed c → sane s (api_run c).
Proof using Type FromStr_has.
  intros Hc. destruct c as [t name v d|t name v|name text|t name cb|t name key|t name|root]; cbn [api_run].
  - apply sane_bind; [by apply Lookup_sane|intros; apply sane_ret].
  - apply found_sane. intros x Hx <-. by apply (SetValue_sane s name x).
  - intros Hs. assert (LookupBase name s = (Ok (match datas s !! name with Some _ => Some name | None => None end), s)) as Hl by done.
    rewrite (bind_ok _ _ _ _ _ Hl). revert Hs. destruct (datas s !! name) eqn:Hx; [|apply sane_ret].
    apply (sane_bind s); [|intros; apply sane_ret]. apply FromString_sane. by rewrite Hx.
  - apply found_sane. intros x Hx <-. apply sane_bind; [by apply (AddListener_sane s name x)|intros; apply sane_ret].
  - apply found_sane. intros x Hx _. unfold DelListener. apply (var_sane s name x); [done|].
    apply set_cbs_sane; [done|]. intros Hs. destruct (Hs _ _ Hx) as [_ Hcb].
    rewrite Forall_forall in Hcb |- *. intros c [_ Hin]%list_elem_of_filter. by apply Hcb.
  - apply found_sane. intros x Hx _. unfold ClearListener. apply (var_sane s name x); [done|].
    apply set_cbs_sane; [done|]. intros _. constructor.
  - destruct (ListAllMember_ok (S (size root)) [] root []) as (l & Hl & _); [lia|].
    unfold LoadFromYaml. intros Hs. rewrite bind_mlift, Hl. by apply load_nodes_sane.
Qed.

(** C9. Well-typed programs do not go wrong. Whatever sequence of calls a program makes,
    with the types the compiler checks, and whatever documents it loads: every variable
    keeps the type it was made with and has a value of that type, listeners are only told
    values of the type they were made for, and nothing but exceptions comes out, after
    which the program goes on. *)
Theorem config_typed cs : ∀ s, sound s → Forall api_typed cs →
  ∃ s', api_run_all cs s = (Ok tt, s') ∧ sound s' ∧ extends s s'.
Proof using Type FromStr_has.
  induction cs as [|c cs IH]; intros s Hs Hc; [by exists s|]. apply Forall_cons in Hc as [Hc1 Hc].
  destruct (catch_sane s _ (api_run_sane c s Hc1) Hs) as (H1 & H2 & _). cbn [api_run_all].
  destruct (api_run_sane c s Hc1 Hs) as (_ & _ & Hf). rewrite bind_unfold. unfold catch in *.
  destruct (api_run c s) as [[[]|e] s1]; simpl in *; [|rewrite Hf in *; simpl in *];
    (destruct (IH s1 H1 Hc) as (s2 & Hr & Hs2 & He); exists s2; split; [done|]; split; [done|by etrans]).
Qed.
End typing.

(** ** The table *)

(** The first [Lookup] of a name makes a variable with the default value, for ever of its
    type; a later one gives the same variable, whatever its default, or the null pointer
    if the type is another. A name with a character outside the alphabet is refused. *)
Lemma Lookup_exact s t name v description :
  match datas s !! name with
  | Some x => Lookup t name v description s = (Ok (if decide (type_ x = t) then Some name else None), s)
  | None =>
      if valid name then ∃ s', Lookup t name v description s = (Ok (Some name), s') ∧
        (∀ t' v' d', Lookup t' name v' d' s' = (Ok (if decide (t = t') then Some name else None), s')) ∧
        GetValue name s' = (Ok v, s') ∧ ∀ n, n ≠ name → datas s' !! n = datas s !! n
      else Lookup t name v description s = (Err InvalidArgument, s)
  end.
Proof.
  unfold Lookup. destruct (datas s !! name) as [x|] eqn:Hx; [done|]. destruct (valid name); [|done].
  eexists. split; [reflexivity|]. unfold put, GetValue. simpl. split_and!.
  - intros t' v' d'. by rewrite lookup_insert_eq.
  - erewrite bind_ok by (apply var_ok; apply lookup_insert_eq). done.
  - intros n Hn. by apply lookup_insert_ne.
Qed.

(** ** Loading a directory again *)

Definition fresh (lstat : str → option Z) (f : Files) (i : str) : Prop :=
  default 0 (s_file2modifytime f !! i) = u64(default 0 (lstat i)).

Lemma load_file_fresh force lstat LoadFile i f : is_Some (lstat i) →
  fresh lstat (load_file force lstat LoadFile i f).2 i ∧
  ∀ j, fresh lstat f j → fresh lstat (load_file force lstat LoadFile i f).2 j.
Proof.
  intros [m Hm]. unfold load_file, fresh. rewrite Hm. simpl.
  destruct (negb force && bool_decide (default 0 (s_file2modifytime f !! i) = u64(m))) eqn:Hs.
  { apply andb_true_iff in Hs as [_ Hs%bool_decide_eq_true]. simpl. done. }
  set (f' := snd _). assert (s_file2modifytime f' = <[i := u64(m)]> (s_file2modifytime f)) as ->.
  { unfold f'. destruct (LoadFile i) as [root|]; [|done]. by destruct (LoadFromYaml root (config f)). }
  rewrite lookup_insert_eq. split; [done|]. intros j Hj. destruct (decide (i = j)) as [->|Hne].
  - by rewrite lookup_insert_eq, Hm.
  - by rewrite lookup_insert_ne.
Qed.

Lemma LoadFromConfDir_fresh force lstat LoadFile files : ∀ f f', Forall (λ i, is_Some (lstat i)) files →
  LoadFromConfDir force lstat LoadFile files f = (Ok tt, f') →
  (∀ i, i ∈ files → fresh lstat f' i) ∧ ∀ j, fresh lstat f j → fresh lstat f' j.
Proof.
  induction files as [|i files IH]; intros f f' Hl Hf; simpl in Hf.
  { injection Hf as <-. split; [|done]. by intros i ?%not_elem_of_nil. }
  inversion Hl as [|? ? Hi Hl']; subst. apply bind_inv in Hf as ([] & f1 & H1 & Hf).
  pose proof (load_file_fresh force lstat LoadFile i f Hi) as [Hfr Hk]. rewrite H1 in Hfr, Hk. simpl in Hfr, Hk.
  destruct (IH _ _ Hl' Hf) as [Hin Hpre]. split; [|by intros j Hj; apply Hpre, Hk].
  intros j Hj. apply elem_of_cons in Hj as [->|Hj]; [by apply Hpre|by apply Hin].
Qed.

(** A directory that was loaded and did not change since is not loaded again, even when
    some of its files could not be loaded. *)
Lemma LoadFromConfDir_again force lstat LoadFile LoadFile' files f f' :
  Forall (λ i, is_Some (lstat i)) files →
  LoadFromConfDir force lstat LoadFile files f = (Ok tt, f') →
  LoadFromConfDir false lstat LoadFile' files f' = (Ok tt, f').
Proof.
  intros Hl Hf. destruct (LoadFromConfDir_fresh _ _ _ _ _ _ Hl Hf) as [Hin _]. clear Hf.
  induction files as [|i files IH]; [done|]. inversion Hl as [|? ? Hi Hl']; subst. simpl.
  erewrite bind_ok; [apply IH; [done|]|].
  - intros j Hj. apply Hin. by right.
  - unfold load_file. destruct Hi as [m Hm]. rewrite Hm. simpl.
    rewrite bool_decide_eq_true_2; [done|]. specialize (Hin i). unfold fresh in Hin. rewrite Hm in Hin.
    apply Hin. by left.
Qed.

End config.

(** ** A concrete instance *)

(** Trees of scalars and maps. *)
Inductive tree := TScalar (s : str) | TMap (l : list (tree * tree)).

Fixpoint tree_size (t : tree) : nat :=
  match t with
  | TScalar _ => 0
  | TMap l => S ((fix go (l : list (tree * tree)) : nat :=
                    match l with [] => 0 | (_, v) :: l => tree_size v + go l end) l)
  end%nat.

#[export, refine] Instance tree_yaml : Yaml tree := {
  IsMap t := match t with TMap _ => true | TScalar _ => false end;
  IsScalar t := match t with TMap _ => false | TScalar _ => true end;
  Scalar t := match t with TMap _ => [] | TScalar s => s end;
  entries t := match t with TMap l => l | TScalar _ => [] end;
  dump t := S_ "{}";
  size := tree_size }.
Proof.
  intros [s|l] k v H; [by apply not_elem_of_nil in H|]. simpl. apply Nat.lt_succ_r.
  induction l as [|[k' v'] l IH]; [by apply not_elem_of_nil in H|].
  apply elem_of_cons in H as [[= -> ->]|H]; [lia|]. specialize (IH H). lia.
Defined.

(** Integer variables; the world is the last value a listener was told, and the pairs it
    was told. *)
Definition int_eqb (t : ()) (x y : Z) : bool := bool_decide (x = y).
Definition int_of (t : ()) (s : str) : option Z :=
  match s with [] => None | _ => if forallb is_digit s then Some (digits 0 s) else None end.

Definition recorder : on_change_cb (V := Z) (W := Z * list (Z * Z)) := λ o n w,
  (Ok tt, (n, w.2 ++ [(o, n)])).
Definition failing : on_change_cb (V := Z) (W := Z * list (Z * Z)) := λ o n w, (Err LogicError, w).

Definition port_var (cbs : list (Z * on_change_cb (V := Z) (W := Z * list (Z * Z)))) : ConfigVar (T := ()) :=
  Var (S_ "tcp.port") [] () 80 cbs.
Definition sample (cbs : list (Z * on_change_cb)) : State :=
  mkState {[S_ "tcp.port" := port_var cbs]} (λ _, 0) (80, []).

Definition port_doc : tree := TMap [(TScalar (S_ "tcp"), TMap [(TScalar (S_ "port"), TScalar (S_ "8020"))])].

(** ** Edge cases *)

(** The documentation allows all digits in names; the alphabet has no nine. *)
Example nine_invalid : valid (S_ "tcp.port9") = false ∧ valid (S_ "tcp.port8") = true.
Proof. vm_compute. done. Qed.

(** A key in capitals is refused, so it is never put in lower case. *)
Example upper_case_ignored :
  ListAllMember 3 [] (TMap [(TScalar (S_ "Port"), TScalar (S_ "1"))]) [] =
    Ok [([], TMap [(TScalar (S_ "Port"), TScalar (S_ "1"))])].
Proof. vm_compute. done. Qed.

(** When a listener fails, the ones before it were told a value the variable does not get. *)
Example failing_listener :
  let r := SetValue int_eqb (S_ "tcp.port") 8020 (sample [(1, recorder); (2, failing)]) in
  r.1 = Err LogicError ∧ (GetValue (S_ "tcp.port") r.2).1 = Ok 80 ∧ (world r.2).1 = 8020.
Proof. vm_compute. done. Qed.

(** [FromString] answers no even when it sets the value. *)
Example FromString_false :
  let r := FromString int_eqb int_of (S_ "tcp.port") (S_ "8020") (sample []) in
  r.1 = Ok false ∧ (GetValue (S_ "tcp.port") r.2).1 = Ok 8020.
Proof. vm_compute. done. Qed.

(** ** Witnesses *)

Lemma LoadFromYaml_exact_witness : ∃ s',
  LoadFromYaml int_eqb int_of port_doc (sample []) = (Ok tt, s') ∧ (GetValue (S_ "tcp.port") s').1 = Ok 8020.
Proof.
  destruct (LoadFromYaml_exact int_eqb int_of port_doc (sample [])) as (l & s' & Hs & _).
  - intros n x Hx. unfold sample in Hx. cbn [datas] in Hx. apply lookup_singleton_Some in Hx as [_ <-]. constructor.
  - exists s'. split; [exact Hs|].
    assert (s' = (LoadFromYaml int_eqb int_of port_doc (sample [])).2) as -> by by rewrite Hs.
    vm_compute. reflexivity.
Defined.

Lemma mirror_in_step_witness : ∃ s' x,
  run_all int_eqb int_of [CLoadFromYaml port_doc; CSetValue (S_ "tcp.port") 90] (sample [(1, recorder)]) = (Ok tt, s') ∧
  datas s' !! S_ "tcp.port" = Some x ∧ (world s').1 = val_ x.
Proof.
  assert (follows fst recorder) as Hf by (intros o n w; eexists; split; reflexivity).
  destruct (mirror_in_step int_eqb int_of fst (S_ "tcp.port")
    [CLoadFromYaml port_doc; CSetValue (S_ "tcp.port") 90] (sample [(1, recorder)])) as (s' & x & Hs & _ & Hx & Hm).
  - split.
    + exists (port_var [(1, recorder)]). split; [vm_compute; reflexivity|]. split; [reflexivity|].
      split; [constructor; [by left|constructor]|by left].
    + intros n x Hn Hx. unfold sample in Hx. cbn [datas] in Hx. apply lookup_singleton_Some in Hx as [Hx _]. by destruct Hn.
  - repeat constructor. vm_compute. by eexists.
  - by exists s', x.
Defined.

(** The only type is that of the numbers that are not negative. *)
Definition nonneg (t : ()) (v : Z) : Prop := 0 ≤ v.

Lemma int_of_nonneg t s v : int_of t s = Some v → nonneg t v.
Proof.
  assert (∀ s a, 0 ≤ a → forallb is_digit s = true → 0 ≤ digits a s) as H.
  { clear. induction s as [|c s IH]; intros a Ha Hd; [done|]. simpl in *. apply andb_true_iff in Hd as [Hc Hd].
    rewrite Hc. apply IH; [|done]. unfold is_digit in Hc. apply bool_decide_eq_true in Hc. lia. }
  unfold int_of, nonneg. destruct s as [|c s]; [done|].
  destruct (forallb is_digit (c :: s)) eqn:Hd; [|done]. intros Heq. injection Heq as <-.
  exact (H (c :: s) 0 ltac:(lia) Hd).
Qed.

Lemma config_typed_witness : ∃ s',
  api_run_all int_eqb int_of [ALookup () (S_ "a.b") 3 []; ASetValue () (S_ "tcp.port") 90; ALookup () (S_ "X") 0 [];
    AAddListener () (S_ "a.b") failing; ASetValue () (S_ "a.b") 4; ALoadFromYaml port_doc] (sample [(1, recorder)])
    = (Ok tt, s') ∧ (GetValue (S_ "tcp.port") s').1 = Ok 8020.
Proof.
  destruct (config_typed int_eqb int_of nonneg int_of_nonneg
    [ALookup () (S_ "a.b") 3 []; ASetValue () (S_ "tcp.port") 90; ALookup () (S_ "X") 0 [];
     AAddListener () (S_ "a.b") failing; ASetValue () (S_ "a.b") 4; ALoadFromYaml port_doc]
    (sample [(1, recorder)])) as (s' & Hs & _).
  - intros n x Hx. unfold sample in Hx. cbn [datas] in Hx. apply lookup_singleton_Some in Hx as [_ <-].
    split; [unfold nonneg; simpl; lia|]. repeat constructor.
  - repeat constructor; unfold nonneg; simpl; lia.
  - exists s'. split; [exact Hs|]. apply (f_equal snd) in Hs. simpl in Hs. rewrite <- Hs. vm_compute. reflexivity.
Defined.

End Config.
