(* ===== verification/Mutex.v ===== *)
(** * Locks (env/mutex.h, env/mutex.cc)

    [Class Lockable] is what the guards need of a lock: who holds it, when it can be
    taken and what releasing it does. [Module Mutex] has the three guard templates over
    any such lock and the system of all guards of one lock, with the calls of any number
    of threads interleaved. Instances are the lock the source implements itself,
    [CASLock], and, over what pthread documents of its objects ([Class Pthread]), its
    [Mutex], [RWMutex] and [Spinlock] ([MutexT], [RWMutexT], [SpinlockT]). [Semaphore] is
    at the end.

    Theorems: guards exclude each other as their kinds say, never release what they do
    not hold, and leave the lock free ([guards_exclusive]); some thread can always go on
    ([guards_progress]); a semaphore never lets more waiters pass than it was posted
    ([semaphore_conserves]). *)

From stdpp Require Import gmap.
From S2P Require Import Prelude.

(** How a lock is held. *)
Inductive mode := Shared | Exclusive.

#[export] Instance mode_eq_dec : EqDecision mode.
Proof. solve_decision. Defined.

(** A lock: [acquire] by a thread is [None] when the caller waits; [error] is the error
    number of that call, which the caller is not told. *)
Class LockOps (L : Type) := {
  unlocked : L;
  acquire : Z → mode → L → option L;
  error : Z → mode → L → Z;
  release : mode → L → L
}.

(** What the guards rely on; [held] is how the lock is held, [supports] the modes that
    the lock has. A call that has an error takes nothing. *)
Class Lockable (L : Type) `{!LockOps L} := {
  supports : mode → bool;
  held : L → list mode;
  held_unlocked : held unlocked = [];
  acquire_exclusive t l l' : error t Exclusive l = 0%Z → acquire t Exclusive l = Some l' →
    (held l = []) ∧ (held l' = [Exclusive]);
  acquire_shared t l l' : error t Shared l = 0%Z → acquire t Shared l = Some l' →
    Exclusive ∉ held l ∧ (held l' ≡ₚ Shared :: held l);
  acquire_error t m l l' : error t m l ≠ 0%Z → acquire t m l = Some l' → held l' = held l;
  acquire_free t m l : supports m = true → held l = [] → error t m l = 0%Z ∧ is_Some (acquire t m l);
  release_held m l : m ∈ held l → held l ≡ₚ m :: held (release m l)
}.

Module Mutex.

(** ** The guards *)

(** Which call a guard template takes the lock with. *)
Definition ScopedLockImpl : mode := Exclusive.
Definition ReadScopedLockImpl : mode := Shared.
Definition WriteScopedLockImpl : mode := Exclusive.

Record Guard := mkGuard { kind : mode; locked_ : bool }.

Section guards.
Context {L : Type} `{!LockOps L}.

(** The constructor, [lock], [unlock] and the destructor of a guard, called by thread [t];
    [None] while the caller waits. *)
Definition construct (t : Z) (k : mode) (l : L) : option (L * Guard) :=
  l ← acquire t k l; mret (l, mkGuard k true).

Definition lock (t : Z) (g : Guard) (l : L) : option (L * Guard) :=
  if locked_ g then Some (l, g)
  else l ← acquire t (kind g) l; mret (l, mkGuard (kind g) true).

Definition unlock (g : Guard) (l : L) : L * Guard :=
  if locked_ g then (release (kind g) l, mkGuard (kind g) false) else (l, g).

Definition destruct_guard (g : Guard) (l : L) : L := (unlock g l).1.

(** All guards of one lock, by number, and the calls on them. *)
Record Sys := mkSys { the_lock : L; guards : gmap nat Guard }.

Inductive call :=
  | Construct (t : Z) (i : nat) (k : mode)
  | Lock (t : Z) (i : nat)
  | Unlock (i : nat)
  | Destruct (i : nat).

(** One call; [None] when it waits or there is no such guard. *)
Definition exec (c : call) (s : Sys) : option Sys :=
  match c with
  | Construct t i k =>
      match guards s !! i with
      | Some _ => None
      | None => '(l, g) ← construct t k (the_lock s); mret (mkSys l (<[i := g]> (guards s)))
      end
  | Lock t i =>
      g ← guards s !! i; '(l, g) ← lock t g (the_lock s); mret (mkSys l (<[i := g]> (guards s)))
  | Unlock i =>
      g ← guards s !! i;
      let '(l, g) := unlock g (the_lock s) in mret (mkSys l (<[i := g]> (guards s)))
  | Destruct i =>
      g ← guards s !! i; mret (mkSys (destruct_guard g (the_lock s)) (delete i (guards s)))
  end.

(** A sequence of calls, in the order in which they take effect. *)
Fixpoint exec_all (cs : list call) (s : Sys) : option Sys :=
  match cs with
  | [] => Some s
  | c :: cs => s ← exec c s; exec_all cs s
  end.

Definition Sys_new : Sys := mkSys unlocked ∅.

(** Does a call not have an error? Those that take the lock can. *)
Definition fits (c : call) (s : Sys) : bool :=
  match c with
  | Construct t i k => bool_decide (error t k (the_lock s) = 0%Z)
  | Lock t i =>
      match guards s !! i with
      | Some g => locked_ g || bool_decide (error t (kind g) (the_lock s) = 0%Z)
      | None => true
      end
  | _ => true
  end.

Fixpoint errorless (cs : list call) (s : Sys) : bool :=
  match cs with
  | [] => true
  | c :: cs => fits c s && match exec c s with Some s => errorless cs s | None => true end
  end.

End guards.

(** ** The invariant *)

Section laws.
Context {L : Type} `{!LockOps L, !Lockable L}.
Implicit Types (l : L) (s : Sys (L := L)).

(** The modes in which the guards of [m] hold the lock. *)
Definition holding (m : gmap nat Guard) : list mode :=
  omap (λ ig : nat * Guard, if locked_ ig.2 then Some (kind ig.2) else None) (map_to_list m).

Definition wf (s : Sys) : Prop :=
  held (the_lock s) ≡ₚ holding (guards s) ∧
  (Exclusive ∈ held (the_lock s) → held (the_lock s) = [Exclusive]).

Lemma holding_insert m i g : m !! i = None →
  holding (<[i := g]> m) ≡ₚ (if locked_ g then [kind g] else []) ++ holding m.
Proof.
  intros Hi. unfold holding. rewrite (map_to_list_insert m i g Hi). simpl. by destruct (locked_ g).
Qed.

Lemma holding_take m i g : m !! i = Some g →
  holding m ≡ₚ (if locked_ g then [kind g] else []) ++ holding (delete i m).
Proof.
  intros Hi. rewrite <- (insert_delete_id m i g Hi) at 1. apply holding_insert, lookup_delete_eq.
Qed.

Lemma holding_update m i g g' : m !! i = Some g →
  holding (<[i := g']> m) ≡ₚ (if locked_ g' then [kind g'] else []) ++ holding (delete i m).
Proof.
  intros Hi. rewrite <- insert_delete_eq. apply holding_insert, lookup_delete_eq.
Qed.

Lemma wf_new : wf Sys_new.
Proof. unfold wf, Sys_new, holding. simpl. rewrite held_unlocked, map_to_list_empty. split; [done|].
  by intros ?%not_elem_of_nil. Qed.

(** Taking the lock adds one holder; the others are none, or all of them share. *)
Lemma acquire_wf t k l l' hs : error t k l = 0%Z → acquire t k l = Some l' → held l ≡ₚ hs →
  held l' ≡ₚ k :: hs ∧ (Exclusive ∈ held l' → held l' = [Exclusive]).
Proof.
  intros He Ha Hh. destruct k.
  - apply acquire_shared in Ha as [Hn Hl]; [|done]. split; [by rewrite Hl, Hh|]. intros Hx.
    rewrite Hl in Hx. by apply elem_of_cons in Hx as [?|?].
  - apply acquire_exclusive in Ha as [Hn Hl]; [|done]. rewrite Hn in Hh. apply Permutation_nil_l in Hh. subst hs. by rewrite Hl.
Qed.

Lemma release_wf k l hs : held l ≡ₚ k :: hs → (Exclusive ∈ held l → held l = [Exclusive]) →
  held (release k l) ≡ₚ hs ∧ (Exclusive ∈ held (release k l) → held (release k l) = [Exclusive]).
Proof.
  intros Hh He. assert (k ∈ held l) as Hk by (rewrite Hh; by left). pose proof (release_held k l Hk) as Hr.
  split; [apply (Permutation_cons_inv (a := k)); by rewrite <- Hr|].
  intros Hx. assert (Exclusive ∈ held l) as Hxl by (rewrite Hr; by right).
  apply He in Hxl. rewrite Hxl in Hr. apply Permutation_length in Hr. simpl in Hr.
  destruct (held (release k l)); [by apply not_elem_of_nil in Hx|done].
Qed.

Lemma exec_wf c s s' : wf s → fits c s = true → exec c s = Some s' → wf s'.
Proof.
  intros [Hh He] Hf Hs. destruct c as [t i k|t i|i|i]; simpl in Hs, Hf; destruct (guards s !! i) as [g|] eqn:Hi; try done.
  - apply bool_decide_eq_true in Hf.
    unfold construct in Hs. destruct (acquire t k (the_lock s)) as [l|] eqn:Ha; [|done]. injection Hs as <-.
    destruct (acquire_wf _ _ _ _ _ Hf Ha Hh) as [H1 H2]. split; [|exact H2]. simpl. by rewrite H1, holding_insert.
  - unfold lock in Hs. simpl in Hs. destruct (locked_ g) eqn:Hg.
    { injection Hs as <-. unfold wf. simpl. by rewrite insert_id. }
    apply bool_decide_eq_true in Hf.
    destruct (acquire t (kind g) (the_lock s)) as [l|] eqn:Ha; [|done]. injection Hs as <-.
    rewrite (holding_take _ _ _ Hi), Hg in Hh. destruct (acquire_wf _ _ _ _ _ Hf Ha Hh) as [H1 H2].
    split; [|exact H2]. simpl. by rewrite H1, (holding_update _ _ _ _ Hi).
  - unfold unlock in Hs. simpl in Hs. destruct (locked_ g) eqn:Hg; injection Hs as <-.
    2: { unfold wf. simpl. by rewrite insert_id. }
    rewrite (holding_take _ _ _ Hi), Hg in Hh. destruct (release_wf _ _ _ Hh He) as [H1 H2].
    split; [|exact H2]. simpl. by rewrite H1, (holding_update _ _ _ _ Hi).
  - injection Hs as <-. unfold wf, destruct_guard, unlock. simpl.
    rewrite (holding_take _ _ _ Hi) in Hh. destruct (locked_ g); [|done].
    destruct (release_wf _ _ _ Hh He) as [H1 H2]. by split.
Qed.

Lemma exec_all_wf cs : ∀ s s', wf s → errorless cs s = true → exec_all cs s = Some s' → wf s'.
Proof.
  induction cs as [|c cs IH]; intros s s' Hs Hl He; simpl in He, Hl; [by simplify_eq|].
  apply andb_true_iff in Hl as [Hf Hl].
  destruct (exec c s) as [s1|] eqn:Hc; [|done]. simpl in He. eapply IH; [|done|done]. by eapply exec_wf.
Qed.

(** A call that has an error goes unnoticed: the guard believes that it has the lock,
    which is held as before. *)
Lemma error_unnoticed t k l l' g : error t k l ≠ 0%Z → construct t k l = Some (l', g) →
  locked_ g = true ∧ held l' = held l.
Proof.
  unfold construct. intros He (x & Hx & [= <- <-])%bind_Some. split; [done|]. by eapply acquire_error.
Qed.

Lemma holding_two m i j gi gj : i ≠ j → m !! i = Some gi → m !! j = Some gj →
  locked_ gi = true → locked_ gj = true → ∃ rest, holding m ≡ₚ kind gi :: kind gj :: rest.
Proof.
  intros Hij Hi Hj Hli Hlj. exists (holding (delete j (delete i m))).
  rewrite (holding_take _ _ _ Hi), Hli. simpl. apply Permutation_skip.
  rewrite (holding_take (delete i m) j gj), Hlj; [done|]. by rewrite lookup_delete_ne.
Qed.

Lemma holding_none m : (∀ i g, m !! i = Some g → locked_ g = false) → holding m = [].
Proof.
  intros H. unfold holding. assert (∀ ig, ig ∈ map_to_list m → locked_ ig.2 = false) as Hl.
  { intros [i g] Hin. apply elem_of_map_to_list in Hin. by apply (H i). }
  induction (map_to_list m) as [|ig l IH]; [done|]. simpl. rewrite Hl by by left.
  apply IH. intros x Hx. apply Hl. by right.
Qed.

Lemma wf_free s : wf s → (∀ i g, guards s !! i = Some g → locked_ g = false) → held (the_lock s) = [].
Proof. intros [Hh _] Hn. rewrite (holding_none _ Hn) in Hh. by apply Permutation_nil_r. Qed.

Lemma construct_free t k s : supports k = true → held (the_lock s) = [] →
  error t k (the_lock s) = 0%Z ∧ is_Some (construct t k (the_lock s)).
Proof.
  intros Hk Hh. destruct (acquire_free t k (the_lock s) Hk Hh) as [He [l Hl]]. split; [done|].
  unfold construct. rewrite Hl. by eexists.
Qed.

(** Destroying a guard that has the lock takes effect at once and leaves one holder less. *)
Lemma destruct_holder s i g : wf s → guards s !! i = Some g → locked_ g = true →
  ∃ s', exec (Destruct i) s = Some s' ∧ wf s' ∧ guards s' = delete i (guards s) ∧
    length (held (the_lock s)) = S (length (held (the_lock s'))).
Proof.
  intros Hw Hi Hg. exists (mkSys (release (kind g) (the_lock s)) (delete i (guards s))).
  assert (exec (Destruct i) s = Some (mkSys (release (kind g) (the_lock s)) (delete i (guards s)))) as Hex.
  { simpl. rewrite Hi. simpl. unfold destruct_guard, unlock. by rewrite Hg. }
  split; [done|]. split; [by apply (exec_wf (Destruct i) s)|]. split; [done|]. destruct Hw as [Hh He].
  rewrite (holding_take _ _ _ Hi), Hg in Hh. destruct (release_wf _ _ _ Hh He) as [H1 _].
  apply Permutation_length in Hh, H1. simpl in *. lia.
Qed.

Lemma wf_holder s : wf s → held (the_lock s) ≠ [] → ∃ i g, guards s !! i = Some g ∧ locked_ g = true.
Proof.
  intros Hw Hn. destruct (decide (map_Forall (λ _ g, locked_ g = false) (guards s))) as [Hf|Hf].
  - by destruct Hn; apply wf_free.
  - apply map_not_Forall in Hf as (i & g & Hi & Hg); [|apply _]. exists i, g. by destruct (locked_ g).
Qed.

Definition holder s (i : nat) : Prop := ∃ g, guards s !! i = Some g ∧ locked_ g = true.

(** Every state has a list of guards whose destruction frees the lock. *)
Lemma destruct_all n : ∀ s, n = length (held (the_lock s)) → wf s →
  ∃ js, Forall (holder s) js ∧ length js = n ∧
    ∃ s', exec_all (Destruct <$> js) s = Some s' ∧ held (the_lock s') = [].
Proof.
  induction n as [|n IH]; intros s Hn Hw.
  { exists []. repeat split; [constructor|]. exists s. split; [done|]. by apply nil_length_inv. }
  destruct (wf_holder s Hw) as (i & g & Hi & Hg); [intros Hx; by rewrite Hx in Hn|].
  destruct (destruct_holder s i g Hw Hi Hg) as (s1 & Hex & Hw1 & Hg1 & Hl).
  destruct (IH s1) as (js & Hall & Hlen & s' & Hs' & Hfree); [lia|done|].
  exists (i :: js). split; [constructor; [by exists g|]|].
  - eapply Forall_impl; [exact Hall|]. intros j (gj & Hj & Hlj). rewrite Hg1 in Hj.
    apply lookup_delete_Some in Hj as [_ Hj]. by exists gj.
  - split; [simpl; lia|]. exists s'. split; [|done]. cbn [fmap list_fmap exec_all]. by rewrite Hex.
Qed.

(** C10. Whatever the threads do with the guards of a lock, in whatever order, as long as
    no call that takes the lock has an error: two guards
    that have it at the same time both share it, so that one that has it exclusively is
    alone; and when no guard has it, because all were unlocked or destroyed, the lock is
    free and the next one gets it without waiting and without an error. (pthread reports an
    error to a thread that asks for a lock it has, and when there are too many readers; the
    classes drop it, and the guards go on as if they had the lock: [error_unnoticed],
    [dropped_error].) *)
Theorem guards_exclusive cs s : errorless cs Sys_new = true → exec_all cs Sys_new = Some s →
  (∀ i j gi gj, i ≠ j → guards s !! i = Some gi → guards s !! j = Some gj →
    locked_ gi = true → locked_ gj = true → kind gi = Shared ∧ kind gj = Shared) ∧
  ((∀ i g, guards s !! i = Some g → locked_ g = false) →
    held (the_lock s) = [] ∧ ∀ t k, supports k = true →
      error t k (the_lock s) = 0%Z ∧ is_Some (construct t k (the_lock s))).
Proof.
  intros Hl Hs. destruct (exec_all_wf _ _ _ wf_new Hl Hs) as [Hh He]. split.
  - intros i j gi gj Hij Hi Hj Hli Hlj. destruct (holding_two _ _ _ _ _ Hij Hi Hj Hli Hlj) as [rest Hr].
    rewrite Hr in Hh. assert (Exclusive ∉ held (the_lock s)) as Hx.
    { intros Hx. apply He in Hx. rewrite Hx in Hh. apply Permutation_length in Hh. done. }
    rewrite Hh in Hx. destruct (kind gi), (kind gj); set_solver.
  - intros Hn. assert (held (the_lock s) = []) as Hf by (apply wf_free; [by split|done]).
    split; [done|]. intros t k Hk. by apply construct_free.
Qed.

(** The guards never get stuck: when a thread waits for the lock, there are guards
    that hold it, and once those guards, no more than the lock has holders, are destroyed,
    each of which takes effect at once, the waiting call gets the lock. *)
Theorem guards_progress cs s t k : errorless cs Sys_new = true → exec_all cs Sys_new = Some s → supports k = true →
  construct t k (the_lock s) = None →
  ∃ js, Forall (holder s) js ∧ js ≠ [] ∧ length js = length (held (the_lock s)) ∧
    ∃ s', exec_all (Destruct <$> js) s = Some s' ∧ is_Some (construct t k (the_lock s')).
Proof.
  intros Hl Hs Hk Hwait. pose proof (exec_all_wf _ _ _ wf_new Hl Hs) as Hw.
  destruct (destruct_all _ s eq_refl Hw) as (js & Hf & Hlen & s' & Hs' & Hfree).
  exists js. split; [done|]. split.
  - intros ->. simpl in *. simplify_eq. destruct (construct_free t k _ Hk Hfree) as [_ [x Hx]]. congruence.
  - split; [done|]. exists s'. split; [done|]. by apply construct_free.
Qed.

End laws.

(** ** The locks *)

(** [std::atomic_flag_test_and_set]: the flag is set, its old value returned. *)
Definition test_and_set (f : bool) : bool * bool := (f, true).

(** One turn of the loop of [CASLock::lock]: [None] when it goes round again, which
    changes nothing as the flag was set already. *)
Definition CASLock_lock (f : bool) : option bool :=
  let '(old, f) := test_and_set f in if old then None else Some f.

Definition CASLock_unlock (_ : bool) : bool := false.

#[export] Instance CASLock_ops : LockOps bool := {|
  unlocked := false;
  acquire _ m f := match m with Exclusive => CASLock_lock f | Shared => None end;
  error _ _ _ := 0%Z;
  release _ := CASLock_unlock
|}.

#[export, refine] Instance CASLock : Lockable bool := {|
  supports m := bool_decide (m = Exclusive);
  held (f : bool) := if f then [Exclusive] else []
|}.
Proof.
  - reflexivity.
  - by intros t [] ? _ [= <-].
  - done.
  - done.
  - intros t m f Hm Hf. destruct f; [done|]. destruct m; [done|]. by split; [|eexists].
  - intros [] [] Hm; set_solver.
Defined.

(** *** The locks of pthread

    A read-write lock is held by any number of readers or one writer. *)
Inductive rwlock := Readers (n : nat) | Writer.

Definition rwlock_held (v : rwlock) : list mode :=
  match v with Readers n => replicate n Shared | Writer => [Exclusive] end.

(** The functions of pthread that the three classes call, on the objects [Mx], [Rw] and
    [Sp]: a call that takes a lock, by a thread, is [None] while the caller waits, and gives
    the error number and the object when it returns. *)
Class PthreadOps (Mx Rw Sp : Type) := {
  pthread_mutex_init : Mx;
  pthread_mutex_lock : Z → Mx → option (Z * Mx);
  pthread_mutex_unlock : Mx → Z * Mx;
  pthread_rwlock_init : Rw;
  pthread_rwlock_rdlock : Z → Rw → option (Z * Rw);
  pthread_rwlock_wrlock : Z → Rw → option (Z * Rw);
  pthread_rwlock_unlock : Rw → Z * Rw;
  pthread_spin_init : Z → Sp;
  pthread_spin_lock : Z → Sp → option (Z * Sp);
  pthread_spin_unlock : Sp → Z * Sp
}.

(** What pthread documents of a mutex or spin lock: [locked] says whether it is taken. A
    call that returns 0 has taken it, one that returns an error has not; a free lock is
    taken at once. *)
Record excludes {L} (locked : L → bool) (init : L) (take : Z → L → option (Z * L)) (give : L → Z * L) : Prop := {
  excludes_init : locked init = false;
  excludes_take t l l' : take t l = Some (0%Z, l') → locked l = false ∧ locked l' = true;
  excludes_error t l e l' : take t l = Some (e, l') → e ≠ 0%Z → locked l' = locked l;
  excludes_free t l : locked l = false → ∃ l', take t l = Some (0%Z, l');
  excludes_give l : locked l = true → locked (give l).2 = false
}.

(** What pthread documents: [view] is how a read-write lock is held. A writer may be
    preferred to readers: only a reader of a free lock never waits. *)
Class Pthread (Mx Rw Sp : Type) `{!PthreadOps Mx Rw Sp} := {
  mutex_locked : Mx → bool;
  spin_locked : Sp → bool;
  rwlock_view : Rw → rwlock;
  mutex_excludes : excludes mutex_locked pthread_mutex_init pthread_mutex_lock pthread_mutex_unlock;
  spin_excludes pshared : excludes spin_locked (pthread_spin_init pshared) pthread_spin_lock pthread_spin_unlock;
  rwlock_view_init : rwlock_view pthread_rwlock_init = Readers 0;
  rwlock_view_rdlock t l l' : pthread_rwlock_rdlock t l = Some (0%Z, l') →
    ∃ n, rwlock_view l = Readers n ∧ rwlock_view l' = Readers (S n);
  rwlock_view_wrlock t l l' : pthread_rwlock_wrlock t l = Some (0%Z, l') →
    rwlock_view l = Readers 0 ∧ rwlock_view l' = Writer;
  rwlock_view_error t l e l' : pthread_rwlock_rdlock t l = Some (e, l') ∨ pthread_rwlock_wrlock t l = Some (e, l') →
    e ≠ 0%Z → rwlock_view l' = rwlock_view l;
  rwlock_view_free t l : rwlock_view l = Readers 0 →
    (∃ l', pthread_rwlock_rdlock t l = Some (0%Z, l')) ∧ ∃ l', pthread_rwlock_wrlock t l = Some (0%Z, l');
  rwlock_view_readers l n : rwlock_view l = Readers (S n) →
    rwlock_view (pthread_rwlock_unlock l).2 = Readers n;
  rwlock_view_writer l : rwlock_view l = Writer → rwlock_view (pthread_rwlock_unlock l).2 = Readers 0
}.

Definition held_once (locked : bool) : list mode := if locked then [Exclusive] else [].

(** The error number of a call that returns. *)
Definition code {L} (r : option (Z * L)) : Z := match r with Some (e, _) => e | None => 0 end.

Section excludes.
Context {L : Type} {locked : L → bool} {init : L} {take : Z → L → option (Z * L)} {give : L → Z * L}.
Hypothesis Hx : excludes locked init take give.

Lemma excludes_held_take t l e l' : code (take t l) = 0%Z → take t l = Some (e, l') →
  held_once (locked l) = [] ∧ held_once (locked l') = [Exclusive].
Proof using Hx. intros He Ht. rewrite Ht in He. simpl in He. subst e. by apply (excludes_take _ _ _ _ Hx) in Ht as [-> ->]. Qed.

Lemma excludes_held_error t l e l' : code (take t l) ≠ 0%Z → take t l = Some (e, l') →
  held_once (locked l') = held_once (locked l).
Proof using Hx. intros He Ht. rewrite Ht in He. by rewrite (excludes_error _ _ _ _ Hx _ _ _ _ Ht He). Qed.

Lemma excludes_held_free t l : held_once (locked l) = [] → code (take t l) = 0%Z ∧ ∃ l', take t l = Some (0%Z, l').
Proof using Hx.
  intros Hh. destruct (excludes_free _ _ _ _ Hx t l) as [l' Hl]; [by destruct (locked l)|].
  rewrite Hl. split; [done|]. by exists l'.
Qed.

Lemma excludes_held_give m l : m ∈ held_once (locked l) →
  held_once (locked l) ≡ₚ m :: held_once (locked (give l).2).
Proof using Hx.
  destruct (locked l) eqn:Hl; cbn; [|set_solver]. intros ->%list_elem_of_singleton.
  by rewrite (excludes_give _ _ _ _ Hx l Hl).
Qed.

End excludes.

(** The classes: an object of pthread and the calls on it, whose error numbers they
    drop. *)
Record MutexT (Mx : Type) := mkMutex { mutex_ : Mx }.
Record RWMutexT (Rw : Type) := mkRWMutex { m_lock : Rw }.
Record SpinlockT (Sp : Type) := mkSpinlock { spin_ : Sp }.
#[global] Arguments mkMutex {Mx} _.
#[global] Arguments mutex_ {Mx} _.
#[global] Arguments mkRWMutex {Rw} _.
#[global] Arguments m_lock {Rw} _.
#[global] Arguments mkSpinlock {Sp} _.
#[global] Arguments spin_ {Sp} _.

Section pthread.
Context {Mx Rw Sp : Type} `{!PthreadOps Mx Rw Sp}.

Definition Mutex_new : MutexT Mx := mkMutex pthread_mutex_init.
Definition Mutex_lock (t : Z) (m : MutexT Mx) : option (MutexT Mx) :=
  '(_, l) ← pthread_mutex_lock t (mutex_ m); mret (mkMutex l).
Definition Mutex_unlock (m : MutexT Mx) : MutexT Mx := mkMutex (pthread_mutex_unlock (mutex_ m)).2.

Definition RWMutex_new : RWMutexT Rw := mkRWMutex pthread_rwlock_init.
Definition RWMutex_rdlock (t : Z) (m : RWMutexT Rw) : option (RWMutexT Rw) :=
  '(_, l) ← pthread_rwlock_rdlock t (m_lock m); mret (mkRWMutex l).
Definition RWMutex_wrlock (t : Z) (m : RWMutexT Rw) : option (RWMutexT Rw) :=
  '(_, l) ← pthread_rwlock_wrlock t (m_lock m); mret (mkRWMutex l).
Definition RWMutex_unlock (m : RWMutexT Rw) : RWMutexT Rw := mkRWMutex (pthread_rwlock_unlock (m_lock m)).2.

Definition Spinlock_new : SpinlockT Sp := mkSpinlock (pthread_spin_init 0).
Definition Spinlock_lock (t : Z) (m : SpinlockT Sp) : option (SpinlockT Sp) :=
  '(_, l) ← pthread_spin_lock t (spin_ m); mret (mkSpinlock l).
Definition Spinlock_unlock (m : SpinlockT Sp) : SpinlockT Sp := mkSpinlock (pthread_spin_unlock (spin_ m)).2.

#[export] Instance Mutex_ops : LockOps (MutexT Mx) := {|
  unlocked := Mutex_new;
  acquire t m l := match m with Exclusive => Mutex_lock t l | Shared => None end;
  error t m l := match m with Exclusive => code (pthread_mutex_lock t (mutex_ l)) | Shared => 0%Z end;
  release _ := Mutex_unlock
|}.

#[export] Instance RWMutex_ops : LockOps (RWMutexT Rw) := {|
  unlocked := RWMutex_new;
  acquire t m l := match m with Exclusive => RWMutex_wrlock t l | Shared => RWMutex_rdlock t l end;
  error t m l :=
    code (match m with Exclusive => pthread_rwlock_wrlock t (m_lock l) | Shared => pthread_rwlock_rdlock t (m_lock l) end);
  release _ := RWMutex_unlock
|}.

#[export] Instance Spinlock_ops : LockOps (SpinlockT Sp) := {|
  unlocked := Spinlock_new;
  acquire t m l := match m with Exclusive => Spinlock_lock t l | Shared => None end;
  error t m l := match m with Exclusive => code (pthread_spin_lock t (spin_ l)) | Shared => 0%Z end;
  release _ := Spinlock_unlock
|}.

Context `{!Pthread Mx Rw Sp}.

#[export, refine] Instance Mutex_lockable : Lockable (MutexT Mx) := {|
  supports m := bool_decide (m = Exclusive);
  held l := held_once (mutex_locked (mutex_ l))
|}.
Proof using Type*.
  - exact (f_equal held_once (excludes_init _ _ _ _ mutex_excludes)).
  - intros t l l' He ([e x] & Ht & [= <-])%bind_Some. exact (excludes_held_take mutex_excludes _ _ _ _ He Ht).
  - done.
  - intros t [] l l' He Ha; [done|]. apply bind_Some in Ha as ([e x] & Ht & [= <-]).
    exact (excludes_held_error mutex_excludes _ _ _ _ He Ht).
  - intros t [] l Hm Hh; [done|]. destruct (excludes_held_free mutex_excludes t _ Hh) as (He & l' & Ht). split; [exact He|].
    exists (mkMutex l'). cbn. unfold Mutex_lock. by rewrite Ht.
  - intros m l. apply (excludes_held_give mutex_excludes).
Defined.

#[export, refine] Instance Spinlock_lockable : Lockable (SpinlockT Sp) := {|
  supports m := bool_decide (m = Exclusive);
  held l := held_once (spin_locked (spin_ l))
|}.
Proof using Type*.
  - exact (f_equal held_once (excludes_init _ _ _ _ (spin_excludes 0))).
  - intros t l l' He ([e x] & Ht & [= <-])%bind_Some. exact (excludes_held_take (spin_excludes 0) _ _ _ _ He Ht).
  - done.
  - intros t [] l l' He Ha; [done|]. apply bind_Some in Ha as ([e x] & Ht & [= <-]).
    exact (excludes_held_error (spin_excludes 0) _ _ _ _ He Ht).
  - intros t [] l Hm Hh; [done|]. destruct (excludes_held_free (spin_excludes 0) t _ Hh) as (He & l' & Ht). split; [exact He|].
    exists (mkSpinlock l'). cbn. unfold Spinlock_lock. by rewrite Ht.
  - intros m l. apply (excludes_held_give (spin_excludes 0)).
Defined.

#[export, refine] Instance RWMutex_lockable : Lockable (RWMutexT Rw) := {|
  supports _ := true;
  held l := rwlock_held (rwlock_view (m_lock l))
|}.
Proof using Type*.
  - cbn. by rewrite rwlock_view_init.
  - intros t l l' He ([e x] & Hx & [= <-])%bind_Some. cbn in *. rewrite Hx in He. cbn in He. subst e.
    apply rwlock_view_wrlock in Hx as [Hl Hl']. by rewrite Hl, Hl'.
  - intros t l l' He ([e x] & Hx & [= <-])%bind_Some. cbn in *. rewrite Hx in He. cbn in He. subst e.
    apply rwlock_view_rdlock in Hx as (n & Hl & Hl'). rewrite Hl, Hl'. split; [|done]. by intros [? _]%elem_of_replicate.
  - intros t m l l' He Ha. cbn in *. f_equal.
    destruct m; apply bind_Some in Ha as ([e x] & Hx & [= <-]); rewrite Hx in He;
      (eapply rwlock_view_error; [|exact He]; eauto).
  - intros t m l _ Hh. assert (rwlock_view (m_lock l) = Readers 0) as Hl.
    { by destruct (rwlock_view (m_lock l)) as [[]|]. }
    destruct (rwlock_view_free t _ Hl) as [[x Hr] [x' Hw]]. cbn. unfold RWMutex_rdlock, RWMutex_wrlock.
    rewrite Hr, Hw. destruct m; (split; [done|by eexists]).
  - intros m l. cbn. destruct (rwlock_view (m_lock l)) as [[|n]|] eqn:Hl; cbn; [set_solver| |].
    + intros [-> _]%(elem_of_replicate (S n)). by rewrite (rwlock_view_readers _ _ Hl).
    + intros ->%list_elem_of_singleton. by rewrite (rwlock_view_writer _ Hl).
Defined.

End pthread.

(** A pthread that does what is documented; who holds what is known for the writer of a
    read-write lock only, who is told that it has the lock when it asks for it again, as the
    GNU library does. *)
Definition EDEADLK : Z := 35.

Inductive owned := Shares (n : nat) | Owner (t : Z).

#[export] Instance simple_pthread_ops : PthreadOps bool owned bool := {|
  pthread_mutex_init := false;
  pthread_mutex_lock _ l := if l then None else Some (0%Z, true);
  pthread_mutex_unlock _ := (0%Z, false);
  pthread_rwlock_init := Shares 0;
  pthread_rwlock_rdlock t l :=
    match l with
    | Shares n => Some (0%Z, Shares (S n))
    | Owner u => if decide (t = u) then Some (EDEADLK, l) else None
    end;
  pthread_rwlock_wrlock t l :=
    match l with
    | Shares 0 => Some (0%Z, Owner t)
    | Shares _ => None
    | Owner u => if decide (t = u) then Some (EDEADLK, l) else None
    end;
  pthread_rwlock_unlock l := (0%Z, match l with Shares n => Shares (pred n) | Owner _ => Shares 0 end);
  pthread_spin_init _ := false;
  pthread_spin_lock _ l := if l then None else Some (0%Z, true);
  pthread_spin_unlock _ := (0%Z, false)
|}.

#[export, refine] Instance simple_pthread : Pthread bool owned bool := {|
  mutex_locked l := l;
  spin_locked l := l;
  rwlock_view l := match l with Shares n => Readers n | Owner _ => Writer end
|}.
Proof.
  - split; [done|by intros t [] l' [= <-]|by intros t [] e l' [= <- <-]|intros t l Hl; cbn in *; rewrite Hl; by eexists|done].
  - intros pshared.
    split; [done|by intros t [] l' [= <-]|by intros t [] e l' [= <- <-]|intros t l Hl; cbn in *; rewrite Hl; by eexists|done].
  - done.
  - intros t [n|u] l'; cbn; [intros [= <-]; by exists n|]. by case_decide.
  - intros t [[|n]|u] l'; cbn; [by intros [= <-]|done|]. by case_decide.
  - intros t [[|n]|u] e l'; cbn; try case_decide; intros [[=]|[=]] He; by subst.
  - intros t [[|n]|u]; cbn; try done. intros _. split; by eexists.
  - intros [m|u] n; cbn; [by intros [= ->]|done].
  - by intros [m|u].
Defined.

(** [rdlock] drops an error: a thread that has the lock as a writer asks for it as a reader;
    the read guard believes it has the lock, and its destructor releases it while the write
    guard still does. *)
Definition asks_twice : list call := [Construct 1 1 Exclusive; Construct 1 2 Shared; Destruct 2].

Example dropped_error :
  errorless asks_twice (Sys_new (L := RWMutexT owned)) = false ∧
  (m_lock ∘ the_lock <$> exec_all asks_twice (Sys_new (L := RWMutexT owned))) = Some (Shares 0) ∧
  (guards <$> exec_all asks_twice (Sys_new (L := RWMutexT owned))) = Some {[1%nat := mkGuard Exclusive true]}.
Proof. vm_compute. split_and!; reflexivity. Qed.

(** [NullMutex] and [NullRWMutex]: every call returns at once. *)
#[export] Instance NullMutex_ops : LockOps () := {|
  unlocked := ();
  acquire _ _ _ := Some ();
  error _ _ _ := 0%Z;
  release _ _ := ()
|}.

(** They keep nobody out: two guards have it exclusively at the same time. *)
Example null_mutex_excludes_nobody :
  guards <$> exec_all [Construct 100 1 Exclusive; Construct 101 2 Exclusive] (Sys_new (L := ())) =
    Some (<[2%nat := mkGuard Exclusive true]> {[1%nat := mkGuard Exclusive true]}).
Proof. vm_compute. reflexivity. Qed.

(** Locking a guard again, and destroying an unlocked one, does nothing to the lock. *)
Example lock_twice :
  (the_lock <$> exec_all [Construct 100 1 Exclusive; Lock 100 1; Unlock 1; Unlock 1; Construct 101 2 Exclusive; Destruct 1]
     (Sys_new (L := bool))) = Some true.
Proof. vm_compute. reflexivity. Qed.

Definition two_readers : list call := [Construct 100 1 Shared; Construct 101 2 Shared].

Lemma guards_exclusive_witness :
  ∃ s, exec_all two_readers (Sys_new (L := RWMutexT owned)) = Some s ∧ Shared = Shared ∧ Shared = Shared.
Proof.
  eexists. split; [vm_compute; reflexivity|].
  exact (proj1 (guards_exclusive (L := RWMutexT owned) two_readers _ eq_refl eq_refl) 1%nat 2%nat
    (mkGuard Shared true) (mkGuard Shared true) ltac:(lia) eq_refl eq_refl eq_refl eq_refl).
Defined.

Lemma guards_progress_witness :
  ∃ s, exec_all two_readers (Sys_new (L := RWMutexT owned)) = Some s ∧
    ∃ js, Forall (holder s) js ∧ js ≠ [] ∧ length js = 2%nat ∧
      ∃ s', exec_all (Destruct <$> js) s = Some s' ∧ is_Some (construct 102 Exclusive (the_lock s')).
Proof.
  eexists. split; [vm_compute; reflexivity|].
  exact (guards_progress (L := RWMutexT owned) two_readers _ 102 Exclusive eq_refl eq_refl eq_refl eq_refl).
Defined.

(** ** The semaphore *)

(** [sem_t]: its value. [sem_init] refuses values above [SEM_VALUE_MAX], [sem_post] a post
    beyond it; [sem_wait] waits while the value is 0 and fails when a signal handler
    interrupts it. *)
Definition SEM_VALUE_MAX : Z := 2 ^ 31 - 1.

Definition Semaphore_new (count : Z) : res Z :=
  if decide (count ≤ SEM_VALUE_MAX)%Z then Ok count else Err LogicError.

(** [None] while it waits; [interrupted] when a signal ends the wait. *)
Definition Semaphore_wait (interrupted : bool) (v : Z) : option (res Z) :=
  if decide (0 < v)%Z then Some (Ok (v - 1)%Z)
  else if interrupted then Some (Err LogicError) else None.

Definition Semaphore_notify (v : Z) : res Z :=
  if decide (v < SEM_VALUE_MAX)%Z then Ok (v + 1)%Z else Err LogicError.

Inductive sem_call := Wait (interrupted : bool) | Notify.

(** A call of some thread: the value it leaves and whether it threw; [None] while it
    waits. *)
Definition sem_exec (c : sem_call) (v : Z) : option (Z * bool) :=
  match c with
  | Wait i => r ← Semaphore_wait i v; mret (match r with Ok v' => (v', false) | Err _ => (v, true) end)
  | Notify => mret (match Semaphore_notify v with Ok v' => (v', false) | Err _ => (v, true) end)
  end.

(** The calls of all threads in the order they end: the value and the calls that did not
    throw. *)
Fixpoint sem_run (cs : list sem_call) (v : Z) : option (Z * list sem_call) :=
  match cs with
  | [] => Some (v, [])
  | c :: cs =>
      '(v, threw) ← sem_exec c v; '(v, done) ← sem_run cs v;
      mret (v, if (threw : bool) then done else c :: done)
  end.

Definition is_notify (c : sem_call) : bool := match c with Notify => true | Wait _ => false end.
Definition posts (cs : list sem_call) : Z := Z.of_nat (length (filter is_notify cs)).
Definition waits (cs : list sem_call) : Z := Z.of_nat (length (filter (λ c, negb (is_notify c)) cs)).

Lemma sem_exec_value c v v' threw : sem_exec c v = Some (v', threw) → (0 ≤ v ≤ SEM_VALUE_MAX)%Z →
  (0 ≤ v' ≤ SEM_VALUE_MAX)%Z ∧ v' = (if threw then v else if is_notify c then v + 1 else v - 1)%Z.
Proof.
  unfold sem_exec, Semaphore_wait, Semaphore_notify. intros H Hv.
  destruct c as [i|]; case_decide; [|destruct i| |]; cbn in H; try done; injection H as <- <-; simpl; lia.
Qed.

(** A semaphore never loses or invents a unit: whatever calls end, in whatever order,
    its value is the initial count plus the notifications less the waits that returned,
    and stays within what [sem_t] holds; so no more waits return than the count and the
    notifications allow. A call that throws changes nothing. *)
Theorem semaphore_conserves count v0 cs v done : (0 ≤ count < 2 ^ 32)%Z →
  Semaphore_new count = Ok v0 → sem_run cs v0 = Some (v, done) →
  (v = count + posts done - waits done ∧ 0 ≤ v ≤ SEM_VALUE_MAX ∧ waits done ≤ count + posts done)%Z.
Proof.
  unfold Semaphore_new. intros Hc Hn Hr. case_decide as Hm; [|done]. injection Hn as <-.
  assert (0 ≤ count ≤ SEM_VALUE_MAX)%Z as Hb by lia. clear Hc Hm.
  assert (v = count + posts done - waits done ∧ 0 ≤ v ≤ SEM_VALUE_MAX)%Z as [-> Hv]; [|lia].
  revert count v done Hb Hr. induction cs as [|c cs IH]; intros v0 v done Hb Hr; simpl in Hr.
  { injection Hr as <- <-. unfold posts, waits. simpl. lia. }
  destruct (sem_exec c v0) as [[v1 threw]|] eqn:Hx; [|done]. simpl in Hr.
  destruct (sem_exec_value _ _ _ _ Hx Hb) as [Hb1 Hv1].
  destruct (sem_run cs v1) as [[v2 done2]|] eqn:Hy; [|done]. simpl in Hr. injection Hr as <- <-.
  destruct (IH _ _ _ Hb1 Hy) as [-> Hv]. split; [|exact Hv]. clear Hv. subst v1.
  destruct threw; [lia|]. unfold posts, waits. rewrite !filter_cons.
  destruct c; simpl; repeat case_decide; try done; simpl; lia.
Qed.

Lemma semaphore_conserves_witness :
  sem_run [Notify; Notify; Wait false; Wait false; Wait true] 0 = Some (0%Z, [Notify; Notify; Wait false; Wait false]) ∧
  (0 = 0 + 2 - 2 ∧ 0 ≤ 0 ≤ SEM_VALUE_MAX ∧ 2 ≤ 0 + 2)%Z.
Proof.
  split; [vm_compute; reflexivity|].
  exact (semaphore_conserves 0 0 [Notify; Notify; Wait false; Wait false; Wait true] 0
    [Notify; Notify; Wait false; Wait false] ltac:(lia) eq_refl eq_refl).
Defined.

End Mutex.
