(* ===== verification/Socket.v ===== *)
(** * Sockets (net/socket.h, net/socket.cc)

    [Class Net] is what the library's sockets call: the system calls, hooked or not, the
    context a descriptor has in the table, the IO manager of the thread. [Class NetLaws]
    says which descriptors a call opens and closes, and that every call comes back.
    [Module Socket] has every member of [Socket] over them, and the program that uses
    them: sockets made, used in any order, accepted and destroyed.

    Theorems: no descriptor is lost or closed twice ([sockets_own]); what [bind] and
    [connect] do on every branch ([bind_exact], [connect_exact]). *)

From Stdlib Require Import Ascii String.
From stdpp Require Import gmap sets pretty.
From S2P Require Import Prelude Endian FdManager IOManager StringUtil Address.
Import Endian StringUtil.

(** A value of a socket option. *)
Inductive optval := OptInt (v : Z) | OptTimeval (sec usec : Z).

(** The functions the sockets use. A result of -1 is a failure; [sys_getsockopt] also
    gives the value and [errno], [sys_getsockname] and [sys_getpeername] the bytes of the
    address, the receiving calls the bytes received. [sys_sendto] stands for send, sendto and
    sendmsg, [sys_recvfrom] for recv, recvfrom and recvmsg. [sys_connect] has a timeout when
    [connect_with_timeout] is meant. *)
Class Net (W : Type) := {
  sys_socket (family type protocol : Z) : M W Z;
  sys_accept (fd : Z) : M W Z;
  sys_close (fd : Z) : M W Z;
  sys_bind (fd : Z) (addr : Address.Address) : M W Z;
  sys_listen (fd backlog : Z) : M W Z;
  sys_connect (fd : Z) (addr : Address.Address) (timeout : option Z) : M W Z;
  sys_setsockopt (fd level option : Z) (v : optval) : M W Z;
  sys_getsockopt (fd level option : Z) : M W (Z * Z * Z);
  sys_getsockname (fd : Z) : M W (option (list Z));
  sys_getpeername (fd : Z) : M W (option (list Z));
  sys_sendto (fd : Z) (iov : list (list Z)) (flags : Z) (to : option Address.Address) : M W Z;
  sys_recvfrom (fd : Z) (lens : list nat) (flags : Z) : M W (Z * list (list Z) * list Z);
  fs_unlink (path : str) : M W ();
  fd_ctx (fd : Z) : M W (option FdManager.FdCtx);
  cancel_event (fd event : Z) : M W bool;
  cancel_all (fd : Z) : M W bool
}.

(** The two timeouts of a socket are set from a [timeval]: the hook reads one. *)
Definition sockopt_ok (level option : Z) (v : optval) : bool :=
  match v with
  | OptTimeval _ _ => true
  | OptInt _ => negb (bool_decide (level = 1 ∧ (option = FdManager.SO_RCVTIMEO ∨ option = FdManager.SO_SNDTIMEO))%Z)
  end.

(** A call that returns and neither opens nor closes a descriptor. *)
Definition quiet {W A} (valid : W → Prop) (opened : W → gset Z) (m : M W A) : Prop :=
  ∀ w, valid w → ∃ a w', m w = (Ok a, w') ∧ valid w' ∧ opened w' = opened w.

(** A call that returns -1 or a descriptor that was not open. *)
Definition opens {W} (valid : W → Prop) (opened : W → gset Z) (m : M W Z) : Prop :=
  ∀ w, valid w → ∃ fd w', m w = (Ok fd, w') ∧ valid w' ∧
    (fd = -1 ∧ opened w' = opened w ∨ fd ≠ -1 ∧ fd ∉ opened w ∧ opened w' = {[fd]} ∪ opened w)%Z.

Class NetLaws (W : Type) `{!Net W} := {
  valid : W → Prop;
  opened : W → gset Z;
  opened_nonneg w fd : valid w → fd ∈ opened w → (0 ≤ fd)%Z;
  socket_opens f t p : opens valid opened (sys_socket f t p);
  accept_opens fd : (-1 ≤ fd)%Z → opens valid opened (sys_accept fd);
  close_closes fd w : valid w → fd ∈ opened w →
    ∃ r w', sys_close fd w = (Ok r, w') ∧ valid w' ∧ opened w' = opened w ∖ {[fd]};
  bind_quiet fd a : (-1 ≤ fd)%Z → quiet valid opened (sys_bind fd a);
  listen_quiet fd n : (-1 ≤ fd)%Z → quiet valid opened (sys_listen fd n);
  connect_quiet fd a t : (-1 ≤ fd)%Z → quiet valid opened (sys_connect fd a t);
  setsockopt_quiet fd l o v : (-1 ≤ fd)%Z → sockopt_ok l o v = true → quiet valid opened (sys_setsockopt fd l o v);
  getsockopt_quiet fd l o : (-1 ≤ fd)%Z → quiet valid opened (sys_getsockopt fd l o);
  getsockname_quiet fd : (-1 ≤ fd)%Z → quiet valid opened (sys_getsockname fd);
  getpeername_quiet fd : (-1 ≤ fd)%Z → quiet valid opened (sys_getpeername fd);
  sendto_quiet fd d fl a : (-1 ≤ fd)%Z → quiet valid opened (sys_sendto fd d fl a);
  recvfrom_quiet fd n fl : (-1 ≤ fd)%Z → quiet valid opened (sys_recvfrom fd n fl);
  unlink_quiet p : quiet valid opened (fs_unlink p);
  fd_ctx_quiet fd : (-1 ≤ fd)%Z → quiet valid opened (fd_ctx fd);
  cancel_event_quiet fd e : (0 ≤ fd)%Z → e = IOManager.READ ∨ e = IOManager.WRITE → quiet valid opened (cancel_event fd e);
  cancel_all_quiet fd : (0 ≤ fd)%Z → quiet valid opened (cancel_all fd)
}.

Module Socket.
Import FdManager(FdCtx, SO_RCVTIMEO, SO_SNDTIMEO).
Import IOManager(READ, WRITE).
Import Address(AF_INET, AF_INET6, AF_UNIX, UnixAddress).

Local Open Scope Z_scope.

(** The Linux values of the constants the code uses. *)
Definition SOCK_STREAM : Z := 1.
Definition SOCK_DGRAM : Z := 2.
Definition SOL_SOCKET : Z := 1.
Definition SO_REUSEADDR : Z := 2.
Definition SO_ERROR : Z := 4.
Definition IPPROTO_TCP : Z := 6.
Definition TCP_NODELAY : Z := 1.
Definition SOMAXCONN : Z := 4096.

(** [Type] and [Family]. *)
Definition TCP : Z := SOCK_STREAM.
Definition UDP : Z := SOCK_DGRAM.
Definition IPv4 : Z := AF_INET.
Definition IPv6 : Z := AF_INET6.
Definition UNIX : Z := AF_UNIX.

Record Socket := mkSocket {
  sock_ : Z;
  family_ : Z;
  type_ : Z;
  protocol_ : Z;
  is_connected_ : bool;
  local_address_ : option Address.Address;
  remote_address_ : option Address.Address
}.

Definition Socket_new (family type protocol : Z) : Socket :=
  mkSocket (-1) family type protocol false None None.

Definition set_sock_ (fd : Z) (s : Socket) : Socket :=
  mkSocket fd (family_ s) (type_ s) (protocol_ s) (is_connected_ s) (local_address_ s) (remote_address_ s).
Definition set_is_connected_ (b : bool) (s : Socket) : Socket :=
  mkSocket (sock_ s) (family_ s) (type_ s) (protocol_ s) b (local_address_ s) (remote_address_ s).
Definition set_local_address_ (a : option Address.Address) (s : Socket) : Socket :=
  mkSocket (sock_ s) (family_ s) (type_ s) (protocol_ s) (is_connected_ s) a (remote_address_ s).
Definition set_remote_address_ (a : option Address.Address) (s : Socket) : Socket :=
  mkSocket (sock_ s) (family_ s) (type_ s) (protocol_ s) (is_connected_ s) (local_address_ s) a.

Definition IsValid (s : Socket) : bool := bool_decide (sock_ s ≠ -1).
Definition IsConnected (s : Socket) : bool := is_connected_ s.

Section socket.
Context {W : Type} `{!Net W} (host : endian).

(** A member function: it works on its object and on the system. *)
Definition SM (A : Type) : Type := M (Socket * W) A.

Definition self : SM Socket := mgets fst.
Definition upd (f : Socket → Socket) : SM () := mmodify (λ sw, (f sw.1, sw.2)).
Definition call {A} (m : M W A) : SM A := λ sw, let '(r, w) := m sw.2 in (r, (sw.1, w)).

(** A member function of another object. *)
Definition on {A} (t : Socket) (m : SM A) : SM (A * Socket) := λ sw,
  let '(r, (t, w)) := m (t, sw.2) in (match r with Ok a => Ok (a, t) | Err e => Err e end, (sw.1, w)).

(** ** Options *)

Definition GetOption (level option : Z) : SM (bool * Z * Z) :=
  s ← self;
  '(rt, v, errno) ← call (sys_getsockopt (sock_ s) level option);
  mret (bool_decide (rt = 0), v, errno).

Definition SetOption (level option : Z) (v : optval) : SM bool :=
  s ← self;
  rt ← call (sys_setsockopt (sock_ s) level option v);
  mret (bool_decide (rt = 0)).

Definition timeval_of (v : Z) : optval := OptTimeval i32(v `quot` 1000) i32(v `rem` 1000 * 1000).

Definition GetTimeout (type : Z) : SM Z :=
  s ← self;
  ctx ← call (fd_ctx (sock_ s));
  mret (match ctx with Some c => i64(FdManager.GetTimeout type c) | None => -1 end).

Definition GetSendTimeout : SM Z := GetTimeout SO_SNDTIMEO.
Definition GetRecvTimeout : SM Z := GetTimeout SO_RCVTIMEO.
Definition SetSendTimeout (v : Z) : SM () := SetOption SOL_SOCKET SO_SNDTIMEO (timeval_of v);; mret tt.
Definition SetRecvTimeout (v : Z) : SM () := SetOption SOL_SOCKET SO_RCVTIMEO (timeval_of v);; mret tt.

Definition GetError : SM Z :=
  '(ok, error, errno) ← GetOption SOL_SOCKET SO_ERROR;
  mret (if (ok : bool) then error else errno).

Definition InitSock : SM () :=
  SetOption SOL_SOCKET SO_REUSEADDR (OptInt 1);;
  s ← self;
  if decide (type_ s = SOCK_STREAM) then SetOption IPPROTO_TCP TCP_NODELAY (OptInt 1);; mret tt
  else mret tt.

Definition NewSock : SM () :=
  s ← self;
  fd ← call (sys_socket (family_ s) (type_ s) (protocol_ s));
  upd (set_sock_ fd);;
  if decide (fd ≠ -1) then InitSock else mret tt.

(** ** Addresses *)

(** The empty address of a family, and the one whose object the kernel wrote [bs] to. *)
Definition Address_new (family : Z) : Address.Address :=
  if decide (family = AF_INET) then Address.IPv4Address (Address.IPv4Address_of host 0 0)
  else if decide (family = AF_INET6) then Address.IPv6Address Address.IPv6Address_new
  else if decide (family = AF_UNIX) then Address.UnixAddress_new
  else Address.UnknownAddress (Address.UnknownAddress_of family).

Definition filled (a : Address.Address) (bs : list Z) : Address.Address :=
  let obj := splice 0 (take (Z.to_nat (Address.GetAddrLen a)) bs) (Address.object host a) in
  match a with
  | Address.IPv4Address _ => Address.IPv4Address (Address.sockaddr_in_of host obj)
  | Address.IPv6Address _ => Address.IPv6Address (Address.sockaddr_in6_of host obj)
  | Address.UnixAddress _ l =>
      Address.UnixAddress (Address.Sockaddr_un (of_mem host (take 2 obj)) (drop 2 obj)) l
  | Address.UnknownAddress _ => Address.UnknownAddress (Address.sockaddr_of host obj)
  end.

(** The address of [family] from the bytes of a name; a Unix one takes their number. *)
Definition named (family : Z) (bs : list Z) : Address.Address :=
  let result := filled (Address_new family) bs in
  if decide (family = AF_UNIX) then Address.SetAddrLen (Z.of_nat (length bs)) result else result.

Definition GetRemoteAddress : SM Address.Address :=
  s ← self;
  match remote_address_ s with
  | Some a => mret a
  | None =>
      r ← call (sys_getpeername (sock_ s));
      match r with
      | None => mret (Address.UnknownAddress (Address.UnknownAddress_of (family_ s)))
      | Some bs => upd (set_remote_address_ (Some (named (family_ s) bs)));; mret (named (family_ s) bs)
      end
  end.

Definition GetLocalAddress : SM Address.Address :=
  s ← self;
  match local_address_ s with
  | Some a => mret a
  | None =>
      r ← call (sys_getsockname (sock_ s));
      match r with
      | None => mret (Address.UnknownAddress (Address.UnknownAddress_of (family_ s)))
      | Some bs => upd (set_local_address_ (Some (named (family_ s) bs)));; mret (named (family_ s) bs)
      end
  end.

(** ** Life of a socket *)

Definition close : SM bool :=
  s ← self;
  if negb (is_connected_ s) && bool_decide (sock_ s = -1) then mret true
  else
    upd (set_is_connected_ false);;
    (if decide (sock_ s ≠ -1) then call (sys_close (sock_ s));; upd (set_sock_ (-1)) else mret tt);;
    mret false.

(** [~Socket]. *)
Definition destruct : SM () := close;; mret tt.

(** [Init] of an accepted descriptor. *)
Definition Init (sock : Z) : SM bool :=
  ctx ← call (fd_ctx sock);
  match ctx with
  | Some c =>
      if FdManager.IsSocket c && negb (FdManager.IsClose c) then
        upd (set_sock_ sock);;
        upd (set_is_connected_ true);;
        InitSock;;
        GetLocalAddress;;
        GetRemoteAddress;;
        mret true
      else mret false
  | None => mret false
  end.

(** The call of [::accept] on the descriptor [fd] and what follows. [None] is a null
    pointer; the object made for it is destroyed then. *)
Definition accept_from (fd : Z) : SM (option Socket) :=
  s ← self;
  let sock := Socket_new (family_ s) (type_ s) (protocol_ s) in
  newsock ← call (sys_accept fd);
  if decide (newsock = -1) then
    on sock destruct;; mret None
  else
    '(ok, sock) ← on sock (Init newsock);
    if (ok : bool) then mret (Some sock) else on sock destruct;; mret None.

Definition accept : SM (option Socket) := s ← self; accept_from (sock_ s).

(** The timeout of [connect] is [(uint64_t)-1] when there is none. *)
Definition no_timeout : Z := 2 ^ 64 - 1.

Definition connect (addr : Address.Address) (timeout_ms : Z) : SM bool :=
  upd (set_remote_address_ (Some addr));;
  s ← self;
  (if IsValid s then mret tt else NewSock);;
  s ← self;
  if negb (IsValid s) then mret false
  else if decide (Address.GetFamily addr ≠ family_ s) then mret false
  else
    rt ← call (sys_connect (sock_ s) addr (if decide (timeout_ms = no_timeout) then None else Some timeout_ms));
    if decide (rt ≠ 0) then close;; mret false
    else
      upd (set_is_connected_ true);;
      GetRemoteAddress;;
      GetLocalAddress;;
      mret true.

Definition reconnect (timeout_ms : Z) : SM bool :=
  s ← self;
  match remote_address_ s with
  | None => mret false
  | Some addr => upd (set_local_address_ None);; connect addr timeout_ms
  end.

Definition CreateUnixTCPSocket : Socket := Socket_new UNIX TCP 0.

Definition remove_path (a : Address.sockaddr_un) (l : Z) : SM () :=
  path ← mlift (Address.GetPath a l); call (fs_unlink path).

(** The part of [bind] for the path of a Unix address: true when a server answers
    there. The socket that tried is destroyed. *)
Definition bind_unix (addr : Address.Address) : SM bool :=
  match addr with
  | UnixAddress a l =>
      '(connected, sock) ← on CreateUnixTCPSocket (connect addr no_timeout);
      (if (connected : bool) then mret tt else remove_path a l);;
      on sock destruct;;
      mret connected
  | _ => mret false
  end.

Definition bind (addr : Address.Address) : SM bool :=
  upd (set_local_address_ (Some addr));;
  s ← self;
  (if IsValid s then mret tt else NewSock);;
  s ← self;
  if negb (IsValid s) then mret false
  else if decide (Address.GetFamily addr ≠ family_ s) then mret false
  else
    used ← bind_unix addr;
    if (used : bool) then mret false
    else
      rt ← call (sys_bind (sock_ s) addr);
      if decide (rt ≠ 0) then mret false
      else GetLocalAddress;; mret true.

Definition listen (backlog : Z) : SM bool :=
  s ← self;
  if negb (IsValid s) then mret false
  else
    rt ← call (sys_listen (sock_ s) backlog);
    mret (bool_decide (rt = 0)).

(** [CreateTCP], [CreateTCPSocket], [CreateTCPSocket6] and, as it does nothing more,
    [CreateUnixUDPSocket]; [CreateUDP], [CreateUDPSocket] and [CreateUDPSocket6]. *)
Definition CreateTCP (address : Address.Address) : Socket := Socket_new (Address.GetFamily address) TCP 0.
Definition CreateTCPSocket : Socket := Socket_new IPv4 TCP 0.
Definition CreateTCPSocket6 : Socket := Socket_new IPv6 TCP 0.
Definition CreateUnixUDPSocket : Socket := Socket_new UNIX UDP 0.

Definition CreateUDP_of (family : Z) (w : W) : res () * (Socket * W) :=
  (NewSock;; upd (set_is_connected_ true)) (Socket_new family UDP 0, w).
Definition CreateUDP (address : Address.Address) (w : W) : res () * (Socket * W) :=
  CreateUDP_of (Address.GetFamily address) w.
Definition CreateUDPSocket (w : W) : res () * (Socket * W) := CreateUDP_of IPv4 w.
Definition CreateUDPSocket6 (w : W) : res () * (Socket * W) := CreateUDP_of IPv6 w.

(** ** Sending and receiving *)

(** The [ssize_t] of the call is returned as an [int]. *)
Definition transfer_out (iov : list (list Z)) (flags : Z) (to : option Address.Address) : SM Z :=
  s ← self;
  if IsConnected s then rt ← call (sys_sendto (sock_ s) iov flags to); mret i32(rt) else mret (-1).

Definition send (buffer : list Z) (flags : Z) : SM Z := transfer_out [buffer] flags None.
Definition send_iov (buffers : list (list Z)) (flags : Z) : SM Z := transfer_out buffers flags None.
Definition SendTo (buffer : list Z) (to : Address.Address) (flags : Z) : SM Z := transfer_out [buffer] flags (Some to).
Definition SendTo_iov (buffers : list (list Z)) (to : Address.Address) (flags : Z) : SM Z :=
  transfer_out buffers flags (Some to).

(** The buffers are given by their lengths; the result has what they hold afterwards,
    and the bytes of the peer's address. *)
Definition transfer_in (lens : list nat) (flags : Z) : SM (Z * list (list Z) * list Z) :=
  s ← self;
  if IsConnected s then
    '(rt, iov, name) ← call (sys_recvfrom (sock_ s) lens flags); mret (i32(rt), iov, name)
  else mret (-1, [], []).

Definition recv (len : nat) (flags : Z) : SM (Z * list (list Z)) :=
  '(rt, iov, _) ← transfer_in [len] flags; mret (rt, iov).
Definition recv_iov (lens : list nat) (flags : Z) : SM (Z * list (list Z)) :=
  '(rt, iov, _) ← transfer_in lens flags; mret (rt, iov).

(** [from] is an object the kernel writes into. *)
Definition RecvFrom (len : nat) (from : Address.Address) (flags : Z) : SM (Z * list (list Z) * Address.Address) :=
  '(rt, iov, name) ← transfer_in [len] flags; mret (rt, iov, filled from name).
Definition RecvFrom_iov (lens : list nat) (from : Address.Address) (flags : Z) :
    SM (Z * list (list Z) * Address.Address) :=
  '(rt, iov, name) ← transfer_in lens flags; mret (rt, iov, filled from name).

(** ** Events and text *)

Definition CancelRead : SM bool := s ← self; call (cancel_event (sock_ s) READ).
Definition CancelWrite : SM bool := s ← self; call (cancel_event (sock_ s) WRITE).
Definition CancelAccept : SM bool := s ← self; call (cancel_event (sock_ s) READ).
Definition CancelAll : SM bool := s ← self; call (cancel_all (sock_ s)).

Definition text (z : Z) : str := S_ (pretty z).

Definition Dump_address (label : string) (a : option Address.Address) : res str :=
  match a with Some a => t ← Address.Insert host a; mret (S_ label ++ t) | None => mret [] end.

Definition Dump (s : Socket) : res str :=
  l ← Dump_address " local_address=" (local_address_ s);
  r ← Dump_address " remote_address=" (remote_address_ s);
  mret (S_ "[Socket sock=" ++ text (sock_ s) ++ S_ " is_connected=" ++ (if is_connected_ s then S_ "1" else S_ "0")
    ++ S_ " family=" ++ text (family_ s) ++ S_ " type=" ++ text (type_ s) ++ S_ " protocol=" ++ text (protocol_ s)
    ++ l ++ r ++ S_ "]").

(** ** Which descriptor a socket has *)

Section laws.
Context `{!NetLaws W}.
Implicit Types (s t : Socket) (w : W).

Definition own s : gset Z := if decide (sock_ s = -1) then ∅ else {[sock_ s]}.

(** The socket's descriptor is open. *)
Definition ok s w : Prop := valid w ∧ own s ⊆ opened w.

(** From [s] the function returns, and changes which descriptors are open only in that
    the socket may have another one than before, or none. *)
Definition keeps_at {A} s (m : SM A) : Prop :=
  ∀ w, ok s w → ∃ a s' w', m (s, w) = (Ok a, (s', w')) ∧ ok s' w' ∧
    opened w' ∖ own s' = opened w ∖ own s.

Definition keeps {A} (m : SM A) : Prop := ∀ s, keeps_at s m.

Lemma ok_sock s w : ok s w → -1 ≤ sock_ s.
Proof.
  intros [Hv Ho]. unfold own in Ho. destruct (decide (sock_ s = -1)); [lia|].
  assert (sock_ s ∈ opened w) as Hin by set_solver. apply (opened_nonneg _ _ Hv) in Hin. lia.
Qed.

Lemma keeps_intro {A} s (m : SM A) : (-1 ≤ sock_ s → keeps_at s m) → keeps_at s m.
Proof. intros H w Hw. apply H; [by eapply ok_sock|done]. Qed.

Lemma keeps_ret {A} (a : A) s : keeps_at s (mret a).
Proof. intros w Hw. by exists a, s, w. Qed.

Lemma keeps_bind {A B} (m : SM A) (f : A → SM B) s :
  keeps_at s m → (∀ a s', keeps_at s' (f a)) → keeps_at s (m ≫= f).
Proof.
  intros Hm Hf w Hw. destruct (Hm w Hw) as (a & s1 & w1 & Hr & Hok & Ho).
  destruct (Hf a s1 w1 Hok) as (b & s2 & w2 & Hr2 & Hok2 & Ho2). exists b, s2, w2.
  rewrite (bind_ok _ _ _ _ _ Hr). split; [done|]. split; [done|]. by rewrite Ho2.
Qed.

Lemma keeps_self {B} (f : Socket → SM B) s : keeps_at s (f s) → keeps_at s (self ≫= f).
Proof. intros Hf w Hw. exact (Hf w Hw). Qed.

Lemma keeps_upd f s : sock_ (f s) = sock_ s → keeps_at s (upd f).
Proof.
  intros Hf w Hw. exists tt, (f s), w. split; [done|].
  assert (own (f s) = own s) as He by (unfold own; by rewrite Hf).
  unfold ok. rewrite He. done.
Qed.

Lemma call_bind {A B} (m : M W A) (f : A → SM B) s w a w' :
  m w = (Ok a, w') → (call m ≫= f) (s, w) = f a (s, w').
Proof. intros H. unfold mbind, M_bind, call. simpl. by rewrite H. Qed.

Lemma upd_bind {B} g (f : () → SM B) s w : (upd g ≫= f) (s, w) = f tt (g s, w).
Proof. reflexivity. Qed.

Lemma self_bind {B} (f : Socket → SM B) s w : (self ≫= f) (s, w) = f s (s, w).
Proof. reflexivity. Qed.

Lemma ret_bind {A B} (a : A) (f : A → SM B) s w : (mret a ≫= f) (s, w) = f a (s, w).
Proof. reflexivity. Qed.

Lemma keeps_call {A} (m : M W A) s : quiet valid opened m → keeps_at s (call m).
Proof.
  intros Hm w [Hv Ho]. destruct (Hm w Hv) as (a & w' & Hr & Hv' & Hw'). exists a, s, w'.
  unfold call. simpl. rewrite Hr. unfold ok. rewrite Hw'. done.
Qed.

(** Steps of a function that is not about descriptors. *)
Ltac keeps_step :=
  lazymatch goal with
  | |- keeps _ => intros ?
  | |- keeps_at _ (self ≫= _) => apply keeps_self
  | |- keeps_at _ (mret _) => apply keeps_ret
  | |- keeps_at _ (upd _) => by apply keeps_upd
  | |- keeps_at ?s (call _) =>
      apply keeps_intro; intros ?; apply keeps_call;
      first [by apply setsockopt_quiet | by apply getsockopt_quiet | by apply getsockname_quiet
            | by apply getpeername_quiet | by apply listen_quiet | by apply sendto_quiet
            | by apply recvfrom_quiet | by apply fd_ctx_quiet | by apply unlink_quiet ]
  | |- keeps_at _ (_ ≫= _) => apply keeps_bind; [|intros ? ?]
  | |- keeps_at _ (match ?x with _ => _ end) => destruct x
  end.
Ltac keeps_tac := repeat keeps_step.

Lemma SetOption_keeps l o v : sockopt_ok l o v = true → keeps (SetOption l o v).
Proof. intros Hv. unfold SetOption. keeps_tac. Qed.

Lemma GetOption_keeps l o : keeps (GetOption l o).
Proof. unfold GetOption. keeps_tac. Qed.

Lemma InitSock_keeps : keeps InitSock.
Proof. unfold InitSock, SetOption. keeps_tac. Qed.

Lemma GetRemoteAddress_keeps : keeps GetRemoteAddress.
Proof. unfold GetRemoteAddress. keeps_tac. Qed.

Lemma GetLocalAddress_keeps : keeps GetLocalAddress.
Proof. unfold GetLocalAddress. keeps_tac. Qed.

(** Cancelling needs a descriptor. *)
Lemma ok_open s w : ok s w → sock_ s ≠ -1 → 0 ≤ sock_ s.
Proof.
  intros [Hv Ho] Hn. unfold own in Ho. rewrite decide_False in Ho by done.
  apply (opened_nonneg _ _ Hv). set_solver.
Qed.

Lemma keeps_open {A} s (m : SM A) : (0 ≤ sock_ s → keeps_at s m) → sock_ s ≠ -1 → keeps_at s m.
Proof. intros H Hn w Hw. apply H; [by eapply ok_open|done]. Qed.

Lemma CancelAll_keeps s : sock_ s ≠ -1 → keeps_at s CancelAll.
Proof.
  apply keeps_open. intros Hs. apply keeps_self, keeps_call. by apply cancel_all_quiet.
Qed.

Lemma listen_keeps n : keeps (listen n).
Proof. unfold listen. keeps_tac. Qed.

Lemma own_new f ty p : own (Socket_new f ty p) = ∅.
Proof. reflexivity. Qed.

Lemma own_set fd s : own (set_sock_ fd s) = if decide (fd = -1) then ∅ else {[fd]}.
Proof. reflexivity. Qed.

(** Taking a new descriptor. *)
Lemma NewSock_keeps s : sock_ s = -1 → keeps_at s NewSock.
Proof.
  intros Hs. apply keeps_self. intros w [Hv Ho].
  destruct (socket_opens (family_ s) (type_ s) (protocol_ s) w Hv) as (fd & w1 & Hc & Hv1 & H1).
  assert (own s = ∅) as Hown by (unfold own; by rewrite decide_True).
  assert (ok (set_sock_ fd s) w1 ∧ opened w1 ∖ own (set_sock_ fd s) = opened w ∖ own s) as [Hok Hd].
  { unfold ok. rewrite own_set, Hown. destruct H1 as [[-> ->]|(Hn & Hni & ->)].
    - rewrite decide_True by done. set_solver.
    - rewrite decide_False by done. split; [set_solver|]. apply set_eq. intros x.
      destruct (decide (x = fd)); set_solver. }
  assert (keeps_at (set_sock_ fd s) (if decide (fd ≠ -1) then InitSock else mret tt)) as Hk.
  { case_decide; [apply InitSock_keeps|apply keeps_ret]. }
  destruct (Hk w1 Hok) as (a & s' & w' & Hr & Hok' & Ho'). exists a, s', w'. split; [|split; [done|by rewrite Ho']].
  rewrite (call_bind _ _ _ _ _ _ Hc), upd_bind. exact Hr.
Qed.

Lemma valid_or_new s : keeps_at s (if IsValid s then mret tt else NewSock).
Proof.
  unfold IsValid. case_bool_decide; [apply keeps_ret|]. apply NewSock_keeps. lia.
Qed.

(** Closing: afterwards the socket has no descriptor. *)
Lemma close_spec s w : ok s w → ∃ w' b,
  close (s, w) = (Ok b, (set_sock_ (-1) (set_is_connected_ false s), w')) ∧ valid w' ∧ opened w' = opened w ∖ own s.
Proof.
  intros [Hv Ho]. unfold close. rewrite self_bind. unfold own in *.
  destruct s as [fd f ty p c la ra]; cbn [sock_ is_connected_] in *. destruct (decide (fd = -1)) as [->|Hfd].
  - rewrite (bool_decide_eq_true_2 (-1 = -1)) by done. destruct c; cbn [negb andb].
    + exists w, false. split; [|set_solver]. rewrite upd_bind, decide_False by lia. done.
    + exists w, true. split; [done|set_solver].
  - rewrite (bool_decide_eq_false_2 (fd = -1)), andb_false_r by done.
    destruct (close_closes fd w Hv) as (r & w' & Hc & Hv' & Hw'); [set_solver|].
    exists w', false. split; [|done]. rewrite upd_bind, decide_True by done.
    assert ((call (sys_close fd) ≫= λ _, upd (set_sock_ (-1)))
      (set_is_connected_ false (mkSocket fd f ty p c la ra), w) =
      (Ok tt, (set_sock_ (-1) (set_is_connected_ false (mkSocket fd f ty p c la ra)), w'))) as H1.
    { by rewrite (call_bind _ _ _ _ _ _ Hc). }
    by rewrite (bind_ok _ _ _ _ _ H1).
Qed.

Lemma own_closed s : own (set_sock_ (-1) s) = ∅.
Proof. reflexivity. Qed.

Lemma close_keeps : keeps close.
Proof.
  intros s w Hw. destruct (close_spec s w Hw) as (w' & b & Hr & Hv & Ho). do 3 eexists. split; [exact Hr|].
  unfold ok. rewrite own_closed. split; [split; [done|set_solver]|]. rewrite Ho. set_solver.
Qed.

Lemma destruct_spec s w : ok s w → ∃ s' w',
  destruct (s, w) = (Ok tt, (s', w')) ∧ valid w' ∧ opened w' = opened w ∖ own s.
Proof.
  intros Hw. destruct (close_spec s w Hw) as (w' & b & Hr & Hv & Ho). do 2 eexists.
  unfold destruct. rewrite (bind_ok _ _ _ _ _ Hr). done.
Qed.

Lemma connect_keeps addr ms : keeps (connect addr ms).
Proof.
  intros s0. unfold connect. apply keeps_bind; [by apply keeps_upd|]. intros _ s. apply keeps_self.
  apply keeps_bind; [apply valid_or_new|]. intros _ s1. apply keeps_self.
  case_match; [apply keeps_ret|]. case_decide; [apply keeps_ret|].
  apply keeps_bind; [apply keeps_intro; intros ?; apply keeps_call, connect_quiet; done|].
  intros rt s2. case_decide; [apply keeps_bind; [apply close_keeps|intros; apply keeps_ret]|].
  apply keeps_bind; [by apply keeps_upd|]. intros _ s3.
  apply keeps_bind; [apply GetRemoteAddress_keeps|]. intros _ s4.
  apply keeps_bind; [apply GetLocalAddress_keeps|]. intros. apply keeps_ret.
Qed.

Lemma reconnect_keeps ms : keeps (reconnect ms).
Proof.
  intros s. apply keeps_self. destruct (remote_address_ s); [|apply keeps_ret].
  apply keeps_bind; [by apply keeps_upd|]. intros. apply connect_keeps.
Qed.

(** Has the address a path that can be read, if it is a Unix one? *)
Definition has_path (addr : Address.Address) : bool :=
  match addr with
  | UnixAddress a l => match Address.GetPath a l with Ok _ => true | Err _ => false end
  | _ => true
  end.

(** A function of a new object leaves the descriptors of the others alone. *)
Lemma on_new {A} t (m : SM A) s w : keeps m → own t = ∅ → ok s w →
  ∃ a t' w', on t m (s, w) = (Ok (a, t'), (s, w')) ∧ ok s w' ∧ ok t' w' ∧ opened w' ∖ own t' = opened w.
Proof.
  intros Hm Ht [Hv Ho]. destruct (Hm t w) as (a & t' & w' & Hr & Hok & Hd).
  { split; [done|]. rewrite Ht. set_solver. }
  rewrite Ht, difference_empty_L in Hd. exists a, t', w'. unfold on. simpl. rewrite Hr.
  split; [done|]. split; [|done]. split; [apply Hok|]. set_solver.
Qed.

Lemma on_destruct t s w : ok s w → ok t w → own s ⊆ opened w ∖ own t →
  ∃ t' w', on t destruct (s, w) = (Ok (tt, t'), (s, w')) ∧ ok s w' ∧ opened w' = opened w ∖ own t.
Proof.
  intros [Hv Ho] Ht Hs. destruct (destruct_spec t w Ht) as (t' & w' & Hr & Hv' & Hw').
  exists t', w'. unfold on. simpl. rewrite Hr. split; [done|]. split; [|done]. split; [done|]. by rewrite Hw'.
Qed.

Lemma call_quiet {A} (m : M W A) s w : quiet valid opened m → ok s w →
  ∃ a w', call m (s, w) = (Ok a, (s, w')) ∧ valid w' ∧ opened w' = opened w.
Proof.
  intros Hm [Hv _]. destruct (Hm w Hv) as (a & w' & Hr & ?). exists a, w'. unfold call. simpl. by rewrite Hr.
Qed.

Lemma bind_unix_spec addr s w : has_path addr = true → ok s w →
  ∃ used w', bind_unix addr (s, w) = (Ok used, (s, w')) ∧ valid w' ∧ opened w' = opened w.
Proof.
  intros Hp Hw. destruct addr as [a|a|a l|a]; try by (exists false, w; split; [done|]; split; [apply Hw|done]).
  simpl in Hp. unfold bind_unix.
  destruct (on_new CreateUnixTCPSocket _ s w (connect_keeps (UnixAddress a l) no_timeout) eq_refl Hw)
    as (c & t & w1 & Hr & Hs1 & Ht1 & Hd).
  rewrite (bind_ok _ _ _ _ _ Hr). destruct (Address.GetPath a l) as [path|] eqn:Hg; [|done].
  assert (∃ w2, (if c then mret tt else remove_path a l) (s, w1) = (Ok tt, (s, w2)) ∧ valid w2 ∧ opened w2 = opened w1) as (w2 & Hr2 & Hv2 & Ho2).
  { destruct c; [exists w1; split; [done|]; split; [apply Hs1|done]|].
    destruct (call_quiet (fs_unlink path) s w1 (unlink_quiet path) Hs1) as ([] & w2 & ? & ? & ?).
    exists w2. unfold remove_path. by rewrite Hg. }
  rewrite (bind_ok _ _ _ _ _ Hr2).
  assert (ok s w2) as Hs2 by (unfold ok; rewrite Ho2; split; [done|apply Hs1]).
  destruct (on_destruct t s w2 Hs2) as (t' & w3 & Hr3 & Hs3 & Ho3).
  { unfold ok. rewrite Ho2. split; [done|apply Ht1]. }
  { rewrite Ho2, Hd. apply Hw. }
  rewrite (bind_ok _ _ _ _ _ Hr3). exists c, w3. split; [done|]. split; [apply Hs3|]. rewrite Ho3, Ho2. exact Hd.
Qed.

Lemma bind_unix_keeps addr s : has_path addr = true → keeps_at s (bind_unix addr).
Proof.
  intros Hp w Hw. destruct (bind_unix_spec addr s w Hp Hw) as (u & w' & Hr & Hv & Ho).
  exists u, s, w'. unfold ok. rewrite Ho. split; [done|]. split; [split; [done|apply Hw]|done].
Qed.

Lemma bind_keeps addr : has_path addr = true → keeps (bind addr).
Proof.
  intros Hp s0. unfold bind. apply keeps_bind; [by apply keeps_upd|]. intros _ s. apply keeps_self.
  apply keeps_bind; [apply valid_or_new|]. intros _ s1. apply keeps_self.
  case_match; [apply keeps_ret|]. case_decide; [apply keeps_ret|]. apply keeps_intro. intros Hs1.
  apply keeps_bind; [by apply bind_unix_keeps|]. intros [] s2; [apply keeps_ret|].
  apply keeps_bind; [by apply keeps_call, bind_quiet|]. intros rt s3. case_decide; [apply keeps_ret|].
  apply keeps_bind; [apply GetLocalAddress_keeps|]. intros. apply keeps_ret.
Qed.

(** ** What the functions leave in the socket *)

Lemma SetOption_spec l o v s w : sockopt_ok l o v = true → ok s w →
  ∃ b w', SetOption l o v (s, w) = (Ok b, (s, w')) ∧ ok s w' ∧ opened w' = opened w.
Proof.
  intros Hok Hw. destruct (setsockopt_quiet (sock_ s) l o v (ok_sock s w Hw) Hok w (proj1 Hw)) as (r & w' & Hr & Hv & Ho).
  eexists _, w'. unfold SetOption. rewrite self_bind, (call_bind _ _ _ _ _ _ Hr). split; [reflexivity|].
  unfold ok. rewrite Ho. split; [split; [done|apply Hw]|done].
Qed.

Lemma InitSock_spec s w : ok s w → ∃ w', InitSock (s, w) = (Ok tt, (s, w')) ∧ ok s w' ∧ opened w' = opened w.
Proof.
  intros Hw. unfold InitSock.
  destruct (SetOption_spec SOL_SOCKET SO_REUSEADDR (OptInt 1) s w eq_refl Hw) as (b & w1 & Hr & Hw1 & Ho1).
  rewrite (bind_ok _ _ _ _ _ Hr), self_bind. case_decide; [|by exists w1].
  destruct (SetOption_spec IPPROTO_TCP TCP_NODELAY (OptInt 1) s w1 eq_refl Hw1) as (b2 & w2 & Hr2 & Hw2 & Ho2).
  exists w2. rewrite (bind_ok _ _ _ _ _ Hr2). split; [done|]. split; [done|]. by rewrite Ho2.
Qed.

Lemma NewSock_spec s w : sock_ s = -1 → valid w → ∃ fd w', NewSock (s, w) = (Ok tt, (set_sock_ fd s, w')) ∧
  ok (set_sock_ fd s) w' ∧ (fd ≠ -1 → fd ∉ opened w).
Proof.
  intros Hs Hv. assert (ok s w) as Hok.
  { split; [done|]. unfold own. rewrite decide_True by done. set_solver. }
  destruct (NewSock_keeps s Hs w Hok) as (u & s' & w' & Hr & Hok' & Hd). destruct u.
  unfold NewSock in Hr |- *. rewrite self_bind in Hr |- *.
  destruct (socket_opens (family_ s) (type_ s) (protocol_ s) w Hv) as (fd & w1 & Hc & Hv1 & H1).
  exists fd. rewrite (call_bind _ _ _ _ _ _ Hc), upd_bind in Hr |- *.
  assert (fd ≠ -1 → fd ∉ opened w) as Hnew by tauto.
  case_decide as Hfd; [|exists w1; split; [done|]; split; [split; [done|]|by intros ?]].
  - assert (ok (set_sock_ fd s) w1) as Hok1.
    { split; [done|]. rewrite own_set, decide_False by done. set_solver. }
    destruct (InitSock_spec _ _ Hok1) as (w2 & Hr2 & Hok2 & _). by exists w2.
  - rewrite own_set, decide_True by lia. set_solver.
Qed.

(** A socket that has no descriptor tries to get one. *)
Lemma valid_or_new_spec s w : ok s w →
  ∃ fd w', (if IsValid s then mret tt else NewSock) (s, w) = (Ok tt, (set_sock_ fd s, w')) ∧
    ok (set_sock_ fd s) w' ∧ (sock_ s ≠ -1 → fd = sock_ s).
Proof.
  intros Hw. unfold IsValid. case_bool_decide as Hs.
  - exists (sock_ s), w. by destruct s.
  - assert (sock_ s = -1) as Hs1 by lia.
    destruct (NewSock_spec s w Hs1 (proj1 Hw)) as (fd & w' & Hr & Hok & _). exists fd, w'. by split_and!.
Qed.

Lemma GetLocalAddress_spec s w : ok s w → ∃ a b w',
  GetLocalAddress (s, w) = (Ok a, (match b with Some x => set_local_address_ (Some x) s | None => s end, w')) ∧
  valid w' ∧ opened w' = opened w ∧ (∀ x, local_address_ s = Some x → a = x ∧ b = None).
Proof.
  intros Hw. unfold GetLocalAddress. rewrite self_bind. destruct (local_address_ s) as [x|] eqn:Hl.
  { exists x, None, w. split; [done|]. split; [apply Hw|]. split; [done|]. intros y Hy. by simplify_eq. }
  destruct (getsockname_quiet (sock_ s) (ok_sock s w Hw) w (proj1 Hw)) as (r & w' & Hr & Hv & Ho).
  rewrite (call_bind _ _ _ _ _ _ Hr). destruct r as [bs|].
  - exists (named (family_ s) bs), (Some (named (family_ s) bs)), w'. done.
  - exists (Address.UnknownAddress (Address.UnknownAddress_of (family_ s))), None, w'. done.
Qed.

(** [connect] on every branch. It returns true exactly when the socket has, or gets, a
    descriptor of the family of the address and the connection is made; then the socket
    is connected. When the system refuses the connection the socket is closed, and when
    it has no descriptor or another family nothing is connected. The remote address is
    the one asked for in every case, also when the function fails. *)
Theorem connect_exact addr ms s w : ok s w →
  ∃ b s' w', connect addr ms (s, w) = (Ok b, (s', w')) ∧ ok s' w' ∧
    remote_address_ s' = Some addr ∧ family_ s' = family_ s ∧
    (if (b : bool) then sock_ s' ≠ -1 ∧ is_connected_ s' = true ∧ Address.GetFamily addr = family_ s ∧
       (sock_ s ≠ -1 → sock_ s' = sock_ s) ∧
       ∃ w1 w2, sys_connect (sock_ s') addr (if decide (ms = no_timeout) then None else Some ms) w1 = (Ok 0, w2)
     else sock_ s' = -1 ∧ (is_connected_ s' = is_connected_ s ∨ is_connected_ s' = false) ∨
       sock_ s' ≠ -1 ∧ Address.GetFamily addr ≠ family_ s ∧ is_connected_ s' = is_connected_ s).
Proof.
  intros Hw. destruct (connect_keeps addr ms s w Hw) as (b & s' & w' & Hr & Hok' & _).
  exists b, s', w'. split; [done|]. split; [done|]. revert Hr. unfold connect. rewrite upd_bind, self_bind.
  set (s1 := set_remote_address_ (Some addr) s). assert (ok s1 w) as Hw1 by done.
  destruct (valid_or_new_spec s1 w Hw1) as (fd & w2 & Hr2 & Hw2 & Hfd).
  rewrite (bind_ok _ _ _ _ _ Hr2), self_bind. unfold IsValid. change (sock_ (set_sock_ fd s1)) with fd.
  case_bool_decide as Hv; [|intros [= <- <- <-]]; cbn [negb].
  2: { simpl in Hv. simpl. split_and!; [done..|left; auto]. }
  case_decide as Hf; [intros [= <- <- <-]; simpl; split_and!; [done..|right; auto]|].
  destruct (connect_quiet fd addr (if decide (ms = no_timeout) then None else Some ms)
    (ok_sock _ _ Hw2) w2 (proj1 Hw2)) as (rt & w3 & Hr3 & Hv3 & Ho3).
  rewrite (call_bind _ _ _ _ _ _ Hr3).
  assert (ok (set_sock_ fd s1) w3) as Hw3 by (unfold ok; rewrite Ho3; split; [done|apply Hw2]).
  destruct (decide (rt ≠ 0)) as [Hrt|Hrt].
  - destruct (close_spec _ _ Hw3) as (w4 & b4 & Hr4 & _). rewrite (bind_ok _ _ _ _ _ Hr4).
    intros [= <- <- <-]. simpl. split_and!; [done..|left; auto].
  - assert (rt = 0) as -> by lia. rewrite upd_bind.
    set (s4 := set_is_connected_ true (set_sock_ fd s1)).
    assert (GetRemoteAddress (s4, w3) = (Ok addr, (s4, w3))) as Hr4 by reflexivity.
    rewrite (bind_ok _ _ _ _ _ Hr4). assert (ok s4 w3) as Hw4 by done.
    destruct (GetLocalAddress_spec s4 w3 Hw4) as (a & b5 & w5 & Hr5 & _).
    rewrite (bind_ok _ _ _ _ _ Hr5). intros [= <- <- <-].
    destruct b5; simpl; (split_and!; [done..|exact Hfd|]); by exists w2, w3.
Qed.

(** The branches of [bind]. *)
Lemma bind_spec addr s w : ok s w → has_path addr = true →
  ∃ b s' w', bind addr (s, w) = (Ok b, (s', w')) ∧ ok s' w' ∧
    local_address_ s' = Some addr ∧ GetLocalAddress (s', w') = (Ok addr, (s', w')) ∧
    (sock_ s ≠ -1 → sock_ s' = sock_ s) ∧
    family_ s' = family_ s ∧ is_connected_ s' = is_connected_ s ∧ remote_address_ s' = remote_address_ s ∧
    (if (b : bool) then sock_ s' ≠ -1 ∧ Address.GetFamily addr = family_ s ∧
       (∃ w1 w2, bind_unix addr (s', w1) = (Ok false, (s', w2)) ∧ sys_bind (sock_ s') addr w2 = (Ok 0, w'))
     else sock_ s' = -1 ∨ Address.GetFamily addr ≠ family_ s ∨
       (∃ w1, bind_unix addr (s', w1) = (Ok true, (s', w'))) ∨
       ∃ w2 rt, rt ≠ 0 ∧ sys_bind (sock_ s') addr w2 = (Ok rt, w')).
Proof.
  intros Hw Hp. destruct (bind_keeps addr Hp s w Hw) as (b & s' & w' & Hr & Hok' & _).
  exists b, s', w'. split; [done|]. split; [done|]. revert Hr. unfold bind. rewrite upd_bind, self_bind.
  set (s1 := set_local_address_ (Some addr) s). assert (ok s1 w) as Hw1 by done.
  destruct (valid_or_new_spec s1 w Hw1) as (fd & w2 & Hr2 & Hw2 & Hfd).
  rewrite (bind_ok _ _ _ _ _ Hr2), self_bind. unfold IsValid. change (sock_ (set_sock_ fd s1)) with fd.
  case_bool_decide as Hv; [|intros [= <- <- <-]]; cbn [negb].
  2: { simpl in Hv. subst fd. split_and!; [done..|by left]. }
  case_decide as Hf; [intros [= <- <- <-]; simpl; split_and!; [done..|auto]|].
  destruct (bind_unix_spec addr (set_sock_ fd s1) w2 Hp Hw2) as (used & w3 & Hr3 & Hv3 & Ho3).
  rewrite (bind_ok _ _ _ _ _ Hr3).
  destruct used; [intros [= <- <- <-]; simpl; split_and!; [done..|eauto]|].
  destruct (bind_quiet fd addr (ok_sock _ _ Hw2) w3 Hv3) as (rt & w4 & Hr4 & _).
  rewrite (call_bind _ _ _ _ _ _ Hr4). destruct (decide (rt ≠ 0)) as [Hrt|Hrt].
  - intros [= <- <- <-]. simpl. split_and!; [done..|eauto 10].
  - assert (rt = 0) as -> by lia.
    assert (GetLocalAddress (set_sock_ fd s1, w4) = (Ok addr, (set_sock_ fd s1, w4))) as Hr5 by reflexivity.
    rewrite (bind_ok _ _ _ _ _ Hr5). intros [= <- <- <-]. split_and!; [done..|eauto].
Qed.

(** [bind] on every branch. It returns true exactly when the socket has, or gets, a
    descriptor of the family of the address, no server answers at the path of a Unix
    address, and the system binds the descriptor. Whatever it returns, the local address
    is the one asked for from then on: the port the system chose for port 0 is never
    asked for, and an address that could not be bound is reported as well. *)
Theorem bind_exact addr s w : ok s w → has_path addr = true →
  ∃ b s' w', bind addr (s, w) = (Ok b, (s', w')) ∧ ok s' w' ∧
    local_address_ s' = Some addr ∧ GetLocalAddress (s', w') = (Ok addr, (s', w')) ∧
    (sock_ s ≠ -1 → sock_ s' = sock_ s) ∧
    family_ s' = family_ s ∧ is_connected_ s' = is_connected_ s ∧ remote_address_ s' = remote_address_ s ∧
    (if (b : bool) then sock_ s' ≠ -1 ∧ Address.GetFamily addr = family_ s ∧
       (∃ w1 w2, bind_unix addr (s', w1) = (Ok false, (s', w2)) ∧ sys_bind (sock_ s') addr w2 = (Ok 0, w'))
     else sock_ s' = -1 ∨ Address.GetFamily addr ≠ family_ s ∨
       (∃ w1, bind_unix addr (s', w1) = (Ok true, (s', w'))) ∨
       ∃ w2 rt, rt ≠ 0 ∧ sys_bind (sock_ s') addr w2 = (Ok rt, w')).
Proof. exact (bind_spec addr s w). Qed.

(** ** Accepting *)

Lemma CreateUDP_of_spec f w : valid w → ∃ s' w', CreateUDP_of f w = (Ok tt, (s', w')) ∧ ok s' w' ∧
  opened w' ∖ own s' = opened w.
Proof.
  intros Hv. assert (keeps_at (Socket_new f UDP 0) (NewSock;; upd (set_is_connected_ true))) as Hk.
  { apply keeps_bind; [by apply NewSock_keeps|]. intros _ s. by apply keeps_upd. }
  destruct (Hk w) as ([] & s' & w' & Hr & Hok & Hd); [split; [done|]; rewrite own_new; set_solver|].
  exists s', w'. split; [done|]. split; [done|]. rewrite Hd, own_new. set_solver.
Qed.

Definition usable (c : FdCtx) : bool := FdManager.IsSocket c && negb (FdManager.IsClose c).

(** [Init] takes a descriptor that has a usable context, and otherwise nothing. *)
Lemma Init_spec fd t w : ok t w → own t = ∅ → fd ∈ opened w →
  ∃ b t' w' c, Init fd (t, w) = (Ok b, (t', w')) ∧ ok t' w' ∧ opened w' = opened w ∧
    (∃ w1, fd_ctx fd w = (Ok c, w1)) ∧
    if (b : bool) then own t' = {[fd]} else own t' = ∅ ∧ ∀ x, c = Some x → usable x = false.
Proof.
  intros Hw Ht Hin. pose proof (opened_nonneg _ _ (proj1 Hw) Hin) as Hfd.
  destruct (fd_ctx_quiet fd ltac:(lia) w (proj1 Hw)) as (c & w1 & Hc & Hv1 & Ho1).
  unfold Init. rewrite (call_bind _ _ _ _ _ _ Hc).
  assert (ok t w1) as Hw1 by (unfold ok; rewrite Ho1; split; [done|apply Hw]).
  destruct c as [c|]; [|by exists false, t, w1, None; split_and!; try done; eauto].
  destruct (FdManager.IsSocket c && negb (FdManager.IsClose c)) eqn:Hu.
  2: { exists false, t, w1, (Some c). split_and!; try done; [by eauto|]. by intros x [= <-]. }
  rewrite !upd_bind. set (t1 := set_is_connected_ true (set_sock_ fd t)).
  assert (own t1 = {[fd]}) as Hown by (unfold t1, own; simpl; by rewrite decide_False by lia).
  assert (ok t1 w1) as Ht1 by (unfold ok; rewrite Hown, Ho1; split; [done|set_solver]).
  destruct (InitSock_spec t1 w1 Ht1) as (w2 & Hr2 & Hok2 & Ho2). rewrite (bind_ok _ _ _ _ _ Hr2).
  destruct (GetLocalAddress_spec t1 w2 Hok2) as (a & l & w3 & Hr3 & Hv3 & Ho3 & _). rewrite (bind_ok _ _ _ _ _ Hr3).
  set (t2 := match l with Some x => _ | None => _ end).
  assert (own t2 = {[fd]}) as Hown2 by (unfold t2; destruct l; exact Hown).
  assert (ok t2 w3) as Hok3 by (unfold ok; rewrite Hown2, Ho3, Ho2, Ho1; split; [done|set_solver]).
  destruct (GetRemoteAddress_keeps t2 w3 Hok3) as (a2 & t3 & w4 & Hr4 & Hok4 & Hd4).
  assert (own t3 = {[fd]} ∧ opened w4 = opened w3) as [Hown3 Ho4].
  { revert Hr4. unfold GetRemoteAddress. rewrite self_bind.
    destruct (remote_address_ t2); [by intros [= <- <- <-]|].
    destruct (getpeername_quiet (sock_ t2) (ok_sock _ _ Hok3) w3 Hv3) as (r & w5 & Hr5 & Hv5 & Ho5).
    rewrite (call_bind _ _ _ _ _ _ Hr5). destruct r; [rewrite upd_bind|]; by intros [= <- <- <-]. }
  rewrite (bind_ok _ _ _ _ _ Hr4). exists true, t3, w4, (Some c). split_and!; try done; [|by eauto].
  by rewrite Ho4, Ho3, Ho2.
Qed.

(** An accepted connection has a socket of its own, unless its descriptor has no usable
    context: then the descriptor stays open and nothing has it any more. *)
Lemma accept_from_spec fd0 s w : -1 ≤ fd0 → ok s w → ∃ r w', accept_from fd0 (s, w) = (Ok r, (s, w')) ∧ valid w' ∧
  match r with
  | Some t => ok t w' ∧ own t ≠ ∅ ∧ own t ## opened w ∧ opened w' ∖ own t = opened w
  | None => opened w' = opened w ∨
      ∃ fd w1 c w2, sys_accept fd0 w = (Ok fd, w1) ∧ fd ≠ -1 ∧ fd_ctx fd w1 = (Ok c, w2) ∧
        (∀ x, c = Some x → usable x = false) ∧ fd ∉ opened w ∧ opened w' = {[fd]} ∪ opened w
  end.
Proof.
  intros Hfd0 Hw. unfold accept_from. rewrite self_bind. cbv zeta.
  set (t := Socket_new (family_ s) (type_ s) (protocol_ s)).
  destruct (accept_opens fd0 Hfd0 w (proj1 Hw)) as (fd & w1 & Hr1 & Hv1 & Hc).
  rewrite (call_bind _ _ _ _ _ _ Hr1).
  assert (opened w ⊆ opened w1) as Hsub by (destruct Hc as [[_ ->]|(_ & _ & ->)]; set_solver).
  assert (ok s w1) as Hw1 by (split; [done|]; destruct Hw; set_solver).
  assert (ok t w1) as Ht1 by (split; [done|]; unfold own; simpl; set_solver).
  destruct Hc as [[-> Ho1]|(Hfd & Hni & Ho1)].
  - rewrite decide_True by done. destruct (on_destruct t s w1 Hw1 Ht1) as (t' & w2 & Hr2 & Hok2 & Ho2).
    { unfold own at 2. simpl. destruct Hw1. set_solver. }
    rewrite (bind_ok _ _ _ _ _ Hr2). exists None, w2. split; [done|]. split; [apply Hok2|].
    left. rewrite Ho2, Ho1. unfold own. simpl. set_solver.
  - rewrite decide_False by done.
    destruct (Init_spec fd t w1 Ht1 eq_refl) as (b & t' & w2 & c & Hr2 & Hok2 & Ho2 & (w0 & Hx) & Hb); [set_solver|].
    assert (on t (Init fd) (s, w1) = (Ok (b, t'), (s, w2))) as Hon by (unfold on; simpl; by rewrite Hr2).
    rewrite (bind_ok _ _ _ _ _ Hon). destruct b.
    + exists (Some t'), w2. split; [done|]. split; [apply Hok2|]. split; [done|]. rewrite Hb, Ho2, Ho1.
      split; [|split]; set_solver.
    + destruct Hb as [Hown Hb].
      assert (ok s w2) as Hs2 by (unfold ok; rewrite Ho2; split; [apply Hok2|apply Hw1]).
      destruct (on_destruct t' s w2 Hs2 Hok2) as (t3 & w3 & Hr3 & Hok3 & Ho3).
      { rewrite Hown. destruct Hs2. set_solver. }
      rewrite (bind_ok _ _ _ _ _ Hr3). exists None, w3. split; [done|]. split; [apply Hok3|].
      right. exists fd, w1, c, w0. split_and!; try done. rewrite Ho3, Ho2, Ho1, Hown. set_solver.
Qed.

Lemma accept_self s w : accept (s, w) = accept_from (sock_ s) (s, w).
Proof. reflexivity. Qed.

(** With hooking on, every accepted descriptor gets a context of a socket. *)
Definition hooked_accept : Prop := ∀ fd w r w', valid w → sys_accept fd w = (Ok r, w') → r ≠ -1 →
  ∃ c w'', fd_ctx r w' = (Ok (Some c), w'') ∧ usable c = true.

(** ** The sockets of a program *)

(** The member functions that do not make sockets. A program cancels only what waits on a
    socket that has a descriptor: on any other one the IO manager would read before the
    start of its table. *)
Inductive op :=
  | OBind (a : Address.Address)
  | OConnect (a : Address.Address) (ms : Z)
  | OReconnect (ms : Z)
  | OListen (n : Z)
  | OClose
  | OTransferOut (iov : list (list Z)) (flags : Z) (to : option Address.Address)
  | OTransferIn (lens : list nat) (flags : Z)
  | OGetLocalAddress
  | OGetRemoteAddress
  | OGetTimeout (type : Z)
  | OSetTimeout (type v : Z)
  | OSetOption (level option : Z) (v : optval)
  | OGetOption (level option : Z)
  | OGetError
  | OCancel (event : Z)
  | OCancelAll.

Definition run_op (o : op) : SM () :=
  match o with
  | OBind a => bind a;; mret tt
  | OConnect a ms => connect a ms;; mret tt
  | OReconnect ms => reconnect ms;; mret tt
  | OListen n => listen n;; mret tt
  | OClose => close;; mret tt
  | OTransferOut iov flags to => transfer_out iov flags to;; mret tt
  | OTransferIn lens flags => transfer_in lens flags;; mret tt
  | OGetLocalAddress => GetLocalAddress;; mret tt
  | OGetRemoteAddress => GetRemoteAddress;; mret tt
  | OGetTimeout type => GetTimeout type;; mret tt
  | OSetTimeout type v => SetOption SOL_SOCKET type (timeval_of v);; mret tt
  | OSetOption l o v => SetOption l o v;; mret tt
  | OGetOption l o => GetOption l o;; mret tt
  | OGetError => GetError;; mret tt
  | OCancel event =>
      s ← self; if IsValid s then call (cancel_event (sock_ s) event);; mret tt else mret tt
  | OCancelAll => s ← self; if IsValid s then CancelAll;; mret tt else mret tt
  end.

(** What a program does with sockets it knows by number. *)
Inductive request :=
  | MakeTCP (i : nat) (family type : Z)
  | MakeUDP (i : nat) (family : Z)
  | Use (i : nat) (o : op)
  | Accept (i j : nat)
  | Destroy (i : nat).

Abbreviation Sockets := (gmap nat Socket).

(** A request about a socket that is not there, or for a number that is taken, is none. *)
Definition exec (q : request) (m : Sockets) (w : W) : res () * (Sockets * W) :=
  match q with
  | MakeTCP i f ty => (Ok tt, (match m !! i with None => <[i := Socket_new f ty 0]> m | Some _ => m end, w))
  | MakeUDP i f =>
      match m !! i with
      | Some _ => (Ok tt, (m, w))
      | None => let '(r, (s, w)) := CreateUDP_of f w in (r, (<[i := s]> m, w))
      end
  | Use i o =>
      match m !! i with
      | None => (Ok tt, (m, w))
      | Some s => let '(r, (s, w)) := run_op o (s, w) in (r, (<[i := s]> m, w))
      end
  | Accept i j =>
      match m !! i, m !! j with
      | Some s, None =>
          let '(r, (s, w)) := accept (s, w) in
          match r with
          | Ok (Some t) => (Ok tt, (<[j := t]> (<[i := s]> m), w))
          | Ok None => (Ok tt, (<[i := s]> m, w))
          | Err e => (Err e, (<[i := s]> m, w))
          end
      | _, _ => (Ok tt, (m, w))
      end
  | Destroy i =>
      match m !! i with
      | None => (Ok tt, (m, w))
      | Some s => let '(r, (s, w)) := destruct (s, w) in (r, (delete i m, w))
      end
  end.

Fixpoint exec_all (qs : list request) (m : Sockets) (w : W) : res () * (Sockets * W) :=
  match qs with
  | [] => (Ok tt, (m, w))
  | q :: qs => match exec q m w with
               | (Ok _, (m, w)) => exec_all qs m w
               | r => r
               end
  end.

Definition op_ok (o : op) : bool :=
  match o with
  | OBind a => has_path a
  | OSetOption l o v => sockopt_ok l o v
  | OCancel e => bool_decide (e = READ ∨ e = WRITE)
  | _ => true
  end.
Definition request_ok (q : request) : bool := match q with Use _ o => op_ok o | _ => true end.

Lemma run_op_keeps o : op_ok o = true → keeps (run_op o).
Proof.
  intros Ho s. destruct o; cbn [run_op]; try (apply keeps_bind; [|intros; apply keeps_ret]).
  - by apply bind_keeps.
  - apply connect_keeps.
  - apply reconnect_keeps.
  - apply listen_keeps.
  - apply close_keeps.
  - unfold transfer_out. keeps_tac.
  - unfold transfer_in. keeps_tac.
  - apply GetLocalAddress_keeps.
  - apply GetRemoteAddress_keeps.
  - unfold GetTimeout. keeps_tac.
  - by apply SetOption_keeps.
  - by apply SetOption_keeps.
  - apply GetOption_keeps.
  - unfold GetError, GetOption. keeps_tac.
  - apply keeps_self. destruct (IsValid s) eqn:Hv; [|apply keeps_ret]. apply bool_decide_eq_true in Hv.
    apply keeps_bind; [|intros; apply keeps_ret]. revert Hv. apply keeps_open. intros Hs.
    apply keeps_call, cancel_event_quiet; [done|]. by apply bool_decide_eq_true in Ho.
  - apply keeps_self. destruct (IsValid s) eqn:Hv; [|apply keeps_ret]. apply bool_decide_eq_true in Hv.
    apply keeps_bind; [|intros; apply keeps_ret]. by apply CancelAll_keeps.
Qed.

(** Who has which descriptor; [base] are those open before the program began. *)
Record ledger (base : gset Z) (m : Sockets) w : Prop := mk_ledger {
  l_valid : valid w;
  l_base : base ⊆ opened w;
  l_own i s : m !! i = Some s → own s ⊆ opened w ∖ base;
  l_disjoint i j s t : i ≠ j → m !! i = Some s → m !! j = Some t → own s ## own t;
  l_cover fd : fd ∈ opened w → fd ∈ base ∨ ∃ i s, m !! i = Some s ∧ fd ∈ own s
}.

Definition own_opt (x : option Socket) : gset Z := match x with Some s => own s | None => ∅ end.

(** Replacing the socket [i], or making or removing it. *)
Lemma ledger_step base m w i y w' : ledger base m w → valid w' → own_opt y ⊆ opened w' →
  opened w' ∖ own_opt y = opened w ∖ own_opt (m !! i) →
  ledger base (partial_alter (λ _, y) i m) w'.
Proof.
  intros Hl Hv Hy Hd.
  assert (own_opt (m !! i) ⊆ opened w ∖ base) as Hx.
  { destruct (m !! i) as [s|] eqn:Hi; [by eapply l_own|simpl; set_solver]. }
  assert (∀ j t, j ≠ i → m !! j = Some t → own t ⊆ opened w' ∖ own_opt y ∖ base) as Hother.
  { intros j t Hj Ht. rewrite Hd. pose proof (l_own _ _ _ Hl _ _ Ht).
    assert (own t ## own_opt (m !! i)); [|set_solver].
    destruct (m !! i) as [s|] eqn:Hi; [by apply (l_disjoint _ _ _ Hl j i)|simpl; set_solver]. }
  pose proof (l_base _ _ _ Hl) as Hb.
  assert (base ⊆ opened w' ∖ own_opt y) as Hb'.
  { rewrite Hd. set_solver. }
  constructor; [done|set_solver| | |].
  - intros j t Ht. destruct (decide (j = i)) as [->|Hj].
    + rewrite lookup_partial_alter_eq in Ht. rewrite Ht in Hy, Hb'. simpl in *. set_solver.
    + rewrite lookup_partial_alter_ne in Ht by done. specialize (Hother _ _ Hj Ht). set_solver.
  - assert (∀ j s t, j ≠ i → m !! j = Some t → y = Some s → own s ## own t) as Hij.
    { intros j s t Hj Ht ->. specialize (Hother _ _ Hj Ht). simpl in *. set_solver. }
    intros j k s t Hjk Hs Ht. destruct (decide (j = i)) as [->|Hj], (decide (k = i)) as [->|Hk]; [done| | |].
    + rewrite lookup_partial_alter_eq in Hs. rewrite lookup_partial_alter_ne in Ht by done. by apply (Hij k).
    + rewrite lookup_partial_alter_eq in Ht. rewrite lookup_partial_alter_ne in Hs by done.
      symmetry. by apply (Hij j).
    + rewrite lookup_partial_alter_ne in Hs, Ht by done. by apply (l_disjoint _ _ _ Hl j k).
  - intros fd Hfd. destruct (decide (fd ∈ own_opt y)) as [Hin|Hin].
    { destruct y as [s|]; [|simpl in Hin; set_solver]. right. exists i, s.
      by rewrite lookup_partial_alter_eq. }
    assert (fd ∈ opened w ∖ own_opt (m !! i)) as [Ho Hni]%elem_of_difference by (rewrite <- Hd; set_solver).
    destruct (l_cover _ _ _ Hl fd Ho) as [?|(j & s & Hs & Hf)]; [by left|]. right. exists j, s. split; [|done].
    rewrite lookup_partial_alter_ne; [done|]. intros ->. rewrite Hs in Hni. done.
Qed.

Lemma ledger_ok base m w i s : ledger base m w → m !! i = Some s → ok s w.
Proof. intros Hl Hs. split; [apply Hl|]. pose proof (l_own _ _ _ Hl _ _ Hs). set_solver. Qed.

Lemma exec_ledger q base m w : hooked_accept → request_ok q = true → ledger base m w →
  ∃ m' w', exec q m w = (Ok tt, (m', w')) ∧ ledger base m' w'.
Proof.
  intros Hh Hq Hl. destruct q as [i f ty|i f|i o|i j|i]; cbn [exec].
  - eexists _, w. split; [reflexivity|]. destruct (m !! i) eqn:Hi; [done|].
    apply (ledger_step base m w i (Some _)); [done|apply Hl|simpl; rewrite own_new; set_solver|].
    rewrite Hi. simpl. by rewrite own_new.
  - destruct (m !! i) eqn:Hi; [by exists m, w|].
    destruct (CreateUDP_of_spec f w (l_valid _ _ _ Hl)) as (s' & w' & Hr & [Hv Ho] & Hd). rewrite Hr.
    eexists _, w'. split; [reflexivity|]. apply (ledger_step base m w i (Some s')); [done..|].
    rewrite Hi. simpl. rewrite Hd. set_solver.
  - destruct (m !! i) as [s|] eqn:Hi; [|by exists m, w].
    destruct (run_op_keeps o Hq s w (ledger_ok _ _ _ _ _ Hl Hi)) as ([] & s' & w' & Hr & [Hv Ho] & Hd).
    rewrite Hr. eexists _, w'. split; [reflexivity|]. apply (ledger_step base m w i (Some s')); [done..|].
    by rewrite Hi.
  - destruct (m !! i) as [s|] eqn:Hi; [|by exists m, w]. destruct (m !! j) eqn:Hj; [by exists m, w|].
    pose proof (ledger_ok _ _ _ _ _ Hl Hi) as Hoks.
    destruct (accept_from_spec (sock_ s) s w (ok_sock s w Hoks) Hoks) as (r & w' & Hr & Hv & Hc). rewrite accept_self, Hr.
    rewrite insert_id by done. destruct r as [t|].
    + destruct Hc as ([_ Hot] & _ & _ & Hd). eexists _, w'. split; [reflexivity|].
      apply (ledger_step base m w j (Some t)); [done..|]. rewrite Hj. simpl. rewrite Hd. set_solver.
    + eexists _, w'. split; [reflexivity|]. destruct Hc as [Hc|(fd & w1 & c & w2 & Hx & Hn & Hy & Hz & _)].
      * destruct Hl as [_ Hb Hown Hdis Hcov]. constructor; rewrite ?Hc; done.
      * destruct (Hh _ _ _ _ (l_valid _ _ _ Hl) Hx Hn) as (c' & w3 & Hctx & Hu).
        rewrite Hctx in Hy. simplify_eq. by rewrite (Hz c' eq_refl) in Hu.
  - destruct (m !! i) as [s|] eqn:Hi; [|by exists m, w].
    destruct (destruct_spec s w (ledger_ok _ _ _ _ _ Hl Hi)) as (s' & w' & Hr & Hv & Ho). rewrite Hr.
    eexists _, w'. split; [reflexivity|]. apply (ledger_step base m w i None); [done|done|simpl; set_solver|].
    rewrite Hi. simpl. rewrite Ho. set_solver.
Qed.

Lemma exec_all_ledger qs base m w : hooked_accept → forallb request_ok qs = true → ledger base m w →
  ∃ m' w', exec_all qs m w = (Ok tt, (m', w')) ∧ ledger base m' w'.
Proof.
  intros Hh. revert m w. induction qs as [|q qs IH]; intros m w Hq Hl; simpl in *.
  { by exists m, w. }
  apply andb_true_iff in Hq as [Hq Hqs].
  destruct (exec_ledger q base m w Hh Hq Hl) as (m1 & w1 & Hr & Hl1). rewrite Hr. by apply IH.
Qed.

Lemma ledger_new w : valid w → ledger (opened w) ∅ w.
Proof.
  intros Hv. constructor; [done|done| | |by left]; intros *; rewrite lookup_empty; done.
Qed.

(** C4. No descriptor is lost, shared or closed behind somebody's back. Whatever a
    program does with its sockets, in whatever order, with hooking on: every call
    returns; the descriptors that are open afterwards are those that were open before
    and, one each and all different, those of the sockets that are left; so when all of
    them are destroyed, exactly the descriptors from before are open. *)
Theorem sockets_own qs w0 : hooked_accept → forallb request_ok qs = true → valid w0 →
  ∃ m w, exec_all qs ∅ w0 = (Ok tt, (m, w)) ∧
    (∀ fd, fd ∈ opened w ↔ fd ∈ opened w0 ∨ ∃ i s, m !! i = Some s ∧ sock_ s = fd ∧ fd ≠ -1) ∧
    (∀ i s, m !! i = Some s → sock_ s ∉ opened w0) ∧
    (∀ i j s t, i ≠ j → m !! i = Some s → m !! j = Some t → sock_ s = sock_ t → sock_ s = -1) ∧
    (m = ∅ → opened w = opened w0).
Proof.
  intros Hh Hq Hv. destruct (exec_all_ledger qs _ _ _ Hh Hq (ledger_new w0 Hv)) as (m & w & Hr & Hl).
  assert (∀ s fd, fd ∈ own s ↔ sock_ s = fd ∧ fd ≠ -1) as Hown.
  { intros s fd. unfold own. case_decide; set_solver by lia. }
  exists m, w. split; [done|]. split_and!.
  - intros fd. split.
    + intros Hfd. destruct (l_cover _ _ _ Hl fd Hfd) as [?|(i & s & Hs & Hf)]; [by left|]. right.
      exists i, s. split; [done|]. by apply Hown.
    + intros [Hb|(i & s & Hs & Hf)]; [by apply (l_base _ _ _ Hl)|]. apply Hown in Hf.
      pose proof (l_own _ _ _ Hl _ _ Hs). set_solver.
  - intros i s Hs Hin. destruct (decide (sock_ s = -1)) as [Hm|Hn].
    + rewrite Hm in Hin. apply (opened_nonneg _ _ Hv) in Hin. lia.
    + pose proof (l_own _ _ _ Hl _ _ Hs) as Hsub. assert (sock_ s ∈ own s) by by apply Hown. set_solver.
  - intros i j s t Hij Hs Ht He. destruct (decide (sock_ s = -1)) as [?|Hn]; [done|].
    pose proof (l_disjoint _ _ _ Hl i j s t Hij Hs Ht) as Hd.
    assert (sock_ s ∈ own s) by by apply Hown. assert (sock_ s ∈ own t) by by apply Hown. set_solver.
  - intros ->. apply set_eq. intros fd. split; [|by apply (l_base _ _ _ Hl)].
    intros Hfd. destruct (l_cover _ _ _ Hl fd Hfd) as [?|(i & s & Hs & _)]; [done|].
    by rewrite lookup_empty in Hs.
Qed.

End laws.
End socket.

(** ** A small system *)

(** Descriptors are given out in increasing order; [pending] connections can be accepted,
    [servers] are the Unix paths where one answers; every name is the one bytes of
    [name]. *)
Record Sim := mkSim { fds : gset Z; next : Z; pending : nat; servers : bool }.

Definition sim_open (w : Sim) : res Z * Sim :=
  (Ok (next w), mkSim ({[next w]} ∪ fds w) (next w + 1) (pending w) (servers w)).

Definition sim_ctx : FdCtx := FdManager.FdCtx_new (FdManager.mk_kernel_fd (Some true) 2) 0.

#[global] Instance sim_net : Net Sim := {|
  sys_socket _ _ _ := sim_open;
  sys_accept fd := λ w, match (if bool_decide (fd ∈ fds w) then pending w else O) with
    | O => (Ok (-1), w)
    | S n => sim_open (mkSim (fds w) (next w) n (servers w))
    end;
  sys_close fd := λ w, (Ok 0, mkSim (fds w ∖ {[fd]}) (next w) (pending w) (servers w));
  sys_bind fd _ := λ w, (Ok (if bool_decide (fd ∈ fds w) then 0 else -1), w);
  sys_listen fd _ := λ w, (Ok (if bool_decide (fd ∈ fds w) then 0 else -1), w);
  sys_connect fd a _ := λ w, (Ok (if servers w && bool_decide (fd ∈ fds w) then 0 else -1), w);
  sys_setsockopt _ _ _ _ := mret 0;
  sys_getsockopt _ _ _ := mret (0, 0, 0);
  sys_getsockname _ := mret None;
  sys_getpeername _ := mret None;
  sys_sendto _ iov _ _ := mret (Z.of_nat (length (concat iov)));
  sys_recvfrom _ _ _ := mret (0, [], []);
  fs_unlink _ := mret tt;
  fd_ctx fd := λ w, (Ok (if bool_decide (fd ∈ fds w) then Some sim_ctx else None), w);
  cancel_event _ _ := mret false;
  cancel_all _ := mret false
|}.

Definition sim_valid (w : Sim) : Prop := 0 ≤ next w ∧ ∀ fd, fd ∈ fds w → 0 ≤ fd < next w.

Lemma sim_opens w : sim_valid w → ∃ fd w', sim_open w = (Ok fd, w') ∧ sim_valid w' ∧
  (fd = -1 ∧ fds w' = fds w ∨ fd ≠ -1 ∧ fd ∉ fds w ∧ fds w' = {[fd]} ∪ fds w).
Proof.
  intros [Hn Hf]. do 2 eexists. split; [reflexivity|]. split.
  - split; simpl; [lia|]. intros fd [->%elem_of_singleton|?%Hf]%elem_of_union; lia.
  - right. simpl. split_and!; [lia| |done]. intros H%Hf. lia.
Qed.

#[global, refine] Instance sim_laws : NetLaws Sim := {| valid := sim_valid; opened := fds |}.
Proof.
  - intros w fd [_ Hf] Hin. apply Hf in Hin. lia.
  - intros f t p w Hv. by apply sim_opens.
  - intros fd _ w Hv. simpl. destruct (if bool_decide (fd ∈ fds w) then _ else _) as [|n]; [by exists (-1), w; split_and!; auto|].
    destruct (sim_opens (mkSim (fds w) (next w) n (servers w)) Hv) as (fd' & w' & ?). by exists fd', w'.
  - intros fd w [Hn Hf] Hin. do 2 eexists. split; [reflexivity|]. split; [|done]. split; [done|].
    simpl. intros x [Hx _]%elem_of_difference. by apply Hf.
  - intros fd a _ w Hv. by do 2 eexists.
  - intros fd a _ w Hv. by do 2 eexists.
  - intros fd a t _ w Hv. by do 2 eexists.
  - intros * _ w Hv. by do 2 eexists.
  - intros * _ w Hv. by do 2 eexists.
  - intros * _ w Hv. by do 2 eexists.
  - intros * _ w Hv. by do 2 eexists.
  - intros * _ w Hv. by do 2 eexists.
  - intros * _ w Hv. by do 2 eexists.
  - intros * w Hv. by do 2 eexists.
  - intros * _ w Hv. by do 2 eexists.
  - intros * _ w Hv. by do 2 eexists.
  - intros * _ w Hv. by do 2 eexists.
Defined.

Lemma sim_hooked : hooked_accept (W := Sim).
Proof.
  intros fd w r w' Hv Hr Hn. simpl in *. destruct (if bool_decide (fd ∈ fds w) then _ else _) as [|n]; [by simplify_eq|].
  unfold sim_open in Hr. simpl in Hr. injection Hr as <- <-. exists sim_ctx. simpl.
  rewrite bool_decide_eq_true_2 by set_solver. by eexists.
Qed.

(** The standard descriptors are open, two clients wait. *)
Definition sim0 : Sim := mkSim {[0; 1; 2]} 3 2 false.

Lemma sim0_valid : valid sim0.
Proof. split; simpl; [lia|]. set_solver by lia. Qed.

Definition loopback : Address.Address :=
  Address.IPv4Address (Address.IPv4Address_of SYLAR_LITTLE_ENDIAN 2130706433 0).

Definition session : list request :=
  [MakeTCP 1 IPv4 TCP; Use 1 (OBind loopback); Use 1 (OListen SOMAXCONN); Accept 1 2; Accept 1 3; Accept 1 4;
   Use 2 (OTransferOut [[1; 2; 3]] 0 None); Use 2 OClose; Destroy 1].

Lemma sockets_own_witness : ∃ m w, exec_all SYLAR_LITTLE_ENDIAN session ∅ sim0 = (Ok tt, (m, w)) ∧
  ((∃ i s, m !! i = Some s ∧ sock_ s = 5 ∧ 5 ≠ -1) ∧ m ≠ ∅).
Proof.
  destruct (sockets_own SYLAR_LITTLE_ENDIAN session sim0 sim_hooked eq_refl sim0_valid) as (m & w & Hr & Ho & _ & _).
  exists m, w. split; [exact Hr|].
  assert (opened w = {[0; 1; 2; 5]}) as Hw.
  { vm_compute in Hr. injection Hr as <- <-. vm_compute. reflexivity. }
  assert (5 ∉ opened sim0) as Hn5 by (apply (bool_decide_eq_true_1 _); vm_compute; reflexivity).
  assert (5 ∈ opened w) as H5 by (rewrite Hw; apply (bool_decide_eq_true_1 _); vm_compute; reflexivity).
  destruct (proj1 (Ho 5) H5) as [H|(i & s & Hi & Hs)]; [exact (False_ind _ (Hn5 H))|]. clear Hr.
  split; [exact (ex_intro _ i (ex_intro _ s (conj Hi Hs)))|]. intros Hm. rewrite Hm, lookup_empty in Hi.
  discriminate Hi.
Defined.

Lemma connect_exact_witness : ∃ s' w',
  connect SYLAR_LITTLE_ENDIAN loopback 1000 (Socket_new IPv4 TCP 0, sim0) = (Ok false, (s', w')) ∧
  sock_ s' = -1 ∧ remote_address_ s' = Some loopback.
Proof.
  destruct (connect_exact SYLAR_LITTLE_ENDIAN loopback 1000 (Socket_new IPv4 TCP 0) sim0) as (b & s' & w' & Hr & _ & Ha & _ & Hb).
  { split; [apply sim0_valid|]. set_solver. }
  assert (b = false) as -> by (vm_compute in Hr; congruence). exists s', w'. split; [exact Hr|].
  split; [|exact Ha]. destruct Hb as [[H _]|(_ & H & _)]; [exact H|]. by destruct H.
Defined.

Lemma bind_exact_witness : ∃ s' w',
  bind SYLAR_LITTLE_ENDIAN loopback (Socket_new IPv4 TCP 0, sim0) = (Ok true, (s', w')) ∧
  GetLocalAddress SYLAR_LITTLE_ENDIAN (s', w') = (Ok loopback, (s', w')) ∧ sock_ s' ≠ -1.
Proof.
  destruct (bind_exact SYLAR_LITTLE_ENDIAN loopback (Socket_new IPv4 TCP 0) sim0) as (b & s' & w' & Hr & _ & _ & Ha & _ & _ & _ & _ & Hb).
  { split; [apply sim0_valid|]. set_solver. }
  { reflexivity. }
  assert (b = true) as -> by (vm_compute in Hr; congruence). exists s', w'. split; [exact Hr|].
  split; [exact Ha|apply Hb].
Defined.

(** [CreateUnixUDPSocket] makes no descriptor, unlike the other two UDP sockets. *)
Example unix_udp_has_no_descriptor :
  sock_ CreateUnixUDPSocket = -1 ∧ is_connected_ CreateUnixUDPSocket = false ∧
  sock_ (CreateUDPSocket sim0).2.1 = 3 ∧ is_connected_ (CreateUDPSocket sim0).2.1 = true.
Proof. by vm_compute. Qed.

(** [close] says false when it closed something. *)
Example close_returns_false :
  let s := mkSocket 2 IPv4 TCP 0 true None None in
  (close (s, sim0)).1 = Ok false ∧ (close (set_is_connected_ false (set_sock_ (-1) s), sim0)).1 = Ok true.
Proof. by vm_compute. Qed.

End Socket.
