(* ===== verification/TcpServer.v ===== *)
(** * TCP servers (tcp/tcp_server.h, tcp/tcp_server.cc)

    [Module TcpServer]: a server over the sockets of [Socket.v]. Sockets are shared: they
    are on a heap, and one is destroyed when neither the server, nor a scheduled
    function, nor a local variable has it any more. The two schedulers are the lists of
    the functions given to them; [Event] is a call of the server's functions or a step of
    a scheduled one, from one point where it can wait to the next.

    Theorems: [bind] is all or nothing ([tcp_bind_exact]); sockets and descriptors are
    never lost ([server_owns]); what a turn of the accept loop does ([accept_turn]). The
    end of a stopped server is shown in Stack.v and Drain.v, where [accept] returns only
    when something wakes it. *)

From stdpp Require Import gmap sets.
From S2P Require Import Prelude Endian StringUtil Address Socket.
Import Endian StringUtil.

Module TcpServer.

Local Open Scope Z_scope.

Record TcpServer := mkTcpServer {
  socks_ : list nat;
  recv_timeout_ : Z;
  name_ : str;
  type_ : str;
  is_stop_ : bool
}.

Definition TcpServer_new (read_timeout : Z) : TcpServer :=
  mkTcpServer [] read_timeout (S_ "1.0.0") (S_ "tcp") true.

Definition set_socks_ (l : list nat) (t : TcpServer) : TcpServer :=
  mkTcpServer l (recv_timeout_ t) (name_ t) (type_ t) (is_stop_ t).
Definition set_is_stop_ (b : bool) (t : TcpServer) : TcpServer :=
  mkTcpServer (socks_ t) (recv_timeout_ t) (name_ t) (type_ t) b.

(** What is scheduled on the accept worker: [StartAccept] at the head of its loop, the
    same inside the call of [::accept], which was made with the descriptor [fd] that the
    socket had then, and the function [Stop] schedules. *)
Inductive task := TStartAccept (sock : nat) | TAccepting (sock : nat) (fd : Z) | TClose.

#[export] Instance task_eq_dec : EqDecision task.
Proof. solve_decision. Defined.

Definition task_socks (t : task) : list nat :=
  match t with TStartAccept p | TAccepting p _ => [p] | TClose => [] end.

Section server.
Context {W : Type} `{!Net W} (host : endian).

(** The server, the sockets, the two workers ([io_worker] by the client of each
    [HandleClient]) and the system. *)
Record State := mkState {
  server : TcpServer;
  heap : gmap nat Socket.Socket;
  next_ptr : nat;
  accept_worker : list task;
  io_worker : list nat;
  world : W
}.

Definition set_server (f : TcpServer → TcpServer) (s : State) : State :=
  mkState (f (server s)) (heap s) (next_ptr s) (accept_worker s) (io_worker s) (world s).
Definition set_heap (h : gmap nat Socket.Socket) (s : State) : State :=
  mkState (server s) h (next_ptr s) (accept_worker s) (io_worker s) (world s).
Definition set_accept_worker (l : list task) (s : State) : State :=
  mkState (server s) (heap s) (next_ptr s) l (io_worker s) (world s).
Definition set_io_worker (l : list nat) (s : State) : State :=
  mkState (server s) (heap s) (next_ptr s) (accept_worker s) l (world s).

Definition TM (A : Type) : Type := M State A.

(** A member function of the socket [p] points to. *)
Definition deref {A} (p : nat) (m : Socket.SM (W := W) A) : TM A := λ st,
  match heap st !! p with
  | None => (Err UndefinedBehaviour, st)
  | Some s =>
      let '(r, (s, w)) := m (s, world st) in
      (r, mkState (server st) (<[p := s]> (heap st)) (next_ptr st) (accept_worker st) (io_worker st) w)
  end.

(** A new object, and the end of a pointer to one. *)
Definition make (s : Socket.Socket) : TM nat := λ st,
  (Ok (next_ptr st), mkState (server st) (<[next_ptr st := s]> (heap st)) (S (next_ptr st))
     (accept_worker st) (io_worker st) (world st)).

Definition referenced (p : nat) (st : State) : Prop :=
  p ∈ socks_ (server st) ∨ p ∈ accept_worker st ≫= task_socks ∨ p ∈ io_worker st.

#[export] Instance referenced_dec p st : Decision (referenced p st) := _.

Definition release (p : nat) : TM () := λ st,
  if decide (referenced p st) then (Ok tt, st)
  else match heap st !! p with
       | None => (Ok tt, st)
       | Some _ => match deref p Socket.destruct st with
                   | (Ok _, st) => (Ok tt, set_heap (delete p (heap st)) st)
                   | r => r
                   end
       end.

Fixpoint release_all (ps : list nat) : TM () :=
  match ps with
  | [] => mret tt
  | p :: ps => release p;; release_all ps
  end.

(** [socks_.clear()]. *)
Definition clear_socks : TM () :=
  st ← mget;
  mput (set_server (set_socks_ []) st);;
  release_all (socks_ (server st)).

Definition close_sock (p : nat) : TM () := deref p Socket.close;; mret tt.

Fixpoint close_all (ps : list nat) : TM () :=
  match ps with
  | [] => mret tt
  | p :: ps => close_sock p;; close_all ps
  end.

Definition destruct_server : TM () :=
  l ← mgets (λ st, socks_ (server st));
  close_all l;;
  clear_socks.

(** ** bind *)

(** One turn of the loop; the result is [fails] after it. *)
Definition bind_one (addr : Address.Address) (fails : list Address.Address) : TM (list Address.Address) :=
  sock ← make (Socket.CreateTCP addr);
  bound ← deref sock (Socket.bind host addr);
  if negb bound then release sock;; mret (fails ++ [addr])
  else
    listening ← deref sock (Socket.listen Socket.SOMAXCONN);
    if negb listening then release sock;; mret (fails ++ [addr])
    else
      mmodify (λ st, set_server (set_socks_ (socks_ (server st) ++ [sock])) st);;
      mret fails.

Fixpoint bind_loop (addrs fails : list Address.Address) : TM (list Address.Address) :=
  match addrs with
  | [] => mret fails
  | addr :: addrs => fails ← bind_one addr fails; bind_loop addrs fails
  end.

Definition bind_all (addrs fails : list Address.Address) : TM (bool * list Address.Address) :=
  fails ← bind_loop addrs fails;
  if negb (bool_decide (fails = [])) then clear_socks;; mret (false, fails)
  else mret (true, fails).

Definition bind (addr : Address.Address) : TM bool :=
  '(ok, _) ← bind_all [addr] []; mret ok.

(** ** Start and Stop *)

Definition Start : TM bool :=
  st ← mget;
  if negb (is_stop_ (server st)) then mret true
  else
    mput (set_accept_worker (accept_worker st ++ (TStartAccept <$> socks_ (server st)))
            (set_server (set_is_stop_ false) st));;
    mret true.

Definition Stop : TM () :=
  mmodify (λ st, set_accept_worker (accept_worker st ++ [TClose]) (set_server (set_is_stop_ true) st)).

(** ** The scheduled functions *)

Definition accept_result (client : option Socket.Socket) : TM () :=
  match client with
  | Some s =>
      client ← make s;
      st ← mget;
      deref client (Socket.SetRecvTimeout i64(recv_timeout_ (server st)));;
      mmodify (λ st, set_io_worker (io_worker st ++ [client]) st)
  | None => mret tt
  end.

(** The function [Stop] schedules. *)
Fixpoint cancel_close (ps : list nat) : TM () :=
  match ps with
  | [] => mret tt
  | p :: ps => deref p Socket.CancelAll;; close_sock p;; cancel_close ps
  end.

(** The descriptor that [accept] of a socket passes to the system. *)
Definition accept_fd (sock : nat) : TM Z := deref sock (s ← Socket.self; mret (Socket.sock_ s)).

(** The step of task [n], which has been taken from the list. The step of a loop inside
    [::accept] is the return of that call: it comes when a client does or the call fails,
    which may be never. *)
Definition run_task (n : nat) (t : task) : TM () :=
  let replace t := mmodify (λ st, set_accept_worker (<[n := t]> (accept_worker st)) st) in
  let remove := mmodify (λ st, set_accept_worker (delete n (accept_worker st)) st) in
  match t with
  | TStartAccept sock =>
      st ← mget;
      if is_stop_ (server st) then remove;; release sock
      else fd ← accept_fd sock; replace (TAccepting sock fd)
  | TAccepting sock fd =>
      client ← deref sock (Socket.accept_from host fd);
      accept_result client;;
      replace (TStartAccept sock)
  | TClose =>
      l ← mgets (λ st, socks_ (server st));
      cancel_close l;;
      clear_socks;;
      remove
  end.

(** A step of the [n]th function of a worker. [HandleClient] only logs; its client goes
    with the scheduled function. *)
Definition step_task (n : nat) : TM () :=
  st ← mget;
  match accept_worker st !! n with
  | Some t => run_task n t
  | None => mret tt
  end.

Definition HandleClient (client : nat) : TM () := mret tt.

Definition step_client (n : nat) : TM () :=
  st ← mget;
  match io_worker st !! n with
  | Some p => HandleClient p;; mput (set_io_worker (delete n (io_worker st)) st);; release p
  | None => mret tt
  end.

Inductive event :=
  | EBind (addrs fails : list Address.Address)
  | EStart
  | EStop
  | ETask (n : nat)
  | EClient (n : nat).

Definition exec (e : event) : TM () :=
  match e with
  | EBind addrs fails => bind_all addrs fails;; mret tt
  | EStart => Start;; mret tt
  | EStop => Stop
  | ETask n => step_task n
  | EClient n => step_client n
  end.

Fixpoint exec_all (es : list event) : TM () :=
  match es with
  | [] => mret tt
  | e :: es => exec e;; exec_all es
  end.

Definition State_new (read_timeout : Z) (w : W) : State :=
  mkState (TcpServer_new read_timeout) ∅ 0 [] [] w.

(** ** The invariant *)

Section laws.
Context `{!NetLaws W}.
Implicit Types (st : State) (p : nat) (base : gset Z) (ls : list nat).

(** The heap has the sockets somebody refers to, [ls] being local variables, and each
    open descriptor is one of theirs or from before. *)
Record inv base ls st : Prop := mk_inv {
  i_ledger : Socket.ledger base (heap st) (world st);
  i_owned p : is_Some (heap st !! p) ↔ referenced p st ∨ p ∈ ls;
  i_fresh p : is_Some (heap st !! p) → (p < next_ptr st)%nat;
  i_nodup : NoDup (socks_ (server st));
  i_calls p fd : TAccepting p fd ∈ accept_worker st → -1 ≤ fd
}.

(** The sockets of the server have descriptors. *)
Definition live st : Prop := ∀ p, p ∈ socks_ (server st) → ∃ s, heap st !! p = Some s ∧ Socket.sock_ s ≠ -1.

Lemma live_heap st st' : live st → (∀ p, p ∈ socks_ (server st') → p ∈ socks_ (server st)) →
  (∀ p, p ∈ socks_ (server st') → heap st' !! p = heap st !! p) → live st'.
Proof. intros Hl Hs Hh p Hp. rewrite Hh by done. by apply Hl, Hs. Qed.

Definition put p (s : Socket.Socket) (w : W) st : State :=
  mkState (server st) (<[p := s]> (heap st)) (next_ptr st) (accept_worker st) (io_worker st) w.

Lemma deref_ok {A} p s (m : Socket.SM (W := W) A) st r s' w' : heap st !! p = Some s →
  m (s, world st) = (r, (s', w')) → deref p m st = (r, put p s' w' st).
Proof. intros Hp Hm. unfold deref. rewrite Hp, Hm. done. Qed.

Lemma inv_put base ls st p s s' w' : inv base ls st → heap st !! p = Some s → Socket.ok s' w' →
  opened w' ∖ Socket.own s' = opened (world st) ∖ Socket.own s → inv base ls (put p s' w' st).
Proof.
  intros [Hl Ho Hf Hn Hk] Hp [Hv Hown] Hd. constructor; [| | |done|done].
  - apply (Socket.ledger_step base (heap st) (world st) p (Some s')); [done..|]. by rewrite Hp.
  - intros q. transitivity (is_Some (heap st !! q)); [|apply Ho]. simpl. destruct (decide (q = p)) as [->|Hq].
    + rewrite lookup_insert_eq, Hp. by split; eauto.
    + by rewrite lookup_insert_ne.
  - intros q. simpl. destruct (decide (q = p)) as [->|Hq]; [intros _; apply Hf; by rewrite Hp|].
    rewrite lookup_insert_ne by done. apply Hf.
Qed.

(** A member function of a socket that is there. *)
Lemma deref_inv {A} base ls st p s (m : Socket.SM (W := W) A) : inv base ls st → heap st !! p = Some s →
  Socket.keeps_at s m → ∃ a s' w', deref p m st = (Ok a, put p s' w' st) ∧
    m (s, world st) = (Ok a, (s', w')) ∧ Socket.ok s' w' ∧ inv base ls (put p s' w' st).
Proof.
  intros Hi Hp Hm. destruct (Hm (world st)) as (a & s' & w' & Hr & Hok & Hd).
  { exact (Socket.ledger_ok _ _ _ _ _ (i_ledger _ _ _ Hi) Hp). }
  exists a, s', w'. split; [by eapply deref_ok|]. split; [done|]. split; [done|].
  eapply inv_put; [exact Hi|exact Hp|exact Hok|exact Hd].
Qed.

Lemma fresh_ptr base ls st : inv base ls st → heap st !! next_ptr st = None.
Proof. intros Hi. apply eq_None_not_Some. intros H. apply (i_fresh _ _ _ Hi) in H. lia. Qed.

Definition made (s : Socket.Socket) st : State :=
  mkState (server st) (<[next_ptr st := s]> (heap st)) (S (next_ptr st)) (accept_worker st) (io_worker st) (world st).

Lemma fresh_referenced base ls st p : inv base ls st → (next_ptr st ≤ p)%nat → ¬ referenced p st ∧ p ∉ ls.
Proof.
  intros Hi Hp. pose proof (proj2 (i_owned _ _ _ Hi p)) as Ho. pose proof (i_fresh _ _ _ Hi p) as Hf.
  split; intros H; assert (p < next_ptr st)%nat by auto; lia.
Qed.

(** A new socket; its descriptor, if it has one, is not any other's. *)
Lemma make_inv base ls st s w : inv base ls st → valid w → Socket.own s ⊆ opened w →
  opened w ∖ Socket.own s = opened (world st) →
  inv base (next_ptr st :: ls) (made s (mkState (server st) (heap st) (next_ptr st) (accept_worker st) (io_worker st) w)).
Proof.
  intros Hi Hv Ho Hd. destruct Hi as [Hl Hown Hf Hn Hk] eqn:Heq. constructor; [| | |done|done].
  - simpl. apply (Socket.ledger_step base (heap st) (world st) (next_ptr st) (Some s)); [done..|].
    rewrite (fresh_ptr _ _ _ Hi). simpl. rewrite Hd. set_solver.
  - intros q. unfold made, referenced. simpl. rewrite elem_of_cons.
    destruct (decide (q = next_ptr st)) as [->|Hq].
    + rewrite lookup_insert_eq. split; [by auto|by eauto].
    + rewrite lookup_insert_ne by done. rewrite Hown. unfold referenced. naive_solver.
  - intros q. simpl. destruct (decide (q = next_ptr st)) as [->|Hq]; [lia|].
    rewrite lookup_insert_ne by done. intros H%Hf. lia.
Qed.

(** The state with another heap and system. *)
Definition with_heap (h : gmap nat Socket.Socket) (w : W) st : State :=
  mkState (server st) h (next_ptr st) (accept_worker st) (io_worker st) w.

(** The end of a local variable. *)
Lemma release_inv base ls st p : inv base (p :: ls) st → p ∉ ls → ∃ h w,
  release p st = (Ok tt, with_heap h w st) ∧ inv base ls (with_heap h w st) ∧
  (∀ q, q ≠ p → h !! q = heap st !! q).
Proof.
  intros Hi Hp. unfold release. destruct (decide (referenced p st)) as [Hr|Hr].
  - exists (heap st), (world st). split; [by destruct st|]. split; [|done]. destruct Hi as [Hl Ho Hf Hn Hk].
    constructor; try done. intros q. specialize (Ho q). rewrite elem_of_cons in Ho. simpl.
    unfold referenced in *. simpl in *. rewrite Ho. naive_solver.
  - destruct (proj2 (i_owned _ _ _ Hi p)) as [s Hs]; [right; by left|]. rewrite Hs.
    assert (Socket.ok s (world st)) as Hok by (exact (Socket.ledger_ok _ _ _ _ _ (i_ledger _ _ _ Hi) Hs)).
    destruct (Socket.destruct_spec s (world st) Hok) as (s' & w' & Hd & Hv & Hw).
    rewrite (deref_ok p s _ _ _ _ _ Hs Hd). unfold set_heap, put. simpl. rewrite delete_insert_eq.
    exists (delete p (heap st)), w'. split; [done|]. split; [|intros q Hq; by rewrite lookup_delete_ne].
    destruct Hi as [Hl Ho Hf Hn Hk]. constructor; [| | |done|done].
    + apply (Socket.ledger_step base (heap st) (world st) p None); [done|done|simpl; set_solver|].
      rewrite Hs. simpl. rewrite Hw. set_solver.
    + intros q. specialize (Ho q). rewrite elem_of_cons in Ho. unfold referenced in *. simpl in *.
      destruct (decide (q = p)) as [->|Hq].
      * rewrite lookup_delete_eq. split; [by intros [? ?]|naive_solver].
      * rewrite lookup_delete_ne by done. naive_solver.
    + intros q. simpl. destruct (decide (q = p)) as [->|Hq]; [rewrite lookup_delete_eq; by intros [? ?]|].
      rewrite lookup_delete_ne by done. apply Hf.
Qed.

(** A local variable that ends is not a socket of the server. *)
Lemma release_live st p h w : live st → release p st = (Ok tt, with_heap h w st) →
  (∀ q, q ≠ p → h !! q = heap st !! q) → live (with_heap h w st).
Proof.
  intros Hl Hr Hh q Hq. simpl in Hq |- *. destruct (decide (q = p)) as [->|Hne]; [|rewrite Hh by done; by apply Hl].
  unfold release in Hr. rewrite decide_True in Hr by (by left). injection Hr as Hst.
  rewrite <- (f_equal heap Hst : heap st = h). by apply Hl.
Qed.

Lemma release_all_inv base ls ps : ∀ st, inv base (ps ++ ls) st → NoDup ps → (∀ p, p ∈ ps → p ∉ ls) → ∃ h w,
  release_all ps st = (Ok tt, with_heap h w st) ∧ inv base ls (with_heap h w st) ∧
  (∀ q, q ∉ ps → h !! q = heap st !! q).
Proof.
  induction ps as [|p ps IH]; intros st Hi Hn Hd; simpl.
  { exists (heap st), (world st). destruct st. done. }
  apply NoDup_cons in Hn as [Hp Hn].
  destruct (release_inv base (ps ++ ls) st p Hi) as (h & w & Hr & Hi1 & Hh).
  { rewrite elem_of_app. intros [?|?]; [done|]. by apply (Hd p); [left|]. }
  rewrite (bind_ok _ _ _ _ _ Hr).
  destruct (IH _ Hi1 Hn) as (h2 & w2 & Hr2 & Hi2 & Hh2); [intros q Hq; apply Hd; by right|].
  exists h2, w2. split; [exact Hr2|]. split; [exact Hi2|]. intros q [Hq Hqs]%not_elem_of_cons.
  rewrite Hh2 by done. by apply Hh.
Qed.

(** [socks_.clear()]: the sockets nobody else has are destroyed. *)
Lemma clear_socks_inv base ls st : inv base ls st → (∀ p, p ∈ socks_ (server st) → p ∉ ls) → ∃ h w,
  clear_socks st = (Ok tt, with_heap h w (set_server (set_socks_ []) st)) ∧
  inv base ls (with_heap h w (set_server (set_socks_ []) st)) ∧
  (∀ q, q ∉ socks_ (server st) → h !! q = heap st !! q).
Proof.
  intros Hi Hd. assert (inv base (socks_ (server st) ++ ls) (set_server (set_socks_ []) st)) as Hi1.
  { destruct Hi as [Hl Ho Hf Hn Hk]. constructor; [done| |done|constructor|done]. intros q. specialize (Ho q).
    unfold referenced in *. simpl in *. rewrite elem_of_app. rewrite Ho. pose proof (not_elem_of_nil q). tauto. }
  destruct (release_all_inv _ _ _ _ Hi1 (i_nodup _ _ _ Hi) Hd) as (h & w & Hr & Hi2 & Hh).
  exists h, w. split; [exact Hr|]. split; [exact Hi2|exact Hh].
Qed.

(** A list of locals can be forgotten or gained when the same pointer is referred to anyway. *)
Lemma inv_equiv base ls ls' st : (∀ p, referenced p st ∨ p ∈ ls ↔ referenced p st ∨ p ∈ ls') →
  inv base ls st → inv base ls' st.
Proof. intros He [Hl Ho Hf Hn Hk]. constructor; try done. intros p. rewrite Ho. apply He. Qed.

(** ** bind keeps it *)

Lemma inv_push base ls st p : inv base (p :: ls) st → ¬ referenced p st →
  inv base ls (set_server (set_socks_ (socks_ (server st) ++ [p])) st).
Proof.
  intros [Hl Ho Hf Hn Hk] Hp. constructor; [done| |done| |done].
  - intros q. specialize (Ho q). unfold referenced in *. simpl in *. rewrite Ho.
    rewrite elem_of_app, elem_of_cons, list_elem_of_singleton. tauto.
  - simpl. apply NoDup_app. split_and!; [done| |apply NoDup_singleton]. intros q Hq ->%list_elem_of_singleton.
    apply Hp. by left.
Qed.

Definition tasks_same st st' : Prop :=
  accept_worker st' = accept_worker st ∧ io_worker st' = io_worker st ∧
  server st' = set_socks_ (socks_ (server st')) (server st) ∧ (next_ptr st ≤ next_ptr st')%nat.

(** A listening socket bound to [a]. *)
Definition listens st (a : Address.Address) (p : nat) : Prop :=
  ∃ s, heap st !! p = Some s ∧ Socket.sock_ s ≠ -1 ∧ Socket.family_ s = Address.GetFamily a ∧
    Socket.local_address_ s = Some a.

Lemma listen_spec (s : Socket.Socket) n w : Socket.ok s w → ∃ b w', Socket.listen n (s, w) = (Ok b, (s, w')) ∧
  valid w' ∧ opened w' = opened w.
Proof.
  intros Hw. unfold Socket.listen. rewrite Socket.self_bind. destruct (Socket.IsValid s).
  - cbn [negb]. destruct (listen_quiet (Socket.sock_ s) n (Socket.ok_sock s w Hw) w (proj1 Hw)) as (r & w' & Hr & ?).
    eexists _, w'. by rewrite (Socket.call_bind _ _ _ _ _ _ Hr).
  - exists false, w. split; [done|]. split; [apply Hw|done].
Qed.

(** What a turn leaves alone: the tasks and all sockets from before. *)
Definition frame st st' : Prop :=
  tasks_same st st' ∧ ∀ q, (q < next_ptr st)%nat → heap st' !! q = heap st !! q.

Lemma frame_trans st1 st2 st3 : frame st1 st2 → frame st2 st3 → frame st1 st3.
Proof.
  intros [(H1 & H2 & H3 & H4) H5] [(H6 & H7 & H8 & H9) H10]. split; [split_and!; try congruence; [|lia]|].
  - rewrite H8, H3. done.
  - intros q Hq. rewrite H10 by lia. auto.
Qed.

Lemma frame_put st st1 p s w : frame st st1 → (next_ptr st ≤ p)%nat → frame st (put p s w st1).
Proof.
  intros [H1 H2] Hp. split; [done|]. intros q Hq. simpl. rewrite lookup_insert_ne by lia. auto.
Qed.

(** Giving up the new socket [p]. *)
Lemma give_back {A} base st st1 p (x : A) : inv base [p] st1 → frame st st1 → (next_ptr st ≤ p)%nat →
  ∃ st', (release p;; mret x) st1 = (Ok x, st') ∧ inv base [] st' ∧ frame st st' ∧
    socks_ (server st') = socks_ (server st1).
Proof.
  intros Hi [H1 H2] Hp. destruct (release_inv base [] st1 p Hi) as (h & w & Hr & Hi2 & Hh).
  { by apply not_elem_of_nil. }
  rewrite (bind_ok _ _ _ _ _ Hr). exists (with_heap h w st1). split; [done|]. split; [done|]. split; [|done].
  split; [done|]. intros q Hq. simpl. rewrite Hh by lia. auto.
Qed.

Lemma make_local base st s : inv base [] st → Socket.own s = ∅ →
  inv base [next_ptr st] (made s st) ∧ frame st (made s st).
Proof.
  intros Hi Hs. split.
  - pose proof (make_inv base [] st s (world st) Hi (Socket.l_valid _ _ _ (i_ledger _ _ _ Hi))) as H.
    destruct st. apply H; rewrite Hs; [set_solver|]. apply difference_empty_L.
  - split; [split_and!; simpl; [done|done|by destruct (server st)|lia]|]. intros q Hq. simpl.
    by rewrite lookup_insert_ne by lia.
Qed.

Lemma bind_one_spec base addr fails st : inv base [] st → Socket.has_path addr = true → ∃ fails' st',
  bind_one addr fails st = (Ok fails', st') ∧ inv base [] st' ∧ frame st st' ∧
  (fails' = fails ++ [addr] ∧ socks_ (server st') = socks_ (server st) ∨
   fails' = fails ∧ ∃ p, socks_ (server st') = socks_ (server st) ++ [p] ∧ listens st' addr p ∧
     (p < next_ptr st')%nat).
Proof.
  intros Hi Hp. set (s := Socket.CreateTCP addr). set (p := next_ptr st).
  destruct (make_local base st s Hi (Socket.own_new _ _ _)) as [Hi0 Hf0].
  assert (make s st = (Ok p, made s st)) as Hmk by done.
  assert (heap (made s st) !! p = Some s) as Hps by (simpl; apply lookup_insert_eq).
  destruct (deref_inv _ _ _ _ _ _ Hi0 Hps (Socket.bind_keeps host addr Hp _)) as (b & s1 & w1 & Hr1 & Hm1 & Hok1 & Hi1).
  destruct (Socket.bind_spec host addr s (world (made s st))) as (b' & s1' & w1' & Hm1' & _ & Hla & _ & _ & Hfam & _ & _ & Hb);
    [exact (Socket.ledger_ok _ _ _ _ _ (i_ledger _ _ _ Hi0) Hps)|done|].
  rewrite Hm1' in Hm1. injection Hm1 as -> -> ->.
  set (st1 := put p s1 w1 (made s st)) in *.
  assert (heap st1 !! p = Some s1) as Hp1 by (simpl; apply lookup_insert_eq).
  assert (frame st st1) as Hf1 by (apply frame_put; [done|unfold p; lia]).
  unfold bind_one. rewrite (bind_ok _ _ _ _ _ Hmk), (bind_ok _ _ _ _ _ Hr1).
  destruct b; cbn [negb].
  2: { destruct (give_back base st st1 p (fails ++ [addr]) Hi1 Hf1) as (st' & ? & ? & ? & ?); [unfold p; lia|].
    exists (fails ++ [addr]), st'. split_and!; try done. by left. }
  destruct (listen_spec s1 Socket.SOMAXCONN w1 Hok1) as (l & w2 & Hl & Hv2 & Ho2).
  pose proof (deref_ok p s1 (Socket.listen Socket.SOMAXCONN) st1 _ _ _ Hp1 Hl) as Hr2.
  rewrite (bind_ok _ _ _ _ _ Hr2). set (st2 := put p s1 w2 st1) in *.
  assert (frame st st2) as Hf2 by (apply frame_put; [done|unfold p; lia]).
  assert (inv base [p] st2) as Hi2.
  { apply (inv_put base [p] st1 p s1 s1 w2 Hi1 Hp1); [|by rewrite Ho2]. unfold Socket.ok. rewrite Ho2.
    split; [done|apply Hok1]. }
  destruct l; cbn [negb].
  2: { destruct (give_back base st st2 p (fails ++ [addr]) Hi2 Hf2) as (st' & ? & ? & ? & ?); [unfold p; lia|].
    exists (fails ++ [addr]), st'. split_and!; try done. by left. }
  destruct (fresh_referenced base [] st p Hi) as [Hnr _]; [unfold p; lia|].
  eexists fails, _. split; [reflexivity|]. split; [by apply inv_push|].
  split; [destruct Hf2 as [(H1 & H2 & H3 & H4) H5]; split; [split_and!; [done..|exact H4]|exact H5]|].
  right. split; [done|]. exists p. split; [done|]. split; [|simpl; unfold p; lia].
  exists s1. simpl. rewrite lookup_insert_eq. destruct Hb as (Hs & Hf & _). by rewrite Hfam.
Qed.

Lemma listens_frame st st' a p : frame st st' → (p < next_ptr st)%nat → listens st a p → listens st' a p.
Proof. intros [_ Hf] Hp (s & Hs & ?). exists s. by rewrite Hf. Qed.

Lemma bind_loop_spec base addrs : ∀ fails st, inv base [] st → forallb Socket.has_path addrs = true →
  ∃ failed st' new, bind_loop addrs fails st = (Ok (fails ++ failed), st') ∧ inv base [] st' ∧ frame st st' ∧
    failed `sublist_of` addrs ∧ socks_ (server st') = socks_ (server st) ++ new ∧
    Forall (λ p, (p < next_ptr st')%nat) new ∧ (failed = [] → Forall2 (listens st') addrs new).
Proof.
  induction addrs as [|a addrs IH]; intros fails st Hi Hp; simpl in *.
  { exists [], st, []. rewrite !app_nil_r. split; [done|]. split; [done|].
    split; [split; [split_and!; [done|done|by destruct (server st)|lia]|done]|]. split_and!; try done; by constructor. }
  apply andb_true_iff in Hp as [Hp Hps].
  destruct (bind_one_spec base a fails st Hi Hp) as (fails1 & st1 & Hr1 & Hi1 & Hf1 & Hc).
  rewrite (bind_ok _ _ _ _ _ Hr1).
  destruct (IH fails1 st1 Hi1 Hps) as (failed & st2 & new & Hr2 & Hi2 & Hf2 & Hsub & Hs2 & Hn & Hl).
  pose proof (frame_trans _ _ _ Hf1 Hf2) as Hf.
  destruct Hc as [[-> Hs1]|(-> & p & Hs1 & Hlp & Hpn)].
  - exists (a :: failed), st2, new. rewrite <- (assoc_L (++)) in Hr2. split; [exact Hr2|].
    split; [done|]. split; [done|]. split; [by apply sublist_skip|]. split; [by rewrite Hs2, Hs1|]. by split.
  - exists failed, st2, (p :: new). split; [exact Hr2|]. split; [done|]. split; [done|].
    split; [by apply sublist_cons|]. split; [by rewrite Hs2, Hs1, <- (assoc_L (++))|].
    split; [constructor; [|done]; destruct Hf2 as [(_ & _ & _ & ?) _]; lia|].
    intros Hfe. constructor; [exact (listens_frame _ _ _ _ Hf2 Hpn Hlp)|auto].
Qed.

Lemma bind_all_spec base addrs st : inv base [] st → forallb Socket.has_path addrs = true →
  ∀ fails, ∃ failed st' new, bind_all addrs fails st = (Ok (bool_decide (fails ++ failed = []), fails ++ failed), st') ∧
    inv base [] st' ∧ tasks_same st st' ∧ failed `sublist_of` addrs ∧
    if bool_decide (fails ++ failed = []) then
      socks_ (server st') = socks_ (server st) ++ new ∧ Forall2 (listens st') addrs new
    else socks_ (server st') = [].
Proof.
  intros Hi Hp fails.
  destruct (bind_loop_spec base addrs fails st Hi Hp) as (failed & st1 & new & Hr1 & Hi1 & [Ht _] & Hsub & Hs & _ & Hl).
  exists failed. unfold bind_all. rewrite (bind_ok _ _ _ _ _ Hr1). case_bool_decide as Hf; cbn [negb].
  - exists st1, new. apply app_eq_nil in Hf as [-> ->]. split_and!; try done; by apply Hl.
  - destruct (clear_socks_inv base [] st1 Hi1) as (h & w & Hr2 & Hi2 & _); [intros p _; apply not_elem_of_nil|].
    rewrite (bind_ok _ _ _ _ _ Hr2). eexists _, []. split; [reflexivity|]. split; [exact Hi2|].
    split; [|by split]. destruct Ht as (H1 & H2 & H3 & H4). split_and!; simpl; [done|done| |done].
    rewrite H3. done.
Qed.

Lemma bind_all_live base addrs st fails r st' : inv base [] st → live st → forallb Socket.has_path addrs = true →
  bind_all addrs fails st = (r, st') → live st'.
Proof.
  intros Hi Hl Hp. destruct (bind_loop_spec base addrs fails st Hi Hp)
    as (failed & st1 & new & Hr1 & Hi1 & [_ Hf] & _ & Hs & _ & Hn).
  unfold bind_all. rewrite (bind_ok _ _ _ _ _ Hr1). case_bool_decide as He; cbn [negb].
  - intros [= _ <-]. apply app_eq_nil in He as [_ ->]. specialize (Hn eq_refl).
    intros p. rewrite Hs. intros [Hin|Hin]%elem_of_app.
    + destruct (Hl p Hin) as (s & Hps & Hsock). exists s. split; [|done]. rewrite Hf; [done|].
      apply (i_fresh _ _ _ Hi). by eexists.
    + apply list_elem_of_lookup in Hin as [i Hin].
      destruct (Forall2_lookup_r _ _ _ _ _ Hn Hin) as (a & _ & s & Hps & Hsock & _). by exists s.
  - destruct (clear_socks_inv base [] st1 Hi1) as (h & w & Hr2 & _ & _); [intros p _; apply not_elem_of_nil|].
    rewrite (bind_ok _ _ _ _ _ Hr2). intros [= _ <-]. intros p Hin. by apply not_elem_of_nil in Hin.
Qed.

(** ** The steps of the workers *)

Lemma get_bind {B} (f : State → TM B) st : ((mget : TM State) ≫= f) st = f st st.
Proof. reflexivity. Qed.

Lemma bind_insert {A B} (f : A → list B) (l : list A) n t t' :
  l !! n = Some t → f t' = f t → (<[n := t']> l) ≫= f = l ≫= f.
Proof.
  revert n. induction l as [|x l IH]; intros [|n] Hn Hf; simplify_eq/=; [by rewrite Hf|].
  f_equal. by apply IH.
Qed.

Lemma bind_delete {A B} (f : A → list B) (l : list A) n t :
  l !! n = Some t → ∀ x, x ∈ l ≫= f ↔ x ∈ f t ∨ x ∈ delete n l ≫= f.
Proof.
  revert n. induction l as [|y l IH]; intros [|n] Hn x; simplify_eq/=; rewrite !elem_of_app; [done|].
  rewrite (IH n Hn). tauto.
Qed.

Lemma inv_replace base ls st n t t' : inv base ls st → accept_worker st !! n = Some t →
  task_socks t' = task_socks t → (∀ p fd, t' = TAccepting p fd → -1 ≤ fd) → inv base ls (set_accept_worker (<[n := t']> (accept_worker st)) st).
Proof.
  intros [Hl Ho Hf Hn Hc] Hk He Ht'. constructor; [done| |done|done|].
  - intros p. specialize (Ho p). unfold referenced in *. simpl. by rewrite (bind_insert _ _ _ _ _ Hk He).
  - simpl. intros p fd [i [(_ & Hin & _)|[_ Hin]]%list_lookup_insert_Some]%list_elem_of_lookup; [by eapply Ht'|].
    eapply Hc. by eapply list_elem_of_lookup_2.
Qed.

Lemma inv_remove base ls st n t : inv base ls st → accept_worker st !! n = Some t →
  inv base (task_socks t ++ ls) (set_accept_worker (delete n (accept_worker st)) st).
Proof.
  intros [Hl Ho Hf Hn Hc] Hk. constructor; [done| |done|done|].
  - intros p. specialize (Ho p). unfold referenced in *. simpl. rewrite (bind_delete _ _ _ _ Hk) in Ho.
    rewrite elem_of_app. rewrite Ho. tauto.
  - simpl. intros p fd Hin. apply (Hc p). rewrite (delete_Permutation _ _ _ Hk). by right.
Qed.

Lemma task_heap base ls st n t p : inv base ls st → accept_worker st !! n = Some t → p ∈ task_socks t →
  ∃ s, heap st !! p = Some s ∧ Socket.ok s (world st).
Proof.
  intros Hi Hn Hp. destruct (proj2 (i_owned _ _ _ Hi p)) as [s Hs].
  { left. right. left. apply list_elem_of_bind. exists t. split; [done|]. by eapply list_elem_of_lookup_2. }
  exists s. split; [done|]. exact (Socket.ledger_ok _ _ _ _ _ (i_ledger _ _ _ Hi) Hs).
Qed.

Lemma SetRecvTimeout_spec v (s : Socket.Socket) w : Socket.ok s w → ∃ w',
  Socket.SetRecvTimeout v (s, w) = (Ok tt, (s, w')) ∧ Socket.ok s w' ∧ opened w' = opened w.
Proof.
  intros Hw. unfold Socket.SetRecvTimeout.
  destruct (Socket.SetOption_spec Socket.SOL_SOCKET FdManager.FdManager.SO_RCVTIMEO (Socket.timeval_of v) s w eq_refl Hw)
    as (b & w' & Hr & ?). exists w'. by rewrite (bind_ok _ _ _ _ _ Hr).
Qed.

(** A turn of the accept loop that has accepted, or not. *)
Lemma accepting_spec base st n p fd : Socket.hooked_accept (W := W) → inv base [] st →
  accept_worker st !! n = Some (TAccepting p fd) →
  ∃ s r w st', heap st !! p = Some s ∧ Socket.accept_from host fd (s, world st) = (Ok r, (s, w)) ∧
    step_task n st = (Ok tt, st') ∧ inv base [] st' ∧ server st' = server st ∧
    accept_worker st' = <[n := TStartAccept p]> (accept_worker st) ∧
    match r with
    | Some c => Socket.own c ≠ ∅ ∧
        (∃ w', Socket.SetRecvTimeout i64(recv_timeout_ (server st)) (c, w) = (Ok tt, (c, w')) ∧ world st' = w') ∧
        io_worker st' = io_worker st ++ [next_ptr st] ∧ heap st' = <[next_ptr st := c]> (heap st)
    | None => io_worker st' = io_worker st ∧ heap st' = heap st ∧ world st' = w
    end.
Proof.
  intros Hh Hi Hn. destruct (task_heap _ _ _ _ _ p Hi Hn) as (s & Hs & Hok); [by left|].
  assert (-1 ≤ fd) as Hfd by (eapply (i_calls _ _ _ Hi); by eapply list_elem_of_lookup_2).
  destruct (Socket.accept_from_spec host fd s (world st) Hfd Hok) as (r & w & Hr & Hv & Hc).
  exists s, r, w.
  assert (deref p (Socket.accept_from host fd) st = (Ok r, with_heap (heap st) w st)) as Hd.
  { rewrite (deref_ok p s _ _ _ _ _ Hs Hr). unfold put. by rewrite insert_id. }
  unfold step_task. rewrite get_bind, Hn. unfold run_task. cbv zeta. rewrite (bind_ok _ _ _ _ _ Hd).
  destruct r as [c|].
  - destruct Hc as (Hcok & Hne & _ & Hdiff).
    pose proof (make_inv base [] st c w Hi Hv (proj2 Hcok) Hdiff) as Hi1.
    set (st1 := made c _) in Hi1.
    assert (make c (with_heap (heap st) w st) = (Ok (next_ptr st), st1)) as Hmk by done.
    assert (heap st1 !! next_ptr st = Some c) as Hpc by (simpl; apply lookup_insert_eq).
    destruct (SetRecvTimeout_spec i64(recv_timeout_ (server st)) c w Hcok) as (w2 & Hr2 & Hok2 & Ho2).
    assert (deref (next_ptr st) (Socket.SetRecvTimeout i64(recv_timeout_ (server st))) st1 =
      (Ok tt, put (next_ptr st) c w2 st1)) as Hd2 by (by eapply deref_ok).
    assert (inv base [next_ptr st] (put (next_ptr st) c w2 st1)) as Hi2.
    { eapply inv_put; [exact Hi1|exact Hpc|exact Hok2|]. by rewrite Ho2. }
    set (st2 := put (next_ptr st) c w2 st1) in *.
    assert (accept_result (Some c) (with_heap (heap st) w st) =
      (Ok tt, set_io_worker (io_worker st2 ++ [next_ptr st]) st2)) as Hres.
    { unfold accept_result. rewrite (bind_ok _ _ _ _ _ Hmk), get_bind. by rewrite (bind_ok _ _ _ _ _ Hd2). }
    rewrite (bind_ok _ _ _ _ _ Hres). eexists. split; [done|]. split; [done|]. split; [reflexivity|].
    split; [|split; [done|split; [done|split; [done|split; [by exists w2|split; [done|]]]]]].
    + apply (inv_replace base [] _ n (TAccepting p fd)); [|done|done|done]. destruct Hi2 as [Hl Ho Hf Hnd Hcl].
      constructor; [done| |done|done|done]. intros q. specialize (Ho q). unfold referenced in *. simpl in *.
      rewrite Ho, !elem_of_app, list_elem_of_singleton. pose proof (not_elem_of_nil q). tauto.
    + simpl. by rewrite insert_insert_eq.
  - assert (opened w = opened (world st)) as Ho.
    { destruct Hc as [?|(fd1 & w1 & c & w2 & Hx & Hfd1 & Hy & Hz & _)]; [done|].
      destruct (Hh _ _ _ _ (proj1 Hok) Hx Hfd1) as (c' & w3 & Hctx & Hu). rewrite Hctx in Hy.
      simplify_eq. by rewrite (Hz c' eq_refl) in Hu. }
    eexists. split; [done|]. split; [done|]. split; [reflexivity|]. split; [|done].
    apply (inv_replace base [] _ n (TAccepting p fd)); [|done|done|done].
    assert (inv base [] (put p s w st)) as Hp.
    { eapply inv_put; [exact Hi|exact Hs| |by rewrite Ho]. unfold Socket.ok. rewrite Ho. split; [done|apply Hok]. }
    unfold put in Hp. by rewrite insert_id in Hp.
Qed.

Lemma accept_fd_ok st p s : heap st !! p = Some s → accept_fd p st = (Ok (Socket.sock_ s), st).
Proof.
  intros Hs. unfold accept_fd. rewrite (deref_ok p s _ st (Ok (Socket.sock_ s)) s (world st) Hs) by done.
  unfold put. rewrite insert_id by done. by destruct st.
Qed.

Lemma start_spec base st n p : inv base [] st → accept_worker st !! n = Some (TStartAccept p) →
  ∃ st', step_task n st = (Ok tt, st') ∧ inv base [] st' ∧ server st' = server st ∧ io_worker st' = io_worker st ∧
    (∀ q, q ≠ p → heap st' !! q = heap st !! q) ∧
    if is_stop_ (server st) then accept_worker st' = delete n (accept_worker st)
    else ∃ s, heap st !! p = Some s ∧
      st' = set_accept_worker (<[n := TAccepting p (Socket.sock_ s)]> (accept_worker st)) st.
Proof.
  intros Hi Hn. unfold step_task. rewrite get_bind, Hn. unfold run_task. cbv zeta. rewrite get_bind.
  destruct (is_stop_ (server st)).
  - pose proof (inv_remove base [] st n _ Hi Hn) as Hi1. simpl in Hi1.
    destruct (release_inv base [] _ p Hi1) as (h & w & Hr & Hi2 & Hh); [apply not_elem_of_nil|].
    eexists. split; [exact Hr|]. by split_and!.
  - destruct (task_heap _ _ _ _ _ p Hi Hn) as (s & Hs & Hok); [by left|].
    rewrite (bind_ok _ _ _ _ _ (accept_fd_ok st p s Hs)). eexists. split; [reflexivity|].
    split; [|split_and!; try done; by exists s]. apply (inv_replace base [] st n (TStartAccept p)); [done..|].
    intros q fd [= _ <-]. exact (Socket.ok_sock _ _ Hok).
Qed.

Lemma start_live base st n p st' : inv base [] st → live st → accept_worker st !! n = Some (TStartAccept p) →
  step_task n st = (Ok tt, st') → live st'.
Proof.
  intros Hi Hl Hn. unfold step_task. rewrite get_bind, Hn. unfold run_task. cbv zeta. rewrite get_bind.
  destruct (is_stop_ (server st)).
  2: { destruct (task_heap _ _ _ _ _ p Hi Hn) as (s & Hs & _); [by left|].
    rewrite (bind_ok _ _ _ _ _ (accept_fd_ok st p s Hs)). by intros [= <-]. }
  pose proof (inv_remove base [] st n _ Hi Hn) as Hi1. simpl in Hi1.
  destruct (release_inv base [] _ p Hi1) as (h & w & Hr & _ & Hh); [apply not_elem_of_nil|].
  intros Hst. assert (Ok tt = Ok tt ∧ with_heap h w (set_accept_worker (delete n (accept_worker st)) st) = st') as [_ <-].
  { apply pair_equal_spec. rewrite <- Hst. symmetry. exact Hr. }
  by apply (release_live (set_accept_worker _ st) p).
Qed.

Lemma cancel_close_inv base ls ps : ∀ st, inv base ls st → NoDup ps →
  (∀ p, p ∈ ps → ∃ s, heap st !! p = Some s ∧ Socket.sock_ s ≠ -1) → ∃ h w,
  cancel_close ps st = (Ok tt, with_heap h w st) ∧ inv base ls (with_heap h w st) ∧
  (∀ q, is_Some (h !! q) ↔ is_Some (heap st !! q)).
Proof.
  induction ps as [|p ps IH]; intros st Hi Hnd Hps; simpl.
  { exists (heap st), (world st). by destruct st. }
  apply NoDup_cons in Hnd as [Hp Hnd]. destruct (Hps p) as (s & Hs & Hsock); [by left|].
  destruct (deref_inv _ _ _ _ _ _ Hi Hs (Socket.CancelAll_keeps s Hsock)) as (b & s1 & w1 & Hr1 & _ & Hok1 & Hi1).
  rewrite (bind_ok _ _ _ _ _ Hr1). set (st1 := put p s1 w1 st) in *.
  assert (heap st1 !! p = Some s1) as Hs1 by (simpl; apply lookup_insert_eq).
  destruct (deref_inv _ _ _ _ _ _ Hi1 Hs1 (Socket.close_keeps _)) as (c & s2 & w2 & Hr2 & _ & Hok2 & Hi2).
  assert (close_sock p st1 = (Ok tt, put p s2 w2 st1)) as Hr2' by (unfold close_sock; by rewrite (bind_ok _ _ _ _ _ Hr2)).
  rewrite (bind_ok _ _ _ _ _ Hr2'). set (st2 := put p s2 w2 st1) in *.
  assert (∀ q, is_Some (heap st2 !! q) ↔ is_Some (heap st !! q)) as Hdom.
  { intros q. simpl. destruct (decide (q = p)) as [->|]; [rewrite lookup_insert_eq, Hs; by split; eauto|].
    by rewrite !lookup_insert_ne. }
  destruct (IH st2 Hi2 Hnd) as (h & w & Hr3 & Hi3 & Hh).
  { intros q Hq. assert (q ≠ p) as Hqp by congruence. simpl. rewrite !lookup_insert_ne by done. apply Hps. by right. }
  exists h, w. split; [exact Hr3|]. split; [exact Hi3|]. intros q. by rewrite Hh.
Qed.

Lemma TClose_spec base st n : inv base [] st → live st → accept_worker st !! n = Some TClose →
  ∃ st', step_task n st = (Ok tt, st') ∧ inv base [] st' ∧ server st' = set_socks_ [] (server st) ∧
    accept_worker st' = delete n (accept_worker st) ∧ io_worker st' = io_worker st.
Proof.
  intros Hi Hlive Hn. unfold step_task. rewrite get_bind, Hn. unfold run_task. cbv zeta.
  destruct (cancel_close_inv base [] (socks_ (server st)) st Hi (i_nodup _ _ _ Hi) Hlive) as (h & w & Hr & Hi1 & _).
  assert ((mgets (λ st, socks_ (server st)) : TM (list nat)) st = (Ok (socks_ (server st)), st)) as Hg by done.
  rewrite (bind_ok _ _ _ _ _ Hg), (bind_ok _ _ _ _ _ Hr).
  destruct (clear_socks_inv base [] _ Hi1) as (h2 & w2 & Hr2 & Hi2 & _); [intros p _; apply not_elem_of_nil|].
  rewrite (bind_ok _ _ _ _ _ Hr2). eexists. split; [reflexivity|].
  split; [by apply (inv_remove base [] _ n TClose)|]. done.
Qed.

(** What every step keeps. *)
Definition good base st : Prop := inv base [] st ∧ live st.

Lemma accepting_live base st n p fd st' : Socket.hooked_accept (W := W) → good base st →
  accept_worker st !! n = Some (TAccepting p fd) → step_task n st = (Ok tt, st') → live st'.
Proof.
  intros Hh [Hi Hl] Hn Hr. destruct (accepting_spec base st n p fd Hh Hi Hn) as (s & r & w & st1 & _ & _ & Hr1 & _ & Hsv & _ & Hc).
  rewrite Hr in Hr1. injection Hr1 as <-. apply (live_heap st); [done|by rewrite Hsv|].
  intros q. rewrite Hsv. intros Hq. destruct r as [c|]; [|by destruct Hc as (_ & -> & _)].
  destruct Hc as (_ & _ & _ & ->). destruct (Hl q Hq) as (t & Ht & _).
  rewrite lookup_insert_ne; [done|]. intros Heq. rewrite <- Heq, (fresh_ptr _ _ _ Hi) in Ht. done.
Qed.

Lemma step_task_inv base st n : Socket.hooked_accept (W := W) → good base st →
  ∃ st', step_task n st = (Ok tt, st') ∧ good base st'.
Proof.
  intros Hh Hg. pose proof Hg as [Hi Hl]. destruct (accept_worker st !! n) as [[p|p fd|]|] eqn:Hn.
  - destruct (start_spec base st n p Hi Hn) as (st' & Hr & ? & _). exists st'. split; [done|]. split; [done|].
    by apply (start_live base st n p).
  - destruct (accepting_spec base st n p fd Hh Hi Hn) as (s & r & w & st' & _ & _ & Hr & ? & _). exists st'.
    split; [done|]. split; [done|]. by apply (accepting_live base st n p fd).
  - destruct (TClose_spec base st n Hi Hl Hn) as (st' & ? & ? & Hs & _). exists st'. split; [done|]. split; [done|].
    intros p. rewrite Hs. by intros ?%not_elem_of_nil.
  - exists st. unfold step_task. by rewrite get_bind, Hn.
Qed.

Lemma step_client_inv base st n : good base st → ∃ st', step_client n st = (Ok tt, st') ∧ good base st'.
Proof.
  intros [Hi Hl]. unfold step_client. rewrite get_bind. destruct (io_worker st !! n) as [p|] eqn:Hn; [|by exists st].
  assert (∀ q, q ∈ io_worker st ↔ q = p ∨ q ∈ delete n (io_worker st)) as Hd.
  { intros q. rewrite (delete_Permutation _ _ _ Hn) at 1. apply elem_of_cons. }
  assert (inv base [p] (set_io_worker (delete n (io_worker st)) st)) as Hi1.
  { destruct Hi as [Hle Ho Hf Hnd Hk]. constructor; [done| |done|done|done]. intros q. specialize (Ho q). specialize (Hd q).
    unfold referenced in *. simpl in *. rewrite list_elem_of_singleton, Ho. pose proof (not_elem_of_nil q). tauto. }
  destruct (release_inv base [] _ p Hi1) as (h & w & Hr & Hi2 & Hh); [apply not_elem_of_nil|].
  eexists. split; [exact Hr|]. split; [exact Hi2|]. by apply (release_live (set_io_worker _ st) p).
Qed.

Definition event_ok (e : event) : bool :=
  match e with EBind addrs _ => forallb Socket.has_path addrs | _ => true end.

Definition started st : State :=
  set_accept_worker (accept_worker st ++ (TStartAccept <$> socks_ (server st))) (set_server (set_is_stop_ false) st).

Lemma Start_spec st : Start st = (Ok true, st) ∨ Start st = (Ok true, started st).
Proof. unfold Start. rewrite get_bind. destruct (is_stop_ (server st)); [by right|by left]. Qed.

Lemma start_inv base st : inv base [] st → inv base [] (started st).
Proof.
  intros [Hl Ho Hf Hnd Hk]. constructor; [done| |done|done|].
  2: { simpl. intros p fd [Hin|(q & [=] & _)%list_elem_of_fmap]%elem_of_app. by eapply Hk. }
  intros q. specialize (Ho q).
  unfold referenced in *. simpl in *. rewrite Ho, bind_app, elem_of_app.
  assert (q ∈ (TStartAccept <$> socks_ (server st)) ≫= task_socks → q ∈ socks_ (server st)) as Hq; [|tauto].
  intros (t & Ht & (p & -> & Hp)%list_elem_of_fmap)%list_elem_of_bind. simpl in Ht.
  by apply list_elem_of_singleton in Ht as ->.
Qed.

Lemma exec_inv base e st : Socket.hooked_accept (W := W) → event_ok e = true → good base st →
  ∃ st', exec e st = (Ok tt, st') ∧ good base st'.
Proof.
  intros Hh He Hg. pose proof Hg as [Hi Hl]. destruct e as [addrs fails| | |n|n]; cbn [exec].
  - destruct (bind_all_spec base addrs st Hi He fails) as (failed & st' & new & Hr & Hi' & _).
    rewrite (bind_ok _ _ _ _ _ Hr). exists st'. split; [done|]. split; [done|]. by apply (bind_all_live base addrs st fails _ st' Hi Hl He Hr).
  - destruct (Start_spec st) as [Hs|Hs]; rewrite (bind_ok _ _ _ _ _ Hs); [by exists st|].
    eexists. split; [reflexivity|]. split; [by apply start_inv|exact Hl].
  - eexists. split; [reflexivity|]. split; [|exact Hl]. destruct Hi as [Hle Ho Hf Hnd Hk]. constructor; [done| |done|done|].
    2: { simpl. intros p fd [Hin|[=]%list_elem_of_singleton]%elem_of_app. by eapply Hk. }
    intros q. specialize (Ho q). unfold referenced in *. simpl in *. by rewrite Ho, bind_app, app_nil_r.
  - by apply step_task_inv.
  - by apply step_client_inv.
Qed.

Lemma exec_all_good base es : Socket.hooked_accept (W := W) → ∀ st, forallb event_ok es = true → good base st →
  ∃ st', exec_all es st = (Ok tt, st') ∧ good base st'.
Proof.
  intros Hh. induction es as [|e es IH]; intros st He Hi; simpl in *; [by exists st|].
  apply andb_true_iff in He as [He Hes]. destruct (exec_inv base e st Hh He Hi) as (st1 & Hr & Hi1).
  rewrite (bind_ok _ _ _ _ _ Hr). by apply IH.
Qed.

Lemma server_inv_new rt (w : W) : valid w → inv (opened w) [] (State_new rt w).
Proof.
  intros Hv. constructor; simpl.
  - by apply Socket.ledger_new.
  - intros p. rewrite lookup_empty. unfold referenced. simpl. pose proof (not_elem_of_nil p).
    split; [by intros [? ?]|tauto].
  - intros p. rewrite lookup_empty. by intros [? ?].
  - constructor.
  - by intros p fd ?%not_elem_of_nil.
Qed.

Lemma server_good_new rt (w : W) : valid w → good (opened w) (State_new rt w).
Proof. intros Hv. split; [by apply server_inv_new|]. intros p. by intros ?%not_elem_of_nil. Qed.

(** ** Theorems *)

Lemma inv_opened base ls st : inv base ls st → ∀ fd, fd ∈ opened (world st) ↔
  fd ∈ base ∨ ∃ p s, heap st !! p = Some s ∧ Socket.sock_ s = fd ∧ fd ≠ -1.
Proof.
  intros Hi fd. pose proof (i_ledger _ _ _ Hi) as Hl.
  assert (∀ s, fd ∈ Socket.own s ↔ Socket.sock_ s = fd ∧ fd ≠ -1) as Hown.
  { intros s. unfold Socket.own. case_decide; set_solver by lia. }
  split.
  - intros Hfd. destruct (Socket.l_cover _ _ _ Hl fd Hfd) as [?|(p & s & Hs & Hf)]; [by left|]. right.
    exists p, s. split; [done|]. by apply Hown.
  - intros [Hb|(p & s & Hs & Hf)]; [by apply (Socket.l_base _ _ _ Hl)|]. apply Hown in Hf.
    pose proof (Socket.l_own _ _ _ Hl _ _ Hs). set_solver.
Qed.

Lemma inv_empty base st : inv base [] st → heap st = ∅ → opened (world st) = base.
Proof.
  intros Hi He. apply set_eq. intros fd. rewrite (inv_opened _ _ _ Hi fd), He. split; [|by left].
  intros [?|(p & s & Hs & _)]; [done|]. by rewrite lookup_empty in Hs.
Qed.

(** C21. [bind] of a new server is all or nothing. It returns true exactly when no address
    failed; then there is one socket for each address, in their order, all different,
    each with a descriptor of the family of its address. When some address fails, they
    are reported in order, no socket is left, and exactly the descriptors from before
    are open. *)
Theorem tcp_bind_exact addrs rt (w0 : W) : valid w0 → forallb Socket.has_path addrs = true →
  ∃ failed st', bind_all addrs [] (State_new rt w0) = (Ok (bool_decide (failed = []), failed), st') ∧
    failed `sublist_of` addrs ∧
    if bool_decide (failed = []) then
      Forall2 (listens st') addrs (socks_ (server st')) ∧ NoDup (socks_ (server st')) ∧
      (∀ p, is_Some (heap st' !! p) ↔ p ∈ socks_ (server st'))
    else socks_ (server st') = [] ∧ heap st' = ∅ ∧ opened (world st') = opened w0.
Proof.
  intros Hv Hp. pose proof (server_inv_new rt w0 Hv) as Hi.
  destruct (bind_all_spec _ addrs _ Hi Hp []) as (failed & st' & new & Hr & Hi' & (Ha & Hio & _) & Hsub & Hc).
  exists failed, st'. split; [exact Hr|]. split; [exact Hsub|]. rewrite app_nil_l in Hc.
  assert (∀ p, is_Some (heap st' !! p) ↔ p ∈ socks_ (server st')) as Hown.
  { intros p. rewrite (i_owned _ _ _ Hi' p). unfold referenced. rewrite Ha, Hio. simpl.
    pose proof (not_elem_of_nil p). tauto. }
  destruct (bool_decide (failed = [])).
  - destruct Hc as [Hs Hf]. simpl in Hs. rewrite Hs. split; [done|]. rewrite <- Hs.
    split; [apply (i_nodup _ _ _ Hi')|done].
  - split; [done|]. assert (heap st' = ∅) as He.
    { apply map_empty. intros p. apply eq_None_not_Some. rewrite Hown, Hc. apply not_elem_of_nil. }
    split; [done|]. by apply inv_empty.
Qed.

(** C25. Whatever is called and whichever scheduled function makes its next step, in
    whatever order, with hooking on: every call returns, no freed socket is used, a socket
    is alive exactly as long as the server or a scheduled function refers to it, and the
    open descriptors are those from before and one for each of the sockets that has one;
    none of these is also another's. *)
Theorem server_owns es rt (w0 : W) : Socket.hooked_accept (W := W) → valid w0 → forallb event_ok es = true →
  ∃ st, exec_all es (State_new rt w0) = (Ok tt, st) ∧
    (∀ p, is_Some (heap st !! p) ↔ referenced p st) ∧ NoDup (socks_ (server st)) ∧
    (∀ fd, fd ∈ opened (world st) ↔
       fd ∈ opened w0 ∨ ∃ p s, heap st !! p = Some s ∧ Socket.sock_ s = fd ∧ fd ≠ -1) ∧
    (∀ p q s t, p ≠ q → heap st !! p = Some s → heap st !! q = Some t → Socket.sock_ s ≠ -1 →
       Socket.sock_ s ≠ Socket.sock_ t ∧ Socket.sock_ s ∉ opened w0).
Proof.
  intros Hh Hv He. destruct (exec_all_good _ es Hh _ He (server_good_new rt w0 Hv)) as (st & Hr & Hi & _).
  exists st. split; [exact Hr|]. split; [|split; [apply Hi|split; [by apply (inv_opened _ _ _ Hi)|]]].
  - intros p. rewrite (i_owned _ _ _ Hi p). pose proof (not_elem_of_nil p). tauto.
  - intros p q s t Hpq Hs Ht Hn. pose proof (i_ledger _ _ _ Hi) as Hl.
    assert (Socket.sock_ s ∈ Socket.own s) as Hin by (unfold Socket.own; rewrite decide_False by done; set_solver).
    split; [|pose proof (Socket.l_own _ _ _ Hl _ _ Hs); set_solver].
    intros Heq. pose proof (Socket.l_disjoint _ _ _ Hl _ _ _ _ Hpq Hs Ht) as Hd.
    assert (Socket.sock_ s ∈ Socket.own t); [|set_solver].
    unfold Socket.own. rewrite <- Heq, decide_False by done. set_solver.
Qed.

(** C26. A turn of the accept loop of a listening socket. At its head the loop ends exactly
    when the server was stopped, and otherwise calls [accept] with the descriptor that the
    socket has then, and changes nothing. When that call returns, the loop goes back to its
    head, and when a connection was accepted it is given, with the receive timeout of the
    server set, to the IO worker, once and last; no other socket, scheduled function or
    setting changes. *)
Theorem accept_turn es rt (w0 : W) st n p : Socket.hooked_accept (W := W) → valid w0 →
  forallb event_ok es = true → exec_all es (State_new rt w0) = (Ok tt, st) →
  (accept_worker st !! n = Some (TStartAccept p) → ∃ st', step_task n st = (Ok tt, st') ∧
     if is_stop_ (server st) then
       accept_worker st' = delete n (accept_worker st) ∧ server st' = server st ∧ io_worker st' = io_worker st ∧
       (∀ q, q ≠ p → heap st' !! q = heap st !! q)
     else ∃ s, heap st !! p = Some s ∧
       st' = set_accept_worker (<[n := TAccepting p (Socket.sock_ s)]> (accept_worker st)) st) ∧
  (∀ fd, accept_worker st !! n = Some (TAccepting p fd) → ∃ s r w st', heap st !! p = Some s ∧
     Socket.accept_from host fd (s, world st) = (Ok r, (s, w)) ∧ step_task n st = (Ok tt, st') ∧
     server st' = server st ∧ accept_worker st' = <[n := TStartAccept p]> (accept_worker st) ∧
     match r with
     | Some c => Socket.own c ≠ ∅ ∧
         (∃ w', Socket.SetRecvTimeout i64(recv_timeout_ (server st)) (c, w) = (Ok tt, (c, w')) ∧ world st' = w') ∧
         io_worker st' = io_worker st ++ [next_ptr st] ∧ heap st !! next_ptr st = None ∧
         heap st' = <[next_ptr st := c]> (heap st)
     | None => io_worker st' = io_worker st ∧ heap st' = heap st ∧ world st' = w
     end).
Proof.
  intros Hh Hv He Hr. destruct (exec_all_good _ es Hh _ He (server_good_new rt w0 Hv)) as (st0 & Hr' & Hi & _).
  rewrite Hr in Hr'. injection Hr' as <-. split; [intros Hn|intros fd Hn].
  - destruct (start_spec _ st n p Hi Hn) as (st' & Hs & _ & H1 & H2 & H3 & H4). exists st'. split; [done|].
    destruct (is_stop_ (server st)); [|done]. done.
  - destruct (accepting_spec _ st n p fd Hh Hi Hn) as (s & r & w & st' & H1 & H2 & H3 & _ & H4 & H5 & H6).
    exists s, r, w, st'. split_and!; try done. destruct r; [|done]. destruct H6 as (? & ? & ? & ?).
    split_and!; try done. by eapply fresh_ptr.
Qed.

(** How many steps a stopped server's functions have left. *)
Definition steps_left (t : task) : nat := match t with TAccepting _ _ => 2 | _ => 1 end.
Definition work (l : list task) : nat := sum_list_with steps_left l.

Lemma work_delete l n t : l !! n = Some t → (work (delete n l) + steps_left t = work l)%nat.
Proof. apply sum_with_delete. Qed.

Lemma work_replace l n t t' : l !! n = Some t →
  (work (<[n := t']> l) + steps_left t = work l + steps_left t')%nat.
Proof. intros Hn. exact (sum_with_insert _ _ _ _ t' Hn). Qed.

Definition stopping st : Prop :=
  is_stop_ (server st) = true ∧ (TClose ∈ accept_worker st ∨ socks_ (server st) = []).

Lemma stopping_step base st n : Socket.hooked_accept (W := W) → good base st → stopping st →
  (n < length (accept_worker st))%nat → ∃ st', step_task n st = (Ok tt, st') ∧ good base st' ∧ stopping st' ∧
    (work (accept_worker st') < work (accept_worker st))%nat.
Proof.
  intros Hh Hg [Hs Hc] [t Hn]%lookup_lt_is_Some_2. pose proof Hg as [Hi Hl]. assert (∀ t', t ≠ TClose →
    TClose ∈ accept_worker st → TClose ∈ delete n (accept_worker st) ∧ TClose ∈ <[n := t']> (accept_worker st)) as Hkeep.
  { intros t' Ht [m Hm]%list_elem_of_lookup. assert (n ≠ m) by congruence. split.
    - assert (TClose ∈ accept_worker st) as Hin by (by eapply list_elem_of_lookup_2).
      rewrite (delete_Permutation _ _ _ Hn) in Hin. apply elem_of_cons in Hin as [?|?]; [congruence|done].
    - apply (list_elem_of_lookup_2 _ m). by rewrite list_lookup_insert_ne. }
  destruct t as [p|p fd|].
  - destruct (start_spec base st n p Hi Hn) as (st' & Hr & Hi' & Hsv & _ & _ & Hst). rewrite Hs in Hst.
    exists st'. split; [done|]. split; [split; [done|by apply (start_live base st n p)]|]. unfold stopping. rewrite Hsv, Hst.
    split; [split; [done|]; destruct Hc as [Hc|Hc]; [left; by apply (Hkeep TClose)|by right]|].
    pose proof (work_delete _ _ _ Hn). simpl in *. lia.
  - destruct (accepting_spec base st n p fd Hh Hi Hn) as (s & r & w & st' & _ & _ & Hr & Hi' & Hsv & Hst & _).
    exists st'. split; [done|]. split; [split; [done|by apply (accepting_live base st n p fd)]|]. unfold stopping. rewrite Hsv, Hst.
    split; [split; [done|]; destruct Hc as [Hc|Hc]; [left; by apply Hkeep|by right]|].
    pose proof (work_replace _ _ _ (TStartAccept p) Hn). simpl in *. lia.
  - destruct (TClose_spec base st n Hi Hl Hn) as (st' & Hr & Hi' & Hsv & Hst & _). exists st'.
    split; [done|]. split; [split; [done|intros p; rewrite Hsv; by intros ?%not_elem_of_nil]|].
    unfold stopping. rewrite Hsv, Hst. split; [split; [done|by right]|].
    pose proof (work_delete _ _ _ Hn). simpl in *. lia.
Qed.

End laws.
End server.

(** ** Witnesses *)

Definition LE : endian := SYLAR_LITTLE_ENDIAN.
Definition start_state : State (W := Socket.Sim) := State_new 120000 Socket.sim0.

(** One address, started; the second event of its loop accepts a client. *)
Definition serve : list event := [EBind [Socket.loopback] []; EStart; ETask 0; ETask 0; ETask 0].

Definition serving : State := (exec_all LE serve start_state).2.

Lemma serving_ok : exec_all LE serve start_state = (Ok tt, serving).
Proof. vm_compute. reflexivity. Qed.

Definition stop_serving : list event := serve ++ [EStop].

Lemma tcp_bind_exact_witness : ∃ failed st',
  bind_all LE [Socket.loopback; Socket.loopback] [] start_state = (Ok (bool_decide (failed = []), failed), st') ∧
  failed = [] ∧ length (socks_ (server st')) = 2%nat.
Proof.
  destruct (tcp_bind_exact LE [Socket.loopback; Socket.loopback] 120000 Socket.sim0 Socket.sim0_valid eq_refl)
    as (failed & st' & Hr & _ & Hc).
  exists failed, st'. split; [exact Hr|].
  assert (failed = []) as -> by (apply (f_equal fst) in Hr; vm_compute in Hr; congruence). split; [reflexivity|].
  destruct Hc as (Hf & _). symmetry. exact (Forall2_length _ _ _ Hf).
Defined.

Lemma server_owns_witness : ∃ st, exec_all LE stop_serving start_state = (Ok tt, st) ∧
  (∀ p, is_Some (heap st !! p) ↔ referenced p st).
Proof.
  destruct (server_owns LE stop_serving 120000 Socket.sim0 Socket.sim_hooked Socket.sim0_valid eq_refl)
    as (st & Hr & Ho & _).
  exists st. split; [exact Hr|exact Ho].
Defined.

Lemma accept_turn_witness : accept_worker serving !! 0%nat = Some (TAccepting 0 3) ∧
  ∃ st', step_task LE 0 serving = (Ok tt, st') ∧ accept_worker st' = [TStartAccept 0].
Proof.
  split; [vm_compute; reflexivity|].
  destruct (proj2 (accept_turn LE serve 120000 Socket.sim0 serving 0 0 Socket.sim_hooked Socket.sim0_valid
    eq_refl serving_ok) 3) as (s & r & w & st' & _ & _ & Hs & _ & Ha & _); [vm_compute; reflexivity|].
  exists st'. split; [exact Hs|]. rewrite Ha. vm_compute. reflexivity.
Defined.

(** ** Behaviour at the edges *)

(** [Start] before the function of [Stop] has run: it closes the sockets of the server
    that was started again, whose loops then go round for ever without waiting. *)
Definition restart : list event := [EBind [Socket.loopback] []; EStart; EStop; EStart; ETask 1].

Example restart_spins :
  let st := (exec_all LE restart start_state).2 in
  is_stop_ (server st) = false ∧ socks_ (server st) = [] ∧
  accept_worker st = [TStartAccept 0; TStartAccept 0] ∧
  exec_all LE [ETask 0; ETask 0; ETask 1; ETask 1] st = (Ok tt, st).
Proof. vm_compute. done. Qed.

(** One address that cannot be bound: the other one, which could, is given up too. *)
Definition unix_addr : Address.Address :=
  match Address.UnixAddress_of (S_ "/tmp/s") with Ok a => a | Err _ => Address.UnixAddress_new end.

Example bind_gives_up :
  let st := State_new 120000 (Socket.mkSim {[0; 1; 2]} 3 0 true) in
  let '(r, st') := bind_all LE [Socket.loopback; unix_addr] [] st in
  r = Ok (false, [unix_addr]) ∧ socks_ (server st') = [] ∧ Socket.fds (world st') = {[0; 1; 2]}.
Proof. vm_compute. done. Qed.

End TcpServer.
