(* ===== verification/ServerPool.v ===== *)
(** * A server on a scheduler (tcp/tcp_server.cc over fiber/scheduler.cc)

    [Module ServerPool] runs the server of [TcpServer] on the threads of [Scheduler]: both
    workers are one pool, as they are by default. A function that the server schedules is
    a callback in the queue; a thread takes it, runs it up to a call that waits, and then its
    fiber waits in the IO manager until an event schedules it again, for any thread.
    [label] is one step of the whole system; it is made of events of the server and
    labels of the pool.

    The steps of one function between two waits are one step, as are the last statement of
    a function and the switch back. A wait is three: the fiber registers for its event
    ([do_io] of hook.cc), it becomes READY, and it switches away ([Fiber::Yield]); other
    threads may come in between, and take the fiber as soon as it is READY.

    Theorem: on any number of threads and in any interleaving the server does nothing that
    [TcpServer] does not, each function that was scheduled and has not ended is in exactly
    one place, and there is one way to fail: a thread resumes a fiber that another one has
    not left yet ([server_on_pool]; [resumed_too_early] is a run that does). *)

From stdpp Require Import gmap sets.
From S2P Require Import Prelude Endian Fiber Scheduler StringUtil Address Socket TcpServer.
Import Endian Fiber(State, READY, RUNNING, TERM).

Module ServerPool.
Import Scheduler(ScheduleTask, task_of_fiber, task_of_cb, fiber, thread, tasks_, Pool, sched, pcs, states, held,
  LSchedule, LTake, LResume, LShare, LMark, LSwitch, LIdle, LStop, PLoop, PHave, PRun, PLeave, PIdle, PExit, pc,
  rides, do_all, mk_Pool).
#[local] Existing Instance Scheduler.ScheduleTask_eq_dec.

Local Open Scope Z_scope.

(** ** Functions in a pool *)

(** A function that has waited is known by its fiber, one that has not by its callback. *)
Inductive name_ok : ScheduleTask → Prop :=
  | name_fiber f : name_ok (task_of_fiber (Some f) (-1))
  | name_cb c : name_ok (task_of_cb (Some c) (-1)).

(** The function a thread took or runs. One that has registered itself is no longer the
    thread's: from then on whoever is told of the event schedules it. *)
Definition pc_busy (p : pc) : option ScheduleTask :=
  match p with PHave _ t | PRun _ t None => Some t | _ => None end.

(** The fiber whose stack a thread is on. *)
Definition pc_rides (p : pc) : option Z :=
  match p with PRun _ t o | PLeave _ t o => rides t o | _ => None end.

Definition busy (l : list (Z * pc)) : list ScheduleTask := omap (λ np, pc_busy np.2) l.
Definition ridden (l : list (Z * pc)) : list Z := omap (λ np, pc_rides np.2) l.

(** A fiber that a thread took may still be on its way out of another one. *)
Definition pc_ok (h : gmap Z (State * bool)) (p : pc) : Prop :=
  match p with
  | PHave _ t => ∀ f, fiber t = Some f → ∃ b, h !! f = Some (READY, b)
  | PRun _ t o => ∀ f, rides t o = Some f → h !! f = Some (RUNNING, false)
  | PLeave _ _ None => False
  | PLeave _ _ (Some f) => h !! f = Some (READY, false)
  | _ => True
  end.

(** The functions [names] are in the queue, with the threads and among the [parked] ones,
    each in one place; no two threads are on one stack, and a fiber that no thread is on is
    ready and saved. *)
Record placed (names parked : list ScheduleTask) (w : Pool) : Prop := {
  p_wf : Scheduler.wf w;
  p_perm : names ≡ₚ tasks_ (sched w) ++ busy (pcs w) ++ parked;
  p_nodup : NoDup names;
  p_shape t : t ∈ names → name_ok t;
  p_riders : NoDup (ridden (pcs w));
  p_saved t f : t ∈ names → fiber t = Some f → f ∉ ridden (pcs w) → states w !! f = Some (READY, true);
  p_pc i n p : pcs w !! i = Some (n, p) → pc_ok (states w) p
}.

(** Thread [i] is about to resume a fiber whose context is not saved yet. *)
Definition racing (i : nat) (w : Pool) : bool :=
  match pcs w !! i with
  | Some (_, PHave _ t) =>
      match fiber t with
      | Some f => match states w !! f with Some (READY, false) => true | _ => false end
      | None => false
      end
  | _ => false
  end.

(** What one element of a list contributes. *)
Lemma omap_insert {A B} (g : A → option B) (l : list A) i x : l !! i = Some x → ∃ rest,
  omap g l ≡ₚ option_list (g x) ++ rest ∧ (∀ y, omap g (<[i := y]> l) ≡ₚ option_list (g y) ++ rest) ∧
  ∀ j y b, i ≠ j → l !! j = Some y → g y = Some b → b ∈ rest.
Proof.
  intros Hi. assert (∀ y, omap g (take i l ++ y :: drop (S i) l) ≡ₚ option_list (g y) ++ omap g (take i l) ++ omap g (drop (S i) l)) as Hg.
  { intros y. rewrite omap_app. simpl. destruct (g y); simpl; [by rewrite Permutation_middle|done]. }
  exists (omap g (take i l) ++ omap g (drop (S i) l)). split; [|split].
  - rewrite <- (take_drop_middle l i x Hi) at 1. apply Hg.
  - intros y. rewrite insert_take_drop by (by eapply lookup_lt_Some). apply Hg.
  - intros j y b Hij Hj Hy. rewrite elem_of_app. destruct (decide (j < i)%nat); [left|right]; apply list_elem_of_omap; exists y;
      (split; [|done]).
    + apply (list_elem_of_lookup_2 _ j). by rewrite lookup_take_lt.
    + apply (list_elem_of_lookup_2 _ (j - S i)). rewrite lookup_drop. by replace (S i + (j - S i))%nat with j by lia.
Qed.

Section places.
Implicit Types (names parked : list ScheduleTask) (w : Pool).

Lemma placed_perm names names' parked parked' w :
  names ≡ₚ names' → parked ≡ₚ parked' → placed names parked w → placed names' parked' w.
Proof.
  intros Hn Hp [Hwf Hperm Hnd Hs Hd Hr Hpc]. constructor; [done|by rewrite <- Hn, Hperm, Hp|by rewrite <- Hn| |done| |done].
  - intros t. rewrite <- Hn. apply Hs.
  - intros t f. rewrite <- Hn. apply Hr.
Qed.

Lemma name_ok_fiber t f : name_ok t → fiber t = Some f → t = task_of_fiber (Some f) (-1).
Proof. intros []; [by intros [= ->]|done]. Qed.

Lemma name_ok_runnable t : name_ok t → Scheduler.runnable t = true.
Proof. by intros []. Qed.

Lemma busy_elem (l : list (Z * pc)) t : t ∈ busy l ↔ ∃ i n p, l !! i = Some (n, p) ∧ pc_busy p = Some t.
Proof.
  unfold busy. rewrite list_elem_of_omap. split.
  - intros ([n p] & [i Hi]%list_elem_of_lookup & Hp). by exists i, n, p.
  - intros (i & n & p & Hi & Hp). exists (n, p). split; [by eapply list_elem_of_lookup_2|done].
Qed.

Lemma ridden_elem (l : list (Z * pc)) f : f ∈ ridden l ↔ ∃ i n p, l !! i = Some (n, p) ∧ pc_rides p = Some f.
Proof.
  unfold ridden. rewrite list_elem_of_omap. split.
  - intros ([n p] & [i Hi]%list_elem_of_lookup & Hp). by exists i, n, p.
  - intros (i & n & p & Hi & Hp). exists (n, p). split; [by eapply list_elem_of_lookup_2|done].
Qed.

Lemma busy_held (l : list (Z * pc)) : busy l ⊆ (held l).*2.
Proof.
  intros t (i & n & p & Hi & Hp)%busy_elem. apply list_elem_of_fmap. exists (n, t). split; [done|].
  apply list_elem_of_omap. exists (n, p). split; [by eapply list_elem_of_lookup_2|].
  destruct p as [| |it u []| | |]; simplify_eq/=; done.
Qed.

Lemma busy_nothing (l : list (Z * pc)) : held l = [] → busy l = [].
Proof.
  intros Hh. pose proof (busy_held l) as Hb. rewrite Hh in Hb. destruct (busy l) as [|t ts]; [done|].
  assert (t ∈ ([] : list ScheduleTask)) as H by (apply Hb; by left). by apply not_elem_of_nil in H.
Qed.

(** What a thread holds, and what the others hold. *)
Lemma busy_one (l : list (Z * pc)) i n p t : l !! i = Some (n, p) → pc_busy p = Some t → ∃ rest,
  busy l ≡ₚ t :: rest ∧ (∀ p', busy (<[i := (n, p')]> l) ≡ₚ option_list (pc_busy p') ++ rest) ∧
  (∀ j m q u, i ≠ j → l !! j = Some (m, q) → pc_busy q = Some u → u ∈ rest).
Proof.
  intros Hi Hp. destruct (omap_insert (λ np : Z * pc, pc_busy np.2) l i (n, p) Hi) as (rest & H1 & H2 & H3). simpl in H1.
  rewrite Hp in H1. exists rest. split; [exact H1|]. split; [intros p'; apply (H2 (n, p'))|].
  intros j m q u Hij Hj Hq. exact (H3 j (m, q) u Hij Hj Hq).
Qed.

Lemma busy_none (l : list (Z * pc)) i n p : l !! i = Some (n, p) → pc_busy p = None →
  ∀ p', busy (<[i := (n, p')]> l) ≡ₚ option_list (pc_busy p') ++ busy l.
Proof.
  intros Hi Hp p'. destruct (omap_insert (λ np : Z * pc, pc_busy np.2) l i (n, p) Hi) as (rest & H1 & H2 & _). simpl in H1.
  rewrite Hp in H1. unfold busy at 2. rewrite H1. apply (H2 (n, p')).
Qed.

Lemma rider_alone names parked w i n p f : placed names parked w → pcs w !! i = Some (n, p) → pc_rides p = Some f →
  ∀ j m q, i ≠ j → pcs w !! j = Some (m, q) → pc_rides q ≠ Some f.
Proof.
  intros Hw Hi Hp j m q Hij Hj Hq. pose proof (p_riders _ _ _ Hw) as Hnd.
  destruct (omap_insert (λ np : Z * pc, pc_rides np.2) _ i (n, p) Hi) as (rest & H1 & _ & H3). simpl in H1. rewrite Hp in H1.
  unfold ridden in Hnd. rewrite H1 in Hnd. simpl in Hnd. apply NoDup_cons in Hnd as [Hnd _]. by apply Hnd, (H3 j (m, q)).
Qed.

(** A fiber is in one place. *)
Lemma placed_one names parked w t f : placed names parked w → fiber t = Some f → ∀ u,
  t ∈ names → u ∈ names → fiber u = Some f → u = t.
Proof.
  intros Hw Ht u Hin Hu Hf. pose proof (name_ok_fiber t f (p_shape _ _ _ Hw t Hin) Ht).
  pose proof (name_ok_fiber u f (p_shape _ _ _ Hw u Hu) Hf). congruence.
Qed.

Lemma busy_name names parked w i n p t : placed names parked w → pcs w !! i = Some (n, p) → pc_busy p = Some t → t ∈ names.
Proof. intros Hw Hi Hp. rewrite (p_perm _ _ _ Hw), !elem_of_app, busy_elem. right. left. eauto. Qed.

(** The states of the fibers that threads are on. *)
Lemma rides_state names parked w i n p f : placed names parked w → pcs w !! i = Some (n, p) → pc_rides p = Some f →
  states w !! f = Some (RUNNING, false) ∨ states w !! f = Some (READY, false).
Proof.
  intros Hw Hi Hf. pose proof (p_pc _ _ _ Hw i n p Hi) as Hp.
  destruct p as [it|it t|it t o|it t [g|]| |]; simpl in *; try done; [left; by apply Hp|right; by injection Hf as <-].
Qed.

Lemma name_state names parked w t f : placed names parked w → t ∈ names → fiber t = Some f → is_Some (states w !! f).
Proof.
  intros Hw Ht Hf. destruct (decide (f ∈ ridden (pcs w))) as [(i & n & p & Hi & Hp)%ridden_elem|Hn].
  - destruct (rides_state _ _ _ _ _ _ _ Hw Hi Hp) as [-> | ->]; eauto.
  - rewrite (p_saved _ _ _ Hw t f Ht Hf Hn). eauto.
Qed.

(** A thread moves, and only the fiber [f] that it is or was on changes. *)
Lemma placed_move names parked names' parked' w i n p p' s h fin (f : option Z) :
  placed names parked w → pcs w !! i = Some (n, p) →
  Scheduler.wf (mk_Pool s (<[i := (n, p')]> (pcs w)) h (Scheduler.scheduled w) fin) →
  names' ≡ₚ tasks_ s ++ busy (<[i := (n, p')]> (pcs w)) ++ parked' → NoDup names' →
  (∀ t, t ∈ names' → name_ok t ∧ (fiber t = f ∨ t ∈ names)) →
  (∀ g, Some g ≠ f → h !! g = states w !! g) →
  (pc_rides p = None ∨ pc_rides p = f) → (pc_rides p' = None ∨ pc_rides p' = f) →
  (∀ g j m q, f = Some g → i ≠ j → pcs w !! j = Some (m, q) → pc_rides q ≠ Some g) →
  (∀ g j m b u, f = Some g → i ≠ j → pcs w !! j = Some (m, PHave b u) → fiber u = Some g → ∃ b', h !! g = Some (READY, b')) →
  (∀ g t, f = Some g → t ∈ names' → fiber t = Some g → pc_rides p' = f ∨ h !! g = Some (READY, true)) →
  pc_ok h p' → placed names' parked' (mk_Pool s (<[i := (n, p')]> (pcs w)) h (Scheduler.scheduled w) fin).
Proof.
  intros Hw Hi Hwf Hperm Hnd Hnames Hsame Hr Hr' Hothers Hhave Hsaved Hp'. pose proof (lookup_lt_Some _ _ _ Hi) as Hlt.
  destruct (omap_insert (λ np : Z * pc, pc_rides np.2) _ i (n, p) Hi) as (rest & H1 & H2 & H3). simpl in H1.
  specialize (H2 (n, p')). simpl in H2. pose proof (p_riders _ _ _ Hw) as Hrid. unfold ridden in Hrid. rewrite H1 in Hrid.
  assert (∀ g, g ∈ rest → ∃ j m q, i ≠ j ∧ pcs w !! j = Some (m, q) ∧ pc_rides q = Some g) as Hrest.
  { intros g Hg. assert (g ∈ omap (λ np : Z * pc, pc_rides np.2) (<[i := (n, PExit)]> (pcs w))) as Hin.
    { destruct (omap_insert (λ np : Z * pc, pc_rides np.2) _ i (n, p) Hi) as (rest2 & G1 & G2 & _). rewrite (G2 (n, PExit)). simpl.
      rewrite H1 in G1. simpl in G1. by apply Permutation_app_inv_l in G1 as <-. }
    apply list_elem_of_omap in Hin as ([m q] & [j Hj]%list_elem_of_lookup & Hq). simpl in Hq.
    apply list_lookup_insert_Some in Hj as [(_ & [= <- <-] & _)|[Hij Hj]]; [done|]. by exists j, m, q. }
  constructor; simpl; [done|done|done|intros t Ht; by apply Hnames| | |].
  - unfold ridden. rewrite H2. apply NoDup_app in Hrid as (_ & _ & Hrid).
    destruct (pc_rides p') as [g|] eqn:Hg; simpl; [|done]. apply NoDup_cons. split; [|done]. intros Hin.
    destruct Hr' as [?|Hf]; [done|]. destruct (Hrest g Hin) as (j & m & q & Hij & Hj & Hq). by eapply Hothers.
  - intros t g Ht Hg Hn. destruct (decide (f = Some g)) as [->|Hne].
    + destruct (Hsaved g t eq_refl Ht Hg) as [Hf|]; [|done]. exfalso. apply Hn. unfold ridden. rewrite H2, Hf. by left.
    + rewrite Hsame by congruence. destruct (Hnames t Ht) as [_ [Hf|Ht']]; [congruence|].
      apply (p_saved _ _ _ Hw t g Ht' Hg). unfold ridden in *. rewrite H1. rewrite H2 in Hn. intros [Hin|Hin]%elem_of_app.
      * destruct (pc_rides p) as [g'|] eqn:Hgp; simpl in Hin; [|by apply not_elem_of_nil in Hin].
        apply list_elem_of_singleton in Hin as ->. destruct Hr; congruence.
      * apply Hn, elem_of_app. by right.
  - intros j m q. rewrite list_lookup_insert_Some. intros [(<- & [= <- <-] & _)|[Hij Hj]]; [done|].
    pose proof (p_pc _ _ _ Hw j m q Hj) as Hq. destruct q as [b|b u|b u o|b u [g|]| |]; simpl in *; try done.
    + intros g Hg. destruct (decide (f = Some g)) as [->|Hne]; [by eapply Hhave|]. rewrite Hsame by congruence. by apply Hq.
    + intros g Hg. rewrite Hsame; [by apply Hq|]. intros <-. by eapply (Hothers g j m (PRun b u o)).
    + rewrite Hsame; [done|]. intros <-. by eapply (Hothers g j m (PLeave b u (Some g))).
Qed.

(** ** Pool steps *)

Definition queued (ts : list ScheduleTask) w : Pool :=
  mk_Pool (Scheduler.set_tasks_ (tasks_ (sched w) ++ ts) (sched w)) (pcs w) (states w)
    (Scheduler.scheduled w ++ ts) (Scheduler.finished w).

Lemma queued_nil w : queued [] w = w.
Proof. destruct w as [[] ]. unfold queued, Scheduler.set_tasks_. simpl. by rewrite !app_nil_r. Qed.

Lemma do_schedules ts ls : Forall (λ t, Scheduler.runnable t = true) ts → ∀ w,
  do_all ((LSchedule <$> ts) ++ ls) w = do_all ls (queued ts w).
Proof.
  induction 1 as [|t ts Ht _ IH]; intros w; simpl; [by rewrite queued_nil|].
  unfold Scheduler.do_Schedule. rewrite Scheduler.Schedule_ok, Ht. rewrite IH. f_equal.
  unfold queued, Scheduler.set_tasks_. simpl. by rewrite <- !(assoc_L (++)).
Qed.

Lemma queued_wf ts w : Forall (λ t, Scheduler.runnable t = true) ts → Scheduler.wf w → Scheduler.wf (queued ts w).
Proof.
  intros Hts Hw. apply (Scheduler.steps_wf w); [done|]. apply (Scheduler.do_all_steps (LSchedule <$> ts)).
  pose proof (do_schedules ts [] Hts w) as Hd. by rewrite app_nil_r in Hd.
Qed.

(** New functions. *)
Lemma placed_new names parked w (cs : list nat) : placed names parked w →
  let ts := (λ c, task_of_cb (Some c) (-1)) <$> cs in NoDup cs → (∀ t, t ∈ ts → t ∉ names) →
  placed (names ++ ts) parked (queued ts w).
Proof.
  intros Hw ts Hnd Hnew. destruct Hw as [Hwf Hp Hn Hs Hd Hr Hpc].
  assert (∀ t, t ∈ ts → ∃ c, t = task_of_cb (Some c) (-1)) as Hts.
  { intros t (c & -> & _)%list_elem_of_fmap. by exists c. }
  constructor.
  - apply queued_wf; [|done]. apply Forall_forall. intros t Ht. by destruct (Hts t Ht) as [c ->].
  - simpl. rewrite Hp, <- !(assoc_L (++)). f_equiv. rewrite (assoc_L (++) _ parked), (comm (++) _ ts). done.
  - apply NoDup_app. split_and!; [done|intros t Ht Hin; by apply (Hnew t)|].
    apply NoDup_fmap_2; [|done]. by intros c1 c2 [= ->].
  - intros t [Ht|Ht]%elem_of_app; [by apply Hs|]. destruct (Hts t Ht) as [c ->]. constructor.
  - exact Hd.
  - intros t f [Ht|Ht]%elem_of_app Hf; [by apply (Hr t)|]. by destruct (Hts t Ht) as [c ->].
  - exact Hpc.
Qed.

(** An event wakes a function that waits. *)
Lemma placed_wake names parked parked' t w : placed names parked w → parked ≡ₚ t :: parked' →
  Scheduler.do (LSchedule t) w = Some (Ok (queued [t] w)) ∧ placed names parked' (queued [t] w).
Proof.
  intros Hw Hp. assert (t ∈ names) as Hin.
  { rewrite (p_perm _ _ _ Hw), Hp, !elem_of_app. right. right. by left. }
  pose proof (name_ok_runnable t (p_shape _ _ _ Hw t Hin)) as Hrun. split.
  { pose proof (do_schedules [t] [] ltac:(by repeat constructor) w) as Hd. simpl in *.
    unfold Scheduler.do_Schedule in *. rewrite Scheduler.Schedule_ok, Hrun in *. done. }
  destruct Hw as [Hwf Hperm Hn Hs Hd Hr Hpc]. constructor; try done.
  - apply queued_wf; [by repeat constructor|done].
  - simpl. rewrite Hperm, Hp, <- (assoc_L (++)). f_equiv. by rewrite <- Permutation_middle.
Qed.

(** [Run] at the head of its loop. *)
Lemma placed_take names parked w i r : placed names parked w → Scheduler.do (LTake i) w = Some r →
  ∃ w', r = Ok w' ∧ placed names parked w'.
Proof.
  intros Hw Hr. pose proof Hw as [Hwf Hperm Hnd Hs Hrid Hsaved Hpc].
  simpl in Hr. pose proof Hr as Hr'. unfold Scheduler.do_Take in Hr.
  destruct (pcs w !! i) as [[n [it| | | | |]]|] eqn:Hi; try done.
  pose proof (Scheduler.take_task_first n (Scheduler.running_in (states w)) (tasks_ (sched w))
    (Scheduler.wf_runnable _ Hwf)) as (o & rest & tk & Htk & Ho).
  rewrite Htk in Hr. destruct o as [t|].
  - destruct Ho as (l1 & l2 & Hq & Hrest & _ & Hel & _). injection Hr as Hr. subst rest r.
    eexists. split; [reflexivity|].
    apply (placed_move names parked names parked w i n (PLoop it) (PHave it t) _ (states w) (Scheduler.finished w) None Hw Hi);
      try done; try (by left); try (by right).
    + by apply (Scheduler.do_Take_wf i w).
    + rewrite Hperm, (busy_none _ i n (PLoop it)) by done. simpl. rewrite Hq, <- !(assoc_L (++)). simpl.
      f_equiv. apply Permutation_middle.
    + intros u Hu. split; [by apply Hs|by right].
    + simpl. intros f Hf. assert (t ∈ names) as Hin by (rewrite Hperm, Hq, !elem_of_app; left; right; by left).
      destruct (decide (f ∈ ridden (pcs w))) as [(j & m & p & Hj & Hp)%ridden_elem|Hn].
      * destruct (rides_state _ _ _ _ _ _ _ Hw Hj Hp) as [Hrun| ->]; [|by exists false].
        unfold Scheduler.eligible, Scheduler.is_running, Scheduler.running_in in Hel. rewrite Hf, Hrun, andb_false_r in Hel. done.
      * exists true. by apply (Hsaved t).
  - destruct Ho as (-> & _).
    assert (∃ p', pc_busy p' = None ∧ pc_rides p' = None ∧ pc_ok (states w) p' ∧ ∃ s', tasks_ s' = tasks_ (sched w) ∧
      r = Ok (Scheduler.set_pc i n p' s' w)) as (p' & Hp' & Hrp' & Hok & s' & Hts & ->).
    { destruct it; injection Hr as <-; [exists PExit|exists PIdle]; (split; [done|]); (split; [done|]); (split; [done|]);
        eexists; (split; [|reflexivity]); done. }
    eexists. split; [reflexivity|].
    apply (placed_move names parked names parked w i n (PLoop it) p' s' (states w) (Scheduler.finished w) None Hw Hi);
      try done; try (by left).
    + by apply (Scheduler.do_Take_wf i w).
    + rewrite Hts, Hperm, (busy_none _ i n (PLoop it)), Hp' by done. done.
    + intros u Hu. split; [by apply Hs|by right].
Qed.

(** [Resume] finds a fiber that is ready; its context is saved unless another thread is
    still on its stack. *)
Lemma placed_resume names parked w i r : placed names parked w → Scheduler.do (LResume i) w = Some r →
  if racing i w then r = Err UndefinedBehaviour else ∃ w', r = Ok w' ∧ placed names parked w'.
Proof.
  intros Hw Hr. pose proof Hw as [Hwf Hperm Hnd Hs Hrid Hsaved Hpc].
  simpl in Hr. pose proof Hr as Hr'. unfold Scheduler.do_Resume in Hr. unfold racing.
  destruct (pcs w !! i) as [[n [|it t| | | |]]|] eqn:Hi; try done.
  pose proof (Hpc i n (PHave it t) Hi) as Ht. simpl in Ht.
  pose proof (busy_name _ _ _ i n (PHave it t) t Hw Hi eq_refl) as Hin.
  destruct (busy_one (pcs w) i n (PHave it t) t Hi eq_refl) as (rest & Hheld & Hmove & Hothers).
  assert (names ≡ₚ tasks_ (sched w) ++ busy (<[i := (n, PRun it t None)]> (pcs w)) ++ parked) as Hperm'
    by (by rewrite Hmove, Hperm, Hheld).
  destruct (fiber t) as [f|] eqn:Hf.
  - destruct (Ht f eq_refl) as [[] Hst]; rewrite Hst in Hr |- *; [|by injection Hr as <-]. injection Hr as <-.
    eexists. split; [reflexivity|].
    apply (placed_move names parked names parked w i n (PHave it t) (PRun it t None) (sched w)
        (<[f := (RUNNING, false)]> (states w)) (Scheduler.finished w) (Some f) Hw Hi);
      try done; try (by left).
    + by apply (Scheduler.do_Resume_wf i w).
    + intros u Hu. split; [by apply Hs|by right].
    + intros g Hg. rewrite lookup_insert_ne by congruence. done.
    + right. simpl. by rewrite Hf.
    + intros g j m q [= <-] Hij Hj Hq. destruct (rides_state _ _ _ _ _ _ _ Hw Hj Hq); congruence.
    + intros g j m b u [= <-] Hij Hj Hu. exfalso. pose proof (Hothers j m _ u Hij Hj eq_refl) as Hur.
      pose proof (busy_name _ _ _ j m _ u Hw Hj eq_refl) as Hun. pose proof (placed_one _ _ _ _ _ Hw Hf u Hin Hun Hu) as ->.
      rewrite Hperm, Hheld in Hnd. simpl in Hnd. rewrite <- Permutation_middle in Hnd. apply NoDup_cons in Hnd as [Hnd _].
      apply Hnd. rewrite !elem_of_app. auto.
    + simpl. intros g Hg. rewrite Hf in Hg. injection Hg as <-. apply lookup_insert_eq.
  - injection Hr as <-. eexists. split; [reflexivity|].
    apply (placed_move names parked names parked w i n (PHave it t) (PRun it t None) (sched w) (states w) (Scheduler.finished w) None Hw Hi);
      try done; try (by left).
    + by apply (Scheduler.do_Resume_wf i w).
    + intros u Hu. split; [by apply Hs|by right].
    + simpl. rewrite Hf. done.
Qed.

(** The idle fiber. *)
Lemma placed_idle names parked w i r : placed names parked w → Scheduler.do (LIdle i) w = Some r →
  ∃ w', r = Ok w' ∧ placed names parked w'.
Proof.
  intros Hw Hr. pose proof Hw as [Hwf Hperm Hnd Hs Hrid Hsaved Hpc].
  simpl in Hr. pose proof Hr as Hr'. unfold Scheduler.do_Idle in Hr.
  destruct (pcs w !! i) as [[n [| | | | |]]|] eqn:Hi; try done. injection Hr as <-.
  eexists. split; [reflexivity|].
  apply (placed_move names parked names parked w i n PIdle (PLoop (Scheduler.Stopping (sched w))) _ (states w) (Scheduler.finished w) None Hw Hi);
    try done; try (by left).
  - by apply (Scheduler.do_Idle_wf i w).
  - rewrite Hperm, (busy_none _ i n PIdle) by done. done.
  - intros u Hu. split; [by apply Hs|by right].
Qed.

(** [Stop] by the thread that may call it. *)
Lemma placed_stop names parked w r : placed names parked w →
  Scheduler.do (LStop (Scheduler.use_caller_ (sched w))) w = Some r → ∃ w', r = Ok w' ∧ placed names parked w'.
Proof.
  intros Hw Hr. simpl in Hr. pose proof Hr as Hr'.
  destruct (Scheduler.Stop _ (sched w)) as [o s] eqn:Hst.
  assert (∃ x, o = Ok x) as [x ->].
  { revert Hst. unfold Scheduler.Stop. mstep. destruct (Scheduler.Stopping (sched w)); [intros [= <- _]; by eexists|].
    unfold massert, mput. rewrite bind_unfold. destruct (Scheduler.use_caller_ (sched w)); intros [= <- _]; by eexists. }
  injection Hr as <-. eexists. split; [reflexivity|]. destruct Hw as [Hwf Hperm Hnd Hs Hrid Hsaved Hpc].
  destruct (Scheduler.Stop_ok _ _ _ _ Hst) as [->| ->]; constructor; try done; simpl.
  - by destruct w.
  - destruct Hwf as [H1 H2 H3 H4 H5]. by constructor.
Qed.

(** *** The end of a function *)

(** It has given its thread back, in the state [st]. *)
Definition left_ (i : nat) (n : Z) (it : bool) (t : ScheduleTask) (st : State) w : Pool :=
  mk_Pool (Scheduler.set_active (Scheduler.active_thread_count_ (sched w) - 1) (sched w))
    (<[i := (n, PLoop it)]> (pcs w))
    (match fiber t with Some f => <[f := (st, true)]> (states w) | None => states w end)
    (Scheduler.scheduled w) (Scheduler.finished w ++ [(n, t)]).

Lemma do_leave i n it t st ls w : pcs w !! i = Some (n, PRun it t None) → st ≠ RUNNING →
  do_all (LMark i st :: LSwitch i :: ls) w = do_all ls (left_ i n it t st w).
Proof.
  intros Hi Hst. simpl. unfold Scheduler.do_Mark. rewrite Hi, decide_False by done.
  assert (i < length (pcs w))%nat as Hlt by (by eapply lookup_lt_Some).
  unfold Scheduler.do_Switch, left_, rides. destruct (fiber t) as [f|] eqn:Hf; simpl;
    rewrite list_lookup_insert_eq by done; rewrite Hf; simpl; rewrite list_insert_insert_eq.
  - rewrite alter_insert_eq. simpl. reflexivity.
  - reflexivity.
Qed.

Lemma placed_leave names parked w i n it t st names' : placed names parked w →
  pcs w !! i = Some (n, PRun it t None) → st ≠ RUNNING → names ≡ₚ t :: names' →
  placed names' parked (left_ i n it t st w).
Proof.
  intros Hw Hi Hst Hn. pose proof Hw as [Hwf Hperm Hnd Hs Hrid Hsaved Hpc].
  destruct (busy_one (pcs w) i n (PRun it t None) t Hi eq_refl) as (rest & Hheld & Hmove & Hothers).
  assert (NoDup (t :: names')) as Hnd' by (by rewrite <- Hn).
  apply NoDup_cons in Hnd' as [Hnew Hnd'].
  assert (t ∈ names) as Hin by (rewrite Hn; by left).
  apply (placed_move names parked names' parked w i n (PRun it t None) (PLoop it) _ _ _ (fiber t) Hw Hi);
    try done; try (by left); try (by right).
  - apply (Scheduler.steps_wf w); [done|]. apply (Scheduler.do_all_steps [LMark i st; LSwitch i]).
    by rewrite (do_leave i n it t).
  - apply (Permutation_cons_inv (a := t)). rewrite <- Hn, Hperm, Hheld, Hmove. simpl. symmetry. apply Permutation_middle.
  - intros u Hu. assert (u ∈ names) as Hun by (rewrite Hn; by right). split; [by apply Hs|by right].
  - intros g Hg. destruct (fiber t) as [f|]; [|done]. rewrite lookup_insert_ne by congruence. done.
  - intros g j m q Hg Hij Hj. by apply (rider_alone _ _ _ i n (PRun it t None) g Hw Hi Hg j m q).
  - intros g j m b u Hg Hij Hj Hu. exfalso. pose proof (Hpc i n _ Hi g Hg) as Hrun.
    destruct (Hpc j m _ Hj g Hu) as [b' Hready]. simpl in *. congruence.
  - intros g u Hg Hu Hug. exfalso. apply Hnew. rewrite <- (placed_one _ _ _ _ _ Hw Hg u Hin); [done| |done].
    rewrite Hn. by right.
Qed.

(** *** A function that waits *)

(** It has registered its fiber [f], and is known by it from now on. *)
Lemma placed_register names parked w i n it t f names' r : placed names parked w →
  pcs w !! i = Some (n, PRun it t None) → names ≡ₚ t :: names' → Scheduler.do (LShare i f) w = Some r →
  ∃ w', r = Ok w' ∧
    placed (task_of_fiber (Some f) (-1) :: names') (parked ++ [task_of_fiber (Some f) (-1)]) w' ∧
    pcs w' = <[i := (n, PRun it t (Some f))]> (pcs w) ∧ tasks_ (sched w') = tasks_ (sched w).
Proof.
  intros Hw Hi Hn Hr. pose proof Hw as [Hwf Hperm Hnd Hs Hrid Hsaved Hpc].
  simpl in Hr. pose proof Hr as Hr'. unfold Scheduler.do_Share in Hr. rewrite Hi in Hr.
  set (t' := task_of_fiber (Some f) (-1)).
  destruct (busy_one (pcs w) i n (PRun it t None) t Hi eq_refl) as (rest & Hheld & Hmove & Hothers).
  assert (NoDup (t :: names')) as Hnd' by (by rewrite <- Hn). apply NoDup_cons in Hnd' as [Hnew Hnd'].
  assert (t ∈ names) as Hin by (rewrite Hn; by left).
  assert (names' ≡ₚ tasks_ (sched w) ++ rest ++ parked) as Hperm'.
  { apply (Permutation_cons_inv (a := t)). rewrite <- Hn, Hperm, Hheld. simpl. symmetry. apply Permutation_middle. }
  set (h := match fiber t with Some _ => states w | None => <[f := (RUNNING, false)]> (states w) end).
  assert (r = Ok (mk_Pool (sched w) (<[i := (n, PRun it t (Some f))]> (pcs w)) h (Scheduler.scheduled w) (Scheduler.finished w)) ∧
    h !! f = Some (RUNNING, false) ∧ (∀ u, u ∈ names' → fiber u ≠ Some f) ∧ (∀ g, g ≠ f → h !! g = states w !! g) ∧
    (∀ j m q, i ≠ j → pcs w !! j = Some (m, q) → pc_rides q ≠ Some f) ∧
    (∀ j m b u, pcs w !! j = Some (m, PHave b u) → fiber u ≠ Some f) ∧ (fiber t = None ∨ fiber t = Some f))
    as (-> & Hh & Hfresh & Hsame & Hride & Hhave & Hft).
  { unfold h. destruct (fiber t) as [g|] eqn:Hg.
    - case_decide; [|done]. subst g. injection Hr as <-. split; [by destruct w|].
      assert (states w !! f = Some (RUNNING, false)) as Hrun by (apply (Hpc i n _ Hi); by simpl; rewrite Hg).
      split; [done|]. split; [|split; [done|split; [|split; [|by right]]]].
      + intros u Hu Huf. apply Hnew. rewrite <- (placed_one _ _ _ _ _ Hw Hg u Hin); [done| |done]. rewrite Hn. by right.
      + intros j m q Hij Hj. apply (rider_alone _ _ _ i n (PRun it t None) f Hw Hi Hg j m q Hij Hj).
      + intros j m b u Hj Hu. destruct (Hpc j m _ Hj f Hu) as [b' Hb]. simpl in *. congruence.
    - destruct (states w !! f) eqn:Hf; [done|]. injection Hr as <-. split; [done|]. split; [apply lookup_insert_eq|].
      split; [|split; [intros g' Hg'; by rewrite lookup_insert_ne|split; [|split; [|by left]]]].
      + intros u Hu Huf. destruct (name_state _ _ _ u f Hw ltac:(rewrite Hn; by right) Huf). congruence.
      + intros j m q _ Hj Hq. destruct (rides_state _ _ _ _ _ _ _ Hw Hj Hq); congruence.
      + intros j m b u Hj Hu. destruct (Hpc j m _ Hj f Hu). simpl in *. congruence. }
  eexists. split; [reflexivity|]. split; [|done].
  apply (placed_move names parked _ _ w i n (PRun it t None) (PRun it t (Some f)) _ _ _ (Some f) Hw Hi); try done; try (by right).
  - by apply (Scheduler.do_Share_wf i f w).
  - rewrite Hmove, Hperm'. simpl. rewrite !(assoc_L (++)). by rewrite <- Permutation_cons_append.
  - apply NoDup_cons. split; [|done]. intros Ht'. by apply (Hfresh t').
  - intros u [->|Hu]%elem_of_cons; [split; [constructor|by left]|]. assert (u ∈ names) as Hun by (rewrite Hn; by right).
    split; [by apply Hs|by right].
  - intros g Hg. apply Hsame. congruence.
  - intros g j m q [= <-]. by apply Hride.
  - intros g j m b u [= <-] _ Hj Hu. by destruct (Hhave j m b u Hj).
  - intros g u [= <-] _ _. by left.
  - simpl. by intros g [= <-].
Qed.

(** It has set its state to READY. *)
Lemma placed_yield names parked w i n it t f : placed names parked w → pcs w !! i = Some (n, PRun it t (Some f)) → ∃ w',
  Scheduler.do (LMark i READY) w = Some (Ok w') ∧ placed names parked w' ∧
  pcs w' = <[i := (n, PLeave it t (Some f))]> (pcs w) ∧ tasks_ (sched w') = tasks_ (sched w).
Proof.
  intros Hw Hi. pose proof Hw as [Hwf Hperm Hnd Hs Hrid Hsaved Hpc].
  assert (Scheduler.do (LMark i READY) w = Some (Ok (mk_Pool (sched w) (<[i := (n, PLeave it t (Some f))]> (pcs w))
    (<[f := (READY, false)]> (states w)) (Scheduler.scheduled w) (Scheduler.finished w)))) as Hd.
  { simpl. unfold Scheduler.do_Mark. rewrite Hi. done. }
  eexists. split; [exact Hd|]. split; [|done].
  apply (placed_move names parked names parked w i n (PRun it t (Some f)) (PLeave it t (Some f)) _ _ _ (Some f) Hw Hi); try done; try (by right).
  - by apply (Scheduler.do_Mark_wf i READY w).
  - rewrite Hperm, (busy_none _ i n (PRun it t (Some f))) by done. done.
  - intros u Hu. split; [by apply Hs|by right].
  - intros g Hg. rewrite lookup_insert_ne by congruence. done.
  - intros g j m q [= <-] Hij Hj. by apply (rider_alone _ _ _ i n _ f Hw Hi eq_refl j m q).
  - intros g j m b u [= <-] _ Hj Hu. exfalso. destruct (Hpc j m _ Hj f Hu) as [b' Hb].
    pose proof (Hpc i n _ Hi f eq_refl). simpl in *. congruence.
  - intros g u [= <-] _ _. by left.
  - simpl. apply lookup_insert_eq.
Qed.

(** It has left its thread; its context is saved. *)
Lemma placed_switch names parked w i n it t f : placed names parked w → pcs w !! i = Some (n, PLeave it t (Some f)) → ∃ w',
  Scheduler.do (LSwitch i) w = Some (Ok w') ∧ placed names parked w' ∧
  pcs w' = <[i := (n, PLoop it)]> (pcs w) ∧ tasks_ (sched w') = tasks_ (sched w).
Proof.
  intros Hw Hi. pose proof Hw as [Hwf Hperm Hnd Hs Hrid Hsaved Hpc]. pose proof (Hpc i n _ Hi) as Hf. simpl in Hf.
  set (h := alter (λ sb, (sb.1, true)) f (states w)).
  assert (Scheduler.do (LSwitch i) w = Some (Ok (mk_Pool (Scheduler.set_active (Scheduler.active_thread_count_ (sched w) - 1) (sched w))
    (<[i := (n, PLoop it)]> (pcs w)) h (Scheduler.scheduled w) (Scheduler.finished w ++ [(n, t)])))) as Hd.
  { simpl. unfold Scheduler.do_Switch. rewrite Hi. done. }
  assert (h !! f = Some (READY, true)) as Hh by (unfold h; by rewrite lookup_alter_eq, Hf).
  eexists. split; [exact Hd|]. split; [|done].
  apply (placed_move names parked names parked w i n (PLeave it t (Some f)) (PLoop it) _ _ _ (Some f) Hw Hi); try done; try (by right); try (by left).
  - by apply (Scheduler.do_Switch_wf i w).
  - rewrite Hperm, (busy_none _ i n (PLeave it t (Some f))) by done. done.
  - intros u Hu. split; [by apply Hs|by right].
  - intros g Hg. unfold h. rewrite lookup_alter_ne by congruence. done.
  - intros g j m q [= <-] Hij Hj. by apply (rider_alone _ _ _ i n _ f Hw Hi eq_refl j m q).
  - intros g j m b u [= <-] _ Hj Hu. by exists true.
  - intros g u [= <-] _ _. by right.
Qed.

End places.

(** ** The server on the pool *)

Section system.
Context {W : Type} `{!Net W} (host : endian).

(** [accepts] and [clients] name the functions of the two workers, in their order; [parked]
    are those that wait in the IO manager; callbacks are numbered as they are made. *)
Record Sys := mkSys {
  srv : TcpServer.State (W := W);
  pool : Pool;
  accepts : list ScheduleTask;
  clients : list ScheduleTask;
  parked_ : list ScheduleTask;
  next_cb : nat
}.

Definition Sys_new (read_timeout : Z) (w : W) (p : Pool) : Sys :=
  mkSys (TcpServer.State_new read_timeout w) p [] [] [] 0.

Definition callbacks (c k : nat) : list ScheduleTask := (λ c, task_of_cb (Some c) (-1)) <$> seq c k.

(** Labels of the pool alone; the names and the parked functions afterwards are given. *)
Definition pool_step (ls : list Scheduler.label) (acc cli park : list ScheduleTask) (s : Sys) : option (res Sys) :=
  match do_all ls (pool s) with
  | None => None
  | Some (Err e) => Some (Err e)
  | Some (Ok p) => Some (Ok (mkSys (srv s) p acc cli park (next_cb s)))
  end.

(** An event of the server: the functions it gives to its workers are scheduled, and then
    the pool does [ls]. [acc] and [cli] name the functions from before that are left. *)
Definition act (e : TcpServer.event) (acc cli : list ScheduleTask) (ls : list Scheduler.label) (s : Sys) :
    option (res Sys) :=
  match TcpServer.exec host e (srv s) with
  | (Err x, _) => Some (Err x)
  | (Ok _, srv') =>
      let ka := (length (TcpServer.accept_worker srv') - length acc)%nat in
      let kc := (length (TcpServer.io_worker srv') - length cli)%nat in
      let na := callbacks (next_cb s) ka in
      let nc := callbacks (next_cb s + ka) kc in
      match do_all ((LSchedule <$> na ++ nc) ++ ls) (pool s) with
      | None => None
      | Some (Err x) => Some (Err x)
      | Some (Ok p) => Some (Ok (mkSys srv' p (acc ++ na) (cli ++ nc) (parked_ s) (next_cb s + ka + kc)))
      end
  end.

(** What is done from outside: [YBind], [YStart] and [YStop] of the server, [YStopPool]; a
    thread takes a task, resumes it, or runs its idle fiber; the function a thread runs
    goes on to its next point ([YRun]), or registers for an event as the fiber [f]
    ([YRegister]), and then is made READY and leaves the thread; the event that the [n]-th
    parked function has registered for comes ([YWake]). *)
Inductive label :=
  | YBind (addrs fails : list Address.Address)
  | YStart
  | YStop
  | YStopPool
  | YTake (i : nat)
  | YResume (i : nat)
  | YIdle (i : nat)
  | YRun (i : nat)
  | YRegister (i : nat) (f : Z)
  | YYield (i : nat)
  | YSwitch (i : nat)
  | YWake (n : nat).

Definition index_of (t : ScheduleTask) (l : list ScheduleTask) : option nat := fst <$> list_find (t =.) l.

(** The function that thread [i] runs and that does not wait. *)
Definition runs (i : nat) (s : Sys) : option ScheduleTask :=
  match pcs (pool s) !! i with Some (_, PRun _ t None) => Some t | _ => None end.

(** Has it registered? *)
Definition yields (i : nat) (s : Sys) : bool :=
  match pcs (pool s) !! i with Some (_, PRun _ _ (Some _)) => true | _ => false end.

(** Is the next step of a function of the accept worker its last? *)
Definition ends (t : TcpServer.task) (s : Sys) : bool :=
  match t with
  | TcpServer.TStartAccept _ => TcpServer.is_stop_ (TcpServer.server (srv s))
  | TcpServer.TAccepting _ _ => false
  | TcpServer.TClose => true
  end.

Definition do_run (i : nat) (s : Sys) : option (res Sys) :=
  t ← runs i s;
  match index_of t (accepts s), index_of t (clients s) with
  | Some n, _ =>
      f ← TcpServer.accept_worker (srv s) !! n;
      if ends f s then act (TcpServer.ETask n) (delete n (accepts s)) (clients s) [LMark i TERM; LSwitch i] s
      else act (TcpServer.ETask n) (accepts s) (clients s) [] s
  | None, Some n => act (TcpServer.EClient n) (accepts s) (delete n (clients s)) [LMark i TERM; LSwitch i] s
  | None, None => None
  end.

(** Only [accept] waits. Who has registered is known by its fiber from then on. *)
Definition do_register (i : nat) (f : Z) (s : Sys) : option (res Sys) :=
  t ← runs i s;
  n ← index_of t (accepts s);
  match TcpServer.accept_worker (srv s) !! n with
  | Some (TcpServer.TAccepting _ _) =>
      let t' := task_of_fiber (Some f) (-1) in
      pool_step [LShare i f] (<[n := t']> (accepts s)) (clients s) (parked_ s ++ [t']) s
  | _ => None
  end.

(** [None]: the step is not possible. *)
Definition step (l : label) (s : Sys) : option (res Sys) :=
  let same ls := pool_step ls (accepts s) (clients s) (parked_ s) s in
  match l with
  | YBind addrs fails => act (TcpServer.EBind addrs fails) (accepts s) (clients s) [] s
  | YStart => act TcpServer.EStart (accepts s) (clients s) [] s
  | YStop => act TcpServer.EStop (accepts s) (clients s) [] s
  | YStopPool => same [LStop (Scheduler.use_caller_ (sched (pool s)))]
  | YTake i => same [LTake i]
  | YResume i => same [LResume i]
  | YIdle i => same [LIdle i]
  | YRun i => do_run i s
  | YRegister i f => do_register i f s
  | YYield i => if yields i s then same [LMark i READY] else None
  | YSwitch i => same [LSwitch i]
  | YWake n =>
      t ← parked_ s !! n;
      pool_step [LSchedule t] (accepts s) (clients s) (delete n (parked_ s)) s
  end.

(** A step that is not possible is skipped. *)
Fixpoint run (ls : list label) (s : Sys) : res Sys :=
  match ls with
  | [] => Ok s
  | l :: ls => match step l s with
               | None => run ls s
               | Some (Ok s) => run ls s
               | Some (Err e) => Err e
               end
  end.

(** No thread resumes a fiber that another one is still leaving. *)
Definition race (l : label) (s : Sys) : bool :=
  match l with YResume i => racing i (pool s) | _ => false end.

Fixpoint raceless (ls : list label) (s : Sys) : bool :=
  match ls with
  | [] => true
  | l :: ls => negb (race l s) && match step l s with
                                  | None => raceless ls s
                                  | Some (Ok s) => raceless ls s
                                  | Some (Err _) => true
                                  end
  end.

Definition label_ok (l : label) : bool :=
  match l with YBind addrs _ => forallb Socket.has_path addrs | _ => true end.

(** ** The invariant *)

Section laws.
Context `{!NetLaws W}.

Record sinv (base : gset Z) (s : Sys) : Prop := {
  y_good : TcpServer.good base (srv s);
  y_placed : placed (accepts s ++ clients s) (parked_ s) (pool s);
  y_accepts : length (accepts s) = length (TcpServer.accept_worker (srv s));
  y_clients : length (clients s) = length (TcpServer.io_worker (srv s));
  y_fresh c : task_of_cb (Some c) (-1) ∈ accepts s ++ clients s → (c < next_cb s)%nat;
  y_closes n t : accepts s !! n = Some t → TcpServer.accept_worker (srv s) !! n = Some TcpServer.TClose → fiber t = None
}.

(** What a step leads to. *)
Definition leads (base : gset Z) (s : Sys) (r : res Sys) : Prop :=
  ∃ s', r = Ok s' ∧ sinv base s' ∧ rtc Scheduler.step (pool s) (pool s') ∧
    (srv s' = srv s ∨ ∃ e, TcpServer.event_ok e = true ∧ TcpServer.exec host e (srv s) = (Ok tt, srv s')).

Lemma callbacks_new c k t : t ∈ callbacks c k ↔ ∃ d, t = task_of_cb (Some d) (-1) ∧ (c ≤ d < c + k)%nat.
Proof using.
  unfold callbacks. rewrite list_elem_of_fmap. split.
  - intros (d & -> & Hd%elem_of_seq). by exists d.
  - intros (d & -> & Hd). exists d. split; [done|]. by apply elem_of_seq.
Qed.

Lemma callbacks_app c k1 k2 : callbacks c k1 ++ callbacks (c + k1) k2 = callbacks c (k1 + k2).
Proof using. unfold callbacks. by rewrite seq_app, fmap_app. Qed.

(** The pool takes the new functions, and then does its labels. *)
Lemma act_ok base e acc cli ls s srv' : sinv base s → TcpServer.event_ok e = true →
  TcpServer.exec host e (srv s) = (Ok tt, srv') → TcpServer.good base srv' →
  (length acc ≤ length (TcpServer.accept_worker srv'))%nat → (length cli ≤ length (TcpServer.io_worker srv'))%nat →
  (∀ c, task_of_cb (Some c) (-1) ∈ acc ++ cli → task_of_cb (Some c) (-1) ∈ accepts s ++ clients s) →
  (∀ n t, acc !! n = Some t → TcpServer.accept_worker srv' !! n = Some TcpServer.TClose → fiber t = None) →
  (∀ ts, placed ((accepts s ++ clients s) ++ ts) (parked_ s) (queued ts (pool s)) →
    ∃ p, do_all ls (queued ts (pool s)) = Some (Ok p) ∧ placed ((acc ++ cli) ++ ts) (parked_ s) p) →
  ∃ r, act e acc cli ls s = Some r ∧ leads base s r.
Proof using.
  intros Hs He Hr Hg Hla Hlc Hcb Hcl Hls. unfold act. rewrite Hr.
  set (ka := (length _ - length acc)%nat). set (kc := (length _ - length cli)%nat).
  set (c := next_cb s). rewrite callbacks_app. set (ts := callbacks c (ka + kc)).
  assert (Forall (λ t, Scheduler.runnable t = true) ts) as Hrun.
  { apply Forall_forall. intros t (d & -> & _)%callbacks_new. done. }
  destruct (Hls ts) as (p & Hp & Hpl).
  { apply (placed_new _ _ _ (seq c (ka + kc))); [apply Hs|apply NoDup_seq|].
    intros t (d & -> & Hd)%callbacks_new Hin. pose proof (y_fresh _ _ Hs d Hin). unfold c in Hd. lia. }
  pose proof (do_schedules ts ls Hrun (pool s)) as Hd. rewrite Hp in Hd. rewrite Hd.
  eexists. split; [reflexivity|]. eexists. split; [reflexivity|].
  assert (callbacks c ka ++ callbacks (c + ka) kc = ts) as Hts by apply callbacks_app.
  assert ((acc ++ callbacks c ka) ++ cli ++ callbacks (c + ka) kc ≡ₚ (acc ++ cli) ++ ts) as Hperm.
  { rewrite <- Hts, <- !(assoc_L (++)). f_equiv. rewrite !(assoc_L (++)). f_equiv. by rewrite (comm (++)). }
  split; [constructor; simpl; [done| | | | |]|split; [simpl; by eapply Scheduler.do_all_steps|]].
  - by apply (placed_perm ((acc ++ cli) ++ ts) _ (parked_ s)).
  - unfold callbacks. rewrite length_app, length_fmap, length_seq. unfold ka. lia.
  - unfold callbacks. rewrite length_app, length_fmap, length_seq. unfold kc. lia.
  - intros d. rewrite Hperm, elem_of_app. intros [Hin|(d' & [= ->] & Hd')%callbacks_new].
    + pose proof (y_fresh _ _ Hs d (Hcb d Hin)). lia.
    + unfold c in Hd'. lia.
  - intros n t [Hn|[_ Hn]]%lookup_app_Some; [by apply Hcl|]. intros _.
    apply list_elem_of_lookup_2, callbacks_new in Hn as (d & -> & _). done.
  - right. by exists e.
Qed.

(** Labels of the pool alone. *)
Lemma pool_step_ok base ls acc cli park s r : sinv base s →
  pool_step ls acc cli park s = Some r → length acc = length (accepts s) → length cli = length (clients s) →
  (∀ c, task_of_cb (Some c) (-1) ∈ acc ++ cli → task_of_cb (Some c) (-1) ∈ accepts s ++ clients s) →
  (∀ n t, acc !! n = Some t → TcpServer.accept_worker (srv s) !! n = Some TcpServer.TClose → accepts s !! n = Some t) →
  (∀ x, do_all ls (pool s) = Some x → ∃ p, x = Ok p ∧ placed (acc ++ cli) park p) → leads base s r.
Proof using.
  intros Hs Hr Hla Hlc Hcb Hcl Hls. unfold pool_step in Hr. destruct (do_all ls (pool s)) as [x|] eqn:Hd; [|done].
  destruct (Hls x eq_refl) as (p & -> & Hp). injection Hr as <-. eexists. split; [reflexivity|].
  split; [|split; [by eapply Scheduler.do_all_steps|by left]].
  constructor; simpl; [apply Hs|done|by rewrite Hla, (y_accepts _ _ Hs)|by rewrite Hlc, (y_clients _ _ Hs)| |].
  - intros c Hc. by apply (y_fresh _ _ Hs), Hcb.
  - intros n t Hn Ht. apply (y_closes _ _ Hs n t); [by apply Hcl|done].
Qed.

(** ** Each step *)

Lemma replace_perm {A} (l : list A) n t : l !! n = Some t → ∃ rest, l ≡ₚ t :: rest ∧ delete n l ≡ₚ rest ∧
  ∀ t', <[n := t']> l ≡ₚ t' :: rest.
Proof using.
  intros Hn. exists (take n l ++ drop (S n) l). rewrite delete_take_drop. split; [|split; [done|]].
  - rewrite <- (take_drop_middle l n t Hn) at 1. by rewrite Permutation_middle.
  - intros t'. rewrite insert_take_drop by (by eapply lookup_lt_Some). by rewrite Permutation_middle.
Qed.

Lemma index_of_Some t l n : index_of t l = Some n → l !! n = Some t.
Proof using.
  unfold index_of. destruct (list_find (t =.) l) as [[m u]|] eqn:Hf; [|done]. intros [= <-].
  apply list_find_Some in Hf as (Hl & -> & _). done.
Qed.

Lemma runs_Some i s t : runs i s = Some t → ∃ m it, pcs (pool s) !! i = Some (m, PRun it t None).
Proof using. unfold runs. destruct (pcs (pool s) !! i) as [[m [| |? ? []| | |]]|]; try done. intros [= ->]. by do 2 eexists. Qed.

Lemma release_workers p (st st' : TcpServer.State (W := W)) r : TcpServer.release p st = (r, st') →
  TcpServer.accept_worker st' = TcpServer.accept_worker st ∧ TcpServer.io_worker st' = TcpServer.io_worker st.
Proof using.
  unfold TcpServer.release. case_decide; [by intros [= _ <-]|].
  destruct (TcpServer.heap st !! p) as [x|] eqn:Hx; [|by intros [= _ <-]].
  unfold TcpServer.deref. rewrite Hx. destruct (Socket.destruct _) as [[u|e] [y w]]; by intros [= _ <-].
Qed.

(** What the workers have after a step of one of their functions. *)
Lemma client_step base st n p : TcpServer.good base st → TcpServer.io_worker st !! n = Some p →
  ∃ st', TcpServer.exec host (TcpServer.EClient n) st = (Ok tt, st') ∧ TcpServer.good base st' ∧
    TcpServer.accept_worker st' = TcpServer.accept_worker st ∧
    TcpServer.io_worker st' = delete n (TcpServer.io_worker st).
Proof using.
  intros Hg Hn. destruct (TcpServer.step_client_inv base st n Hg) as (st' & Hr & Hg'). exists st'.
  split; [exact Hr|]. split; [exact Hg'|]. unfold TcpServer.step_client in Hr. rewrite TcpServer.get_bind, Hn in Hr.
  apply release_workers in Hr. exact Hr.
Qed.

Lemma task_step base s n f : Socket.hooked_accept (W := W) → TcpServer.good base (srv s) →
  TcpServer.accept_worker (srv s) !! n = Some f → ∃ srv',
  TcpServer.exec host (TcpServer.ETask n) (srv s) = (Ok tt, srv') ∧ TcpServer.good base srv' ∧
  (length (TcpServer.io_worker (srv s)) ≤ length (TcpServer.io_worker srv'))%nat ∧
  if ends f s then TcpServer.accept_worker srv' = delete n (TcpServer.accept_worker (srv s))
  else ∃ f', f' ≠ TcpServer.TClose ∧ TcpServer.accept_worker srv' = <[n := f']> (TcpServer.accept_worker (srv s)).
Proof using.
  intros Hh Hg Hn. pose proof Hg as [Hi Hl]. destruct (TcpServer.step_task_inv host base (srv s) n Hh Hg) as (srv' & Hr & Hg').
  exists srv'. split; [exact Hr|]. split; [exact Hg'|].
  destruct f as [p|p fd|]; cbn [ends].
  - destruct (TcpServer.start_spec host base (srv s) n p Hi Hn) as (st1 & Hr1 & _ & _ & Hio & _ & Hc).
    rewrite Hr in Hr1. injection Hr1 as <-. rewrite Hio. split; [done|].
    destruct (TcpServer.is_stop_ _); [done|]. destruct Hc as (x & _ & ->). eexists. by split; [|reflexivity].
  - destruct (TcpServer.accepting_spec host base (srv s) n p fd Hh Hi Hn) as (x & r & w & st1 & _ & _ & Hr1 & _ & _ & Ha & Hc).
    rewrite Hr in Hr1. injection Hr1 as <-. rewrite Ha. split; [|eexists; by split; [|reflexivity]].
    destruct r; [destruct Hc as (_ & _ & -> & _); rewrite length_app; lia|by destruct Hc as (-> & _)].
  - destruct (TcpServer.TClose_spec host base (srv s) n Hi Hl Hn) as (st1 & Hr1 & _ & _ & Ha & Hio).
    rewrite Hr in Hr1. injection Hr1 as <-. by rewrite Ha, Hio.
Qed.

(** The function that a thread runs ends. *)
Lemma end_of_turn names parked w names' i m it t ts : placed (names ++ ts) parked (queued ts w) →
  pcs w !! i = Some (m, PRun it t None) → names ≡ₚ t :: names' →
  ∃ p, do_all [LMark i TERM; LSwitch i] (queued ts w) = Some (Ok p) ∧ placed (names' ++ ts) parked p.
Proof using.
  intros Hw Hi Hn. exists (left_ i m it t TERM (queued ts w)). split; [by rewrite (do_leave i m it t)|].
  apply (placed_leave (names ++ ts)); [done|done|done|]. by rewrite Hn.
Qed.

Lemma do_run_ok base i s r : Socket.hooked_accept (W := W) → sinv base s → do_run i s = Some r → leads base s r.
Proof using.
  intros Hh Hs. unfold do_run. destruct (runs i s) as [t|] eqn:Hrun; [|done]. cbn [mbind option_bind].
  apply runs_Some in Hrun as (m & it & Hi). destruct (index_of t (accepts s)) as [n|] eqn:Hacc.
  - apply index_of_Some in Hacc. destruct (TcpServer.accept_worker (srv s) !! n) as [f|] eqn:Hf; [|done].
    cbn [mbind option_bind]. destruct (task_step base s n f Hh (y_good _ _ Hs) Hf) as (srv' & He & Hg & Hio & Hlen).
    destruct (replace_perm _ _ _ Hacc) as (rest & Hperm & Hdel & _).
    pose proof (lookup_lt_Some _ _ _ Hacc) as Hlt. pose proof (y_accepts _ _ Hs) as Hya. pose proof (y_clients _ _ Hs) as Hyc.
    destruct (ends f s) eqn:Hends.
    + destruct (act_ok base (TcpServer.ETask n) (delete n (accepts s)) (clients s) [LMark i TERM; LSwitch i] s srv' Hs eq_refl He Hg)
        as (r' & Hr' & Hleads); [| | | | |by intros [= <-]%(eq_trans (eq_sym Hr'))].
      * rewrite Hlen, !length_delete by (by eexists). lia.
      * lia.
      * intros c. rewrite !elem_of_app, Hdel, Hperm. intros [?|?]; [left; by right|by right].
      * intros k u. rewrite Hlen. destruct (decide (k < n)%nat).
        -- rewrite !list_lookup_delete_lt by done. apply (y_closes _ _ Hs).
        -- rewrite !list_lookup_delete_ge by lia. apply (y_closes _ _ Hs).
      * intros ts Hts. eapply end_of_turn; [exact Hts|exact Hi|]. by rewrite Hdel, Hperm.
    + destruct Hlen as (f' & Hf' & Hw).
      destruct (act_ok base (TcpServer.ETask n) (accepts s) (clients s) [] s srv' Hs eq_refl He Hg)
        as (r' & Hr' & Hleads); [rewrite Hw, length_insert; lia|lia|done| | |by intros [= <-]%(eq_trans (eq_sym Hr'))].
      * intros k u Hk. rewrite Hw, list_lookup_insert_Some. intros [(_ & ? & _)|[_ Hk']]; [done|by apply (y_closes _ _ Hs k)].
      * intros ts Hts. by eexists.
  - destruct (index_of t (clients s)) as [n|] eqn:Hcli; [|done]. apply index_of_Some in Hcli.
    pose proof (lookup_lt_Some _ _ _ Hcli) as Hlt. pose proof (y_accepts _ _ Hs) as Hya. pose proof (y_clients _ _ Hs) as Hyc.
    destruct (lookup_lt_is_Some_2 (TcpServer.io_worker (srv s)) n) as [p Hp]; [lia|].
    destruct (client_step base (srv s) n p (y_good _ _ Hs) Hp) as (srv' & He & Hg & Ha & Hio).
    destruct (replace_perm _ _ _ Hcli) as (rest & Hperm & Hdel & _).
    destruct (act_ok base (TcpServer.EClient n) (accepts s) (delete n (clients s)) [LMark i TERM; LSwitch i] s srv' Hs eq_refl He Hg)
      as (r' & Hr' & Hleads); [| | | | |by intros [= <-]%(eq_trans (eq_sym Hr'))].
    + rewrite Ha. lia.
    + rewrite Hio, !length_delete by (by eexists). lia.
    + intros c. rewrite !elem_of_app, Hdel, Hperm. intros [?|?]; [by left|right; by right].
    + rewrite Ha. apply (y_closes _ _ Hs).
    + intros ts Hts. eapply end_of_turn; [exact Hts|exact Hi|]. rewrite Hdel, Hperm. by rewrite Permutation_middle.
Qed.

Lemma do_register_ok base i f s r : sinv base s → do_register i f s = Some r → leads base s r.
Proof using.
  intros Hs. unfold do_register. destruct (runs i s) as [t|] eqn:Hrun; [|done]. cbn [mbind option_bind].
  apply runs_Some in Hrun as (m & it & Hi). destruct (index_of t (accepts s)) as [n|] eqn:Hacc; [|done].
  cbn [mbind option_bind]. apply index_of_Some in Hacc. destruct (replace_perm _ _ _ Hacc) as (rest & Hperm & _ & Hins).
  destruct (TcpServer.accept_worker (srv s) !! n) as [[|p fd|]|] eqn:Hn; try done. cbv zeta. intros Hr.
  assert (accepts s ++ clients s ≡ₚ t :: (rest ++ clients s)) as Hnames by (by rewrite Hperm).
  eapply pool_step_ok; [exact Hs|exact Hr|apply length_insert|done| | |].
  - intros c. rewrite !elem_of_app, Hins, Hperm. intros [[?|?]%elem_of_cons|?]; [done|left; by right|by right].
  - intros k u Hk Hcl. rewrite list_lookup_insert_ne in Hk; [done|]. intros <-. congruence.
  - intros x Hx. cbn [do_all] in Hx. destruct (Scheduler.do (LShare i f) (pool s)) as [y|] eqn:Hy; [|done].
    destruct (placed_register _ _ _ i m it t f _ y (y_placed _ _ Hs) Hi Hnames Hy) as (p' & -> & Hp & _).
    injection Hx as <-. eexists. split; [reflexivity|]. eapply placed_perm; [|reflexivity|exact Hp]. by rewrite Hins.
Qed.

(** A label of the pool that moves one thread, or stops the pool. *)
Lemma same_ok base l s r : sinv base s →
  pool_step [l] (accepts s) (clients s) (parked_ s) s = Some r →
  (∀ x, Scheduler.do l (pool s) = Some x → ∃ p, x = Ok p ∧ placed (accepts s ++ clients s) (parked_ s) p) → leads base s r.
Proof using.
  intros Hs Hr Hl. eapply pool_step_ok; [exact Hs|exact Hr|done..|]. intros x Hx. cbn [do_all] in Hx.
  destruct (Scheduler.do l (pool s)) as [y|] eqn:Hy; [|done]. destruct (Hl y eq_refl) as (p & -> & Hp).
  injection Hx as <-. by exists p.
Qed.

(** An event of the server that ends no function. *)
Lemma outside_ok base e s r : Socket.hooked_accept (W := W) → sinv base s → TcpServer.event_ok e = true →
  match e with TcpServer.ETask _ | TcpServer.EClient _ => False | _ => True end →
  act e (accepts s) (clients s) [] s = Some r → leads base s r.
Proof using.
  intros Hh Hs He Ho Hr. pose proof (y_good _ _ Hs) as Hg.
  destruct (TcpServer.exec_inv host base e (srv s) Hh He Hg) as (srv' & Hex & Hg').
  assert ((∃ l, TcpServer.accept_worker srv' = TcpServer.accept_worker (srv s) ++ l) ∧
          (length (TcpServer.io_worker (srv s)) ≤ length (TcpServer.io_worker srv'))%nat) as [[l H1] H2].
  { destruct e as [addrs fails| | |n|n]; try done; cbn [TcpServer.exec] in Hex.
    - destruct (TcpServer.bind_all_spec host base addrs (srv s) (proj1 Hg) He fails) as (failed & st' & new & Hb & _ & (Ha & Hio & _) & _).
      rewrite (bind_ok _ _ _ _ _ Hb) in Hex. injection Hex as <-. rewrite Ha, Hio. split; [|done].
      exists []. by rewrite app_nil_r.
    - destruct (TcpServer.Start_spec (srv s)) as [Hb|Hb]; rewrite (bind_ok _ _ _ _ _ Hb) in Hex; injection Hex as <-.
      + split; [|done]. exists []. by rewrite app_nil_r.
      + split; [by eexists|done].
    - injection Hex as <-. split; [by eexists|done]. }
  pose proof (y_accepts _ _ Hs) as Hya. pose proof (y_clients _ _ Hs).
  destruct (act_ok base e (accepts s) (clients s) [] s srv' Hs He Hex Hg') as (r' & Hr' & Hl);
    [rewrite H1, length_app; lia|lia|done| | |].
  - intros k u Hk. rewrite H1, lookup_app_l; [by apply (y_closes _ _ Hs)|]. rewrite <- Hya. by eapply lookup_lt_Some.
  - intros ts Hts. by eexists.
  - rewrite Hr' in Hr. by injection Hr as <-.
Qed.

Lemma yields_Some i s : yields i s = true → ∃ m it t f, pcs (pool s) !! i = Some (m, PRun it t (Some f)).
Proof using. unfold yields. destruct (pcs (pool s) !! i) as [[m [| |? ? []| | |]]|]; try done. eauto. Qed.

Lemma step_ok base l s r : Socket.hooked_accept (W := W) → label_ok l = true → sinv base s → race l s = false →
  step l s = Some r → leads base s r.
Proof using.
  intros Hh Hl Hs Hrace. pose proof (y_placed _ _ Hs) as Hp. destruct l as [addrs fails| | | |i|i|i|i|i f|i|i|n]; cbn [step].
  - by apply outside_ok.
  - by apply outside_ok.
  - by apply outside_ok.
  - intros Hr. eapply same_ok; [exact Hs|exact Hr|]. intros x. by apply placed_stop.
  - intros Hr. eapply same_ok; [exact Hs|exact Hr|]. intros x. by apply placed_take.
  - intros Hr. eapply same_ok; [exact Hs|exact Hr|]. intros x Hx. pose proof (placed_resume _ _ _ _ _ Hp Hx) as Hres.
    cbn [race] in Hrace. by rewrite Hrace in Hres.
  - intros Hr. eapply same_ok; [exact Hs|exact Hr|]. intros x. by apply placed_idle.
  - by apply do_run_ok.
  - by apply do_register_ok.
  - destruct (yields i s) eqn:Hy; [|done]. apply yields_Some in Hy as (m & it & t & f & Hi). intros Hr.
    eapply same_ok; [exact Hs|exact Hr|]. intros x. destruct (placed_yield _ _ _ i m it t f Hp Hi) as (w' & -> & Hw' & _).
    intros [= <-]. by exists w'.
  - intros Hr. eapply same_ok; [exact Hs|exact Hr|]. intros x Hx.
    assert (∃ m it t o, pcs (pool s) !! i = Some (m, PLeave it t o)) as (m & it & t & o & Hi).
    { cbn [Scheduler.do] in Hx. unfold Scheduler.do_Switch in Hx. destruct (pcs (pool s) !! i) as [[m []]|]; try done. eauto. }
    pose proof (p_pc _ _ _ Hp i m _ Hi) as Ho. destruct o as [f|]; [|done].
    destruct (placed_switch _ _ _ i m it t f Hp Hi) as (w' & Hw & Hw' & _). rewrite Hw in Hx. injection Hx as <-. by exists w'.
  - destruct (parked_ s !! n) as [t|] eqn:Hn; [|done]. cbn [mbind option_bind]. intros Hr.
    eapply pool_step_ok; [exact Hs|exact Hr|done..|]. intros x Hx. cbn [do_all] in Hx.
    destruct (replace_perm _ _ _ Hn) as (rest & Hperm & Hdel & _).
    destruct (placed_wake _ _ (delete n (parked_ s)) t _ Hp) as [Hd Hp']; [by rewrite Hdel|].
    rewrite Hd in Hx. injection Hx as <-. by eexists.
Qed.

(** The race is undefined behaviour. *)
Lemma race_step base l s : sinv base s → race l s = true → step l s = Some (Err UndefinedBehaviour).
Proof using.
  intros Hs Hrace. destruct l as [| | | | |i| | | | | |]; try done. cbn [race step] in *.
  destruct (Scheduler.do (LResume i) (pool s)) as [x|] eqn:Hx.
  - pose proof (placed_resume _ _ _ _ _ (y_placed _ _ Hs) Hx) as Hres. rewrite Hrace in Hres. subst x.
    unfold pool_step. cbn [do_all]. by rewrite Hx.
  - exfalso. cbn [Scheduler.do] in Hx. unfold Scheduler.do_Resume in Hx. unfold racing in Hrace.
    by destruct (pcs (pool s) !! i) as [[m []]|].
Qed.

(** A run goes well exactly as long as nobody is resumed too early. *)
Lemma run_ok base ls : Socket.hooked_accept (W := W) → ∀ s, forallb label_ok ls = true → sinv base s →
  if raceless ls s then
    ∃ s', run ls s = Ok s' ∧ sinv base s' ∧ rtc Scheduler.step (pool s) (pool s') ∧
      ∃ es, forallb TcpServer.event_ok es = true ∧ TcpServer.exec_all host es (srv s) = (Ok tt, srv s')
  else run ls s = Err UndefinedBehaviour.
Proof using.
  intros Hh. induction ls as [|l ls IH]; intros s Hls Hs; cbn [raceless run].
  { exists s. split; [done|]. split; [done|]. split; [done|]. by exists []. }
  simpl in Hls. apply andb_true_iff in Hls as [Hl Hls]. destruct (race l s) eqn:Hrace; cbn [negb andb].
  { by rewrite (race_step base l s Hs Hrace). }
  destruct (step l s) as [r|] eqn:Hr; [|by apply IH].
  destruct (step_ok base l s r Hh Hl Hs Hrace Hr) as (s1 & -> & Hs1 & Hp & He).
  pose proof (IH s1 Hls Hs1) as Hrest. destruct (raceless ls s1); [|done].
  destruct Hrest as (s' & Hrun & Hs' & Hp' & es & Hes & Hex). exists s'. split; [done|]. split; [done|].
  split; [by etrans|]. destruct He as [He|(e & Hok & He)]; [exists es; by rewrite <- He|].
  exists (e :: es). simpl. rewrite Hok. split; [done|]. by rewrite (bind_ok _ _ _ _ _ He).
Qed.

Lemma sinv_new threads self uc ids w0 rt (w : W) : Scheduler.started threads self uc ids w0 → valid w →
  sinv (opened w) (Sys_new rt w w0).
Proof using.
  intros Hst Hv. pose proof (Scheduler.started_wf _ _ _ _ _ Hst) as Hwf.
  destruct Hst as (s0 & s1 & Hnew & Hstart & ->).
  assert (tasks_ s1 = []) as Ht.
  { destruct (Scheduler.Start_fields _ _ _ _ Hstart) as (-> & _). unfold Scheduler.Scheduler_new in Hnew.
    case_decide; [|done]. destruct uc; by injection Hnew as <-. }
  constructor; simpl; try done; [by apply TcpServer.server_good_new| |by intros c ?%not_elem_of_nil].
  assert (∀ l : list Z, busy ((λ n, (n, PLoop false)) <$> l) = [] ∧ ridden ((λ n, (n, PLoop false)) <$> l) = []) as Hnone.
  { intros l. induction l as [|n l [IH1 IH2]]; [done|]. split; [exact IH1|exact IH2]. }
  destruct (Hnone (Scheduler.thread_ids_ s1)) as [Hb Hrd]. constructor; simpl; rewrite ?Ht, ?Hb, ?Hrd; [done|done|constructor| |constructor| |].
  - by intros t ?%not_elem_of_nil.
  - by intros t f ?%not_elem_of_nil.
  - intros i n p Hi. apply list_lookup_fmap_Some in Hi as (m & [= -> ->] & _). done.
Qed.


End laws.
End system.

(** ** Witnesses *)

(** Thread 1 begins the accept loop, which waits as fiber 9; an event comes before it has
    left the thread, and thread 2 goes round without it while it still runs. Then thread 2
    takes it, goes on and accepts a client. The server is stopped, and the loop ends; thread
    1 handles the client, and then closes the server's socket. *)
Definition pool_run : list label :=
  [YBind [Socket.loopback] []; YStart; YTake 1; YResume 1; YRun 1; YRegister 1 9; YWake 0; YTake 2; YYield 1; YSwitch 1;
   YIdle 2; YTake 2; YResume 2; YRun 2; YStop; YTake 1; YResume 1; YRun 2; YRun 1; YStopPool; YTake 1; YResume 1; YRun 1].


(** The event comes when the fiber has become READY and is still on its stack: another
    thread takes it at once. *)
Example resumed_too_early :
  run TcpServer.LE [YBind [Socket.loopback] []; YStart; YTake 1; YResume 1; YRun 1; YRegister 1 9; YWake 0; YYield 1;
    YTake 2; YResume 2] (Sys_new 120000 Socket.sim0 Scheduler.sample0) = Err UndefinedBehaviour.
Proof. vm_compute. reflexivity. Qed.

End ServerPool.
