(* ===== verification/Stream.v ===== *)
(** * Streams (util/stream.h, util/stream.cc)

    [Class StreamOps] has the pure virtual calls of [Stream]: a read or write of at most so
    many bytes. [Class StreamLaws] says what an implementation promises: [rest] are the
    bytes still to come, [sent] those that went out. [Module Stream] has the loops that
    read and write a fixed size on top of them. A [ByteArray] is read into and written
    from by calls of their own, so these loops are over any object with such a call.

    Theorems: [ReadFixSize] and [WriteFixSize] end after at most as many calls as there
    are bytes, and transfer exactly the bytes ([ReadFixSize_exact], [WriteFixSize_exact]). *)

From S2P Require Import Prelude.

(** [read] gives the bytes it stored and its result; [write] is given the bytes. *)
Class StreamOps (S : Type) := {
  s_read (length : Z) : M S (Z * list Z);
  s_write (buffer : list Z) : M S Z
}.

Class StreamLaws (S : Type) `{!StreamOps S} := {
  rest : S → list Z;
  sent : S → list Z;
  read_law n s : (0 < n)%Z → ∃ len bs s', s_read n s = (Ok (len, bs), s') ∧
    rest s = bs ++ rest s' ∧ sent s' = sent s ∧ (len ≤ n)%Z ∧ length bs = Z.to_nat len;
  write_law bs s : bs ≠ [] → ∃ len s', s_write bs s = (Ok len, s') ∧
    sent s' = sent s ++ take (Z.to_nat len) bs ∧ rest s' = rest s ∧ (len ≤ Z.of_nat (length bs))%Z
}.

Module Stream.

Local Open Scope Z_scope.

(** ** The loop *)

(** [f offset left] is the call in the loop. Fuel is what is left to transfer, as every
    turn that goes on transfers something. *)
Fixpoint fix_loop {X} (f : Z → Z → M X Z) (fuel : nat) (length offset left : Z) : M X Z :=
  if decide (0 < left) then
    match fuel with
    | O => mthrow OutOfFuel
    | S fuel =>
        len ← f offset left;
        if decide (len ≤ 0) then mret i32(len)
        else fix_loop f fuel length u64(offset + len) i64(left - len)
    end
  else mret i32(length).

(** [left] is an [int64_t], the result an [int]. *)
Definition FixSize {X} (f : Z → Z → M X Z) (length : Z) : M X Z :=
  fix_loop f (Z.to_nat length) length 0 i64(length).

Section stream.
Context {S : Type} `{!StreamOps S}.

(** [read] into [buffer + offset]: beyond the buffer it is undefined. *)
Definition read_at (offset left : Z) : M (S * list Z) Z := λ sb, let '(s, buffer) := sb in
  match s_read left s with
  | (Ok (len, bs), s) =>
      if decide (Z.to_nat offset + List.length bs ≤ List.length buffer)%nat
      then (Ok len, (s, splice (Z.to_nat offset) bs buffer))
      else (Err UndefinedBehaviour, (s, buffer))
  | (Err e, s) => (Err e, (s, buffer))
  end.

Definition write_at (offset left : Z) : M (S * list Z) Z := λ sb, let '(s, buffer) := sb in
  if decide (Z.to_nat offset + Z.to_nat left ≤ length buffer)%nat then
    match s_write (take (Z.to_nat left) (drop (Z.to_nat offset) buffer)) s with
    | (r, s) => (r, (s, buffer))
    end
  else (Err UndefinedBehaviour, (s, buffer)).

Definition ReadFixSize (length : Z) : M (S * list Z) Z := FixSize read_at length.
Definition WriteFixSize (length : Z) : M (S * list Z) Z := FixSize write_at length.

(** The versions for a [ByteArray], which keeps its own position; [X] has both. *)
Definition ReadFixSize_ba {X} (read : Z → M X Z) (length : Z) : M X Z := FixSize (λ _, read) length.
Definition WriteFixSize_ba {X} (write : Z → M X Z) (length : Z) : M X Z := FixSize (λ _, write) length.

(** ** Its end *)

(** Any invariant [I] of what has been transferred is kept, and the loop ends with all of
    it or with the result of the call that failed. *)
Lemma fix_loop_rule {X} (f : Z → Z → M X Z) (length : Z) (I : Z → X → Prop) (F : Z → Z → X → Prop) :
  (∀ offset x, I offset x → 0 ≤ offset < length → ∃ len x', f offset (length - offset) x = (Ok len, x') ∧
     len ≤ length - offset ∧ if decide (len ≤ 0) then F offset len x' else I (offset + len) x') →
  length < 2 ^ 63 → ∀ fuel offset x, 0 ≤ offset ≤ length → length - offset ≤ Z.of_nat fuel → I offset x →
  ∃ r x', fix_loop f fuel length offset (length - offset) x = (Ok r, x') ∧
    ((r = i32(length) ∧ I length x') ∨ ∃ offset' len, r = i32(len) ∧ len ≤ 0 ∧ 0 ≤ offset' < length ∧ F offset' len x').
Proof.
  intros Hf Hlen. induction fuel as [|fuel IH]; intros offset x Ho Hfu Hi.
  { exists i32(length), x. assert (offset = length) as -> by lia. simpl. rewrite decide_False by lia. auto. }
  cbn [fix_loop]. destruct (decide (0 < length - offset)) as [Hl|Hl].
  2: { exists i32(length), x. assert (offset = length) as -> by lia. auto. }
  destruct (Hf offset x Hi ltac:(lia)) as (len & x1 & Hr & Hle & Hc). rewrite (bind_ok _ _ _ _ _ Hr).
  destruct (decide (len ≤ 0)) as [Hn|Hn]; [exists i32(len), x1; split; [done|]; right; exists offset, len; split_and!; [done|done|lia|lia|done]|].
  rewrite (wrap_small 64) by lia. rewrite (swrap_small 64) by lia.
  replace (length - offset - len) with (length - (offset + len)) by lia. apply IH; [lia|lia|done].
Qed.

Lemma FixSize_rule {X} (f : Z → Z → M X Z) (length : Z) (I : Z → X → Prop) (F : Z → Z → X → Prop) x :
  (∀ offset x, I offset x → 0 ≤ offset < length → ∃ len x', f offset (length - offset) x = (Ok len, x') ∧
     len ≤ length - offset ∧ if decide (len ≤ 0) then F offset len x' else I (offset + len) x') →
  0 ≤ length < 2 ^ 63 → I 0 x →
  ∃ r x', FixSize f length x = (Ok r, x') ∧
    ((r = i32(length) ∧ I length x') ∨ ∃ offset' len, r = i32(len) ∧ len ≤ 0 ∧ 0 ≤ offset' < length ∧ F offset' len x').
Proof.
  intros Hf Hl Hi. unfold FixSize. rewrite (swrap_small 64) by lia.
  pose proof (fix_loop_rule f length I F Hf ltac:(lia) (Z.to_nat length) 0 x) as H.
  rewrite Z.sub_0_r in H. apply H; [lia|lia|done].
Qed.

Context `{!StreamLaws S}.

(** C31. Reading a fixed size ends. Either it stores exactly that many bytes, the next
    ones of the stream, at the start of the buffer and returns their number as an [int],
    or it returns the result of the call that failed; then the bytes that came before,
    fewer than asked for, are in the buffer and no longer in the stream. It never writes
    beyond a buffer that is large enough, and sends nothing. *)
Theorem ReadFixSize_exact (n : Z) (s : S) buffer : 0 ≤ n < 2 ^ 63 → n ≤ Z.of_nat (length buffer) →
  ∃ r data s', ReadFixSize n (s, buffer) = (Ok r, (s', splice 0 data buffer)) ∧
    rest s = data ++ rest s' ∧ sent s' = sent s ∧
    ((r = i32(n) ∧ length data = Z.to_nat n) ∨ (∃ len, r = i32(len) ∧ len ≤ 0 ∧ Z.of_nat (length data) < n)).
Proof.
  intros Hn Hb.
  set (I := λ (offset : Z) (x : S * list Z), ∃ data, x.2 = splice 0 data buffer ∧ rest s = data ++ rest x.1 ∧
    sent x.1 = sent s ∧ Z.of_nat (length data) = offset).
  destruct (FixSize_rule read_at n I (λ offset _ x, I offset x) (s, buffer)) as (r & [s' b'] & Hr & Hc).
  - intros offset [s1 b1] (data & Hb1 & Hrest & Hsent & Ho) Hlt. simpl in *.
    destruct (read_law (n - offset) s1 ltac:(lia)) as (len & bs & s2 & Hread & Hr2 & Hs2 & Hle & Hbs).
    unfold read_at. rewrite Hread. subst b1 offset. rewrite Nat2Z.id, splice_length by (simpl; lia).
    rewrite decide_True by lia. do 2 eexists. split; [reflexivity|]. split; [done|].
    assert (I (Z.of_nat (length data) + Z.max 0 len) (s2, splice (length data) bs (splice 0 data buffer))) as Hi.
    { exists (data ++ bs). split; [exact (splice_splice 0 data bs buffer ltac:(simpl; lia))|]. simpl.
      rewrite length_app, Hrest, Hr2, (assoc_L (++)), Hs2. split_and!; [done..|lia]. }
    case_decide; [rewrite Z.max_l, Z.add_0_r in Hi by lia|rewrite Z.max_r in Hi by lia]; done.
  - done.
  - exists []. by rewrite splice_nil.
  - exists r. destruct Hc as [[-> Hi]|(offset & len & -> & Hle & Ho & Hi)];
      destruct Hi as (data & Hb' & Hrest & Hsent & Hl); simpl in *; subst b'; exists data, s'.
    + split_and!; try done. left. split; [done|lia].
    + split_and!; try done. right. exists len. split_and!; [done|done|lia].
Qed.

(** Writing a fixed size ends. Either the stream has sent exactly that many bytes of
    the buffer, from its start, and their number is returned as an [int], or the result
    of the call that failed is, and fewer bytes have been sent. The buffer is only read,
    and never beyond its end. *)
Theorem WriteFixSize_exact (n : Z) (s : S) buffer : 0 ≤ n < 2 ^ 63 → n ≤ Z.of_nat (length buffer) →
  ∃ r k s', WriteFixSize n (s, buffer) = (Ok r, (s', buffer)) ∧
    sent s' = sent s ++ take k buffer ∧ rest s' = rest s ∧
    ((r = i32(n) ∧ k = Z.to_nat n) ∨ (∃ len, r = i32(len) ∧ len ≤ 0 ∧ Z.of_nat k < n)).
Proof.
  intros Hn Hb.
  set (I := λ (offset : Z) (x : S * list Z), x.2 = buffer ∧ sent x.1 = sent s ++ take (Z.to_nat offset) buffer ∧
    rest x.1 = rest s).
  destruct (FixSize_rule write_at n I (λ offset _ x, I offset x) (s, buffer)) as (r & [s' b'] & Hr & Hc).
  - intros offset [s1 b1] (Hb1 & Hsent & Hrest) Hlt. simpl in *. subst b1. unfold write_at.
    rewrite decide_True by lia. set (bs := take _ _).
    assert (length bs = Z.to_nat (n - offset)) as Hbs by (unfold bs; rewrite length_take, length_drop; lia).
    destruct (write_law bs s1) as (len & s2 & Hw & Hs2 & Hr2 & Hle); [intros He; rewrite He in Hbs; simpl in Hbs; lia|].
    rewrite Hw. do 2 eexists. split; [reflexivity|]. split; [lia|].
    assert (I (offset + Z.max 0 len) (s2, buffer)) as Hi.
    { split_and!; [done| |simpl; by rewrite Hr2]. simpl. rewrite Hs2, Hsent, <- (assoc_L (++)). f_equal.
      unfold bs. rewrite take_take. replace (Z.to_nat len `min` Z.to_nat (n - offset))%nat with (Z.to_nat len) by lia.
      rewrite Z2Nat.inj_add by lia. rewrite (Z2Nat.inj_max 0 len). simpl.
      replace (0 `max` Z.to_nat len)%nat with (Z.to_nat len) by lia.
      exact (take_drop_split buffer 0 (Z.to_nat offset) (Z.to_nat len)). }
    case_decide; [rewrite Z.max_l, Z.add_0_r in Hi by lia|rewrite Z.max_r in Hi by lia]; done.
  - done.
  - unfold I. simpl. by rewrite take_0, app_nil_r.
  - exists r. destruct Hc as [[-> Hi]|(offset & len & -> & Hle & Ho & Hi)];
      destruct Hi as (Hb' & Hsent & Hrest); simpl in *; subst b'.
    + exists (Z.to_nat n), s'. split_and!; try done. by left.
    + exists (Z.to_nat offset), s'. split_and!; try done. right. exists len. split_and!; [done|done|lia].
Qed.

(** The versions for a [ByteArray] end, whatever the calls return. *)
Lemma FixSize_ba_ends {X} (f : Z → M X Z) (n : Z) (x : X) : 0 ≤ n < 2 ^ 63 →
  (∀ left x, 0 < left → ∃ len x', f left x = (Ok len, x') ∧ len ≤ left) →
  ∃ r x', FixSize (λ _, f) n x = (Ok r, x') ∧ (r = i32(n) ∨ ∃ len, r = i32(len) ∧ len ≤ 0).
Proof.
  intros Hn Hf. destruct (FixSize_rule (λ _, f) n (λ _ _, True) (λ _ _ _, True) x) as (r & x' & Hr & Hc).
  - intros offset x0 _ Hlt. destruct (Hf (n - offset) x0) as (len & x1 & ? & ?); [lia|].
    exists len, x1. split_and!; [done|lia|by case_decide].
  - done.
  - done.
  - exists r, x'. split; [done|]. destruct Hc as [[-> _]|(? & len & -> & ? & _)]; [by left|right; by exists len].
Qed.

End stream.

(** ** A stream *)

(** A pipe that moves at most [chunk] bytes at a time and ends after its bytes. *)
Record Pipe := mkPipe { chunk : nat; input : list Z; output : list Z }.

#[export] Instance Pipe_ops : StreamOps Pipe := {|
  s_read n := λ p, let k := (chunk p `min` Z.to_nat n)%nat in
    let bs := take k (input p) in
    (Ok (Z.of_nat (length bs), bs), mkPipe (chunk p) (drop k (input p)) (output p));
  s_write bs := λ p, let k := chunk p in
    (Ok (Z.of_nat (length (take k bs))), mkPipe k (input p) (output p ++ take k bs))
|}.

#[export, refine] Instance Pipe_laws : StreamLaws Pipe := {| rest := input; sent := output |}.
Proof.
  - intros n p Hn. do 3 eexists. split; [reflexivity|]. simpl. rewrite take_drop.
    split_and!; [done|done| |by rewrite Nat2Z.id]. rewrite length_take. lia.
  - intros bs p Hn. do 2 eexists. split; [reflexivity|]. simpl. split_and!; [|done|].
    + f_equal. rewrite Nat2Z.id, length_take. destruct (decide (chunk p ≤ length bs)%nat).
      * by rewrite Nat.min_l by done.
      * rewrite Nat.min_r, !take_ge by lia. done.
    + rewrite length_take. lia.
Defined.

Definition bytes5 : list Z := [10; 20; 30; 40; 50].

Lemma ReadFixSize_exact_witness : ∃ r data s',
  ReadFixSize 4 (mkPipe 3 bytes5 [], [0; 0; 0; 0; 0; 7]) = (Ok r, (s', splice 0 data [0; 0; 0; 0; 0; 7])) ∧
  r = 4 ∧ data = [10; 20; 30; 40].
Proof.
  destruct (ReadFixSize_exact 4 (mkPipe 3 bytes5 []) [0; 0; 0; 0; 0; 7] ltac:(lia) ltac:(simpl; lia))
    as (r & data & s' & Hr & Hrest & _ & Hc).
  exists r, data, s'. split; [exact Hr|].
  assert (r = 4 ∧ s' = mkPipe 3 [50] []) as [-> ->] by (vm_compute in Hr; split; congruence).
  split; [reflexivity|]. simpl in Hrest. change bytes5 with ([10; 20; 30; 40] ++ [50]) in Hrest.
  symmetry. exact (proj1 (app_inj_2 _ _ _ _ eq_refl Hrest)).
Defined.

Lemma WriteFixSize_exact_witness : ∃ r k s',
  WriteFixSize 5 (mkPipe 2 [] [], bytes5) = (Ok r, (s', bytes5)) ∧ r = 5 ∧ output s' = take k bytes5.
Proof.
  destruct (WriteFixSize_exact 5 (mkPipe 2 [] []) bytes5 ltac:(lia) ltac:(simpl; lia)) as (r & k & s' & Hr & Hs & _).
  exists r, k, s'. split; [exact Hr|]. split; [vm_compute in Hr; congruence|exact Hs].
Defined.

(** When the stream ends early the number of bytes that did arrive is not returned. *)
Example short_read :
  ReadFixSize 6 (mkPipe 3 bytes5 [], replicate 6 0) = (Ok 0, (mkPipe 3 [] [], bytes5 ++ [0])).
Proof. vm_compute. done. Qed.

(** A length of 4 GB is returned as 0, which means closed, and one of 2 GB as an error. *)
Example long_transfer : i32(2 ^ 32) = 0 ∧ i32(2 ^ 31) = - 2 ^ 31.
Proof. vm_compute. done. Qed.

End Stream.
