(* ===== verification/Env.v ===== *)
(** * The program's environment (env/env.h, env/env.cc)

    [Module Env]: the options of the command line, the help texts, the path of the
    executable and the paths relative to it. [readlink] and the process's environment are
    arguments. The read-write lock is held over every modelled operation.

    Theorems: [Init] accepts exactly the command lines of the documented form and stores
    exactly their options ([init_options]); the help texts have one line for each option
    ([helps_exact]). *)

From Stdlib Require Import Ascii String.
From stdpp Require Import gmap.
From S2P Require Import Prelude Endian StringUtil Address.
Import StringUtil.

Module Env.

Record Env := mkEnv {
  args_ : gmap str str;
  helps_ : list (str * str);
  program_ : str;
  exe_ : str;
  cwd_ : str
}.

Definition Env_new : Env := mkEnv ∅ [] [] [] [].

Definition set_args_ (m : gmap str str) (e : Env) : Env := mkEnv m (helps_ e) (program_ e) (exe_ e) (cwd_ e).
Definition set_helps_ (l : list (str * str)) (e : Env) : Env := mkEnv (args_ e) l (program_ e) (exe_ e) (cwd_ e).
Definition set_program_ (p : str) (e : Env) : Env := mkEnv (args_ e) (helps_ e) p (exe_ e) (cwd_ e).
Definition set_exe (exe cwd : str) (e : Env) : Env := mkEnv (args_ e) (helps_ e) (program_ e) exe cwd.

(** ** The table of options *)

Definition Add (key val : str) (e : Env) : Env := set_args_ (<[key := val]> (args_ e)) e.
Definition Has (key : str) (e : Env) : bool := bool_decide (is_Some (args_ e !! key)).
Definition Del (key : str) (e : Env) : Env := set_args_ (delete key (args_ e)) e.
Definition Get (key default_value : str) (e : Env) : str := default default_value (args_ e !! key).

(** ** Help texts *)

Definition RemoveHelp (key : str) (e : Env) : Env :=
  set_helps_ (filter (λ h, h.1 ≠ key) (helps_ e)) e.

Definition AddHelp (key desc : str) (e : Env) : Env :=
  let e := RemoveHelp key e in set_helps_ (helps_ e ++ [(key, desc)]) e.

Definition newline : ascii := "010"%char.

(** What is printed; [setw(5)] is for the dash. *)
Definition PrintHelp (e : Env) : str :=
  S_ "Usage: " ++ program_ e ++ S_ " [options]" ++ [newline] ++
  concat ((λ h, S_ "    -" ++ h.1 ++ S_ " : " ++ h.2 ++ [newline]) <$> helps_ e).

(** ** Init *)

(** [path], after [readlink]: it is filled with at most 1024 bytes and not terminated
    when they are all used. [None] is a failure, which leaves the zeros. *)
Definition read_exe (link : option str) : res str :=
  match link with
  | None => Ok []
  | Some path => if decide (length path < 1024)%nat then Ok (Address.c_str path) else Err UndefinedBehaviour
  end.

Definition dir_of (exe : str) : str :=
  match rfind exe "/"%char with Some pos => take pos exe | None => exe end ++ S_ "/".

(** The loop over [argv[1]], ...: whether all were taken, the key that is waiting for its
    value, and the table. *)
Fixpoint parse (args : list str) (now_key : option str) (e : Env) : bool * option str * Env :=
  match args with
  | [] => (true, now_key, e)
  | arg :: args =>
      let waiting (v : str) (e : Env) := match now_key with Some k => Add k v e | None => e end in
      match arg with
      | "-"%char :: key =>
          if decide (0 < length key)%nat then parse args (Some key) (waiting [] e)
          else (false, now_key, e)
      | _ =>
          match now_key with
          | Some k => parse args None (Add k arg e)
          | None => (false, now_key, e)
          end
      end
  end.

(** [argv] are C strings; without [argv[0]] a null pointer is read. *)
Definition Init (link : option str) (argv : list str) : M Env bool :=
  exe ← mlift (read_exe link);
  mmodify (set_exe exe (dir_of exe));;
  match argv with
  | [] => mthrow UndefinedBehaviour
  | program :: args =>
      mmodify (set_program_ program);;
      e ← mget;
      let '(ok, now_key, e) := parse args None e in
      mput e;;
      if (ok : bool) then
        mmodify (λ e, match now_key with Some k => Add k [] e | None => e end);;
        mret true
      else mret false
  end.

(** ** Paths and the process's environment *)

Definition GetExe (e : Env) : str := exe_ e.
Definition GetCwd (e : Env) : str := cwd_ e.

(** [setenv] refuses an empty name and one with an equals sign. *)
Definition SetEnv (key val : str) (environ : gmap str str) : bool * gmap str str :=
  let k := Address.c_str key in
  if decide (k = [] ∨ "="%char ∈ k) then (false, environ)
  else (true, <[k := Address.c_str val]> environ).

Definition GetEnv (key default_value : str) (environ : gmap str str) : str :=
  default default_value (environ !! Address.c_str key).

Definition GetAbsolutePath (path : str) (e : Env) : str :=
  match path with
  | [] => S_ "/"
  | "/"%char :: _ => path
  | _ => cwd_ e ++ path
  end.

(** [work_path] is the value of the variable [server.work_path] if it was defined when
    the function was first called; it is looked up once. *)
Definition GetAbsoluteWorkPath (work_path : option str) (path : str) : res str :=
  match path with
  | [] => Ok (S_ "/")
  | "/"%char :: _ => Ok path
  | _ => match work_path with
         | Some w => Ok (w ++ S_ "/" ++ path)
         | None => Err UndefinedBehaviour
         end
  end.

Definition GetConfigPath (e : Env) : str := GetAbsolutePath (Get (S_ "c") (S_ "conf") e) e.

(** ** The documented form of a command line *)

(** An option is a dash and a key, and a value that does not begin with a dash, or none. *)
Record option_ := mkOption { key : str; val : option str }.

Definition no_dash (v : str) : bool := match v with "-"%char :: _ => false | _ => true end.

Definition option_wf (o : option_) : bool :=
  bool_decide (key o ≠ []) && match val o with Some v => no_dash v | None => true end.

Definition render (o : option_) : list str :=
  ("-"%char :: key o) :: match val o with Some v => [v] | None => [] end.

Definition store (m : gmap str str) (o : option_) : gmap str str := <[key o := default [] (val o)]> m.

(** The tables options of a given key and a key that waits leave. *)
Definition flush (now_key : option str) (e : Env) : Env :=
  match now_key with Some k => Add k [] e | None => e end.

Lemma parse_dash k args now e : k ≠ [] →
  parse (("-"%char :: k) :: args) now e = parse args (Some k) (flush now e).
Proof. intros Hk. cbn. destruct k; [done|]. by destruct now. Qed.

Lemma parse_value v args k e : no_dash v = true →
  parse (v :: args) (Some k) e = parse args None (Add k v e).
Proof.
  intros Hv. destruct v as [|c v]; [done|]. cbn. destruct c as [[] [] [] [] [] [] [] []]; try done.
Qed.

Lemma parse_stray v args e : no_dash v = true → parse (v :: args) None e = (false, None, e).
Proof.
  intros Hv. destruct v as [|c v]; [done|]. cbn. destruct c as [[] [] [] [] [] [] [] []]; done.
Qed.

Lemma parse_single_dash args now e : parse (["-"%char] :: args) now e = (false, now, e).
Proof. done. Qed.

Lemma no_dash_other (c : ascii) (a : str) : c ≠ "-"%char → no_dash (c :: a) = true.
Proof. intros Hc. destruct c as [[] [] [] [] [] [] [] []]; try reflexivity; by destruct Hc. Qed.

(** The arguments, by what the loop does with them. *)
Lemma arg_cases (a : str) : no_dash a = true ∨ a = ["-"%char] ∨ ∃ k, k ≠ [] ∧ a = "-"%char :: k.
Proof.
  destruct a as [|c a]; [by left|]. destruct (decide (c = "-"%char)) as [->|Hc].
  - right. destruct a as [|x a]; [by left|right; by exists (x :: a)].
  - left. destruct c as [[] [] [] [] [] [] [] []]; done.
Qed.

Lemma add_args k v e : args_ (Add k v e) = <[k := v]> (args_ e).
Proof. done. Qed.

Lemma flush_fields now e : helps_ (flush now e) = helps_ e ∧ program_ (flush now e) = program_ e ∧
  exe_ (flush now e) = exe_ e ∧ cwd_ (flush now e) = cwd_ e.
Proof. by destruct now. Qed.

Lemma parse_fields args : ∀ now e ok now' e', parse args now e = (ok, now', e') →
  helps_ e' = helps_ e ∧ program_ e' = program_ e ∧ exe_ e' = exe_ e ∧ cwd_ e' = cwd_ e.
Proof.
  induction args as [|a args IH]; intros now e ok now' e' Hp; [by simplify_eq/=|].
  destruct (arg_cases a) as [Ha|[->|(k & Hk & ->)]].
  - destruct now as [k|]; [rewrite parse_value in Hp by done; by apply IH in Hp|].
    rewrite parse_stray in Hp by done. by simplify_eq.
  - rewrite parse_single_dash in Hp. by simplify_eq.
  - rewrite parse_dash in Hp by done. apply IH in Hp. by destruct now.
Qed.

(** A rendered command line is taken, and its options stored. *)
Lemma parse_render opts : ∀ now e, forallb option_wf opts = true →
  ∃ now' e', parse (opts ≫= render) now e = (true, now', e') ∧
    args_ (flush now' e') = foldl store (args_ (flush now e)) opts.
Proof.
  induction opts as [|[k v] opts IH]; intros now e Hw; [by exists now, e|].
  cbn [forallb] in Hw. apply andb_true_iff in Hw as [Ho Hw]. unfold option_wf in Ho. simpl in Ho.
  apply andb_true_iff in Ho as [Hk%bool_decide_eq_true Hv].
  change ((mkOption k v :: opts) ≫= render) with (render (mkOption k v) ++ (opts ≫= render)).
  cbn [render key val app]. rewrite parse_dash by done. destruct v as [v|].
  - cbn [app]. rewrite parse_value by done.
    destruct (IH None (Add k v (flush now e)) Hw) as (now' & e' & Hp & Ha). by exists now', e'.
  - cbn [app]. destruct (IH (Some k) (flush now e) Hw) as (now' & e' & Hp & Ha). by exists now', e'.
Qed.

(** And a command line that is taken is a rendered one, after the value of a key that
    waits. *)
Lemma parse_inv args : ∀ now e now' e', parse args now e = (true, now', e') → ∃ first opts,
  args = match first with Some v => [v] | None => [] end ++ (opts ≫= render) ∧
  forallb option_wf opts = true ∧ (is_Some first → is_Some now) ∧ from_option no_dash true first = true.
Proof.
  induction args as [|a args IH]; intros now e now' e' Hp.
  { exists None, []. split_and!; try done; by intros [? ?]. }
  destruct (arg_cases a) as [Ha|[->|(k & Hk & ->)]].
  - destruct now as [k|]; [|by rewrite parse_stray in Hp].
    rewrite parse_value in Hp by done. destruct (IH _ _ _ _ Hp) as (first & opts & -> & Hw & Hf & _).
    destruct first as [v|]; [by destruct (Hf ltac:(by eexists))|]. by exists (Some a), opts.
  - by rewrite parse_single_dash in Hp.
  - rewrite parse_dash in Hp by done. destruct (IH _ _ _ _ Hp) as (first & opts & -> & Hw & _ & Hv).
    exists None, (mkOption k first :: opts).
    split; [by destruct first|]. split; [|split; [by intros [? ?]|done]].
    cbn [forallb]. rewrite Hw, andb_true_r. unfold option_wf. simpl. rewrite bool_decide_eq_true_2 by done.
    by destruct first.
Qed.

(** C17. [Init] accepts exactly the command lines of the documented form, options of a dash
    and a key with or without a value, and then the table has exactly the options stored
    in their order, an option without a value as the empty string and a later one over an
    earlier one of the same key. It records the program, the executable and its
    directory, which ends with a slash, in every case. *)
Theorem init_options link program args e : from_option (λ p, length p < 1024)%nat True link →
  ∃ b e' exe, Init link (program :: args) e = (Ok b, e') ∧ read_exe link = Ok exe ∧
    program_ e' = program ∧ exe_ e' = exe ∧ cwd_ e' = dir_of exe ∧ helps_ e' = helps_ e ∧
    (b = true ↔ ∃ opts, forallb option_wf opts = true ∧ args = opts ≫= render) ∧
    ∀ opts, forallb option_wf opts = true → args = opts ≫= render → args_ e' = foldl store (args_ e) opts.
Proof.
  intros Hlink. assert (∃ exe, read_exe link = Ok exe) as [exe Hexe].
  { unfold read_exe. destruct link as [p|]; simpl in Hlink; [rewrite decide_True by done|]; by eexists. }
  set (e1 := set_program_ program (set_exe exe (dir_of exe) e)).
  destruct (parse args None e1) as [[ok now] e2] eqn:Hp. set (e3 := if ok then flush now e2 else e2).
  assert (Init link (program :: args) e = (Ok ok, e3)) as Hi.
  { unfold Init. rewrite Hexe. mstep. fold e1. rewrite Hp. unfold e3. by destruct ok, now. }
  exists ok, e3, exe. split; [done|]. split; [done|].
  destruct (parse_fields _ _ _ _ _ _ Hp) as (H1 & H2 & H3 & H4).
  destruct (flush_fields now e2) as (H5 & H6 & H7 & H8).
  assert (program_ e3 = program_ e1 ∧ exe_ e3 = exe_ e1 ∧ cwd_ e3 = cwd_ e1 ∧ helps_ e3 = helps_ e1) as (-> & -> & -> & ->).
  { unfold e3. destruct ok; split_and!; congruence. }
  do 4 (split; [done|]). split; [split|].
  - intros ->. destruct (parse_inv _ _ _ _ _ Hp) as (first & opts & Ha & Hw & Hf & _). exists opts.
    destruct first; [by destruct (Hf ltac:(by eexists))|done].
  - intros (opts & Hw & ->). destruct (parse_render opts None e1 Hw) as (? & ? & Hr & _). congruence.
  - intros opts Hw ->. destruct (parse_render opts None e1 Hw) as (? & ? & Hr & Ha).
    rewrite Hp in Hr. injection Hr as Hok Hnow He2. subst. exact Ha.
Qed.

(** ** Help texts *)

Lemma filter_keys_NoDup k (l : list (str * str)) : NoDup (l.*1) → NoDup ((filter (λ h, h.1 ≠ k) l).*1).
Proof.
  induction l as [|[k' d] l IH]; [done|]. intros [Hk Hn]%NoDup_cons. rewrite filter_cons.
  case_decide; [|by apply IH]. cbn [fmap list_fmap fst]. constructor; [|by apply IH].
  intros (h & He & [_ Hh]%list_elem_of_filter)%list_elem_of_fmap. apply Hk, list_elem_of_fmap. by exists h.
Qed.

Lemma AddHelp_nodup k d e : NoDup ((helps_ e).*1) → NoDup ((helps_ (AddHelp k d e)).*1).
Proof.
  intros Hn. simpl. rewrite fmap_app. apply NoDup_app. split_and!.
  - by apply filter_keys_NoDup.
  - intros x (h & -> & [Hh _]%list_elem_of_filter)%list_elem_of_fmap. simpl. by intros ?%list_elem_of_singleton.
  - apply NoDup_singleton.
Qed.

Inductive help_call := HAdd (k d : str) | HRemove (k : str).

Definition help_exec (e : Env) (c : help_call) : Env :=
  match c with HAdd k d => AddHelp k d e | HRemove k => RemoveHelp k e end.

Definition help_ref (m : gmap str str) (c : help_call) : gmap str str :=
  match c with HAdd k d => <[k := d]> m | HRemove k => delete k m end.

Lemma removed_map k (l : list (str * str)) :
  list_to_map (filter (λ h, h.1 ≠ k) l) = (delete k (list_to_map l) : gmap str str).
Proof.
  induction l as [|[k' d] l IH]; simpl; [by rewrite delete_empty|]. rewrite filter_cons. simpl.
  case_decide as Hk; simpl.
  - by rewrite IH, delete_insert_ne.
  - subst k'. by rewrite IH, delete_insert_eq.
Qed.

(** The help texts have one entry for each option, the last description given since
    it was removed, if it was. *)
Theorem helps_exact cs e : helps_ e = [] →
  NoDup ((helps_ (foldl help_exec e cs)).*1) ∧
  list_to_map (helps_ (foldl help_exec e cs)) = foldl help_ref (∅ : gmap str str) cs.
Proof.
  intros He. assert (NoDup ((helps_ e).*1) ∧ list_to_map (helps_ e) = (∅ : gmap str str)) as [Hn Hm].
  { rewrite He. split; [constructor|done]. }
  clear He. revert Hn Hm. generalize (∅ : gmap str str) as m. revert e.
  induction cs as [|c cs IH]; intros e m Hn Hm; [done|]. cbn [foldl]. apply IH.
  - destruct c as [k d|k]; [by apply AddHelp_nodup|]. by apply filter_keys_NoDup.
  - destruct c as [k d|k]; simpl; [|by rewrite removed_map, Hm].
    rewrite list_to_map_app, removed_map, Hm. simpl. rewrite map_union_comm.
    + rewrite <- insert_union_l, (left_id_L ∅ (∪)). apply insert_delete_eq.
    + apply map_disjoint_insert_r. split; [apply lookup_delete_eq|apply map_disjoint_empty_r].
Qed.

(** ** Paths *)

Lemma dir_of_absolute exe : head exe = Some "/"%char → head (dir_of exe) = Some "/"%char.
Proof.
  intros He. destruct exe as [|c exe]; [done|]. simpl in He. injection He as ->. unfold dir_of. cbn.
  by destruct (rfind exe "/"%char).
Qed.

(** After [Init] with the path of an executable, a path is made absolute. *)
Lemma GetAbsolutePath_absolute exe e p : head exe = Some "/"%char → cwd_ e = dir_of exe →
  head (GetAbsolutePath p e) = Some "/"%char.
Proof.
  intros He Hc. unfold GetAbsolutePath. destruct p as [|c p]; [done|].
  pose proof (dir_of_absolute exe He) as Hd. rewrite <- Hc in Hd.
  destruct (decide (c = "/"%char)) as [->|Hn]; [done|].
  destruct (cwd_ e) as [|x l]; [done|]. simpl in Hd. injection Hd as ->.
  by destruct c as [[] [] [] [] [] [] [] []].
Qed.

(** ** Witnesses *)

Definition sample_args : list str := [S_ "-config"; S_ "/etc"; S_ "-d"; S_ "-config"; S_ "/tmp"; S_ "-v"].

Lemma init_options_witness : ∃ e', Init (Some (S_ "/opt/bin/server")) (S_ "server" :: sample_args) Env_new = (Ok true, e') ∧
  Get (S_ "config") [] e' = S_ "/tmp" ∧ Has (S_ "d") e' = true ∧ GetConfigPath e' = S_ "/opt/bin/conf".
Proof.
  destruct (init_options (Some (S_ "/opt/bin/server")) (S_ "server") sample_args Env_new) as
    (b & e' & exe & Hr & Hx & _ & _ & Hc & _ & Hb & Ha); [apply Nat.ltb_lt; vm_compute; reflexivity|].
  set (opts := [mkOption (S_ "config") (Some (S_ "/etc")); mkOption (S_ "d") None;
    mkOption (S_ "config") (Some (S_ "/tmp")); mkOption (S_ "v") None]).
  assert (b = true) as -> by (apply Hb; exists opts; split; vm_compute; reflexivity).
  exists e'. split; [exact Hr|]. assert (args_ e' = foldl store ∅ opts) as He.
  { apply (Ha opts); vm_compute; reflexivity. }
  unfold GetConfigPath, GetAbsolutePath, Get, Has. rewrite He, Hc.
  vm_compute in Hx. injection Hx as <-. split; [|split]; vm_compute; reflexivity.
Defined.

Lemma helps_exact_witness :
  NoDup ((helps_ (foldl help_exec Env_new [HAdd (S_ "s") (S_ "start"); HAdd (S_ "s") (S_ "run"); HRemove (S_ "d")])).*1).
Proof.
  exact (proj1 (helps_exact [HAdd (S_ "s") (S_ "start"); HAdd (S_ "s") (S_ "run"); HRemove (S_ "d")] Env_new eq_refl)).
Defined.

(** A single dash is an error; what came before it has been stored; a dash value is not
    possible, and the key of [--help] is [-help]. *)
Example init_edges :
  (Init None (S_ "p" :: [S_ "-a"; S_ "1"; S_ "-"]) Env_new).1 = Ok false ∧
  Get (S_ "a") [] (Init None (S_ "p" :: [S_ "-a"; S_ "1"; S_ "-"]) Env_new).2 = S_ "1" ∧
  (Init None (S_ "p" :: [S_ "x"]) Env_new).1 = Ok false ∧
  Has (S_ "-help") (Init None (S_ "p" :: [S_ "--help"]) Env_new).2 = true ∧
  Get (S_ "n") [] (Init None (S_ "p" :: [S_ "-n"; S_ "-1"]) Env_new).2 = [] ∧
  (Init None [] Env_new).1 = Err UndefinedBehaviour.
Proof. vm_compute. done. Qed.

(** The help of [PrintHelp] and the path of an executable that is too long. *)
Example help_text :
  PrintHelp (AddHelp (S_ "s") (S_ "start") (set_program_ (S_ "srv") Env_new)) =
    S_ "Usage: srv [options]" ++ [newline] ++ S_ "    -s : start" ++ [newline] ∧
  read_exe (Some (replicate 1024 "/"%char)) = Err UndefinedBehaviour.
Proof. vm_compute. done. Qed.

End Env.
