(* ===== verification/Thread.v ===== *)
(** * Threads (env/thread.h, env/thread.cc)

    [Module Thread]: the constructor of a thread and its function [Run] as two actors that
    share the object, with their steps interleaved in any order. The constructor creates
    the thread and waits for its semaphore; [Run] takes what it needs out of the object,
    posts the semaphore and calls the callback. Afterwards the creator joins and destroys
    the object, or does not.

    Theorems: no step uses a destroyed object, and once the constructor returned the id is
    set and the callback taken ([thread_handshake]); both actors end, whatever the
    schedule ([thread_ends]). [SetName_after_destroy] and [interrupted_constructor] show
    where a destroyed object is used. *)

From Stdlib Require Import Ascii.
From S2P Require Import Prelude StringUtil Mutex.
Import StringUtil.

Module Thread.

Local Open Scope Z_scope.

(** What the callback does with its thread. *)
Inductive cb_op := CWork | CSetName (name : str).

(** What the creator does after the constructor. *)
Inductive creator_op := Join | Destroy.

(** The object; [semaphore_] is the value of its semaphore, [thread_] is 0 without a
    thread, [cb_] is [None] when empty. *)
Record Thread := mkThread {
  id_ : Z;
  thread_ : Z;
  cb_ : option (list cb_op);
  name_ : str;
  semaphore_ : Z
}.

Definition set_id_ (v : Z) (t : Thread) : Thread := mkThread v (thread_ t) (cb_ t) (name_ t) (semaphore_ t).
Definition set_thread_ (v : Z) (t : Thread) : Thread := mkThread (id_ t) v (cb_ t) (name_ t) (semaphore_ t).
Definition set_cb_ (v : option (list cb_op)) (t : Thread) : Thread :=
  mkThread (id_ t) (thread_ t) v (name_ t) (semaphore_ t).
Definition set_name_ (v : str) (t : Thread) : Thread := mkThread (id_ t) (thread_ t) (cb_ t) v (semaphore_ t).
Definition set_semaphore_ (v : Z) (t : Thread) : Thread := mkThread (id_ t) (thread_ t) (cb_ t) (name_ t) v.

(** Where [Run] is: not created, before each of its statements, in the callback with what
    is left of it, returned. *)
Inductive run_pc :=
  | RNone
  | RThis
  | RId
  | RSetNp
  | RSwap
  | RNotify (cb : option (list cb_op))
  | RCall (cb : list cb_op)
  | RDone.

(** Where the creator is: at [pthread_create], at [semaphore_.wait], after the
    constructor with what is left to do, left by an exception. *)
Inductive creator_pc := KCreate | KWait | KAfter (ops : list creator_op) | KThrown.

(** [obj] is [None] once it is destroyed; [t_thread] is whether the thread-local pointer
    to it is set. *)
Record State := mkState {
  obj : option Thread;
  run : run_pc;
  t_thread : bool;
  t_thread_name : str;
  creator : creator_pc
}.

Definition unknow : str := S_ "UNKNOW".

(** The object as the initialisers of the constructor make it. *)
Definition Thread_new (cb : list cb_op) (name : str) : Thread :=
  mkThread (-1) 0 (Some cb) (if decide (name = []) then unknow else name) 0.

Definition State_new (cb : list cb_op) (name : str) : State :=
  mkState (Some (Thread_new cb name)) RNone false unknow KCreate.

(** [SetName] in the new thread. *)
Definition SetName (name : str) (st : State) : res State :=
  match name with
  | [] => Ok st
  | _ =>
      if t_thread st then
        match obj st with
        | Some t => Ok (mkState (Some (set_name_ name t)) (run st) (t_thread st) name (creator st))
        | None => Err UndefinedBehaviour
        end
      else Ok (mkState (obj st) (run st) (t_thread st) name (creator st))
  end.

Definition set_run (pc : run_pc) (st : State) : State := mkState (obj st) pc (t_thread st) (t_thread_name st) (creator st).

(** A statement of [Run] that uses the object. *)
Definition with_obj (st : State) (f : Thread → res (Thread * run_pc)) : res State :=
  match obj st with
  | Some t => '(t, pc) ← f t; mret (mkState (Some t) pc (t_thread st) (t_thread_name st) (creator st))
  | None => Err UndefinedBehaviour
  end.

(** The next step of [Run]; [tid] is what [GetThreadId] returns. [None]: there is none. *)
Definition run_step (tid : Z) (st : State) : option (res State) :=
  match run st with
  | RNone | RDone => None
  | RThis => Some (match obj st with
      | Some t => Ok (mkState (obj st) RId true (name_ t) (creator st))
      | None => Err UndefinedBehaviour
      end)
  | RId => Some (with_obj st (λ t, Ok (set_id_ tid t, RSetNp)))
  | RSetNp => Some (with_obj st (λ t, Ok (t, RSwap)))
  | RSwap => Some (with_obj st (λ t, Ok (set_cb_ None t, RNotify (cb_ t))))
  | RNotify cb => Some (with_obj st (λ t,
      v ← Mutex.Semaphore_notify (semaphore_ t);
      match cb with Some cb => Ok (set_semaphore_ v t, RCall cb) | None => Err BadFunctionCall end))
  | RCall [] => Some (Ok (set_run RDone st))
  | RCall (CWork :: cb) => Some (Ok (set_run (RCall cb) st))
  | RCall (CSetName n :: cb) => Some (st ← SetName n st; mret (set_run (RCall cb) st))
  end.

Definition set_creator (pc : creator_pc) (o : option Thread) (st : State) : State :=
  mkState o (run st) (t_thread st) (t_thread_name st) pc.

(** [~Thread]: the thread is detached, and the object is gone. *)
Definition destruct_thread (ops : list creator_op) (st : State) : State := set_creator (KAfter ops) None st.

(** The next step of the creator; [handle] is what [pthread_create] gives, [after] what it
    does when the constructor has returned. [None]: it waits or has ended. When a signal
    handler has interrupted its wait, the constructor throws, and the memory of the object
    is given back. *)
Definition creator_step (interrupted : bool) (handle : Z) (after : list creator_op) (st : State) : option (res State) :=
  match creator st, obj st with
  | KCreate, Some t =>
      Some (Ok (mkState (Some (set_thread_ handle t)) RThis (t_thread st) (t_thread_name st) KWait))
  | KWait, Some t =>
      match Mutex.Semaphore_wait interrupted (semaphore_ t) with
      | None => None
      | Some (Ok v) => Some (Ok (set_creator (KAfter after) (Some (set_semaphore_ v t)) st))
      | Some (Err _) => Some (Ok (set_creator KThrown None st))
      end
  | KAfter (Join :: ops), Some t =>
      if decide (thread_ t = 0) then Some (Ok (set_creator (KAfter ops) (obj st) st))
      else match run st with
           | RDone => Some (Ok (set_creator (KAfter ops) (Some (set_thread_ 0 t)) st))
           | _ => None
           end
  | KAfter (Destroy :: ops), Some t => Some (Ok (destruct_thread ops st))
  | KAfter (_ :: _), None | KCreate, None | KWait, None => Some (Err UndefinedBehaviour)
  | KAfter [], _ | KThrown, _ => None
  end.

(** [pthread_create] fails: the constructor throws before there is a thread. *)
Definition create_fails (st : State) : State :=
  match creator st, obj st with
  | KCreate, Some _ => set_creator KThrown None st
  | _, _ => st
  end.

(** [pthread_join] fails in [Join]: it throws, and the object keeps its thread. *)
Definition join_fails (st : State) : State :=
  match creator st, obj st with
  | KAfter (Join :: _), Some t => if decide (thread_ t = 0) then st else set_creator KThrown (obj st) st
  | _, _ => st
  end.

Section thread.
Context (tid handle : Z) (cb : list cb_op) (name : str) (after : list creator_op).

(** An actor that has no step is skipped. No signal interrupts the wait. *)
Definition step (child : bool) (st : State) : res State :=
  default (Ok st) (if child then run_step tid st else creator_step false handle after st).

Fixpoint steps (schedule : list bool) (st : State) : res State :=
  match schedule with
  | [] => Ok st
  | b :: schedule => st ← step b st; steps schedule st
  end.

(** ** The invariant *)

Definition no_SetName (cb : list cb_op) : bool := forallb (λ o, match o with CWork => true | _ => false end) cb.

(** What the creator may do: nothing with a destroyed object, and it destroys the object
    before the end of a thread that names itself only after joining it. *)
Definition safe_after (ops : list creator_op) : bool :=
  match ops with
  | [] | [Join] | [Join; Destroy] => true
  | [Destroy] => no_SetName cb
  | _ => false
  end.

Definition notified (pc : run_pc) : bool := match pc with RCall _ | RDone => true | _ => false end.

(** What is left of the callback names the thread only if the callback does. *)
Definition rest_ok (pc : run_pc) : Prop :=
  match pc with RCall c => no_SetName cb = true → no_SetName c = true | _ => True end.

(** How far [Run] is with the object. *)
Definition taken (pc : run_pc) (t : Thread) : Prop :=
  match pc with
  | RNone => False
  | RThis | RId => cb_ t = Some cb
  | RSetNp | RSwap => cb_ t = Some cb ∧ id_ t = tid
  | RNotify c => c = Some cb ∧ cb_ t = None ∧ id_ t = tid
  | RCall _ | RDone => cb_ t = None ∧ id_ t = tid
  end.

Definition inv (st : State) : Prop :=
  rest_ok (run st) ∧
  match creator st, obj st with
  | KCreate, Some t => run st = RNone ∧ semaphore_ t = 0 ∧ cb_ t = Some cb
  | KWait, Some t => taken (run st) t ∧ thread_ t = handle ∧ semaphore_ t = (if notified (run st) then 1 else 0)
  | KAfter ops, Some t => notified (run st) = true ∧ taken (run st) t ∧ semaphore_ t = 0 ∧
      (thread_ t = handle ∧ ops = after ∨ thread_ t = 0 ∧ run st = RDone ∧ (ops = [] ∨ ops = [Destroy]))
  | KAfter ops, None => ops = [] ∧ notified (run st) = true ∧ (no_SetName cb = true ∨ run st = RDone)
  | _, _ => False
  end.

Hypothesis (handle_nonzero : handle ≠ 0) (after_safe : safe_after after = true).

Lemma thread_inv_new : inv (State_new cb name).
Proof. done. Qed.

(** [SetName] in the callback finds the object if it has one to name. *)
Lemma SetName_inv st n c : inv st → run st = RCall (CSetName n :: c) → ∃ st', SetName n st = Ok st' ∧
  inv (set_run (RCall c) st') ∧ creator st' = creator st.
Proof.
  intros [Hrest Hi] Hrun. rewrite Hrun in Hrest, Hi. cbn [rest_ok] in Hrest.
  assert (no_SetName cb = true → False) as Hn by (intros H%Hrest; done).
  assert (rest_ok (RCall c)) as Hrest' by (intros H; by destruct (Hn H)).
  destruct st as [o pc tt nm k]. simpl in *. subst pc.
  assert (∀ t, o = Some t → inv (mkState (Some (set_name_ n t)) (RCall c) tt n k)) as Hname.
  { intros t ->. split; [done|]. simpl. destruct k as [| |ops|]; simpl in *; try done; intuition discriminate. }
  assert (∀ nm', inv (mkState o (RCall c) tt nm' k)) as Hsame.
  { intros nm'. split; [done|]. simpl. destruct k as [| |ops|], o as [t|]; simpl in *; try done;
      intuition discriminate. }
  unfold SetName. destruct n as [|x n]; [eexists; split; [reflexivity|]; split; [apply Hsame|done]|].
  simpl. destruct tt; [|eexists; split; [reflexivity|]; split; [apply Hsame|done]].
  destruct o as [t|]; [eexists; split; [reflexivity|]; split; [by apply (Hname t)|done]|].
  exfalso. destruct k as [| |ops|]; simpl in Hi; try done. destruct Hi as (_ & _ & [?|?]); [auto|done].
Qed.

(** A statement of [Run] never finds the object destroyed. *)
Lemma run_inv st r : inv st → run_step tid st = Some r → ∃ st', r = Ok st' ∧ inv st' ∧ creator st' = creator st.
Proof.
  intros Hinv Hr. pose proof Hinv as [Hrest Hi]. destruct st as [o pc tt nm k]. unfold run_step, with_obj in Hr.
  cbn [run] in Hr. destruct pc as [| | | | |c|c|]; try done.
  1-4: destruct k as [| |ops|], o as [t|]; simpl in Hi; try (by intuition); simpl in Hr; injection Hr as <-;
       eexists; (split; [reflexivity|]); (split; [split; [done|]|done]); simpl; intuition.
  - destruct k as [| |ops|], o as [t|]; simpl in Hi; try (by intuition).
    destruct Hi as ((-> & Hcb & Hid) & Hth & Hs). simpl in Hr. rewrite Hs in Hr. simpl in Hr. injection Hr as <-.
    eexists. split; [reflexivity|]. split; [|done]. split; simpl; auto.
  - destruct c as [|[|n] c]; injection Hr as <-.
    + eexists. split; [reflexivity|]. split; [|done]. split; [done|].
      destruct k as [| |ops|], o as [t|]; simpl in *; intuition discriminate.
    + eexists. split; [reflexivity|]. split; [|done]. split; [intros H%Hrest; done|].
      destruct k as [| |ops|], o as [t|]; simpl in *; intuition discriminate.
    + destruct (SetName_inv _ n c Hinv eq_refl) as (st' & Hst & Hi' & Hc). rewrite Hst. by eexists.
Qed.

(** Nor does a step of the creator. *)
Lemma creator_inv st r : inv st → creator_step false handle after st = Some r → ∃ st', r = Ok st' ∧ inv st'.
Proof using All.
  intros [Hrest Hi] Hr. destruct st as [o pc tt nm k]. unfold creator_step in Hr. simpl in *.
  destruct k as [| |ops|], o as [t|]; try done.
  - destruct Hi as (-> & Hs & Hcb). injection Hr as <-. eexists. split; [reflexivity|]. split; simpl; auto.
  - destruct Hi as (Ht & Hth & Hs). rewrite Hs in Hr. unfold Mutex.Semaphore_wait in Hr.
    destruct (notified pc) eqn:Hn; simpl in Hr; [|done]. injection Hr as <-. eexists. split; [reflexivity|].
    split; [done|]. simpl. split_and!; [done| |done|by left]. by destruct pc.
  - destruct Hi as (Hn & Ht & Hs & Ha). destruct ops as [|[|] ops]; [done| |].
    + pose proof after_safe as Hsafe. destruct Ha as [[Hth Heq]|(_ & _ & [?|?])]; [|done..].
      rewrite <- Heq in Hsafe.
      rewrite decide_False in Hr by congruence. destruct pc; try done. destruct Ht as [Hcb Hid]. injection Hr as <-.
      eexists. split; [reflexivity|]. split; [done|]. simpl. split_and!; try done. right. split_and!; try done.
      destruct ops as [|[] [|? ?]]; try done; auto.
    + injection Hr as <-. eexists. split; [reflexivity|]. split; [done|]. simpl.
      pose proof after_safe as Hsafe. destruct Ha as [[Hth Heq]|(_ & -> & [?|?])]; [|done|].
      * rewrite <- Heq in Hsafe. destruct ops as [|]; [by auto|done].
      * simplify_eq. auto.
  - destruct Hi as (-> & _). done.
Qed.

Lemma step_inv b st : inv st → ∃ st', step b st = Ok st' ∧ inv st'.
Proof using All.
  intros Hi. unfold step. destruct b.
  - destruct (run_step tid st) as [r|] eqn:Hr; [|by exists st].
    destruct (run_inv st r Hi Hr) as (st' & -> & ? & _). by exists st'.
  - destruct (creator_step false handle after st) as [r|] eqn:Hr; [|by exists st].
    destruct (creator_inv st r Hi Hr) as (st' & -> & ?). by exists st'.
Qed.

Lemma steps_inv schedule : ∀ st, inv st → ∃ st', steps schedule st = Ok st' ∧ inv st'.
Proof using All.
  induction schedule as [|b schedule IH]; intros st Hi; [by exists st|]. simpl.
  destruct (step_inv b st Hi) as (st1 & -> & Hi1). simpl. by apply IH.
Qed.

(** C11. The constructor hands the object over. However the steps of the creator and of the
    new thread interleave, when the creator destroys the object at most once, last, and
    after joining if the callback sets the thread's name, and no signal interrupts the wait
    ([interrupted_constructor] shows what happens then): no step uses a destroyed
    object, and once the constructor has returned, the id is that of the thread, the
    callback is out of the object and the thread has begun to run it, so that destroying
    the object does not disturb it. *)
Theorem thread_handshake schedule : ∃ st, steps schedule (State_new cb name) = Ok st ∧
  ∀ ops, creator st = KAfter ops → notified (run st) = true ∧
    ∀ t, obj st = Some t → id_ t = tid ∧ cb_ t = None.
Proof using All.
  destruct (steps_inv schedule _ thread_inv_new) as (st & Hr & [_ Hi]). exists st. split; [done|]. intros ops Hk.
  rewrite Hk in Hi. destruct (obj st) as [t|]; [|destruct Hi as (_ & ? & _); by split].
  destruct Hi as (Hn & Ht & _). split; [done|]. intros t' [= <-]. by destruct (run st), Ht.
Qed.

(** ** Failures of pthread *)

Lemma thrown_steps schedule st : run st = RNone → creator st = KThrown → steps schedule st = Ok st.
Proof.
  intros Hr Hk. induction schedule as [|b schedule IH]; [done|]. cbn [steps].
  assert (step b st = Ok st) as ->; [|exact IH].
  unfold step, run_step, creator_step. rewrite Hr, Hk. by destruct b, (obj st).
Qed.

(** The same state but for the creator. *)
Definition with_creator (k : creator_pc) (r : res State) : res State :=
  match r with Ok st => Ok (set_creator k (obj st) st) | Err e => Err e end.

(** The statements of [Run] do not look at where the creator is. *)
Lemma run_step_creator k st : run_step tid (set_creator k (obj st) st) =
  option_map (with_creator k) (run_step tid st).
Proof.
  destruct st as [o pc tt nm k']. unfold run_step, with_obj, set_run, SetName. simpl.
  destruct pc as [| | | | |c|[|[|[|x n]] c]|]; try done; destruct o as [t|]; try done; try (by destruct tt).
  simpl. destruct (Mutex.Semaphore_notify (semaphore_ t)); [|done]. simpl. by destruct c.
Qed.

Lemma child_steps_creator k n : ∀ st, steps (replicate n true) (set_creator k (obj st) st) =
  with_creator k (steps (replicate n true) st).
Proof.
  induction n as [|n IH]; intros st; [done|]. cbn [replicate steps]. unfold step. rewrite run_step_creator.
  destruct (run_step tid st) as [[st1|e]|]; simpl; [apply IH|done|apply IH].
Qed.

(** When [pthread_create] fails nothing of the object that was not made is used. When
    [pthread_join] fails, the object is as it was, and the thread does what it would
    have done. *)
Theorem pthread_failures schedule st n :
  steps schedule (create_fails (State_new cb name)) = Ok (create_fails (State_new cb name)) ∧
  obj (join_fails st) = obj st ∧ run (join_fails st) = run st ∧
  steps (replicate n true) (join_fails st) =
    with_creator (creator (join_fails st)) (steps (replicate n true) st).
Proof.
  split; [by apply thrown_steps|].
  assert (join_fails st = set_creator (creator (join_fails st)) (obj st) st) as Hj.
  { destruct st as [o pc tt nm k]. unfold join_fails. simpl. destruct k as [| |[|[|] ops]|], o as [t|]; try done.
    by case_decide. }
  rewrite Hj at 1 2 3. split; [done|]. split; [done|]. apply child_steps_creator.
Qed.

(** ** Both end *)

Definition run_left (pc : run_pc) : nat :=
  match pc with
  | RNone => 7 + length cb
  | RThis => 6 + length cb
  | RId => 5 + length cb
  | RSetNp => 4 + length cb
  | RSwap => 3 + length cb
  | RNotify _ => 2 + length cb
  | RCall c => 1 + length c
  | RDone => 0
  end.

Definition creator_left (pc : creator_pc) : nat :=
  match pc with
  | KCreate => 2 + length after
  | KWait => 1 + length after
  | KAfter ops => length ops
  | KThrown => 0
  end.

Definition left_ (st : State) : nat := run_left (run st) + creator_left (creator st).

Lemma run_left_step st r st' : inv st → run_step tid st = Some r → r = Ok st' → (left_ st' < left_ st)%nat.
Proof using All.
  intros Hinv Hr ->. destruct (run_inv st _ Hinv Hr) as (st2 & [= <-] & _ & Hc). unfold left_. rewrite Hc.
  destruct Hinv as [_ Hi]. destruct st as [o pc tt nm k]. simpl in *. unfold run_step, with_obj in Hr. simpl in *.
  destruct pc as [| | | | |c|[|[|n] c]|]; try done.
  1-4: destruct o as [t|]; simpl in Hr; try done; injection Hr as <-; simpl; lia.
  - destruct k as [| |ops|], o as [t|]; simpl in Hi; try (by intuition).
    destruct Hi as ((-> & _) & _ & Hs). rewrite Hs in Hr. simpl in Hr. injection Hr as <-. simpl. lia.
  - injection Hr as <-. simpl. lia.
  - injection Hr as <-. simpl. lia.
  - destruct (SetName n _) as [st1|]; [|done]. injection Hr as <-. simpl. lia.
Qed.

Lemma creator_left_step st r st' : inv st → creator_step false handle after st = Some r → r = Ok st' →
  (left_ st' < left_ st)%nat.
Proof using All.
  intros [_ Hi] Hr ->. destruct st as [o pc tt nm k]. unfold creator_step in Hr. simpl in *.
  destruct k as [| |[|[|] ops]|], o as [t|]; try done.
  - destruct Hi as (-> & _). injection Hr as <-. unfold left_. simpl. lia.
  - unfold Mutex.Semaphore_wait in Hr. case_decide; [|done]. injection Hr as <-.
    unfold left_. simpl. lia.
  - case_decide; [injection Hr as <-; unfold left_; simpl; lia|]. destruct pc; try done. injection Hr as <-.
    unfold left_. simpl. lia.
  - injection Hr as <-. unfold left_. simpl. lia.
Qed.

(** Some actor has a step until both have ended. *)
Lemma progress st : inv st → (run st = RDone ∧ creator st = KAfter []) ∨
  is_Some (run_step tid st) ∨ is_Some (creator_step false handle after st).
Proof using All.
  intros [_ Hi]. destruct st as [o pc tt nm k]. unfold run_step, creator_step. simpl in *.
  destruct pc as [| | | | |c|[|[|n] c]|]; try (right; left; by eexists).
  - destruct k as [| |ops|], o as [t|]; simpl in Hi; try (by intuition); right; right; by eexists.
  - destruct k as [| |ops|], o as [t|]; simpl in Hi; try (by intuition).
    + destruct Hi as (_ & _ & ->). right. right. by eexists.
    + destruct Hi as (_ & _ & _ & Ha). destruct ops as [|[|] ops]; [by left| |].
      * right. right. case_decide; by eexists.
      * right. right. by eexists.
    + destruct Hi as (-> & _). by left.
Qed.

(** A step never adds work, and takes some when the actor has one. *)
Lemma step_left b st st' : inv st → step b st = Ok st' → (left_ st' ≤ left_ st)%nat ∧
  (is_Some (if b then run_step tid st else creator_step false handle after st) → left_ st' < left_ st)%nat.
Proof using All.
  intros Hi Hs. unfold step in Hs. destruct b.
  - destruct (run_step tid st) as [r|] eqn:Hr; simpl in Hs; [|split; [by simplify_eq|by intros [? ?]]].
    pose proof (run_left_step _ _ _ Hi Hr Hs). split; [lia|auto].
  - destruct (creator_step false handle after st) as [r|] eqn:Hr; simpl in Hs; [|split; [by simplify_eq|by intros [? ?]]].
    pose proof (creator_left_step _ _ _ Hi Hr Hs). split; [lia|auto].
Qed.

Lemma ended_step b st : run st = RDone → creator st = KAfter [] → step b st = Ok st.
Proof.
  intros Hr Hk. unfold step, run_step, creator_step. rewrite Hr, Hk. by destruct b, (obj st).
Qed.

(** A round gives each actor one turn, in some order. *)
Definition rounds (bs : list bool) : list bool := bs ≫= (λ b, [b; negb b]).

Lemma round_left b st : inv st → ∃ st', steps [b; negb b] st = Ok st' ∧ inv st' ∧
  ((run st = RDone ∧ creator st = KAfter [] ∧ st' = st) ∨ (left_ st' < left_ st)%nat).
Proof using All.
  intros Hi. destruct (step_inv b st Hi) as (st1 & Hr1 & Hi1). destruct (step_inv (negb b) st1 Hi1) as (st2 & Hr2 & Hi2).
  exists st2. cbn [steps]. rewrite Hr1. cbn [mbind res_bind]. rewrite Hr2. split; [done|]. split; [done|].
  destruct (step_left b st st1 Hi Hr1) as [Hle1 Hlt1]. destruct (step_left (negb b) st1 st2 Hi1 Hr2) as [Hle2 Hlt2].
  destruct (progress st Hi) as [[Hd Hk]|Hp].
  { left. rewrite (ended_step b) in Hr1 by done. injection Hr1 as <-. rewrite (ended_step (negb b)) in Hr2 by done.
    by injection Hr2 as <-. }
  right. destruct (if b then run_step tid st else creator_step false handle after st) as [r|] eqn:Hb.
  { assert (left_ st1 < left_ st)%nat by (apply Hlt1; by eexists). lia. }
  assert (st1 = st) as ->.
  { unfold step in Hr1. rewrite Hb in Hr1. by injection Hr1 as <-. }
  apply Hlt2. destruct b; simpl; destruct Hp as [[r Hp]|[r Hp]]; try congruence; by eexists.
Qed.

(** C30. Both actors end. Under any schedule that gives each of them a turn again and
    again, in whatever order, after as many rounds as the two have statements the
    callback has run to its end, the constructor has returned and the creator has done
    what it does; neither waits for ever. *)
Theorem thread_ends bs : (9 + length cb + length after ≤ length bs)%nat →
  ∃ st, steps (rounds bs) (State_new cb name) = Ok st ∧ run st = RDone ∧ creator st = KAfter [].
Proof using All.
  assert (∀ bs st, inv st → (left_ st ≤ length bs)%nat →
    ∃ st', steps (rounds bs) st = Ok st' ∧ run st' = RDone ∧ creator st' = KAfter []) as H.
  { clear bs. induction bs as [|b bs IH]; intros st Hi Hl; simpl in Hl.
    - exists st. split; [done|]. destruct (progress st Hi) as [?|[[r Hr]|[r Hr]]]; [done|exfalso..].
      + destruct (run_inv st r Hi Hr) as (st' & -> & _). pose proof (run_left_step _ _ _ Hi Hr eq_refl). lia.
      + destruct (creator_inv st r Hi Hr) as (st' & -> & _). pose proof (creator_left_step _ _ _ Hi Hr eq_refl). lia.
    - destruct (round_left b st Hi) as (st1 & Hr & Hi1 & Hc). cbn [rounds mbind list_bind].
      assert (∀ l, steps ([b; negb b] ++ l) st = steps l st1) as Hs.
      { intros l. cbn [steps app] in *. destruct (step b st) as [x|]; [|done]. cbn [mbind res_bind] in *.
        destruct (step (negb b) x) as [y|]; [|done]. by injection Hr as <-. }
      rewrite Hs. destruct Hc as [(Hd & Hk & ->)|Hlt]; [|apply IH; [done|lia]].
      clear -Hd Hk. exists st. split; [|done]. induction (bs ≫= _) as [|b' l IHl]; [done|]. simpl.
      by rewrite ended_step. }
  intros Hlen. apply H; [apply thread_inv_new|]. unfold left_. simpl. lia.
Qed.

End thread.

(** ** Witnesses *)

Lemma thread_handshake_witness :
  ∃ st, steps 7 99 [Join; Destroy] [true; false; true; true; true; false; true; true; false; true] 
    (State_new [CSetName (S_ "w"); CWork] []) = Ok st ∧ creator st = KAfter [Join; Destroy] ∧ notified (run st) = true.
Proof.
  destruct (thread_handshake 7 99 [CSetName (S_ "w"); CWork] [] [Join; Destroy] ltac:(lia) eq_refl
    [true; false; true; true; true; false; true; true; false; true]) as (st & Hr & Hk).
  exists st. split; [exact Hr|].
  assert (creator st = KAfter [Join; Destroy]) as Hc by (vm_compute in Hr; injection Hr as <-; reflexivity).
  split; [exact Hc|]. exact (proj1 (Hk _ Hc)).
Defined.

Lemma thread_ends_witness :
  ∃ st, steps 7 99 [Destroy] (rounds (replicate 12 false)) (State_new [CWork] (S_ "io")) = Ok st ∧
    run st = RDone ∧ creator st = KAfter [].
Proof.
  apply (thread_ends 7 99 [CWork] (S_ "io") [Destroy]); [lia|reflexivity|]. apply Nat.leb_le. reflexivity.
Defined.

(** ** Behaviour at the edges *)

(** The thread-local pointer is never cleared: a thread that sets its name after its
    object was destroyed uses freed memory. *)
Example SetName_after_destroy :
  steps 7 99 [Destroy] (rounds (replicate 12 false)) (State_new [CWork; CSetName (S_ "late")] []) =
  Err UndefinedBehaviour.
Proof. vm_compute. done. Qed.

(** The constructor that throws because its wait was interrupted leaves a thread that
    uses the memory of its object. *)
Example interrupted_constructor :
  (st ← steps 7 99 [] [false; true] (State_new [CWork] []);
   st ← default (Ok st) (creator_step true 99 [] st); steps 7 99 [] [true] st) = Err UndefinedBehaviour.
Proof. vm_compute. done. Qed.

End Thread.
