(* ===== verification/HookNet.v ===== *)
(** * The sockets of the library on its own hooks

    [Module HookNet] joins [Socket] and [TcpServer] with [Hook], [FdManager] and
    [IOManager]: it implements the interface of the sockets ([Class Net]) with the hooked
    calls, in a thread of an IO manager and with hooking on, over a kernel that
    answers ([Class Kernel]); and it proves what the interface promises
    ([Class NetLaws]) from what the kernel's documentation says ([Class KernelLaws]). So
    every theorem about sockets and servers holds of the library as a whole.

    A call is one step: while a fiber waits in it, others may run, but the effects on the
    tables are those of the call. The n-th call of a program gets the n-th answers.

    Theorems: whatever a program does with sockets ([hooked_sockets]) or a server
    ([hooked_server]), descriptors and their contexts are never lost; the same with the
    server on the threads of a scheduler ([hooked_pool]). *)

From stdpp Require Import gmap sets.
From Stdlib Require Import Ascii String.
From S2P Require Import Prelude Endian Scheduler FdManager IOManager Hook StringUtil Address Socket TcpServer ServerPool.
Import StringUtil.

(** The kernel's answers to the [t]-th call of the program. *)
Class Kernel := {
  (** [socket]: a new descriptor or -1, when these are open. *)
  k_socket_fd (t : nat) (open : gset Z) : Z;
  (** The status flags a new descriptor has. *)
  k_new_flags (t : nat) : Z;
  (** What [accept], or a call that transfers data, answers each time it is tried, and how
      the waits between end. *)
  k_accept (t : nat) (open : gset Z) (fd : Z) : list Hook.answer * list Hook.waiting;
  k_transfer (t : nat) (fd : Z) : list Hook.answer * list Hook.waiting;
  k_data (t : nat) : list (list Z) * list Z;
  (** [connect]: the first answer, how the wait ends, [SO_ERROR]. *)
  k_connect (t : nat) (fd : Z) : Hook.answer * Hook.waiting * (Hook.answer * Z);
  (** The configured [tcp.connect.timeout]. *)
  k_timeout : Z;
  (** Calls that are not about descriptors, and [epoll_ctl]. *)
  k_result (t : nat) (fd : Z) : Z;
  k_getsockopt (t : nat) (fd : Z) : Z * Z * Z;
  k_name (t : nat) (fd : Z) : option (list Z);
  (** Does [epoll_ctl] succeed? [adding]: when it registers an event; otherwise it takes one
      back. *)
  k_ctl (t : nat) (adding : bool) : bool }.

(** New descriptors are new, and every call returns at last; no wait crashes, as the
    threads have IO managers and no two fibers wait for one event. *)
Class KernelLaws {K : Kernel} : Prop := {
  socket_new t open : (k_socket_fd t open = -1 ∨ 0 ≤ k_socket_fd t open ∧ k_socket_fd t open ∉ open)%Z;
  accept_new t open fd n err : (n, err) ∈ (k_accept t open fd).1 → (n = -1 ∨ 0 ≤ n < 2 ^ 31 ∧ n ∉ open)%Z;
  accept_returns t open fd to event log :
    is_Some (Hook.io_loop to event (k_accept t open fd).1 (k_accept t open fd).2 log);
  transfer_returns t fd to event log :
    is_Some (Hook.io_loop to event (k_transfer t fd).1 (k_transfer t fd).2 log);
  accept_sound t open fd : Forall (λ w, Hook.crash w = None) (k_accept t open fd).2;
  transfer_sound t fd : Forall (λ w, Hook.crash w = None) (k_transfer t fd).2;
  connect_sound t fd : Hook.crash (k_connect t fd).1.2 = None }.

Module HookNet.
Import FdManager(FdCtx).
Import Hook(World, fds, iom, kflags).

Local Open Scope Z_scope.

(** The tables of the library and the kernel's descriptors; the number of the next call. *)
Record HW := mkHW { world : World; calls : nat }.

Section net.
Context {K : Kernel}.

Definition is_open (w : HW) : gset Z := dom (kflags (world w)).

(** What [fstat] and [F_GETFL] say of a new descriptor, and the address of a new context. *)
Definition new_fd (t : nat) : FdManager.kernel_fd := FdManager.mk_kernel_fd (Some true) (k_new_flags t).
Definition new_ctx (w : HW) : Z := fresh (dom (FdManager.heap (fds (world w)))).

(** The kernel has opened [fd]; creating its context has set [O_NONBLOCK]. *)
Definition opened_world (fd : Z) (m : FdManager.FdManager) (w : HW) : HW :=
  let flags := (FdManager.Init (new_fd (calls w)) (FdManager.mk_FdCtx false false false false false fd 0 0)).1.2 in
  mkHW (Hook.mk_World m (iom (world w)) (<[fd := flags]> (kflags (world w)))) (S (calls w)).

Definition step (w : HW) : HW := mkHW (world w) (S (calls w)).

(** The context of a descriptor; null for -1. *)
Definition ctx_of (fd : Z) (w : HW) : res (option FdCtx) :=
  match Hook.get_ctx fd (world w) with Ok x => Ok (option_map snd x) | Err e => Err e end.

Definition hk_socket : M HW Z := λ w,
  let fd := k_socket_fd (calls w) (is_open w) in
  let '(r, m) := Hook.socket true fd (new_fd (calls w)) (new_ctx w) (fds (world w)) in
  match r with
  | Err e => (Err e, w)
  | Ok fd => (Ok fd, if decide (fd = -1) then step w else opened_world fd m w)
  end.

(** A call that has not returned is none of the program's steps. *)
Definition hk_accept (fd : Z) : M HW Z := λ w,
  match ctx_of fd w with
  | Err e => (Err e, w)
  | Ok ctx =>
      let '(script, waits) := k_accept (calls w) (is_open w) fd in
      match Hook.accept true ctx script waits (new_fd (calls w)) (new_ctx w) (fds (world w)) with
      | None => (Err OutOfFuel, w)
      | Some (Err e, _, _) => (Err e, w)
      | Some (Ok (n, _), _, m) => (Ok n, if decide (n < 0) then step w else opened_world n m w)
      end
  end.

Definition hk_close (fd : Z) : M HW Z := λ w,
  match Hook.close true (k_ctl (calls w) false) fd (world w) with
  | Ok (r, w') => (Ok r, mkHW w' (S (calls w)))
  | Err e => (Err e, w)
  end.

Definition hk_setsockopt (fd level option : Z) (v : optval) : M HW Z := λ w,
  match v with
  | OptTimeval sec usec =>
      match Hook.setsockopt true fd level option sec usec (world w) with
      | Ok w' => (Ok (k_result (calls w) fd), mkHW w' (S (calls w)))
      | Err e => (Err e, w)
      end
  | OptInt _ =>
      if sockopt_ok level option v then (Ok (k_result (calls w) fd), step w) else (Err UndefinedBehaviour, w)
  end.

Definition hk_transfer (send : bool) (fd : Z) : M HW Z := λ w,
  match ctx_of fd w with
  | Err e => (Err e, w)
  | Ok ctx =>
      let '(script, waits) := k_transfer (calls w) fd in
      match (if send then Hook.sendto true ctx script waits else Hook.recvfrom true ctx script waits) with
      | None => (Err OutOfFuel, w)
      | Some (Err e, _) => (Err e, w)
      | Some (Ok a, _) => (Ok a.1, step w)
      end
  end.

Definition hk_connect (fd : Z) (timeout : option Z) : M HW Z := λ w,
  match ctx_of fd w with
  | Err e => (Err e, w)
  | Ok ctx =>
      let '(first, waiting, so) := k_connect (calls w) fd in
      let '(result, _) := match timeout with
        | Some ms => Hook.connect_with_timeout true ctx ms first waiting so
        | None => Hook.connect true ctx k_timeout first waiting so
        end in
      match result with Ok a => (Ok a.1, step w) | Err e => (Err e, w) end
  end.

(** On the IO manager of the thread; without one its null pointer is followed. *)
Definition on_iom {A} (m : M IOManager.IOManager A) : M HW A := λ w,
  match iom (world w) with
  | None => (Err UndefinedBehaviour, w)
  | Some i => let '(r, i) := m i in
      (r, mkHW (Hook.mk_World (fds (world w)) (Some i) (kflags (world w))) (S (calls w)))
  end.

#[global] Instance hook_net : Net HW := {|
  sys_socket _ _ _ := hk_socket;
  sys_accept := hk_accept;
  sys_close := hk_close;
  sys_bind fd _ := λ w, (Ok (k_result (calls w) fd), step w);
  sys_listen fd _ := λ w, (Ok (k_result (calls w) fd), step w);
  sys_connect fd _ timeout := hk_connect fd timeout;
  sys_setsockopt := hk_setsockopt;
  sys_getsockopt fd _ _ := λ w, (Ok (k_getsockopt (calls w) fd), step w);
  sys_getsockname fd := λ w, (Ok (k_name (calls w) fd), step w);
  sys_getpeername fd := λ w, (Ok (k_name (calls w) fd), step w);
  sys_sendto fd _ _ _ := hk_transfer true fd;
  sys_recvfrom fd _ _ := λ w, let '(iov, name) := k_data (calls w) in
    match hk_transfer false fd w with (Ok n, w) => (Ok (n, iov, name), w) | (Err e, w) => (Err e, w) end;
  fs_unlink _ := λ w, (Ok tt, step w);
  fd_ctx fd := λ w, (ctx_of fd w, w);
  cancel_event fd event := (λ w, on_iom (IOManager.CancelEvent (k_ctl (calls w) false) fd event) w);
  cancel_all fd := (λ w, on_iom (IOManager.CancelAll (k_ctl (calls w) false) fd) w)
|}.

(** ** The invariant of the tables *)

(** Contexts exist only for open descriptors, and are usable ones of sockets; the thread
    has an IO manager in order. *)
Record tables_ok (w : World) : Prop := {
  t_fds : FdManager.wf (fds w);
  t_ctx fd p : 0 ≤ fd → FdManager.lookup_fd (fds w) fd = Some p →
    fd ∈ dom (kflags w) ∧ ∃ c, FdManager.heap (fds w) !! p = Some c ∧ Socket.usable c = true;
  t_open fd : fd ∈ dom (kflags w) → 0 ≤ fd;
  t_iom : ∃ i, iom w = Some i ∧ IOManager.wf i }.

Definition hw_valid (w : HW) : Prop := tables_ok (world w).

Lemma get_ctx_total w fd : tables_ok w → -1 ≤ fd →
  (∃ p c, 0 ≤ fd ∧ Hook.get_ctx fd w = Ok (Some (p, c)) ∧ Hook.has_ctx w fd p c) ∨
  Hook.get_ctx fd w = Ok None ∧ (0 ≤ fd → FdManager.lookup_fd (fds w) fd = None).
Proof.
  intros Hw Hfd. destruct (decide (fd = -1)) as [->|Hn]; [by right|].
  destruct (FdManager.lookup_fd (fds w) fd) as [p|] eqn:Hp.
  - left. destruct (t_ctx _ Hw fd p) as (_ & c & Hc & _); [lia|done|]. exists p, c.
    assert (Hook.has_ctx w fd p c) as Hh by (split_and!; [lia|done|done]).
    split; [lia|]. split; [by apply Hook.get_ctx_ok|done].
  - right. split; [|done]. unfold Hook.get_ctx, FdManager.Get.
    rewrite (bind_ok _ _ _ _ _ (FdManager.Get_read_ok (fds w) fd false ltac:(lia))), Hp. done.
Qed.

Lemma ctx_of_total w fd : hw_valid w → -1 ≤ fd → ∃ c, ctx_of fd w = Ok c.
Proof.
  intros Hw Hfd. unfold ctx_of. destruct (get_ctx_total _ _ Hw Hfd) as [(p & c & _ & -> & _)|[-> _]]; by eexists.
Qed.

Lemma cancel_all_total i fd ctl : IOManager.wf i → 0 ≤ fd → ∃ b i',
  IOManager.CancelAll ctl fd i = (Ok b, i') ∧ IOManager.wf i'.
Proof.
  intros Hi Hfd. destruct (decide (Z.of_nat (length (IOManager.fd_contexts_ i)) ≤ fd)) as [Hl|Hl].
  { exists false, i. unfold IOManager.CancelAll. rewrite bind_mget, decide_True by done. done. }
  destruct (IOManager.context_exists i fd Hi) as (q & x & Hx); [lia|].
  pose proof (IOManager.CancelAll_ok i fd q x Hi Hx ctl) as Hc. cbv zeta in Hc. rewrite Hc.
  case_match; [|by exists false, i]. do 2 eexists. split; [reflexivity|].
  apply IOManager.fired_wf; [done|]. apply Hx.
Qed.

Lemma cancel_event_total i fd e ctl : IOManager.wf i → 0 ≤ fd → e = IOManager.READ ∨ e = IOManager.WRITE → ∃ b i',
  IOManager.CancelEvent ctl fd e i = (Ok b, i') ∧ IOManager.wf i'.
Proof.
  intros Hi Hfd He. destruct (decide (Z.of_nat (length (IOManager.fd_contexts_ i)) ≤ fd)) as [Hl|Hl].
  { exists false, i. unfold IOManager.CancelEvent. rewrite bind_mget, decide_True by done. done. }
  destruct (IOManager.context_exists i fd Hi) as (q & x & Hx); [lia|].
  assert (∃ k, e = IOManager.event_of k) as [k ->].
  { destruct He as [->| ->]; [by exists IOManager.Read|by exists IOManager.Write]. }
  rewrite (IOManager.CancelEvent_ok i fd q x Hi Hx ctl k).
  destruct (IOManager.waits k x) eqn:Hk; [|by exists false, i]. destruct ctl; [|by exists false, i].
  do 2 eexists. split; [reflexivity|]. apply (IOManager.dropped_wf i q x k true); [done|apply Hx|done].
Qed.


(** A new descriptor gets a context of its own. *)
Lemma Get_new (w : HW) fd : hw_valid w → 0 ≤ fd → fd ∉ is_open w → ∃ m,
  FdManager.Get (new_fd (calls w)) (new_ctx w) fd true (fds (world w)) = (Ok (Some (new_ctx w)), m) ∧
  hw_valid (opened_world fd m w) ∧ is_open (opened_world fd m w) = {[fd]} ∪ is_open w.
Proof.
  intros Hw Hfd Hn. set (m0 := fds (world w)).
  assert (FdManager.lookup_fd m0 fd = None) as Hnone.
  { destruct (FdManager.lookup_fd m0 fd) as [p|] eqn:Hp; [|done]. by destruct (t_ctx _ Hw fd p Hfd Hp). }
  destruct (FdManager.Get_write_ok m0 (new_fd (calls w)) (new_ctx w) fd (t_fds _ Hw) Hfd) as (m & Hr & Hm & Hheap & Hl).
  exists m. unfold FdManager.Get. rewrite (bind_ok _ _ _ _ _ (FdManager.Get_read_ok m0 fd true Hfd)), Hnone.
  split; [exact Hr|]. assert (is_open (opened_world fd m w) = {[fd]} ∪ is_open w) as Ho.
  { unfold is_open, opened_world. simpl. apply dom_insert_L. }
  split; [|exact Ho]. constructor; simpl; [done| | |apply (t_iom _ Hw)].
  - intros fd' p Hfd' Hp. rewrite Hl in Hp by done. rewrite dom_insert_L, Hheap. case_decide as He.
    + injection Hp as <-. subst fd'. split; [set_solver|]. rewrite lookup_insert_eq. eexists. split; [reflexivity|].
      unfold FdManager.FdCtx_new, FdManager.Init. reflexivity.
    + destruct (t_ctx _ Hw fd' p Hfd' Hp) as (Hd & c & Hc & Hu). split; [set_solver|]. exists c. split; [|done].
      rewrite lookup_insert_ne; [done|]. intros Heq. unfold new_ctx in Heq.
      apply (is_fresh (dom (FdManager.heap (fds (world w))))). rewrite Heq. apply elem_of_dom. by eexists.
  - intros fd'. rewrite dom_insert_L. intros [->%elem_of_singleton|H]%elem_of_union; [done|by apply (t_open _ Hw)].
Qed.

(** Changing the settings of a context. *)
Lemma update_ctx_ok w p g : tables_ok w → (∀ c, Socket.usable (g c) = Socket.usable c) →
  tables_ok (Hook.update_ctx p g w).
Proof.
  intros Hw Hg. constructor; simpl; [apply (t_fds _ Hw)| |apply (t_open _ Hw)|apply (t_iom _ Hw)].
  intros fd q Hfd Hq. destruct (t_ctx _ Hw fd q Hfd Hq) as (Hd & c & Hc & Hu). split; [done|].
  destruct (decide (p = q)) as [->|Hne].
  - exists (g c). rewrite lookup_alter_eq, Hc, Hg. done.
  - exists c. by rewrite lookup_alter_ne.
Qed.

Lemma setsockopt_ok w fd l o sec usec : tables_ok w → -1 ≤ fd → ∃ w',
  Hook.setsockopt true fd l o sec usec w = Ok w' ∧ tables_ok w' ∧ kflags w' = kflags w.
Proof.
  intros Hw Hfd. unfold Hook.setsockopt. simpl. case_decide; [|by exists w].
  destruct (get_ctx_total w fd Hw Hfd) as [(p & c & _ & -> & _)|[-> _]]; [|by exists w].
  eexists. split; [reflexivity|]. split; [|done]. apply update_ctx_ok; [done|]. intros c'.
  unfold FdManager.SetTimeout. by case_decide.
Qed.

(** Closing wakes the waiters, forgets the context and closes the descriptor. *)
Lemma close_ok w fd ctl : tables_ok w → fd ∈ dom (kflags w) → ∃ r w',
  Hook.close true ctl fd w = Ok (r, w') ∧ tables_ok w' ∧ kflags w' = delete fd (kflags w).
Proof.
  intros Hw Hin. pose proof (t_open _ Hw fd Hin) as Hfd. pose proof Hin as [fl Hfl]%elem_of_dom.
  unfold Hook.close. simpl. unfold Hook.close_original.
  destruct (get_ctx_total w fd Hw ltac:(lia)) as [(p & c & _ & -> & _)|[-> Hnone]]; simpl.
  - destruct (t_iom _ Hw) as (i & Hi & Hiw). rewrite Hi.
    destruct (cancel_all_total i fd ctl Hiw Hfd) as (b & i' & -> & Hi'). simpl.
    destruct (FdManager.Del_ok (fds w) fd (t_fds _ Hw) Hfd) as (m' & -> & Hm & Hheap & Hl). simpl. rewrite Hfl.
    do 2 eexists. split; [reflexivity|]. split; [|done]. constructor; simpl; [done| | |by exists i'].
    + intros fd' q Hfd' Hq. rewrite Hl in Hq by done. case_decide as Hne; [done|].
      destruct (t_ctx _ Hw fd' q Hfd' Hq) as (Hd & Hc). rewrite Hheap. split; [|done]. rewrite dom_delete_L. set_solver.
    + intros fd'. rewrite dom_delete_L. intros [H _]%elem_of_difference. by apply (t_open _ Hw).
  - rewrite Hfl. do 2 eexists. split; [reflexivity|]. split; [|done].
    constructor; simpl; [apply (t_fds _ Hw)| | |apply (t_iom _ Hw)].
    + intros fd' q Hfd' Hq. destruct (t_ctx _ Hw fd' q Hfd' Hq) as (Hd & Hc). split; [|done].
      rewrite dom_delete_L. assert (fd' ≠ fd) by (intros ->; rewrite Hnone in Hq; done). set_solver.
    + intros fd'. rewrite dom_delete_L. intros [H _]%elem_of_difference. by apply (t_open _ Hw).
Qed.

(** A call on the IO manager. *)
Lemma on_iom_quiet {A} (m : nat → M IOManager.IOManager A) :
  (∀ t i, IOManager.wf i → ∃ a i', m t i = (Ok a, i') ∧ IOManager.wf i') →
  quiet hw_valid is_open (λ w, on_iom (m (calls w)) w).
Proof.
  intros Hm w Hw. destruct (t_iom _ Hw) as (i & Hi & Hiw). unfold on_iom. rewrite Hi.
  destruct (Hm (calls w) i Hiw) as (a & i' & -> & Hi'). do 2 eexists. split; [reflexivity|]. split; [|done].
  constructor; simpl; [apply (t_fds _ Hw)|apply (t_ctx _ Hw)|apply (t_open _ Hw)|by exists i'].
Qed.

Context {KL : KernelLaws}.

(** A hooked call returns one of the answers of the kernel, or gives up. *)
Lemma io_loop_answer to event script : ∀ waits log a log', Hook.io_loop to event script waits log = Some (Ok a, log') →
  a ∈ script ∨ a.1 = -1.
Proof using.
  induction script as [|[n err] script IH]; intros waits log a log'; simpl; [done|].
  case_decide; [intros [?|?]%IH; [left; by right|by right]|].
  case_decide.
  - destruct waits as [|[| |e| |] waits]; [done|done|done|intros [= <- _]; by right| |];
      (case_decide; [intros [= <- _]; by right|intros [?|?]%IH; [left; by right|by right]]).
  - intros [= <- _]. left. left.
Qed.

Lemma do_io_returns ctx event so (s : list Hook.answer * list Hook.waiting) :
  (∀ to event log, is_Some (Hook.io_loop to event s.1 s.2 log)) → Forall (λ w, Hook.crash w = None) s.2 →
  ∃ a log, Hook.do_io true ctx event so s.1 s.2 = Some (Ok a, log) ∧ (a ∈ s.1 ∨ a.1 = -1).
Proof using.
  intros Hs Hc. assert (∃ a, Hook.call_original s.1 = Some (Ok a, [Hook.ECall]) ∧ (a ∈ s.1 ∨ a.1 = -1)) as (a0 & Ha0 & Hin0).
  { destruct (Hs 0 0 []) as [x Hx]. destruct s as [[|a l] ws]; [done|]. exists a. split; [done|]. left. left. }
  unfold Hook.do_io. simpl. destruct ctx as [ctx|]; [|by exists a0, [Hook.ECall]].
  destruct (FdManager.IsClose ctx); [by exists (-1, Hook.EBADF), []; split; [|right]|].
  destruct (_ || _); [by exists a0, [Hook.ECall]|].
  destruct (Hs (FdManager.GetTimeout so ctx) event []) as [[[a|e] log] Hl].
  - exists a, log. split; [done|]. by eapply io_loop_answer.
  - apply Hook.io_loop_crash, Exists_exists in Hl as (w & Hw & He). rewrite Forall_forall in Hc.
    by rewrite (Hc _ Hw) in He.
Qed.

Lemma transfer_quiet send fd : -1 ≤ fd → quiet hw_valid is_open (hk_transfer send fd).
Proof using All.
  intros Hfd w Hw. unfold hk_transfer. destruct (ctx_of_total w fd Hw Hfd) as [ctx ->].
  pose proof (do_io_returns ctx IOManager.WRITE FdManager.SO_SNDTIMEO (k_transfer (calls w) fd)
    (transfer_returns _ _) (transfer_sound _ _)) as (a & log & Ha & _).
  pose proof (do_io_returns ctx IOManager.READ FdManager.SO_RCVTIMEO (k_transfer (calls w) fd)
    (transfer_returns _ _) (transfer_sound _ _)) as (a' & log' & Ha' & _).
  destruct (k_transfer (calls w) fd) as [script waits]. simpl in *. unfold Hook.sendto, Hook.recvfrom.
  destruct send; [rewrite Ha|rewrite Ha']; do 2 eexists; (split; [reflexivity|done]).
Qed.

Lemma socket_opens_ok : opens hw_valid is_open hk_socket.
Proof using All.
  intros w Hw. unfold hk_socket, Hook.socket. cbn [negb].
  destruct (socket_new (calls w) (is_open w)) as [->|[Hfd Hn]].
  - rewrite !decide_True by done. do 2 eexists. split; [reflexivity|]. split; [done|]. by left.
  - rewrite decide_False by lia. destruct (Get_new w _ Hw Hfd Hn) as (m & Hr & Hv & Ho).
    rewrite (bind_ok _ _ _ _ _ Hr). cbn [mret M_ret]. rewrite decide_False by lia.
    do 2 eexists. split; [reflexivity|]. split; [done|]. right. split; [lia|]. done.
Qed.

(** What [accept] gives: -1 or a new descriptor with a usable context. *)
Lemma accept_ok fd w : -1 ≤ fd → hw_valid w → ∃ n w', hk_accept fd w = (Ok n, w') ∧ hw_valid w' ∧
  (n = -1 ∧ is_open w' = is_open w ∨
   n ≠ -1 ∧ n ∉ is_open w ∧ is_open w' = ({[n]} ∪ is_open w) ∧
     ∃ c, ctx_of n w' = Ok (Some c) ∧ Socket.usable c = true).
Proof using All.
  intros Hfd Hw. unfold hk_accept. destruct (ctx_of_total w fd Hw Hfd) as [ctx ->].
  pose proof (do_io_returns ctx IOManager.READ FdManager.SO_RCVTIMEO (k_accept (calls w) (is_open w) fd)
    (accept_returns _ _ _) (accept_sound _ _ _)) as ([n err] & log & Ha & Hin).
  assert (n = -1 ∨ 0 ≤ n < 2 ^ 31 ∧ n ∉ is_open w) as Hn.
  { destruct Hin as [Hin|Hin]; [by eapply accept_new|by left]. }
  destruct (k_accept (calls w) (is_open w) fd) as [script waits]. simpl in Ha. unfold Hook.accept. rewrite Ha.
  assert (i32(n) = n) as -> by (apply swrap_small; lia).
  destruct (decide (0 ≤ n)) as [H0|H0].
  - destruct Hn as [?|[_ Hn]]; [lia|]. destruct (Get_new w n Hw H0 Hn) as (m & Hr & Hv & Ho). rewrite Hr.
    rewrite decide_False by lia. do 2 eexists. split; [reflexivity|]. split; [exact Hv|]. right.
    split; [lia|]. split; [done|]. split; [exact Ho|]. unfold ctx_of.
    destruct (get_ctx_total _ n Hv ltac:(lia)) as [(p & c & _ & -> & Hc)|[_ Hnone]].
    + exists c. split; [done|]. destruct Hc as (Hc0 & Hp & Hh).
      destruct (t_ctx _ Hv n p Hc0 Hp) as (_ & c' & Hc' & Hu). congruence.
    + specialize (Hnone H0). simpl in Hnone.
      destruct (FdManager.Get_write_ok (fds (world w)) (new_fd (calls w)) (new_ctx w) n (t_fds _ Hw) H0)
        as (m' & Hw' & _ & _ & Hl).
      assert (m' = m) as ->.
      { assert (FdManager.lookup_fd (fds (world w)) n = None) as Hz.
        { destruct (FdManager.lookup_fd (fds (world w)) n) as [p|] eqn:Hp; [|done]. by destruct (t_ctx _ Hw n p H0 Hp). }
        unfold FdManager.Get in Hr.
        rewrite (bind_ok _ _ _ _ _ (FdManager.Get_read_ok _ n true H0)), Hz, Hw' in Hr. congruence. }
      rewrite Hl, decide_True in Hnone by done. done.
  - destruct Hn as [->|?]; [|lia]. rewrite decide_True by lia. do 2 eexists. split; [reflexivity|]. split; [done|]. by left.
Qed.

Lemma hk_setsockopt_quiet fd l o v : -1 ≤ fd → sockopt_ok l o v = true → quiet hw_valid is_open (hk_setsockopt fd l o v).
Proof using.
  intros Hfd Hok w Hw. unfold hk_setsockopt. destruct v as [v|sec usec]; [rewrite Hok; by do 2 eexists|].
  destruct (setsockopt_ok (world w) fd l o sec usec Hw Hfd) as (w' & -> & Hv & Ho). do 2 eexists.
  split; [reflexivity|]. split; [exact Hv|]. unfold is_open. simpl. by rewrite Ho.
Qed.

(** The interface of the sockets is implemented. *)
#[global, refine] Instance hook_laws : NetLaws HW := {| valid := hw_valid; opened := is_open |}.
Proof using All.
  - intros w fd Hw. apply (t_open _ Hw).
  - intros f ty p. apply socket_opens_ok.
  - intros fd Hfd w Hw. destruct (accept_ok fd w Hfd Hw) as (n & w' & Hr & Hv & Hc). exists n, w'.
    split; [exact Hr|]. split; [exact Hv|]. tauto.
  - intros fd w Hw Hin. destruct (close_ok (world w) fd (k_ctl (calls w) false) Hw Hin) as (r & w' & Hr & Hv & Ho).
    exists r, (mkHW w' (S (calls w))). simpl. unfold hk_close. rewrite Hr. split; [done|]. split; [exact Hv|].
    unfold is_open. simpl. rewrite Ho. apply dom_delete_L.
  - intros fd a _ w Hw. by do 2 eexists.
  - intros fd a _ w Hw. by do 2 eexists.
  - intros fd a t Hfd w Hw. simpl. unfold hk_connect. destruct (ctx_of_total w fd Hw Hfd) as [ctx ->].
    pose proof (connect_sound (calls w) fd) as Hc. destruct (k_connect (calls w) fd) as [[first waiting] so].
    assert (∃ a log, (match t with Some ms => Hook.connect_with_timeout true ctx ms first waiting so
      | None => Hook.connect true ctx k_timeout first waiting so end) = (Ok a, log)) as (a' & log & ->).
    { destruct t; by apply Hook.connect_sound. }
    by do 2 eexists.
  - apply hk_setsockopt_quiet.
  - intros fd l o _ w Hw. by do 2 eexists.
  - intros fd _ w Hw. by do 2 eexists.
  - intros fd _ w Hw. by do 2 eexists.
  - intros fd d fl a Hfd. by apply transfer_quiet.
  - intros fd n fl Hfd w Hw. simpl. destruct (k_data (calls w)) as [iov name].
    destruct (transfer_quiet false fd Hfd w Hw) as (a & w' & -> & Hv & Ho). by do 2 eexists.
  - intros p w Hw. by do 2 eexists.
  - intros fd Hfd w Hw. simpl. destruct (ctx_of_total w fd Hw Hfd) as [c ->]. by do 2 eexists.
  - intros fd e Hfd He. apply (on_iom_quiet (λ t, IOManager.CancelEvent (k_ctl t false) fd e)). intros t i Hi.
    by apply cancel_event_total.
  - intros fd Hfd. apply (on_iom_quiet (λ t, IOManager.CancelAll (k_ctl t false) fd)). intros t i Hi.
    by apply cancel_all_total.
Defined.

(** [Get] of a number below -1 is no context. *)
Lemma ctx_of_below fd w : fd < -1 → ctx_of fd w = Err UndefinedBehaviour.
Proof using.
  intros Hfd. unfold ctx_of, Hook.get_ctx.
  assert (FdManager.Get_read fd false (fds (world w)) = (Err UndefinedBehaviour, fds (world w))) as Hr.
  { unfold FdManager.Get_read. rewrite decide_False by lia. rewrite bind_mget, decide_False by lia.
    unfold FdManager.at_. by rewrite decide_True by lia. }
  unfold FdManager.Get. by rewrite (bind_err _ _ _ _ _ Hr).
Qed.

(** Every accepted descriptor is known to the table. *)
Lemma accepts_hooked : Socket.hooked_accept (W := HW).
Proof using All.
  intros fd w r w' Hw Hr Hn. simpl in *. destruct (decide (-1 ≤ fd)) as [Hfd|Hfd].
  - destruct (accept_ok fd w Hfd Hw) as (n & w1 & Hr1 & Hv & Hc). rewrite Hr in Hr1. injection Hr1 as <- <-.
    destruct Hc as [[-> _]|(_ & _ & _ & c & Hc & Hu)]; [done|]. exists c, w'. by rewrite Hc.
  - unfold hk_accept in Hr. by rewrite ctx_of_below in Hr by lia.
Qed.

(** A descriptor that is not open has no context. *)
Lemma no_stale_context w fd : tables_ok w → 0 ≤ fd → fd ∉ dom (kflags w) → FdManager.lookup_fd (fds w) fd = None.
Proof using.
  intros Hw Hfd Hn. destruct (FdManager.lookup_fd (fds w) fd) as [p|] eqn:Hp; [|done].
  by destruct (t_ctx _ Hw fd p Hfd Hp).
Qed.

(** A program's sockets, each call hooked: every call comes back, exactly the
    descriptors of the sockets that are left are open beside those from before, and no
    closed descriptor has a context. *)
Theorem hooked_sockets host qs w0 : hw_valid w0 → forallb Socket.request_ok qs = true →
  ∃ m w, Socket.exec_all host qs ∅ w0 = (Ok tt, (m, w)) ∧ tables_ok (world w) ∧
    (∀ fd, fd ∈ is_open w → fd ∈ is_open w0 ∨ ∃ i s, m !! i = Some s ∧ Socket.sock_ s = fd) ∧
    (∀ i s, m !! i = Some s → Socket.own s ⊆ is_open w ∖ is_open w0) ∧
    (∀ fd, 0 ≤ fd → fd ∉ is_open w → FdManager.lookup_fd (fds (world w)) fd = None).
Proof using All.
  intros Hw Hq. change (valid w0) in Hw.
  destruct (Socket.exec_all_ledger host qs _ _ _ accepts_hooked Hq (Socket.ledger_new (W := HW) w0 Hw)) as (m & w & Hr & Hl).
  exists m, w. split; [exact Hr|]. pose proof (Socket.l_valid _ _ _ Hl) as Hv. split; [exact Hv|].
  split; [|split; [exact (Socket.l_own _ _ _ Hl)|intros fd; by apply no_stale_context]].
  intros fd Hfd. destruct (Socket.l_cover _ _ _ Hl fd Hfd) as [?|(i & s & Hs & Hf)]; [by left|]. right.
  exists i, s. split; [done|]. revert Hf. unfold Socket.own. case_decide; set_solver.
Qed.


(** All of it together: a server on the threads of a scheduler, over the hooks, the table
    of descriptors and the IO manager, as long as no fiber is resumed too early. *)
Theorem hooked_pool host ls threads self uc ids p0 rt w0 : forallb ServerPool.label_ok ls = true →
  Scheduler.started threads self uc ids p0 → hw_valid w0 →
  ServerPool.raceless host ls (ServerPool.Sys_new rt w0 p0) = true →
  ∃ s, ServerPool.run host ls (ServerPool.Sys_new rt w0 p0) = Ok s ∧
    NoDup (ServerPool.accepts s ++ ServerPool.clients s) ∧
    ServerPool.accepts s ++ ServerPool.clients s ≡ₚ
      Scheduler.tasks_ (Scheduler.sched (ServerPool.pool s)) ++
      ServerPool.busy (Scheduler.pcs (ServerPool.pool s)) ++ ServerPool.parked_ s ∧
    (∀ fd, fd ∈ is_open (TcpServer.world (ServerPool.srv s)) ↔ fd ∈ is_open w0 ∨
       ∃ p x, TcpServer.heap (ServerPool.srv s) !! p = Some x ∧ Socket.sock_ x = fd ∧ fd ≠ -1) ∧
    hw_valid (TcpServer.world (ServerPool.srv s)).
Proof using All.
  intros Hls Hst Hw Hrl. change (valid w0) in Hw.
  pose proof (ServerPool.run_ok host _ ls accepts_hooked _ Hls (ServerPool.sinv_new (W := HW) _ _ _ _ _ rt _ Hst Hw)) as Hrun.
  rewrite Hrl in Hrun. destruct Hrun as (s & Hr & Hs & _).
  exists s. split; [exact Hr|]. pose proof (ServerPool.y_placed _ _ Hs) as Hp.
  split; [apply (ServerPool.p_nodup _ _ _ Hp)|]. split; [apply (ServerPool.p_perm _ _ _ Hp)|].
  destruct (ServerPool.y_good _ _ Hs) as [Hi _].
  split; [exact (TcpServer.inv_opened _ _ _ Hi)|]. exact (Socket.l_valid _ _ _ (TcpServer.i_ledger _ _ _ Hi)).
Qed.

End net.

(** ** A kernel *)

(** The least number above all open ones, below 2^31; a transfer is of three bytes; who
    accepts waits once. *)
Definition new_number (open : gset Z) : Z :=
  let n := Z.of_nat (fresh (set_map (D := gset nat) Z.to_nat open)) in if decide (n < 2 ^ 31) then n else -1.

#[global] Instance small_kernel : Kernel := {|
  k_socket_fd _ open := new_number open;
  k_new_flags _ := 2;
  k_accept _ open _ := ([(-1, Hook.EAGAIN); (new_number open, 0)], [Hook.W_ready]);
  k_transfer _ _ := ([(3, 0)], []);
  k_data _ := ([], []);
  k_connect _ _ := ((0, 0), Hook.W_ready, ((0, 0), 0));
  k_timeout := 5000;
  k_result _ _ := 0;
  k_getsockopt _ _ := (0, 0, 0);
  k_name _ _ := None;
  k_ctl _ _ := true
|}.

Lemma new_number_ok open : new_number open = -1 ∨ 0 ≤ new_number open < 2 ^ 31 ∧ new_number open ∉ open.
Proof.
  unfold new_number. case_decide as Hn; [|by left]. right. split; [lia|]. intros Hin.
  apply (is_fresh (set_map (D := gset nat) Z.to_nat open)). apply elem_of_map. eexists. split; [|exact Hin].
  by rewrite Nat2Z.id.
Qed.

#[global] Instance small_kernel_laws : KernelLaws.
Proof.
  split; simpl.
  - intros t open. destruct (new_number_ok open) as [?|[? ?]]; [by left|right; split; [lia|done]].
  - intros t open fd n err. rewrite !elem_of_cons. intros [[= -> _]|[[= -> _]|Hnil%not_elem_of_nil]]; [by left| |done].
    apply new_number_ok.
  - intros t open fd to event log.
    repeat case_decide; try (by eexists); exfalso; naive_solver.
  - intros t fd to event log. repeat case_decide; try (by eexists); naive_solver.
  - intros t open fd. by repeat constructor.
  - intros t fd. constructor.
  - done.
Qed.

Definition hw0 : HW :=
  mkHW (Hook.mk_World FdManager.FdManager_new (Some IOManager.IOManager_new) {[0 := 2; 1 := 2; 2 := 2]}) 0.

Lemma hw0_valid : hw_valid hw0.
Proof.
  constructor.
  - apply FdManager.table_wf_new.
  - intros fd p Hfd Hp. change (mjoin (replicate 64 (None (A := Z)) !! Z.to_nat fd) = Some p) in Hp.
    destruct (replicate 64 _ !! Z.to_nat fd) as [x|] eqn:Hx; [|done].
    apply lookup_replicate in Hx as [-> _]. done.
  - intros fd. simpl. rewrite !dom_insert_L, dom_singleton_L. set_solver by lia.
  - eexists. split; [reflexivity|apply IOManager.wf_start].
Qed.

(** A server that has accepted one client and was then stopped; its own socket is closed
    and destroyed, its number 3 is free again. *)
Definition hooked_run : list TcpServer.event :=
  TcpServer.serve ++ [TcpServer.EStop; TcpServer.ETask 1].


Lemma hooked_sockets_witness : ∃ m w,
  Socket.exec_all TcpServer.LE Socket.session ∅ hw0 = (Ok tt, (m, w)) ∧ is_open w = {[0; 1; 2; 5; 6]} ∧
  FdManager.lookup_fd (fds (world w)) 4 = None.
Proof.
  destruct (hooked_sockets TcpServer.LE Socket.session hw0 hw0_valid eq_refl) as (m & w & Hr & _ & _ & _ & Hn).
  exists m, w. split; [exact Hr|].
  assert (is_open w = {[0; 1; 2; 5; 6]}) as Ho.
  { apply (f_equal (λ x, x.2.2)) in Hr. simpl in Hr. rewrite <- Hr. vm_compute. reflexivity. }
  split; [exact Ho|]. apply Hn; [lia|]. rewrite Ho. apply (bool_decide_eq_true_1 _). vm_compute. reflexivity.
Defined.

Lemma hooked_pool_witness : ∃ s,
  ServerPool.run TcpServer.LE ServerPool.pool_run (ServerPool.Sys_new 120000 hw0 Scheduler.sample0) = Ok s ∧
  is_open (TcpServer.world (ServerPool.srv s)) = {[0; 1; 2]} ∧ hw_valid (TcpServer.world (ServerPool.srv s)).
Proof.
  assert (ServerPool.raceless TcpServer.LE ServerPool.pool_run (ServerPool.Sys_new 120000 hw0 Scheduler.sample0) = true) as Hrl
    by (vm_compute; reflexivity).
  destruct (hooked_pool TcpServer.LE ServerPool.pool_run 3 100 true [101; 102] Scheduler.sample0 120000 hw0 eq_refl
    Scheduler.sample0_started hw0_valid Hrl) as (s & Hr & _ & _ & _ & Hv).
  exists s. split; [exact Hr|]. split; [|exact Hv].
  assert (s = match ServerPool.run TcpServer.LE ServerPool.pool_run (ServerPool.Sys_new 120000 hw0 Scheduler.sample0)
    with Ok s => s | Err _ => s end) as -> by (by rewrite Hr).
  vm_compute. reflexivity.
Defined.

End HookNet.
