(* ===== verification/Wake.v ===== *)
(** * What the hooked calls do to who waits

    [Module Wake] follows the registrations of the IO manager through the hooked calls of
    [HookNet]. No call registers anything, and none drops a registration: it stays, or the
    task that waits is handed to its scheduler ([wakes]). While every registration is at a
    descriptor with a context and [epoll_ctl] takes back what it is asked to, closing a descriptor wakes all that
    waits there.

    [frozen i] is the interface [NetLaws] of the sockets once more, with that as part of
    what a valid system is: so each theorem about sockets and servers gives what became of
    the registrations there were in [i]. *)

From stdpp Require Import gmap sets.
From S2P Require Import Prelude Scheduler FdManager IOManager Hook Socket HookNet.
#[local] Existing Instance Scheduler.ScheduleTask_eq_dec.

Module Wake.
Import IOManager(IOManager, waits, fired_state, fired, fired_regs, dropped, registration, regs, context_of).
Import Hook(World, fds, iom, kflags).
Import HookNet(HW, world, calls, is_open, hw_valid, tables_ok).

Local Open Scope Z_scope.

(** ** Registrations *)

(** From [i] to [i'] registrations only became tasks that were woken. *)
Record wakes (i i' : IOManager) : Prop := {
  k_woken : ∃ l, IOManager.woken i' = IOManager.woken i ++ l;
  k_added : IOManager.added i' = IOManager.added i;
  k_deleted : IOManager.deleted i' = IOManager.deleted i;
  k_heap q c' : IOManager.heap i' !! q = Some c' → ∃ c, IOManager.heap i !! q = Some c ∧
    IOManager.fd c' = IOManager.fd c ∧
    ∀ k, waits k c' = true → waits k c = true ∧ IOManager.ctx_of k c' = IOManager.ctx_of k c
}.

#[export] Instance wakes_preorder : PreOrder wakes.
Proof.
  split.
  - intros i. constructor; [exists []; by rewrite app_nil_r|done|done|]. intros q c Hc. exists c. by split_and!.
  - intros i1 i2 i3 [[l1 H1] A1 D1 P1] [[l2 H2] A2 D2 P2]. constructor.
    + exists (l1 ++ l2). by rewrite H2, H1, (assoc_L (++)).
    + congruence.
    + congruence.
    + intros q c3 Hc3. destruct (P2 q c3 Hc3) as (c2 & Hc2 & Hf2 & Hk2). destruct (P1 q c2 Hc2) as (c1 & Hc1 & Hf1 & Hk1).
      exists c1. split; [done|]. split; [congruence|]. intros k [Hw2 He2]%Hk2. destruct (Hk1 k Hw2) as [Hw1 He1].
      split; [done|congruence].
Qed.

(** Each registration of before is there or was woken, once. *)
Lemma wakes_regs i i' : IOManager.wf i → IOManager.wf i' → wakes i i' → ∃ l,
  IOManager.woken i' = IOManager.woken i ++ l ∧ regs (IOManager.heap i) ≡ₚ regs (IOManager.heap i') ++ l.
Proof.
  intros Hi Hi' [[l Hl] Ha Hd _]. exists l. split; [done|].
  pose proof (IOManager.wf_history _ Hi) as H1. pose proof (IOManager.wf_history _ Hi') as H2.
  rewrite Ha, Hd, Hl, H1 in H2. clear - H2. perm_count.
Qed.

Lemma fired_kept r w c k : waits k (fired r w c) = true →
  waits k c = true ∧ IOManager.ctx_of k (fired r w c) = IOManager.ctx_of k c ∧
  match k with IOManager.Read => r | IOManager.Write => w end = false.
Proof. by destruct r, w, k. Qed.

Lemma wakes_fired i p c r w e : IOManager.heap i !! p = Some c → wakes i (fired_state i p c r w e).
Proof.
  intros Hc. constructor; simpl; [by eexists|done|done|]. intros q c'. rewrite lookup_insert_Some.
  intros [[<- <-]|[_ Hq]].
  - exists c. split; [done|]. split; [apply IOManager.fired_fd|]. intros k Hk. by apply fired_kept in Hk as (? & ? & _).
  - exists c'. by split_and!.
Qed.

Lemma wakes_dropped i p c k : IOManager.heap i !! p = Some c → wakes i (IOManager.woken_event i p c k).
Proof.
  intros Hc. constructor; simpl; [by eexists|done|done|]. intros q c'. rewrite lookup_insert_Some.
  intros [[<- <-]|[_ Hq]].
  - exists c. split; [done|]. split; [apply IOManager.dropped_fd|]. intros k'. rewrite IOManager.waits_dropped.
    by destruct k, k'.
  - exists c'. by split_and!.
Qed.

(** Nothing waits at a descriptor. *)
Definition free_at (f : Z) (i : IOManager) : Prop :=
  ∀ q c k, IOManager.heap i !! q = Some c → IOManager.fd c = f → waits k c = false.

Lemma CancelAll_wakes i f : IOManager.wf i → 0 ≤ f → ∃ b i', IOManager.CancelAll true f i = (Ok b, i') ∧
  IOManager.wf i' ∧ wakes i i' ∧ free_at f i'.
Proof.
  intros Hi Hf.
  assert (∀ q x, context_of i f q x → ∀ q' c, IOManager.heap i !! q' = Some c → IOManager.fd c = f → q' = q ∧ c = x) as Huniq.
  { intros q x (_ & Hq & Hx & _) q' c Hc Hfd. destruct (IOManager.wf_heap _ Hi _ _ Hc) as (_ & _ & _ & Hp).
    rewrite Hfd, Hq in Hp. injection Hp as <-. split; [done|congruence]. }
  destruct (IOManager.context_dec i f Hi Hf) as [(q & x & Hx)|Hl].
  - pose proof (IOManager.CancelAll_ok i f q x Hi Hx true) as Hc. cbv zeta in Hc. rewrite andb_true_r in Hc.
    rewrite Hc. destruct (waits IOManager.Read x || waits IOManager.Write x) eqn:Hw.
    + do 2 eexists. split; [reflexivity|]. split; [by apply IOManager.fired_wf; [|apply Hx]|].
      split; [apply wakes_fired; apply Hx|]. intros q' c k. simpl. rewrite lookup_insert_Some.
      intros [[<- <-]|[Hne Hq]] Hfd.
      * apply not_true_is_false. intros Hk. apply fired_kept in Hk as (H1 & _ & H2). destruct k; congruence.
      * by destruct (Huniq q x Hx q' c Hq Hfd) as [-> _].
    + exists false, i. split; [done|]. split; [done|]. split; [done|]. intros q' c k Hq Hfd.
      destruct (Huniq q x Hx q' c Hq Hfd) as [_ ->]. apply orb_false_iff in Hw as [? ?]. by destruct k.
  - exists false, i. unfold IOManager.CancelAll. rewrite bind_mget, decide_True by done. split; [done|].
    split; [done|]. split; [done|]. intros q c k Hc Hfd.
    destruct (IOManager.wf_heap _ Hi _ _ Hc) as (_ & _ & _ & Hp). apply lookup_lt_Some in Hp. lia.
Qed.

Lemma CancelEvent_wakes i f k : IOManager.wf i → 0 ≤ f → ∃ b i',
  IOManager.CancelEvent true f (IOManager.event_of k) i = (Ok b, i') ∧ IOManager.wf i' ∧ wakes i i'.
Proof.
  intros Hi Hf. destruct (IOManager.context_dec i f Hi Hf) as [(q & x & Hx)|Hl].
  - rewrite (IOManager.CancelEvent_ok i f q x Hi Hx true k), andb_true_r.
    destruct (waits k x) eqn:Hk; [|by exists false, i]. do 2 eexists. split; [reflexivity|].
    split; [apply (IOManager.dropped_wf i q x k true); [done|apply Hx|done]|]. apply wakes_dropped. apply Hx.
  - exists false, i. unfold IOManager.CancelEvent. by rewrite bind_mget, decide_True by done.
Qed.

(** What the kernel reports about one context. *)
Lemma handle_event_wakes i p c reported : IOManager.wf i → IOManager.heap i !! p = Some c →
  IOManager.reported_ok reported c → ∃ i', IOManager.handle_event true p reported i = (Ok tt, i') ∧
  IOManager.wf i' ∧ wakes i i'.
Proof.
  intros Hi Hc Hr. rewrite (IOManager.handle_event_ok true i p c reported Hi Hc Hr), andb_true_r.
  eexists. split; [reflexivity|]. case_match; [|done]. split; [by apply IOManager.fired_wf|by apply wakes_fired].
Qed.

(** The first part of [AddEvent] makes contexts at which nobody waits. *)
Lemma AddEvent_context_waits i f p i' : IOManager.wf i → 0 ≤ f → IOManager.AddEvent_context f i = (Ok p, i') →
  ∀ q c k, IOManager.heap i' !! q = Some c → waits k c = true → IOManager.heap i !! q = Some c.
Proof.
  intros Hi Hf. unfold IOManager.AddEvent_context. rewrite bind_mget. case_decide as Hlen.
  - destruct (IOManager.context_exists i f Hi ltac:(lia)) as (p' & c' & Hctx).
    rewrite (IOManager.context_at_ok _ _ _ _ Hctx). by intros [= _ <-].
  - pose proof (IOManager.wf_size _ Hi) as Hsz.
    assert (f + f / 2 ≤ f * 3 / 2) by (rewrite <- Z.div_add_l by lia; apply Z.div_le_mono; lia).
    assert (16 ≤ f / 2) by (apply Z.div_le_lower_bound; lia).
    destruct (IOManager.ContextResize_wf i (f * 3 / 2) Hi ltac:(lia)) as (i1 & Hr & Hi1 & Hg & _).
    rewrite (bind_ok _ _ _ _ _ Hr). intros Hat.
    assert (i' = i1) as ->.
    { revert Hat. unfold IOManager.context_at. rewrite bind_mget. repeat case_match; by intros [=]. }
    intros q c k Hq Hk. destruct (IOManager.wf_heap _ Hi1 _ _ Hq) as (_ & _ & _ & Ht).
    destruct (decide (Z.to_nat (IOManager.fd c) < length (IOManager.fd_contexts_ i))%nat) as [Hlt|Hge].
    + destruct (lookup_lt_is_Some_2 _ _ Hlt) as [q' Hq']. pose proof (IOManager.grown_table _ _ Hg _ _ Hq') as Ht'.
      rewrite Ht in Ht'. injection Ht' as <-. destruct (IOManager.wf_table _ Hi _ _ Hq') as (c' & Hc' & _).
      pose proof (IOManager.grown_heap _ _ Hg _ _ Hc'). congruence.
    + pose proof (lookup_lt_Some _ _ _ Ht).
      destruct (IOManager.grown_new _ _ Hg (Z.to_nat (IOManager.fd c))) as (q' & Hq' & Hc'); [lia|].
      rewrite Ht in Hq'. injection Hq' as <-. rewrite Hq in Hc'. injection Hc' as Hc'. exfalso. revert Hk. unfold waits. rewrite bool_decide_eq_true, Hc'. destruct k; by intros [? [=]].
Qed.

(** Who is registered is in the list of registrations. *)
Lemma waits_regs i q c k r : IOManager.heap i !! q = Some c → registration k c = Some r → r ∈ regs (IOManager.heap i).
Proof.
  intros Hq Hr. unfold regs. apply list_elem_of_bind. exists (q, c). split; [|by apply elem_of_map_to_list].
  unfold IOManager.reg_of. simpl. rewrite elem_of_app. destruct k; rewrite Hr; [left|right]; by left.
Qed.

Lemma regs_waits i r : r ∈ regs (IOManager.heap i) → ∃ q c k, IOManager.heap i !! q = Some c ∧ waits k c = true ∧
  registration k c = Some r.
Proof.
  unfold regs. intros ([q c] & Hr & Hq%elem_of_map_to_list)%list_elem_of_bind. exists q, c.
  unfold IOManager.reg_of in Hr. simpl in Hr. rewrite elem_of_app in Hr.
  assert (∀ k, r ∈ option_list (registration k c) → registration k c = Some r) as Hk.
  { intros k. destruct (registration k c) as [x|]; [by intros ->%list_elem_of_singleton|by intros ?%not_elem_of_nil]. }
  assert (∀ k, registration k c = Some r → waits k c = true) as Hw.
  { intros k Hkr. apply not_false_is_true. intros Hf. by rewrite (IOManager.not_waits_registration _ _ Hf) in Hkr. }
  destruct Hr as [Hr|Hr]; apply Hk in Hr; eexists; split_and!; eauto.
Qed.

(** ** The hooked calls *)

(** Every registration is at a descriptor that has a context. *)
Definition covered (i : IOManager) (m : FdManager.FdManager) : Prop :=
  ∀ q c k, IOManager.heap i !! q = Some c → waits k c = true → is_Some (FdManager.lookup_fd m (IOManager.fd c)).

(** The system is valid, and what waited in [i0] waits or was woken. *)
Definition frozen (i0 : IOManager) (w : HW) : Prop :=
  hw_valid w ∧ ∃ i, iom (world w) = Some i ∧ wakes i0 i ∧ covered i (fds (world w)).

(** A call that leaves the IO manager alone and forgets no context. *)
Definition same (w w' : HW) : Prop :=
  iom (world w') = iom (world w) ∧
  ∀ fd, 0 ≤ fd → is_Some (FdManager.lookup_fd (fds (world w)) fd) → is_Some (FdManager.lookup_fd (fds (world w')) fd).

Lemma frozen_wf i0 w : frozen i0 w → ∃ i, iom (world w) = Some i ∧ IOManager.wf i ∧ wakes i0 i ∧ covered i (fds (world w)).
Proof.
  intros [Hw (i & Hi & ? & ?)]. destruct (HookNet.t_iom _ Hw) as (i' & Hi' & Hwf). rewrite Hi in Hi'.
  injection Hi' as <-. by exists i.
Qed.

Lemma frozen_same i0 w w' : same w w' → hw_valid w' → frozen i0 w → frozen i0 w'.
Proof.
  intros [Hs Hl] Hv Hf. split; [done|]. destruct (frozen_wf _ _ Hf) as (i & Hi & Hwf & Hw & Hc). exists i.
  rewrite Hs. split; [done|]. split; [done|]. intros q c k Hq Hk. apply Hl; [|by eapply Hc].
  apply (IOManager.wf_heap _ Hwf _ _ Hq).
Qed.

Section calls.
Context {K : Kernel} {KL : KernelLaws}.

Lemma quiet_frozen {A} i0 (m : M HW A) : quiet hw_valid is_open m →
  (∀ w a w', hw_valid w → m w = (Ok a, w') → same w w') → quiet (frozen i0) is_open m.
Proof using.
  intros Hm Hs w Hw. destruct (Hm w (proj1 Hw)) as (a & w' & Hr & Hv & Ho). exists a, w'. split; [done|].
  split; [|done]. apply (frozen_same i0 w); [|done|done]. eapply Hs; [apply Hw|exact Hr].
Qed.

Lemma opens_frozen i0 (m : M HW Z) : opens hw_valid is_open m →
  (∀ w a w', hw_valid w → m w = (Ok a, w') → same w w') → opens (frozen i0) is_open m.
Proof using.
  intros Hm Hs w Hw. destruct (Hm w (proj1 Hw)) as (a & w' & Hr & Hv & Ho). exists a, w'. split; [done|].
  split; [|done]. apply (frozen_same i0 w); [|done|done]. eapply Hs; [apply Hw|exact Hr].
Qed.

Lemma Get_keeps m k a fd x m' : FdManager.wf m → 0 ≤ fd → FdManager.Get k a fd true m = (Ok x, m') →
  ∀ fd', 0 ≤ fd' → is_Some (FdManager.lookup_fd m fd') → is_Some (FdManager.lookup_fd m' fd').
Proof using.
  intros Hm Hfd. unfold FdManager.Get. rewrite (bind_ok _ _ _ _ _ (FdManager.Get_read_ok m fd true Hfd)).
  destruct (FdManager.lookup_fd m fd); [by intros [= _ <-]|].
  destruct (FdManager.Get_write_ok m k a fd Hm Hfd) as (m1 & -> & _ & _ & Hl). intros [= _ <-] fd' Hfd' Hs.
  rewrite Hl by done. by case_decide.
Qed.

Lemma socket_same w fd w' : hw_valid w → HookNet.hk_socket w = (Ok fd, w') → same w w'.
Proof using All.
  intros Hw. unfold HookNet.hk_socket, Hook.socket. cbn [negb].
  destruct (socket_new (calls w) (is_open w)) as [->|[Hfd _]].
  - rewrite !decide_True by done. by intros [= _ <-].
  - rewrite decide_False by lia.
    destruct (FdManager.Get (HookNet.new_fd (calls w)) (HookNet.new_ctx w) (k_socket_fd (calls w) (is_open w)) true
      (fds (world w))) as [[x|e] m] eqn:Hg; [|rewrite (bind_err _ _ _ _ _ Hg); by intros [=]].
    rewrite (bind_ok _ _ _ _ _ Hg). cbn [mret M_ret]. rewrite decide_False by lia. intros [= _ <-].
    split; [done|]. by eapply Get_keeps; [apply (HookNet.t_fds _ Hw)| |exact Hg].
Qed.

Lemma accept_same fd w n w' : hw_valid w → HookNet.hk_accept fd w = (Ok n, w') → same w w'.
Proof using.
  intros Hw. unfold HookNet.hk_accept. destruct (HookNet.ctx_of fd w) as [ctx|]; [|done].
  destruct (k_accept _ _ _) as [script waits]. unfold Hook.accept.
  destruct (Hook.do_io _ _ _ _ _ _) as [[[[a err]|] log]|]; [|done..]. case_decide as Ha.
  - destruct (FdManager.Get _ _ _ _ _) as [[x|e] m] eqn:Hg; [|done]. rewrite decide_False by lia.
    intros [= _ <-]. split; [done|]. by eapply Get_keeps; [apply (HookNet.t_fds _ Hw)| |exact Hg].
  - rewrite decide_True by lia. by intros [= _ <-].
Qed.

Lemma setsockopt_same fd l o v w a w' : hw_valid w → HookNet.hk_setsockopt fd l o v w = (Ok a, w') → same w w'.
Proof using.
  intros Hw. unfold HookNet.hk_setsockopt. destruct v as [v|sec usec]; [case_match; [by intros [= _ <-]|done]|].
  unfold Hook.setsockopt. cbn [negb]. case_decide; [|by intros [= _ <-]].
  destruct (Hook.get_ctx fd (world w)) as [[[p c]|]|]; simpl; try done; by intros [= _ <-].
Qed.

Lemma transfer_same send fd w a w' : HookNet.hk_transfer send fd w = (Ok a, w') → same w w'.
Proof using.
  unfold HookNet.hk_transfer. destruct (HookNet.ctx_of fd w) as [ctx|]; [|done].
  destruct (k_transfer _ _) as [script waits]. destruct (if send then _ else _) as [[[x|] log]|]; [|done..].
  by intros [= _ <-].
Qed.

(** A call on the IO manager. *)
Lemma on_iom_frozen {A} i0 (m : nat → M IOManager A) :
  (∀ t i, IOManager.wf i → ∃ a i', m t i = (Ok a, i') ∧ IOManager.wf i' ∧ wakes i i') →
  quiet (frozen i0) is_open (λ w, HookNet.on_iom (m (calls w)) w).
Proof using.
  intros Hm w Hw. destruct (frozen_wf _ _ Hw) as (i & Hi & Hwf & Hk & Hc). destruct Hw as [Hw _].
  unfold HookNet.on_iom. rewrite Hi. destruct (Hm (calls w) i Hwf) as (a & i' & -> & Hwf' & Hk').
  do 2 eexists. split; [reflexivity|]. split; [|done]. split.
  - constructor; simpl; [apply (HookNet.t_fds _ Hw)|apply (HookNet.t_ctx _ Hw)|apply (HookNet.t_open _ Hw)|by exists i'].
  - exists i'. split; [done|]. split; [by etrans|]. intros q c' k Hq Hwt.
    destruct (k_heap _ _ Hk' q c' Hq) as (c & Hcq & -> & Hcw). eapply Hc; [exact Hcq|by apply Hcw].
Qed.

Section ctl.
(** [epoll_ctl] takes back what was registered; registering may fail. *)
Context (ctl_ok : ∀ t, k_ctl t false = true).

Lemma close_frozen i0 fd w : frozen i0 w → fd ∈ is_open w → ∃ r w', HookNet.hk_close fd w = (Ok r, w') ∧
  frozen i0 w' ∧ is_open w' = is_open w ∖ {[fd]}.
Proof using All.
  intros Hw Hin. destruct (HookNet.close_ok (world w) fd (k_ctl (calls w) false) (proj1 Hw) Hin) as (r & w' & Hr & Hv & Ho).
  exists r, (HookNet.mkHW w' (S (calls w))). unfold HookNet.hk_close. rewrite Hr. split; [done|]. split; [|unfold is_open; simpl; rewrite Ho; apply dom_delete_L].
  split; [exact Hv|]. destruct (frozen_wf _ _ Hw) as (i & Hi & Hwf & Hk & Hc). destruct Hw as [Hw _].
  pose proof (HookNet.t_open _ Hw fd Hin) as Hfd. simpl. revert Hr. unfold Hook.close. cbn [negb].
  destruct (HookNet.get_ctx_total (world w) fd Hw ltac:(lia)) as [(p & c & _ & -> & _)|[-> _]]; simpl.
  - rewrite Hi, ctl_ok. destruct (CancelAll_wakes i fd Hwf Hfd) as (b & i' & -> & Hwf' & Hk' & Hfree). simpl.
    destruct (FdManager.Del_ok (fds (world w)) fd (HookNet.t_fds _ Hw) Hfd) as (m' & -> & _ & _ & Hl). simpl.
    unfold Hook.close_original. simpl. intros Hr.
    assert (iom w' = Some i' ∧ fds w' = m') as [-> ->] by (revert Hr; case_match; by intros [= _ <-]).
    exists i'. split; [done|]. split; [by etrans|]. intros q c' k Hq Hwt.
    destruct (k_heap _ _ Hk' q c' Hq) as (c0 & Hcq & Hf & Hcw). destruct (Hcw k Hwt) as [Hw0 _].
    rewrite Hl by (apply (IOManager.wf_heap _ Hwf' _ _ Hq)). rewrite decide_False.
    + rewrite Hf. by eapply Hc.
    + intros He. by rewrite (Hfree q c' k Hq He) in Hwt.
  - unfold Hook.close_original. intros Hr.
    assert (iom w' = iom (world w) ∧ fds w' = fds (world w)) as [-> ->] by (revert Hr; case_match; by intros [= _ <-]).
    by exists i.
Qed.

(** The interface of the sockets, with what becomes of who waits. *)
#[refine] Definition frozen_laws (i0 : IOManager) : NetLaws HW := {| valid := frozen i0; opened := is_open |}.
Proof using All.
  - intros w fd [Hw _]. apply (HookNet.t_open _ Hw).
  - intros f ty p. apply opens_frozen; [exact (@socket_opens _ _ HookNet.hook_laws f ty p)|apply socket_same].
  - intros fd Hfd. apply opens_frozen; [exact (@accept_opens _ _ HookNet.hook_laws fd Hfd)|apply accept_same].
  - intros fd w. apply close_frozen.
  - intros fd a Hfd. apply quiet_frozen; [exact (@bind_quiet _ _ HookNet.hook_laws fd a Hfd)|]. by intros w r w' _ [= _ <-].
  - intros fd a Hfd. apply quiet_frozen; [exact (@listen_quiet _ _ HookNet.hook_laws fd a Hfd)|]. by intros w r w' _ [= _ <-].
  - intros fd a t Hfd. apply quiet_frozen; [exact (@connect_quiet _ _ HookNet.hook_laws fd a t Hfd)|]. intros w r w' _. simpl. unfold HookNet.hk_connect.
    destruct (HookNet.ctx_of fd w) as [ctx|]; [|done]. destruct (k_connect (calls w) fd) as [[first waiting] so].
    destruct (match t with Some ms => _ | None => _ end) as [[result|] ?]; [|done]. by intros [= _ <-].
  - intros fd l o v Hfd Hv. apply quiet_frozen; [exact (@setsockopt_quiet _ _ HookNet.hook_laws fd l o v Hfd Hv)|apply setsockopt_same].
  - intros fd l o Hfd. apply quiet_frozen; [exact (@getsockopt_quiet _ _ HookNet.hook_laws fd l o Hfd)|]. by intros w r w' _ [= _ <-].
  - intros fd Hfd. apply quiet_frozen; [exact (@getsockname_quiet _ _ HookNet.hook_laws fd Hfd)|]. by intros w r w' _ [= _ <-].
  - intros fd Hfd. apply quiet_frozen; [exact (@getpeername_quiet _ _ HookNet.hook_laws fd Hfd)|]. by intros w r w' _ [= _ <-].
  - intros fd d fl a Hfd. apply quiet_frozen; [exact (@sendto_quiet _ _ HookNet.hook_laws fd d fl a Hfd)|]. intros w r w' _. apply transfer_same.
  - intros fd n fl Hfd. apply quiet_frozen; [exact (@recvfrom_quiet _ _ HookNet.hook_laws fd n fl Hfd)|]. intros w r w' _. simpl.
    destruct (k_data (calls w)) as [iov name].
    destruct (HookNet.hk_transfer false fd w) as [[x|] w1] eqn:Ht; [|done]. intros [= _ <-]. by eapply transfer_same.
  - intros p. apply quiet_frozen; [exact (@unlink_quiet _ _ HookNet.hook_laws p)|]. by intros w r w' _ [= _ <-].
  - intros fd Hfd. apply quiet_frozen; [exact (@fd_ctx_quiet _ _ HookNet.hook_laws fd Hfd)|]. intros w r w' _ [= _ <-]. done.
  - intros fd e Hfd He. apply (on_iom_frozen i0 (λ t, IOManager.CancelEvent (k_ctl t false) fd e)). intros t i Hi.
    rewrite ctl_ok. destruct (IOManager.is_event_of e He) as [k ->]. by apply CancelEvent_wakes.
  - intros fd Hfd. apply (on_iom_frozen i0 (λ t, IOManager.CancelAll (k_ctl t false) fd)). intros t i Hi.
    rewrite ctl_ok. destruct (CancelAll_wakes i fd Hi Hfd) as (b & i' & ? & ? & ? & _). by exists b, i'.
Defined.

End ctl.
End calls.

End Wake.
