(* ===== verification/Stack.v ===== *)
(** * A server, from its loops down to the IO manager

    [Module Stack] joins everything a server needs: the server and its functions
    ([TcpServer]), the threads they run on ([Scheduler], [ServerPool]), and the hooks, the
    table of descriptors and the IO manager under its sockets ([HookNet], [Wake]). A
    function that waits in [accept] registers in the IO manager for its socket's descriptor
    ([do_register], the [AddEvent] of [do_io]); its fiber still runs then, becomes READY
    ([YYield]) and switches away ([YSwitch]) in steps of their own, between which anything
    may happen. What fires at the descriptor ([do_event]), or its closing, schedules the
    fiber ([flush]). The IO manager is the scheduler of both workers, as it is by default.
    No listening socket has a receive timeout, so no timer belongs to a wait. A call of
    [accept] has the descriptor of its socket from the time it is made; the answers the
    kernel gives to one call are, as in [HookNet], one step.

    Parts: the sockets of the accept loops, each event of the server ([event_loops]); steps
    that neither wait nor wake ([plain_step]); the system and its invariant ([xinv]); runs.
    Theorem: nobody waits who is not registered, and a stopped server comes to its end
    ([stop_wakes_all]). It has three conditions, and the examples at the end show what
    happens without each. A fiber that was woken is not resumed before it has switched away
    ([raceless]; [woken_too_early]: the scheduler does not wait for it). Sockets are bound
    and the server is started while it has no accept loop, and who registers does so for the
    descriptor that its socket still has ([orderly]; [second_start], [late_bind]). The kernel
    does not refuse to change or delete what it has registered ([never_forgotten]; it may
    refuse to register, [refused]). *)

From stdpp Require Import gmap sets.
From S2P Require Import Prelude Endian Fiber Scheduler FdManager IOManager Hook Address Socket TcpServer.
From S2P Require Import ServerPool HookNet Wake.
Import Endian.

Module Stack.
Import Scheduler(ScheduleTask, task_of_fiber, task_of_cb, fiber, tasks_, sched, pcs, held, PRun).
Import ServerPool(srv, pool, accepts, clients, parked_, index_of, YBind, YStart, YStop, YStopPool, YTake, YResume,
  YIdle, YRun, YRegister, YYield, YSwitch, YWake).
#[local] Existing Instance Scheduler.ScheduleTask_eq_dec.
#[local] Existing Instance Wake.wakes_preorder.

Local Open Scope Z_scope.

(** ** The sockets of the accept loops *)

Section loops.
Context {W : Type} `{!Net W} (host : endian) `{!NetLaws W}.
Implicit Types (st : TcpServer.State (W := W)) (p q : nat).

(** The sockets that loops are in, one for each loop. *)
Definition loops st : list nat := TcpServer.accept_worker st ≫= TcpServer.task_socks.

Definition closed p st : Prop := ∃ s, TcpServer.heap st !! p = Some s ∧ Socket.sock_ s = -1.

(** Each loop has a socket of its own, which the server still has or has closed. *)
Record loops_ok st : Prop := {
  o_nodup : NoDup (loops st);
  o_socks p : p ∈ loops st → p ∈ TcpServer.socks_ (TcpServer.server st) ∨ closed p st
}.

(** A socket is as it was, or was closed; then nobody has its descriptor. *)
Definition kept p st st' : Prop :=
  TcpServer.heap st' !! p = TcpServer.heap st !! p ∨
  closed p st' ∧ ∀ s, TcpServer.heap st !! p = Some s → Socket.sock_ s ≠ -1 → Socket.sock_ s ∉ opened (TcpServer.world st').

Lemma kept_closed p st st' : TcpServer.heap st' !! p = TcpServer.heap st !! p → closed p st → closed p st'.
Proof using. intros Hp (s & Hs & ?). exists s. by rewrite Hp. Qed.

Lemma loops_referenced p st : p ∈ loops st → TcpServer.referenced p st.
Proof using. intros Hp. right. by left. Qed.

(** [release] destroys only what nobody refers to. *)
Lemma release_keeps p q st r st' : TcpServer.release p st = (r, st') → TcpServer.referenced q st →
  TcpServer.heap st' !! q = TcpServer.heap st !! q ∧ TcpServer.referenced q st' ∧ loops st' = loops st.
Proof using.
  unfold TcpServer.release. case_decide as Hp; [by intros [= _ <-]|].
  destruct (TcpServer.heap st !! p) as [x|] eqn:Hx; [|by intros [= _ <-]]. intros Hr Hq.
  assert (p ≠ q) as Hpq by (by intros ->). revert Hr. unfold TcpServer.deref. rewrite Hx.
  destruct (Socket.destruct _) as [[u|e] [y w]]; intros [= _ <-]; simpl.
  - by rewrite delete_insert_eq, lookup_delete_ne.
  - by rewrite lookup_insert_ne.
Qed.

Lemma release_server p st r st' : TcpServer.release p st = (r, st') → TcpServer.server st' = TcpServer.server st.
Proof using.
  unfold TcpServer.release. case_decide; [by intros [= _ <-]|].
  destruct (TcpServer.heap st !! p) as [x|] eqn:Hx; [|by intros [= _ <-]]. unfold TcpServer.deref. rewrite Hx.
  destruct (Socket.destruct _) as [[u|e] [y w]]; by intros [= _ <-].
Qed.

Lemma release_all_keeps ps : ∀ q st r st', TcpServer.release_all ps st = (r, st') → TcpServer.referenced q st →
  TcpServer.heap st' !! q = TcpServer.heap st !! q.
Proof using.
  induction ps as [|p ps IH]; intros q st r st'; simpl; [by intros [= _ <-]|].
  destruct (TcpServer.release p st) as [[u|e] st1] eqn:Hr; intros Hst Hq;
    destruct (release_keeps p q st _ _ Hr Hq) as (H1 & H2 & _).
  - rewrite (bind_ok _ _ _ _ _ Hr) in Hst. rewrite <- H1. by eapply IH.
  - rewrite (bind_err _ _ _ _ _ Hr) in Hst. by injection Hst as _ <-.
Qed.

Lemma clear_socks_keeps q st r st' : TcpServer.clear_socks st = (r, st') → q ∈ loops st → TcpServer.heap st' !! q = TcpServer.heap st !! q.
Proof using.
  unfold TcpServer.clear_socks. rewrite TcpServer.get_bind. intros Hr Hq.
  change (TcpServer.release_all (TcpServer.socks_ (TcpServer.server st)) (TcpServer.set_server (TcpServer.set_socks_ []) st) = (r, st')) in Hr.
  by apply (release_all_keeps _ q _ _ _ Hr), loops_referenced.
Qed.

(** [Stop]'s function closes every socket of the server. *)
Lemma cancel_close_closes base ls ps : ∀ st, TcpServer.inv base ls st → NoDup ps →
  (∀ p, p ∈ ps → ∃ s, TcpServer.heap st !! p = Some s ∧ Socket.sock_ s ≠ -1) → ∃ h w,
  TcpServer.cancel_close ps st = (Ok tt, TcpServer.with_heap h w st) ∧ TcpServer.inv base ls (TcpServer.with_heap h w st) ∧
  (∀ q, q ∈ ps → closed q (TcpServer.with_heap h w st)) ∧ ∀ q, q ∉ ps → h !! q = TcpServer.heap st !! q.
Proof using.
  induction ps as [|p ps IH]; intros st Hi Hnd Hps; simpl.
  { exists (TcpServer.heap st), (TcpServer.world st). destruct st. split; [done|]. split; [done|].
    split; [by intros q ?%not_elem_of_nil|done]. }
  apply NoDup_cons in Hnd as [Hp Hnd]. destruct (Hps p) as (s & Hs & Hsock); [by left|].
  destruct (TcpServer.deref_inv _ _ _ _ _ _ Hi Hs (Socket.CancelAll_keeps s Hsock)) as (b & s1 & w1 & Hr1 & _ & Hok1 & Hi1).
  rewrite (bind_ok _ _ _ _ _ Hr1). set (st1 := TcpServer.put p s1 w1 st) in *.
  assert (TcpServer.heap st1 !! p = Some s1) as Hs1 by (simpl; apply lookup_insert_eq).
  destruct (TcpServer.deref_inv _ _ _ _ _ _ Hi1 Hs1 (Socket.close_keeps _)) as (c & s2 & w2 & Hr2 & Hc2 & Hok2 & Hi2).
  destruct (Socket.close_spec s1 w1 Hok1) as (w2' & b' & Hc2' & _). change (TcpServer.world st1) with w1 in Hc2.
  rewrite Hc2' in Hc2. injection Hc2 as <- <- <-. set (s2 := Socket.set_sock_ _ _) in *.
  assert (TcpServer.close_sock p st1 = (Ok tt, TcpServer.put p s2 w2' st1)) as Hr2'
    by (unfold TcpServer.close_sock; by rewrite (bind_ok _ _ _ _ _ Hr2)).
  rewrite (bind_ok _ _ _ _ _ Hr2'). set (st2 := TcpServer.put p s2 w2' st1) in *.
  assert (∀ q, q ≠ p → TcpServer.heap st2 !! q = TcpServer.heap st !! q) as Hother by (intros q Hq; simpl; by rewrite !lookup_insert_ne).
  destruct (IH st2 Hi2 Hnd) as (h & w & Hr3 & Hi3 & Hcl & Hh).
  { intros q Hq. rewrite Hother by congruence. apply Hps. by right. }
  exists h, w. split; [exact Hr3|]. split; [exact Hi3|]. split.
  - intros q [->|Hq]%elem_of_cons; [|by apply Hcl]. exists s2. simpl. rewrite Hh by done.
    split; [simpl; apply lookup_insert_eq|done].
  - intros q [Hq Hqs]%not_elem_of_cons. by rewrite Hh, Hother.
Qed.

(** The descriptor of a socket that is closed: the others keep theirs or lose them. *)
Lemma closed_unused base st st' p s : TcpServer.inv base [] st → TcpServer.inv base [] st' →
  TcpServer.heap st !! p = Some s → Socket.sock_ s ≠ -1 →
  (∀ q x, TcpServer.heap st' !! q = Some x → Socket.sock_ x = -1 ∨ q ≠ p ∧ TcpServer.heap st !! q = Some x) →
  Socket.sock_ s ∉ opened (TcpServer.world st').
Proof using.
  intros Hi Hi' Hs Hn Hheap Hin. pose proof (TcpServer.i_ledger _ _ _ Hi) as Hl.
  assert (Socket.sock_ s ∈ Socket.own s) as Hown by (unfold Socket.own; rewrite decide_False by done; set_solver).
  apply (TcpServer.inv_opened _ _ _ Hi') in Hin as [Hb|(q & x & Hx & Hf & _)].
  - pose proof (Socket.l_own _ _ _ Hl _ _ Hs). set_solver.
  - destruct (Hheap q x Hx) as [?|[Hq Hx']]; [congruence|].
    pose proof (Socket.l_disjoint _ _ _ Hl _ _ _ _ Hq Hx' Hs) as Hd.
    assert (Socket.sock_ s ∈ Socket.own x); [|set_solver].
    unfold Socket.own. rewrite Hf, decide_False by done. set_solver.
Qed.

Lemma delete_close n st : TcpServer.accept_worker st !! n = Some TcpServer.TClose →
  loops (TcpServer.set_accept_worker (delete n (TcpServer.accept_worker st)) st) = loops st.
Proof using.
  unfold loops. simpl. generalize (TcpServer.accept_worker st) as l. clear st. revert n.
  intros n l. revert n. induction l as [|t l IH]; intros [|n] Hn; simplify_eq/=; [done|]. by rewrite IH.
Qed.

(** The last step of [Stop]'s function. *)
Lemma TClose_loops base st n : TcpServer.good base st → loops_ok st → TcpServer.accept_worker st !! n = Some TcpServer.TClose →
  ∃ st', TcpServer.exec host (TcpServer.ETask n) st = (Ok tt, st') ∧ loops_ok st' ∧ loops st' = loops st ∧
    TcpServer.socks_ (TcpServer.server st') = [] ∧ ∀ p, p ∈ loops st → kept p st st'.
Proof using.
  intros [Hi Hl] [Hnd Hso] Hn. destruct (TcpServer.TClose_spec host base st n Hi Hl Hn) as (st' & Hr & Hi' & Hsv & Ha & Hio).
  exists st'. split; [exact Hr|]. unfold TcpServer.step_task in Hr. rewrite TcpServer.get_bind, Hn in Hr.
  unfold TcpServer.run_task in Hr. cbv zeta in Hr.
  destruct (cancel_close_closes base [] _ st Hi (TcpServer.i_nodup _ _ _ Hi) Hl) as (h & w & Hr1 & Hi1 & Hcl & Hh).
  set (st1 := TcpServer.with_heap h w st) in *.
  assert ((mgets (λ st, TcpServer.socks_ (TcpServer.server st)) : TcpServer.TM (list nat)) st =
    (Ok (TcpServer.socks_ (TcpServer.server st)), st)) as Hg by done.
  rewrite (bind_ok _ _ _ _ _ Hg), (bind_ok _ _ _ _ _ Hr1) in Hr.
  destruct (TcpServer.clear_socks_inv base [] st1 Hi1) as (h2 & w2 & Hr2 & _ & Hh2); [intros p _; apply not_elem_of_nil|].
  rewrite (bind_ok _ _ _ _ _ Hr2) in Hr. set (st2 := TcpServer.with_heap h2 w2 _) in *.
  assert (st' = TcpServer.set_accept_worker (delete n (TcpServer.accept_worker st2)) st2) as -> by (by injection Hr as <-).
  assert (∀ q, q ∈ loops st → h2 !! q = h !! q) as Hkeep by (intros q Hq; exact (clear_socks_keeps q st1 _ _ Hr2 Hq)).
  pose proof (delete_close n st Hn) as Hloops.
  set (st' := TcpServer.set_accept_worker _ st2) in *. change (loops st' = loops st) in Hloops.
  assert (∀ p, p ∈ loops st → closed p st') as Hclosed.
  { intros p Hp. assert (closed p st1) as Hc1.
    { destruct (decide (p ∈ TcpServer.socks_ (TcpServer.server st))) as [Hps|Hps]; [by apply Hcl|].
      destruct (Hso p Hp) as [?|Hc]; [done|]. eapply kept_closed; [|exact Hc]. simpl. by apply Hh. }
    eapply kept_closed; [|exact Hc1]. simpl. by apply Hkeep. }
  split; [|split; [done|split; [done|]]].
  - split; rewrite Hloops; [done|]. intros p Hp. right. by apply Hclosed.
  - intros p Hp. right. split; [by apply Hclosed|]. intros s Hs Hsn.
    apply (closed_unused base st st' p s Hi Hi' Hs Hsn). intros q x Hx. simpl in Hx.
    assert (h !! q = Some x) as Hx1.
    { destruct (decide (q ∈ TcpServer.socks_ (TcpServer.server st1))) as [Hq|Hq]; [|by rewrite Hh2 in Hx].
      assert (TcpServer.referenced q st2) as Hq2.
      { assert (TcpServer.referenced q st' ∨ q ∈ []) as [Hq'|[]%not_elem_of_nil].
        { apply (TcpServer.i_owned _ _ _ Hi'). simpl. by eexists. }
        destruct Hq' as [?|[Hq'|?]]; [by left| |by right; right]. right. left. change (q ∈ loops st') in Hq'.
        by rewrite Hloops in Hq'. }
      unfold TcpServer.clear_socks in Hr2. rewrite TcpServer.get_bind in Hr2. rewrite <- Hx. symmetry.
      apply (release_all_keeps _ q (TcpServer.set_server (TcpServer.set_socks_ []) st1) _ _ Hr2). exact Hq2. }
    destruct (decide (q ∈ TcpServer.socks_ (TcpServer.server st))) as [Hq|Hq].
    + left. destruct (Hcl q Hq) as (y & Hy & Hy1). simpl in Hy. congruence.
    + rewrite Hh in Hx1 by done. destruct (decide (q = p)) as [->|Hqp]; [|by right]. left.
      destruct (Hclosed p Hp) as (y & Hy & Hy1). simpl in Hy. congruence.
Qed.

(** Binding and starting come before any loop. *)
Definition first_loops (e : TcpServer.event) st : Prop :=
  match e with TcpServer.EBind _ _ | TcpServer.EStart => loops st = [] | _ => True end.

Lemma loops_sub st st' : loops_ok st → NoDup (loops st') →
  (∀ p, p ∈ loops st' → p ∈ loops st ∧ TcpServer.heap st' !! p = TcpServer.heap st !! p) →
  TcpServer.server st' = TcpServer.server st → loops_ok st'.
Proof using.
  intros [_ Hso] Hnd Hh Hsv. split; [done|]. intros p Hp. rewrite Hsv. destruct (Hh p Hp) as [Hp' He].
  destruct (Hso p Hp') as [?|Hc]; [by left|]. right. by eapply kept_closed.
Qed.

Lemma loops_delete n st t : TcpServer.accept_worker st !! n = Some t →
  loops st ≡ₚ TcpServer.task_socks t ++ (delete n (TcpServer.accept_worker st) ≫= TcpServer.task_socks).
Proof using.
  unfold loops. generalize (TcpServer.accept_worker st). intros l. revert n.
  induction l as [|u l IH]; intros [|n] Hn; simplify_eq/=; [done|]. rewrite (IH n Hn).
  rewrite !(assoc_L (++)). f_equiv. apply (comm (++)).
Qed.

(** A turn of a loop touches no other loop's socket. *)
Lemma task_loops base st n : Socket.hooked_accept (W := W) → TcpServer.good base st → loops_ok st → ∃ st',
  TcpServer.exec host (TcpServer.ETask n) st = (Ok tt, st') ∧ loops_ok st' ∧
  ∀ p, p ∈ loops st' → p ∈ loops st ∧ kept p st st'.
Proof using.
  intros Hh Hg Ho. pose proof Hg as [Hi Hl]. pose proof (o_nodup _ Ho) as Hnd.
  destruct (TcpServer.accept_worker st !! n) as [[p|p fd|]|] eqn:Hn.
  - destruct (TcpServer.start_spec host base st n p Hi Hn) as (st' & Hr & _ & Hsv & _ & Hheap & Hc). exists st'.
    split; [exact Hr|]. clear Hr. destruct (TcpServer.is_stop_ (TcpServer.server st)).
    + pose proof (loops_delete n st _ Hn) as Hp. rewrite <- Hc in Hp. fold (loops st') in Hp.
      rewrite Hp in Hnd. simpl in Hnd. apply NoDup_cons in Hnd as [Hpn Hnd].
      assert (∀ q, q ∈ loops st' → q ∈ loops st ∧ TcpServer.heap st' !! q = TcpServer.heap st !! q) as Hsub.
      { intros q Hq. split; [rewrite Hp; by right|]. apply Hheap. by intros ->. }
      split; [by apply (loops_sub st)|]. intros q Hq. destruct (Hsub q Hq). split; [done|by left].
    + destruct Hc as (x & _ & ->).
      assert (loops (TcpServer.set_accept_worker (<[n:=TcpServer.TAccepting p (Socket.sock_ x)]> (TcpServer.accept_worker st)) st) = loops st) as Hls
        by (apply (TcpServer.bind_insert _ _ _ (TcpServer.TStartAccept p)); done).
      split; [|intros q; rewrite Hls; split; [done|by left]].
      apply (loops_sub st); [done|by rewrite Hls| |done]. intros q. by rewrite Hls.
  - destruct (TcpServer.accepting_spec host base st n p fd Hh Hi Hn) as (s & r & w & st' & _ & _ & Hr & _ & Hsv & Ha & Hc).
    exists st'. split; [exact Hr|]. assert (loops st' = loops st) as Hls.
    { unfold loops. rewrite Ha. by apply (TcpServer.bind_insert _ _ _ (TcpServer.TAccepting p fd)). }
    assert (∀ q, q ∈ loops st → TcpServer.heap st' !! q = TcpServer.heap st !! q) as Hheap.
    { intros q Hq. destruct r as [c|]; [|by destruct Hc as (_ & -> & _)]. destruct Hc as (_ & _ & _ & ->).
      rewrite lookup_insert_ne; [done|]. intros <-.
      destruct (TcpServer.fresh_referenced base [] st (TcpServer.next_ptr st) Hi ltac:(lia)) as [Hnr _].
      by apply Hnr, loops_referenced. }
    split; [|intros q; rewrite Hls; intros Hq; split; [done|left; by apply Hheap]].
    apply (loops_sub st); [done|by rewrite Hls| |done]. intros q. rewrite Hls. auto.
  - destruct (TClose_loops base st n Hg Ho Hn) as (st' & Hr & Ho' & Hls & _ & Hk). exists st'. split; [exact Hr|].
    split; [done|]. intros q. rewrite Hls. intros Hq. split; [done|by apply Hk].
  - exists st. cbn [TcpServer.exec]. unfold TcpServer.step_task. rewrite TcpServer.get_bind, Hn. split; [done|].
    split; [done|]. intros q Hq. split; [done|by left].
Qed.

Lemma event_loops base e st : Socket.hooked_accept (W := W) → TcpServer.event_ok e = true → TcpServer.good base st →
  loops_ok st → first_loops e st → ∃ st', TcpServer.exec host e st = (Ok tt, st') ∧ loops_ok st' ∧
  ∀ p, p ∈ loops st' → p ∈ loops st ∧ kept p st st' ∨ e = TcpServer.EStart.
Proof using.
  intros Hh He Hg Ho Hfst. destruct e as [addrs fails| | |n|n]; [| | | |]; cbn [TcpServer.exec].
  - destruct (TcpServer.bind_all_spec host base addrs st (proj1 Hg) He fails) as (failed & st' & new & Hb & _ & (Ha & _) & _).
    rewrite (bind_ok _ _ _ _ _ Hb). exists st'. split; [done|]. cbn [first_loops] in Hfst.
    assert (loops st' = []) as Hls by (unfold loops in *; by rewrite Ha).
    split; [split; rewrite Hls; [constructor|by intros ? ?%not_elem_of_nil]|]. intros p. rewrite Hls.
    by intros ?%not_elem_of_nil.
  - cbn [first_loops] in Hfst.
    destruct (TcpServer.Start_spec st) as [Hb|Hb]; rewrite (bind_ok _ _ _ _ _ Hb).
    + exists st. split; [done|]. split; [done|]. by right.
    + eexists. split; [reflexivity|]. split; [|by right].
      assert (loops (TcpServer.started st) = TcpServer.socks_ (TcpServer.server st)) as Hls.
      { unfold loops in *. simpl. rewrite bind_app, Hfst. simpl. induction (TcpServer.socks_ _) as [|p l IH]; [done|].
        simpl. f_equal. exact IH. }
      split; rewrite Hls; [apply (TcpServer.i_nodup _ _ _ (proj1 Hg))|]. intros p Hp. by left.
  - eexists. split; [reflexivity|]. assert (loops (TcpServer.set_accept_worker (TcpServer.accept_worker st ++ [TcpServer.TClose])
      (TcpServer.set_server (TcpServer.set_is_stop_ true) st)) = loops st) as Hls.
    { unfold loops. simpl. by rewrite bind_app, app_nil_r. }
    destruct Ho as [Hnd Hso]. split; [|intros p; rewrite Hls; left; split; [done|by left]].
    split; rewrite Hls; [done|exact Hso].
  - destruct (task_loops base st n Hh Hg Ho) as (st' & Hr & Ho' & Hk). exists st'. split; [exact Hr|]. split; [done|].
    intros p Hp. left. by apply Hk.
  - destruct (TcpServer.step_client_inv base st n Hg) as (st' & Hr & _). exists st'. split; [exact Hr|].
    unfold TcpServer.step_client in Hr. rewrite TcpServer.get_bind in Hr.
    destruct (TcpServer.io_worker st !! n) as [p|]; [|injection Hr as <-; split; [done|]; intros p Hp; left; split; [done|by left]].
    change (TcpServer.release p (TcpServer.set_io_worker (delete n (TcpServer.io_worker st)) st) = (Ok tt, st')) in Hr.
    destruct (ServerPool.release_workers _ _ _ _ Hr) as [Ha _].
    assert (loops st' = loops st) as Hls by (unfold loops; by rewrite Ha).
    assert (∀ q, q ∈ loops st → TcpServer.heap st' !! q = TcpServer.heap st !! q) as Hheap.
    { intros q Hq. assert (TcpServer.referenced q (TcpServer.set_io_worker (delete n (TcpServer.io_worker st)) st)) as Hq'
        by (right; by left). exact (proj1 (release_keeps _ q _ _ _ Hr Hq')). }
    split; [|intros q; rewrite Hls; intros Hq; left; split; [done|left; by apply Hheap]].
    apply (loops_sub st); [done|rewrite Hls; apply Ho|intros q; rewrite Hls; auto|]. 
    by rewrite (release_server _ _ _ _ Hr).
Qed.

End loops.

(** ** Steps of the pool that neither register nor wake anybody *)

Section plain_steps.
Context {W : Type} `{!Net W} (host : endian) `{!NetLaws W}.
#[local] Abbreviation Sys := (ServerPool.Sys (W := W)).
Implicit Types s : Sys.

Definition plain (l : ServerPool.label) : bool := match l with YRegister _ _ | YWake _ => false | _ => true end.

(** The event of the server that a step is. *)
Definition event_of (l : ServerPool.label) (e : TcpServer.event) : Prop :=
  match l, e with
  | YBind addrs fails, TcpServer.EBind addrs' fails' => addrs' = addrs
  | YStart, TcpServer.EStart | YStop, TcpServer.EStop | YRun _, TcpServer.ETask _ | YRun _, TcpServer.EClient _ => True
  | _, _ => False
  end.

(** The function [t] is in [accept] on the socket [p], called with the descriptor [fd]. *)
Definition accepting s (t : ScheduleTask) (p : nat) (fd : Z) : Prop :=
  ∃ n, accepts s !! n = Some t ∧ TcpServer.accept_worker (srv s) !! n = Some (TcpServer.TAccepting p fd).

(** Who waits in [accept] stays there. *)
Definition follows s s1 : Prop := ∀ t p fd, t ∈ parked_ s → accepting s t p fd → accepting s1 t p fd.

Lemma act_inv e acc cli ls s s1 : ServerPool.act host e acc cli ls s = Some (Ok s1) →
  TcpServer.exec host e (srv s) = (Ok tt, srv s1) ∧ parked_ s1 = parked_ s ∧ ∃ na, accepts s1 = acc ++ na.
Proof using.
  unfold ServerPool.act. destruct (TcpServer.exec host e (srv s)) as [[[]|] srv']; [|done].
  destruct (Scheduler.do_all _ _) as [[p|]|]; try done. intros [= <-]. simpl. eauto.
Qed.

Lemma pool_step_inv ls acc cli park s s1 : ServerPool.pool_step ls acc cli park s = Some (Ok s1) →
  srv s1 = srv s ∧ accepts s1 = acc ∧ clients s1 = cli ∧ parked_ s1 = park.
Proof using.
  unfold ServerPool.pool_step. destruct (Scheduler.do_all _ _) as [[p|]|]; try done. by intros [= <-].
Qed.

Lemma running_not_parked base s i t : ServerPool.sinv base s → ServerPool.runs i s = Some t → t ∉ parked_ s.
Proof using.
  intros Hs (m & it & Hi)%ServerPool.runs_Some Hp. pose proof (ServerPool.y_placed _ _ Hs) as Hpl.
  destruct (ServerPool.busy_one _ i m (PRun it t None) t Hi eq_refl) as (rest & Hheld & _).
  pose proof (ServerPool.p_nodup _ _ _ Hpl) as Hnd. rewrite (ServerPool.p_perm _ _ _ Hpl), Hheld in Hnd.
  apply NoDup_app in Hnd as (_ & _ & [Hnd _]%NoDup_cons). apply Hnd, elem_of_app. by right.
Qed.

Lemma lookup_delete_other {A} (l : list A) n m x y : l !! n = Some x → l !! m = Some y → m ≠ n → ∃ k,
  delete n l !! k = Some y ∧ ∀ B (l' : list B), delete n l' !! k = l' !! m.
Proof using.
  intros Hn Hm Hne. destruct (decide (m < n)%nat) as [Hlt|Hge].
  - exists m. split; [by rewrite list_lookup_delete_lt|]. intros B l'. by rewrite list_lookup_delete_lt.
  - exists (pred m). destruct m as [|m]; [lia|]. simpl. split; [by rewrite list_lookup_delete_ge by lia|].
    intros B l'. by rewrite list_lookup_delete_ge by lia.
Qed.

(** What a step leaves of the functions of the accept worker. *)
Lemma outside_worker base e st st' : TcpServer.good base st → TcpServer.event_ok e = true →
  match e with TcpServer.ETask _ | TcpServer.EClient _ => False | _ => True end →
  TcpServer.exec host e st = (Ok tt, st') → ∃ l, TcpServer.accept_worker st' = TcpServer.accept_worker st ++ l.
Proof using.
  intros Hg He Ho Hex. destruct e as [addrs fails| | |n|n]; try done; cbn [TcpServer.exec] in Hex.
  - destruct (TcpServer.bind_all_spec host base addrs st (proj1 Hg) He fails) as (failed & st1 & new & Hb & _ & (Ha & _) & _).
    rewrite (bind_ok _ _ _ _ _ Hb) in Hex. injection Hex as <-. exists []. by rewrite Ha, app_nil_r.
  - destruct (TcpServer.Start_spec st) as [Hb|Hb]; rewrite (bind_ok _ _ _ _ _ Hb) in Hex; injection Hex as <-.
    + exists []. by rewrite app_nil_r.
    + by eexists.
  - injection Hex as <-. by eexists.
Qed.

Lemma follows_pool ls acc cli park s s1 : ServerPool.pool_step ls acc cli park s = Some (Ok s1) → acc = accepts s →
  follows s s1.
Proof using. intros (Hsv & Ha & _)%pool_step_inv -> t p fd _ (n & Hn & Hf). exists n. by rewrite Ha, Hsv. Qed.

(** A function makes a step. *)
Lemma run_step base i s s1 : Socket.hooked_accept (W := W) → ServerPool.sinv base s →
  ServerPool.do_run host i s = Some (Ok s1) → parked_ s1 = parked_ s ∧ follows s s1 ∧
  ∃ e, TcpServer.event_ok e = true ∧ event_of (YRun i) e ∧ TcpServer.exec host e (srv s) = (Ok tt, srv s1).
Proof using.
  intros Hh Hs. pose proof (ServerPool.y_good _ _ Hs) as Hg.
  unfold ServerPool.do_run. destruct (ServerPool.runs i s) as [t|] eqn:Hrun; [|done]. cbn [mbind option_bind].
  pose proof (running_not_parked base s i t Hs Hrun) as Hnp.
  destruct (index_of t (accepts s)) as [n|] eqn:Hacc.
  - apply ServerPool.index_of_Some in Hacc. destruct (TcpServer.accept_worker (srv s) !! n) as [f|] eqn:Hf; [|done].
    cbn [mbind option_bind]. intros Hr.
    destruct (ServerPool.task_step host base s n f Hh Hg Hf) as (srv' & He' & _ & _ & Hlen).
    assert (∃ acc, (TcpServer.exec host (TcpServer.ETask n) (srv s) = (Ok tt, srv s1) ∧ parked_ s1 = parked_ s ∧
      ∃ na, accepts s1 = acc ++ na) ∧ acc = (if ServerPool.ends f s then delete n (accepts s) else accepts s))
      as (acc & (Hex & Hpk & na & Ha) & Hac).
    { destruct (ServerPool.ends f s); apply act_inv in Hr; by eexists. }
    rewrite Hex in He'. injection He' as <-. split; [done|].
    split; [|exists (TcpServer.ETask n); by split_and!].
    intros u p fd Hu (m & Hm & Hfm). assert (m ≠ n) as Hmn by (intros ->; congruence).
    pose proof (lookup_lt_Some _ _ _ Hf) as Hlt.
    destruct (ServerPool.ends f s).
    + destruct (lookup_delete_other _ n m _ _ Hf Hfm Hmn) as (k & Hk & Hk'). exists k. rewrite Ha, Hac, Hlen.
      split; [|done]. apply lookup_app_l_Some. by rewrite Hk'.
    + destruct Hlen as (f' & _ & Hw). exists m. rewrite Ha, Hac, Hw.
      split; [by apply lookup_app_l_Some|]. by rewrite list_lookup_insert_ne.
  - destruct (index_of t (clients s)) as [n|] eqn:Hcli; [|done]. apply ServerPool.index_of_Some in Hcli.
    intros (Hex & Hpk & na & Ha)%act_inv. split; [done|]. split; [|exists (TcpServer.EClient n); by split_and!].
    pose proof (lookup_lt_Some _ _ _ Hcli) as Hlt. rewrite (ServerPool.y_clients _ _ Hs) in Hlt.
    destruct (lookup_lt_is_Some_2 _ _ Hlt) as [p Hp'].
    destruct (ServerPool.client_step host base (srv s) n p Hg Hp') as (srv' & He' & _ & Haw & _).
    rewrite Hex in He'. injection He' as <-. intros u q fd _ (m & Hm & Hfm). exists m. rewrite Ha, Haw.
    split; [by apply lookup_app_l_Some|done].
Qed.

(** What a step leaves alone, and what it does to the server. *)
Definition plainly l s s1 : Prop := parked_ s1 = parked_ s ∧ follows s s1 ∧
  (srv s1 = srv s ∧ (∀ e, ¬ event_of l e) ∨ ∃ e, TcpServer.event_ok e = true ∧ event_of l e ∧ TcpServer.exec host e (srv s) = (Ok tt, srv s1)).

Lemma plain_step base l s s1 : Socket.hooked_accept (W := W) → ServerPool.label_ok l = true → ServerPool.sinv base s →
  plain l = true → ServerPool.step host l s = Some (Ok s1) → plainly l s s1.
Proof using.
  intros Hh Hl Hs Hp. pose proof (ServerPool.y_good _ _ Hs) as Hg.
  assert (∀ e, TcpServer.event_ok e = true → event_of l e →
    match e with TcpServer.ETask _ | TcpServer.EClient _ => False | _ => True end →
    ServerPool.act host e (accepts s) (clients s) [] s = Some (Ok s1) → plainly l s s1) as Hout.
  { intros e He Hle Ho (Hex & Hpk & na & Ha)%act_inv. split; [done|]. split; [|right; by exists e].
    destruct (outside_worker base e _ _ Hg He Ho Hex) as [la Hla]. intros t p fd _ (n & Hn & Hf). exists n.
    rewrite Ha, Hla. split; by apply lookup_app_l_Some. }
  assert (∀ ls, (∀ e, ¬ event_of l e) → ServerPool.pool_step ls (accepts s) (clients s) (parked_ s) s = Some (Ok s1) →
    plainly l s s1) as Hpool.
  { intros ls Hno Hr. pose proof (follows_pool _ _ _ _ _ _ Hr eq_refl). apply pool_step_inv in Hr as (? & _ & _ & ?).
    split; [done|]. split; [done|by left]. }
  destruct l as [addrs fails| | | |i|i|i|i|i f|i|i|n]; try done; cbn [ServerPool.step];
    [by apply (Hout (TcpServer.EBind addrs fails))|by apply (Hout TcpServer.EStart)|by apply (Hout TcpServer.EStop)
    |apply Hpool; intros [] Hno; exact Hno|apply Hpool; intros [] Hno; exact Hno|apply Hpool; intros [] Hno; exact Hno
    |apply Hpool; intros [] Hno; exact Hno| |destruct (ServerPool.yields i s); [|done]|]; [|apply Hpool; intros [] Hno; exact Hno..].
  intros Hr. destruct (run_step base i s s1 Hh Hs Hr) as (? & ? & ?). split; [done|]. split; [done|by right].
Qed.

(** A function that registers leaves the server alone. *)
Lemma register_inv base i f s s1 : ServerPool.sinv base s → ServerPool.step host (YRegister i f) s = Some (Ok s1) → ∃ t n p fd,
  ServerPool.runs i s = Some t ∧ index_of t (accepts s) = Some n ∧
  TcpServer.accept_worker (srv s) !! n = Some (TcpServer.TAccepting p fd) ∧ srv s1 = srv s ∧
  accepts s1 = <[n := task_of_fiber (Some f) (-1)]> (accepts s) ∧ clients s1 = clients s ∧
  parked_ s1 = parked_ s ++ [task_of_fiber (Some f) (-1)].
Proof using.
  intros Hs. cbn [ServerPool.step]. unfold ServerPool.do_register. destruct (ServerPool.runs i s) as [t|]; [|done].
  cbn [mbind option_bind]. destruct (index_of t (accepts s)) as [n|] eqn:Hn; [|done]. cbn [mbind option_bind].
  destruct (TcpServer.accept_worker (srv s) !! n) as [[|p fd|]|] eqn:Hf; try done. cbv zeta.
  intros (Hsv & Ha & Hc & Hpk)%pool_step_inv. exists t, n, p, fd. by split_and!.
Qed.

Lemma loops_index st n m p fd fd' : NoDup (loops st) → TcpServer.accept_worker (W := W) st !! n = Some (TcpServer.TAccepting p fd) →
  TcpServer.accept_worker st !! m = Some (TcpServer.TAccepting p fd') → m = n.
Proof using.
  intros Hnd Hn Hm. destruct (decide (m = n)) as [|Hne]; [done|]. exfalso.
  rewrite (loops_delete n st _ Hn) in Hnd. simpl in Hnd. apply NoDup_cons in Hnd as [Hnd _]. apply Hnd.
  destruct (lookup_delete_other _ n m _ _ Hn Hm Hne) as (k & Hk & _). apply list_elem_of_bind.
  exists (TcpServer.TAccepting p fd'). split; [by left|by eapply list_elem_of_lookup_2].
Qed.

End plain_steps.

(** ** The system *)

Section system.
Context {K : Kernel} (host : endian) (me : Z).
#[local] Abbreviation Sys := (ServerPool.Sys (W := HookNet.HW)).
Implicit Types s : Sys.

(** The IO manager of the process, which is also the scheduler of both workers; [me] is its
    address. *)
Definition hw s : HookNet.HW := TcpServer.world (srv s).
Definition manager s : option IOManager.IOManager := Hook.iom (HookNet.world (hw s)).
Definition set_hw (w : HookNet.HW) s : Sys :=
  ServerPool.mkSys (TcpServer.with_heap (TcpServer.heap (srv s)) w (srv s)) (pool s) (accepts s) (clients s)
    (parked_ s) (ServerPool.next_cb s).

Definition on_manager {A} (m : M IOManager.IOManager A) s : res (A * Sys) :=
  match HookNet.on_iom m (hw s) with
  | (Ok a, w) => Ok (a, set_hw w s)
  | (Err e, _) => Err e
  end.

(** What the IO manager handed to the scheduler after the first [n] is scheduled. *)
Fixpoint wake_all (l : list (Z * ScheduleTask)) s : option (res Sys) :=
  match l with
  | [] => Some (Ok s)
  | (_, t) :: l =>
      match index_of t (parked_ s) with
      | None => Some (Err UndefinedBehaviour)
      | Some n => match ServerPool.step host (YWake n) s with
                  | Some (Ok s) => wake_all l s
                  | r => r
                  end
      end
  end.

Definition woken_of s : list (Z * ScheduleTask) :=
  match manager s with Some i => IOManager.woken i | None => [] end.
Definition flush (n : nat) s : option (res Sys) := wake_all (drop n (woken_of s)) s.

(** The call of [accept] that the function of thread [i] is in: its place, the socket, and
    the descriptor it was called with. *)
Definition call_of (i : nat) s : option (nat * nat * Z) :=
  t ← ServerPool.runs i s;
  n ← index_of t (accepts s);
  match TcpServer.accept_worker (srv s) !! n with
  | Some (TcpServer.TAccepting p fd) => Some (n, p, fd)
  | _ => None
  end.

(** [do_io] waits only on a descriptor that the library manages. *)
Definition may_wait (c : FdManager.FdCtx) : bool :=
  negb (FdManager.IsClose c) && FdManager.IsSocket c && negb (FdManager.GetUserNonblock c).

(** [accept] has returned -1. *)
Definition accept_fails (n p : nat) s : Sys :=
  ServerPool.mkSys (TcpServer.set_accept_worker (<[n := TcpServer.TStartAccept p]> (TcpServer.accept_worker (srv s))) (srv s))
    (pool s) (accepts s) (clients s) (parked_ s) (ServerPool.next_cb s).

(** [accept] has nothing yet: the fiber is registered, or, when [AddEvent] fails, the call
    returns. One on a descriptor that the table does not have has to return, which is a step
    of [YRun]. *)
Definition do_register (i : nat) (f : Z) s : option (res Sys) :=
  '(n, p, fd) ← call_of i s;
  match HookNet.ctx_of fd (hw s) with
  | Err e => Some (Err e)
  | Ok None => None
  | Ok (Some c) =>
      if may_wait c then
        match ServerPool.step host (YRegister i f) s with
        | Some (Ok s1) =>
            match on_manager (IOManager.AddEvent (k_ctl (HookNet.calls (hw s)) true) (Some me) (f, true) fd IOManager.READ None) s1 with
            | Err e => Some (Err e)
            | Ok (rt, s2) => Some (Ok (if decide (rt = 0) then s2 else accept_fails n p (set_hw (hw s2) s)))
            end
        | r => r
        end
      else None
  end.

#[local] Instance reported_ok_dec reported c : Decision (IOManager.reported_ok reported c).
Proof. unfold IOManager.reported_ok. apply _. Defined.

(** The kernel reports events of the context at [p]. *)
Definition do_event (p reported : Z) s : option (res Sys) :=
  i ← manager s;
  c ← IOManager.heap i !! p;
  if decide (IOManager.reported_ok reported c) then
    match on_manager (IOManager.handle_event (k_ctl (HookNet.calls (hw s)) false) p reported) s with
    | Err e => Some (Err e)
    | Ok (_, s1) => flush (length (woken_of s)) s1
    end
  else None.

(** A step of the pool or the server that neither registers nor wakes anybody; a
    registration; an event. *)
Inductive label := XPool (l : ServerPool.label) | XRegister (i : nat) (f : Z) | XEvent (p reported : Z).

Definition step (l : label) s : option (res Sys) :=
  match l with
  | XPool l =>
      if plain l then
        match ServerPool.step host l s with
        | Some (Ok s1) => flush (length (woken_of s)) s1
        | r => r
        end
      else None
  | XRegister i f => do_register i f s
  | XEvent p reported => do_event p reported s
  end.

Fixpoint run (ls : list label) s : res Sys :=
  match ls with
  | [] => Ok s
  | l :: ls => match step l s with
               | None => run ls s
               | Some (Ok s) => run ls s
               | Some (Err e) => Err e
               end
  end.

(** Something holds of each step of a run. *)
Fixpoint throughout (P : label → Sys → bool) (ls : list label) s : bool :=
  match ls with
  | [] => true
  | l :: ls => match step l s with
               | None => throughout P ls s
               | Some (Ok s') => P l s && throughout P ls s'
               | Some (Err _) => P l s
               end
  end.

(** Addresses are bound, and the server is started, only while it has no accept loop: at the
    beginning, and again when the loops of its last life have ended. And who registers in
    [accept] registers for the descriptor that its socket still has: not for one that was
    closed since the call was made, and belongs to another socket already. *)
Definition label_ok (l : label) s : bool :=
  match l with
  | XPool (YBind addrs _) => bool_decide (loops (srv s) = []) && forallb Socket.has_path addrs
  | XPool YStart => bool_decide (loops (srv s) = [])
  | XRegister i _ =>
      match call_of i s with
      | Some (_, p, fd) => bool_decide (Socket.sock_ <$> TcpServer.heap (srv s) !! p = Some fd)
      | None => true
      end
  | _ => true
  end.

Definition orderly : list label → Sys → bool := throughout label_ok.

(** No thread resumes a fiber that another one is still leaving. *)
Definition race (l : label) s : bool := match l with XPool l => ServerPool.race l s | _ => false end.
Definition raceless : list label → Sys → bool := throughout (λ l s, negb (race l s)).

(** ** The invariant *)

Section laws.
Context {KL : KernelLaws} (ctl_ok : ∀ t, k_ctl t false = true).

#[local] Abbreviation hook_sinv := (ServerPool.sinv (NetLaws0 := HookNet.hook_laws)).
#[local] Abbreviation frozen_sinv i := (ServerPool.sinv (NetLaws0 := Wake.frozen_laws ctl_ok i)).

(** The functions that wait are the registrations of the IO manager; each of these waits
    for its socket, which is open, to be readable, and is a loop inside [accept]. *)
Record xinv (base : gset Z) (i : IOManager.IOManager) s : Prop := {
  x_sinv : hook_sinv base s;
  x_manager : manager s = Some i;
  x_covered : Wake.covered i (Hook.fds (HookNet.world (hw s)));
  x_loops : loops_ok (srv s);
  x_parked : parked_ s ≡ₚ (IOManager.regs (IOManager.heap i)).*2;
  x_reg q c k : IOManager.heap i !! q = Some c → IOManager.waits k c = true → k = IOManager.Read ∧ ∃ f p x,
    IOManager.ctx_of IOManager.Read c = IOManager.registered_ctx me f None ∧
    accepting s (task_of_fiber (Some f) (-1)) p (IOManager.fd c) ∧ TcpServer.heap (srv s) !! p = Some x ∧
    Socket.sock_ x = IOManager.fd c
}.

Lemma set_hw_same s : set_hw (hw s) s = s.
Proof using. by destruct s as [[]]. Qed.

(** The invariant of [ServerPool] with another system that has the same descriptors. *)
Lemma sinv_move (L1 L2 : NetLaws HookNet.HW) base s w : ServerPool.sinv (NetLaws0 := L1) base s →
  valid (NetLaws := L2) w → opened (NetLaws := L2) w = opened (NetLaws := L1) (hw s) →
  ServerPool.sinv (NetLaws0 := L2) base (set_hw w s).
Proof using.
  intros [[[[Hv Hb Ho Hd Hc] Hown Hf Hnd Hcalls] Hl] Hp Ha Hcl Hfr Hclo] Hv' Hop. unfold hw in Hop.
  constructor; [|done..]. split; [|exact Hl]. constructor; [|exact Hown|exact Hf|exact Hnd|exact Hcalls].
  constructor; [done|..]; cbn [set_hw srv TcpServer.with_heap TcpServer.world TcpServer.heap]; rewrite ?Hop; done.
Qed.

Lemma x_wf base i s : xinv base i s → IOManager.wf i ∧ HookNet.hw_valid (hw s).
Proof using.
  intros Hx. pose proof (Socket.l_valid _ _ _ (TcpServer.i_ledger _ _ _ (proj1 (ServerPool.y_good _ _ (x_sinv _ _ _ Hx))))) as Hv.
  change (HookNet.hw_valid (hw s)) in Hv. split; [|done]. destruct (HookNet.t_iom _ Hv) as (i' & Hi' & Hwf).
  pose proof (x_manager _ _ _ Hx) as Hm. unfold manager in Hm. rewrite Hm in Hi'. by injection Hi' as <-.
Qed.

Lemma x_frozen base i s : xinv base i s → frozen_sinv i base s.
Proof using.
  intros Hx. destruct (x_wf _ _ _ Hx) as [Hwf Hv]. rewrite <- (set_hw_same s).
  apply (sinv_move HookNet.hook_laws); [apply Hx| |done]. split; [done|]. exists i.
  split; [apply Hx|]. split; [reflexivity|apply Hx].
Qed.

(** What a step that started in [i] leaves in the IO manager. *)
Lemma frozen_manager base i s : frozen_sinv i base s → hook_sinv base s ∧ ∃ i',
  manager s = Some i' ∧ IOManager.wf i' ∧ Wake.wakes i i' ∧ Wake.covered i' (Hook.fds (HookNet.world (hw s))).
Proof using.
  intros Hs. pose proof (Socket.l_valid _ _ _ (TcpServer.i_ledger _ _ _ (proj1 (ServerPool.y_good _ _ Hs)))) as Hv.
  change (Wake.frozen i (hw s)) in Hv. split; [|apply (Wake.frozen_wf _ _ Hv)]. rewrite <- (set_hw_same s).
  apply (sinv_move (Wake.frozen_laws ctl_ok i)); [done|apply Hv|done].
Qed.

(** ** Waking *)

Lemma wake_all_ok base (ts : list ScheduleTask) l : ∀ s, hook_sinv base s → parked_ s ≡ₚ ts ++ l.*2 → ∃ s',
  wake_all l s = Some (Ok s') ∧ hook_sinv base s' ∧ parked_ s' ≡ₚ ts ∧ srv s' = srv s ∧ accepts s' = accepts s ∧
  rtc Scheduler.step (pool s) (pool s').
Proof using.
  induction l as [|[m t] l IH]; intros s Hs Hp; simpl in *.
  { exists s. rewrite app_nil_r in Hp. done. }
  destruct (index_of t (parked_ s)) as [n|] eqn:Hn.
  - apply ServerPool.index_of_Some in Hn. destruct (ServerPool.replace_perm _ _ _ Hn) as (rest & Hperm & Hdel & _).
    pose proof (ServerPool.step_ok host base (YWake n) s) as Hstep. cbn [ServerPool.step] in Hstep |- *.
    rewrite Hn in Hstep |- *. cbn [mbind option_bind] in Hstep |- *.
    destruct (ServerPool.placed_wake _ _ (delete n (parked_ s)) t _ (ServerPool.y_placed _ _ Hs)) as [Hdo _]; [by rewrite Hdel|].
    destruct (ServerPool.pool_step [Scheduler.LSchedule t] _ _ _ s) as [r|] eqn:Hr.
    2: { unfold ServerPool.pool_step in Hr. cbn [Scheduler.do_all] in Hr. by rewrite Hdo in Hr. }
    destruct (Hstep r HookNet.accepts_hooked eq_refl Hs eq_refl eq_refl) as (s1 & -> & Hs1 & Hrtc & _).
    apply pool_step_inv in Hr as (Hsv & Ha & _ & Hpk). destruct (IH s1 Hs1) as (s' & Hr' & Hs' & Hp' & Hsv' & Ha' & Hrtc').
    { rewrite Hpk, Hdel. rewrite Hperm, <- Permutation_middle in Hp. by apply Permutation_cons_inv in Hp. }
    exists s'. split; [exact Hr'|]. split; [done|]. split; [done|]. rewrite Hsv', Ha'. split; [done|]. split; [done|by etrans].
  - exfalso. assert (t ∈ parked_ s) as Hin by (rewrite Hp, elem_of_app; right; left).
    unfold index_of in Hn. destruct (list_find (t =.) (parked_ s)) as [[]|] eqn:Hf; [done|].
    apply list_find_None in Hf. rewrite Forall_forall in Hf. by apply (Hf t Hin).
Qed.

(** What was woken since [i] is scheduled. *)
Lemma flush_ok base i i1 s1 : IOManager.wf i → IOManager.wf i1 → Wake.wakes i i1 → hook_sinv base s1 →
  manager s1 = Some i1 → parked_ s1 ≡ₚ (IOManager.regs (IOManager.heap i)).*2 → ∃ s2,
  flush (length (IOManager.woken i)) s1 = Some (Ok s2) ∧ hook_sinv base s2 ∧
  parked_ s2 ≡ₚ (IOManager.regs (IOManager.heap i1)).*2 ∧ srv s2 = srv s1 ∧ accepts s2 = accepts s1 ∧
  rtc Scheduler.step (pool s1) (pool s2).
Proof using.
  intros Hwf Hwf1 Hk Hs Hm Hp. destruct (Wake.wakes_regs i i1 Hwf Hwf1 Hk) as (l & Hl & Hregs).
  unfold flush, woken_of. rewrite Hm, Hl, drop_app_length.
  apply wake_all_ok; [done|]. by rewrite Hp, Hregs, fmap_app.
Qed.

(** ** Each step *)

Lemma accepting_loops (s : Sys) t p fd : accepting s t p fd → p ∈ loops (srv s).
Proof using.
  intros (n & _ & Hn). apply list_elem_of_bind. exists (TcpServer.TAccepting p fd).
  split; [by left|by eapply list_elem_of_lookup_2].
Qed.

Lemma registered_parked base i s q c f : xinv base i s → IOManager.heap i !! q = Some c →
  IOManager.ctx_of IOManager.Read c = IOManager.registered_ctx me f None → task_of_fiber (Some f) (-1) ∈ parked_ s.
Proof using.
  intros Hx Hq Hc. rewrite (x_parked _ _ _ Hx). apply list_elem_of_fmap. exists (me, task_of_fiber (Some f) (-1)).
  split; [done|]. apply (Wake.waits_regs i q c IOManager.Read); [done|]. unfold IOManager.registration. by rewrite Hc.
Qed.

(** Registrations that are left when the others have been woken. *)
Lemma keep_regs base i i1 s s1 : xinv base i s → hook_sinv base s1 → manager s1 = Some i1 → Wake.wakes i i1 →
  Wake.covered i1 (Hook.fds (HookNet.world (hw s1))) → IOManager.wf i1 → follows s s1 →
  (∀ p, p ∈ loops (srv s) → p ∈ loops (srv s1) → kept (NetLaws0 := HookNet.hook_laws) p (srv s) (srv s1)) →
  ∀ q c k, IOManager.heap i1 !! q = Some c → IOManager.waits k c = true → k = IOManager.Read ∧ ∃ f p x,
    IOManager.ctx_of IOManager.Read c = IOManager.registered_ctx me f None ∧
    accepting s1 (task_of_fiber (Some f) (-1)) p (IOManager.fd c) ∧ TcpServer.heap (srv s1) !! p = Some x ∧
    Socket.sock_ x = IOManager.fd c.
Proof using.
  intros Hx Hs1 Hm Hk Hcov Hwf Hfol Hkept q c' k Hq Hw.
  destruct (Wake.k_heap _ _ Hk q c' Hq) as (c & Hc & Hfd & Hcw). destruct (Hcw k Hw) as [Hw0 Hctx].
  destruct (x_reg _ _ _ Hx q c k Hc Hw0) as (-> & f & p & x & Hreg & Hacc & Hp & Hsock).
  split; [done|]. pose proof (registered_parked _ _ _ _ _ _ Hx Hc Hreg) as Hpark.
  pose proof (Hfol _ _ _ Hpark Hacc) as Hacc1. exists f, p, x. rewrite Hctx, Hfd. split; [done|]. split; [done|].
  split; [|done]. destruct (Hkept p (accepting_loops _ _ _ _ Hacc) (accepting_loops _ _ _ _ Hacc1)) as [->|[_ Hun]]; [done|].
  exfalso. pose proof (IOManager.wf_heap _ Hwf _ _ Hq) as (_ & _ & H0 & _).
  apply (Hun x Hp); [rewrite Hsock, <- Hfd; lia|]. rewrite Hsock, <- Hfd.
  destruct (Hcov q c' _ Hq Hw) as [a Ha].
  pose proof (Socket.l_valid _ _ _ (TcpServer.i_ledger _ _ _ (proj1 (ServerPool.y_good _ _ Hs1)))) as Hv.
  change (HookNet.hw_valid (hw s1)) in Hv. by destruct (HookNet.t_ctx _ Hv _ _ H0 Ha).
Qed.

(** What a step of the pool does to the server. *)
Definition moves (l : ServerPool.label) (st st' : TcpServer.State (W := HookNet.HW)) : Prop :=
  st' = st ∧ (∀ e, ¬ event_of l e) ∨ ∃ e, TcpServer.event_ok e = true ∧ event_of l e ∧ TcpServer.exec host e st = (Ok tt, st').

Lemma moves_loops base l (st st' : TcpServer.State (W := HookNet.HW)) :
  TcpServer.good (NetLaws0 := HookNet.hook_laws) base st → loops_ok st →
  (match l with YBind _ _ | YStart => loops st = [] | _ => True end) → moves l st st' →
  loops_ok st' ∧ ∀ p, p ∈ loops st' →
    p ∈ loops st ∧ kept (NetLaws0 := HookNet.hook_laws) p st st' ∨ l = YStart ∧ loops st = [].
Proof using.
  intros Hg Ho Hf [[-> _]|(e & He & Hle & Hex)]; [split; [done|]; intros p Hp; left; split; [done|by left]|].
  assert (first_loops e st) as Hfst by (by destruct l, e).
  destruct (event_loops host base e st HookNet.accepts_hooked He Hg Ho Hfst) as (st1 & Hr & Ho' & Hk).
  rewrite Hex in Hr. injection Hr as <-. split; [done|]. intros p Hp. destruct (Hk p Hp) as [?| ->]; [by left|].
  right. by destruct l.
Qed.

Lemma plain_ok base i l s r : xinv base i s → plain l = true → ServerPool.label_ok l = true → ServerPool.race l s = false →
  (match l with YBind _ _ | YStart => loops (srv s) = [] | _ => True end) → step (XPool l) s = Some r → ∃ s2 i2,
  r = Ok s2 ∧ xinv base i2 s2 ∧ moves l (srv s) (srv s2).
Proof using All.
  intros Hx Hp Hl Hrace Hf. cbn [step]. rewrite Hp. destruct (ServerPool.step host l s) as [r1|] eqn:Hr1; [|done].
  assert (Socket.hooked_accept (NetLaws0 := Wake.frozen_laws ctl_ok i)) as Hh.
  { intros fd w a w' [Hv _]. by apply HookNet.accepts_hooked. }
  pose proof (x_frozen _ _ _ Hx) as Hs.
  destruct (ServerPool.step_ok host base l s r1 Hh Hl Hs Hrace Hr1) as (s1 & -> & Hs1 & _).
  destruct (plain_step host base l s s1 Hh Hl Hs Hp Hr1) as (Hpk & Hfol & Hmv).
  destruct (frozen_manager _ _ _ Hs1) as (Hs1' & i1 & Hm & Hwf1 & Hk & Hcov). destruct (x_wf _ _ _ Hx) as [Hwf _].
  destruct (flush_ok base i i1 s1 Hwf Hwf1 Hk Hs1' Hm) as (s2 & Hfl & Hs2 & Hpk2 & Hsv & Ha & _).
  { rewrite Hpk. apply Hx. }
  assert (woken_of s = IOManager.woken i) as -> by (unfold woken_of; by rewrite (x_manager _ _ _ Hx)).
  rewrite Hfl. intros [= <-]. exists s2, i1. split; [done|]. rewrite Hsv. split; [|exact Hmv].
  destruct (moves_loops base l _ _ (ServerPool.y_good _ _ (x_sinv _ _ _ Hx)) (x_loops _ _ _ Hx) Hf Hmv) as [Ho Hkp].
  pose proof (keep_regs base i i1 s s1 Hx Hs1' Hm Hk Hcov Hwf1 Hfol) as Hreg.
  constructor; [done|unfold manager, hw; by rewrite Hsv|unfold hw; by rewrite Hsv|by rewrite Hsv|done|].
  unfold accepting in *. rewrite Hsv, Ha. apply Hreg. intros p Hp0 Hp1. destruct (Hkp p Hp1) as [[_ ?]|[_ H0]]; [done|].
  rewrite H0 in Hp0. by apply not_elem_of_nil in Hp0.
Qed.

(** The system with another state of the IO manager, after a call. *)
Definition with_manager (i : IOManager.IOManager) s : Sys :=
  set_hw (HookNet.mkHW (Hook.mk_World (Hook.fds (HookNet.world (hw s))) (Some i) (Hook.kflags (HookNet.world (hw s))))
    (S (HookNet.calls (hw s)))) s.

Lemma on_manager_ok {A} (m : M IOManager.IOManager A) s i a i' : manager s = Some i → m i = (Ok a, i') →
  on_manager m s = Ok (a, with_manager i' s).
Proof using. unfold manager, on_manager, HookNet.on_iom. intros -> ->. done. Qed.

Lemma with_manager_sinv base i s : hook_sinv base s → IOManager.wf i → hook_sinv base (with_manager i s).
Proof using.
  intros Hs Hwf. apply (sinv_move HookNet.hook_laws); [done| |done].
  pose proof (Socket.l_valid _ _ _ (TcpServer.i_ledger _ _ _ (proj1 (ServerPool.y_good _ _ Hs)))) as Hv.
  change (HookNet.hw_valid (hw s)) in Hv.
  constructor; [apply (HookNet.t_fds _ Hv)|apply (HookNet.t_ctx _ Hv)|apply (HookNet.t_open _ Hv)|by exists i].
Qed.

Lemma event_ok base i p reported s r : xinv base i s → do_event p reported s = Some r → ∃ s2 i2,
  r = Ok s2 ∧ xinv base i2 s2 ∧ ∃ w, srv s2 = TcpServer.with_heap (TcpServer.heap (srv s)) w (srv s).
Proof using All.
  intros Hx. unfold do_event. rewrite (x_manager _ _ _ Hx). cbn [mbind option_bind].
  destruct (IOManager.heap i !! p) as [c|] eqn:Hc; [|done]. cbn [mbind option_bind]. case_decide as Hrep; [|done].
  destruct (x_wf _ _ _ Hx) as [Hwf _].
  destruct (Wake.handle_event_wakes i p c reported Hwf Hc Hrep) as (i1 & Hr & Hwf1 & Hk). rewrite ctl_ok.
  rewrite (on_manager_ok _ s i tt i1 (x_manager _ _ _ Hx) Hr).
  assert (woken_of s = IOManager.woken i) as -> by (unfold woken_of; by rewrite (x_manager _ _ _ Hx)).
  pose proof (with_manager_sinv base i1 s (x_sinv _ _ _ Hx) Hwf1) as Hs1. set (s1 := with_manager i1 s) in *.
  destruct (flush_ok base i i1 s1 Hwf Hwf1 Hk Hs1 eq_refl) as (s2 & Hfl & Hs2 & Hpk2 & Hsv & Ha & _); [apply Hx|].
  rewrite Hfl. intros [= <-]. exists s2, i1. split; [done|]. split; [|exists (hw s1); exact Hsv].
  assert (Wake.covered i1 (Hook.fds (HookNet.world (hw s)))) as Hcov.
  { intros q c' k Hq Hw. destruct (Wake.k_heap _ _ Hk q c' Hq) as (c0 & Hc0 & -> & Hcw).
    eapply (x_covered _ _ _ Hx); [exact Hc0|by apply Hcw]. }
  constructor; [done|unfold manager, hw; by rewrite Hsv|unfold hw; by rewrite Hsv|rewrite Hsv; destruct (x_loops _ _ _ Hx); by split|done|].
  unfold accepting. rewrite Hsv, Ha. apply (keep_regs base i i1 s s1 Hx Hs1 eq_refl Hk Hcov Hwf1).
  - intros t q fd _. done.
  - intros q _ _. by left.
Qed.

(** A descriptor with a context. *)
Lemma ctx_known base s fd c : hook_sinv base s → -1 ≤ fd → HookNet.ctx_of fd (hw s) = Ok (Some c) →
  0 ≤ fd ∧ is_Some (FdManager.lookup_fd (Hook.fds (HookNet.world (hw s))) fd).
Proof using.
  intros Hs Hfd. pose proof (Socket.l_valid _ _ _ (TcpServer.i_ledger _ _ _ (proj1 (ServerPool.y_good _ _ Hs)))) as Hv.
  change (HookNet.hw_valid (hw s)) in Hv. unfold HookNet.ctx_of.
  destruct (HookNet.get_ctx_total _ fd Hv Hfd) as [(p & c' & H0 & -> & Hc)|[-> _]]; [|done]. intros _.
  split; [done|]. destruct Hc as (_ & Hp & _). by exists p.
Qed.

(** Nobody else waits on the socket of a loop that runs. *)
Lemma not_waited base i s j t n p fd x q c : xinv base i s → ServerPool.runs j s = Some t → accepts s !! n = Some t →
  TcpServer.accept_worker (srv s) !! n = Some (TcpServer.TAccepting p fd) → TcpServer.heap (srv s) !! p = Some x →
  Socket.sock_ x ≠ -1 → IOManager.heap i !! q = Some c → IOManager.fd c = Socket.sock_ x →
  IOManager.waits IOManager.Read c = false.
Proof using.
  clear ctl_ok. intros Hx Hrun Ht Hn Hp Hx1 Hq Hfd. apply not_true_is_false. intros Hw.
  destruct (x_reg _ _ _ Hx q c _ Hq Hw) as (_ & f2 & p2 & x2 & Hreg & (m & Hm & Hm') & Hp2 & Hs2).
  assert (p2 = p) as ->.
  { destruct (decide (p2 = p)) as [|Hne]; [done|]. exfalso.
    pose proof (TcpServer.i_ledger _ _ _ (proj1 (ServerPool.y_good _ _ (x_sinv _ _ _ Hx)))) as Hl.
    pose proof (Socket.l_disjoint _ _ _ Hl _ _ _ _ Hne Hp2 Hp) as Hd. unfold Socket.own in Hd.
    rewrite Hs2, Hfd, decide_False in Hd by done. set_solver. }
  pose proof (loops_index _ _ _ _ _ _ (o_nodup _ (x_loops _ _ _ Hx)) Hn Hm') as ->.
  pose proof (registered_parked _ _ _ _ _ _ Hx Hq Hreg) as Hpk. rewrite Ht in Hm. injection Hm as Hm. rewrite <- Hm in Hpk.
  by apply (running_not_parked _ _ _ _ (x_sinv _ _ _ Hx) Hrun).
Qed.

(** A new registration. *)
Lemma register_new i fd f : IOManager.wf i → 0 ≤ fd →
  (∀ q c, IOManager.heap i !! q = Some c → IOManager.fd c = fd → IOManager.waits IOManager.Read c = false) → ∃ i',
  IOManager.AddEvent true (Some me) (f, true) fd IOManager.READ None i = (Ok 0, i') ∧ IOManager.wf i' ∧
  IOManager.regs (IOManager.heap i') ≡ₚ (me, task_of_fiber (Some f) (-1)) :: IOManager.regs (IOManager.heap i) ∧
  ∀ q c k, IOManager.heap i' !! q = Some c → IOManager.waits k c = true →
    (∃ c0, IOManager.heap i !! q = Some c0 ∧ IOManager.fd c = IOManager.fd c0 ∧ IOManager.waits k c0 = true ∧
       IOManager.ctx_of k c = IOManager.ctx_of k c0) ∨
    k = IOManager.Read ∧ IOManager.fd c = fd ∧ IOManager.ctx_of k c = IOManager.registered_ctx me f None.
Proof using.
  intros Hwf Hfd Hfree.
  destruct (IOManager.AddEvent_context_ok i fd Hwf Hfd) as (i1 & q0 & c0 & Hr & Hwf1 & Hctx & Hwk & Had & Hde & _).
  pose proof (Wake.AddEvent_context_waits i fd q0 i1 Hwf Hfd Hr) as Hold. destruct Hctx as (_ & _ & Hc0 & Hfc).
  assert (IOManager.waits IOManager.Read c0 = false) as Hw0.
  { apply not_true_is_false. intros Hw. pose proof (Hold _ _ _ Hc0 Hw) as Hc. by rewrite (Hfree _ _ Hc Hfc) in Hw. }
  set (x := IOManager.registered_ctx me f None).
  exists (IOManager.added_state i1 q0 c0 IOManager.Read x me). unfold IOManager.AddEvent. rewrite (bind_ok _ _ _ _ _ Hr).
  pose proof (IOManager.AddEvent_register_ok true i1 q0 c0 IOManager.Read me (f, true) None Hwf1 Hc0 Hw0 ltac:(by right)) as Hreg.
  cbv zeta in Hreg. rewrite Hfc in Hreg. split; [exact Hreg|]. split; [by apply IOManager.added_wf|]. split.
  - destruct (IOManager.regs_change _ _ _ Hc0) as (rest & H1 & H2). simpl. rewrite H2, (IOManager.reg_with IOManager.Read x c0 me) by done.
    pose proof (IOManager.wf_history _ Hwf) as Hh. pose proof (IOManager.wf_history _ Hwf1) as Hh1.
    rewrite Had, Hde, Hwk, Hh in Hh1. simpl. constructor. rewrite <- H1. by apply Permutation_app_inv_r in Hh1.
  - intros q c k. unfold IOManager.added_state, IOManager.after. cbn [IOManager.heap]. rewrite lookup_insert_Some.
    intros [[<- <-]|[Hne Hq]] Hw.
    + rewrite IOManager.with_event_fd. destruct k; [right; by split_and!|]. left.
      rewrite (IOManager.waits_with _ _ _ _ me) in Hw by done. exists c0. split; [by apply (Hold _ _ IOManager.Write)|by split_and!].
    + left. exists c. split; [by eapply Hold|by split_and!].
Qed.

(** The kernel refuses it: the table of the IO manager may have grown. *)
Lemma refused_ok i fd f : IOManager.wf i → 0 ≤ fd →
  (∀ q c, IOManager.heap i !! q = Some c → IOManager.fd c = fd → IOManager.waits IOManager.Read c = false) → ∃ i',
  IOManager.AddEvent false (Some me) (f, true) fd IOManager.READ None i = (Ok (-1), i') ∧ IOManager.wf i' ∧
  IOManager.regs (IOManager.heap i') ≡ₚ IOManager.regs (IOManager.heap i) ∧
  ∀ q c k, IOManager.heap i' !! q = Some c → IOManager.waits k c = true → IOManager.heap i !! q = Some c.
Proof using.
  intros Hwf Hfd Hfree.
  destruct (IOManager.AddEvent_context_ok i fd Hwf Hfd) as (i1 & q0 & c0 & Hr & Hwf1 & Hctx & Hwk & Had & Hde & _).
  pose proof (Wake.AddEvent_context_waits i fd q0 i1 Hwf Hfd Hr) as Hold. pose proof Hctx as (_ & _ & Hc0 & Hfc).
  assert (IOManager.waits IOManager.Read c0 = false) as Hw0.
  { apply not_true_is_false. intros Hw. pose proof (Hold _ _ _ Hc0 Hw) as Hc. by rewrite (Hfree _ _ Hc Hfc) in Hw. }
  exists i1. split; [|split; [done|split; [|done]]].
  - unfold IOManager.AddEvent. rewrite (bind_ok _ _ _ _ _ Hr). unfold IOManager.AddEvent_register.
    rewrite (bind_ok _ _ _ _ _ (IOManager.io_deref_ok i1 q0 c0 Hc0)).
    rewrite IOManager.waits_event in Hw0 by (by eapply IOManager.ctx_in_order).
    apply bool_decide_eq_false, dec_stable in Hw0. rewrite bind_massert by (by apply bool_decide_eq_true_2).
    cbv zeta. by rewrite (bind_ok _ _ _ _ _ (IOManager.epoll_ctl_refused _ _ _ _ _)).
  - pose proof (IOManager.wf_history _ Hwf) as Hh. pose proof (IOManager.wf_history _ Hwf1) as Hh1.
    rewrite Had, Hde, Hwk, Hh in Hh1. symmetry. by apply Permutation_app_inv_r in Hh1.
Qed.

Lemma with_manager_hw i s : set_hw (hw (with_manager i s)) s = with_manager i s.
Proof using. done. Qed.

(** The function of a thread returns from [accept] with nothing. *)
Lemma accept_fails_ok base i s n p fd : xinv base i s → TcpServer.accept_worker (srv s) !! n = Some (TcpServer.TAccepting p fd) →
  (∀ t, accepts s !! n = Some t → t ∉ parked_ s) → xinv base i (accept_fails n p s).
Proof using.
  clear ctl_ok. intros Hx Hn Hnp. pose proof (x_sinv _ _ _ Hx) as Hs.
  assert (loops (srv (accept_fails n p s)) = loops (srv s)) as Hls by (by apply (TcpServer.bind_insert _ _ _ (TcpServer.TAccepting p fd))).
  assert (follows s (accept_fails n p s)) as Hfol.
  { intros t q fd' Ht (m & Hm & Hm'). exists m. split; [done|]. simpl. rewrite list_lookup_insert_ne; [done|].
    intros <-. by apply (Hnp t). }
  constructor; [|apply Hx|apply Hx| |apply Hx|].
  - destruct Hs as [[Hi Hl] Hp Ha Hc Hf Hclo]. constructor; [|done|simpl; by rewrite length_insert|done|done|].
    2: { intros m t Hm. simpl. rewrite list_lookup_insert_Some. intros [(_ & ? & _)|[_ Hm']]; [done|by apply (Hclo m)]. }
    split; [by apply (TcpServer.inv_replace base [] _ n (TcpServer.TAccepting p fd))|exact Hl].
  - destruct (x_loops _ _ _ Hx) as [Hnd Hso]. split; rewrite Hls; [done|exact Hso].
  - intros q c k Hq Hw. destruct (x_reg _ _ _ Hx q c k Hq Hw) as (-> & f & p2 & x & Hreg & Hacc & Hrest).
    split; [done|]. exists f, p2, x. split; [done|]. split; [|done]. apply Hfol; [|done]. by eapply registered_parked.
Qed.

Lemma call_of_inv i s n p fd : call_of i s = Some (n, p, fd) → ∃ t, ServerPool.runs i s = Some t ∧
  index_of t (accepts s) = Some n ∧ TcpServer.accept_worker (srv s) !! n = Some (TcpServer.TAccepting p fd).
Proof using.
  unfold call_of. destruct (ServerPool.runs i s) as [t|]; [|done]. cbn [mbind option_bind].
  destruct (index_of t (accepts s)) as [m|] eqn:Hidx; [|done]. cbn [mbind option_bind].
  destruct (TcpServer.accept_worker (srv s) !! m) as [[|q fd'|]|] eqn:Hn; try done. intros [= -> -> ->]. by exists t.
Qed.

(** A registration changes the system and, when it fails, the place of the function. *)
Definition registers s s2 : Prop :=
  (∃ w, srv s2 = TcpServer.with_heap (TcpServer.heap (srv s)) w (srv s)) ∨
  ∃ n p fd w, TcpServer.accept_worker (srv s) !! n = Some (TcpServer.TAccepting p fd) ∧
    srv s2 = TcpServer.set_accept_worker (<[n := TcpServer.TStartAccept p]> (TcpServer.accept_worker (srv s)))
      (TcpServer.with_heap (TcpServer.heap (srv s)) w (srv s)).

Lemma register_ok base i j f s r : xinv base i s → label_ok (XRegister j f) s = true → do_register j f s = Some r → ∃ s2 i2,
  r = Ok s2 ∧ xinv base i2 s2 ∧ registers s s2.
Proof using All.
  intros Hx Hlab. pose proof (x_sinv _ _ _ Hx) as Hs. unfold do_register. cbn [label_ok] in Hlab.
  destruct (call_of j s) as [[[n p] fd]|] eqn:Hcall; [|done]. cbn [mbind option_bind].
  apply call_of_inv in Hcall as (t & Hrun & Hidx & Hn). apply bool_decide_eq_true in Hlab.
  destruct (TcpServer.heap (srv s) !! p) as [x|] eqn:Hp; [|done]. injection Hlab as <-.
  pose proof (Socket.ledger_ok _ _ _ _ _ (TcpServer.i_ledger _ _ _ (proj1 (ServerPool.y_good _ _ Hs))) Hp) as Hok.
  pose proof (Socket.ok_sock x (hw s) Hok) as Hfd.
  destruct (HookNet.ctx_of (Socket.sock_ x) (hw s)) as [[c|]|e] eqn:Hctx; [| |destruct (HookNet.ctx_of_total (hw s) (Socket.sock_ x) (proj1 Hok) Hfd); congruence]; [|done].
  destruct (ctx_known _ _ _ _ Hs Hfd Hctx) as [H0 Hknown]. destruct (may_wait c); [|done].
  destruct (ServerPool.step host (YRegister j f) s) as [r1|] eqn:Hr1; [|done].
  destruct (ServerPool.step_ok host base (YRegister j f) s r1 HookNet.accepts_hooked eq_refl Hs eq_refl Hr1) as (s1 & -> & Hs1 & _).
  destruct (register_inv host base j f s s1 Hs Hr1) as (t' & n' & p' & fd' & Hrun' & Hidx' & Hn' & Hsv & Ha & _ & Hpk).
  rewrite Hrun in Hrun'. injection Hrun' as <-. rewrite Hidx in Hidx'. injection Hidx' as <-. clear Hn'.
  pose proof (ServerPool.index_of_Some _ _ _ Hidx) as Ht. destruct (x_wf _ _ _ Hx) as [Hwf _].
  assert (∀ q c', IOManager.heap i !! q = Some c' → IOManager.fd c' = Socket.sock_ x → IOManager.waits IOManager.Read c' = false) as Hfree.
  { intros q c' Hq Hfc. apply (not_waited base i s j t n p (Socket.sock_ x) x q c' Hx Hrun Ht Hn Hp); [lia|done|done]. }
  assert (manager s1 = Some i) as Hm1 by (unfold manager, hw; rewrite Hsv; apply Hx).
  assert (t ∉ parked_ s) as Hnp by (by eapply running_not_parked).
  destruct (k_ctl (HookNet.calls (hw s)) true).
  - destruct (register_new i (Socket.sock_ x) f Hwf H0 Hfree) as (i2 & Hadd & Hwf2 & Hregs & Hwaits).
    rewrite (on_manager_ok _ s1 i 0 i2 Hm1 Hadd), decide_True by done. intros [= <-]. exists (with_manager i2 s1), i2.
    split; [done|]. assert (srv (with_manager i2 s1) = TcpServer.with_heap (TcpServer.heap (srv s)) (hw (with_manager i2 s1)) (srv s)) as Hsv2
      by (unfold with_manager, set_hw, hw; simpl; by rewrite Hsv).
    split; [|left; by eexists]. assert (follows s (with_manager i2 s1)) as Hfol.
    { intros u q fd2 Hu (m & Hm & Hm'). exists m. simpl. rewrite Ha, Hsv. split; [|done]. rewrite list_lookup_insert_ne; [done|].
      intros <-. rewrite Ht in Hm. injection Hm as <-. done. }
    constructor; [by apply with_manager_sinv|done| |rewrite Hsv2; destruct (x_loops _ _ _ Hx); by split| |].
    + intros q c' k Hq Hw. simpl. unfold hw. rewrite Hsv. destruct (Hwaits q c' k Hq Hw) as [(c0 & Hc0 & -> & Hw0 & _)|(_ & -> & _)]; [|done].
      by eapply (x_covered _ _ _ Hx).
    + simpl. rewrite Hpk, Hregs, (x_parked _ _ _ Hx). simpl. by rewrite Permutation_app_comm.
    + intros q c' k Hq Hw. rewrite Hsv2. cbn [TcpServer.with_heap TcpServer.heap]. destruct (Hwaits q c' k Hq Hw) as [(c0 & Hc0 & -> & Hw0 & Hcx)|(-> & -> & Hcx)].
      * destruct (x_reg _ _ _ Hx q c0 k Hc0 Hw0) as (-> & g & p2 & x2 & Hg & Hacc & Hp2 & Hx2). split; [done|].
        exists g, p2, x2. rewrite Hcx. split; [done|]. split; [|done]. apply Hfol; [|done]. by eapply registered_parked.
      * split; [done|]. exists f, p, x. split; [done|]. split; [|done]. exists n. simpl. rewrite Ha, Hsv. split; [|done].
        apply list_lookup_insert_eq. by eapply lookup_lt_Some.
  - destruct (refused_ok i (Socket.sock_ x) f Hwf H0 Hfree) as (i2 & Hadd & Hwf2 & Hregs & Hwaits).
    rewrite (on_manager_ok _ s1 i (-1) i2 Hm1 Hadd), decide_False by done. intros [= <-].
    assert (hw (with_manager i2 s1) = hw (with_manager i2 s)) as -> by (unfold with_manager, hw; simpl; by rewrite Hsv).
    rewrite with_manager_hw. exists (accept_fails n p (with_manager i2 s)), i2. split; [done|]. split.
    + apply accept_fails_ok with (Socket.sock_ x); [|done|simpl; intros u Hu; rewrite Ht in Hu; by injection Hu as <-].
      constructor; [by apply with_manager_sinv|done| |destruct (x_loops _ _ _ Hx); by split| |].
      * intros q c' k Hq Hw. exact (x_covered _ _ _ Hx q c' k (Hwaits q c' k Hq Hw) Hw).
      * simpl. by rewrite Hregs, (x_parked _ _ _ Hx).
      * intros q c' k Hq Hw. exact (x_reg _ _ _ Hx q c' k (Hwaits q c' k Hq Hw) Hw).
    + right. exists n, p, (Socket.sock_ x), (hw (with_manager i2 s)). done.
Qed.

(** ** Runs *)

(** Who waits is in [accept] on an open socket. *)
Lemma parked_accepting base i s t : xinv base i s → t ∈ parked_ s → ∃ p x, accepting s t p (Socket.sock_ x) ∧
  TcpServer.heap (srv s) !! p = Some x ∧ Socket.sock_ x ≠ -1 ∧ Socket.sock_ x ∈ HookNet.is_open (hw s).
Proof using.
  intros Hx. rewrite (x_parked _ _ _ Hx). intros ([m u] & -> & Hin)%list_elem_of_fmap.
  destruct (Wake.regs_waits i _ Hin) as (q & c & k & Hq & Hw & Hr).
  destruct (x_reg _ _ _ Hx q c k Hq Hw) as (-> & f & p & x & Hreg & Hacc & Hp & Hsock). exists p, x.
  unfold IOManager.registration in Hr. rewrite Hreg in Hr. injection Hr as <- <-.
  rewrite Hsock. split; [exact Hacc|]. split; [done|]. destruct (x_wf _ _ _ Hx) as [Hwf Hv].
  pose proof (IOManager.wf_heap _ Hwf _ _ Hq) as (_ & _ & H0 & _). split; [lia|].
  destruct (x_covered _ _ _ Hx q c _ Hq Hw) as [a Ha]. by destruct (HookNet.t_ctx _ Hv _ _ H0 Ha).
Qed.

(** When [Stop]'s function has run, nobody waits. *)
Lemma closed_none base i s : xinv base i s → loops (srv s) = [] ∨ TcpServer.socks_ (TcpServer.server (srv s)) = [] →
  parked_ s = [].
Proof using.
  intros Hx Hc. destruct (parked_ s) as [|t l] eqn:Hp; [done|exfalso].
  destruct (parked_accepting base i s t Hx) as (p & x & Hacc & Hpx & Hn & _); [rewrite Hp; by left|].
  pose proof (accepting_loops _ _ _ _ Hacc) as Hl. destruct Hc as [Hc|Hc].
  - rewrite Hc in Hl. by apply not_elem_of_nil in Hl.
  - destruct (o_socks _ (x_loops _ _ _ Hx) p Hl) as [Hs|(y & Hy & Hy1)]; [rewrite Hc in Hs; by apply not_elem_of_nil in Hs|].
    congruence.
Qed.

(** Nothing is left when the server was stopped and no thread has anything to do. *)
Lemma all_done base i s : xinv base i s → loops (srv s) = [] ∨ TcpServer.TClose ∈ TcpServer.accept_worker (srv s) ∨
  TcpServer.socks_ (TcpServer.server (srv s)) = [] → tasks_ (sched (pool s)) = [] → held (pcs (pool s)) = [] →
  accepts s = [] ∧ clients s = [].
Proof using.
  intros Hx Hc Hq Hh. pose proof (x_sinv _ _ _ Hx) as Hs. pose proof (ServerPool.y_placed _ _ Hs) as Hpl.
  pose proof (ServerPool.p_perm _ _ _ Hpl) as Hperm. rewrite Hq, (ServerPool.busy_nothing _ Hh) in Hperm. simpl in Hperm.
  assert (parked_ s = []) as Hnone.
  { destruct Hc as [Hc|[Hc|Hc]]; [by apply (closed_none base i); [|left]| |by apply (closed_none base i); [|right]].
    exfalso. apply list_elem_of_lookup in Hc as [n Hn].
    destruct (lookup_lt_is_Some_2 (accepts s) n) as [t Ht].
    { rewrite (ServerPool.y_accepts _ _ Hs). by eapply lookup_lt_Some. }
    destruct (parked_accepting base i s t Hx) as (p & x & (m & Hm & Hm') & _).
    { rewrite <- Hperm. apply elem_of_app. left. by eapply list_elem_of_lookup_2. }
    pose proof (ServerPool.p_nodup _ _ _ Hpl) as [Hnd _]%NoDup_app.
    pose proof (NoDup_lookup _ _ _ _ Hnd Ht Hm) as <-. congruence. }
  rewrite Hnone in Hperm. apply Permutation_nil_r in Hperm. by apply app_eq_nil in Hperm.
Qed.

(** Once a server with loops is stopped, its sockets are gone or about to be. *)
Definition ending (st : TcpServer.State (W := HookNet.HW)) : Prop :=
  TcpServer.is_stop_ (TcpServer.server st) = true →
  TcpServer.TClose ∈ TcpServer.accept_worker st ∨ TcpServer.socks_ (TcpServer.server st) = [].

Lemma task_ending base (st st' : TcpServer.State (W := HookNet.HW)) n :
  TcpServer.good (NetLaws0 := HookNet.hook_laws) base st → ending st →
  TcpServer.exec host (TcpServer.ETask n) st = (Ok tt, st') → ending st'.
Proof using.
  intros Hg He Hr. cbn [TcpServer.exec] in Hr. destruct (TcpServer.accept_worker st !! n) as [f|] eqn:Hn.
  2: { unfold TcpServer.step_task in Hr. rewrite TcpServer.get_bind, Hn in Hr.
    change ((Ok tt, st) = (Ok tt, st')) in Hr. by injection Hr as <-. }
  destruct (TcpServer.is_stop_ (TcpServer.server st)) eqn:Hst.
  - destruct (TcpServer.stopping_step host base st n HookNet.accepts_hooked Hg) as (st1 & Hr1 & _ & [_ Hs] & _);
      [split; [done|by apply He]|by eapply lookup_lt_Some|]. rewrite Hr in Hr1. injection Hr1 as <-. intros _. exact Hs.
  - assert (TcpServer.is_stop_ (TcpServer.server st') = false) as Hs'; [|intros; congruence].
    destruct Hg as [Hi Hl]. destruct f as [p|p fd|].
    + destruct (TcpServer.start_spec host base st n p Hi Hn) as (st1 & Hr1 & _ & Hsv & _).
      rewrite Hr in Hr1. injection Hr1 as <-. by rewrite Hsv.
    + destruct (TcpServer.accepting_spec host base st n p fd HookNet.accepts_hooked Hi Hn) as (x & r & w & st1 & _ & _ & Hr1 & _ & Hsv & _).
      rewrite Hr in Hr1. injection Hr1 as <-. by rewrite Hsv.
    + destruct (TcpServer.TClose_spec host base st n Hi Hl Hn) as (st1 & Hr1 & _ & Hsv & _).
      rewrite Hr in Hr1. injection Hr1 as <-. by rewrite Hsv.
Qed.

Lemma moves_ending base l (st st' : TcpServer.State (W := HookNet.HW)) :
  TcpServer.good (NetLaws0 := HookNet.hook_laws) base st → moves l st st' →
  match l with YBind _ _ => False | YStart => True | _ => ending st end → ending st'.
Proof using.
  intros Hg [[-> Hno]|(e & He & Hle & Hex)] Hl.
  { destruct l; try done. by destruct (Hno TcpServer.EStart). }
  destruct l as [addrs fails| | | |i|i|i|i|i f|i|i|n], e as [addrs' fails'| | |n'|n']; try done; cbn [TcpServer.exec] in Hex.
  - assert (TcpServer.exec host TcpServer.EStart st =
      (Ok tt, if TcpServer.is_stop_ (TcpServer.server st) then TcpServer.started st else st)) as Hst.
    { cbn [TcpServer.exec]. destruct (TcpServer.Start_spec st) as [Hb|Hb]; pose proof (bind_ok _ (λ _, mret tt) _ _ _ Hb) as Hb';
        revert Hb'; unfold TcpServer.Start; by destruct st as [[? ? ? ? []]]. }
    cbn [TcpServer.exec] in Hst. rewrite Hst in Hex. injection Hex as <-. intros Hs.
    destruct (TcpServer.is_stop_ (TcpServer.server st)) eqn:He'; [done|congruence].
  - injection Hex as <-. intros _. left. simpl. apply elem_of_app. right. by left.
  - by eapply task_ending.
  - destruct (TcpServer.io_worker st !! n') as [p|] eqn:Hn.
    + destruct (ServerPool.client_step host base st n' p Hg Hn) as (st1 & Hr & _ & Ha & _).
      cbn [TcpServer.exec] in Hr. rewrite Hex in Hr. injection Hr as <-.
      assert (TcpServer.server st' = TcpServer.server st) as Hsv.
      { unfold TcpServer.step_client in Hex. rewrite TcpServer.get_bind, Hn in Hex. by apply release_server in Hex. }
      unfold ending. by rewrite Hsv, Ha.
    + unfold TcpServer.step_client in Hex. rewrite TcpServer.get_bind, Hn in Hex.
      change ((Ok tt, st) = (Ok tt, st')) in Hex. by injection Hex as <-.
Qed.

(** The state of a run: a server that is stopped has no loops, or closes their sockets. *)
Definition pinv (base : gset Z) s : Prop := (∃ i, xinv base i s) ∧ (loops (srv s) = [] ∨ ending (srv s)).

Lemma registers_pinv base i s s2 : pinv base s → xinv base i s2 → registers s s2 → pinv base s2.
Proof using.
  intros (_ & Hend) Hx2 Hreg. split; [by exists i|]. destruct Hreg as [(w & Hsv)|(n & p & fd & w & Hn & Hsv)]; rewrite Hsv; [done|].
  destruct Hend as [Hno|He].
  - exfalso. assert (p ∈ loops (srv s)) as Hin; [|rewrite Hno in Hin; by apply not_elem_of_nil in Hin].
    apply list_elem_of_bind. exists (TcpServer.TAccepting p fd). split; [by left|by eapply list_elem_of_lookup_2].
  - right. intros Hst. destruct (He Hst) as [[m Hm]%list_elem_of_lookup|]; [left|by right]. simpl.
    apply (list_elem_of_lookup_2 _ m). rewrite list_lookup_insert_ne; [done|]. intros <-. congruence.
Qed.

Lemma step_pinv base l s r : pinv base s → label_ok l s = true → race l s = false → step l s = Some r → ∃ s2, r = Ok s2 ∧ pinv base s2.
Proof using All.
  intros Hpi Hl Hrace Hr. pose proof Hpi as ((i & Hx) & Hend). destruct l as [l|j f|p reported].
  - destruct (plain l) eqn:Hp; [|cbn [step] in Hr; by rewrite Hp in Hr].
    assert (ServerPool.label_ok l = true ∧ match l with YBind _ _ | YStart => loops (srv s) = [] | _ => True end) as [Hlo Hf].
    { destruct l; try done; cbn [label_ok] in Hl; rewrite ?andb_true_iff, ?bool_decide_eq_true in Hl; [by destruct Hl|done]. }
    destruct (plain_ok base i l s r Hx Hp Hlo Hrace Hf Hr) as (s2 & i2 & -> & Hx2 & Hmv). exists s2. split; [done|].
    pose proof (ServerPool.y_good _ _ (x_sinv _ _ _ Hx)) as Hg. split; [by exists i2|].
    destruct (moves_loops base l _ _ Hg (x_loops _ _ _ Hx) Hf Hmv) as [_ Hk].
    assert (l ≠ YStart → loops (srv s) = [] → loops (srv s2) = []) as Hnone.
    { intros Hns H0. destruct (loops (srv s2)) as [|q rest] eqn:Hls; [done|exfalso].
      destruct (Hk q) as [[Hq _]|[? _]]; [by left| |done]. rewrite H0 in Hq. by apply not_elem_of_nil in Hq. }
    pose proof (moves_ending base l _ _ Hg Hmv) as He.
    destruct l; try (destruct Hend; [left; by apply Hnone|right; by apply He]); [left; by apply Hnone|right; by apply He].
  - destruct (register_ok base i j f s r Hx Hl Hr) as (s2 & i2 & -> & Hx2 & Hw). exists s2. split; [done|by eapply registers_pinv].
  - destruct (event_ok base i p reported s r Hx Hr) as (s2 & i2 & -> & Hx2 & Hw). exists s2. split; [done|].
    apply (registers_pinv base i2 s); [done|done|by left].
Qed.

Lemma race_ends base l s : pinv base s → race l s = true → step l s = Some (Err UndefinedBehaviour).
Proof using.
  intros ((i & Hx) & _) Hrace. destruct l as [l| |]; [|done..]. cbn [race step] in *.
  assert (plain l = true) as -> by (by destruct l).
  by rewrite (ServerPool.race_step (NetLaws0 := HookNet.hook_laws) host base l s (x_sinv _ _ _ Hx) Hrace).
Qed.

Lemma run_pinv base ls : ∀ s, pinv base s → orderly ls s = true →
  if raceless ls s then ∃ s', run ls s = Ok s' ∧ pinv base s' else run ls s = Err UndefinedBehaviour.
Proof using All.
  unfold orderly, raceless. induction ls as [|l ls IH]; intros s Hs Hls; [by exists s|]. cbn [throughout run] in *.
  destruct (step l s) as [r|] eqn:Hr; [|by apply IH]. destruct (race l s) eqn:Hrace.
  { rewrite (race_ends base l s Hs Hrace) in Hr. by injection Hr as <-. }
  assert (label_ok l s = true) as Hl by (destruct r; [by apply andb_true_iff in Hls as [? _]|done]).
  destruct (step_pinv base l s r Hs Hl Hrace Hr) as (s1 & -> & Hs1). apply andb_true_iff in Hls as [_ Hls]. by apply IH.
Qed.

Lemma pinv_new threads self uc ids p0 rt w0 i0 : Scheduler.started threads self uc ids p0 → HookNet.hw_valid w0 →
  Hook.iom (HookNet.world w0) = Some i0 → IOManager.regs (IOManager.heap i0) = [] →
  pinv (HookNet.is_open w0) (ServerPool.Sys_new rt w0 p0).
Proof using.
  intros Hst Hv Hi Hr. change (valid (NetLaws := HookNet.hook_laws) w0) in Hv.
  assert (∀ q c k, IOManager.heap i0 !! q = Some c → IOManager.waits k c = true → False) as Hno.
  { intros q c k Hq (m & _ & Hk)%IOManager.waits_registration. pose proof (Wake.waits_regs i0 q c k _ Hq Hk) as Hin.
    rewrite Hr in Hin. by apply not_elem_of_nil in Hin. }
  split; [|by left]. exists i0. constructor; [by eapply (ServerPool.sinv_new (NetLaws0 := HookNet.hook_laws))|exact Hi| | |by rewrite Hr|].
  - intros q c k Hq Hk. by destruct (Hno q c k Hq Hk).
  - split; [constructor|by intros p ?%not_elem_of_nil].
  - intros q c k Hq Hk. by destruct (Hno q c k Hq Hk).
Qed.


End laws.
End system.

(** ** Witnesses *)

(** Thread [i] has its function wait as the fiber [f]. *)
Definition waits_as (i : nat) (f : Z) : list label := [XRegister i f; XPool (YYield i); XPool (YSwitch i)].

(** Thread 1 begins the accept loop, which waits for descriptor 3 as fiber 9. [Stop]'s
    function, in thread 2, closes the socket; that wakes the loop, which ends. *)
Definition starting : list label :=
  [XPool (YBind [Socket.loopback] []); XPool YStart; XPool (YTake 1); XPool (YResume 1); XPool (YRun 1)].

Definition waiting : list label := starting ++ waits_as 1 9.

Definition closing : list label := [XPool YStop; XPool (YTake 2); XPool (YResume 2); XPool (YRun 2)].

Definition stop_run : list label :=
  waiting ++ closing ++ [XPool (YTake 1); XPool (YResume 1); XPool (YRun 1); XPool (YRun 1)].

(** The same server bound and started once more. Its loop has registered as fiber 10 when
    the server is stopped and its socket closed, and only then becomes READY and leaves. *)
Definition second_life : list label :=
  starting ++ [XRegister 1 10] ++ closing ++ [XPool (YYield 1); XPool (YSwitch 1); XPool (YTake 1); XPool (YResume 1);
    XPool (YRun 1); XPool (YRun 1)].

Definition two_lives : list label := stop_run ++ second_life.

Definition stack0 : ServerPool.Sys (W := HookNet.HW) := ServerPool.Sys_new 120000 HookNet.hw0 Scheduler.sample0.

(** What waits, what is in the queue, and what the IO manager has registered. *)
Definition seen {K : Kernel} (ls : list label) : res (list ScheduleTask * list ScheduleTask * list (Z * ScheduleTask)) :=
  match run TcpServer.LE 7 ls stack0 with
  | Ok s => Ok (parked_ s, tasks_ (sched (pool s)),
      match manager s with Some i => IOManager.regs (IOManager.heap i) | None => [] end)
  | Err e => Err e
  end.

Definition fiber9 : ScheduleTask := task_of_fiber (Some 9) (-1).

Example loop_registered : seen waiting = Ok ([fiber9], [], [(7, fiber9)]).
Proof. vm_compute. reflexivity. Qed.

Example waits_again : seen (stop_run ++ starting ++ [XRegister 1 10]) =
  Ok ([task_of_fiber (Some 10) (-1)], [], [(7, task_of_fiber (Some 10) (-1))]).
Proof. vm_compute. reflexivity. Qed.

(** A connection comes: the context of descriptor 3 is the fourth. *)
Example loop_scheduled : seen (waiting ++ [XEvent 4 IOManager.EPOLLIN]) = Ok ([], [fiber9], []).
Proof. vm_compute. reflexivity. Qed.

Example loop_woken : seen (waiting ++ closing) = Ok ([], [fiber9], []).
Proof. vm_compute. reflexivity. Qed.


(** ** Edge cases *)

(** Started again before the old loops have ended, a server has two loops on one socket, and
    the second registers what is registered: the assertion of [AddEvent] fails. *)
Example second_start : seen (waiting ++ [XPool YStop; XPool YStart; XPool (YTake 2); XPool (YTake 1); XPool (YResume 1);
  XPool (YRun 1); XRegister 1 10]) = Err AssertFail.
Proof. vm_compute. reflexivity. Qed.

(** The small kernel with other sockets and another [epoll_ctl]. *)
Definition kernel_with (sockets : nat → gset Z → Z) (ctl : nat → bool → bool) : Kernel := {|
  k_socket_fd := sockets;
  k_new_flags := k_new_flags (Kernel := HookNet.small_kernel);
  k_accept := k_accept (Kernel := HookNet.small_kernel);
  k_transfer := k_transfer (Kernel := HookNet.small_kernel);
  k_data := k_data (Kernel := HookNet.small_kernel);
  k_connect := k_connect (Kernel := HookNet.small_kernel);
  k_timeout := k_timeout (Kernel := HookNet.small_kernel);
  k_result := k_result (Kernel := HookNet.small_kernel);
  k_getsockopt := k_getsockopt (Kernel := HookNet.small_kernel);
  k_name := k_name (Kernel := HookNet.small_kernel);
  k_ctl := ctl |}.

(** One without descriptors after the first. *)
Definition one_socket : Kernel :=
  kernel_with (λ t open, if decide (t = 0%nat) then HookNet.new_number open else -1) (λ _ _, true).

(** One that registers nothing: [accept] returns, and the loop goes round. *)
Definition no_events : Kernel := kernel_with (λ _, HookNet.new_number) (λ _ adding, negb adding).

Example refused : seen (K := no_events) (starting ++ [XRegister 1 9]) = Ok ([], [], []) ∧
  match run (K := no_events) TcpServer.LE 7 (starting ++ [XRegister 1 9]) stack0 with
  | Ok s => TcpServer.accept_worker (srv s) = [TcpServer.TStartAccept 0]
  | Err _ => False
  end.
Proof. vm_compute. done. Qed.

(** One that does not forget what it has registered: the closing of the socket wakes
    nobody, and the loop waits for ever. *)
Definition keeps_events : Kernel := kernel_with (λ _, HookNet.new_number) (λ _ adding, adding).

Example never_forgotten : seen (K := keeps_events) (waiting ++ closing) = Ok ([fiber9], [], [(7, fiber9)]).
Proof. vm_compute. reflexivity. Qed.

(** The event comes when the fiber is READY and has not left its thread. *)
Example woken_too_early : seen (starting ++ [XRegister 1 9; XEvent 4 IOManager.EPOLLIN; XPool (YYield 1);
  XPool (YTake 2); XPool (YResume 2)]) = Err UndefinedBehaviour.
Proof. vm_compute. reflexivity. Qed.

(** Binding one more address while the server runs: when that fails the server forgets all
    its sockets, also those whose loops run, and [Stop]'s function closes none of them; the
    loop waits for ever. *)
Example late_bind : seen (K := one_socket) (waiting ++ XPool (YBind [Socket.loopback] []) :: closing) =
  Ok ([fiber9], [], [(7, fiber9)]).
Proof. vm_compute. reflexivity. Qed.

End Stack.
