(* ===== verification/Drain.v ===== *)
(** * A stopped server ends, whatever its threads do, as long as each of them goes on

    [Module Drain] proves the liveness of the stack of [Stack]. [stop_wakes_all] says that
    nothing is left when the threads of a stopped server have nothing to do; here it is
    shown that they come to that point.

    [View] is what counts for it: where the threads are, the queue, the functions that have
    not ended, and whether the server has closed its sockets. [turn] is what one thread
    does, [tick] one step of the system; [measure] goes down with the steps that are made
    for somebody and up with none ([tick_le]). The rest ties this to [Stack]: each step of
    the stack is a [tick] ([step_tick]), and a thread that has not left [Run] can always go
    on ([step_able]), unless it would resume a fiber that has not switched away yet. A round
    of a schedule ([fair_round]) gives every thread the chance to leave its idle fiber, take,
    resume, run, become READY and switch; each round lowers the measure ([round_lower]), so a
    bounded number of rounds ends the server. *)

From stdpp Require Import gmap sets.
From S2P Require Import Prelude Endian Fiber Scheduler FdManager IOManager Hook Address Socket TcpServer.
From S2P Require Import ServerPool HookNet Wake Stack.
Import Endian.

Module Drain.
Import Scheduler(ScheduleTask, task_of_fiber, task_of_cb, fiber, tasks_, sched, pcs, held, pc, pc_task,
  PLoop, PHave, PRun, PLeave, PIdle, PExit).
Import ServerPool(srv, pool, accepts, clients, parked_, index_of, YBind, YStart, YStop, YStopPool, YTake, YResume,
  YIdle, YRun, YRegister, YYield, YSwitch, YWake).
Import Stack(XPool, XRegister, XEvent).
#[local] Existing Instance Scheduler.ScheduleTask_eq_dec.
#[local] Existing Instance Scheduler.pc_eq_dec.

(** ** What counts *)

(** A function of the accept worker, or of the IO worker. *)
#[local] Abbreviation job := (option TcpServer.task).

Record View := mkView {
  v_pcs : list (Z * pc);
  v_queue : list ScheduleTask;
  v_jobs : list (ScheduleTask * job);
  v_closed : bool
}.

Definition client_job (c : ScheduleTask) : ScheduleTask * job := (c, None).

Definition closes (j : job) : bool := match j with Some TcpServer.TClose => true | _ => false end.

(** A fiber that has registered and still runs: nobody takes it, though it may be in the
    queue already. *)
Definition pc_quiet (p : pc) : option Z := match p with PRun _ _ (Some f) => Some f | _ => None end.
Definition quiet (ps : list (Z * pc)) : list Z := omap (λ np, pc_quiet np.2) ps.

Definition awake (ps : list (Z * pc)) (t : ScheduleTask) : Prop := ∀ f, fiber t = Some f → f ∉ quiet ps.

(** What thread [i] does in one step. A function that goes on has accepted, or not, and has
    at most one client for the IO worker; one that registers is known by its fiber from then
    on. *)
Inductive turn (i : nat) : View → View → Prop :=
  | turn_idle n it ps q js c : ps !! i = Some (n, PIdle) →
      turn i (mkView ps q js c) (mkView (<[i := (n, PLoop it)]> ps) q js c)
  | turn_none n it p ps q js c : ps !! i = Some (n, PLoop it) → Forall (λ t, ¬ awake ps t) q → p = PIdle ∨ p = PExit →
      turn i (mkView ps q js c) (mkView (<[i := (n, p)]> ps) q js c)
  | turn_take n it t ps q1 q2 js c : ps !! i = Some (n, PLoop it) → Forall (λ t, ¬ awake ps t) q1 → awake ps t →
      turn i (mkView ps (q1 ++ t :: q2) js c) (mkView (<[i := (n, PHave it t)]> ps) (q1 ++ q2) js c)
  | turn_resume n it t ps q js c : ps !! i = Some (n, PHave it t) →
      turn i (mkView ps q js c) (mkView (<[i := (n, PRun it t None)]> ps) q js c)
  | turn_go n it t ps q js js' c p fd rest cs : ps !! i = Some (n, PRun it t None) →
      js ≡ₚ (t, Some (TcpServer.TAccepting p fd)) :: rest →
      js' ≡ₚ (t, Some (TcpServer.TStartAccept p)) :: rest ++ (client_job <$> cs) → (length cs ≤ 1)%nat →
      turn i (mkView ps q js c) (mkView ps q js' c)
  | turn_end n it t ps q js js' c j rest : ps !! i = Some (n, PRun it t None) → js ≡ₚ (t, j) :: rest → js' ≡ₚ rest →
      turn i (mkView ps q js c) (mkView (<[i := (n, PLoop it)]> ps) q js' (c || closes j))
  | turn_register n it t f ps q js js' p fd rest : ps !! i = Some (n, PRun it t None) →
      js ≡ₚ (t, Some (TcpServer.TAccepting p fd)) :: rest →
      js' ≡ₚ (task_of_fiber (Some f) (-1), Some (TcpServer.TAccepting p fd)) :: rest →
      turn i (mkView ps q js false) (mkView (<[i := (n, PRun it t (Some f))]> ps) q js' false)
  | turn_yield n it t f ps q js c : ps !! i = Some (n, PRun it t (Some f)) →
      turn i (mkView ps q js c) (mkView (<[i := (n, PLeave it t (Some f))]> ps) q js c)
  | turn_switch n it t o ps q js c : ps !! i = Some (n, PLeave it t o) →
      turn i (mkView ps q js c) (mkView (<[i := (n, PLoop it)]> ps) q js c).

Definition also (ts : list ScheduleTask) (v : View) : View :=
  mkView (v_pcs v) (v_queue v ++ ts) (v_jobs v) (v_closed v).

(** A step of thread [o], or of nobody; then [ts] are scheduled. *)
Definition tick (o : option nat) (v v' : View) : Prop := ∃ v1 ts,
  match o with Some i => turn i v v1 | None => v1 = v end ∧ v' = also ts v1.

Definition weight (j : job) : nat := match j with Some (TcpServer.TAccepting _ _) => 7 | _ => 3 end.
Definition todo (js : list (ScheduleTask * job)) : nat := sum_list_with (λ x, weight x.2) js.

Definition on_pcs (f : pc → nat) (l : list (Z * pc)) : nat := sum_list_with (λ x, f x.2) l.
Definition done_of (p : pc) : nat := match p with PHave _ _ => 1 | PRun _ _ None => 2 | _ => 0 end.
Definition out_of (p : pc) : nat := match p with PRun _ _ (Some _) => 2 | PLeave _ _ _ => 1 | _ => 0 end.
Definition due_of (p : pc) : nat :=
  match p with PHave _ _ => 4 | PRun _ _ None => 3 | PRun _ _ (Some _) => 2 | PLeave _ _ _ => 1 | _ => 0 end.
Definition has (tc : ScheduleTask) (p : pc) : nat :=
  match p with PHave _ t => if decide (t = tc) then 1 else 0 | _ => 0 end.

(** [tc] is a function of [Stop]. Until it has run, loops may register, and their turns lead
    to nothing; what counts is how far it has come. *)
Definition measure (tc : ScheduleTask) (v : View) : nat :=
  if v_closed v then todo (v_jobs v) - on_pcs done_of (v_pcs v) + on_pcs out_of (v_pcs v)
  else match index_of tc (v_queue v) with
       | Some k => todo (v_jobs v) + 3 + 8 * k + on_pcs due_of (v_pcs v) + 2 * length (v_pcs v)
       | None => todo (v_jobs v) + 1 + on_pcs (has tc) (v_pcs v) + 2 * length (v_pcs v)
       end.

(** Each function is in one place; once the sockets are closed nobody waits, and [tc] never
    does. *)
Record placed (tc : ScheduleTask) (v : View) : Prop := {
  v_nodup : NoDup (v_jobs v).*1;
  v_places : ∃ parked, (v_jobs v).*1 ≡ₚ v_queue v ++ ServerPool.busy (v_pcs v) ++ parked ∧
    (v_closed v = true → parked = []) ∧ (v_closed v = false → tc ∉ parked)
}.

Definition alive (ps : list (Z * pc)) : Prop := Exists (λ x, x.2 ≠ PExit) ps.

Record going (tc : ScheduleTask) (v : View) : Prop := {
  g_close : v_closed v = false → (tc, Some TcpServer.TClose) ∈ v_jobs v;
  g_alive : v_jobs v = [] ∨ alive (v_pcs v)
}.

Section views.
Context (tc : ScheduleTask) (tc_cb : fiber tc = None).
Implicit Types (v : View) (ps : list (Z * pc)) (js : list (ScheduleTask * job)).

(** *** Sums *)

Lemma on_pcs_insert f ps i n p p' : ps !! i = Some (n, p) →
  (on_pcs f (<[i := (n, p')]> ps) + f p = on_pcs f ps + f p')%nat.
Proof using. intros Hi. exact (sum_with_insert (λ x, f x.2) ps i (n, p) (n, p') Hi). Qed.

Lemma on_pcs_bound f b ps : (∀ p, f p ≤ b)%nat → (on_pcs f ps ≤ b * length ps)%nat.
Proof using. intros Hf. unfold on_pcs. induction ps as [|[n p] ps IH]; simpl; [lia|]. specialize (Hf p). lia. Qed.

Lemma out_bound ps : (on_pcs out_of ps ≤ 2 * length ps)%nat.
Proof using. apply on_pcs_bound. intros [| |? ? []| | |]; simpl; lia. Qed.

Lemma todo_perm js js' : js ≡ₚ js' → todo js = todo js'.
Proof using. intros Hp. unfold todo. by rewrite Hp. Qed.

Lemma todo_clients cs : todo (client_job <$> cs) = (3 * length cs)%nat.
Proof using. unfold todo. induction cs as [|c cs IH]; [done|]. cbn. rewrite IH. lia. Qed.

Lemma todo_app js js' : todo (js ++ js') = (todo js + todo js')%nat.
Proof using. apply sum_list_with_app. Qed.

Lemma todo_bound js : (3 * length js ≤ todo js ≤ 7 * length js)%nat.
Proof using. unfold todo. induction js as [|[t [[]|]] js IH]; simpl; lia. Qed.

Lemma done_bound ps : (on_pcs done_of ps ≤ 2 * length (ServerPool.busy ps))%nat.
Proof using. unfold on_pcs. induction ps as [|[n [| |? ? []| | |]] ps IH]; simpl in *; lia. Qed.

Lemma has_none ps : tc ∉ ServerPool.busy ps → on_pcs (has tc) ps = 0%nat.
Proof using.
  clear tc_cb. unfold on_pcs. induction ps as [|[n p] ps IH]; [done|]. intros Hno.
  destruct p as [| |? ? []| | |]; simpl in *; try (apply IH; set_solver). rewrite decide_False by set_solver. apply IH. set_solver.
Qed.

Lemma held_elem ps t : t ∈ (held ps).*2 ↔ ∃ i n p, ps !! i = Some (n, p) ∧ pc_task p = Some t.
Proof using.
  rewrite list_elem_of_fmap. split.
  - intros ([m u] & -> & Hu). apply list_elem_of_omap in Hu as ([m' p] & [i Hi]%list_elem_of_lookup & Hp).
    exists i, m', p. split; [done|]. simpl in *. by destruct (pc_task p); simplify_eq/=.
  - intros (i & n & p & Hi & Hp). exists (n, t). split; [done|]. apply list_elem_of_omap. exists (n, p).
    split; [by eapply list_elem_of_lookup_2|]. simpl. by rewrite Hp.
Qed.

(** There is more to do than the threads have done. *)
Lemma room v : placed tc v →
  (on_pcs done_of (v_pcs v) + length (ServerPool.busy (v_pcs v)) + 3 * length (v_queue v) ≤ todo (v_jobs v))%nat.
Proof using.
  intros [_ (parked & Hp & _)]. pose proof (todo_bound (v_jobs v)). pose proof (done_bound (v_pcs v)).
  apply Permutation_length in Hp. rewrite !length_app, !length_fmap in Hp. lia.
Qed.

Lemma busy_some ps i n p t : ps !! i = Some (n, p) → ServerPool.pc_busy p = Some t → (0 < length (ServerPool.busy ps))%nat.
Proof using.
  intros Hi Hp. assert (t ∈ ServerPool.busy ps) as Hin by (apply ServerPool.busy_elem; eauto).
  destruct (ServerPool.busy ps); [by apply not_elem_of_nil in Hin|simpl; lia].
Qed.

Lemma in_queue v t : placed tc v → t ∈ ServerPool.busy (v_pcs v) → t ∉ v_queue v.
Proof using.
  intros [Hnd (parked & Hp & _)] Hh Hq. rewrite Hp in Hnd. apply NoDup_app in Hnd as (_ & Hd & _).
  apply (Hd t Hq). apply elem_of_app. by left.
Qed.

Lemma one_job v t j j' : placed tc v → (t, j) ∈ v_jobs v → (t, j') ∈ v_jobs v → j = j'.
Proof using.
  intros [Hnd _] [a Ha]%list_elem_of_lookup [b Hb]%list_elem_of_lookup.
  assert (a = b) as <-; [|congruence]. eapply (NoDup_lookup _ _ _ t Hnd); rewrite list_lookup_fmap; [by rewrite Ha|by rewrite Hb].
Qed.

Lemma tc_awake ps : awake ps tc.
Proof using tc_cb. intros f. by rewrite tc_cb. Qed.

Lemma all_awake ps t : quiet ps = [] → awake ps t.
Proof using. intros Hq f _. rewrite Hq. apply not_elem_of_nil. Qed.

Lemma none_awake ps q : quiet ps = [] → Forall (λ t, ¬ awake ps t) q → q = [].
Proof using. intros Hq Hn. destruct q as [|t q]; [done|]. apply Forall_cons in Hn as [Hn _]. by destruct Hn; apply all_awake. Qed.

(** *** One step *)

Lemma turn_other i k v v' : turn i v v' → k ≠ i → v_pcs v' !! k = v_pcs v !! k.
Proof using. intros [] ?; simpl; try done; by apply list_lookup_insert_ne. Qed.

Lemma tick_other o k v v' : tick o v v' → o ≠ Some k → v_pcs v' !! k = v_pcs v !! k.
Proof using.
  intros (v1 & ts & Ho & ->) Hne. simpl. destruct o as [i|]; [|by subst]. apply (turn_other i); [done|congruence].
Qed.

Lemma tick_length o v v' : tick o v v' → length (v_pcs v') = length (v_pcs v).
Proof using.
  intros (v1 & ts & Ho & ->). simpl. destruct o as [i|]; [|by subst].
  destruct Ho; simpl; by rewrite ?length_insert.
Qed.

Lemma tick_closed o v v' : tick o v v' → v_closed v = true → v_closed v' = true.
Proof using.
  intros (v1 & ts & Ho & ->). simpl. destruct o as [i|]; [|by subst]. destruct Ho; simpl; try done. by intros ->.
Qed.

Lemma tick_keeps_close o v v' : placed tc v → tick o v v' → (v_closed v = false → (tc, Some TcpServer.TClose) ∈ v_jobs v) →
  v_closed v' = false → (tc, Some TcpServer.TClose) ∈ v_jobs v'.
Proof using.
  intros Hp (v1 & ts & Ho & ->) Hc. simpl. destruct o as [i|]; [|by subst].
  destruct Ho as [| | | |n it t ps q js js' c p fd rest cs Hi H1 H2 _|n it t ps q js js' c j rest Hi H1 H2|
    n it t f ps q js js' p fd rest Hi H1 H2| |]; simpl in *; try done; intros Hf.
  - rewrite H2. specialize (Hc Hf). rewrite H1 in Hc. apply elem_of_cons in Hc as [?|?]; [done|].
    right. apply elem_of_app. by left.
  - apply orb_false_iff in Hf as [-> Hj]. specialize (Hc eq_refl). rewrite H1 in Hc. rewrite H2.
    apply elem_of_cons in Hc as [[= <- <-]|?]; [done|done].
  - rewrite H2. specialize (Hc eq_refl). rewrite H1 in Hc. apply elem_of_cons in Hc as [?|?]; [done|by right].
Qed.

(** With no thread busy and an empty queue, nothing is left. *)
Lemma nothing_left v : placed tc v → (v_closed v = false → (tc, Some TcpServer.TClose) ∈ v_jobs v) →
  v_queue v = [] → ServerPool.busy (v_pcs v) = [] → v_jobs v = [].
Proof using.
  intros [_ (parked & Hp & Hc & Hn)] Hj Hq Hh. rewrite Hq, Hh in Hp. simpl in Hp. destruct (v_closed v).
  - rewrite Hc in Hp by done. apply Permutation_nil_r in Hp. by apply fmap_nil_inv in Hp.
  - exfalso. apply (Hn eq_refl). rewrite <- Hp. apply list_elem_of_fmap. exists (tc, Some TcpServer.TClose).
    split; [done|by apply Hj].
Qed.

Lemma exited ps : ¬ alive ps → ServerPool.busy ps = [] ∧ quiet ps = [].
Proof using.
  intros Hn. induction ps as [|[n p] ps IH]; [done|]. unfold ServerPool.busy, quiet in *. simpl.
  assert (p = PExit) as -> by (destruct (decide (p = PExit)); [done|destruct Hn; by left]).
  apply IH. intros H. apply Hn. by right.
Qed.

Lemma alive_insert i n p ps : p ≠ PExit → (i < length ps)%nat → alive (<[i := (n, p)]> ps).
Proof using.
  intros Hp Hi. apply Exists_exists. exists (n, p). split; [|done]. apply (list_elem_of_lookup_2 _ i).
  by apply list_lookup_insert_eq.
Qed.

(** The fibers that have registered and run, when a thread moves. *)
Lemma quiet_insert ps i n p : ps !! i = Some (n, p) → pc_quiet p = None → ∀ p',
  quiet (<[i := (n, p')]> ps) ≡ₚ option_list (pc_quiet p') ++ quiet ps.
Proof using.
  intros Hi Hp p'. destruct (ServerPool.omap_insert (λ np : Z * pc, pc_quiet np.2) ps i (n, p) Hi) as (rest & H1 & H2 & _).
  simpl in H1. rewrite Hp in H1. unfold quiet. rewrite (H2 (n, p')), H1. done.
Qed.

Lemma tick_going o v v' : placed tc v → tick o v v' → going tc v → going tc v'.
Proof using.
  intros Hp Ht [Hc Ha]. split; [by eapply tick_keeps_close|]. destruct Ht as (v1 & ts & Ho & ->). simpl.
  destruct o as [i|]; [|by subst].
  destruct Ho as [n it ps q js c Hi|n it p ps q js c Hi Hq Hp'|n it t ps q1 q2 js c Hi Hq Ht|n it t ps q js c Hi
    |n it t ps q js js' c p fd rest cs Hi H1 H2 _|n it t ps q js js' c j rest Hi H1 H2|n it t f ps q js js' p fd rest Hi H1 H2
    |n it t f ps q js c Hi|n it t o ps q js c Hi]; simpl in *;
    pose proof (lookup_lt_Some _ _ _ Hi) as Hlt.
  2: { assert (Decision (alive (<[i := (n, p)]> ps))) as [Hal|Hno]; [unfold alive; apply _|by right|]. left.
       destruct (exited _ Hno) as [Hb Hqu]. assert (ServerPool.pc_busy p = None ∧ pc_quiet p = None) as [Hpb Hpq]
         by (destruct Hp' as [-> | ->]; done).
       pose proof (ServerPool.busy_none ps i n (PLoop it) Hi eq_refl p) as Hh. rewrite Hb, Hpb in Hh.
       pose proof (quiet_insert ps i n (PLoop it) Hi eq_refl p) as Hqi. rewrite Hqu, Hpq in Hqi. simpl in Hh, Hqi.
       symmetry in Hh, Hqi. apply Permutation_nil_r in Hh, Hqi. rewrite (none_awake ps q Hqi Hq) in *.
       exact (nothing_left _ Hp Hc eq_refl Hh). }
  all: right; try (by apply alive_insert). apply Exists_exists. exists (n, PRun it t None).
  split; [by eapply list_elem_of_lookup_2|done].
Qed.

(** *** The measure *)

Lemma index_of_app t l k n : index_of t l = Some n → index_of t (l ++ k) = Some n.
Proof using.
  unfold index_of. destruct (list_find (t =.) l) as [[m u]|] eqn:Hf; [|done]. intros [= <-].
  by rewrite (list_find_app_l _ _ _ _ _ Hf).
Qed.

Lemma index_of_None t l : t ∉ l → index_of t l = None.
Proof using.
  intros Hn. unfold index_of. destruct (list_find (t =.) l) as [[m u]|] eqn:Hf; [|done].
  apply list_find_Some in Hf as (Hl & -> & _). by apply list_elem_of_lookup_2 in Hl.
Qed.

Lemma index_of_elem t l : t ∈ l → ∃ k, index_of t l = Some k.
Proof using.
  intros Hin. unfold index_of. destruct (list_find_elem_of (t =.) l t Hin eq_refl) as [[k u] ->]. by exists k.
Qed.

Lemma index_of_not t l : index_of t l = None → t ∉ l.
Proof using. intros Hn [k Hk]%index_of_elem. congruence. Qed.

Lemma index_of_cons t u l : index_of t (u :: l) = if decide (t = u) then Some 0%nat else S <$> index_of t l.
Proof using.
  unfold index_of. simpl. destruct (decide (t = u)); [done|]. by destruct (list_find (t =.) l) as [[]|].
Qed.

(** Who is behind the one that is taken moves up. *)
Lemma index_of_taken t u q1 q2 k : t ∉ q1 → t ≠ u → index_of t (q1 ++ u :: q2) = Some k →
  ∃ k', index_of t (q1 ++ q2) = Some k' ∧ k = S k'.
Proof using.
  revert k. induction q1 as [|x q1 IH]; intros k Hq Hu; simpl.
  - rewrite index_of_cons, decide_False by done. destruct (index_of t q2) as [k'|]; [|done]. intros [= <-]. by exists k'.
  - apply not_elem_of_cons in Hq as [Hx Hq]. rewrite !index_of_cons, !decide_False by done.
    destruct (index_of t (q1 ++ u :: q2)) as [m|] eqn:Hm; [|done]. intros [= <-].
    destruct (IH m Hq Hu eq_refl) as (k' & -> & ->). by exists (S k').
Qed.

Lemma tick_todo o v v' : tick o v v' → (todo (v_jobs v') ≤ todo (v_jobs v))%nat.
Proof using.
  intros (v1 & ts & Ho & ->). destruct o as [i|]; [|by subst].
  destruct Ho as [| | | |n it t ps q js js' c p fd rest cs Hi H1 H2 Hcs|n it t ps q js js' c j rest Hi H1 H2|
    n it t f ps q js js' p fd rest Hi H1 H2| |]; simpl; try done; rewrite (todo_perm _ _ H1), (todo_perm _ _ H2); unfold todo; simpl; [|lia|lia].
  fold (todo (rest ++ (client_job <$> cs))) (todo rest). rewrite todo_app, todo_clients. lia.
Qed.

(** The steps that are made for somebody. *)
Definition busy (v : View) (o : option nat) : Prop :=
  ∃ i n p, o = Some i ∧ v_pcs v !! i = Some (n, p) ∧
    match p with
    | PLoop _ => Exists (awake (v_pcs v)) (v_queue v)
    | PHave _ _ | PRun _ _ _ | PLeave _ _ _ => True
    | _ => False
    end.

Lemma not_busy_none ps q n it : Forall (λ t, ¬ awake ps t) q → ∀ i js c, ps !! i = Some (n, PLoop it) →
  ¬ busy (mkView ps q js c) (Some i).
Proof using.
  intros Hq i js c Hi (i' & n' & p & [= <-] & Hi' & Hb). simpl in Hi'. rewrite Hi in Hi'. injection Hi' as <- <-. simpl in Hb.
  apply Exists_exists in Hb as (t & Ht & Ha). rewrite Forall_forall in Hq. by apply (Hq t Ht).
Qed.

Lemma not_busy_idle ps q n : ∀ i js c, ps !! i = Some (n, PIdle) → ¬ busy (mkView ps q js c) (Some i).
Proof using. intros i js c Hi (i' & n' & p & [= <-] & Hi' & Hb). simpl in Hi'. rewrite Hi in Hi'. by injection Hi' as <- <-. Qed.

(** The sockets are closed. *)
Lemma tick_closed_le o v v' : placed tc v → placed tc v' → tick o v v' → v_closed v = true →
  (measure tc v' ≤ measure tc v)%nat ∧ (busy v o → (measure tc v' < measure tc v)%nat).
Proof using.
  clear tc_cb. intros Hp Hp' Ht Hc. pose proof (tick_closed _ _ _ Ht Hc) as Hc'. unfold measure. rewrite Hc, Hc'.
  pose proof (room v Hp) as Hr. pose proof (room v' Hp') as Hr'. destruct Ht as (v1 & ts & Ho & ->). simpl in *.
  destruct o as [i|]; [|subst; split; [done|]; by intros (i & n & p & [=] & _)].
  assert (∀ n p p' ps, ps !! i = Some (n, p) →
    (on_pcs done_of (<[i := (n, p')]> ps) + done_of p = on_pcs done_of ps + done_of p')%nat ∧
    (on_pcs out_of (<[i := (n, p')]> ps) + out_of p = on_pcs out_of ps + out_of p')%nat) as Hd.
  { intros n p p' ps Hi. split; by apply on_pcs_insert. }
  destruct Ho as [n it ps q js c Hi|n it p ps q js c Hi Hq Hpx|n it t ps q1 q2 js c Hi Hq Ht|n it t ps q js c Hi
    |n it t ps q js js' c p fd rest cs Hi H1 H2 Hcs|n it t ps q js js' c j rest Hi H1 H2|n it t f ps q js js' p fd rest Hi H1 H2
    |n it t f ps q js c Hi|n it t o ps q js c Hi]; simpl in *.
  - destruct (Hd n PIdle (PLoop it) ps Hi) as [Hd1 Hd2]. simpl in Hd1, Hd2. split; [lia|].
    intros Hb. by destruct (not_busy_idle ps q n i js c Hi).
  - destruct (Hd n (PLoop it) p ps Hi) as [Hd1 Hd2]. assert (done_of p = 0%nat ∧ out_of p = 0%nat) as [H0 H00] by (by destruct Hpx as [-> | ->]).
    simpl in Hd1, Hd2. split; [lia|]. intros Hb. by destruct (not_busy_none ps q n it Hq i js c Hi).
  - destruct (Hd n (PLoop it) (PHave it t) ps Hi) as [Hd1 Hd2]. simpl in Hd1, Hd2. rewrite !length_app in *. simpl in *. lia.
  - destruct (Hd n (PHave it t) (PRun it t None) ps Hi) as [Hd1 Hd2]. pose proof (busy_some ps i n (PHave it t) t Hi eq_refl).
    simpl in Hd1, Hd2. lia.
  - pose proof (busy_some ps i n (PRun it t None) t Hi eq_refl).
    rewrite (todo_perm _ _ H1), (todo_perm _ _ H2) in *. unfold todo in Hr, Hr' |- *. simpl in *.
    fold (todo (rest ++ (client_job <$> cs))) (todo rest) in *. rewrite todo_app, todo_clients in *. lia.
  - destruct (Hd n (PRun it t None) (PLoop it) ps Hi) as [Hd1 Hd2]. simpl in Hd1, Hd2.
    pose proof (busy_some ps i n (PRun it t None) t Hi eq_refl).
    rewrite (todo_perm _ _ H1), (todo_perm _ _ H2) in *. unfold todo in Hr, Hr' |- *. simpl in *. destruct j as [[]|]; simpl in *; lia.
  - done.
  - destruct (Hd n (PRun it t (Some f)) (PLeave it t (Some f)) ps Hi) as [Hd1 Hd2]. simpl in Hd1, Hd2. lia.
  - destruct (Hd n (PLeave it t o) (PLoop it) ps Hi) as [Hd1 Hd2]. simpl in Hd1, Hd2. lia.
Qed.

Lemma turn_todo_end js js' t j rest : js ≡ₚ (t, j) :: rest → js' ≡ₚ rest → (todo js' + 3 ≤ todo js)%nat.
Proof using. intros H1 H2. rewrite (todo_perm _ _ H1), (todo_perm _ _ H2). unfold todo. destruct j as [[]|]; simpl; lia. Qed.

Lemma turn_todo_go js js' t p fd rest cs : js ≡ₚ (t, Some (TcpServer.TAccepting p fd)) :: rest →
  js' ≡ₚ (t, Some (TcpServer.TStartAccept p)) :: rest ++ (client_job <$> cs) → (length cs ≤ 1)%nat → (todo js' < todo js)%nat.
Proof using.
  intros H1 H2 Hcs. rewrite (todo_perm _ _ H1), (todo_perm _ _ H2). unfold todo. simpl.
  fold (todo (rest ++ (client_job <$> cs))) (todo rest). rewrite todo_app, todo_clients. lia.
Qed.

Lemma turn_todo_register js js' t t' p fd rest : js ≡ₚ (t, Some (TcpServer.TAccepting p fd)) :: rest →
  js' ≡ₚ (t', Some (TcpServer.TAccepting p fd)) :: rest → todo js' = todo js.
Proof using. intros H1 H2. rewrite (todo_perm _ _ H1), (todo_perm _ _ H2). done. Qed.

(** [tc] is in the queue. *)
Lemma tick_queued_le o v v' k : placed tc v → placed tc v' → tick o v v' → v_closed v = false →
  index_of tc (v_queue v) = Some k →
  (measure tc v' ≤ measure tc v)%nat ∧ (busy v o → (measure tc v' < measure tc v)%nat).
Proof using tc_cb.
  intros Hp Hp' Ht Hc Hk. pose proof (tick_length _ _ _ Ht) as Hlen. pose proof (tick_todo _ _ _ Ht) as Htodo.
  pose proof (out_bound (v_pcs v')) as Hout.
  assert (tc ∈ v_queue v) as Htcq by (eapply list_elem_of_lookup_2; by apply ServerPool.index_of_Some).
  assert (tc ∉ ServerPool.busy (v_pcs v)) as Hno by (intros Hh; by apply (in_queue v tc Hp Hh)).
  pose proof (has_none _ Hno) as Hhas.
  destruct (v_closed v') eqn:Hc'; [unfold measure; rewrite Hc, Hc', Hk; lia|].
  destruct Ht as (v1 & ts & Ho & ->). destruct o as [i|].
  2: { subst v1. unfold measure. simpl. rewrite Hc, Hk, (index_of_app _ _ ts _ Hk). split; [done|]. by intros (i & n & p & [=] & _). }
  destruct Ho as [n it ps q js c Hi|n it p ps q js c Hi Hq Hpx|n it t ps q1 q2 js c Hi Hq Ht|n it t ps q js c Hi
    |n it t ps q js js' c p fd rest cs Hi H1 H2 Hcs|n it t ps q js js' c j rest Hi H1 H2|n it t f ps q js js' p fd rest Hi H1 H2
    |n it t f ps q js c Hi|n it t o ps q js c Hi];
    unfold measure; simpl in *; try rewrite Hc'; try rewrite Hc; rewrite ?(index_of_app _ _ ts _ Hk), Hk, ?Hlen.
  - pose proof (on_pcs_insert due_of ps i n PIdle (PLoop it) Hi) as Hd. simpl in Hd. split; [lia|].
    intros Hb. by destruct (not_busy_idle ps q n i js c Hi).
  - exfalso. rewrite Forall_forall in Hq. by apply (Hq tc Htcq), tc_awake.
  - pose proof (on_pcs_insert due_of ps i n _ (PHave it t) Hi) as Hd. simpl in Hd.
    assert (tc ∉ q1) as Hq1 by (intros Hin; rewrite Forall_forall in Hq; by apply (Hq tc Hin), tc_awake).
    destruct (decide (t = tc)) as [->|Hne].
    + rewrite index_of_None.
      * pose proof (on_pcs_insert (has tc) ps i n _ (PHave it tc) Hi) as Hh. simpl in Hh. rewrite decide_True in Hh by done. lia.
      * apply (in_queue _ _ Hp'), ServerPool.busy_elem. exists i, n, (PHave it tc). split; [|done].
        apply list_lookup_insert_eq. by eapply lookup_lt_Some.
    + destruct (index_of_taken tc t q1 q2 k Hq1 ltac:(done) Hk) as (k' & Hk' & ->). rewrite (index_of_app _ _ ts _ Hk'). lia.
  - pose proof (on_pcs_insert due_of ps i n (PHave it t) (PRun it t None) Hi) as Hd. simpl in Hd. lia.
  - pose proof (turn_todo_go _ _ _ _ _ _ _ H1 H2 Hcs). lia.
  - pose proof (on_pcs_insert due_of ps i n (PRun it t None) (PLoop it) Hi) as Hd. simpl in Hd. lia.
  - pose proof (on_pcs_insert due_of ps i n (PRun it t None) (PRun it t (Some f)) Hi) as Hd. simpl in Hd. lia.
  - pose proof (on_pcs_insert due_of ps i n (PRun it t (Some f)) (PLeave it t (Some f)) Hi) as Hd. simpl in Hd. lia.
  - pose proof (on_pcs_insert due_of ps i n (PLeave it t o) (PLoop it) Hi) as Hd. simpl in Hd. lia.
Qed.

(** [tc] is with a thread. *)
Lemma held_tc v : placed tc v → going tc v → v_closed v = false → index_of tc (v_queue v) = None →
  tc ∈ ServerPool.busy (v_pcs v).
Proof using.
  intros [_ (parked & Hp & _ & Hn)] [Hj _] Hc Hk. assert (tc ∈ (v_jobs v).*1) as Hin.
  { apply list_elem_of_fmap. exists (tc, Some TcpServer.TClose). split; [done|by apply Hj]. }
  rewrite Hp, !elem_of_app in Hin. destruct Hin as [Hq|[?|Hpk]]; [|done|by destruct (Hn Hc)].
  by apply index_of_not in Hk.
Qed.

Lemma tc_stays o v v' : placed tc v → going tc v → v_closed v = false → tick o v v' → tc ∈ ServerPool.busy (v_pcs v) →
  v_closed v' = true ∨ tc ∈ ServerPool.busy (v_pcs v').
Proof using.
  intros Hp [Hj _] Hc Ht (k & m & p & Hk & Hpt)%ServerPool.busy_elem.
  destruct (decide (o = Some k)) as [->|Hne].
  2: { right. apply ServerPool.busy_elem. exists k, m, p. by rewrite (tick_other _ _ _ _ Ht Hne). }
  specialize (Hj Hc). destruct Ht as (v1 & ts & Ho & ->).
  destruct Ho as [n it ps q js c Hi|n it x ps q js c Hi Hq Hpx|n it t ps q1 q2 js c Hi Hq Ht|n it t ps q js c Hi
    |n it t ps q js js' c x fd rest cs Hi H1 H2 Hcs|n it t ps q js js' c j rest Hi H1 H2|n it t f ps q js js' x fd rest Hi H1 H2
    |n it t f ps q js c Hi|n it t o ps q js c Hi];
    simpl in *; rewrite Hi in Hk; injection Hk as <- <-; simplify_eq/=.
  - right. apply ServerPool.busy_elem. exists k, n, (PRun it tc None). split; [|done]. apply list_lookup_insert_eq. by eapply lookup_lt_Some.
  - right. apply ServerPool.busy_elem. by exists k, n, (PRun it tc None).
  - left. assert (Some TcpServer.TClose = j) as <-; [|done]. apply (one_job _ tc _ _ Hp); [done|]. simpl. rewrite H1. by left.
  - assert (Some TcpServer.TClose = Some (TcpServer.TAccepting x fd)); [|done].
    apply (one_job _ tc _ _ Hp); [done|]. simpl. rewrite H1. by left.
Qed.

Lemma tick_held_le o v v' : placed tc v → placed tc v' → going tc v → tick o v v' → v_closed v = false →
  index_of tc (v_queue v) = None → (measure tc v' ≤ measure tc v)%nat.
Proof using.
  clear tc_cb. intros Hp Hp' Hg Ht Hc Hk. pose proof (held_tc v Hp Hg Hc Hk) as Hh. pose proof (tick_todo _ _ _ Ht) as Htodo.
  pose proof (tick_length _ _ _ Ht) as Hlen. pose proof (out_bound (v_pcs v')) as Hout.
  destruct (tc_stays _ _ _ Hp Hg Hc Ht Hh) as [Hc'|Hh']; [unfold measure; rewrite Hc, Hc', Hk; lia|].
  destruct (v_closed v') eqn:Hc'; [unfold measure; rewrite Hc, Hc', Hk; lia|].
  unfold measure. rewrite Hc, Hc', Hk, (index_of_None tc (v_queue v')), Hlen by (by apply (in_queue _ _ Hp')).
  assert (on_pcs (has tc) (v_pcs v') ≤ on_pcs (has tc) (v_pcs v))%nat; [|lia].
  destruct Ht as (v1 & ts & Ho & ->). destruct o as [i|]; [|by subst].
  assert (∀ n p p' ps, ps !! i = Some (n, p) → (on_pcs (has tc) (<[i := (n, p')]> ps) + has tc p = on_pcs (has tc) ps + has tc p')%nat) as Hd.
  { intros n p p' ps. apply on_pcs_insert. }
  destruct Ho as [n it ps q js c Hi|n it x ps q js c Hi Hq Hpx|n it t ps q1 q2 js c Hi Hq Ht|n it t ps q js c Hi
    |n it t ps q js js' c x fd rest cs Hi H1 H2 Hcs|n it t ps q js js' c j rest Hi H1 H2|n it t f ps q js js' x fd rest Hi H1 H2
    |n it t f ps q js c Hi|n it t o ps q js c Hi];
    simpl in *; [specialize (Hd _ _ (PLoop it) _ Hi)|specialize (Hd _ _ x _ Hi)|specialize (Hd _ _ (PHave it t) _ Hi)
    |specialize (Hd _ _ (PRun it t None) _ Hi)|done|specialize (Hd _ _ (PLoop it) _ Hi)|specialize (Hd _ _ (PRun it t (Some f)) _ Hi)
    |specialize (Hd _ _ (PLeave it t (Some f)) _ Hi)|specialize (Hd _ _ (PLoop it) _ Hi)];
    simpl in Hd; try lia.
  - destruct Hpx as [-> | ->]; simpl in Hd; lia.
  - apply index_of_not in Hk. rewrite decide_False in Hd by set_solver. lia.
Qed.

(** The thread that has it brings it on. *)
Lemma tick_held_lt i n p v v' : placed tc v → placed tc v' → going tc v → tick (Some i) v v' → v_closed v = false →
  index_of tc (v_queue v) = None → v_pcs v !! i = Some (n, p) → ServerPool.pc_busy p = Some tc → (measure tc v' < measure tc v)%nat.
Proof using.
  clear tc_cb. intros Hp Hp' Hg Ht Hc Hk Hi Hpt. pose proof (tick_todo _ _ _ Ht) as Htodo.
  pose proof (tick_length _ _ _ Ht) as Hlen. pose proof (out_bound (v_pcs v')) as Hout.
  assert (tc ∈ ServerPool.busy (v_pcs v)) as Hh by (apply ServerPool.busy_elem; eauto).
  destruct (tc_stays _ _ _ Hp Hg Hc Ht Hh) as [Hc'|Hh']; [unfold measure; rewrite Hc, Hc', Hk; lia|].
  destruct (v_closed v') eqn:Hc'; [unfold measure; rewrite Hc, Hc', Hk; lia|].
  unfold measure. rewrite Hc, Hc', Hk, (index_of_None tc (v_queue v')), Hlen by (by apply (in_queue _ _ Hp')).
  destruct Hg as [Hj _]. specialize (Hj Hc). destruct Ht as (v1 & ts & Ho & ->).
  destruct Ho as [n' it ps q js c Hi'|n' it x ps q js c Hi' Hq Hpx|n' it t ps q1 q2 js c Hi' Hq Ht|n' it t ps q js c Hi'
    |n' it t ps q js js' c x fd rest cs Hi' H1 H2 Hcs|n' it t ps q js js' c j rest Hi' H1 H2|n' it t f ps q js js' x fd rest Hi' H1 H2
    |n' it t f ps q js c Hi'|n' it t o ps q js c Hi'];
    simpl in *; rewrite Hi in Hi'; injection Hi' as -> ->; simplify_eq/=.
  - pose proof (on_pcs_insert (has tc) ps i n' _ (PRun it tc None) Hi) as Hd. simpl in Hd. rewrite decide_True in Hd by done. lia.
  - pose proof (turn_todo_go _ _ _ _ _ _ _ H1 H2 Hcs). lia.
  - pose proof (turn_todo_end _ _ _ _ _ H1 H2).
    pose proof (on_pcs_insert (has tc) ps i n' _ (PLoop it) Hi) as Hd. simpl in Hd. lia.
  - assert (Some TcpServer.TClose = Some (TcpServer.TAccepting x fd)); [|done].
    apply (one_job _ tc _ _ Hp); [done|]. simpl. rewrite H1. by left.
Qed.

Lemma tick_le o v v' : placed tc v → placed tc v' → going tc v → tick o v v' → (measure tc v' ≤ measure tc v)%nat.
Proof using tc_cb.
  intros Hp Hp' Hg Ht. destruct (v_closed v) eqn:Hc; [by eapply tick_closed_le|].
  destruct (index_of tc (v_queue v)) as [k|] eqn:Hk; [by eapply tick_queued_le|by eapply tick_held_le].
Qed.

(** Until somebody takes [tc], any step that is made for somebody counts. *)
Definition apt v : Prop := v_closed v = true ∨ ∃ k, index_of tc (v_queue v) = Some k.

Lemma tick_lt o v v' : placed tc v → placed tc v' → tick o v v' → apt v → busy v o → (measure tc v' < measure tc v)%nat.
Proof using tc_cb.
  intros Hp Hp' Ht Ha Hb. destruct (v_closed v) eqn:Hc; [by eapply tick_closed_le|].
  destruct Ha as [?|[k Hk]]; [congruence|by eapply tick_queued_le].
Qed.

Lemma busy_take ps q1 q2 t n it i js c : ps !! i = Some (n, PLoop it) → awake ps t →
  busy (mkView ps (q1 ++ t :: q2) js c) (Some i).
Proof using.
  intros Hi Ht. exists i, n, (PLoop it). split; [done|]. split; [done|]. simpl. apply Exists_exists. exists t.
  split; [|done]. apply elem_of_app. right. by left.
Qed.

Lemma tick_apt o v v' : placed tc v → placed tc v' → tick o v v' → apt v → apt v' ∨ (measure tc v' < measure tc v)%nat.
Proof using tc_cb.
  intros Hp Hp' Ht Ha. destruct (v_closed v) eqn:Hc; [left; left; by eapply tick_closed|].
  pose proof Ha as [?|[k Hk]]; [congruence|]. pose proof Ht as (v1 & ts & Ho & Hv). destruct o as [i|].
  2: { subst v1 v'. left. right. exists k. by apply index_of_app. }
  destruct Ho as [| |n it t ps q1 q2 js c Hi Hq Haw| | | | | |];
    subst v'; try (left; right; exists k; simpl in *; by apply index_of_app).
  right. apply (tick_lt (Some i)); [done|done|done|done|by eapply busy_take].
Qed.

Lemma tick_busy i n p t v v' : tick (Some i) v v' → v_pcs v !! i = Some (n, p) → pc_task p = Some t → busy v (Some i).
Proof using.
  intros (v1 & ts & Ho & _) Hi Hp. exists i, n, p. split; [done|]. split; [done|]. by destruct p.
Qed.

(** What is in the queue stays there until somebody takes it, and nobody registers unless he
    was busy. *)
Lemma tick_queue o v v' : tick o v v' → v_queue v ≠ [] → v_queue v' ≠ [] ∨ busy v o.
Proof using.
  intros (v1 & ts & Ho & ->) Hq. destruct o as [i|].
  2: { subst v1. left. intros [? _]%app_eq_nil. done. }
  destruct Ho as [| |n it t ps q1 q2 js c Hi Hq1 Ht| | | | | |]; try (left; intros [? _]%app_eq_nil; done).
  right. by eapply busy_take.
Qed.

Lemma tick_quiet o v v' : tick o v v' → quiet (v_pcs v) = [] → quiet (v_pcs v') = [] ∨ busy v o.
Proof using.
  intros (v1 & ts & Ho & ->) Hq. destruct o as [i|]; [|subst v1; by left].
  assert (∀ ps n p p', quiet ps = [] → ps !! i = Some (n, p) → pc_quiet p = None → pc_quiet p' = None → quiet (<[i := (n, p')]> ps) = []) as Hins.
  { intros ps n p p' Hps Hi Hp Hp'. pose proof (quiet_insert ps i n p Hi Hp p') as H. rewrite Hp', Hps in H. simpl in H.
    by apply Permutation_nil_r in H. }
  destruct Ho as [n it ps q js c Hi|n it p ps q js c Hi Hq' Hp|n it t ps q1 q2 js c Hi Hq1 Ht|n it t ps q js c Hi
    |n it t ps q js js' c p fd rest cs Hi|n it t ps q js js' c j rest Hi|n it t f ps q js js' p fd rest Hi|n it t f ps q js c Hi|n it t o ps q js c Hi];
    simpl in *; try (right; eexists i, n, _; split; [done|]; split; [exact Hi|done]); left; (eapply Hins; [done|exact Hi|done|]); try done.
  by destruct Hp as [-> | ->].
Qed.

Lemma measure_zero v : placed tc v → measure tc v = 0%nat → v_jobs v = [].
Proof using.
  intros Hp. unfold measure. destruct (v_closed v) eqn:Hc; [|destruct (index_of tc (v_queue v)); lia].
  pose proof (room v Hp) as Hr. destruct Hp as [_ (parked & Hp & Hn & _)]. rewrite (Hn Hc), app_nil_r in Hp.
  pose proof (todo_bound (v_jobs v)). pose proof (done_bound (v_pcs v)). apply Permutation_length in Hp.
  rewrite !length_app, !length_fmap in Hp. intros Hz. apply nil_length_inv. lia.
Qed.

End views.

(** ** The system of [ServerPool] *)

Local Open Scope Z_scope.

Section pool_turns.
Context {W : Type} `{!Net W} (host : endian) `{!NetLaws W}.
#[local] Abbreviation Sys := (ServerPool.Sys (W := W)).
Implicit Types s : Sys.

Definition jobs s : list (ScheduleTask * job) :=
  zip (accepts s) (Some <$> TcpServer.accept_worker (srv s)) ++ (client_job <$> clients s).

Definition closed_of s : bool := bool_decide (TcpServer.socks_ (TcpServer.server (srv s)) = []).

Definition view s : View := mkView (pcs (pool s)) (tasks_ (sched (pool s))) (jobs s) (closed_of s).

Lemma jobs_names base s : ServerPool.sinv base s → (jobs s).*1 = accepts s ++ clients s.
Proof using.
  intros Hs. unfold jobs. rewrite fmap_app, fst_zip by (rewrite length_fmap, (ServerPool.y_accepts _ _ Hs); done).
  f_equal. rewrite <- list_fmap_compose. apply list_fmap_id.
Qed.

Lemma jobs_elem base s n t f : ServerPool.sinv base s → accepts s !! n = Some t →
  TcpServer.accept_worker (srv s) !! n = Some f → (t, Some f) ∈ jobs s.
Proof using.
  intros Hs Hn Hf. apply elem_of_app. left. apply (list_elem_of_lookup_2 _ n). apply lookup_zip_with_Some.
  exists t, (Some f). by rewrite list_lookup_fmap, Hf.
Qed.

Lemma jobs_elem_inv s t f : (t, Some f) ∈ jobs s →
  ∃ n, accepts s !! n = Some t ∧ TcpServer.accept_worker (srv s) !! n = Some f.
Proof using.
  intros [Hz|(c & [=] & _)%list_elem_of_fmap]%elem_of_app. apply list_elem_of_lookup in Hz as [n Hn].
  apply lookup_zip_with_Some in Hn as (t' & f' & [= <- <-] & Ht & Hf). exists n. split; [done|].
  rewrite list_lookup_fmap in Hf. by destruct (TcpServer.accept_worker (srv s) !! n); simplify_eq/=.
Qed.

Lemma zip_delete {A B} (l : list A) (k : list B) n : zip (delete n l) (delete n k) = delete n (zip l k).
Proof using.
  revert k n. induction l as [|x l IH]; intros [|y k] [|n]; simpl; rewrite ?zip_with_nil_r; try done.
  f_equal. apply IH.
Qed.

(** The jobs by one of them. *)
Lemma jobs_task s n t f : accepts s !! n = Some t → TcpServer.accept_worker (srv s) !! n = Some f →
  jobs s ≡ₚ (t, Some f) :: zip (delete n (accepts s)) (Some <$> delete n (TcpServer.accept_worker (srv s))) ++ (client_job <$> clients s).
Proof using.
  intros Hn Hf. unfold jobs. rewrite list_fmap_delete, zip_delete. rewrite app_comm_cons. f_equiv.
  apply delete_Permutation, lookup_zip_with_Some. exists t, (Some f). by rewrite list_lookup_fmap, Hf.
Qed.

Lemma jobs_client s n c : clients s !! n = Some c →
  jobs s ≡ₚ (c, None) :: zip (accepts s) (Some <$> TcpServer.accept_worker (srv s)) ++ (client_job <$> delete n (clients s)).
Proof using.
  intros Hn. unfold jobs. rewrite Permutation_middle. f_equiv. rewrite list_fmap_delete.
  change ((c, None) : ScheduleTask * job) with (client_job c). apply delete_Permutation. by rewrite list_lookup_fmap, Hn.
Qed.

(** *** Each step *)

Lemma pool_step_pool ls acc cli park s s1 : ServerPool.pool_step ls acc cli park s = Some (Ok s1) →
  Scheduler.do_all ls (pool s) = Some (Ok (pool s1)).
Proof using. unfold ServerPool.pool_step. destruct (Scheduler.do_all ls (pool s)) as [[p|]|]; try done. by intros [= <-]. Qed.

Lemma length_callbacks c k : length (ServerPool.callbacks c k) = k.
Proof using. unfold ServerPool.callbacks. by rewrite length_fmap, length_seq. Qed.

Lemma act_pool e acc cli ls s s1 : ServerPool.act host e acc cli ls s = Some (Ok s1) → ∃ na nc,
  TcpServer.exec host e (srv s) = (Ok tt, srv s1) ∧ accepts s1 = acc ++ na ∧ clients s1 = cli ++ nc ∧
  length na = (length (TcpServer.accept_worker (srv s1)) - length acc)%nat ∧
  length nc = (length (TcpServer.io_worker (srv s1)) - length cli)%nat ∧
  Scheduler.do_all ls (ServerPool.queued (na ++ nc) (pool s)) = Some (Ok (pool s1)).
Proof using.
  unfold ServerPool.act. destruct (TcpServer.exec host e (srv s)) as [[[]|] srv']; [|done].
  set (ka := (length (TcpServer.accept_worker srv') - length acc)%nat).
  set (kc := (length (TcpServer.io_worker srv') - length cli)%nat).
  rewrite ServerPool.callbacks_app, ServerPool.do_schedules.
  2: { apply Forall_forall. by intros t (d & -> & _)%ServerPool.callbacks_new. }
  destruct (Scheduler.do_all ls _) as [[p|]|] eqn:Hd; try done. intros [= <-]. simpl.
  exists (ServerPool.callbacks (ServerPool.next_cb s) ka), (ServerPool.callbacks (ServerPool.next_cb s + ka) kc).
  by rewrite !length_callbacks, ServerPool.callbacks_app.
Qed.

Lemma same_view ls s s1 : ServerPool.pool_step ls (accepts s) (clients s) (parked_ s) s = Some (Ok s1) →
  jobs s1 = jobs s ∧ closed_of s1 = closed_of s.
Proof using. intros (Hsv & Ha & Hc & _)%Stack.pool_step_inv. unfold jobs, closed_of. by rewrite Hsv, Ha, Hc. Qed.

Lemma view_eq s ps q js c : pcs (pool s) = ps → tasks_ (sched (pool s)) = q → jobs s = js → closed_of s = c →
  view s = mkView ps q js c.
Proof using. by intros <- <- <- <-. Qed.

(** Who is in the queue is not pinned, and runs when it has registered and not yet left. *)
Lemma eligible_awake base s n t : ServerPool.sinv base s → t ∈ tasks_ (sched (pool s)) →
  Scheduler.eligible n (Scheduler.running_in (Scheduler.states (pool s))) t = true ↔ awake (pcs (pool s)) t.
Proof using.
  intros Hs Ht. pose proof (ServerPool.y_placed _ _ Hs) as Hpl.
  assert (t ∈ accepts s ++ clients s) as Hin by (rewrite (ServerPool.p_perm _ _ _ Hpl), elem_of_app; by left).
  pose proof (ServerPool.p_shape _ _ _ Hpl t Hin) as Hname.
  assert (Scheduler.pinned_elsewhere n t = false) as Hpin.
  { apply not_true_iff_false. rewrite Scheduler.pinned_elsewhere_iff. intros [Hne _]. by destruct Hname. }
  unfold Scheduler.eligible. rewrite Hpin. simpl. unfold Scheduler.is_running, awake.
  destruct (fiber t) as [f|] eqn:Hf; [|split; [by intros _ f [=]|done]].
  assert (Scheduler.running_in (Scheduler.states (pool s)) f = true ↔ f ∈ quiet (pcs (pool s))) as Hiff.
  { unfold Scheduler.running_in, quiet. rewrite list_elem_of_omap. split.
    - intros Hrun. destruct (decide (f ∈ ServerPool.ridden (pcs (pool s)))) as [(i & m & p & Hi & Hp)%ServerPool.ridden_elem|Hn].
      + destruct p as [b|b u|b u [g|]|b u o| |]; simpl in Hp; try done.
        * exists (m, PRun b u (Some g)). split; [by eapply list_elem_of_lookup_2|exact Hp].
        * exfalso. pose proof (ServerPool.busy_name _ _ _ i m (PRun b u None) u Hpl Hi eq_refl) as Hu.
          pose proof (ServerPool.placed_one _ _ _ t f Hpl Hf u Hin Hu Hp) as ->.
          pose proof (ServerPool.p_nodup _ _ _ Hpl) as Hnd. rewrite (ServerPool.p_perm _ _ _ Hpl) in Hnd.
          apply NoDup_app in Hnd as (_ & Hd & _). apply (Hd t Ht), elem_of_app. left. apply ServerPool.busy_elem. eauto.
        * pose proof (ServerPool.p_pc _ _ _ Hpl i m _ Hi) as Hpc. destruct o as [g|]; simpl in *; [|done].
          injection Hp as ->. by rewrite Hpc in Hrun.
      + by rewrite (ServerPool.p_saved _ _ _ Hpl t f Hin Hf Hn) in Hrun.
    - intros ([m p] & [i Hi]%list_elem_of_lookup & Hp). pose proof (ServerPool.p_pc _ _ _ Hpl i m p Hi) as Hpc.
      destruct p as [b|b u|b u [g|]|b u o| |]; simpl in *; try done. injection Hp as ->. by rewrite (Hpc f). }
  destruct (Scheduler.running_in _ f); simpl.
  - split; [done|]. intros Ha. destruct (Ha f eq_refl). by apply Hiff.
  - split; [|done]. intros _ g [= <-] Hg. apply Hiff in Hg. done.
Qed.

Lemma take_turn base s i s1 : ServerPool.sinv base s → ServerPool.step host (YTake i) s = Some (Ok s1) →
  turn i (view s) (view s1).
Proof using.
  intros Hs. cbn [ServerPool.step]. intros Hr. pose proof (same_view _ _ _ Hr) as [Hj Hc].
  apply pool_step_pool in Hr. cbn [Scheduler.do_all Scheduler.do] in Hr. unfold Scheduler.do_Take in Hr.
  destruct (pcs (pool s) !! i) as [[n [it| | | | |]]|] eqn:Hi; try done.
  pose proof (ServerPool.y_placed _ _ Hs) as Hpl.
  destruct (Scheduler.take_task_first n (Scheduler.running_in (Scheduler.states (pool s))) (tasks_ (sched (pool s)))
    (Scheduler.wf_runnable _ (ServerPool.p_wf _ _ _ Hpl))) as (o & rest & tk & Htk & Ho).
  assert (∀ l, l ⊆ tasks_ (sched (pool s)) →
    Forall (λ t, Scheduler.eligible n (Scheduler.running_in (Scheduler.states (pool s))) t = false) l → Forall (λ t, ¬ awake (pcs (pool s)) t) l) as Hno.
  { intros l Hl Hf. apply Forall_forall. intros t Ht Ha. rewrite Forall_forall in Hf. specialize (Hf t Ht).
    apply (eligible_awake base s n t Hs) in Ha; [congruence|by apply Hl]. }
  rewrite Htk in Hr. destruct o as [t|].
  - destruct Ho as (l1 & l2 & Hq & -> & H1 & Hel & _). injection Hr as Hr.
    rewrite (view_eq s _ _ _ _ eq_refl Hq eq_refl eq_refl).
    rewrite (view_eq s1 (<[i := (n, PHave it t)]> (pcs (pool s))) (l1 ++ l2) _ _ ltac:(by rewrite <- Hr) ltac:(by rewrite <- Hr) Hj Hc).
    apply turn_take; [done|apply Hno; [rewrite Hq; set_solver|done]|].
    apply (eligible_awake base s n t Hs); [rewrite Hq; set_solver|done].
  - destruct Ho as (-> & H1 & _).
    assert (∃ p, (p = PIdle ∨ p = PExit) ∧ pcs (pool s1) = <[i := (n, p)]> (pcs (pool s)) ∧ tasks_ (sched (pool s1)) = tasks_ (sched (pool s)))
      as (p & Hp & Hps & Hq1).
    { destruct it; injection Hr as <-; [exists PExit|exists PIdle]; (split; [auto|]); done. }
    rewrite (view_eq s1 _ _ _ _ Hps Hq1 Hj Hc). apply turn_none with it; [done|by apply Hno|done].
Qed.

Lemma resume_turn s i s1 : ServerPool.step host (YResume i) s = Some (Ok s1) → turn i (view s) (view s1).
Proof using.
  cbn [ServerPool.step]. intros Hr. pose proof (same_view _ _ _ Hr) as [Hj Hc].
  apply pool_step_pool in Hr. cbn [Scheduler.do_all Scheduler.do] in Hr. unfold Scheduler.do_Resume in Hr.
  destruct (pcs (pool s) !! i) as [[n [|it t| | | |]]|] eqn:Hi; try done.
  assert (pcs (pool s1) = <[i := (n, PRun it t None)]> (pcs (pool s)) ∧ tasks_ (sched (pool s1)) = tasks_ (sched (pool s))) as [Hps Hq].
  { destruct (fiber t) as [f|]; [|by injection Hr as <-]. destruct (Scheduler.states (pool s) !! f) as [[[] []]|]; try done.
    by injection Hr as <-. }
  rewrite (view_eq s1 _ _ _ _ Hps Hq Hj Hc). by apply turn_resume.
Qed.

Lemma idle_turn s i s1 : ServerPool.step host (YIdle i) s = Some (Ok s1) → turn i (view s) (view s1).
Proof using.
  cbn [ServerPool.step]. intros Hr. pose proof (same_view _ _ _ Hr) as [Hj Hc].
  apply pool_step_pool in Hr. cbn [Scheduler.do_all Scheduler.do] in Hr. unfold Scheduler.do_Idle in Hr.
  destruct (pcs (pool s) !! i) as [[n [| | | | |]]|] eqn:Hi; try done. injection Hr as Hr.
  rewrite (view_eq s1 _ _ _ _ (eq_sym (f_equal pcs Hr)) (eq_sym (f_equal (tasks_ ∘ sched) Hr)) Hj Hc). by apply turn_idle.
Qed.
(** The function of a thread goes on, for the server. *)
Lemma client_server base (st st' : TcpServer.State (W := W)) n p : TcpServer.good base st → TcpServer.io_worker st !! n = Some p →
  TcpServer.exec host (TcpServer.EClient n) st = (Ok tt, st') → TcpServer.server st' = TcpServer.server st ∧
  TcpServer.accept_worker st' = TcpServer.accept_worker st ∧ TcpServer.io_worker st' = delete n (TcpServer.io_worker st).
Proof using.
  intros Hg Hn Hex. destruct (ServerPool.client_step host base st n p Hg Hn) as (st1 & Hr & _ & Ha & Hio).
  rewrite Hex in Hr. injection Hr as <-. split; [|done]. cbn [TcpServer.exec] in Hex.
  unfold TcpServer.step_client in Hex. rewrite TcpServer.get_bind, Hn in Hex. by apply Stack.release_server in Hex.
Qed.

(** It ends. *)
Lemma end_turn base e s s1 i m it t j rest acc cli : ServerPool.sinv base s →
  ServerPool.act host e acc cli [Scheduler.LMark i Fiber.TERM; Scheduler.LSwitch i] s = Some (Ok s1) →
  pcs (pool s) !! i = Some (m, PRun it t None) → jobs s ≡ₚ (t, j) :: rest →
  (TcpServer.exec host e (srv s) = (Ok tt, srv s1) → length acc = length (TcpServer.accept_worker (srv s1)) ∧
    length cli = length (TcpServer.io_worker (srv s1)) ∧ closed_of s1 = (closed_of s || closes j) ∧
    (accepts s1 = acc → clients s1 = cli → jobs s1 ≡ₚ rest)) →
  turn i (view s) (view s1).
Proof using.
  intros Hs Hr Hi Hj Hex. destruct (act_pool _ _ _ _ _ _ Hr) as (na & nc & He & Ha & Hc & Hna & Hnc & Hd).
  destruct (Hex He) as (Hla & Hlc & Hcl & Hjobs).
  assert (na = []) as -> by (apply nil_length_inv; lia). assert (nc = []) as -> by (apply nil_length_inv; lia).
  rewrite app_nil_r in Ha, Hc, Hd. rewrite ServerPool.queued_nil in Hd.
  rewrite (ServerPool.do_leave i m it t) in Hd by done. injection Hd as Hd.
  rewrite (view_eq s1 (<[i := (m, PLoop it)]> (pcs (pool s))) (tasks_ (sched (pool s))) _ _
    ltac:(by rewrite <- Hd) ltac:(by rewrite <- Hd) eq_refl Hcl).
  apply (turn_end i m it t _ _ _ _ _ j rest Hi Hj). by apply Hjobs.
Qed.

Lemma task_turn base s s1 i n m it t f : Socket.hooked_accept (W := W) → ServerPool.sinv base s →
  TcpServer.is_stop_ (TcpServer.server (srv s)) = true → pcs (pool s) !! i = Some (m, PRun it t None) →
  accepts s !! n = Some t → TcpServer.accept_worker (srv s) !! n = Some f →
  (if ServerPool.ends f s then
     ServerPool.act host (TcpServer.ETask n) (delete n (accepts s)) (clients s) [Scheduler.LMark i Fiber.TERM; Scheduler.LSwitch i] s
   else ServerPool.act host (TcpServer.ETask n) (accepts s) (clients s) [] s) = Some (Ok s1) →
  ∃ v1 ts, turn i (view s) v1 ∧ view s1 = also ts v1.
Proof using.
  intros Hh Hs Hst Hi Hn Hf Hr. destruct (ServerPool.y_good _ _ Hs) as [Hinv Hl].
  pose proof (ServerPool.y_accepts _ _ Hs) as Hya. pose proof (ServerPool.y_clients _ _ Hs) as Hyc.
  pose proof (jobs_task s n t f Hn Hf) as Hj. pose proof (length_delete (accepts s) n ltac:(by eexists)) as Hd1.
  pose proof (length_delete (TcpServer.accept_worker (srv s)) n ltac:(by eexists)) as Hd2.
  destruct f as [p|p fd|]; cbn [ServerPool.ends] in Hr.
  - rewrite Hst in Hr. exists (view s1), []. split; [|by destruct (view s1); unfold also; simpl; rewrite app_nil_r].
    apply (end_turn base _ s s1 i m it t _ _ _ _ Hs Hr Hi Hj). intros Hex.
    destruct (TcpServer.start_spec host base (srv s) n p Hinv Hf) as (st1 & Hr1 & _ & Hsv & Hio & _ & Hc).
    cbn [TcpServer.exec] in Hex. rewrite Hex in Hr1. injection Hr1 as <-. rewrite Hst in Hc.
    unfold closed_of, jobs. rewrite Hc, Hio, Hsv, orb_false_r. split; [lia|]. split; [done|]. split; [done|]. by intros -> ->.
  - destruct (act_pool _ _ _ _ _ _ Hr) as (na & nc & Hex & Ha & Hc & Hna & Hnc & Hd). injection Hd as Hd.
    destruct (TcpServer.accepting_spec host base (srv s) n p fd Hh Hinv Hf) as (x & r & w & st1 & _ & _ & Hr1 & _ & Hsv & Haw & Hres).
    cbn [TcpServer.exec] in Hex. rewrite Hex in Hr1. injection Hr1 as <-. rewrite Haw, length_insert in Hna.
    assert (na = []) as -> by (apply nil_length_inv; lia). rewrite app_nil_r in Ha.
    assert (length nc ≤ 1)%nat as Hnc1.
    { rewrite Hnc. destruct r; [destruct Hres as (_ & _ & -> & _); rewrite length_app; simpl; lia|destruct Hres as (-> & _); lia]. }
    assert (TcpServer.accept_worker (srv s1) !! n = Some (TcpServer.TStartAccept p)) as Hf1.
    { rewrite Haw. apply list_lookup_insert_eq. by eapply lookup_lt_Some. }
    assert (accepts s1 !! n = Some t) as Hn1 by (by rewrite Ha).
    pose proof (jobs_task s1 n t _ Hn1 Hf1) as Hj1. rewrite Haw, Ha, Hc, delete_insert_same, fmap_app, (assoc_L (++)) in Hj1.
    exists (mkView (pcs (pool s)) (tasks_ (sched (pool s))) (jobs s1) (closed_of s)), nc. split.
    + by apply (turn_go i m it t _ _ _ _ _ p fd _ nc Hi Hj).
    + apply view_eq; simpl; [by rewrite <- Hd|by rewrite <- Hd|done|]. unfold closed_of. by rewrite Hsv.
  - exists (view s1), []. split; [|by destruct (view s1); unfold also; simpl; rewrite app_nil_r].
    apply (end_turn base _ s s1 i m it t _ _ _ _ Hs Hr Hi Hj). intros Hex.
    destruct (TcpServer.TClose_spec host base (srv s) n Hinv Hl Hf) as (st1 & Hr1 & _ & Hsv & Hc & Hio).
    cbn [TcpServer.exec] in Hex. rewrite Hex in Hr1. injection Hr1 as <-.
    unfold closed_of, jobs. rewrite Hc, Hio, Hsv, orb_true_r. split; [lia|]. split; [done|]. split; [done|]. by intros -> ->.
Qed.

Lemma run_turn base s i s1 : Socket.hooked_accept (W := W) → ServerPool.sinv base s →
  TcpServer.is_stop_ (TcpServer.server (srv s)) = true → ServerPool.step host (YRun i) s = Some (Ok s1) →
  ∃ v1 ts, turn i (view s) v1 ∧ view s1 = also ts v1.
Proof using.
  intros Hh Hs Hst. cbn [ServerPool.step]. unfold ServerPool.do_run. destruct (ServerPool.runs i s) as [t|] eqn:Hrun; [|done].
  cbn [mbind option_bind]. apply ServerPool.runs_Some in Hrun as (m & it & Hi). destruct (index_of t (accepts s)) as [n|] eqn:Hacc.
  - apply ServerPool.index_of_Some in Hacc. destruct (TcpServer.accept_worker (srv s) !! n) as [f|] eqn:Hf; [|done].
    cbn [mbind option_bind]. by eapply task_turn.
  - destruct (index_of t (clients s)) as [n|] eqn:Hcli; [|done]. apply ServerPool.index_of_Some in Hcli. intros Hr.
    pose proof (ServerPool.y_accepts _ _ Hs) as Hya. pose proof (ServerPool.y_clients _ _ Hs) as Hyc.
    exists (view s1), []. split; [|by destruct (view s1); unfold also; simpl; rewrite app_nil_r].
    destruct (lookup_lt_is_Some_2 (TcpServer.io_worker (srv s)) n) as [p Hp]; [rewrite <- Hyc; by eapply lookup_lt_Some|].
    apply (end_turn base _ s s1 i m it t None _ _ _ Hs Hr Hi (jobs_client s n t Hcli)). intros Hex.
    destruct (client_server base _ _ n p (ServerPool.y_good _ _ Hs) Hp Hex) as (Hsv & Ha & Hio).
    unfold closed_of, jobs. rewrite Hsv, Ha, Hio, orb_false_r, !length_delete by (by eexists). split; [done|]. split; [lia|].
    split; [done|]. by intros -> ->.
Qed.

Lemma register_turn base s i f s1 : ServerPool.sinv base s → closed_of s = false →
  ServerPool.step host (YRegister i f) s = Some (Ok s1) → turn i (view s) (view s1).
Proof using.
  intros Hs Hc Hr. destruct (Stack.register_inv host base i f s s1 Hs Hr) as (t & n & p & fd & Hrun & Hidx & Hf & Hsv & Ha & Hcl & _).
  cbn [ServerPool.step] in Hr. unfold ServerPool.do_register in Hr. rewrite Hrun in Hr.
  cbn [mbind option_bind] in Hr. rewrite Hidx in Hr. cbn [mbind option_bind] in Hr. rewrite Hf in Hr. cbv zeta in Hr.
  apply ServerPool.runs_Some in Hrun as (m & it & Hi). apply ServerPool.index_of_Some in Hidx.
  apply pool_step_pool in Hr. cbn [Scheduler.do_all] in Hr.
  destruct (Scheduler.do (Scheduler.LShare i f) (pool s)) as [x|] eqn:Hx; [|done].
  assert (accepts s ++ clients s ≡ₚ t :: delete n (accepts s) ++ clients s) as Hnames by (by rewrite (delete_Permutation _ _ _ Hidx) at 1).
  destruct (ServerPool.placed_register _ _ _ i m it t f _ x (ServerPool.y_placed _ _ Hs) Hi Hnames Hx) as (w' & -> & _ & Hps & Hq).
  injection Hr as Hr. subst w'.
  pose proof (jobs_task s n t _ Hidx Hf) as Hj.
  assert (accepts s1 !! n = Some (task_of_fiber (Some f) (-1))) as Hn1.
  { rewrite Ha. apply list_lookup_insert_eq. by eapply lookup_lt_Some. }
  assert (TcpServer.accept_worker (srv s1) !! n = Some (TcpServer.TAccepting p fd)) as Hf1 by (by rewrite Hsv).
  pose proof (jobs_task s1 n _ _ Hn1 Hf1) as Hj1. rewrite Ha, Hsv, Hcl, delete_insert_same in Hj1.
  rewrite (view_eq s _ _ _ _ eq_refl eq_refl eq_refl Hc), (view_eq s1 _ _ _ false Hps Hq eq_refl).
  - by apply (turn_register i m it t f _ _ _ _ p fd _ Hi Hj).
  - unfold closed_of in *. by rewrite Hsv.
Qed.

Lemma yield_turn base s i s1 : ServerPool.sinv base s → ServerPool.step host (YYield i) s = Some (Ok s1) → turn i (view s) (view s1).
Proof using.
  intros Hs. cbn [ServerPool.step]. destruct (ServerPool.yields i s) eqn:Hy; [|done]. intros Hr.
  apply ServerPool.yields_Some in Hy as (m & it & t & f & Hi). pose proof (same_view _ _ _ Hr) as [Hj Hc].
  apply pool_step_pool in Hr. cbn [Scheduler.do_all] in Hr.
  destruct (ServerPool.placed_yield _ _ _ i m it t f (ServerPool.y_placed _ _ Hs) Hi) as (w' & Hd & _ & Hps & Hq).
  rewrite Hd in Hr. injection Hr as Hr. subst w'. rewrite (view_eq s1 _ _ _ _ Hps Hq Hj Hc). by apply turn_yield.
Qed.

Lemma switch_turn s i s1 : ServerPool.step host (YSwitch i) s = Some (Ok s1) → turn i (view s) (view s1).
Proof using.
  cbn [ServerPool.step]. intros Hr. pose proof (same_view _ _ _ Hr) as [Hj Hc].
  apply pool_step_pool in Hr. cbn [Scheduler.do_all Scheduler.do] in Hr. unfold Scheduler.do_Switch in Hr.
  destruct (pcs (pool s) !! i) as [[n [| | |it t o| |]]|] eqn:Hi; try done. injection Hr as Hr.
  rewrite (view_eq s1 (<[i := (n, PLoop it)]> (pcs (pool s))) (tasks_ (sched (pool s))) _ _
    ltac:(rewrite <- Hr; by destruct (Scheduler.rides t o)) ltac:(rewrite <- Hr; by destruct (Scheduler.rides t o)) Hj Hc).
  by apply turn_switch with t o.
Qed.

(** *** A thread can go on *)

Lemma act_some e acc cli ls s : (∀ ts, Scheduler.do_all ls (ServerPool.queued ts (pool s)) ≠ None) →
  ServerPool.act host e acc cli ls s ≠ None.
Proof using.
  intros Hls. unfold ServerPool.act. destruct (TcpServer.exec host e (srv s)) as [[u|] srv']; [|done].
  rewrite ServerPool.callbacks_app, ServerPool.do_schedules.
  2: { apply Forall_forall. by intros t (d & -> & _)%ServerPool.callbacks_new. }
  specialize (Hls (ServerPool.callbacks (ServerPool.next_cb s)
    (length (TcpServer.accept_worker srv') - length acc + (length (TcpServer.io_worker srv') - length cli)))).
  by destruct (Scheduler.do_all ls _) as [[]|].
Qed.

Lemma run_able base s i n it t : ServerPool.sinv base s → pcs (pool s) !! i = Some (n, PRun it t None) →
  ServerPool.step host (YRun i) s ≠ None.
Proof using.
  intros Hs Hi. cbn [ServerPool.step]. unfold ServerPool.do_run, ServerPool.runs. rewrite Hi. cbn [mbind option_bind].
  assert (∀ ts, Scheduler.do_all [Scheduler.LMark i Fiber.TERM; Scheduler.LSwitch i] (ServerPool.queued ts (pool s)) ≠ None) as Hls
    by (intros ts; by rewrite (ServerPool.do_leave i n it t)).
  destruct (index_of t (accepts s)) as [m|] eqn:Hacc.
  - apply ServerPool.index_of_Some in Hacc.
    destruct (lookup_lt_is_Some_2 (TcpServer.accept_worker (srv s)) m) as [f ->].
    { rewrite <- (ServerPool.y_accepts _ _ Hs). by eapply lookup_lt_Some. }
    cbn [mbind option_bind]. destruct (ServerPool.ends f s); by apply act_some.
  - destruct (index_of t (clients s)) as [m|] eqn:Hcli; [by apply act_some|]. exfalso.
    assert (t ∈ accepts s ++ clients s) as Hin.
    { rewrite (ServerPool.p_perm _ _ _ (ServerPool.y_placed _ _ Hs)), !elem_of_app. right. left. apply ServerPool.busy_elem.
      by exists i, n, (PRun it t None). }
    apply elem_of_app in Hin as [H|H]; apply index_of_elem in H as [k Hk]; congruence.
Qed.

Lemma pool_able base s i n p : ServerPool.sinv base s → pcs (pool s) !! i = Some (n, p) →
  match p with
  | PLoop _ => ServerPool.step host (YTake i) s ≠ None
  | PHave _ _ => ServerPool.step host (YResume i) s ≠ None
  | PRun _ _ None => ServerPool.step host (YRun i) s ≠ None
  | PRun _ _ (Some _) => ServerPool.step host (YYield i) s ≠ None
  | PLeave _ _ _ => ServerPool.step host (YSwitch i) s ≠ None
  | PIdle => ServerPool.step host (YIdle i) s ≠ None
  | PExit => True
  end.
Proof using.
  intros Hs Hi. assert (∀ l, Scheduler.do l (pool s) ≠ None →
    ServerPool.pool_step [l] (accepts s) (clients s) (parked_ s) s ≠ None) as Hone.
  { intros l Hl. unfold ServerPool.pool_step. cbn [Scheduler.do_all]. by destruct (Scheduler.do l (pool s)) as [[]|]. }
  destruct p as [it|it t|it t [f|]|it t o| |]; cbn [ServerPool.step].
  - apply Hone. cbn [Scheduler.do]. unfold Scheduler.do_Take. by rewrite Hi.
  - apply Hone. cbn [Scheduler.do]. unfold Scheduler.do_Resume. by rewrite Hi.
  - assert (ServerPool.yields i s = true) as -> by (unfold ServerPool.yields; by rewrite Hi).
    apply Hone. cbn [Scheduler.do]. unfold Scheduler.do_Mark. by rewrite Hi, decide_False by done.
  - by eapply run_able.
  - apply Hone. cbn [Scheduler.do]. unfold Scheduler.do_Switch. by rewrite Hi.
  - apply Hone. cbn [Scheduler.do]. unfold Scheduler.do_Idle. by rewrite Hi.
  - done.
Qed.

End pool_turns.

(** ** The stack *)

Section stack.
Context {K : Kernel} (host : endian) (me : Z).
#[local] Abbreviation Sys := (ServerPool.Sys (W := HookNet.HW)).
Implicit Types s : Sys.

(** Steps after which a server that was stopped is still a server that was stopped. *)
Definition allowed (l : Stack.label) : bool :=
  match l with XPool (YBind _ _ | YStart | YStop | YRegister _ _ | YWake _) => false | _ => true end.

(** The thread whose step it is. *)
Definition actor (l : Stack.label) : option nat :=
  match l with XPool (YTake i | YResume i | YIdle i | YRun i | YYield i | YSwitch i) | XRegister i _ => Some i | _ => None end.

Lemma also_also ts ts' v : also ts' (also ts v) = also (ts ++ ts') v.
Proof using. unfold also. simpl. by rewrite (assoc_L (++)). Qed.

Lemma also_nil v : also [] v = v.
Proof using. destruct v. unfold also. simpl. by rewrite app_nil_r. Qed.

(** What is scheduled again is added to the queue. *)
Lemma wake_all_view l : ∀ s s', Stack.wake_all host l s = Some (Ok s') → ∃ ts, view s' = also ts (view s).
Proof using.
  induction l as [|[m t] l IH]; intros s s'; cbn [Stack.wake_all].
  { intros [= <-]. exists []. by rewrite also_nil. }
  destruct (index_of t (parked_ s)) as [n|]; [|done]. cbn [ServerPool.step].
  destruct (parked_ s !! n) as [u|]; [|done]. cbn [mbind option_bind].
  destruct (ServerPool.pool_step [Scheduler.LSchedule u] _ _ _ s) as [[s1|]|] eqn:Hr; try done.
  intros (ts & ->)%IH. pose proof Hr as (Hsv & Ha & Hc & _)%Stack.pool_step_inv. apply pool_step_pool in Hr.
  cbn [Scheduler.do_all Scheduler.do] in Hr. unfold Scheduler.do_Schedule in Hr. rewrite Scheduler.Schedule_ok in Hr.
  exists ((if Scheduler.runnable u then [u] else []) ++ ts). rewrite <- also_also. f_equal. injection Hr as Hr.
  apply view_eq; simpl; [by rewrite <- Hr| |unfold jobs; by rewrite Hsv, Ha, Hc|unfold closed_of; by rewrite Hsv].
  rewrite <- Hr. simpl. destruct (Scheduler.runnable u); [done|by rewrite app_nil_r].
Qed.

Lemma wake_all_some l : ∀ s, Stack.wake_all host l s ≠ None.
Proof using.
  induction l as [|[m t] l IH]; intros s; cbn [Stack.wake_all]; [done|].
  destruct (index_of t (parked_ s)) as [n|] eqn:Hn; [|done]. apply ServerPool.index_of_Some in Hn. cbn [ServerPool.step].
  rewrite Hn. cbn [mbind option_bind]. unfold ServerPool.pool_step. cbn [Scheduler.do_all Scheduler.do].
  unfold Scheduler.do_Schedule. rewrite Scheduler.Schedule_ok. apply IH.
Qed.

Lemma set_hw_view w s : view (Stack.set_hw w s) = view s.
Proof using. done. Qed.

Lemma on_manager_view {A} (m : M IOManager.IOManager A) s a s' : Stack.on_manager m s = Ok (a, s') → view s' = view s.
Proof using.
  unfold Stack.on_manager. destruct (HookNet.on_iom m (Stack.hw s)) as [[b|] w]; [|done]. intros [= _ <-]. apply set_hw_view.
Qed.

Section laws.
Context {KL : KernelLaws} (ctl_ok : ∀ t, k_ctl t false = true).

(** A loop whose socket is closed does not register. *)
Lemma register_open base i s j f s' : Stack.xinv me base i s → Stack.label_ok (XRegister j f) s = true →
  Stack.do_register host me j f s = Some (Ok s') → closed_of s = false.
Proof using.
  intros Hx Hlab Hr. apply bool_decide_eq_false. intros Hc. unfold Stack.do_register in Hr. cbn [Stack.label_ok] in Hlab.
  destruct (Stack.call_of j s) as [[[n p] fd]|] eqn:Hcall; [|done]. cbn [mbind option_bind] in Hr.
  apply Stack.call_of_inv in Hcall as (t & _ & _ & Hf). apply bool_decide_eq_true in Hlab.
  destruct (TcpServer.heap (srv s) !! p) as [x|] eqn:Hp; [|done]. injection Hlab as <-.
  assert (p ∈ Stack.loops (srv s)) as Hl.
  { apply list_elem_of_bind. eexists. split; [|by eapply list_elem_of_lookup_2]. by left. }
  destruct (Stack.o_socks _ (Stack.x_loops _ _ _ _ Hx) p Hl) as [Hs|(y & Hy & Hy1)].
  - rewrite Hc in Hs. by apply not_elem_of_nil in Hs.
  - rewrite Hp in Hy. injection Hy as <-. by rewrite Hy1 in Hr.
Qed.

(** A call that returns with nothing is a turn without a client. *)
Lemma accept_fails_turn i m it t n p fd s : pcs (pool s) !! i = Some (m, PRun it t None) → accepts s !! n = Some t →
  TcpServer.accept_worker (srv s) !! n = Some (TcpServer.TAccepting p fd) → turn i (view s) (view (Stack.accept_fails n p s)).
Proof using.
  intros Hi Hn Hf. pose proof (jobs_task s n t _ Hn Hf) as Hj.
  assert (TcpServer.accept_worker (srv (Stack.accept_fails n p s)) !! n = Some (TcpServer.TStartAccept p)) as Hf1.
  { simpl. apply list_lookup_insert_eq. by eapply lookup_lt_Some. }
  assert (accepts (Stack.accept_fails n p s) !! n = Some t) as Hn1 by exact Hn.
  pose proof (jobs_task (Stack.accept_fails n p s) n t _ Hn1 Hf1) as Hj1. cbn [Stack.accept_fails accepts clients srv TcpServer.set_accept_worker TcpServer.accept_worker] in Hj1.
  rewrite delete_insert_same in Hj1.
  apply (turn_go i m it t (pcs (pool s)) (tasks_ (sched (pool s))) (jobs s) (jobs (Stack.accept_fails n p s)) (closed_of s) p fd _ [] Hi Hj); [|simpl; lia].
  simpl. rewrite app_nil_r. exact Hj1.
Qed.

Lemma task_server base (st st' : TcpServer.State (W := HookNet.HW)) n : TcpServer.good (NetLaws0 := HookNet.hook_laws) base st →
  TcpServer.exec host (TcpServer.ETask n) st = (Ok tt, st') →
  TcpServer.is_stop_ (TcpServer.server st') = TcpServer.is_stop_ (TcpServer.server st).
Proof using.
  intros [Hi Hl] Hr. cbn [TcpServer.exec] in Hr. destruct (TcpServer.accept_worker st !! n) as [[p|p fd|]|] eqn:Hn.
  - destruct (TcpServer.start_spec host base st n p Hi Hn) as (st1 & Hr1 & _ & Hsv & _). rewrite Hr in Hr1. injection Hr1 as <-. by rewrite Hsv.
  - destruct (TcpServer.accepting_spec host base st n p fd HookNet.accepts_hooked Hi Hn) as (x & r & w & st1 & _ & _ & Hr1 & _ & Hsv & _).
    rewrite Hr in Hr1. injection Hr1 as <-. by rewrite Hsv.
  - destruct (TcpServer.TClose_spec host base st n Hi Hl Hn) as (st1 & Hr1 & _ & Hsv & _). rewrite Hr in Hr1. injection Hr1 as <-. by rewrite Hsv.
  - unfold TcpServer.step_task in Hr. rewrite TcpServer.get_bind, Hn in Hr.
    change ((Ok tt, st) = (Ok tt, st')) in Hr. by injection Hr as <-.
Qed.

Lemma moves_stopped base l (st st' : TcpServer.State (W := HookNet.HW)) :
  TcpServer.good (NetLaws0 := HookNet.hook_laws) base st → allowed (XPool l) = true → Stack.moves host l st st' →
  TcpServer.is_stop_ (TcpServer.server st') = TcpServer.is_stop_ (TcpServer.server st).
Proof using.
  intros Hg Hl [[-> _]|(e & _ & He & Hex)]; [done|].
  destruct l as [addrs fails| | | |i|i|i|i|i f|i|i|n], e as [addrs' fails'| | |n'|n']; try done.
  - by apply (task_server base _ _ n').
  - destruct (TcpServer.io_worker st !! n') as [p|] eqn:Hn.
    + by destruct (client_server host base _ _ n' p Hg Hn Hex) as [-> _].
    + cbn [TcpServer.exec] in Hex. unfold TcpServer.step_client in Hex. rewrite TcpServer.get_bind, Hn in Hex.
      change ((Ok tt, st) = (Ok tt, st')) in Hex. by injection Hex as <-.
Qed.

(** A step of the pool that is made in [ServerPool]. *)
Lemma pool_tick base s l s1 : ServerPool.sinv (NetLaws0 := HookNet.hook_laws) base s →
  TcpServer.is_stop_ (TcpServer.server (srv s)) = true → allowed (XPool l) = true →
  ServerPool.step host l s = Some (Ok s1) → ∃ v1 ts,
  match actor (XPool l) with Some i => turn i (view s) v1 | None => v1 = view s end ∧ view s1 = also ts v1.
Proof using.
  intros Hs Hst Hl Hr. destruct l as [addrs fails| | | |i|i|i|i|i f|i|i|n]; try done; simpl.
  - cbn [ServerPool.step] in Hr. exists (view s), []. split; [done|]. rewrite also_nil.
    destruct (same_view _ _ _ Hr) as [Hj Hc]. apply pool_step_pool in Hr. cbn [Scheduler.do_all Scheduler.do] in Hr.
    destruct (Scheduler.Stop _ (sched (pool s))) as [o sc] eqn:Hstop.
    assert (tasks_ sc = tasks_ (sched (pool s))) as Htk.
    { destruct o as [x|e]; [|done]. destruct (Scheduler.Stop_ok _ _ _ _ Hstop) as [->| ->]; done. }
    destruct o as [x|e]; [|done]. injection Hr as Hr. symmetry. apply view_eq; try done; by rewrite <- Hr.
  - exists (view s1), []. rewrite also_nil. split; [by eapply take_turn|done].
  - exists (view s1), []. rewrite also_nil. split; [by eapply resume_turn|done].
  - exists (view s1), []. rewrite also_nil. split; [by eapply idle_turn|done].
  - by apply (run_turn host base s i s1 HookNet.accepts_hooked).
  - exists (view s1), []. rewrite also_nil. split; [by eapply yield_turn|done].
  - exists (view s1), []. rewrite also_nil. split; [by eapply switch_turn|done].
Qed.

Lemma stack_tick base i s l s' : Stack.xinv me base i s → TcpServer.is_stop_ (TcpServer.server (srv s)) = true →
  allowed l = true → Stack.label_ok l s = true → Stack.step host me l s = Some (Ok s') → tick (actor l) (view s) (view s').
Proof using.
  intros Hx Hst Hl Hlab. pose proof (Stack.x_sinv _ _ _ _ Hx) as Hs. destruct l as [l|j f|p reported]; cbn [Stack.step].
  - destruct (Stack.plain l); [|done]. destruct (ServerPool.step host l s) as [[s1|]|] eqn:Hr1; try done.
    intros (ts2 & Hv2)%wake_all_view. destruct (pool_tick base s l s1 Hs Hst Hl Hr1) as (v1 & ts & Ht & Hv).
    exists v1, (ts ++ ts2). split; [exact Ht|]. by rewrite Hv2, Hv, also_also.
  - intros Hr. pose proof (register_open _ _ _ _ _ _ Hx Hlab Hr) as Hc. unfold Stack.do_register in Hr.
    destruct (Stack.call_of j s) as [[[n p] fd]|] eqn:Hcall; [|done]. cbn [mbind option_bind] in Hr.
    destruct (HookNet.ctx_of fd (Stack.hw s)) as [[c|]|]; try done. destruct (Stack.may_wait c); [|done].
    destruct (ServerPool.step host (YRegister j f) s) as [[s1|]|] eqn:Hr1; try done.
    destruct (Stack.on_manager _ s1) as [[rt s2]|] eqn:Hom; [|done]. apply on_manager_view in Hom. injection Hr as <-. case_decide.
    + exists (view s1), []. rewrite also_nil. split; [|done]. simpl. by eapply register_turn.
    + exists (view (Stack.accept_fails n p s)), []. rewrite also_nil. split; [|done]. simpl.
      apply Stack.call_of_inv in Hcall as (t & Hrun & Hidx & Hf). apply ServerPool.runs_Some in Hrun as (m & it & Hi).
      apply ServerPool.index_of_Some in Hidx. by eapply accept_fails_turn.
  - unfold Stack.do_event. destruct (Stack.manager s) as [m|]; [|done]. cbn [mbind option_bind].
    destruct (IOManager.heap m !! p) as [c|]; [|done]. cbn [mbind option_bind]. case_decide; [|done].
    destruct (Stack.on_manager _ s) as [[u s1]|] eqn:Hom; [|done]. apply on_manager_view in Hom.
    intros (ts & Hv)%wake_all_view. exists (view s), ts. split; [done|]. by rewrite Hv, Hom.
Qed.

(** ** Rounds *)

Context (threads : nat).

(** A server that was stopped, whose sockets [tc] closes or somebody has closed. *)
Record stopped (base : gset Z) (tc : ScheduleTask) s : Prop := {
  d_pinv : Stack.pinv me base s;
  d_threads : length (pcs (pool s)) = threads;
  d_stop : TcpServer.is_stop_ (TcpServer.server (srv s)) = true;
  d_going : going tc (view s);
  d_cb : fiber tc = None
}.

Lemma d_placed base tc s : stopped base tc s → placed tc (view s).
Proof using.
  intros [((i & Hx) & _) _ _ [Hj _] _]. pose proof (Stack.x_sinv _ _ _ _ Hx) as Hs. pose proof (ServerPool.y_placed _ _ Hs) as Hpl.
  pose proof (jobs_names base s Hs) as Hn. constructor; simpl; rewrite Hn; [apply Hpl|].
  exists (parked_ s). split; [apply Hpl|]. split; intros Hc; simpl in *.
  - apply (Stack.closed_none me base i s Hx). right. by apply bool_decide_eq_true in Hc.
  - intros Hp. destruct (jobs_elem_inv _ _ _ (Hj Hc)) as (n & Ht & Hf).
    destruct (Stack.parked_accepting me base i s tc Hx Hp) as (p & x & (m & Hm & Hm') & _).
    pose proof (ServerPool.p_nodup _ _ _ Hpl) as [Hnd _]%NoDup_app.
    pose proof (NoDup_lookup _ _ _ _ Hnd Ht Hm) as <-. congruence.
Qed.

Lemma stopped_step base tc s l r : stopped base tc s → allowed l = true → Stack.label_ok l s = true → Stack.race l s = false →
  Stack.step host me l s = Some r → ∃ s', r = Ok s' ∧ stopped base tc s' ∧ tick (actor l) (view s) (view s').
Proof using All.
  intros Hd Hl Hlo Hrace Hr. pose proof Hd as [Hpi Hk Hst Hg Hcb]. pose proof Hpi as ((i & Hx) & _).
  destruct (Stack.step_pinv host me ctl_ok base l s r Hpi Hlo Hrace Hr) as (s' & -> & Hpi'). exists s'. split; [done|].
  pose proof (stack_tick base i s l s' Hx Hst Hl Hlo Hr) as Ht. split; [|done].
  constructor; [done|rewrite <- Hk; by apply (tick_length _ _ _ Ht)| | |done].
  - destruct l as [l|j f|p reported].
    + assert (Stack.plain l = true ∧ ServerPool.label_ok l = true ∧
        match l with YBind _ _ | YStart => Stack.loops (srv s) = [] | _ => True end) as (H1 & H2 & H3) by (by destruct l).
      destruct (Stack.plain_ok host me ctl_ok base i l s _ Hx H1 H2 Hrace H3 Hr) as (s2 & i2 & [= <-] & _ & Hmv).
      by rewrite (moves_stopped base l _ _ (ServerPool.y_good _ _ (Stack.x_sinv _ _ _ _ Hx)) Hl Hmv).
    + destruct (Stack.register_ok host me ctl_ok base i j f s _ Hx Hlo Hr) as (s2 & i2 & [= <-] & _ & [(w & ->)|(n & p & fd & w & _ & ->)]); done.
    + destruct (Stack.event_ok host me ctl_ok base i p reported s _ Hx Hr) as (s2 & i2 & [= <-] & _ & w & ->). done.
  - eapply tick_going; [by eapply d_placed|exact Ht|exact Hg].
Qed.

(** Every step of a run is one of [Stack.orderly] and of [Stack.raceless]. *)
Definition calm (r : list Stack.label) s : Prop := Stack.orderly host me r s = true ∧ Stack.raceless host me r s = true.

Lemma calm_cons l r s : calm (l :: r) s →
  match Stack.step host me l s with
  | None => calm r s
  | Some x => Stack.label_ok l s = true ∧ Stack.race l s = false ∧ ∀ s', x = Ok s' → calm r s'
  end.
Proof using.
  unfold calm, Stack.orderly, Stack.raceless. cbn [Stack.throughout]. destruct (Stack.step host me l s) as [[s'|e]|]; [| |done].
  - intros [[H1 H2]%andb_true_iff [H3%negb_true_iff H4]%andb_true_iff]. split; [done|]. split; [done|]. by intros ? [= <-].
  - intros [H1 H2%negb_true_iff]. by split_and!.
Qed.

Lemma calm_prefix r1 r2 : ∀ s, calm (r1 ++ r2) s → calm r1 s.
Proof using.
  unfold calm, Stack.orderly, Stack.raceless. induction r1 as [|l r1 IH]; intros s; [done|]. cbn [Stack.throughout app].
  destruct (Stack.step host me l s) as [[s2|e]|]; [|done|apply IH].
  rewrite !andb_true_iff. intros [[H1 H2] [H3 H4]]. by destruct (IH s2 (conj H2 H4)).
Qed.

Lemma calm_app r1 r2 : ∀ s s1, Stack.run host me r1 s = Ok s1 → calm (r1 ++ r2) s → calm r2 s1.
Proof using.
  induction r1 as [|l r1 IH]; intros s s1; cbn [Stack.run app]; [by intros [= ->]|].
  unfold calm, Stack.orderly, Stack.raceless in *. cbn [Stack.throughout]. destruct (Stack.step host me l s) as [[s2|e]|]; [|done|apply IH].
  rewrite !andb_true_iff. intros Hrun [[H1 H2] [H3 H4]]. exact (IH s2 s1 Hrun (conj H2 H4)).
Qed.

(** What a thread does next. *)
Definition next_of (i : nat) (p : pc) : Stack.label :=
  XPool match p with
        | PLoop _ => YTake i
        | PHave _ _ => YResume i
        | PRun _ _ None => YRun i
        | PRun _ _ (Some _) => YYield i
        | PLeave _ _ _ => YSwitch i
        | _ => YIdle i
        end.

(** A thread that has not left [Run] can always go on. *)
Lemma step_able base tc s i n p : stopped base tc s → pcs (pool s) !! i = Some (n, p) → p ≠ PExit →
  (Stack.step host me (next_of i p) s ≠ None → Stack.race (next_of i p) s = false) →
  ∃ s', Stack.step host me (next_of i p) s = Some (Ok s') ∧ stopped base tc s' ∧ tick (Some i) (view s) (view s').
Proof using All.
  intros Hd Hi Hp Hrace.
  assert (allowed (next_of i p) = true ∧ actor (next_of i p) = Some i ∧ Stack.label_ok (next_of i p) s = true) as (Hl & Hact & Hlo)
    by (by destruct p as [| |? ? []| | |]).
  assert (Stack.step host me (next_of i p) s ≠ None) as Hen.
  { destruct Hd as [((m & Hx) & _) _ _ _ _]. pose proof (Stack.x_sinv _ _ _ _ Hx) as Hs.
    pose proof (pool_able host base s i n p Hs Hi) as Hab. unfold next_of. cbn [Stack.step].
    destruct p as [| |? ? []| | |]; try done; cbn [Stack.plain]; destruct (ServerPool.step host _ s) as [[s1|]|]; try done; apply wake_all_some. }
  specialize (Hrace Hen). destruct (Stack.step host me (next_of i p) s) as [r|] eqn:Hr; [|done].
  destruct (stopped_step _ _ _ _ _ Hd Hl Hlo Hrace Hr) as (s' & -> & Hd' & Ht). rewrite Hact in Ht. by exists s'.
Qed.

(** Something that every step keeps, unless it lowers the measure, is so at the end of a
    run, unless the measure is lower then. *)
Lemma until base tc (P : View → Prop) r :
  (∀ o v v', placed tc v → placed tc v' → going tc v → P v → tick o v v' → P v' ∨ (measure tc v' < measure tc v)%nat) →
  ∀ s, stopped base tc s → forallb allowed r = true → calm r s → ∃ s', Stack.run host me r s = Ok s' ∧ stopped base tc s' ∧
    (measure tc (view s') ≤ measure tc (view s))%nat ∧
    (P (view s) → P (view s') ∨ (measure tc (view s') < measure tc (view s))%nat).
Proof using All.
  intros HP. induction r as [|l r IH]; intros s Hd Hr Hcalm; cbn [Stack.run].
  { exists s. split_and!; auto. }
  simpl in Hr. apply andb_true_iff in Hr as [Hl Hr]. apply calm_cons in Hcalm.
  destruct (Stack.step host me l s) as [x|] eqn:Hx; [|by apply IH]. destruct Hcalm as (Hlo & Hrace & Hcalm).
  destruct (stopped_step _ _ _ _ _ Hd Hl Hlo Hrace Hx) as (s1 & -> & Hd1 & Ht).
  pose proof (tick_le _ (d_cb _ _ _ Hd) _ _ _ (d_placed _ _ _ Hd) (d_placed _ _ _ Hd1) (d_going _ _ _ Hd) Ht) as Hle.
  destruct (IH s1 Hd1 Hr (Hcalm s1 eq_refl)) as (s' & Hrun & Hd' & Hle' & HP'). exists s'. split; [done|]. split; [done|]. split; [lia|].
  intros Hs. destruct (HP _ _ _ (d_placed _ _ _ Hd) (d_placed _ _ _ Hd1) (d_going _ _ _ Hd) Hs Ht) as [H1|]; [|right; lia].
  destruct (HP' H1); [by left|right; lia].
Qed.

Lemma run_app ls1 ls2 : ∀ s s1, Stack.run host me ls1 s = Ok s1 → Stack.run host me (ls1 ++ ls2) s = Stack.run host me ls2 s1.
Proof using.
  induction ls1 as [|l ls IH]; intros s s1; cbn [Stack.run app]; [by intros [= ->]|].
  destruct (Stack.step host me l s) as [[s2|e]|]; [apply IH|done|apply IH].
Qed.

Definition lowers base tc s (r : list Stack.label) : Prop :=
  ∃ s', Stack.run host me r s = Ok s' ∧ stopped base tc s' ∧ (measure tc (view s') < measure tc (view s))%nat.

(** What comes after a step that has lowered the measure does not matter. *)
Lemma lower_then base tc s s1 r : stopped base tc s1 → forallb allowed r = true → calm r s1 →
  (measure tc (view s1) < measure tc (view s))%nat → ∃ s', Stack.run host me r s1 = Ok s' ∧ stopped base tc s' ∧
  (measure tc (view s') < measure tc (view s))%nat.
Proof using All.
  intros Hd1 Hr Hcalm Hlt. destruct (until base tc (λ _, True) r ltac:(by left) s1 Hd1 Hr Hcalm) as (s' & H1 & H2 & H3 & _).
  exists s'. split; [done|]. split; [done|lia].
Qed.

(** A thread that stays where it is until it goes on, and whose step then lowers the
    measure: after a run with that step the measure is lower. *)
Lemma hit base tc (P : View → Prop) l r s : l ∈ r → forallb allowed r = true → calm r s → stopped base tc s → P (view s) →
  (∀ o v v', placed tc v → placed tc v' → going tc v → P v → tick o v v' → P v' ∨ (measure tc v' < measure tc v)%nat) →
  (∀ s1, stopped base tc s1 → P (view s1) → (Stack.step host me l s1 ≠ None → Stack.race l s1 = false) → ∃ s2,
    Stack.step host me l s1 = Some (Ok s2) ∧ stopped base tc s2 ∧ (measure tc (view s2) < measure tc (view s1))%nat) →
  lowers base tc s r.
Proof using All.
  intros (r1 & r2 & ->)%list_elem_of_split Hal Hcalm Hd Hs Hkeep Hhit. rewrite forallb_app in Hal. simpl in Hal.
  apply andb_true_iff in Hal as [Hr1 [Hl Hr2]%andb_true_iff]. unfold lowers.
  destruct (until base tc P r1 Hkeep s Hd Hr1 (calm_prefix _ _ _ Hcalm)) as (s1 & Hrun1 & Hd1 & Hle1 & HP1). rewrite (run_app _ _ _ _ Hrun1).
  pose proof (calm_app _ _ _ _ Hrun1 Hcalm) as Hc2. apply calm_cons in Hc2. cbn [Stack.run]. destruct (HP1 Hs) as [HP|Hlt].
  - destruct (Hhit s1 Hd1 HP) as (s2 & Hs2 & Hd2 & Hlt).
    { intros Hne. destruct (Stack.step host me l s1); [by destruct Hc2 as (_ & ? & _)|done]. }
    rewrite Hs2 in Hc2 |- *. destruct Hc2 as (_ & _ & Hc2). apply (lower_then base tc s s2 r2); [done|done|by apply Hc2|lia].
  - destruct (Stack.step host me l s1) as [x|] eqn:Hx; [|by apply (lower_then base tc s s1 r2)]. destruct Hc2 as (Hlo & Hrace & Hc2).
    destruct (stopped_step _ _ _ _ _ Hd1 Hl Hlo Hrace Hx) as (s2 & -> & Hd2 & Ht). apply (lower_then base tc s s2 r2); [done|done|by apply Hc2|].
    pose proof (tick_le _ (d_cb _ _ _ Hd) _ _ _ (d_placed _ _ _ Hd1) (d_placed _ _ _ Hd2) (d_going _ _ _ Hd1) Ht). lia.
Qed.

(** The labels of thread [i] in a round: it leaves its idle fiber, takes, resumes and runs,
    and a fiber that has registered becomes READY and leaves it. *)
Definition round_of (i : nat) : list Stack.label :=
  [XPool (YIdle i); XPool (YTake i); XPool (YResume i); XPool (YRun i); XPool (YYield i); XPool (YSwitch i)].

(** A part of a schedule in which every thread has its turn, among whatever else happens. *)
Definition fair_round (r : list Stack.label) : Prop :=
  forallb allowed r = true ∧ ∀ i, (i < threads)%nat → round_of i `sublist_of` r.

Lemma next_of_round i p : next_of i p ∈ round_of i.
Proof using. destruct p as [| |? ? []| | |]; unfold next_of, round_of; rewrite !elem_of_cons; tauto. Qed.

(** A thread has a function, and nobody has [tc]. *)
Lemma busy_round base tc s i n p t r : fair_round r → calm r s → stopped base tc s → pcs (pool s) !! i = Some (n, p) →
  pc_task p = Some t → apt tc (view s) → lowers base tc s r.
Proof using All.
  intros [Hal Hr] Hcalm Hd Hi Hp Ha. pose proof (lookup_lt_Some _ _ _ Hi) as Hlt. rewrite (d_threads _ _ _ Hd) in Hlt.
  pose proof (d_cb _ _ _ Hd) as Hcb.
  apply (hit base tc (λ v, v_pcs v !! i = Some (n, p) ∧ apt tc v) (next_of i p) r s);
    [eapply elem_of_sublist; [apply next_of_round|by apply Hr]|done|done|done|by split| |].
  - intros o v v' Hpl Hpl' Hg [Hv Hav] Ht. destruct (decide (o = Some i)) as [->|Hne].
    + right. apply (tick_lt tc Hcb _ _ _ Hpl Hpl' Ht Hav). by apply (tick_busy i n p t v v').
    + destruct (tick_apt tc Hcb _ _ _ Hpl Hpl' Ht Hav) as [Hav'|]; [left|by right]. by rewrite (tick_other _ _ _ _ Ht Hne).
  - intros s1 Hd1 [Hv Hav] Hrace. destruct (step_able base tc s1 i n p Hd1 Hv) as (s2 & Hs2 & Hd2 & Ht); [by intros ->|done|].
    exists s2. split; [done|]. split; [done|]. apply (tick_lt tc Hcb (Some i)); [by eapply d_placed|by eapply d_placed|done|done|].
    by apply (tick_busy i n p t _ (view s2)).
Qed.

(** A thread has [tc]. *)
Lemma close_round base tc s i n p r : fair_round r → calm r s → stopped base tc s → pcs (pool s) !! i = Some (n, p) →
  ServerPool.pc_busy p = Some tc → closed_of s = false → index_of tc (tasks_ (sched (pool s))) = None → lowers base tc s r.
Proof using All.
  intros [Hal Hr] Hcalm Hd Hi Hp Hc Hk. pose proof (lookup_lt_Some _ _ _ Hi) as Hlt. rewrite (d_threads _ _ _ Hd) in Hlt.
  apply (hit base tc (λ v, v_pcs v !! i = Some (n, p) ∧ v_closed v = false ∧ index_of tc (v_queue v) = None) (next_of i p) r s);
    [eapply elem_of_sublist; [apply next_of_round|by apply Hr]|done|done|done|by split_and!| |].
  - intros o v v' Hpl Hpl' Hg (Hv & Hcv & Hkv) Ht. destruct (decide (o = Some i)) as [->|Hne].
    + right. by apply (tick_held_lt tc i n p v v').
    + pose proof (tick_other _ _ _ _ Ht Hne) as Hsame. rewrite Hv in Hsame. destruct (v_closed v') eqn:Hc'.
      * right. pose proof (tick_todo _ _ _ Ht). pose proof (tick_length _ _ _ Ht). pose proof (out_bound (v_pcs v')).
        unfold measure. rewrite Hcv, Hc', Hkv. lia.
      * left. split; [done|]. split; [done|]. apply index_of_None, (in_queue tc v' tc Hpl'), ServerPool.busy_elem. by exists i, n, p.
  - intros s1 Hd1 (Hv & Hcv & Hkv) Hrace. destruct (step_able base tc s1 i n p Hd1 Hv) as (s2 & Hs2 & Hd2 & Ht); [by intros ->|done|].
    exists s2. split; [done|]. split; [done|].
    by apply (tick_held_lt tc i n p _ _ (d_placed _ _ _ Hd1) (d_placed _ _ _ Hd2) (d_going _ _ _ Hd1) Ht).
Qed.

(** A thread has nothing yet, and there is something in the queue that anybody may take. *)
Definition at_loop (i : nat) (v : View) : Prop := ∃ n it, v_pcs v !! i = Some (n, PLoop it).
Definition at_idle (i : nat) (v : View) : Prop := ∃ n, v_pcs v !! i = Some (n, PIdle).
Definition offered (tc : ScheduleTask) (v : View) : Prop := v_queue v ≠ [] ∧ quiet (v_pcs v) = [] ∧ apt tc v.

Lemma offered_busy tc i v : at_loop i v → offered tc v → busy v (Some i).
Proof using.
  intros (n & it & Hi) (Hq & Hn & _). exists i, n, (PLoop it). split; [done|]. split; [done|].
  destruct (v_queue v) as [|t q]; [done|]. left. by apply all_awake.
Qed.

Lemma tick_offered tc o v v' : fiber tc = None → placed tc v → placed tc v' → tick o v v' → offered tc v →
  offered tc v' ∨ (measure tc v' < measure tc v)%nat.
Proof using.
  intros Hcb Hp Hp' Ht (Hq & Hn & Ha). destruct (tick_queue _ _ _ Ht Hq) as [Hq'|Hb]; [|right; by apply (tick_lt tc Hcb o)].
  destruct (tick_quiet _ _ _ Ht Hn) as [Hn'|Hb]; [|right; by apply (tick_lt tc Hcb o)].
  destruct (tick_apt tc Hcb _ _ _ Hp Hp' Ht Ha); [by left; split_and!|by right].
Qed.

Lemma loop_keeps tc i o v v' : fiber tc = None → placed tc v → placed tc v' → at_loop i v ∧ offered tc v → tick o v v' →
  (at_loop i v' ∧ offered tc v') ∨ (measure tc v' < measure tc v)%nat.
Proof using.
  intros Hcb Hp Hp' [Hl Ho] Ht. destruct (decide (o = Some i)) as [->|Hne].
  - right. apply (tick_lt tc Hcb (Some i) _ _ Hp Hp' Ht); [apply Ho|by eapply offered_busy].
  - destruct (tick_offered tc _ _ _ Hcb Hp Hp' Ht Ho) as [Ho'|]; [left|by right]. split; [|done].
    destruct Hl as (n & it & Hi). exists n, it. by rewrite (tick_other _ _ _ _ Ht Hne).
Qed.

Lemma idle_turn_loop i v v' n : tick (Some i) v v' → v_pcs v !! i = Some (n, PIdle) → at_loop i v'.
Proof using.
  intros (v1 & ts & Ht & ->) Hi. unfold at_loop, also. simpl.
  destruct Ht as [m it ps q js c Hi'|? ? ? ? ? ? ? Hi'|? ? ? ? ? ? ? ? Hi'|? ? ? ? ? ? ? Hi'|? ? ? ? ? ? ? ? ? ? ? ? Hi'|? ? ? ? ? ? ? ? ? ? Hi'
    |? ? ? ? ? ? ? ? ? ? ? Hi'|? ? ? ? ? ? ? ? Hi'|? ? ? ? ? ? ? ? Hi']; simpl in *; rewrite Hi in Hi'; simplify_eq.
  exists m, it. apply list_lookup_insert_eq. by eapply lookup_lt_Some.
Qed.

Lemma idle_keeps tc i o v v' : fiber tc = None → placed tc v → placed tc v' → at_idle i v ∧ offered tc v → tick o v v' →
  ((at_idle i v' ∧ o ≠ Some i ∨ at_loop i v') ∧ offered tc v') ∨ (measure tc v' < measure tc v)%nat.
Proof using.
  intros Hcb Hp Hp' [(n & Hi) Ho] Ht. destruct (tick_offered tc _ _ _ Hcb Hp Hp' Ht Ho) as [Ho'|]; [left|by right]. split; [|done].
  destruct (decide (o = Some i)) as [->|Hne]; [right; by eapply idle_turn_loop|].
  left. split; [|done]. exists n. by rewrite (tick_other _ _ _ _ Ht Hne).
Qed.

Lemma loop_round base tc s i r : XPool (YTake i) ∈ r → forallb allowed r = true → calm r s → stopped base tc s →
  at_loop i (view s) → offered tc (view s) → lowers base tc s r.
Proof using All.
  intros Hin Hal Hcalm Hd Hl Ho. pose proof (d_cb _ _ _ Hd) as Hcb.
  apply (hit base tc (λ v, at_loop i v ∧ offered tc v) _ r s Hin Hal Hcalm Hd); [done| |].
  - intros o v v' Hp Hp' _. by apply loop_keeps.
  - intros s1 Hd1 [Hl1 Ho1] _. pose proof Hl1 as (n & it & Hi).
    destruct (step_able base tc s1 i n (PLoop it) Hd1 Hi ltac:(done)) as (s2 & Hs2 & Hd2 & Ht); [done|].
    exists s2. split; [done|]. split; [done|]. apply (tick_lt tc Hcb (Some i)); [by eapply d_placed|by eapply d_placed|done|apply Ho1|].
    by eapply offered_busy.
Qed.

Lemma idle_round base tc s i r : [XPool (YIdle i); XPool (YTake i)] `sublist_of` r → forallb allowed r = true → calm r s →
  stopped base tc s → at_idle i (view s) → offered tc (view s) → lowers base tc s r.
Proof using All.
  intros Hin Hal Hcalm Hd Hl Ho. apply sublist_cons_l in Hin as (r1 & r2 & -> & Hin). rewrite singleton_sublist_l in Hin.
  rewrite forallb_app in Hal. simpl in Hal. apply andb_true_iff in Hal as [Hr1 Hr2]. pose proof (d_cb _ _ _ Hd) as Hcb.
  set (P v := (at_idle i v ∨ at_loop i v) ∧ offered tc v).
  destruct (until base tc P r1) with (s := s) as (s1 & Hrun1 & Hd1 & Hle1 & HP1); [|done|done|by apply calm_prefix in Hcalm|].
  { intros o v v' Hp Hp' _ [[Hi|Hi] Hov] Ht.
    - destruct (idle_keeps tc i o v v' Hcb Hp Hp' (conj Hi Hov) Ht) as [[[[? _]|?] ?]|]; [left; split; auto|left; split; auto|by right].
    - destruct (loop_keeps tc i o v v' Hcb Hp Hp' (conj Hi Hov) Ht) as [[? ?]|]; [left; split; auto|by right]. }
  unfold lowers. rewrite (run_app _ _ _ _ Hrun1). pose proof (calm_app _ _ _ _ Hrun1 Hcalm) as Hc2. apply calm_cons in Hc2. cbn [Stack.run].
  assert (∀ s2, stopped base tc s2 → calm r2 s2 → (measure tc (view s2) ≤ measure tc (view s))%nat →
    at_loop i (view s2) ∧ offered tc (view s2) ∨ (measure tc (view s2) < measure tc (view s))%nat → ∃ s',
    Stack.run host me r2 s2 = Ok s' ∧ stopped base tc s' ∧ (measure tc (view s') < measure tc (view s))%nat) as Hrest.
  { intros s2 Hd2 Hcalm2 Hle [[Hl2 Ho2]|Hlt]; [|by apply (lower_then base tc s s2 r2)].
    destruct (loop_round base tc s2 i r2 Hin Hr2 Hcalm2 Hd2 Hl2 Ho2) as (s' & ? & ? & ?). exists s'. split; [done|]. split; [done|lia]. }
  destruct (Stack.step host me (XPool (YIdle i)) s1) as [x|] eqn:Hx.
  - destruct Hc2 as (Hlo & Hrace & Hc2). destruct (stopped_step base tc s1 (XPool (YIdle i)) x Hd1 eq_refl Hlo Hrace Hx) as (s2 & -> & Hd2 & Ht).
    simpl in Ht. pose proof (d_placed _ _ _ Hd1) as Hp1. pose proof (d_placed _ _ _ Hd2) as Hp2.
    pose proof (tick_le _ Hcb _ _ _ Hp1 Hp2 (d_going _ _ _ Hd1) Ht) as Hle. apply Hrest; [done|by apply Hc2|lia|].
    destruct (HP1 (conj (or_introl Hl) Ho)) as [[[Hi|Hi] Hov]|]; [| |right; lia].
    + destruct (idle_keeps tc i _ _ _ Hcb Hp1 Hp2 (conj Hi Hov) Ht) as [[[[_ ?]|?] ?]|]; [done|by left|right; lia].
    + destruct (loop_keeps tc i _ _ _ Hcb Hp1 Hp2 (conj Hi Hov) Ht) as [?|]; [by left|right; lia].
  - apply Hrest; [done|done|done|]. destruct (HP1 (conj (or_introl Hl) Ho)) as [[[[n Hi]|Hi] Hov]|]; [|by left|by right].
    exfalso. destruct (step_able base tc s1 i n PIdle Hd1 Hi ltac:(done)) as (s2 & Hs2 & _); [done|]. unfold next_of in Hs2. congruence.
Qed.

(** Every round brings a server that has functions left on. *)
Lemma round_lower base tc s r : fair_round r → calm r s → stopped base tc s → jobs s ≠ [] → lowers base tc s r.
Proof using All.
  intros Hf Hcalm Hd Hj. pose proof (d_placed _ _ _ Hd) as Hp. pose proof (d_going _ _ _ Hd) as [Hclose Hal].
  assert (apt tc (view s) ∨ closed_of s = false ∧ index_of tc (tasks_ (sched (pool s))) = None) as [Ha|[Hc Hk]].
  { unfold apt. simpl. destruct (closed_of s); [by left; left|]. destruct (index_of tc _) as [k|]; [left; right; by exists k|by right]. }
  - destruct ((held (pcs (pool s))).*2) as [|t l] eqn:Hh.
    + assert (∀ i n p, pcs (pool s) !! i = Some (n, p) → pc_task p = None) as Hfree.
      { intros i n p Hi. destruct (pc_task p) as [t|] eqn:Hpt; [|done]. exfalso.
        assert (t ∈ (held (pcs (pool s))).*2) as Hin by (apply held_elem; eauto). rewrite Hh in Hin. by apply not_elem_of_nil in Hin. }
      assert (tasks_ (sched (pool s)) ≠ []) as Hq.
      { intros Hq. apply Hj, (nothing_left tc (view s) Hp Hclose Hq). apply ServerPool.busy_nothing. by apply fmap_nil_inv in Hh. }
      assert (quiet (pcs (pool s)) = []) as Hqu.
      { destruct (quiet (pcs (pool s))) as [|f fs] eqn:Hqu; [done|exfalso]. assert (f ∈ quiet (pcs (pool s))) as Hin by (rewrite Hqu; by left).
        apply list_elem_of_omap in Hin as ([m p] & [i Hi]%list_elem_of_lookup & Hpf). specialize (Hfree i m p Hi). by destruct p as [| |? ? []| | |]. }
      destruct Hal as [?|([n p] & [i Hi]%list_elem_of_lookup & Hp1)%Exists_exists]; [done|]. simpl in Hi.
      pose proof (Hfree i n p Hi) as Hpn.
      pose proof (lookup_lt_Some _ _ _ Hi) as Hlt. rewrite (d_threads _ _ _ Hd) in Hlt. destruct Hf as [Hr Hsub].
      specialize (Hsub i Hlt). destruct p as [it|it t|it t o|it t o| |]; try done.
      * apply (loop_round base tc s i r); [|done|done|done|by exists n, it|by split_and!].
        eapply elem_of_sublist; [apply (next_of_round i (PLoop it))|exact Hsub].
      * apply (idle_round base tc s i r); [|done|done|done|by exists n|by split_and!]. etrans; [|exact Hsub].
        apply sublist_skip, sublist_skip, sublist_nil_l.
    + destruct (proj1 (held_elem (pcs (pool s)) t)) as (i & n & p & Hi & Hpt); [rewrite Hh; by left|]. by eapply busy_round.
  - destruct (proj1 (ServerPool.busy_elem (pcs (pool s)) tc)) as (i & n & p & Hi & Hpt).
    { by apply (held_tc tc (view s) Hp (d_going _ _ _ Hd)). }
    by eapply close_round.
Qed.

(** When no function is left, none comes back. *)
Lemma nothing_comes base tc r : ∀ s, stopped base tc s → forallb allowed r = true → calm r s → jobs s = [] → ∃ s',
  Stack.run host me r s = Ok s' ∧ stopped base tc s' ∧ jobs s' = [].
Proof using All.
  induction r as [|l r IH]; intros s Hd Hr Hcalm Hj; cbn [Stack.run]; [by exists s|].
  simpl in Hr. apply andb_true_iff in Hr as [Hl Hr]. apply calm_cons in Hcalm.
  destruct (Stack.step host me l s) as [x|] eqn:Hx; [|by apply IH]. destruct Hcalm as (Hlo & Hrace & Hcalm).
  destruct (stopped_step _ _ _ _ _ Hd Hl Hlo Hrace Hx) as (s1 & -> & Hd1 & (v1 & ts & Ht & Hv)). apply IH; [done|done|by apply Hcalm|].
  change (v_jobs (view s1) = []). rewrite Hv. simpl. destruct (actor l) as [i|]; [|by subst v1].
  assert (∀ y js, jobs s ≡ₚ y :: js → False) as Hno by (intros y js Hp; rewrite Hj in Hp; symmetry in Hp; by apply Permutation_nil_r in Hp).
  inversion Ht; subst; try done; exfalso; by eapply Hno.
Qed.

Lemma rounds_allowed rs : Forall fair_round rs → forallb allowed (concat rs) = true.
Proof using. induction 1 as [|r rs [Hr _] _ IH]; [done|]. cbn [concat]. by rewrite forallb_app, Hr, IH. Qed.

Lemma rounds_end base tc rs : ∀ s, stopped base tc s → Forall fair_round rs → calm (concat rs) s →
  (measure tc (view s) ≤ length rs)%nat → ∃ s',
  Stack.run host me (concat rs) s = Ok s' ∧ stopped base tc s' ∧ jobs s' = [].
Proof using All.
  induction rs as [|r rs IH]; intros s Hd Hf Hcalm Hm.
  { exists s. split; [done|]. split; [done|]. apply (measure_zero tc (view s) (d_placed _ _ _ Hd)). simpl in Hm. lia. }
  destruct (decide (jobs s = [])) as [He|Hne].
  - apply (nothing_comes base tc); [done| |done|done]. by apply rounds_allowed.
  - apply Forall_cons in Hf as [Hr Hrs]. cbn [concat] in *.
    destruct (round_lower base tc s r Hr (calm_prefix _ _ _ Hcalm) Hd Hne) as (s1 & Hrun & Hd1 & Hlt).
    rewrite (run_app _ _ _ _ Hrun). apply IH; [done|done|by eapply calm_app|]. simpl in Hm. lia.
Qed.

(** A bound of the measure. *)
Lemma measure_bound base tc s : stopped base tc s →
  (measure tc (view s) ≤ 15 * length (accepts s) + 11 * length (clients s) + 6 * threads)%nat.
Proof using ctl_ok.
  intros Hd. pose proof (d_placed _ _ _ Hd) as [_ (parked & Hp & _)]. pose proof Hd as [((i & Hx) & _) Hth _ [Hclose _] _].
  pose proof (ServerPool.y_accepts _ _ (Stack.x_sinv _ _ _ _ Hx)) as Hya.
  assert (todo (jobs s) ≤ 7 * length (accepts s) + 3 * length (clients s))%nat as Ht.
  { unfold jobs. rewrite todo_app, todo_clients. pose proof (todo_bound (zip (accepts s) (Some <$> TcpServer.accept_worker (srv s)))) as Hb.
    rewrite length_zip_with, length_fmap in Hb. lia. }
  assert (length (tasks_ (sched (pool s))) ≤ length (accepts s) + length (clients s))%nat as Hq.
  { apply Permutation_length in Hp. simpl in Hp. unfold jobs in Hp.
    rewrite !length_app, !length_fmap, length_app, length_zip_with, !length_fmap in Hp. lia. }
  pose proof (out_bound (pcs (pool s))) as Ho.
  pose proof (on_pcs_bound due_of 4 (pcs (pool s)) ltac:(intros [| |? ? []| | |]; simpl; lia)) as Hdue.
  pose proof (on_pcs_bound (has tc) 1 (pcs (pool s)) ltac:(intros []; simpl; try destruct (decide _); lia)) as Hhas.
  unfold measure. simpl. destruct (closed_of s) eqn:Hc; [lia|].
  destruct (index_of tc (tasks_ (sched (pool s)))) as [k|] eqn:Hk.
  - apply ServerPool.index_of_Some, lookup_lt_Some in Hk. lia.
  - destruct (jobs_elem_inv _ _ _ (Hclose Hc)) as (n & Hn & _). apply lookup_lt_Some in Hn. lia.
Qed.

(** What [Stop] leaves: its function to run, or nothing to close. *)
Lemma stopping_stopped base s : Stack.pinv me base s → TcpServer.stopping (srv s) → alive (pcs (pool s)) →
  threads = length (pcs (pool s)) → ∃ tc, stopped base tc s.
Proof using.
  intros ((i & Hx) & _) [Hst Hc] Hal Hk. pose proof (Stack.x_sinv _ _ _ _ Hx) as Hs.
  assert (Stack.pinv me base s) as Hpi by (split; [by exists i|right; intros _; exact Hc]).
  destruct (decide (TcpServer.socks_ (TcpServer.server (srv s)) = [])) as [He|Hne].
  - exists (task_of_cb None (-1)). constructor; try done. split; [|by right]. simpl. unfold closed_of.
    by rewrite bool_decide_eq_true_2.
  - destruct Hc as [[n Hn]%list_elem_of_lookup|?]; [|done].
    destruct (lookup_lt_is_Some_2 (accepts s) n) as [tc Htc].
    { rewrite (ServerPool.y_accepts _ _ Hs). by eapply lookup_lt_Some. }
    exists tc. pose proof (ServerPool.y_closes _ _ Hs n tc Htc Hn). constructor; try done. split; [|by right]. intros _. by eapply jobs_elem.
Qed.

(** A server without functions has given back what it opened. *)
Lemma drained_closed base tc s : stopped base tc s → jobs s = [] →
  accepts s = [] ∧ clients s = [] ∧ parked_ s = [] ∧ tasks_ (sched (pool s)) = [] ∧ HookNet.is_open (Stack.hw s) = base.
Proof using.
  intros Hd Hj. pose proof Hd as [((i & Hx) & _) _ _ [Hclose _] _]. pose proof (Stack.x_sinv _ _ _ _ Hx) as Hs.
  pose proof (jobs_names base s Hs) as Hn. rewrite Hj in Hn. symmetry in Hn. apply app_eq_nil in Hn as [Ha Hc].
  pose proof (ServerPool.p_perm _ _ _ (ServerPool.y_placed _ _ Hs)) as Hp. rewrite Ha, Hc in Hp. simpl in Hp.
  apply Permutation_nil_l in Hp. symmetry in Hp. apply app_eq_nil in Hp as [Hq [_ Hpk]%app_eq_nil]. split_and!; try done.
  assert (TcpServer.socks_ (TcpServer.server (srv s)) = []) as Hso.
  { destruct (closed_of s) eqn:Hcl; [by apply bool_decide_eq_true in Hcl|]. specialize (Hclose Hcl). simpl in Hclose.
    rewrite Hj in Hclose. by apply not_elem_of_nil in Hclose. }
  pose proof (ServerPool.y_accepts _ _ Hs) as Hya. pose proof (ServerPool.y_clients _ _ Hs) as Hyc.
  rewrite Ha in Hya. rewrite Hc in Hyc. symmetry in Hya, Hyc. apply nil_length_inv in Hya, Hyc.
  pose proof (proj1 (ServerPool.y_good _ _ Hs)) as Hi. apply (TcpServer.inv_empty base (srv s) Hi).
  apply map_empty. intros p. apply eq_None_not_Some. rewrite (TcpServer.i_owned _ _ _ Hi p). unfold TcpServer.referenced.
  rewrite Hso, Hya, Hyc. simpl. pose proof (not_elem_of_nil p). tauto.
Qed.

End laws.

Section theorem.
Context {KL : KernelLaws} (ctl_ok : ∀ t, k_ctl t false = true).


End theorem.
End stack.

(** ** Witness *)

(** The loop of [Stack.waiting] waits when the server is stopped; the descriptor 3 that the
    server opened is closed in the end. In each round an event comes, and thread 1 would have
    its loop wait again if it ran. *)
Definition halting : list Stack.label := Stack.waiting ++ [XPool YStop].

Definition one_round : list Stack.label :=
  round_of 0 ++ XEvent 4 IOManager.EPOLLIN :: round_of 2 ++ XRegister 1 9 :: round_of 1.

Lemma one_round_fair : fair_round 3 one_round.
Proof.
  split; [reflexivity|]. unfold one_round. intros [|[|[|i]]] Hi; [by apply sublist_inserts_r| | |lia].
  - by apply sublist_inserts_l, sublist_cons, sublist_inserts_l, sublist_cons.
  - by apply sublist_inserts_l, sublist_cons, sublist_inserts_r.
Qed.

Definition rounds : list (list Stack.label) := replicate 48 one_round.

Definition halted : ServerPool.Sys (W := HookNet.HW) :=
  match Stack.run (K := HookNet.small_kernel) TcpServer.LE 7 halting Stack.stack0 with Ok s => s | Err _ => Stack.stack0 end.


End Drain.
