(* ===== verification/Show.v ===== *)
(** * Texts of objects: epoll's flags, sockets, the server

    [Module Show]: what [operator<<] makes of the operations and flags of epoll
    (net/iomanager.cc), [ToString] of addresses and sockets (net/address.cc, net/socket.cc)
    and of the server (tcp/tcp_server.cc). The texts go to the log and to people.

    Theorem: the text of a set of flags names exactly the flags that the code knows and the
    set has, and no two sets of known flags have the same text ([events_roundtrip]). *)

From Stdlib Require Import Ascii.
From S2P Require Import Prelude Endian FdManager IOManager StringUtil Address Socket TcpServer.
Import Endian StringUtil.

Module Show.

Local Open Scope Z_scope.

(** ** Epoll *)

Definition ctl_text (op : Z) : str :=
  if decide (op = 1) then S_ "EPOLL_CTL_ADD"
  else if decide (op = 3) then S_ "EPOLL_CTL_MOD"
  else if decide (op = 2) then S_ "EPOLL_CTL_DEL"
  else Socket.text op.

(** The flags in the order in which they are written, with the values of Linux. *)
Definition flags : list (Z * str) :=
  [(1, S_ "EPOLLIN"); (2, S_ "EPOLLPRI"); (4, S_ "EPOLLOUT"); (64, S_ "EPOLLRDNORM"); (128, S_ "EPOLLRDBAND");
   (256, S_ "EPOLLWRNORM"); (512, S_ "EPOLLWRBAND"); (1024, S_ "EPOLLMSG"); (8, S_ "EPOLLERR"); (16, S_ "EPOLLHUP");
   (8192, S_ "EPOLLRDHUP"); (2 ^ 30, S_ "EPOLLONESHOT"); (2 ^ 31, S_ "EPOLLET")].

(** The sequence of [XX(E)]. *)
Fixpoint write_flags (events : Z) (first : bool) (fs : list (Z * str)) : str :=
  match fs with
  | [] => []
  | (e, name) :: fs =>
      if decide (Z.land events e ≠ 0) then (if first then [] else S_ "|") ++ name ++ write_flags events false fs
      else write_flags events first fs
  end.

Definition events_text (events : Z) : str :=
  if decide (events = 0) then S_ "0" else write_flags events true flags.

(** *** Reading the text again *)

(** The parts between the bars. *)
Fixpoint parts (s : str) : list str :=
  match s with
  | [] => [[]]
  | c :: s =>
      if decide (c = "|"%char) then [] :: parts s
      else match parts s with p :: ps => (c :: p) :: ps | [] => [[c]] end
  end.

Definition flag_of (name : str) : Z :=
  match list_find (λ f, f.2 = name) flags with Some (_, (e, _)) => e | None => 0 end.

Definition events_of_text (s : str) : Z := foldr (λ name acc, Z.lor (flag_of name) acc) 0 (parts s).

Definition known : Z := foldr (λ f acc, Z.lor f.1 acc) 0 flags.

(** The flags that a set has. *)
Definition chosen (events : Z) : list (Z * str) := filter (λ f, Z.land events f.1 ≠ 0) flags.

Lemma parts_app p s : "|"%char ∉ p → parts (p ++ "|"%char :: s) = p :: parts s.
Proof.
  induction p as [|c p IH]; intros Hp; cbn [app parts]; [by rewrite decide_True|].
  apply not_elem_of_cons in Hp as [Hc Hp]. rewrite decide_False by congruence. by rewrite IH.
Qed.

Lemma parts_plain p : "|"%char ∉ p → parts p = [p].
Proof.
  induction p as [|c p IH]; intros Hp; [done|]. apply not_elem_of_cons in Hp as [Hc Hp]. cbn [parts].
  rewrite decide_False by congruence. by rewrite IH.
Qed.

Lemma names_plain f : f ∈ flags → "|"%char ∉ f.2.
Proof. revert f. apply (proj1 (Forall_forall _ _)). apply (bool_decide_eq_true_1 _). vm_compute. reflexivity. Qed.

Lemma flag_of_name f : f ∈ flags → flag_of f.2 = f.1.
Proof. revert f. apply (proj1 (Forall_forall _ _)). apply (bool_decide_eq_true_1 _). vm_compute. reflexivity. Qed.

Lemma write_flags_parts events fs : (∀ f, f ∈ fs → "|"%char ∉ f.2) →
  match filter (λ f, Z.land events f.1 ≠ 0) fs with
  | [] => ∀ first, write_flags events first fs = []
  | l => parts (write_flags events true fs) = l.*2 ∧ write_flags events false fs = "|"%char :: write_flags events true fs
  end.
Proof.
  induction fs as [|[e name] fs IH]; intros Hp; [done|].
  assert (∀ f, f ∈ fs → "|"%char ∉ f.2) as Hp' by (intros f Hf; apply Hp; by right). specialize (IH Hp').
  assert ("|"%char ∉ name) as Hname by (apply (Hp (e, name)); left). cbn [write_flags]. rewrite filter_cons. cbn [fst].
  destruct (decide (Z.land events e ≠ 0)) as [He|He].
  - destruct (filter _ fs) as [|f l]; cbn [fmap list_fmap snd]; split; try done.
    + cbn [app]. by rewrite IH, app_nil_r, parts_plain.
    + destruct IH as [IH ->]. cbn [app]. by rewrite parts_app, IH.
  - by destruct (filter _ fs).
Qed.

Lemma land_pow a k : 0 ≤ k → Z.land a (2 ^ k) = if Z.testbit a k then 2 ^ k else 0.
Proof.
  intros Hk. apply Z.bits_inj'. intros n Hn. rewrite Z.land_spec, Z.pow2_bits_eqb by done.
  destruct (Z.eqb_spec k n) as [<-|Hne].
  - rewrite andb_true_r. destruct (Z.testbit a k); [by rewrite Z.pow2_bits_true|by rewrite Z.bits_0].
  - rewrite andb_false_r. destruct (Z.testbit a k); [by rewrite Z.pow2_bits_false|by rewrite Z.bits_0].
Qed.

Lemma flags_single f : f ∈ flags → f.1 = 2 ^ Z.log2 f.1.
Proof. revert f. apply (proj1 (Forall_forall _ _)). apply (bool_decide_eq_true_1 _). vm_compute. reflexivity. Qed.

(** What the names of the flags of a set add up to. *)
Lemma chosen_sum events fs : (∀ f, f ∈ fs → f ∈ flags) →
  foldr (λ name acc, Z.lor (flag_of name) acc) 0 (filter (λ f, Z.land events f.1 ≠ 0) fs).*2 =
  Z.land events (foldr (λ f acc, Z.lor f.1 acc) 0 fs).
Proof.
  induction fs as [|f fs IH]; intros Hf; [by rewrite Z.land_0_r|]. cbn [foldr]. rewrite filter_cons, Z.land_lor_distr_r.
  rewrite <- IH by (intros g Hg; apply Hf; by right). pose proof (Hf f ltac:(by left)) as Hin.
  pose proof (land_pow events (Z.log2 f.1) (Z.log2_nonneg _)) as Hl. rewrite <- (flags_single f Hin) in Hl.
  case_decide as He.
  - cbn [fmap list_fmap foldr]. rewrite (flag_of_name f Hin). f_equal. rewrite Hl in He |- *. by destruct (Z.testbit _ _).
  - by rewrite He, Z.lor_0_l.
Qed.

Lemma events_text_read events : events_of_text (events_text events) = Z.land events known.
Proof.
  unfold events_text. case_decide as H0; [by subst|]. unfold known. rewrite <- chosen_sum by done. unfold events_of_text.
  pose proof (write_flags_parts events flags names_plain) as Hw.
  destruct (filter (λ f, Z.land events f.1 ≠ 0) flags) as [|f l]; [by rewrite Hw|]. by destruct Hw as [-> _].
Qed.

(** The text tells which flags were set: read again, it gives the known flags of the set,
    so that two sets of known flags with one text are equal. A set of none but unknown
    flags has the empty text; the empty set is written as 0. *)
Theorem events_roundtrip events : events_of_text (events_text events) = Z.land events known ∧
  ∀ events', Z.land events known = events → Z.land events' known = events' →
    events_text events = events_text events' → events = events'.
Proof.
  split; [apply events_text_read|]. intros events' <- <- Ht. apply (f_equal events_of_text) in Ht.
  rewrite !events_text_read in Ht. by rewrite <- !Z.land_assoc, !Z.land_diag in Ht.
Qed.

Example events_texts : events_text (IOManager.EPOLLIN + 8192) = S_ "EPOLLIN|EPOLLRDHUP" ∧ events_text 0 = S_ "0" ∧
  events_text (2 ^ 31 + 5) = S_ "EPOLLIN|EPOLLOUT|EPOLLET" ∧ events_text 32 = [] ∧ ctl_text 3 = S_ "EPOLL_CTL_MOD" ∧
  ctl_text 7 = S_ "7".
Proof. by vm_compute. Qed.

(** ** Objects *)

Section texts.
Context {W : Type} `{!Net W} (host : endian).

Definition Address_ToString (a : Address.Address) : res str := Address.Insert host a.

Definition Socket_ToString (s : Socket.Socket) : res str := Socket.Dump host s.

(** [std::endl] *)
Definition endl : str := ["010"%char].

(** The lines of the sockets. A pointer to no socket cannot be followed. *)
Fixpoint socket_lines (pfx : str) (ps : list nat) (h : gmap nat Socket.Socket) : res str :=
  match ps with
  | [] => Ok []
  | p :: ps =>
      match h !! p with
      | None => Err UndefinedBehaviour
      | Some s => t ← Socket.Dump host s; rest ← socket_lines pfx ps h; Ok (pfx ++ pfx ++ t ++ endl ++ rest)
      end
  end.

(** [io] and [accept] are the names of the two workers, for a null pointer the empty text. *)
Definition TcpServer_ToString (io accept prefix : str) (st : TcpServer.State (W := W)) : res str :=
  let v := TcpServer.server st in
  let pfx := if decide (prefix = []) then S_ "    " else prefix in
  l ← socket_lines pfx (TcpServer.socks_ v) (TcpServer.heap st);
  Ok (prefix ++ S_ "[type=" ++ TcpServer.type_ v ++ S_ " name=" ++ TcpServer.name_ v ++ S_ " io_worker=" ++ io
    ++ S_ " accept=" ++ accept ++ S_ " recv_timeout=" ++ Socket.text (TcpServer.recv_timeout_ v) ++ S_ "]" ++ endl ++ l).

(** A server that is in order prints the sockets it has, and no freed one. *)
Lemma TcpServer_ToString_ok `{!NetLaws W} base io accept prefix st : TcpServer.good base st →
  (∀ p s, TcpServer.heap st !! p = Some s → ∃ t, Socket.Dump host s = Ok t) →
  ∃ t, TcpServer_ToString io accept prefix st = Ok t.
Proof.
  intros [_ Hlive] Hd. assert (∀ pfx ps, (∀ p, p ∈ ps → is_Some (TcpServer.heap st !! p)) → ∃ t, socket_lines pfx ps (TcpServer.heap st) = Ok t) as Hl.
  { intros pfx. induction ps as [|p ps IH]; intros Hp; cbn [socket_lines]; [by eexists|].
    destruct (Hp p) as [s Hs]; [by left|]. rewrite Hs. destruct (Hd p s Hs) as [t ->]. cbn [mbind res_bind].
    destruct IH as [l ->]; [intros q Hq; apply Hp; by right|]. by eexists. }
  unfold TcpServer_ToString. cbv zeta.
  destruct (Hl (if decide (prefix = []) then S_ "    " else prefix) (TcpServer.socks_ (TcpServer.server st))) as [l ->]; [|by eexists].
  intros p Hp. destruct (Hlive p Hp) as (s & Hs & _). by exists s.
Qed.
End texts.

Example server_text : TcpServer_ToString TcpServer.LE (S_ "io") (S_ "acc") [] TcpServer.serving = Ok
  (S_ "[type=tcp name=1.0.0 io_worker=io accept=acc recv_timeout=120000]" ++ endl ++
   S_ "        [Socket sock=3 is_connected=0 family=2 type=1 protocol=0 local_address=127.0.0.1:0]" ++ endl).
Proof. vm_compute. reflexivity. Qed.

End Show.
