(* ===== verification/Daemon.v ===== *)
(** * Starting as a daemon (util/daemon.h, util/daemon.cc)

    [Module Daemon]: [StartDaemon] as the parent and each child see it. What [fork] and
    [waitpid] answer, the clock and the callback are arguments; a turn of the parent's
    loop is one child.

    Theorem [daemon_exact]: the parent starts a child again after each crash, and after
    nothing else, and counts them. *)

From Stdlib Require Import Ascii String.
From stdpp Require Import pretty.
From S2P Require Import Prelude StringUtil.
Import StringUtil.

Module Daemon.

Local Open Scope Z_scope.

Record ProcessInfo := mkProcessInfo {
  parent_id_ : Z;
  main_id_ : Z;
  parent_start_time_ : Z;
  main_start_time : Z;
  restart_count_ : Z
}.

Definition ProcessInfo_new : ProcessInfo := mkProcessInfo 0 0 0 0 0.

Definition number (z : Z) : str := S_ (pretty z).

Definition ToString (Time2Str : Z → str) (p : ProcessInfo) : str :=
  S_ "[ProcessInfo parent_id_=" ++ number (parent_id_ p) ++ S_ " main_id_=" ++ number (main_id_ p) ++
  S_ " parent_start_time_=" ++ Time2Str (parent_start_time_ p) ++
  S_ " main_start_time=" ++ Time2Str (main_start_time p) ++
  S_ " restart_count_=" ++ number (restart_count_ p) ++ S_ "]".

(** What [fork] returns in a process, the process's id and the time when it is the child,
    and what [waitpid] stores: nothing when it fails. *)
Inductive forked :=
  | InChild (pid now : Z)
  | Failed (pid : Z)
  | InParent (pid : Z) (status : option Z).

(** How a process leaves the function: with a result, and how long it slept each time. *)
Record outcome := mkOutcome { result : Z; sleeps : list Z; info : ProcessInfo }.

Section daemon.
Context (main_cb : list str → Z) (argv : list str) (interval : Z).

Definition RealStart : Z := main_cb argv.

(** The loop; [None] when there is no more answer, so a call that is waited for. *)
Fixpoint daemon_loop (script : list forked) (p : ProcessInfo) (slept : list Z) : option outcome :=
  match script with
  | [] => None
  | InChild pid now :: _ =>
      Some (mkOutcome RealStart slept
        (mkProcessInfo (parent_id_ p) pid (parent_start_time_ p) u64(now) (restart_count_ p)))
  | Failed _ :: _ => Some (mkOutcome (-1) slept p)
  | InParent _ status :: script =>
      if decide (default 0 status ≠ 0) then
        daemon_loop script
          (mkProcessInfo (parent_id_ p) (main_id_ p) (parent_start_time_ p) (main_start_time p)
             u32(restart_count_ p + 1)) (slept ++ [interval])
      else Some (mkOutcome 0 slept p)
  end.

(** [daemon(1, 0)] makes the process another one, with id [pid]. *)
Definition RealDaemon (pid now : Z) (script : list forked) (p : ProcessInfo) : option outcome :=
  daemon_loop script (mkProcessInfo pid (main_id_ p) u64(now) (main_start_time p) (restart_count_ p)) [].

Definition StartDaemon (is_daemon : bool) (pid now : Z) (script : list forked) (p : ProcessInfo) : option outcome :=
  if negb is_daemon then Some (mkOutcome RealStart [] p) else RealDaemon pid now script p.

(** A child that crashed. *)
Definition crash (f : forked) : bool :=
  match f with InParent _ (Some status) => negb (bool_decide (status = 0)) | _ => false end.

Definition restarted (n : nat) (p : ProcessInfo) : ProcessInfo :=
  mkProcessInfo (parent_id_ p) (main_id_ p) (parent_start_time_ p) (main_start_time p)
    u32(restart_count_ p + Z.of_nat n).

(** What the process does at the first answer that is not a crash. *)
Definition final (f : forked) (slept : list Z) (p : ProcessInfo) : outcome :=
  match f with
  | InChild pid now => mkOutcome RealStart slept
      (mkProcessInfo (parent_id_ p) pid (parent_start_time_ p) u64(now) (restart_count_ p))
  | Failed _ => mkOutcome (-1) slept p
  | InParent _ _ => mkOutcome 0 slept p
  end.

Lemma daemon_loop_spec f script crashes : ∀ p slept, Forall (λ x, crash x = true) crashes → crash f = false →
  0 ≤ restart_count_ p < 2 ^ 32 →
  daemon_loop (crashes ++ f :: script) p slept =
    Some (final f (slept ++ replicate (length crashes) interval) (restarted (length crashes) p)).
Proof.
  induction crashes as [|c crashes IH]; intros p slept Hc Hf Hp.
  - cbn [app length replicate]. rewrite app_nil_r. unfold restarted. rewrite Z.add_0_r, (wrap_small 32) by done.
    destruct p as [a b c d e]. simpl. destruct f as [pid now|pid|pid [s|]]; simpl in *; try done.
    rewrite negb_false_iff, bool_decide_eq_true in Hf. by rewrite decide_False by auto.
  - apply Forall_cons in Hc as [Hc1 Hc]. destruct c as [pid now|pid|pid [s|]]; try done.
    cbn [crash] in Hc1. rewrite negb_true_iff, bool_decide_eq_false in Hc1.
    cbn [app daemon_loop length replicate default]. rewrite decide_True by done.
    rewrite IH; [|done..|simpl; apply wrap_range; lia]. do 2 f_equal; [by rewrite <- (assoc_L (++))|].
    unfold restarted. simpl. f_equal. unfold wrap. rewrite Z.add_mod_idemp_l by lia. f_equal. lia.
Qed.

(** A daemon starts its program again exactly after the crashes. When the first
    children crash and the next answer of [fork] or of the wait is another, the parent has
    slept the configured interval once for each crash and counted them, and then: it
    returns 0 when that child ended well, or its end could not be waited for; it returns
    -1 when there is no further process; and the new process returns what the program
    returns, with its own id and start recorded. *)
Theorem daemon_exact pid now crashes f script p :
  Forall (λ x, crash x = true) crashes → crash f = false → 0 ≤ restart_count_ p < 2 ^ 32 →
  StartDaemon true pid now (crashes ++ f :: script) p =
    Some (final f (replicate (length crashes) interval)
      (restarted (length crashes) (mkProcessInfo pid (main_id_ p) u64(now) (main_start_time p) (restart_count_ p)))).
Proof. intros Hc Hf Hp. unfold StartDaemon, RealDaemon. simpl. by apply daemon_loop_spec. Qed.

End daemon.

Lemma daemon_exact_witness :
  StartDaemon (λ _, 3) [] 5 true 100 1000 [InParent 101 (Some 11); InParent 102 (Some 256); InChild 103 1010]
    ProcessInfo_new = Some (mkOutcome 3 [5; 5] (mkProcessInfo 100 103 1000 1010 2)).
Proof.
  rewrite (daemon_exact (λ _, 3) [] 5 100 1000 [InParent 101 (Some 11); InParent 102 (Some 256)] (InChild 103 1010) []).
  - vm_compute. reflexivity.
  - repeat constructor.
  - reflexivity.
  - simpl. lia.
Defined.

(** A wait that fails, interrupted by a signal, is taken for a child that ended well: the
    daemon ends while its child runs. *)
Example interrupted_wait :
  StartDaemon (λ _, 3) [] 5 true 100 1000 [InParent 101 None] ProcessInfo_new =
  Some (mkOutcome 0 [] (mkProcessInfo 100 0 1000 0 0)).
Proof. vm_compute. done. Qed.

End Daemon.
