(* ===== verification/Convert.v ===== *)
(** * Conversions of configuration values (config/config.h, [LexicalCast])

    [Module Convert]: the class template [LexicalCast] is a type class and its partial
    specialisations for the containers are instances, which are resolved by the type as
    the compiler resolves them: sequences, ordered and unordered sets, ordered and
    unordered maps, of any type that has conversions, nested to any depth. The YAML
    library is an interface: what the program calls ([Class YamlText]) and what its
    documentation says of it ([Class YamlLaws]). [boost::lexical_cast], the general
    case, is an instance that a program supplies for its own types.

    An ordered set is the strictly sorted list of its elements, an ordered map the list of
    its pairs in the order of the keys; the unordered ones are sets and maps that are
    traversed in some order.

    Theorems: every container of every nesting comes back from its text
    ([containers_roundtrip]) if its elements do; a string inside a container is read as a
    document and comes back as that document is printed ([strings_are_documents]). *)

From Stdlib Require Import Ascii String Sorting.Sorted.
From stdpp Require Import pretty.
From S2P Require Import Prelude StringUtil Config.
Import StringUtil.

(** The first pair with the key is replaced, or the pair is added at the end. *)
Fixpoint assign_key {A} (k : list ascii) (v : A) (l : list (list ascii * A)) : list (list ascii * A) :=
  match l with
  | [] => [(k, v)]
  | (k', v') :: l => if decide (k = k') then (k, v) :: l else (k', v') :: assign_key k v l
  end.

Fixpoint find_key {A} (k : list ascii) (l : list (list ascii * A)) : option A :=
  match l with
  | [] => None
  | (k', v) :: l => if decide (k = k') then Some v else find_key k l
  end.

(** What the program calls of the YAML library, [None] being an exception. [sequence],
    [mapping], [scalar] and [null] are the nodes it makes. *)
Class YamlText (node : Type) `{!Yaml node} := {
  Load : str → option node;
  null : node;
  scalar : str → node;
  sequence : list node → node;
  mapping : list (str * node) → node;
  (** [node.push_back(x)] and [node[key] = x]. *)
  push_back : node → node → node;
  set_field : node → str → node → node;
  (** [node.size()] and [node[i]]. *)
  length_of : node → nat;
  at_index : node → nat → node;
  (** [node[key]], which may be undefined, and [node.as<std::string>()]. *)
  field : node → str → option (option node);
  as_string : node → option str }.

(** What it says of them. *)
Class YamlLaws (node : Type) `{!Yaml node} `{!YamlText node} : Prop := {
  Load_dump (n : node) : Load (dump n) = Some n;
  push_back_sequence (l : list node) x : push_back (sequence l) x = sequence (l ++ [x]);
  push_back_null (x : node) : push_back null x = sequence [x];
  set_field_mapping (l : list (str * node)) k x : set_field (mapping l) k x = mapping (assign_key k x l);
  set_field_null k (x : node) : set_field null k x = mapping [(k, x)];
  length_sequence (l : list node) : length_of (sequence l) = length l;
  at_sequence (l : list node) i x : l !! i = Some x → at_index (sequence l) i = x;
  length_null : length_of (null : node) = 0%nat;
  entries_mapping (l : list (str * node)) : ∃ ks, Scalar <$> ks = l.*1 ∧ entries (mapping l) = zip ks l.*2;
  entries_null : entries (null : node) = [];
  field_mapping (l : list (str * node)) k : field (mapping l) k = Some (find_key k l);
  field_null k : field (null : node) k = Some None;
  as_string_scalar s : as_string (scalar s : node) = Some s }.

(** The template: a conversion may throw. *)
Class LexicalCast (F T : Type) := cast : F → option T.
#[global] Hint Mode LexicalCast + + : typeclass_instances.

(** [operator<] of a type, and what [std::set] asks of it. *)
Class Less (A : Type) := less : A → A → bool.
Class LessLaws (A : Type) `{!Less A} : Prop := {
  less_asym x y : less x y = true → less y x = false;
  less_trans x y z : less x y = true → less y z = true → less x z = true }.

Module Convert.

(** ** Containers *)

Definition vector (A : Type) : Type := list A.
Definition slist (A : Type) : Type := list A.
Definition sset (A : Type) : Type := list A.
Definition smap (A : Type) : Type := list (str * A).
Definition unordered_set (A : Type) `{Countable A} : Type := gset A.
Definition unordered_map (A : Type) : Type := gmap str A.
#[global] Typeclasses Opaque vector slist sset smap unordered_set unordered_map.

(** [insert] of [std::set]: an element that is neither less nor greater stays. *)
Fixpoint sset_insert {A} `{!Less A} (x : A) (l : list A) : list A :=
  match l with
  | [] => [x]
  | y :: l' => if less x y then x :: l else if less y x then y :: sset_insert x l' else l
  end.

(** The order of [std::string], and of the keys of a map. *)
Fixpoint str_less (x y : str) : bool :=
  match x, y with
  | _, [] => false
  | [], _ :: _ => true
  | a :: x, b :: y =>
      if (uchar a <? uchar b)%Z then true else if (uchar b <? uchar a)%Z then false else str_less x y
  end.

#[global] Instance str_Less : Less str := str_less.
#[global] Instance key_Less {A} : Less (str * A) := λ x y, str_less x.1 y.1.

(** [insert] of [std::unordered_map]: a key that is there keeps its value. *)
Definition umap_insert {A} (m : gmap str A) (kv : str * A) : gmap str A :=
  match m !! kv.1 with Some _ => m | None => <[kv.1 := kv.2]> m end.

(** ** Ordered containers *)

Lemma str_less_asym x : ∀ y, str_less x y = true → str_less y x = false.
Proof.
  induction x as [|a x IH]; intros [|b y]; simpl; try done.
  destruct (Z.ltb_spec (uchar a) (uchar b)), (Z.ltb_spec (uchar b) (uchar a)); try done; [lia|apply IH].
Qed.

Lemma str_less_trans x : ∀ y z, str_less x y = true → str_less y z = true → str_less x z = true.
Proof.
  induction x as [|a x IH]; intros [|b y] [|c z]; simpl; try done.
  destruct (Z.ltb_spec (uchar a) (uchar b)), (Z.ltb_spec (uchar b) (uchar a)), (Z.ltb_spec (uchar b) (uchar c)),
    (Z.ltb_spec (uchar c) (uchar b)), (Z.ltb_spec (uchar a) (uchar c)), (Z.ltb_spec (uchar c) (uchar a));
    try done; try lia. apply IH.
Qed.

#[global] Instance str_LessLaws : LessLaws str.
Proof. split; [intros x; apply str_less_asym|intros x; apply str_less_trans]. Qed.

#[global] Instance key_LessLaws {A} : LessLaws (str * A).
Proof. split; [intros x y; apply str_less_asym|intros x y z; apply str_less_trans]. Qed.

Lemma str_less_total x : ∀ y, str_less x y = false → str_less y x = false → x = y.
Proof.
  induction x as [|a x IH]; intros [|b y]; simpl; try done.
  destruct (Z.ltb_spec (uchar a) (uchar b)), (Z.ltb_spec (uchar b) (uchar a)); try done.
  intros H1 H2. f_equal; [|by apply IH]. rewrite <- (ascii_N_embedding a), <- (ascii_N_embedding b). f_equal.
  unfold uchar in *. lia.
Qed.

(** The elements of an ordered set. *)
Definition ordered {A} `{!Less A} (l : list A) : Prop := StronglySorted (λ x y, less x y = true) l.

Section ordered.
Context {A : Type} `{!Less A} `{!LessLaws A}.

Lemma sset_insert_last x l : Forall (λ y, less y x = true) l → sset_insert x l = l ++ [x].
Proof using All.
  induction 1 as [|y l Hy _ IH]; [done|]. simpl. by rewrite (less_asym _ _ Hy), Hy, IH.
Qed.

(** Inserting the elements of an ordered set in order gives that set. *)
Lemma insert_ordered l : ordered l → foldl (λ vec x, sset_insert x vec) [] l = l.
Proof using All.
  intros Hl. assert (∀ pre, ordered (pre ++ l) → foldl (λ vec x, sset_insert x vec) pre l = pre ++ l) as H; [|by apply H].
  clear Hl. induction l as [|x l IH]; intros pre Hs; [by rewrite app_nil_r|]. simpl.
  assert (ordered (pre ++ [x]) ∧ Forall (λ y, less y x = true) pre) as [Ho Hx].
  { clear IH. induction pre as [|y pre IH]; [split; [repeat constructor|constructor]|].
    apply StronglySorted_inv in Hs as [Hs Hy]. destruct (IH Hs) as [H1 H2]. rewrite Forall_app, Forall_cons in Hy.
    split; [|constructor; tauto]. constructor; [done|]. rewrite Forall_app. split; [tauto|]. constructor; [tauto|done]. }
  rewrite sset_insert_last by done. rewrite IH; [by rewrite <- (assoc_L (++))|]. by rewrite <- (assoc_L (++)).
Qed.

(** An insertion keeps the order. *)
Lemma sset_insert_ordered x l : ordered l → ordered (sset_insert x l).
Proof using All.
  assert (∀ y l, Forall (λ z, less y z = true) l → less y x = true → Forall (λ z, less y z = true) (sset_insert x l))
    as Hins.
  { intros y l' H Hyx. induction H as [|z l' Hz H IH]; [by repeat constructor|]. simpl.
    destruct (less x z); [by repeat constructor|]. destruct (less z x); by repeat constructor. }
  induction l as [|y l IH]; intros Hs; [repeat constructor|]. pose proof Hs as [Hl Hy]%StronglySorted_inv. simpl.
  destruct (less x y) eqn:Hxy.
  - constructor; [done|]. constructor; [done|]. apply (Forall_impl _ _ _ Hy). intros z. by apply less_trans.
  - destruct (less y x) eqn:Hyx; [|done]. constructor; [by apply IH|]. by apply Hins.
Qed.
End ordered.

Lemma sset_insert_new {A} (x : str * A) l : x.1 ∉ l.*1 → sset_insert x l ≡ₚ x :: l.
Proof.
  induction l as [|y l IH]; [done|]. simpl. rewrite not_elem_of_cons. intros [Hy Hl].
  destruct (less x y) eqn:H1; [done|]. destruct (less y x) eqn:H2; [by rewrite IH, perm_swap|].
  destruct Hy. by apply str_less_total.
Qed.

(** The keys of an ordered map are different. *)
Lemma ordered_keys {A} (l : list (str * A)) : ordered l → NoDup l.*1.
Proof.
  induction 1 as [|[k x] l _ IH Hk]; [constructor|]. simpl. constructor; [|done]. rewrite Forall_forall in Hk.
  intros ([k' y] & Heq & Hin)%list_elem_of_fmap. simpl in Heq. subst k'. pose proof (Hk _ Hin) as H.
  unfold less, key_Less in H. simpl in H. by rewrite (str_less_asym _ _ H) in H.
Qed.

Lemma foldl_snoc {A} (l : list A) : ∀ acc, foldl (λ vec x, vec ++ [x]) acc l = acc ++ l.
Proof.
  induction l as [|x l IH]; intros acc; simpl; [by rewrite app_nil_r|]. by rewrite IH, <- (assoc_L (++)).
Qed.

Lemma foldl_union {A} `{Countable A} (l : list A) : ∀ acc,
  foldl (λ (vec : gset A) x, {[x]} ∪ vec) acc l = list_to_set l ∪ acc.
Proof. induction l as [|x l IH]; intros acc; simpl; [set_solver|]. rewrite IH. set_solver. Qed.

Lemma foldl_umap_insert {A} (l : list (str * A)) : NoDup l.*1 → ∀ acc, (∀ k, k ∈ l.*1 → acc !! k = None) →
  foldl umap_insert acc l = list_to_map l ∪ acc.
Proof.
  induction l as [|[k x] l IH]; intros Hnd acc Hacc; simpl; [by rewrite (left_id_L ∅ (∪))|].
  apply NoDup_cons in Hnd as [Hk Hnd]. unfold umap_insert at 2. simpl. rewrite Hacc by (by left). rewrite IH; [|done|].
  - apply map_eq. intros j. rewrite !lookup_union. destruct (decide (j = k)) as [->|Hj].
    + rewrite !lookup_insert_eq, (not_elem_of_list_to_map_1 _ _ Hk), Hacc by (by left). done.
    + by rewrite !lookup_insert_ne.
  - intros j Hj. rewrite lookup_insert_ne by set_solver. apply Hacc. by right.
Qed.

Section casts.
Context {node : Type} `{!Yaml node} `{!YamlText node}.

(** The loop [for (size_t i = 0; i < node.size(); ++i)]: [n] elements are left. *)
Fixpoint read_items {A B} `{!LexicalCast str A} (add : B → A → B) (nd : node) (n i : nat) (acc : B) : option B :=
  match n with
  | O => Some acc
  | S n => x ← cast (dump (at_index nd i)); read_items add nd n (S i) (add acc x)
  end.

(** The loop that pushes the elements back. *)
Fixpoint write_items {A} `{!LexicalCast A str} (nd : node) (l : list A) : option node :=
  match l with
  | [] => Some nd
  | i :: l => s ← cast i; x ← Load s; write_items (push_back nd x) l
  end.

(** The loops over the entries of a map. *)
Fixpoint read_entries {A B} `{!LexicalCast str A} (add : B → str * A → B) (es : list (node * node)) (acc : B)
    : option B :=
  match es with
  | [] => Some acc
  | (k, v) :: es => x ← cast (dump v); read_entries add es (add acc (Scalar k, x))
  end.

Fixpoint write_entries {A} `{!LexicalCast A str} (nd : node) (l : list (str * A)) : option node :=
  match l with
  | [] => Some nd
  | (k, i) :: l => s ← cast i; x ← Load s; write_entries (set_field nd k x) l
  end.

#[global] Instance vector_of_str {A} `{!LexicalCast str A} : LexicalCast str (vector A) := λ v,
  n ← Load v; read_items (λ (vec : list A) x, vec ++ [x]) n (length_of n) 0 [].
#[global] Instance str_of_vector {A} `{!LexicalCast A str} : LexicalCast (vector A) str := λ v,
  dump <$> write_items (sequence []) v.

#[global] Instance list_of_str {A} `{!LexicalCast str A} : LexicalCast str (slist A) := λ v,
  n ← Load v; read_items (λ (vec : list A) x, vec ++ [x]) n (length_of n) 0 [].
#[global] Instance str_of_list {A} `{!LexicalCast A str} : LexicalCast (slist A) str := λ v,
  dump <$> write_items (sequence []) v.

#[global] Instance set_of_str {A} `{!Less A} `{!LexicalCast str A} : LexicalCast str (sset A) := λ v,
  n ← Load v; read_items (λ (vec : list A) x, sset_insert x vec) n (length_of n) 0 [].
#[global] Instance str_of_set {A} `{!LexicalCast A str} : LexicalCast (sset A) str := λ v,
  dump <$> write_items (sequence []) v.

#[global] Instance uset_of_str {A} `{Countable A} `{!LexicalCast str A} : LexicalCast str (unordered_set A) := λ v,
  n ← Load v; read_items (λ (vec : gset A) x, {[x]} ∪ vec) n (length_of n) 0 ∅.
#[global] Instance str_of_uset {A} `{Countable A} `{!LexicalCast A str} : LexicalCast (unordered_set A) str := λ v,
  dump <$> write_items (sequence []) (elements (v : gset A)).

#[global] Instance map_of_str {A} `{!LexicalCast str A} : LexicalCast str (smap A) := λ v,
  n ← Load v; read_entries (λ (vec : list (str * A)) x, sset_insert x vec) (entries n) [].
#[global] Instance str_of_map {A} `{!LexicalCast A str} : LexicalCast (smap A) str := λ v,
  dump <$> write_entries (mapping []) v.

#[global] Instance umap_of_str {A} `{!LexicalCast str A} : LexicalCast str (unordered_map A) := λ v,
  n ← Load v; read_entries (umap_insert (A:=A)) (entries n) ∅.
#[global] Instance str_of_umap {A} `{!LexicalCast A str} : LexicalCast (unordered_map A) str := λ v,
  dump <$> write_entries (mapping []) (map_to_list (v : gmap str A)).

(** ** Round trips *)

(** The text of a value is a document that is read back as the value; the element of a
    container is such a document as the library prints it. *)
Definition returns {T} `{!LexicalCast str T} `{!LexicalCast T str} (x : T) : Prop :=
  ∃ s n, cast x = Some s ∧ Load s = Some n ∧ cast (dump n) = Some x.

(** The values of a type that come back. *)
Class RoundTrip (T : Type) `{!LexicalCast str T} `{!LexicalCast T str} := {
  stable : T → Prop;
  stable_returns x : stable x → returns x }.

(** The text of a container is the text of a node, and it comes back. *)
Definition container_returns {T} `{!LexicalCast str T} `{!LexicalCast T str} (x : T) : Prop :=
  ∃ n, cast x = Some (dump n) ∧ cast (dump n) = Some x.

Context `{!YamlLaws node}.

Lemma container_returns_returns {T} `{!LexicalCast str T} `{!LexicalCast T str} (x : T) :
  container_returns x → returns x.
Proof using All. intros (n & H1 & H2). exists (dump n), n. by rewrite Load_dump. Qed.

Section elements.
Context {A : Type} `{!LexicalCast str A} `{!LexicalCast A str}.

(** The node of an element. *)
Definition node_of (x : A) (n : node) : Prop := ∃ s, cast x = Some s ∧ Load s = Some n ∧ cast (dump n) = Some x.

Lemma nodes_exist l : Forall returns l → ∃ ns, Forall2 node_of l ns.
Proof.
  induction 1 as [|x l (s & n & H) _ [ns IH]]; [by exists []|]. exists (n :: ns). constructor; [|done]. by exists s.
Qed.

Lemma write_items_ok l ns : Forall2 node_of l ns → ∀ pre,
  write_items (sequence pre) l = Some (sequence (pre ++ ns)).
Proof using All.
  induction 1 as [|x n l ns (s & Hx & Hs & _) _ IH]; intros pre; cbn [write_items]; [by rewrite app_nil_r|].
  rewrite Hx. simpl. rewrite Hs. simpl. by rewrite push_back_sequence, IH, <- (assoc_L (++)).
Qed.

Lemma read_items_ok {B} (add : B → A → B) l ns : Forall2 (λ x n, cast (dump n) = Some x) l ns → ∀ pre acc,
  read_items add (sequence (pre ++ ns)) (length ns) (length pre) acc = Some (foldl add acc l).
Proof using YamlLaws0.
  induction 1 as [|x n l ns Hn _ IH]; intros pre acc; [done|]. simpl.
  rewrite (at_sequence _ _ n) by (rewrite lookup_app_r, Nat.sub_diag by lia; done). rewrite Hn. simpl.
  specialize (IH (pre ++ [n]) (add acc x)). rewrite <- (assoc_L (++)), length_app, Nat.add_1_r in IH. exact IH.
Qed.

Lemma read_sequence {B} (add : B → A → B) (e : B) l ns : Forall2 (λ x n, cast (dump n) = Some x) l ns →
  (n ← Load (dump (sequence ns)); read_items add n (length_of n) 0 e) = Some (foldl add e l).
Proof using YamlLaws0.
  intros H. rewrite Load_dump. simpl. rewrite length_sequence. exact (read_items_ok add l ns H [] e).
Qed.

(** A container that is written as the sequence of [l]. *)
Lemma items_roundtrip {B} (add : B → A → B) (e : B) l : Forall returns l →
  ∃ n, dump <$> write_items (sequence []) l = Some (dump n) ∧
    (n ← Load (dump n); read_items add n (length_of n) 0 e) = Some (foldl add e l).
Proof using All.
  intros [ns Hns]%nodes_exist. exists (sequence ns). rewrite (write_items_ok _ _ Hns []). split; [done|].
  apply read_sequence. apply (Forall2_impl _ _ _ _ Hns). by intros x n (t & _ & _ & H).
Qed.

Lemma write_entries_ok (l : list (str * A)) ns : Forall2 (λ kx n, node_of kx.2 n) l ns → ∀ pre,
  NoDup (pre.*1 ++ l.*1) → write_entries (mapping pre) l = Some (mapping (pre ++ zip l.*1 ns)).
Proof using All.
  induction 1 as [|[k x] n l ns (s & Hx & Hs & _) _ IH]; intros pre Hnd; cbn [write_entries]; [by rewrite app_nil_r|].
  simpl in Hx. rewrite Hx. simpl. rewrite Hs. simpl. rewrite set_field_mapping.
  assert (k ∉ pre.*1) as Hk.
  { apply NoDup_app in Hnd as (_ & Hd & _). intros Hin. apply (Hd _ Hin). by left. }
  assert (assign_key k n pre = pre ++ [(k, n)]) as ->.
  { clear -Hk. induction pre as [|[k' v] pre IH]; [done|]. simpl in *. rewrite decide_False by set_solver.
    f_equal. apply IH. set_solver. }
  rewrite IH; [by rewrite <- (assoc_L (++))|]. rewrite fmap_app, <- (assoc_L (++)). exact Hnd.
Qed.

Lemma read_entries_ok {B} (add : B → str * A → B) l ns ks : Forall2 (λ kx n, node_of kx.2 n) l ns →
  Scalar <$> ks = l.*1 → ∀ acc, read_entries add (zip ks ns) acc = Some (foldl add acc l).
Proof using All.
  intros H. revert ks. induction H as [|[k x] n l ns (s & _ & _ & Hn) _ IH]; intros [|k' ks] Hks acc; try done.
  injection Hks as Hk Hks. simpl in *. rewrite Hn. simpl. rewrite Hk. by apply IH.
Qed.

Lemma entries_roundtrip {B} (add : B → str * A → B) (e : B) (l : list (str * A)) :
  Forall (λ kx, returns kx.2) l → NoDup l.*1 →
  ∃ n, dump <$> write_entries (mapping []) l = Some (dump n) ∧
    (n ← Load (dump n); read_entries add (entries n) e) = Some (foldl add e l).
Proof using All.
  intros Hl Hnd. assert (∃ ns, Forall2 (λ kx n, node_of kx.2 n) l ns) as [ns Hns].
  { clear Hnd. induction Hl as [|x l (s & n & H) _ [ns IH]]; [by exists []|].
    exists (n :: ns). constructor; [|done]. by exists s. }
  exists (mapping (zip l.*1 ns)). rewrite (write_entries_ok _ _ Hns []) by done. split; [done|].
  rewrite Load_dump. simpl. pose proof (Forall2_length _ _ _ Hns) as Hlen.
  destruct (entries_mapping (zip l.*1 ns)) as (ks & Hks & ->).
  rewrite fst_zip in Hks by (rewrite length_fmap; lia). rewrite snd_zip by (rewrite length_fmap; lia).
  by apply read_entries_ok.
Qed.
End elements.

(** ** The containers *)

Section containers.
Context {A : Type} `{HR : RoundTrip A}.

Lemma stable_all (l : list A) : Forall stable l → Forall returns l.
Proof. intros H. apply (Forall_impl _ _ _ H). apply stable_returns. Qed.

Lemma stable_values (l : list (str * A)) : Forall (λ kx, stable kx.2) l → Forall (λ kx, returns kx.2) l.
Proof. intros H. apply (Forall_impl _ _ _ H). intros kx. apply stable_returns. Qed.

Lemma vector_returns (v : vector A) : Forall stable v → container_returns v.
Proof using All.
  intros H%stable_all. destruct (items_roundtrip (λ (vec : list A) x, vec ++ [x]) [] v H) as (n & H1 & H2).
  exists n. by rewrite foldl_snoc in H2.
Qed.

Lemma list_returns (v : slist A) : Forall stable v → container_returns v.
Proof using All. apply vector_returns. Qed.

Lemma set_returns `{!Less A, !LessLaws A} (v : sset A) : Forall stable v → ordered v → container_returns v.
Proof using All.
  intros H%stable_all Ho. destruct (items_roundtrip (λ (vec : list A) x, sset_insert x vec) [] v H) as (n & H1 & H2).
  exists n. by rewrite insert_ordered in H2.
Qed.

Lemma uset_returns `{Countable A} (v : unordered_set A) :
  (∀ x, x ∈ (v : gset A) → stable x) → container_returns v.
Proof using All.
  intros Hv. destruct (items_roundtrip (λ (vec : gset A) x, {[x]} ∪ vec) ∅ (elements (v : gset A))) as (n & H1 & H2).
  { apply stable_all, Forall_forall. intros x Hx. apply Hv. by apply elem_of_elements. }
  exists n. rewrite foldl_union, (right_id_L ∅ (∪)), list_to_set_elements_L in H2. done.
Qed.

Lemma map_returns (v : smap A) : Forall (λ kx, stable kx.2) v → ordered (v : list (str * A)) → container_returns v.
Proof using All.
  intros H%stable_values Ho.
  destruct (entries_roundtrip (λ (vec : list (str * A)) x, sset_insert x vec) [] v H (ordered_keys _ Ho)) as (n & H1 & H2).
  exists n. by rewrite insert_ordered in H2.
Qed.

Lemma umap_returns (v : unordered_map A) : map_Forall (λ _ x, stable x) (v : gmap str A) → container_returns v.
Proof using All.
  intros H. pose proof (NoDup_fst_map_to_list (v : gmap str A)) as Hnd.
  destruct (entries_roundtrip (umap_insert (A:=A)) ∅ (map_to_list (v : gmap str A))) as (n & H1 & H2); [|done|].
  { apply stable_values, Forall_forall. intros [k x] Hx%elem_of_map_to_list. by apply (H k). }
  exists n. rewrite foldl_umap_insert, (right_id_L ∅ (∪)), list_to_map_to_list in H2 by done. done.
Qed.
End containers.

(** So containers are values that come back, and nest. *)
#[global, refine] Instance vector_RoundTrip {A} `{HR : RoundTrip A} : RoundTrip (vector A) := {
  stable v := Forall stable v }.
Proof using All. intros x H. by apply container_returns_returns, vector_returns. Defined.

#[global, refine] Instance list_RoundTrip {A} `{HR : RoundTrip A} : RoundTrip (slist A) := {
  stable v := Forall stable v }.
Proof using All. intros x H. by apply container_returns_returns, list_returns. Defined.

#[global, refine] Instance set_RoundTrip {A} `{HR : RoundTrip A} `{!Less A, !LessLaws A} : RoundTrip (sset A) := {
  stable v := Forall stable v ∧ ordered v }.
Proof using All. intros x [H Ho]. by apply container_returns_returns, set_returns. Defined.

#[global, refine] Instance uset_RoundTrip {A} `{HR : RoundTrip A} `{Countable A} : RoundTrip (unordered_set A) := {
  stable v := ∀ x, x ∈ (v : gset A) → stable x }.
Proof using All. intros x H1. by apply container_returns_returns, uset_returns. Defined.

#[global, refine] Instance map_RoundTrip {A} `{HR : RoundTrip A} : RoundTrip (smap A) := {
  stable v := Forall (λ kx, stable kx.2) v ∧ ordered (v : list (str * A)) }.
Proof using All. intros x [H Ho]. by apply container_returns_returns, map_returns. Defined.

#[global, refine] Instance umap_RoundTrip {A} `{HR : RoundTrip A} : RoundTrip (unordered_map A) := {
  stable v := map_Forall (λ _ x, stable x) (v : gmap str A) }.
Proof using All. intros x H. by apply container_returns_returns, umap_returns. Defined.

(** C14. Every container comes back from its text, if its elements come back: sequences in
    their order, sets and maps with exactly their elements, whatever the order in which
    an unordered one is traversed. Its text is that of a node, so it may itself be an
    element of a container. *)
Theorem containers_roundtrip {A} `{HR : RoundTrip A} :
  (∀ v : vector A, Forall stable v → container_returns v) ∧
  (∀ v : slist A, Forall stable v → container_returns v) ∧
  (∀ (LA : Less A) (_ : LessLaws A) (v : sset A), Forall stable v → ordered v → container_returns v) ∧
  (∀ (E : EqDecision A) (C : Countable A) (v : unordered_set A),
    (∀ x, x ∈ (v : gset A) → stable x) → container_returns v) ∧
  (∀ v : smap A, Forall (λ kx, stable kx.2) v → ordered (v : list (str * A)) → container_returns v) ∧
  (∀ v : unordered_map A, map_Forall (λ _ x, stable x) (v : gmap str A) → container_returns v).
Proof using All.
  split_and!; [apply vector_returns|apply list_returns|intros ? ?; apply set_returns|intros ? ?; apply uset_returns|
    apply map_returns|apply umap_returns].
Qed.

(** ** Strings *)

(** [boost::lexical_cast] from a string to a string. *)
#[global] Instance str_of_str : LexicalCast str str := Some.

#[global, refine] Instance str_RoundTrip : RoundTrip str := {
  stable s := ∃ n, Load s = Some n ∧ dump n = s }.
Proof using All. intros s (n & H1 & H2). exists s, n. by rewrite H2. Defined.

(** A string that is an element of a container is not written as a scalar but read as
    a document: if each is one, the container comes back with these documents as the
    library prints them, and if one is not, the container cannot be written. *)
Theorem strings_are_documents (v : vector str) :
  match mapM Load (v : list str) with
  | Some ns => ∃ n, cast v = Some (dump n) ∧ cast (dump n) = Some ((dump <$> ns : list str) : vector str)
  | None => cast v = (None : option str)
  end.
Proof using All.
  assert (∀ pre, write_items (sequence pre) v = (λ ns, sequence (pre ++ ns)) <$> mapM Load (v : list str)) as Hw.
  { induction v as [|s v IH]; intros pre; simpl; [by rewrite app_nil_r|].
    destruct (Load s) as [n|]; [|done]. simpl. rewrite push_back_sequence, IH.
    destruct (mapM Load (v : list str)) as [ns|]; [|done]. simpl. by rewrite <- (assoc_L (++)). }
  unfold cast, str_of_vector. specialize (Hw []). destruct (mapM Load (v : list str)) as [ns|]; [|by rewrite Hw].
  exists (sequence ns). rewrite Hw. split; [done|]. unfold vector_of_str. rewrite Load_dump. simpl.
  rewrite length_sequence.
  assert (∀ l pre acc, read_items (λ (vec : list str) x, vec ++ [x]) (sequence (pre ++ l)) (length l) (length pre) acc =
    Some (acc ++ (dump <$> l))) as Hr; [|exact (Hr ns [] [])]. clear -YamlLaws0.
  induction l as [|n l IH]; intros pre acc; simpl; [by rewrite app_nil_r|].
  rewrite (at_sequence _ _ n) by (rewrite lookup_app_r, Nat.sub_diag by lia; done).
  specialize (IH (pre ++ [n]) (acc ++ [dump n])). rewrite <- !(assoc_L (++)), length_app, Nat.add_1_r in IH. exact IH.
Qed.

End casts.

(** ** A concrete instance *)

(** Trees of scalars, sequences (label 1), maps (label 2) and the null node (label 0). A
    scalar that does not start with an exclamation mark is its own text; every other node
    is an exclamation mark and a code. *)
Definition doc : Type := gen_tree str.

Fixpoint pairs (l : list doc) : list (doc * doc) :=
  match l with k :: v :: l => (k, v) :: pairs l | _ => [] end.
Fixpoint flat (l : list (str * doc)) : list doc :=
  match l with [] => [] | (k, v) :: l => GenLeaf k :: v :: flat l end.

Definition children (n : doc) : list doc := match n with GenLeaf _ => [] | GenNode _ l => l end.
Definition doc_scalar (n : doc) : str := match n with GenLeaf s => s | GenNode _ _ => [] end.
Definition doc_entries (n : doc) : list (doc * doc) := match n with GenNode 2 l => pairs l | _ => [] end.

Fixpoint bits (p : positive) : str :=
  match p with xH => [] | (p~0)%positive => "0"%char :: bits p | (p~1)%positive => "1"%char :: bits p end.
Fixpoint of_bits (s : str) : positive :=
  match s with [] => xH | c :: s => if decide (c = "0"%char) then (of_bits s)~0%positive else (of_bits s)~1%positive end.

Lemma of_bits_bits p : of_bits (bits p) = p.
Proof. induction p as [p IH|p IH|]; simpl; [by rewrite IH..|done]. Qed.

Definition plain (s : str) : bool := match s with [] => false | c :: _ => bool_decide (c ≠ "!"%char) end.
Definition doc_dump (n : doc) : str :=
  match n with
  | GenLeaf s => if plain s then s else "!"%char :: bits (countable.encode n)
  | _ => "!"%char :: bits (countable.encode n)
  end.
Definition doc_load (s : str) : option doc :=
  if plain s then Some (GenLeaf s) else match s with [] => Some (GenNode 0 []) | _ :: s => countable.decode (of_bits s) end.

Fixpoint doc_size (n : doc) : nat :=
  match n with
  | GenLeaf _ => 0
  | GenNode _ l => S ((fix go (l : list doc) : nat := match l with [] => 0 | v :: l => doc_size v + go l end) l)
  end%nat.

#[global, refine] Instance doc_yaml : Yaml doc := {
  IsMap n := match n with GenNode 2 _ => true | _ => false end;
  IsScalar n := match n with GenLeaf _ => true | GenNode _ _ => false end;
  Scalar := doc_scalar;
  entries := doc_entries;
  dump := doc_dump;
  size := doc_size }.
Proof.
  intros [s|[|[|[|i]]] l] k v H; try (by apply not_elem_of_nil in H).
  unfold doc_entries in H. simpl. apply Nat.lt_succ_r.
  cut (v ∈ l); [|revert H].
  - clear H. induction l as [|w l IH]; [by intros ?%not_elem_of_nil|].
    intros [->|H]%elem_of_cons; [lia|]. specialize (IH H). lia.
  - assert (∀ m l, length l ≤ m → (k, v) ∈ pairs l → v ∈ l)%nat as Hp; [|by apply (Hp (length l))].
    clear l. induction m as [|m IH]; intros [|a [|b l]] Hl H; simpl in *; try lia; try (by apply not_elem_of_nil in H).
    apply elem_of_cons in H as [[= -> ->]|H]; [right; left|]. right; right. apply IH; [lia|done].
Defined.

Definition named (n : doc) : list (str * doc) := (λ kv, (doc_scalar kv.1, kv.2)) <$> doc_entries n.

#[global] Instance doc_text : YamlText doc := {
  Load := doc_load;
  null := GenNode 0 [];
  scalar := GenLeaf;
  sequence := GenNode 1;
  mapping l := GenNode 2 (flat l);
  push_back n x := GenNode 1 (children n ++ [x]);
  set_field n k x := GenNode 2 (flat (assign_key k x (named n)));
  length_of n := match n with GenNode 2 l => length (pairs l) | _ => length (children n) end;
  at_index n i := default (GenNode 0 []) (children n !! i);
  field n k := match n with GenLeaf _ => None | GenNode _ _ => Some (find_key k (named n)) end;
  as_string n := match n with GenLeaf s => Some s | GenNode 0 _ => Some (S_ "null") | GenNode _ _ => None end }.

Lemma named_mapping l : named (GenNode 2 (flat l)) = l.
Proof. unfold named. simpl. induction l as [|[k v] l IH]; [done|]. simpl. f_equal. exact IH. Qed.

#[global] Instance doc_laws : YamlLaws doc.
Proof.
  split; try done.
  - intros n. unfold dump. simpl. unfold doc_dump, doc_load.
    assert (countable.decode (of_bits (bits (countable.encode n))) = Some n) as He by (by rewrite of_bits_bits, decode_encode).
    destruct n as [s|i l]; [|exact He]. destruct (plain s) eqn:Hp; [by rewrite Hp|exact He].
  - intros l k x. unfold set_field, mapping. simpl. by rewrite named_mapping.
  - intros l i x H. exact (f_equal (default (GenNode 0 [] : doc)) H).
  - intros l. exists ((λ kv, GenLeaf kv.1) <$> l). split; [by induction l as [|[k v] l IH]; simpl; [|f_equal]|].
    change (pairs (flat l) = zip ((λ kv, GenLeaf kv.1) <$> l) l.*2).
    induction l as [|[k v] l IH]; [done|]. simpl. f_equal. exact IH.
  - intros l k. unfold field. simpl. by rewrite named_mapping.
Qed.

(** Natural numbers, as [boost::lexical_cast] reads and writes them. *)
#[global] Instance nat_of_str : LexicalCast str nat := λ s,
  match s with [] => None | _ => if forallb is_digit s then Some (Z.to_nat (digits 0 s)) else None end.
#[global] Instance str_of_nat : LexicalCast nat str := λ n, Some (S_ (pretty n)).

#[global, refine] Instance nat_RoundTrip : RoundTrip nat := { stable n := returns n }.
Proof. done. Defined.

(** The empty string in a container comes back as the text of the null document. *)
Example empty_string_lost : ∃ s t : str,
  cast ([[]] : vector str) = Some s ∧ cast s = Some ([t] : vector str) ∧ t ≠ [].
Proof. do 2 eexists. split; [vm_compute; reflexivity|]. split; [vm_compute; reflexivity|done]. Qed.

(** A string that is no document makes the container unprintable. *)
Example bad_string : (cast ([S_ "!0"] : vector str) : option str) = None.
Proof. vm_compute. done. Qed.

(** ** Witnesses *)

Lemma containers_roundtrip_witness :
  container_returns ([(S_ "a", ({[1; 5]} : gset nat)); (S_ "b", (∅ : gset nat))] : smap (unordered_set nat)).
Proof.
  apply (containers_roundtrip (A := unordered_set nat)).
  - repeat constructor; simpl; intros x Hx; [|set_solver].
    apply elem_of_union in Hx as [->%elem_of_singleton| ->%elem_of_singleton];
      do 2 eexists; (split_and!; vm_compute; reflexivity).
  - repeat constructor.
Defined.

End Convert.
