(* ===== verification/LogYaml.v ===== *)
(** * The configuration of the log as YAML (log/log.cc)

    [Module LogYaml]: the conversions of [LogDefine], its order, the [ToYamlString]
    functions of appenders, loggers and the manager, and the variable [logs] with its
    listener: what joins [Log], [Config] and [Convert].

    Theorems: the definitions of loggers come back from their text
    ([defines_roundtrip]); what the manager prints is the text of the definitions that
    describe its loggers ([manager_yaml]); setting the variable [logs] from a text
    configures the loggers ([logs_configured]). *)

From Stdlib Require Import Ascii String.
From S2P Require Import Prelude StringUtil Config Log Convert.
Import StringUtil Log Convert.

Module LogYaml.

Local Open Scope Z_scope.

(** [operator<] of [LogDefine]: only the names count. *)
#[global] Instance define_Less : Less LogDefine := λ x y, str_less (d_name x) (d_name y).

#[global] Instance define_LessLaws : LessLaws LogDefine.
Proof. split; [intros x y; apply str_less_asym|intros x y z; apply str_less_trans]. Qed.

(** [operator==] of [std::set]: as many elements, and equal one by one. *)
Fixpoint defines_eq (x y : list LogDefine) : bool :=
  match x, y with
  | [], [] => true
  | a :: x, b :: y => define_eq a b && defines_eq x y
  | _, _ => false
  end.

(** A [std::map] is traversed in the order of its keys. *)
Definition in_order {A} (m : gmap str A) : list (str * A) :=
  foldl (λ l kv, sset_insert kv l) [] (map_to_list m).

Lemma in_order_ok {A} (m : gmap str A) : ordered (in_order m) ∧ in_order m ≡ₚ map_to_list m.
Proof.
  unfold in_order. pose proof (NoDup_fst_map_to_list m) as Hnd.
  cut (∀ l acc : list (str * A), ordered acc → NoDup ((l ++ acc).*1) →
    ordered (foldl (λ l kv, sset_insert kv l) acc l) ∧ foldl (λ l kv, sset_insert kv l) acc l ≡ₚ l ++ acc).
  { intros H. destruct (H (map_to_list m) []) as [H1 H2]; [constructor|by rewrite app_nil_r|].
    by rewrite app_nil_r in H2. }
  clear Hnd. induction l as [|x l IH]; intros acc Ho Hn; [done|]. simpl.
  assert (sset_insert x acc ≡ₚ x :: acc) as Hx.
  { apply sset_insert_new. rewrite fmap_app in Hn. simpl in Hn. apply NoDup_cons in Hn as [Hn _]. set_solver. }
  destruct (IH (sset_insert x acc)) as [H1 H2].
  - by apply sset_insert_ordered.
  - rewrite Hx. by rewrite <- Permutation_middle.
  - split; [done|]. by rewrite H2, Hx, Permutation_middle.
Qed.

Section yaml.
Context {node : Type} `{!Yaml node} `{!YamlText node}.

(** ** Reading definitions *)

(** A field that may be left out. *)
Definition opt_string (a : node) (k : str) : option str :=
  x ← field a k; match x with None => Some [] | Some x => as_string x end.

(** One entry of [appenders]; an invalid one is reported and skipped. *)
Definition appender_of_node (a : node) : option (option LogAppenderDefine) :=
  t ← field a (S_ "type");
  match t with
  | None => Some None
  | Some t =>
      type ← as_string t;
      if decide (type = S_ "FileLogAppender") then
        f ← field a (S_ "file");
        match f with
        | None => Some None
        | Some f =>
            file ← as_string f;
            pattern ← opt_string a (S_ "pattern");
            Some (Some (mkAppenderDefine 1 pattern file))
        end
      else if decide (type = S_ "StdoutLogAppender") then
        pattern ← opt_string a (S_ "pattern");
        Some (Some (mkAppenderDefine 2 pattern []))
      else Some None
  end.

Fixpoint read_appenders (aps : node) (n i : nat) (acc : list LogAppenderDefine) : option (list LogAppenderDefine) :=
  match n with
  | O => Some acc
  | S n =>
      lad ← appender_of_node (at_index aps i);
      read_appenders aps n (S i) (match lad with None => acc | Some lad => acc ++ [lad] end)
  end.

(** A definition without a name is an exception. *)
#[global] Instance define_of_str : LexicalCast str LogDefine := λ v,
  n ← Load v;
  name ← field n (S_ "name");
  match name with
  | None => None
  | Some name =>
      name ← as_string name;
      level ← opt_string n (S_ "level");
      aps ← field n (S_ "appenders");
      l ← match aps with None => Some [] | Some aps => read_appenders aps (length_of aps) 0 [] end;
      Some (mkDefine name (FromString level) l)
  end.

(** ** Writing definitions *)

Definition node_of_appender (a : LogAppenderDefine) : node :=
  let na := null in
  let na :=
    if decide (type a = 1) then
      set_field (set_field na (S_ "type") (scalar (S_ "FileLogAppender"))) (S_ "file") (scalar (file a))
    else if decide (type a = 2) then set_field na (S_ "type") (scalar (S_ "StdoutLogAppender"))
    else na in
  if decide (pattern a = []) then na else set_field na (S_ "pattern") (scalar (pattern a)).

(** [n[k].push_back(x)]. *)
Definition push_field (n : node) (k : str) (x : node) : option node :=
  y ← field n k; Some (set_field n k (push_back (default null y) x)).

Fixpoint push_appenders (n : node) (l : list node) : option node :=
  match l with
  | [] => Some n
  | na :: l => n ← push_field n (S_ "appenders") na; push_appenders n l
  end.

Definition header (name : str) (level : Level) : node :=
  set_field (set_field null (S_ "name") (scalar name)) (S_ "level") (scalar (ToString level)).

#[global] Instance str_of_define : LexicalCast LogDefine str := λ i,
  dump <$> push_appenders (header (d_name i) (d_level i)) (node_of_appender <$> d_appenders i).

(** ** Printing loggers *)

Definition of_option {A} (x : option A) : res A := match x with Some a => Ok a | None => Err LogicError end.

(** [ToYamlString] of the two classes; that of the terminal follows [formatter_], which
    is null until [SetFormatter]. *)
Definition StdoutLogAppender_ToYamlString (a : LogAppender) : res str :=
  match formatter_ a with
  | None => Err UndefinedBehaviour
  | Some f => Ok (dump (set_field (set_field null (S_ "type") (scalar (S_ "StdoutLogAppender")))
                          (S_ "pattern") (scalar (pattern_ f))))
  end.

Definition FileLogAppender_ToYamlString (file_name_ : str) (a : LogAppender) : str :=
  dump (set_field (set_field (set_field null (S_ "type") (scalar (S_ "FileLogAppender")))
                     (S_ "file") (scalar file_name_))
          (S_ "pattern") (scalar (pattern_ (GetFormatter a)))).

Definition appender_ToYamlString (a : LogAppender) : res str :=
  match kind a with
  | StdoutLogAppender => StdoutLogAppender_ToYamlString a
  | FileLogAppender file _ _ _ => Ok (FileLogAppender_ToYamlString file a)
  end.

Fixpoint print_appenders (n : node) (ids : list nat) : M Logs node :=
  match ids with
  | [] => mret n
  | id :: ids =>
      a ← deref id;
      t ← mlift (appender_ToYamlString a);
      x ← mlift (of_option (Load t));
      n ← mlift (of_option (push_field n (S_ "appenders") x));
      print_appenders n ids
  end.

Definition Logger_ToYamlString (l : Logger) : M Logs str :=
  n ← print_appenders (header (name_ l) (level_ l)) (appenders_ l); mret (dump n).

Fixpoint print_loggers (n : node) (l : list (str * Logger)) : M Logs node :=
  match l with
  | [] => mret n
  | (_, i) :: l =>
      t ← Logger_ToYamlString i;
      x ← mlift (of_option (Load t));
      print_loggers (push_back n x) l
  end.

Definition LoggerManager_ToYamlString : M Logs str :=
  s ← mget; n ← print_loggers null (in_order (loggers_ s)); mret (dump n).

(** ** Definitions come back *)

Context `{!YamlLaws node}.

(** What is left of a definition when it was written and read: entries of no known class
    are skipped, the terminal has no file, and a level without a name is [NOTSET]. *)
Definition normal_appender (a : LogAppenderDefine) : option LogAppenderDefine :=
  if decide (type a = 1) then Some a
  else if decide (type a = 2) then Some (mkAppenderDefine 2 (pattern a) [])
  else None.

Definition normal (d : LogDefine) : LogDefine :=
  mkDefine (d_name d) (FromString (ToString (d_level d))) (omap normal_appender (d_appenders d)).

(** The fields of an appender. *)
Definition appender_fields (a : LogAppenderDefine) : list (str * node) :=
  (if decide (type a = 1) then
     [(S_ "type", scalar (S_ "FileLogAppender")); (S_ "file", scalar (file a))]
   else if decide (type a = 2) then [(S_ "type", scalar (S_ "StdoutLogAppender"))] else []) ++
  (if decide (pattern a = []) then [] else [(S_ "pattern", scalar (pattern a))]).

Definition fields_node (l : list (str * node)) : node := match l with [] => null | _ => mapping l end.

Lemma set_fields_node l k x : set_field (fields_node l) k x = fields_node (assign_key k x l).
Proof using All.
  destruct l as [|[k' x'] l]; [apply set_field_null|]. unfold fields_node at 1. rewrite set_field_mapping.
  simpl. by case_decide.
Qed.

Lemma field_fields_node l k : field (fields_node l) k = Some (find_key k l).
Proof using All. destruct l; [apply field_null|apply field_mapping]. Qed.

Lemma node_of_appender_fields a : node_of_appender a = fields_node (appender_fields a).
Proof using All.
  unfold node_of_appender, appender_fields. change (null : node) with (fields_node []).
  repeat case_decide; rewrite ?set_fields_node; reflexivity.
Qed.

Lemma find_pattern a : opt_string (node_of_appender a) (S_ "pattern") = Some (pattern a).
Proof using All.
  unfold opt_string. rewrite node_of_appender_fields, field_fields_node. unfold appender_fields. simpl.
  destruct (decide (pattern a = [])) as [Hp|Hp]; repeat case_decide; simpl; rewrite ?Hp; try done;
    apply as_string_scalar.
Qed.

Lemma appender_roundtrip a : appender_of_node (node_of_appender a) = Some (normal_appender a).
Proof using All.
  unfold appender_of_node. rewrite find_pattern.
  rewrite node_of_appender_fields, !field_fields_node. unfold appender_fields, normal_appender.
  destruct (decide (type a = 1)) as [H1|H1].
  { simpl. rewrite !as_string_scalar. simpl. destruct a. simpl in *. by subst. }
  destruct (decide (type a = 2)) as [H2|H2].
  { simpl. rewrite !as_string_scalar. simpl. done. }
  by destruct (decide (pattern a = [])).
Qed.

Lemma read_appenders_ok ns rs : Forall2 (λ n r, appender_of_node n = Some r) ns rs → ∀ pre acc,
  read_appenders (sequence (pre ++ ns)) (length ns) (length pre) acc = Some (acc ++ omap id rs).
Proof using All.
  induction 1 as [|n r ns rs Hn _ IH]; intros pre acc; [simpl; by rewrite app_nil_r|]. cbn [read_appenders length].
  rewrite (at_sequence _ _ n) by (rewrite lookup_app_r, Nat.sub_diag by lia; done).
  rewrite Hn. cbn [mbind option_bind].
  specialize (IH (pre ++ [n])). rewrite length_app, Nat.add_1_r, <- (assoc_L (++)) in IH.
  simpl in *. rewrite IH. destruct r; simpl; [by rewrite <- (assoc_L (++))|done].
Qed.

(** The node of a definition. *)
Definition define_fields (name : str) (level : Level) (l : list node) : list (str * node) :=
  [(S_ "name", scalar name); (S_ "level", scalar (ToString level))] ++
  (if decide (l = []) then [] else [(S_ "appenders", sequence l)]).

Lemma header_fields name level : header name level = mapping (define_fields name level []).
Proof using All.
  unfold header. change (null : node) with (fields_node []). rewrite !set_fields_node. reflexivity.
Qed.

Lemma push_field_fields name level l x :
  push_field (mapping (define_fields name level l)) (S_ "appenders") x =
  Some (mapping (define_fields name level (l ++ [x]))).
Proof using All.
  unfold push_field, define_fields. rewrite field_mapping. rewrite (decide_False (P := l ++ [x] = [])) by (by destruct l).
  destruct (decide (l = [])) as [->|Hl]; simpl.
  - by rewrite push_back_null, set_field_mapping.
  - by rewrite push_back_sequence, set_field_mapping.
Qed.

Lemma push_appenders_ok name level l : ∀ pre,
  push_appenders (mapping (define_fields name level pre)) l = Some (mapping (define_fields name level (pre ++ l))).
Proof using All.
  induction l as [|x l IH]; intros pre; cbn [push_appenders]; [by rewrite app_nil_r|].
  rewrite push_field_fields. cbn [mbind option_bind]. by rewrite IH, <- (assoc_L (++)).
Qed.

(** Reading the text of such a node. *)
Lemma cast_define name level ns rs : Forall2 (λ n r, appender_of_node n = Some r) ns rs →
  cast (dump (mapping (define_fields name level ns))) =
  Some (mkDefine name (FromString (ToString level)) (omap id rs)).
Proof using All.
  intros Hr. unfold cast, define_of_str. rewrite Load_dump. unfold opt_string. cbn [mbind option_bind]. rewrite !field_mapping.
  unfold define_fields. simpl. rewrite !as_string_scalar. simpl. destruct (decide (ns = [])) as [->|Hl]; simpl.
  - by inversion Hr.
  - rewrite length_sequence. pose proof (read_appenders_ok ns rs Hr [] []) as H. simpl in H. by rewrite H.
Qed.

Lemma define_writes (i : LogDefine) :
  cast i = Some (dump (mapping (define_fields (d_name i) (d_level i) (node_of_appender <$> d_appenders i)))).
Proof using All. unfold cast, str_of_define. by rewrite header_fields, push_appenders_ok. Qed.

Lemma define_roundtrip (i : LogDefine) : ∃ n, cast i = Some (dump n) ∧ cast (dump n) = Some (normal i).
Proof using All.
  rewrite define_writes. eexists. split; [done|].
  rewrite (cast_define _ _ _ (normal_appender <$> d_appenders i)).
  - unfold normal. do 2 f_equal. induction (d_appenders i) as [|a l IH]; [done|]. simpl. unfold id at 1.
    destruct (normal_appender a); [by f_equal|done].
  - rewrite Forall2_fmap. apply Forall_Forall2_diag, Forall_true, appender_roundtrip.
Qed.

#[global, refine] Instance define_RoundTrip : RoundTrip LogDefine := { stable i := normal i = i }.
Proof using All.
  intros i Hi. destruct (define_roundtrip i) as (n & H1 & H2). exists (dump n), n. by rewrite Load_dump, H2, Hi.
Defined.

(** A definition that comes back: a level of the list or [NOTSET], and every appender of
    a known class, without a file for the terminal. *)
Definition proper (i : LogDefine) : Prop :=
  (d_level i ∈ level_names.*1 ∨ d_level i = NOTSET) ∧
  Forall (λ a, type a = 1 ∨ type a = 2 ∧ file a = []) (d_appenders i).

Lemma level_back level : level ∈ level_names.*1 ∨ level = NOTSET ↔ FromString (ToString level) = level.
Proof using.
  split.
  - intros [Hl| ->]; [|reflexivity]. revert Hl. unfold level_names. simpl. rewrite !elem_of_cons.
    intros Hl. repeat destruct Hl as [->|Hl]; try reflexivity. by apply not_elem_of_nil in Hl.
  - intros Hl. destruct (decide (level ∈ level_names.*1)) as [H|H]; [by left|right]. rewrite <- Hl.
    assert (ToString level = S_ "NOTSET") as ->; [|reflexivity]. unfold ToString.
    assert (assoc level_names level = None) as ->; [|done]. revert H. unfold level_names. simpl.
    rewrite !not_elem_of_cons. intros H. by repeat rewrite decide_False by tauto.
Qed.

Lemma proper_normal i : proper i ↔ normal i = i.
Proof using.
  unfold proper, normal. rewrite level_back. destruct i as [name level l]. simpl.
  assert (Forall (λ a, type a = 1 ∨ type a = 2 ∧ file a = []) l ↔ omap normal_appender l = l) as ->.
  2: { split; [intros [-> ->]; done|]. intros [= -> ->]. done. }
  split.
  - induction 1 as [|a l Ha _ IH]; [done|]. simpl. unfold normal_appender at 1. destruct a as [t pt f]. simpl in *.
    destruct Ha as [-> |[-> ->]]; simpl; exact (f_equal (cons _) IH).
  - intros H. rewrite Forall_forall. intros a Ha. rewrite <- H in Ha.
    apply list_elem_of_omap in Ha as (b & _ & Hb). unfold normal_appender in Hb.
    repeat case_decide; simplify_eq; auto.
Qed.

(** A definition of a logger that is written as YAML and read again has the same name,
    the level if it is one of the list, and its appenders in order, those of no known
    class being left out and those on the terminal losing their file. So every set of
    proper definitions, the value of the variable [logs], comes back from its text. *)
Theorem defines_roundtrip :
  (∀ i : LogDefine, ∃ n, cast i = Some (dump n) ∧ cast (dump n) = Some (normal i)) ∧
  (∀ i, proper i ↔ normal i = i) ∧
  (∀ v : sset LogDefine, Forall proper v → ordered v → container_returns v).
Proof using All.
  split; [apply define_roundtrip|]. split; [apply proper_normal|]. intros v Hv Ho. apply set_returns; [|done].
  apply (Forall_impl _ _ _ Hv). intros i. apply proper_normal.
Qed.

(** ** What is printed *)

(** [ToYamlString] of the terminal needs a formatter of its own. *)
Definition printable (s : Logs) (id : nat) : bool :=
  match heap s !! id with
  | Some a => match kind a with StdoutLogAppender => bool_decide (is_Some (formatter_ a)) | _ => true end
  | None => false
  end.

(** The definition that describes an appender, and a logger. *)
Definition describe_appender (a : LogAppender) : LogAppenderDefine :=
  match kind a with
  | StdoutLogAppender => mkAppenderDefine 2 (pattern_ (GetFormatter a)) []
  | FileLogAppender file _ _ _ => mkAppenderDefine 1 (pattern_ (GetFormatter a)) file
  end.

Definition describe (s : Logs) (l : Logger) : LogDefine :=
  mkDefine (name_ l) (FromString (ToString (level_ l)))
    (omap (λ id, describe_appender <$> heap s !! id) (appenders_ l)).

Definition appender_node (a : LogAppender) : node :=
  match kind a with
  | StdoutLogAppender =>
      mapping [(S_ "type", scalar (S_ "StdoutLogAppender")); (S_ "pattern", scalar (pattern_ (GetFormatter a)))]
  | FileLogAppender file _ _ _ =>
      mapping [(S_ "type", scalar (S_ "FileLogAppender")); (S_ "file", scalar file);
               (S_ "pattern", scalar (pattern_ (GetFormatter a)))]
  end.

Definition logger_node (s : Logs) (l : Logger) : node :=
  mapping (define_fields (name_ l) (level_ l) (omap (λ id, appender_node <$> heap s !! id) (appenders_ l))).

Lemma appender_node_describe a : appender_of_node (appender_node a) = Some (Some (describe_appender a)).
Proof using All.
  unfold appender_of_node, appender_node, describe_appender, opt_string.
  destruct (kind a); rewrite !field_mapping; simpl; rewrite !as_string_scalar; done.
Qed.

Lemma appender_prints id s a : heap s !! id = Some a →
  appender_ToYamlString a = if printable s id then Ok (dump (appender_node a)) else Err UndefinedBehaviour.
Proof using All.
  intros Ha. unfold appender_ToYamlString, StdoutLogAppender_ToYamlString, FileLogAppender_ToYamlString, printable,
    appender_node, GetFormatter. rewrite Ha.
  destruct (kind a) as [|f st t e].
  - destruct (formatter_ a) as [f|]; [|done]. by rewrite set_field_null, set_field_mapping.
  - by rewrite set_field_null, !set_field_mapping.
Qed.

Lemma print_appenders_ok name level s ids : ∀ pre,
  print_appenders (mapping (define_fields name level pre)) ids s =
  if forallb (printable s) ids then
    (Ok (mapping (define_fields name level (pre ++ omap (λ id, appender_node <$> heap s !! id) ids))), s)
  else (Err UndefinedBehaviour, s).
Proof using All.
  induction ids as [|id ids IH]; intros pre; [simpl; by rewrite app_nil_r|]. cbn [print_appenders forallb].
  destruct (heap s !! id) as [a|] eqn:Ha.
  2: { rewrite (bind_err _ _ _ s UndefinedBehaviour) by (unfold deref; by rewrite Ha).
    unfold printable at 1. by rewrite Ha. }
  erewrite bind_ok by (unfold deref; rewrite Ha; reflexivity).
  rewrite bind_mlift, (appender_prints id s a Ha). destruct (printable s id); [|done]. cbn [andb].
  rewrite bind_mlift, Load_dump. cbn [of_option]. rewrite bind_mlift, push_field_fields. cbn [of_option].
  rewrite IH. destruct (forallb (printable s) ids); [|done]. simpl. rewrite Ha. simpl.
  by rewrite <- (assoc_L (++)).
Qed.

Lemma logger_prints s l : Logger_ToYamlString l s =
  if forallb (printable s) (appenders_ l) then (Ok (dump (logger_node s l)), s) else (Err UndefinedBehaviour, s).
Proof using All.
  unfold Logger_ToYamlString. rewrite header_fields, bind_unfold, print_appenders_ok.
  by destruct (forallb (printable s) (appenders_ l)).
Qed.

Lemma logger_describe s l : forallb (printable s) (appenders_ l) = true →
  cast (dump (logger_node s l)) = Some (describe s l).
Proof using All.
  intros Hp. unfold logger_node. rewrite (cast_define _ _ _
    (Some <$> omap (λ id, describe_appender <$> heap s !! id) (appenders_ l))).
  - unfold describe. do 2 f_equal. induction (omap (λ id, describe_appender <$> heap s !! id) (appenders_ l)) as [|x l' IH];
      [done|]. simpl. unfold id at 1. by f_equal.
  - clear Hp. induction (appenders_ l) as [|id ids IH]; simpl; [constructor|].
    destruct (heap s !! id) as [a|]; [|exact IH]. simpl. constructor; [apply appender_node_describe|exact IH].
Qed.

Definition items_node (l : list node) : node := match l with [] => null | _ => sequence l end.

Lemma push_back_items l x : push_back (items_node l) x = items_node (l ++ [x]).
Proof using All. destruct l; [apply push_back_null|apply push_back_sequence]. Qed.

Definition logger_prints_all (s : Logs) (kl : str * Logger) : bool := forallb (printable s) (appenders_ kl.2).

Lemma print_loggers_ok s l : ∀ pre,
  print_loggers (items_node pre) l s =
  if forallb (logger_prints_all s) l then (Ok (items_node (pre ++ ((λ kl, logger_node s kl.2) <$> l))), s)
  else (Err UndefinedBehaviour, s).
Proof using All.
  induction l as [|[k i] l IH]; intros pre; [simpl; by rewrite app_nil_r|]. cbn [print_loggers forallb].
  unfold logger_prints_all at 1. cbn [snd]. rewrite bind_unfold, logger_prints.
  destruct (forallb (printable s) (appenders_ i)); [|done].
  rewrite bind_mlift, Load_dump. cbn [of_option andb]. rewrite push_back_items, IH.
  destruct (forallb (logger_prints_all s) l); [|done]. simpl. by rewrite <- (assoc_L (++)).
Qed.

(** Loggers are filed under their names. *)
Definition named_loggers (s : Logs) : Prop := map_Forall (λ name l, name_ l = name) (loggers_ s).

Definition describe_all (s : Logs) (l : list (str * Logger)) : list LogDefine := (λ kl, describe s kl.2) <$> l.

Lemma describe_ordered s l : (∀ k i, (k, i) ∈ l → name_ i = k) → ordered l → ordered (describe_all s l).
Proof using.
  intros Hk. induction 1 as [|[k i] l Hs IH Hf]; [constructor|]. simpl. constructor.
  - apply IH. intros k' i' Hin. apply Hk. by right.
  - unfold describe_all. rewrite Forall_fmap. rewrite Forall_forall in Hf |- *. intros [k' i'] Hin. specialize (Hf _ Hin).
    unfold less, define_Less, key_Less in *. simpl in *.
    by rewrite (Hk k i), (Hk k' i') by (try (by right); by left).
Qed.

Lemma read_loggers s l : forallb (logger_prints_all s) l = true → ordered (describe_all s l) →
  cast (dump (items_node ((λ kl, logger_node s kl.2) <$> l))) = Some ((describe_all s l) : sset LogDefine).
Proof using All.
  intros Hp Ho. destruct l as [|kl l].
  { unfold cast, set_of_str. simpl. rewrite Load_dump. simpl. by rewrite length_null. }
  refine (eq_trans (read_sequence (λ vec x, sset_insert x vec) [] (describe_all s (kl :: l))
    ((λ kl, logger_node s kl.2) <$> (kl :: l)) _) _); [|by rewrite insert_ordered].
  rewrite forallb_forall in Hp. unfold describe_all. apply Forall2_fmap, Forall_Forall2_diag, Forall_forall.
  intros i Hi. apply logger_describe. apply Hp. by apply list_elem_of_In.
Qed.

(** C15. The manager prints the text of the definitions that describe its loggers, one for
    each, with its name, its level and for each of its appenders the class, the file and
    the format: loaded as the variable [logs] it gives back that configuration. But if
    any logger has an appender on the terminal without a formatter of its own, as the
    root logger of every new manager has, it follows a null pointer. *)
Theorem manager_yaml s : named_loggers s →
  (map_Forall (λ _ l, forallb (printable s) (appenders_ l) = true) (loggers_ s) →
    ∃ t (ds : list LogDefine), LoggerManager_ToYamlString s = (Ok t, s) ∧ cast t = Some (ds : sset LogDefine) ∧
      ordered ds ∧ ∀ d, d ∈ ds ↔ ∃ name l, loggers_ s !! name = Some l ∧ d = describe s l) ∧
  (¬ map_Forall (λ _ l, forallb (printable s) (appenders_ l) = true) (loggers_ s) →
    LoggerManager_ToYamlString s = (Err UndefinedBehaviour, s)).
Proof using All.
  intros Hn. destruct (in_order_ok (loggers_ s)) as [Ho Hperm].
  assert (∀ k i, (k, i) ∈ in_order (loggers_ s) ↔ loggers_ s !! k = Some i) as Hin.
  { intros k i. rewrite Hperm. apply elem_of_map_to_list. }
  assert (forallb (logger_prints_all s) (in_order (loggers_ s)) = true ↔
    map_Forall (λ _ l, forallb (printable s) (appenders_ l) = true) (loggers_ s)) as Hall.
  { rewrite forallb_forall. split.
    - intros H k i Hi. apply (H (k, i)), list_elem_of_In, Hin. done.
    - intros H [k i] Hi. apply list_elem_of_In, Hin in Hi. exact (H k i Hi). }
  unfold LoggerManager_ToYamlString. rewrite bind_mget, bind_unfold.
  change (null : node) with (items_node []). rewrite print_loggers_ok. split.
  - intros Hp. apply Hall in Hp. rewrite Hp. eexists _, (describe_all s (in_order (loggers_ s))).
    assert (ordered (describe_all s (in_order (loggers_ s)))) as Hd.
    { apply describe_ordered; [|done]. intros k i Hi. apply Hin in Hi. exact (Hn k i Hi). }
    split; [reflexivity|]. split; [by apply read_loggers|]. split; [done|]. intros d. unfold describe_all. rewrite list_elem_of_fmap. split.
    + intros ([k i] & -> & Hi). apply Hin in Hi. eauto.
    + intros (k & i & Hi & ->). exists (k, i). by rewrite Hin.
  - intros Hp. rewrite <- Hall in Hp. by apply not_true_is_false in Hp as ->.
Qed.

(** ** The variable [logs] *)

Definition logs : str := S_ "logs".

(** Values, equality and conversions of the variable. *)
Definition logs_eqb (t : ()) (x y : sset LogDefine) : bool := defines_eq x y.
Definition logs_FromStr (t : ()) (s : str) : option (sset LogDefine) := cast s.
Definition logs_ToStr (t : ()) (v : sset LogDefine) : option str := cast v.

Definition on_change_cb : Type := Config.on_change_cb (V := sset LogDefine) (W := Logs).
Definition Configuration : Type := Config.State (T := ()) (V := sset LogDefine) (W := Logs).

Definition logs_var : Type := Config.ConfigVar (T := ()) (V := sset LogDefine) (W := Logs).

(** [g_log_defines] and [LogIniter]. *)
Definition LogIniter (cb : on_change_cb) : M Configuration unit :=
  p ← Config.Lookup tt logs [] (S_ "logs config");
  match p with
  | None => mthrow UndefinedBehaviour
  | Some g_log_defines => Config.AddListener g_log_defines cb;; mret tt
  end.

Definition set_logs (t : str) : M Configuration bool := Config.FromString logs_eqb logs_FromStr logs t.

Lemma defines_eq_unchanged new old : NoDup (d_name <$> old) → defines_eq new old = true → Forall (unchanged old) new.
Proof using.
  intros Hnd Heq. cut (Forall (λ i, ∃ it, it ∈ old ∧ d_name it = d_name i ∧ d_level it = d_level i) new).
  - intros H. apply (Forall_impl _ _ _ H). intros i (it & Hin & Hname & Hl) it' Hf.
    pose proof (find_define_in _ _ Hnd Hin) as Hfi. rewrite Hname in Hfi. by simplify_eq.
  - clear Hnd. revert old Heq. induction new as [|i new IH]; intros [|it old] Heq; try done. simpl in Heq.
    apply andb_true_iff in Heq as [H1 H2]. unfold define_eq in H1. rewrite andb_true_r in H1.
    apply andb_true_iff in H1 as [Hn%bool_decide_eq_true Hl%bool_decide_eq_true].
    constructor; [exists it; split; [by left|done]|].
    apply (Forall_impl _ _ _ (IH old H2)). intros j (jt & Hj & H). exists jt. split; [by right|done].
Qed.

Lemma ordered_names (l : list LogDefine) : ordered l → NoDup (d_name <$> l).
Proof using.
  intros H. assert (ordered ((λ d, (d_name d, ())) <$> l)) as Ho.
  { induction H as [|d l _ IH Hd]; simpl; [constructor|]. constructor; [exact IH|].
    apply Forall_fmap. exact Hd. }
  apply ordered_keys in Ho. by rewrite <- list_fmap_compose in Ho.
Qed.

(** The assignment of a text that converts. *)
Lemma set_logs_step (s : Configuration) (x : logs_var) k cb t (new : sset LogDefine) : Config.datas s !! logs = Some x →
  Config.cbs_ x = [(k, cb)] → cast t = Some new →
  set_logs t s =
    if defines_eq new (Config.val_ x) then (Ok false, s)
    else match cb (Config.val_ x) new (Config.world s) with
         | (Ok _, w) => (Ok false, Config.set_world w (Config.put logs (Config.set_val new x) s))
         | (Err e, w) => (if Config.is_exception e then Ok false else Err e, Config.set_world w s)
         end.
Proof using.
  intros Hx Hcb Ht. unfold set_logs, Config.FromString.
  rewrite (bind_ok _ _ _ _ _ (Config.var_ok _ _ _ Hx)). unfold logs_FromStr. rewrite Ht, bind_unfold.
  unfold Config.catch, Config.SetValue. rewrite (bind_ok _ _ _ _ _ (Config.var_ok _ _ _ Hx)). unfold logs_eqb.
  destruct (defines_eq new (Config.val_ x)); [done|]. rewrite bind_unfold, Hcb. cbn [Config.notify]. rewrite bind_unfold.
  destruct (cb (Config.val_ x) new (Config.world s)) as [[[]|e] w]; [done|]. by destruct (Config.is_exception e).
Qed.

(** C13. Setting the variable [logs] from a text, as loading a configuration does: a set
    of definitions that differs from the old one only in appenders changes nothing at all.
    Otherwise, when no logger that was defined before gets another level, the variable
    gets the new value, every new definition a logger of its level with an appender
    for each entry, every definition that is gone leaves a silent logger, and no other
    logger and no other variable changes; when one does, the listener follows a null
    pointer. *)
Theorem logs_configured o daemon now event (s : Configuration) (x : logs_var) k t (new : sset LogDefine) w1 :
  Config.datas s !! logs = Some x → Config.cbs_ x = [(k, on_log_config o daemon now event)] →
  cast t = Some new → ordered new → ordered (Config.val_ x) →
  Forall (λ i, Forall usable (d_appenders i)) new → LOG_LEVEL o root event (Config.world s) = (Ok tt, w1) →
  (defines_eq new (Config.val_ x) = true → set_logs t s = (Ok false, s)) ∧
  (defines_eq new (Config.val_ x) = false → Forall (unchanged (Config.val_ x)) new →
    ∃ s', set_logs t s = (Ok false, s') ∧ Config.datas s' = <[logs := Config.set_val new x]> (Config.datas s) ∧
    ∀ name, match find_define new name, find_define (Config.val_ x) name with
            | Some d, None => configured daemon (Config.world s') d
            | None, Some _ => disabled (Config.world s') name
            | _, _ => loggers_ (Config.world s') !! name = loggers_ w1 !! name
            end) ∧
  (¬ Forall (unchanged (Config.val_ x)) new → (set_logs t s).1 = Err UndefinedBehaviour).
Proof using All.
  intros Hx Hcb Ht Hn%ordered_names Ho%ordered_names Hu Hlog.
  pose proof (listener_spec o daemon now event _ new _ w1 Hlog Hn Ho Hu) as [Hok Hbad].
  rewrite (set_logs_step s x k _ t new Hx Hcb Ht). split; [by intros ->|]. split.
  - intros -> Hun. destruct (Hok Hun) as (w & -> & _ & Hw). eexists. split; [reflexivity|]. split; [done|exact Hw].
  - intros Hun. destruct (defines_eq new (Config.val_ x)) eqn:Heq; [by destruct Hun; apply defines_eq_unchanged|].
    specialize (Hbad Hun). destruct (on_log_config _ _ _ _ _ _ _) as [[?|e] w]; simpl in Hbad; by simplify_eq.
Qed.
End yaml.

(** ** Edge cases *)

(** Printing the configuration of a new manager follows a null pointer. *)
Example new_manager_crashes : LoggerManager_ToYamlString (node := doc) sample_logs = (Err UndefinedBehaviour, sample_logs).
Proof. vm_compute. done. Qed.

(** A definition without a name is refused; so are all definitions of a set with one. *)
Definition nameless : doc := mapping [(S_ "level", scalar (S_ "INFO"))].
Example name_missing : (cast (dump nameless) : option LogDefine) = None ∧
  (cast (dump (sequence [nameless; mapping [(S_ "name", scalar (S_ "a"))]] : doc)) : option (sset LogDefine)) = None.
Proof. split; vm_compute; done. Qed.

(** Of two definitions of one name the first one counts. *)
Example first_counts : (cast (dump (sequence
    [mapping [(S_ "name", scalar (S_ "a")); (S_ "level", scalar (S_ "info"))];
     mapping [(S_ "name", scalar (S_ "a")); (S_ "level", scalar (S_ "error"))]] : doc)) : option (sset LogDefine)) =
  Some [mkDefine (S_ "a") INFO []].
Proof. vm_compute. done. Qed.

(** ** Witnesses *)

Lemma defines_roundtrip_witness : container_returns ([sample_define] : sset LogDefine).
Proof.
  apply defines_roundtrip; [|repeat constructor]. apply Forall_singleton. split.
  - left. apply (bool_decide_unpack _). vm_compute. exact I.
  - apply Forall_singleton. by right.
Defined.

(** A manager whose root logger has a formatter on its terminal. *)
Definition tidy_logs : Logs :=
  match heap sample_logs !! 0%nat with
  | Some a => store 0 (SetFormatter (Some (default_formatter_ a)) a) sample_logs
  | None => sample_logs
  end.

Lemma manager_yaml_witness : ∃ t,
  LoggerManager_ToYamlString (node := doc) tidy_logs = (Ok t, tidy_logs) ∧ is_Some (cast t : option (sset LogDefine)).
Proof.
  assert (loggers_ tidy_logs = {[root := mkLogger root INFO [0%nat] 0]}) as Hl by (vm_compute; reflexivity).
  destruct (manager_yaml (node := doc) tidy_logs) as [H _].
  - unfold named_loggers. rewrite Hl. apply map_Forall_singleton. reflexivity.
  - destruct H as (t & ds & H1 & H2 & _); [rewrite Hl; apply map_Forall_singleton; vm_compute; reflexivity|].
    exists t. split; [exact H1|]. rewrite H2. by eexists.
Defined.

Definition sample_listener : on_change_cb := on_log_config sample_os false 9 sample_event.
Definition sample_configuration : Configuration :=
  (LogIniter sample_listener (Config.mkState ∅ (λ _, 0) sample_logs)).2.
Definition sample_text : str := default [] (cast ([sample_define] : sset LogDefine)).

Lemma logs_configured_witness : ∃ s', set_logs sample_text sample_configuration = (Ok false, s') ∧
  configured false (Config.world s') sample_define.
Proof.
  destruct (LOG_LEVEL sample_os root sample_event sample_logs) as [r w1] eqn:Hlog.
  assert (r = Ok tt) as -> by (change r with (r, w1).1; rewrite <- Hlog; vm_compute; reflexivity).
  assert (Forall (λ i, Forall usable (d_appenders i)) [sample_define]) as Hu.
  { apply Forall_singleton, Forall_singleton. split; [by right|]. eexists. vm_compute. reflexivity. }
  destruct (logs_configured sample_os false 9 sample_event sample_configuration
    (Config.Var logs (S_ "logs config") () [] [(1, sample_listener)]) 1 sample_text [sample_define] w1)
    as (_ & H & _); [reflexivity|reflexivity|vm_compute; reflexivity|repeat constructor|constructor|exact Hu|exact Hlog|].
  destruct H as (s' & Hs & _ & H); [reflexivity|constructor; [intros it Hit; discriminate|constructor]|].
  exists s'. split; [exact Hs|]. exact (H (S_ "net")).
Defined.

End LogYaml.
